(* ===== verification/_CoqProject ===== *)
-Q . S2P
Prelude.v
Runtime.v
Channel.v
ChannelSpec.v
ChannelRing.v
ChannelRefine.v
ChannelRun.v
ChannelProps.v
AsyncMutex.v
AsyncMutexRun.v
AsyncMutexProps.v
ConditionVariable.v
ConditionVariableProps.v
WaitGroup.v
WaitGroupLifetime.v
Task.v
TaskRun.v
TaskOwn.v
TaskProps.v
Dispatcher.v
Uring.v
Engine.v
EngineProps.v
IoRequests.v
Context.v
ContextProps.v
WorkerRun.v
ContextRun.v
Migration.v
Scheduler.v
SchedulerProps.v
SchedulerTask.v
Wakeup.v
WhenAll.v
WhenAllTuple.v
WhenAllLaunch.v
System.v
SystemClose.v
SystemStart.v
SystemInv.v
SystemRun.v
SystemProps.v
Responsive.v
MultisetOrder.v
Program.v
ProgramInv.v
ProgramRun.v
ProgramIo.v
ProgramTurn.v
ProgramWork.v
ProgramProps.v
Fleet.v
FleetRun.v
FleetSteps.v
FleetEnd.v
FleetProps.v
