(* ===== verification/Prelude.v ===== *)
(** * tiny_coroutine: a verification development

    tiny_coroutine is a small C++20 coroutine runtime: lazily started [Task]s,
    synchronization primitives that suspend coroutines instead of threads
    (channel, mutex, condition variable, wait group, [when_all]), and a
    scheduler whose worker threads resume ready coroutines and drive io_uring.
    This development models all of include/ and src/ of the library and proves
    what makes it correct; paths below are relative to the repository.

    ** How the program's parts interact

    A primitive parks the handle of a suspended coroutine in a queue of its
    own.  The operation that lets the coroutine go on takes the handle out
    under the primitive's lock and, after releasing it, passes it to
    [reschedule_or_resume] (src/runtime/resume_handle.cpp): on a worker thread
    the handle goes to the task queue of the current [Context]'s [Engine];
    on any other thread it is resumed on the spot.  A [Context]
    (src/runtime/context.cpp) is one worker: it pops batches of handles,
    resumes them, destroys the finished ones and reports them to the
    [Scheduler] (src/runtime/scheduler.cpp), polls the engine's ring, and
    sleeps.  The [Scheduler] owns the contexts, spreads submissions with the
    [Dispatcher], counts pending tasks and shuts down.

    ** The model

    A member function is a program of the state monad [M] (file Prelude) that
    returns, throws (keeping the changes made before), has undefined behaviour
    (dereferencing null or a dangling pointer, an empty [optional], a modulus
    by zero, [done] or [resume] on a running or destroyed coroutine), calls
    [std::terminate], or runs out of the fuel of a loop.  Objects reached
    through pointers live in stores ([gmap ptr _]), so aliasing - awaiters in
    coroutine frames, guards, contexts, IO operations - is explicit.  [size_t]
    and the atomics wrap modulo 2^64, [int] modulo 2^32.

    A block under a [std::mutex] is one atomic step.  Such blocks carry the
    suffix [_locked]; the member function is the block followed by what the
    code does after releasing the lock.  Interleaving of threads is a step
    relation whose steps are these blocks ([chan_step], [mutex_step],
    [wg_step], [wa_step], [tw_step], [wk_step], and [env_step] and [work_step]
    of the whole runtime), or an interleaving of two threads' lists of parts
    ([interleave]).

    Interfaces are type classes.  [Lens S A] gives a component its part of a
    larger state; [Runtime S] is what the primitives need of the runtime and
    [RuntimeFrame S A] the promise that it leaves their state alone, which the
    runtime of file Context keeps ([rt_frame]); [Coroutines W] is what the
    worker needs of coroutines, provided by the frames of file Task in file
    WorkerRun; [Liburing U] and [LiburingLaws U] are liburing and its
    documented behaviour, [LiburingIdle U] what it does when nothing was
    submitted, [LiburingRequests U] what a prepared entry asks the kernel and
    [LiburingResponsive U] that the kernel answers what it has accepted, after
    any number of looks at the completion queue; [sim_ring] is an instance of
    all five.  [task_kind U X R], a record, is what the runtime as a whole
    needs of its tasks: [tasks_of] of file System gives it the coroutines of Task,
    [scripts_of] of file Fleet the bodies of Program.  [Discipline T] says
    which operations bodies use.

    ** Files

    - Prelude: integers, addresses, [M], lenses, the [wp] calculus.
      Runtime: [reschedule_or_resume] and the runtime's interface.
    - Channel: include/channel.h, a definition per member function.
      ChannelSpec: a FIFO queue with parked senders and receivers, what the
      channel promises.  ChannelRing: the circular buffer represents a list.
      ChannelRefine: each operation refines its specification.  ChannelRun:
      executions of any number of coroutines.  ChannelProps: the theorems.
    - AsyncMutex, AsyncMutexRun, AsyncMutexProps: include/async_mutex.h, its
      executions by coroutines in the phases of the lock protocol, theorems.
    - ConditionVariable, ConditionVariableProps:
      include/condition_variable.h; [wait] is split at its suspension points.
    - WaitGroup: include/wait_group.h, executions and theorems.
      WaitGroupLifetime: the end of the object's life against [done].
    - Task, TaskRun, TaskOwn, TaskProps: include/task.h: promises, frames, the
      owning object, symmetric transfer; the value an awaiting chain computes;
      the ownership invariant; theorems.  A coroutine body is data:
      return, throw, [co_await] of a called coroutine, or a suspension.
    - Dispatcher: include/runtime/dispatcher.h.
    - Uring: include/io_uring.h over the liburing interface.
    - Engine, EngineProps: src/runtime/engine.cpp and the IO operations of
      include/runtime/io_awaiter.h.  IoRequests: the requests that reach the
      kernel and the answers that come back.
    - Context, ContextProps: src/runtime/context.cpp and the awaiters of
      include/runtime/io_awaiter.h and scheduler.h that use the current
      context.  WorkerRun: a worker running [Task] coroutines.  ContextRun:
      the whole of [Context::run].  Migration: a task that a channel moves
      from one worker to another.
    - Scheduler, SchedulerProps: src/runtime/scheduler.cpp.  SchedulerTask:
      [submit] on [Task] objects and the destructor.
    - Wakeup: waiting on a [std::condition_variable], and which notifications
      of the runtime can be lost.
    - WhenAll: include/when_all.h for vectors, executions and theorem.
      WhenAllTuple: for tuples of tasks of different types, which, its types
      forgotten, is the version for vectors.  WhenAllLaunch: the calls that
      create the wrapper coroutines and give them to the worker.
    - System, SystemClose, SystemStart: the runtime as a whole.  System is the
      transition system of a scheduler, its workers, submitting threads, the
      thread in [loop] and the threads in [stop], made of the definitions of
      Scheduler and Context over any [task_kind]; SystemClose how it is shut
      down and SystemStart how it starts, whatever the tasks are.
      SystemInv, SystemRun, SystemProps: with the coroutines of Task.
      SystemInv is the abstract view and the effect of each block; SystemRun
      invariant, progress and measure; SystemProps the theorems.
    - Program, ProgramInv, ProgramRun, ProgramIo, ProgramTurn, ProgramWork,
      ProgramProps: tasks that use channel, mutexes, wait group, reads and
      writes, [yield] and [submit_to_scheduler] on one worker, made of the
      definitions of those files.  Program is what a body may do and how the
      worker runs it; ProgramInv the invariant, with a part for each primitive;
      ProgramRun the effect of each operation on it; ProgramIo the engine's
      part and the operations that wait for the ring; ProgramTurn a coroutine's
      turn, operation by operation; ProgramWork turns, batches, polls and the
      loop; ProgramProps the theorems.  MultisetOrder: why work that creates
      smaller work ends.  Responsive: the kernel that answers, and that every
      [poll_io] on it returns and comes closer to the end.
    - Fleet, FleetRun, FleetSteps, FleetEnd, FleetProps: the bodies of Program
      that wait for nothing but [yield] and the ring, on all workers of
      System.  Fleet is this [task_kind] and the view of where each coroutine
      is; FleetRun the invariant and the measure; FleetSteps the blocks of a
      worker; FleetEnd shutting down and progress; FleetProps submissions, the
      start and the theorems.

    ** What the theorems show

    - The runtime as a whole, for every schedule of its threads: with tasks
      that read and write, submit tasks and use the channel and the wait group
      without waiting for them, whose operations interleave, it comes to an end
      with every task run and destroyed (C1), its counter accounts exactly for
      the tasks in it, also those the rings hold (C8), the next block of every
      worker is defined (C17), and a task stays with the worker that took it
      (C19).  With the coroutines of Task, whose callees return values and
      throw: the end (C3), the counter and the frames (C9), the workers (C18).
      [loop] and [stop] may end it together.
    - Tasks that use the primitives and IO on one worker: [run] returns
      without undefined behaviour once every read and write is answered, and a
      coroutine that has not ended awaits what nothing can give it (C4); when
      mutexes are locked in order and beside them only IO is waited for, all
      of them end (C5).
    - Channel: refinement of the FIFO specification by every operation (C2);
      over every interleaving, first-in first-out without loss or duplication
      (C6), no undefined behaviour (C15), conservation of parked coroutines
      (C16); closing (C28, C29) and batch operations (C30).
    - Mutex and condition variable: mutual exclusion (C10), first-come
      first-served hand-over that is never lost (C11), guard operations (C32),
      the [wait] protocol (C21), and a race between [LockGuard::unlock] and
      the relock (C36).
    - Task: termination with the right value or exception (C12), unique
      ownership of frames (C23), safety of every transfer (C24).
    - WaitGroup and [when_all]: no lost wake-up (C26), waking everyone exactly
      at zero ([waitgroup_done_wakes_all]); the result of [when_all] for every
      interleaving, of vectors (C20) and tuples (C14), which agree (C25);
      launching ([when_all_launch]).
    - IO: [poll_io] neither loses nor duplicates an operation (C13), and an
      awaiter is resumed with the kernel's answer to its own request (C7).
    - Worker and scheduler: [run] drains its tasks and returns
      ([context_run_drains]), stopping only when idle
      ([worker_leaves_only_idle]), submission to the current context (C34),
      round robin (C33), the scheduler's life cycle (C31), ownership of
      submitted tasks (C22), submissions wake a sleeping worker (C27).
    - Defects of the code, by concrete executions: a yield in a nested
      coroutine (C35), the mutex race (C36), [submit] against [stop] (C37),
      notifications without the waiter's mutex (C38), [done()] of a task that
      moved to another worker (C39), a [WaitGroup] destroyed during [done]
      (C40).

    ** Bounds and fuel

    [poll_io]'s loops are bounded by their argument, 64 as the worker calls
    it; with a ring of 256 entries a free entry is always there ([poll_room]
    in C13).  [poll_submit] has the number of pending entries as fuel: every
    accepted submission lowers it.  Destroying a frame destroys the chain it
    awaits; the fuel is the number of frames, and a chain visits no frame
    twice.  Running coroutines and the loop of [run] need fuel that depends on
    the tasks' bodies: C12 and [context_run_drains] prove that enough fuel
    exists, and in C3 and C18 a worker that resumes a task has it; the bodies
    of Program need none.  The runtime as a whole ends, in C3, because a
    measure falls with every step ([sys_weight] in SystemRun): a
    task with k suspensions left counts 6(k+1) on its way to a context, 5(k+1)
    in a queue and 5(k+1)-2 in a batch, besides the place of each worker and
    of each thread in [loop] or [stop].  The worker of C4 and C5 ends because
    each turn replaces what a coroutine has left to do by parts of it, the
    bodies it submits included, which the multiset order does not allow
    forever ([below] in ProgramTurn), and because between turns a poll moves
    requests towards their answers or finds the kernel closer to one
    ([io_left] and [poll_answers] in Responsive).  On all workers (C1) the same
    orders are combined ([shorter] in FleetRun): first what the bodies have
    left, then a sum in which a coroutine counts 7 on its way to a context, 6
    or 12 with the ring, 5 in a queue and 3 in a batch, then how close the
    kernels are to an answer.

    ** What is not modelled

    The benchmarks, tests and scripts; liburing and the kernel (an interface
    with laws); the memory model below the atomicity of a locked block or an
    atomic operation; starting and blocking of threads (a wait is over when
    its predicate holds; joining a worker is its exit from [run]); failure of
    memory allocation, but for a coroutine frame when no address is left
    ([coro_create]); destructors and constructors of user values that throw.

    In System [stop] is called while nobody is inside [submit] (C37 is why) and
    a worker that waits for its ring keeps polling.  The bodies of Fleet run
    operation by operation: those of different workers interleave, a call of a
    primitive being one step (nobody waits in one there, so the call is its
    critical section), and so [submit_to_scheduler], which counts the task and
    puts it in the worker's own queue.  A coroutine of Task runs to its next suspension
    in one step: it touches only its own chain's frames and its worker's queue.
    A worker's last iteration, which finds no task and leaves the loop, is one
    step; nothing can reach its queue then, for its context has been taken from
    the scheduler, and other workers submit to their own contexts.

    Coroutines of Task suspend by [yield] in their own body there and await
    coroutines that run to their end at once (C35 is why); they use no IO.
    The bodies of Fleet await no coroutine and do not wait in the primitives:
    a coroutine that a primitive moves to another worker can be destroyed
    under the one that still tests it (C39).  With waiting, the primitives are
    composed with the worker in Program, for one context.
    [ConditionVariable] and [when_all] suspend in coroutines that are awaited,
    so that on a worker C35 applies to them, and are proved on their own. *)

From stdpp Require Export prelude gmap list strings.
From Stdlib Require Export ZArith Lia.

(** ** Machine integers

    [size_t] and [uint64_t] values are integers in [0, 2^64); arithmetic on
    them wraps.  [int] and [int32_t] are two's complement. *)

Definition u64 (z : Z) : Z := (z `mod` 2 ^ 64)%Z.
Definition u32 (z : Z) : Z := (z `mod` 2 ^ 32)%Z.
Definition i32 (z : Z) : Z := ((z + 2 ^ 31) `mod` 2 ^ 32 - 2 ^ 31)%Z.

(** ** Addresses

    A [std::coroutine_handle<>] and a pointer to an object are addresses; the
    null handle (and the null pointer) is the address 0. *)

Abbreviation handle := N (only parsing).
Abbreviation ptr := N (only parsing).
Definition null : N := 0%N.
Definition is_null (h : N) : bool := N.eqb h null.

(** ** Programs with exceptions and undefined behaviour

    A member function of the C++ code is a program [M S A] over the state [S]
    it can reach.  It returns a value, throws an exception (the changes made
    before the throw persist), has undefined behaviour, calls
    [std::terminate], or, for a bounded loop, runs out of fuel. *)

Inductive exn : Type :=
| runtime_error (what : string)
| logic_error (what : string)
| invalid_argument (what : string)
| user_exception (n : Z).

#[export] Instance exn_eq_dec : EqDecision exn.
Proof. solve_decision. Defined.

Inductive outcome (S A : Type) : Type :=
| Ok (a : A) (s : S)
| Throw (e : exn) (s : S)
| UB
| Terminate
| NoFuel.
Arguments Ok {S A} a s.
Arguments Throw {S A} e s.
Arguments UB {S A}.
Arguments Terminate {S A}.
Arguments NoFuel {S A}.

Definition M (S A : Type) : Type := S → outcome S A.

Definition ret {S A} (a : A) : M S A := λ s, Ok a s.
Definition throw {S A} (e : exn) : M S A := λ s, Throw e s.
Definition undefined {S A} : M S A := λ _, UB.
Definition nofuel {S A} : M S A := λ _, NoFuel.

Definition bind {S A B} (m : M S A) (f : A → M S B) : M S B := λ s,
  match m s with
  | Ok a s' => f a s'
  | Throw e s' => Throw e s'
  | UB => UB
  | Terminate => Terminate
  | NoFuel => NoFuel
  end.

(** [try { m } catch (...) { h }] *)
Definition try_catch {S A} (m : M S A) (h : exn → M S A) : M S A := λ s,
  match m s with
  | Throw e s' => h e s'
  | r => r
  end.

(** A [noexcept] function terminates the program when its body throws. *)
Definition noexcept {S A} (m : M S A) : M S A := λ s,
  match m s with
  | Throw _ _ => Terminate
  | r => r
  end.

Definition get {S} : M S S := λ s, Ok s s.
Definition gets {S A} (f : S → A) : M S A := λ s, Ok (f s) s.
Definition put {S} (s : S) : M S unit := λ _, Ok tt s.
Definition modify {S} (f : S → S) : M S unit := λ s, Ok tt (f s).

(** Dereferencing: [None] is a dangling pointer, an empty [optional], an
    element out of range. *)
Definition deref {S A} (o : option A) : M S A :=
  match o with Some a => ret a | None => undefined end.

Declare Scope prog_scope.
Delimit Scope prog_scope with prog.
Notation "'let!' x := m 'in' k" := (bind m (fun x => k))
  (at level 10, x pattern, m at level 100, k at level 200)
  : prog_scope.
Notation "m ;;; k" := (bind m (fun _ => k))
  (at level 100, k at level 200, right associativity) : prog_scope.
Open Scope prog_scope.

(** [for (auto x : l) f(x);] *)
Fixpoint for_each {S X} (l : list X) (f : X → M S unit) : M S unit :=
  match l with
  | [] => ret tt
  | x :: l' => f x;;; for_each l' f
  end.

(** [if (b) m;] *)
Definition when {S} (b : bool) (m : M S unit) : M S unit :=
  if b then m else ret tt.

(** [a % b] on [size_t] values: undefined for a zero divisor. *)
Definition umod {S} (a b : Z) : M S Z :=
  if (b =? 0)%Z then undefined else ret (a `mod` b)%Z.

(** ** Threads

    [interleave l1 l2 l]: [l] runs the atomic parts of two threads, each in its
    own order. *)
Inductive interleave {A} : list A → list A → list A → Prop :=
| interleave_nil : interleave [] [] []
| interleave_l x l1 l2 l : interleave l1 l2 l → interleave (x :: l1) l2 (x :: l)
| interleave_r x l1 l2 l : interleave l1 l2 l → interleave l1 (x :: l2) (x :: l).

Definition run_parts {S} (parts : list (M S unit)) : M S unit :=
  for_each parts (λ p, p).

(** ** Queues

    [std::queue]: the front is the head of the list. *)
Definition queue_empty {A} (q : list A) : bool :=
  match q with [] => true | _ :: _ => false end.
Definition queue_push {A} (x : A) (q : list A) : list A := q ++ [x].

(** ** Lenses: a component's part of a larger state *)

Class Lens (S A : Type) := {
  lget : S → A;
  lset : A → S → S;
  lget_lset : ∀ a s, lget (lset a s) = a;
  lset_lget : ∀ s, lset (lget s) s = s;
  lset_lset : ∀ a b s, lset a (lset b s) = lset a s;
}.

#[export] Instance lens_id S : Lens S S :=
  {| lget := λ s, s; lset := λ a _, a;
     lget_lset := λ a s, eq_refl; lset_lget := λ s, eq_refl;
     lset_lset := λ a b s, eq_refl |}.

#[export, refine] Instance lens_fst A B : Lens (A * B) A :=
  {| lget := fst; lset := λ a p, (a, snd p) |}.
Proof. all: by intros; repeat match goal with p : (_ * _)%type |- _ => destruct p end. Defined.

#[export, refine] Instance lens_snd A B : Lens (A * B) B :=
  {| lget := snd; lset := λ b p, (fst p, b) |}.
Proof. all: by intros; repeat match goal with p : (_ * _)%type |- _ => destruct p end. Defined.

(** A part of a part; not an instance, so that resolution stays finite. *)
Definition lens_compose {S A B} (l1 : Lens S A) (l2 : Lens A B) : Lens S B.
Proof.
  refine {| lget := λ s, @lget A B l2 (@lget S A l1 s);
            lset := λ b s, @lset S A l1 (@lset A B l2 b (@lget S A l1 s)) s |}.
  - intros b s. by rewrite !lget_lset.
  - intros s. by rewrite !lset_lget.
  - intros a b s. by rewrite lget_lset, lset_lset, lset_lset.
Defined.

(** Two components that do not share state. *)
Class LensDisjoint (S A B : Type) `{!Lens S A} `{!Lens S B} : Prop := {
  lget_lset_l : ∀ (a : A) (s : S), lget (lset a s) = (lget s : B);
  lget_lset_r : ∀ (b : B) (s : S), lget (lset b s) = (lget s : A);
}.

(** A program on the component runs in the larger state. *)
Definition zoom {S A X} `{!Lens S A} (m : M A X) : M S X := λ s,
  match m (lget s) with
  | Ok x a => Ok x (lset a s)
  | Throw e a => Throw e (lset a s)
  | UB => UB
  | Terminate => Terminate
  | NoFuel => NoFuel
  end.

(** ** Lemmas on programs *)

Section program_lemmas.
Context {S A B : Type}.
Implicit Types (s : S).

Lemma bind_ok (m : M S A) (f : A → M S B) s a s' :
  m s = Ok a s' → bind m f s = f a s'.
Proof. intros H. unfold bind. by rewrite H. Qed.

Lemma bind_throw (m : M S A) (f : A → M S B) s e s' :
  m s = Throw e s' → bind m f s = Throw e s'.
Proof. intros H. unfold bind. by rewrite H. Qed.

Lemma bind_assoc {C} (m : M S A) (f : A → M S B) (g : B → M S C) s :
  bind (bind m f) g s = bind m (λ a, bind (f a) g) s.
Proof. unfold bind. by destruct (m s). Qed.

Lemma for_each_app {X} (l1 l2 : list X) (f : X → M S unit) s :
  for_each (l1 ++ l2) f s = bind (for_each l1 f) (λ _, for_each l2 f) s.
Proof.
  revert s. induction l1 as [|x l1 IH]; intros s; [done|].
  cbn. unfold bind at 1 3. destruct (f x s) eqn:E; unfold bind; rewrite ?E; done.
Qed.

Lemma for_each_ext {X} (l : list X) (f g : X → M S unit) s :
  (∀ x s', f x s' = g x s') → for_each l f s = for_each l g s.
Proof.
  intros E. revert s. induction l as [|x l IH]; intros s; [done|]. cbn. unfold bind. rewrite E.
  destruct (g x s); [apply IH|done..].
Qed.

Lemma bind_ext (m : M S A) (f g : A → M S B) s :
  (∀ a s', f a s' = g a s') → bind m f s = bind m g s.
Proof. intros E. unfold bind. destruct (m s); [apply E|done..]. Qed.
End program_lemmas.

Section zoom_lemmas.
Context {S A : Type} `{!Lens S A}.

Lemma zoom_ok {X} (m : M A X) (s : S) x a :
  m (lget s) = Ok x a → zoom m s = Ok x (lset a s).
Proof. intros H. unfold zoom. by rewrite H. Qed.

Lemma zoom_throw {X} (m : M A X) (s : S) e a :
  m (lget s) = Throw e a → zoom m s = Throw e (lset a s).
Proof. intros H. unfold zoom. by rewrite H. Qed.

End zoom_lemmas.

Create Rewrite HintDb lens.
#[export] Hint Rewrite @lget_lset @lset_lset @lset_lget : lens.

(** ** Lemmas on machine integers *)

Lemma u64_small z : (0 ≤ z < 2 ^ 64)%Z → u64 z = z.
Proof. apply Z.mod_small. Qed.

Lemma u64_range z : (0 ≤ u64 z < 2 ^ 64)%Z.
Proof. unfold u64. apply Z.mod_pos_bound. lia. Qed.

Lemma u64_add_l a b : u64 (u64 a + b) = u64 (a + b).
Proof. unfold u64. by rewrite Z.add_mod_idemp_l by lia. Qed.

Lemma u64_add_r a b : u64 (a + u64 b) = u64 (a + b).
Proof. unfold u64. by rewrite Z.add_mod_idemp_r by lia. Qed.

Lemma i32_small z : (- 2 ^ 31 ≤ z < 2 ^ 31)%Z → i32 z = z.
Proof. intros H. unfold i32. rewrite Z.mod_small; lia. Qed.

Lemma i32_range z : (- 2 ^ 31 ≤ i32 z < 2 ^ 31)%Z.
Proof. unfold i32. pose proof (Z.mod_pos_bound (z + 2 ^ 31) (2 ^ 32)). lia. Qed.

Create HintDb mach.
#[export] Hint Resolve u64_small u64_range i32_small i32_range : mach.

(** ** Tactics *)

(** Evaluate a program in the goal one step at a time. *)
Ltac prog_step :=
  cbn [bind ret throw gets get put modify when deref] in *.

(** Case analysis on the scrutinee of a match or an [if]. *)
Ltac split_match :=
  match goal with
  | |- context [match ?x with _ => _ end] => destruct x eqn:?
  | H : context [match ?x with _ => _ end] |- _ => destruct x eqn:?
  end.

(** ** Total correctness of programs

    [wp m s Q E]: from [s] the program returns with [Q] or throws with [E]; it
    has no undefined behaviour, does not terminate the process and does not
    run out of fuel. *)

Definition wp {S A} (m : M S A) (s : S)
    (Q : A → S → Prop) (E : exn → S → Prop) : Prop :=
  match m s with
  | Ok a s' => Q a s'
  | Throw e s' => E e s'
  | _ => False
  end.

Section wp_rules.
Context {S A B : Type}.
Implicit Types (s : S) (E : exn → S → Prop).

Lemma wp_ret (a : A) s Q E : Q a s → wp (ret a) s Q E.
Proof. done. Qed.
Lemma wp_throw e s (Q : A → S → Prop) E : E e s → wp (throw e) s Q E.
Proof. done. Qed.
Lemma wp_get s Q E : Q s s → wp get s Q E.
Proof. done. Qed.
Lemma wp_gets (f : S → A) s Q E : Q (f s) s → wp (gets f) s Q E.
Proof. done. Qed.
Lemma wp_modify f s Q E : Q tt (f s) → wp (modify f) s Q E.
Proof. done. Qed.
Lemma wp_deref (o : option A) a s (Q : A → S → Prop) E :
  o = Some a → Q a s → wp (deref o) s Q E.
Proof. by intros ->. Qed.
Lemma wp_umod a b s Q E : (b ≠ 0)%Z → Q (a `mod` b)%Z s → wp (umod a b) s Q E.
Proof. intros Hb HQ. unfold umod. by rewrite (proj2 (Z.eqb_neq b 0) Hb). Qed.

Lemma wp_bind (m : M S A) (f : A → M S B) s Q E :
  wp m s (λ a s', wp (f a) s' Q E) E → wp (bind m f) s Q E.
Proof. unfold wp, bind. by destruct (m s). Qed.

Lemma wp_mono (m : M S A) s (Q Q' : A → S → Prop) E E' :
  wp m s Q E → (∀ a s', Q a s' → Q' a s') → (∀ e s', E e s' → E' e s') →
  wp m s Q' E'.
Proof. unfold wp. destruct (m s); auto. Qed.

Lemma wp_try_catch (m : M S A) h s Q E :
  wp m s Q (λ e s', wp (h e) s' Q E) → wp (try_catch m h) s Q E.
Proof. unfold wp, try_catch. by destruct (m s). Qed.

Lemma wp_noexcept (m : M S A) s Q E :
  wp m s Q (λ _ _, False) → wp (noexcept m) s Q E.
Proof. unfold wp, noexcept. by destruct (m s). Qed.

Lemma wp_ok (m : M S A) s Q :
  wp m s Q (λ _ _, False) → ∃ a s', m s = Ok a s' ∧ Q a s'.
Proof. unfold wp. destruct (m s); try done. eauto. Qed.

Lemma wp_of_ok (m : M S A) s a s' Q E : m s = Ok a s' → Q a s' → wp m s Q E.
Proof. unfold wp. by intros ->. Qed.
End wp_rules.

Lemma wp_zoom {S A X} `{!Lens S A} (m : M A X) (s : S) Q E :
  wp m (lget s) (λ x a, Q x (lset a s)) (λ e a, E e (lset a s)) → wp (zoom m) s Q E.
Proof. unfold wp, zoom. by destruct (m (lget s)). Qed.

Create HintDb wp.
#[export] Hint Resolve wp_ret wp_throw wp_get wp_gets wp_modify : wp.

(** One symbolic step of a program under [wp]. *)
Ltac wp_step :=
  match goal with
  | |- wp (bind _ _) _ _ _ => apply wp_bind
  | |- wp (ret _) _ _ _ => apply wp_ret
  | |- wp (throw _) _ _ _ => apply wp_throw
  | |- wp get _ _ _ => apply wp_get
  | |- wp (gets _) _ _ _ => apply wp_gets
  | |- wp (modify _) _ _ _ => apply wp_modify
  | |- wp (try_catch _ _) _ _ _ => apply wp_try_catch
  | |- wp (noexcept _) _ _ _ => apply wp_noexcept
  | |- wp (deref _) _ _ _ => eapply wp_deref; [eassumption || reflexivity |]
  end; cbn beta iota.
Ltac wp_steps := cbn beta iota; repeat wp_step.
