(* ===== verification/Runtime.v ===== *)
(** * The runtime interface

    What the synchronization primitives need from the runtime: the context of
    the current thread, [Context::submit_task], and the resumption of a
    coroutine.  [reschedule_or_resume] (src/src/runtime/resume_handle.cpp) is
    defined against it.  [RuntimeFrame] is the promise that submitting a
    handle leaves a component's own state alone. *)

From S2P Require Import Prelude.

Class Runtime (S : Type) := {
  (** [thread_local Context *local_context_ptr], the running thread's. *)
  try_local_context : S → option nat;
  (** [ctx->submit_task(handle)] for the context of that index. *)
  context_submit_task : nat → handle → S → S;
  (** [handle.resume()]: runs user code. *)
  coro_resume : handle → M S unit;
}.

(** resume_handle.cpp: schedule on the current context, or run inline. *)
Definition reschedule_or_resume {S} `{!Runtime S} (h : handle) : M S unit :=
  noexcept (
    if is_null h then ret tt
    else
      let! ctx := gets try_local_context in
      match ctx with
      | Some i => modify (context_submit_task i h)
      | None => coro_resume h
      end).

(** [if (handle) reschedule_or_resume(handle);] *)
Definition resume_if_set {S} `{!Runtime S} (h : handle) : M S unit :=
  when (negb (is_null h)) (reschedule_or_resume h).

(** [for (auto handle : handles) reschedule_or_resume(handle);] *)
Definition reschedule_all {S} `{!Runtime S} (hs : list handle) : M S unit :=
  for_each hs reschedule_or_resume.

(** The laws of a runtime that keeps a component's state [A] apart from its
    own. *)
Class RuntimeFrame (S A : Type) `{!Runtime S} `{!Lens S A} : Prop := {
  local_context_lset : ∀ a (s : S),
    try_local_context (lset a s) = try_local_context s;
  local_context_submit : ∀ i h (s : S),
    try_local_context (context_submit_task i h s) = try_local_context s;
  lget_submit : ∀ i h (s : S),
    lget (context_submit_task i h s) = (lget s : A);
}.

(** The handles of [hs] submitted to context [i], in order. *)
Fixpoint submit_all {S} `{!Runtime S} (i : nat) (hs : list handle) (s : S) : S :=
  match hs with
  | [] => s
  | h :: hs' =>
      submit_all i hs' (if is_null h then s else context_submit_task i h s)
  end.

Section runtime_lemmas.
Context {S A : Type} `{!Runtime S} `{!Lens S A} `{!RuntimeFrame S A}.
Implicit Types (s : S).

Lemma reschedule_in_context s i h :
  try_local_context s = Some i →
  reschedule_or_resume h s = Ok tt (submit_all i [h] s).
Proof.
  intros Hctx. unfold reschedule_or_resume, noexcept. cbn.
  destruct (is_null h); [done|]. unfold bind, gets. by rewrite Hctx.
Qed.

Lemma resume_if_set_in_context s i h :
  try_local_context s = Some i →
  resume_if_set h s = Ok tt (submit_all i [h] s).
Proof.
  intros Hctx. unfold resume_if_set. cbn. destruct (is_null h) eqn:E; cbn; [done|].
  rewrite (reschedule_in_context s i) by done. cbn. by rewrite E.
Qed.

Lemma submit_all_context i hs s :
  try_local_context (submit_all i hs s) = try_local_context s.
Proof.
  revert s. induction hs as [|h hs IH]; intros s; cbn; [done|].
  rewrite IH. destruct (is_null h); [done|]. apply local_context_submit.
Qed.

Lemma submit_all_frame i hs s : lget (submit_all i hs s) = (lget s : A).
Proof.
  revert s. induction hs as [|h hs IH]; intros s; cbn; [done|].
  rewrite IH. destruct (is_null h); [done|]. apply lget_submit.
Qed.

Lemma submit_all_app i hs1 hs2 s :
  submit_all i (hs1 ++ hs2) s = submit_all i hs2 (submit_all i hs1 s).
Proof. revert s. induction hs1 as [|h hs1 IH]; intros s; cbn; [done|]. apply IH. Qed.

Lemma reschedule_all_in_context s i hs :
  try_local_context s = Some i →
  reschedule_all hs s = Ok tt (submit_all i hs s).
Proof.
  revert s. induction hs as [|h hs IH]; intros s Hctx; [done|].
  unfold reschedule_all. cbn.
  rewrite (bind_ok _ _ _ _ _ (reschedule_in_context s i h Hctx)). cbn.
  apply IH. destruct (is_null h); [done|]. by rewrite local_context_submit.
Qed.
End runtime_lemmas.

(** ** A minimal instance: one worker thread and its task queue

    The state is the component's and the handles submitted to context 0, on
    whose thread the code runs; used by the concrete examples. *)

Record worker (A : Type) := MkWorker { worker_part : A; worker_queue : list handle }.
Arguments MkWorker {A}.
Arguments worker_part {A} _.
Arguments worker_queue {A} _.

#[export] Instance worker_runtime A : Runtime (worker A) := {|
  try_local_context := λ _, Some 0;
  context_submit_task := λ _ h s, MkWorker (worker_part s) (worker_queue s ++ [h]);
  coro_resume := λ _, undefined;
|}.

#[export, refine] Instance worker_lens A : Lens (worker A) A := {|
  lget := worker_part;
  lset := λ a s, MkWorker a (worker_queue s);
|}.
Proof. all: by intros; repeat match goal with s : worker _ |- _ => destruct s end. Defined.

#[export] Instance worker_frame A : RuntimeFrame (worker A) A.
Proof. by split. Qed.
