(* ===== verification/Channel.v ===== *)
(** * Channel<T> (src/include/channel.h)

    The bounded channel: the ring buffer, the queues of suspended senders and
    receivers, the awaiter objects they point to, and the statistics counters.
    Every member function is split as the code splits it: the block under
    [std::lock_guard lock(mtx_)] ([..._locked], one atomic step) and what
    follows it (the calls of [reschedule_or_resume]). *)

From S2P Require Import Prelude Runtime.

(** ** Data *)

(** [StatsSnapshot]; the channel's own counters have the same fields. *)
Record StatsSnapshot := MkStats {
  buffer_pushes : Z;
  buffer_pops : Z;
  direct_handoffs : Z;
  sender_waits : Z;
  receiver_waits : Z;
  try_send_full_failures : Z;
  try_receive_empty_returns : Z;
  closed_failures : Z;
  close_calls : Z;
  close_wake_senders : Z;
  close_wake_receivers : Z;
}.

(** A [StatsCounter &]: which counter of the channel. *)
Inductive StatsCounter :=
| stats_buffer_pushes_ | stats_buffer_pops_ | stats_direct_handoffs_
| stats_sender_waits_ | stats_receiver_waits_ | stats_try_send_full_failures_
| stats_try_receive_empty_returns_ | stats_closed_failures_
| stats_close_calls_ | stats_close_wake_senders_ | stats_close_wake_receivers_.

#[export] Instance StatsCounter_eq_dec : EqDecision StatsCounter.
Proof. solve_decision. Defined.

Definition stats_counter (c : StatsCounter) (s : StatsSnapshot) : Z :=
  match c with
  | stats_buffer_pushes_ => buffer_pushes s
  | stats_buffer_pops_ => buffer_pops s
  | stats_direct_handoffs_ => direct_handoffs s
  | stats_sender_waits_ => sender_waits s
  | stats_receiver_waits_ => receiver_waits s
  | stats_try_send_full_failures_ => try_send_full_failures s
  | stats_try_receive_empty_returns_ => try_receive_empty_returns s
  | stats_closed_failures_ => closed_failures s
  | stats_close_calls_ => close_calls s
  | stats_close_wake_senders_ => close_wake_senders s
  | stats_close_wake_receivers_ => close_wake_receivers s
  end.

Definition stats_store (c : StatsCounter) (z : Z) (s : StatsSnapshot) : StatsSnapshot :=
  let f k := if decide (c = k) then z else stats_counter k s in
  MkStats (f stats_buffer_pushes_) (f stats_buffer_pops_)
    (f stats_direct_handoffs_) (f stats_sender_waits_) (f stats_receiver_waits_)
    (f stats_try_send_full_failures_) (f stats_try_receive_empty_returns_)
    (f stats_closed_failures_) (f stats_close_calls_)
    (f stats_close_wake_senders_) (f stats_close_wake_receivers_).

(** The counters' default member initializers. *)
Definition stats_init : StatsSnapshot := MkStats 0 0 0 0 0 0 0 0 0 0 0.

Record Channel (T : Type) := MkChannel {
  buffer_ : list (option T);
  header_ : Z;
  tail_ : Z;
  capacity_ : Z;
  count_ : Z;
  close_ : bool;
  sender_queue_ : list (handle * ptr);
  receiver_queue_ : list (handle * ptr);
  stats_ : StatsSnapshot;
}.
Arguments MkChannel {T}.
Arguments buffer_ {T} _.
Arguments header_ {T} _.
Arguments tail_ {T} _.
Arguments capacity_ {T} _.
Arguments count_ {T} _.
Arguments close_ {T} _.
Arguments sender_queue_ {T} _.
Arguments receiver_queue_ {T} _.
Arguments stats_ {T} _.

(** The awaiters; [channel_] is the one channel of the world. *)
Record SenderAwaiter (T : Type) := MkSender { sa_value_ : T; sa_close_ : bool }.
Arguments MkSender {T}.
Arguments sa_value_ {T} _.
Arguments sa_close_ {T} _.

Record ReceiverAwaiter (T : Type) := MkReceiver { ra_value_ : option T }.
Arguments MkReceiver {T}.
Arguments ra_value_ {T} _.

(** The channel and the awaiter objects, which live in coroutine frames and
    are reached through the pointers in the queues. *)
Record chan_world (T : Type) := MkWorld {
  chan : Channel T;
  senders : gmap ptr (SenderAwaiter T);
  receivers : gmap ptr (ReceiverAwaiter T);
}.
Arguments MkWorld {T}.
Arguments chan {T} _.
Arguments senders {T} _.
Arguments receivers {T} _.

(** ** Field updates *)

Section updates.
Context {T : Type}.
Implicit Types (c : Channel T) (w : chan_world T).

Definition set_buffer (b : list (option T)) c : Channel T :=
  MkChannel b (header_ c) (tail_ c) (capacity_ c) (count_ c) (close_ c)
    (sender_queue_ c) (receiver_queue_ c) (stats_ c).
Definition set_header (h : Z) c : Channel T :=
  MkChannel (buffer_ c) h (tail_ c) (capacity_ c) (count_ c) (close_ c)
    (sender_queue_ c) (receiver_queue_ c) (stats_ c).
Definition set_tail (t : Z) c : Channel T :=
  MkChannel (buffer_ c) (header_ c) t (capacity_ c) (count_ c) (close_ c)
    (sender_queue_ c) (receiver_queue_ c) (stats_ c).
Definition set_count (n : Z) c : Channel T :=
  MkChannel (buffer_ c) (header_ c) (tail_ c) (capacity_ c) n (close_ c)
    (sender_queue_ c) (receiver_queue_ c) (stats_ c).
Definition set_close (b : bool) c : Channel T :=
  MkChannel (buffer_ c) (header_ c) (tail_ c) (capacity_ c) (count_ c) b
    (sender_queue_ c) (receiver_queue_ c) (stats_ c).
Definition set_sender_queue (q : list (handle * ptr)) c : Channel T :=
  MkChannel (buffer_ c) (header_ c) (tail_ c) (capacity_ c) (count_ c)
    (close_ c) q (receiver_queue_ c) (stats_ c).
Definition set_receiver_queue (q : list (handle * ptr)) c : Channel T :=
  MkChannel (buffer_ c) (header_ c) (tail_ c) (capacity_ c) (count_ c)
    (close_ c) (sender_queue_ c) q (stats_ c).
Definition set_stats (s : StatsSnapshot) c : Channel T :=
  MkChannel (buffer_ c) (header_ c) (tail_ c) (capacity_ c) (count_ c)
    (close_ c) (sender_queue_ c) (receiver_queue_ c) s.

Definition set_chan c w : chan_world T := MkWorld c (senders w) (receivers w).
Definition set_senders m w : chan_world T := MkWorld (chan w) m (receivers w).
Definition set_receivers m w : chan_world T := MkWorld (chan w) (senders w) m.
End updates.

(** ** Operations *)

Section operations.
Context {T : Type}.
(** The value a moved-from object is left with: [T]'s business. *)
Context (moved_from : T → T).
(** [kStatsEnabled]: the build option TINY_COROUTINE_ENABLE_STATS. *)
Context (kStatsEnabled : bool).

Definition chan_get {X} (f : Channel T → X) : M (chan_world T) X :=
  gets (λ w, f (chan w)).
Definition chan_set (f : Channel T → Channel T) : M (chan_world T) unit :=
  modify (λ w, set_chan (f (chan w)) w).

(** *** Statistics *)

Definition stats_add (c : StatsCounter) (delta : Z) : M (chan_world T) unit :=
  if kStatsEnabled then
    chan_set (λ ch, set_stats
      (stats_store c (u64 (stats_counter c (stats_ ch) + delta)) (stats_ ch)) ch)
  else ret tt.

Definition stats_load (c : StatsCounter) (ch : Channel T) : Z :=
  if kStatsEnabled then stats_counter c (stats_ ch) else 0%Z.

Definition stats_reset (c : StatsCounter) (ch : Channel T) : Channel T :=
  if kStatsEnabled then set_stats (stats_store c 0 (stats_ ch)) ch else ch.

Definition stats_snapshot (ch : Channel T) : StatsSnapshot :=
  MkStats (stats_load stats_buffer_pushes_ ch)
    (stats_load stats_buffer_pops_ ch)
    (stats_load stats_direct_handoffs_ ch)
    (stats_load stats_sender_waits_ ch)
    (stats_load stats_receiver_waits_ ch)
    (stats_load stats_try_send_full_failures_ ch)
    (stats_load stats_try_receive_empty_returns_ ch)
    (stats_load stats_closed_failures_ ch)
    (stats_load stats_close_calls_ ch)
    (stats_load stats_close_wake_senders_ ch)
    (stats_load stats_close_wake_receivers_ ch).

Definition reset_stats (ch : Channel T) : Channel T :=
  stats_reset stats_close_wake_receivers_
  (stats_reset stats_close_wake_senders_
  (stats_reset stats_close_calls_
  (stats_reset stats_closed_failures_
  (stats_reset stats_try_receive_empty_returns_
  (stats_reset stats_try_send_full_failures_
  (stats_reset stats_receiver_waits_
  (stats_reset stats_sender_waits_
  (stats_reset stats_direct_handoffs_
  (stats_reset stats_buffer_pops_
  (stats_reset stats_buffer_pushes_ ch)))))))))).

(** *** Construction *)

(** [Channel() = default]: capacity 0, no buffer. *)
Definition Channel_default : Channel T :=
  MkChannel [] 0 0 0 0 false [] [] stats_init.

(** [explicit Channel(size_t capacity)] *)
Definition Channel_make (capacity : Z) : exn + Channel T :=
  if (capacity =? 0)%Z then
    inl (invalid_argument "channel capacity must be greater than 0")
  else
    inr (MkChannel (replicate (Z.to_nat capacity) None) 0 0 capacity 0 false
           [] [] stats_init).

Definition isEmpty (c : Channel T) : bool := (count_ c =? 0)%Z.
Definition isFull (c : Channel T) : bool := (count_ c =? capacity_ c)%Z.

(** *** Pieces that several operations repeat *)

(** [buffer_[tail_] = value; tail_ = (tail_ + 1) % capacity_; count_++;] *)
Definition buffer_push (v : T) : M (chan_world T) unit :=
  let! c := chan_get id in
  let! _ := deref (buffer_ c !! Z.to_nat (tail_ c)) in
  chan_set (λ c, set_buffer (<[Z.to_nat (tail_ c) := Some v]> (buffer_ c)) c);;;
  let! t := umod (u64 (tail_ c + 1)) (capacity_ c) in
  chan_set (set_tail t);;;
  chan_set (λ c, set_count (u64 (count_ c + 1)) c).

(** [value = std::move( *buffer_[header_]); buffer_[header_].reset();
    header_ = (header_ + 1) % capacity_; count_--;] *)
Definition buffer_pop : M (chan_world T) T :=
  let! c := chan_get id in
  let! slot := deref (buffer_ c !! Z.to_nat (header_ c)) in
  let! v := deref slot in
  chan_set (λ c, set_buffer (<[Z.to_nat (header_ c) := None]> (buffer_ c)) c);;;
  let! h := umod (u64 (header_ c + 1)) (capacity_ c) in
  chan_set (set_header h);;;
  chan_set (λ c, set_count (u64 (count_ c - 1)) c);;;
  ret v.

(** [auto [handle, awaiter] = sender_queue_.front(); sender_queue_.pop();] *)
Definition sender_queue_take : M (chan_world T) (handle * ptr) :=
  let! q := chan_get sender_queue_ in
  match q with
  | [] => undefined
  | x :: q' => chan_set (set_sender_queue q');;; ret x
  end.

Definition receiver_queue_take : M (chan_world T) (handle * ptr) :=
  let! q := chan_get receiver_queue_ in
  match q with
  | [] => undefined
  | x :: q' => chan_set (set_receiver_queue q');;; ret x
  end.

(** [std::move(awaiter->value_)] of a sender. *)
Definition sender_take_value (p : ptr) : M (chan_world T) T :=
  let! w := get in
  let! a := deref (senders w !! p) in
  modify (set_senders
    (<[p := MkSender (moved_from (sa_value_ a)) (sa_close_ a)]> (senders w)));;;
  ret (sa_value_ a).

Definition sender_set_close (p : ptr) : M (chan_world T) unit :=
  let! w := get in
  let! a := deref (senders w !! p) in
  modify (set_senders (<[p := MkSender (sa_value_ a) true]> (senders w))).

(** [awaiter->value_ = v] of a receiver. *)
Definition receiver_set_value (p : ptr) (v : option T) : M (chan_world T) unit :=
  let! w := get in
  let! _ := deref (receivers w !! p) in
  modify (set_receivers (<[p := MkReceiver v]> (receivers w))).

(** *** SenderAwaiter *)

Definition SenderAwaiter_await_ready : bool := false.

(** The block under the lock: whether to suspend, and [resume_receiver]. *)
Definition SenderAwaiter_await_suspend_locked (this : ptr) (h : handle)
    : M (chan_world T) (bool * handle) :=
  let! c := chan_get id in
  if close_ c then
    sender_set_close this;;;
    stats_add stats_closed_failures_ 1;;;
    ret (false, null)
  else if negb (queue_empty (receiver_queue_ c)) then
    let! (receiver_handle, receiver_awaiter) := receiver_queue_take in
    let! v := sender_take_value this in
    receiver_set_value receiver_awaiter (Some v);;;
    stats_add stats_direct_handoffs_ 1;;;
    ret (false, receiver_handle)
  else if negb (isFull c) then
    let! v := sender_take_value this in
    buffer_push v;;;
    stats_add stats_buffer_pushes_ 1;;;
    ret (false, null)
  else
    chan_set (λ c, set_sender_queue (queue_push (h, this) (sender_queue_ c)) c);;;
    stats_add stats_sender_waits_ 1;;;
    ret (true, null).

Definition SenderAwaiter_await_resume (this : ptr) : M (chan_world T) unit :=
  let! w := get in
  let! a := deref (senders w !! this) in
  if sa_close_ a then throw (runtime_error "channel is closed") else ret tt.

(** *** ReceiverAwaiter *)

Definition ReceiverAwaiter_await_ready : bool := false.

Definition ReceiverAwaiter_await_suspend_locked (this : ptr) (h : handle)
    : M (chan_world T) (bool * handle) :=
  let! c := chan_get id in
  if negb (isEmpty c) then
    let! v := buffer_pop in
    receiver_set_value this (Some v);;;
    stats_add stats_buffer_pops_ 1;;;
    if negb (queue_empty (sender_queue_ c)) then
      let! (sender_handle, sender_awaiter) := sender_queue_take in
      let! v' := sender_take_value sender_awaiter in
      buffer_push v';;;
      stats_add stats_buffer_pushes_ 1;;;
      ret (false, sender_handle)
    else ret (false, null)
  else if close_ c then
    receiver_set_value this None;;;
    stats_add stats_closed_failures_ 1;;;
    ret (false, null)
  else if negb (queue_empty (sender_queue_ c)) then
    let! (sender_handle, sender_awaiter) := sender_queue_take in
    let! v := sender_take_value sender_awaiter in
    receiver_set_value this (Some v);;;
    stats_add stats_direct_handoffs_ 1;;;
    ret (false, sender_handle)
  else
    chan_set (λ c, set_receiver_queue (queue_push (h, this) (receiver_queue_ c)) c);;;
    stats_add stats_receiver_waits_ 1;;;
    ret (true, null).

Definition ReceiverAwaiter_await_resume (this : ptr) : M (chan_world T) T :=
  let! w := get in
  let! a := deref (receivers w !! this) in
  match ra_value_ a with
  | Some v =>
      modify (set_receivers
        (<[this := MkReceiver (Some (moved_from v))]> (receivers w)));;;
      ret v
  | None => throw (runtime_error "channel is closed")
  end.

(** *** Channel members *)

(** [send(value)]: the awaiter is constructed at [p], in the caller's frame. *)
Definition send (p : ptr) (value : T) : M (chan_world T) unit :=
  let! c := chan_get id in
  if close_ c then
    stats_add stats_closed_failures_ 1;;;
    throw (runtime_error "channel is closed")
  else
    modify (λ w, set_senders (<[p := MkSender value false]> (senders w)) w).

(** [receive()] *)
Definition receive (p : ptr) : M (chan_world T) unit :=
  modify (λ w, set_receivers (<[p := MkReceiver None]> (receivers w)) w).

Definition try_send_locked (value : T) : M (chan_world T) (bool * handle) :=
  let! c := chan_get id in
  if close_ c then
    stats_add stats_closed_failures_ 1;;;
    throw (runtime_error "channel is closed")
  else if negb (queue_empty (receiver_queue_ c)) then
    let! (receiver_handle, receiver_awaiter) := receiver_queue_take in
    receiver_set_value receiver_awaiter (Some value);;;
    stats_add stats_direct_handoffs_ 1;;;
    ret (true, receiver_handle)
  else if negb (isFull c) then
    buffer_push value;;;
    stats_add stats_buffer_pushes_ 1;;;
    ret (true, null)
  else
    stats_add stats_try_send_full_failures_ 1;;;
    ret (false, null).

(** The loop [for (; first != last; ++first)] of [try_send_many], with [sent]
    and [resume_receivers]. *)
Fixpoint try_send_many_loop (items : list T) (sent : Z) (resumes : list handle)
    : M (chan_world T) (Z * list handle) :=
  match items with
  | [] => ret (sent, resumes)
  | item :: items' =>
      let! c := chan_get id in
      if negb (queue_empty (receiver_queue_ c)) then
        let! (receiver_handle, receiver_awaiter) := receiver_queue_take in
        receiver_set_value receiver_awaiter (Some item);;;
        stats_add stats_direct_handoffs_ 1;;;
        try_send_many_loop items' (u64 (sent + 1)) (resumes ++ [receiver_handle])
      else if negb (isFull c) then
        buffer_push item;;;
        stats_add stats_buffer_pushes_ 1;;;
        try_send_many_loop items' (u64 (sent + 1)) resumes
      else
        stats_add stats_try_send_full_failures_ 1;;;
        ret (sent, resumes)
  end.

Definition try_send_many_locked (items : list T)
    : M (chan_world T) (Z * list handle) :=
  let! c := chan_get id in
  if close_ c then
    stats_add stats_closed_failures_ 1;;;
    throw (runtime_error "channel is closed")
  else try_send_many_loop items 0 [].

Definition try_receive_locked : M (chan_world T) (option T * handle) :=
  let! c := chan_get id in
  if negb (isEmpty c) then
    let! v := buffer_pop in
    stats_add stats_buffer_pops_ 1;;;
    if negb (queue_empty (sender_queue_ c)) then
      let! (sender_handle, sender_awaiter) := sender_queue_take in
      let! v' := sender_take_value sender_awaiter in
      buffer_push v';;;
      stats_add stats_buffer_pushes_ 1;;;
      ret (Some v, sender_handle)
    else ret (Some v, null)
  else if negb (queue_empty (sender_queue_ c)) then
    let! (sender_handle, sender_awaiter) := sender_queue_take in
    let! v := sender_take_value sender_awaiter in
    stats_add stats_direct_handoffs_ 1;;;
    ret (Some v, sender_handle)
  else if close_ c then
    stats_add stats_closed_failures_ 1;;;
    throw (runtime_error "channel is closed")
  else
    stats_add stats_try_receive_empty_returns_ 1;;;
    ret (None, null).

(** The loop [for (; values.size() < max_items;)]; [fuel] is
    [max_items - values.size()], which every iteration lowers. *)
Fixpoint try_receive_many_loop (fuel : nat) (values : list T)
    (resumes : list handle) : M (chan_world T) (list T * list handle) :=
  match fuel with
  | O => ret (values, resumes)
  | S fuel' =>
      let! c := chan_get id in
      if negb (isEmpty c) then
        let! v := buffer_pop in
        stats_add stats_buffer_pops_ 1;;;
        if negb (queue_empty (sender_queue_ c)) then
          let! (sender_handle, sender_awaiter) := sender_queue_take in
          let! v' := sender_take_value sender_awaiter in
          buffer_push v';;;
          stats_add stats_buffer_pushes_ 1;;;
          try_receive_many_loop fuel' (values ++ [v]) (resumes ++ [sender_handle])
        else try_receive_many_loop fuel' (values ++ [v]) resumes
      else if negb (queue_empty (sender_queue_ c)) then
        let! (sender_handle, sender_awaiter) := sender_queue_take in
        let! v := sender_take_value sender_awaiter in
        stats_add stats_direct_handoffs_ 1;;;
        try_receive_many_loop fuel' (values ++ [v]) (resumes ++ [sender_handle])
      else ret (values, resumes)
  end.

(** The block under the lock, for [max_items > 0]. *)
Definition try_receive_many_locked (max_items : Z)
    : M (chan_world T) (list T * list handle * bool) :=
  let! (values, resumes) := try_receive_many_loop (Z.to_nat max_items) [] [] in
  let! closed := chan_get close_ in
  if queue_empty values && closed then
    stats_add stats_closed_failures_ 1;;;
    ret (values, resumes, true)
  else if queue_empty values then
    stats_add stats_try_receive_empty_returns_ 1;;;
    ret (values, resumes, false)
  else ret (values, resumes, false).

(** [while (!sender_queue_.empty())] of [close]: the queue is consumed. *)
Fixpoint close_senders (q : list (handle * ptr)) (handles : list handle)
    : M (chan_world T) (list handle) :=
  match q with
  | [] => ret handles
  | (sender_handle, sender_awaiter) :: q' =>
      sender_set_close sender_awaiter;;;
      chan_set (set_sender_queue q');;;
      close_senders q' (handles ++ [sender_handle])
  end.

Fixpoint close_receivers (q : list (handle * ptr)) (handles : list handle)
    : M (chan_world T) (list handle) :=
  match q with
  | [] => ret handles
  | (receiver_handle, _) :: q' =>
      chan_set (set_receiver_queue q');;;
      close_receivers q' (handles ++ [receiver_handle])
  end.

Definition close_locked : M (chan_world T) (list handle * list handle) :=
  let! c := chan_get id in
  if close_ c then throw (runtime_error "channel is already closed")
  else
    chan_set (set_close true);;;
    stats_add stats_close_calls_ 1;;;
    let! q := chan_get sender_queue_ in
    let! sender_handles := close_senders q [] in
    let! q' := chan_get receiver_queue_ in
    let! receiver_handles := close_receivers q' [] in
    stats_add stats_close_wake_senders_ (u64 (Z.of_nat (length sender_handles)));;;
    stats_add stats_close_wake_receivers_ (u64 (Z.of_nat (length receiver_handles)));;;
    ret (sender_handles, receiver_handles).

(** *** The whole member functions, in a state that holds the channel *)

Section with_runtime.
Context {S : Type} `{!Runtime S} `{!Lens S (chan_world T)}.

Definition SenderAwaiter_await_suspend (this : ptr) (h : handle) : M S bool :=
  let! (suspend_sender, resume_receiver) :=
    zoom (SenderAwaiter_await_suspend_locked this h) in
  resume_if_set resume_receiver;;;
  ret suspend_sender.

Definition ReceiverAwaiter_await_suspend (this : ptr) (h : handle) : M S bool :=
  noexcept (
    let! (suspend_receiver, resume_sender) :=
      zoom (ReceiverAwaiter_await_suspend_locked this h) in
    resume_if_set resume_sender;;;
    ret suspend_receiver).

Definition try_send (value : T) : M S bool :=
  let! (sent, resume_receiver) := zoom (try_send_locked value) in
  if sent then resume_if_set resume_receiver;;; ret true else ret false.

Definition try_send_many (items : list T) : M S Z :=
  if queue_empty items then ret 0%Z
  else
    let! (sent, resume_receivers) := zoom (try_send_many_locked items) in
    reschedule_all resume_receivers;;;
    ret sent.

Definition try_receive : M S (option T) :=
  let! (value, resume_sender) := zoom try_receive_locked in
  resume_if_set resume_sender;;;
  ret value.

Definition try_receive_many (max_items : Z) : M S (list T) :=
  if (max_items =? 0)%Z then ret []
  else
    let! (r, closed_and_empty) := zoom (try_receive_many_locked max_items) in
    let '(values, resume_senders) := r in
    if closed_and_empty : bool then throw (runtime_error "channel is closed")
    else reschedule_all resume_senders;;; ret values.

Definition close : M S unit :=
  let! (sender_handles, receiver_handles) := zoom close_locked in
  reschedule_all sender_handles;;;
  reschedule_all receiver_handles.
End with_runtime.
End operations.
