(* ===== verification/ChannelSpec.v ===== *)
(** * The channel's specification: a FIFO queue with waiting lists

    What [Channel<T>] promises, with no ring buffer, no pointers into frames
    and no statistics: a list of buffered values, the senders waiting with
    their values, the receivers waiting, whether it is closed, and what each
    awaiter has been told. *)

From S2P Require Import Prelude Runtime Channel.

(** ** The abstract state *)

Record fifo (T : Type) := MkFifo {
  f_cap : Z;
  f_items : list T;
  f_senders : list (handle * ptr * T);
  f_receivers : list (handle * ptr);
  f_closed : bool;
  f_mail : gmap ptr (option T);   (** what a receiver's [co_await] will return *)
  f_flag : gmap ptr bool;         (** whether a sender's [co_await] will throw *)
}.
Arguments MkFifo {T}.
Arguments f_cap {T} _.
Arguments f_items {T} _.
Arguments f_senders {T} _.
Arguments f_receivers {T} _.
Arguments f_closed {T} _.
Arguments f_mail {T} _.
Arguments f_flag {T} _.

Section fifo_spec.
Context {T : Type}.
Implicit Types (f : fifo T) (v : T).

Definition fifo_full f : bool := (Z.of_nat (length (f_items f)) =? f_cap f)%Z.

(** A value enters: to the first waiting receiver, else to the buffer, else
    not at all.  The handle is the coroutine to wake ([null] for none). *)
Definition fifo_push v f : option (handle * fifo T) :=
  match f_receivers f with
  | (h, p) :: rs =>
      Some (h, MkFifo (f_cap f) (f_items f) (f_senders f) rs (f_closed f)
                 (<[p := Some v]> (f_mail f)) (f_flag f))
  | [] =>
      if fifo_full f then None
      else Some (null, MkFifo (f_cap f) (f_items f ++ [v]) (f_senders f) []
                         (f_closed f) (f_mail f) (f_flag f))
  end.

(** The oldest value leaves; the first waiting sender's value takes the place
    it frees. *)
Definition fifo_pop f : option (T * handle * fifo T) :=
  match f_items f, f_senders f with
  | x :: xs, (h, _, v) :: ss =>
      Some (x, h, MkFifo (f_cap f) (xs ++ [v]) ss (f_receivers f) (f_closed f)
                    (f_mail f) (f_flag f))
  | x :: xs, [] =>
      Some (x, null, MkFifo (f_cap f) xs [] (f_receivers f) (f_closed f)
                       (f_mail f) (f_flag f))
  | [], (h, _, v) :: ss =>
      Some (v, h, MkFifo (f_cap f) [] ss (f_receivers f) (f_closed f)
                    (f_mail f) (f_flag f))
  | [], [] => None
  end.

Definition fifo_set_mail (p : ptr) (o : option T) f : fifo T :=
  MkFifo (f_cap f) (f_items f) (f_senders f) (f_receivers f) (f_closed f)
    (<[p := o]> (f_mail f)) (f_flag f).
Definition fifo_set_flag (p : ptr) (b : bool) f : fifo T :=
  MkFifo (f_cap f) (f_items f) (f_senders f) (f_receivers f) (f_closed f)
    (f_mail f) (<[p := b]> (f_flag f)).
Definition fifo_park_sender (h : handle) (p : ptr) v f : fifo T :=
  MkFifo (f_cap f) (f_items f) (f_senders f ++ [(h, p, v)]) (f_receivers f)
    (f_closed f) (f_mail f) (f_flag f).
Definition fifo_park_receiver (h : handle) (p : ptr) f : fifo T :=
  MkFifo (f_cap f) (f_items f) (f_senders f) (f_receivers f ++ [(h, p)])
    (f_closed f) (f_mail f) (f_flag f).

Definition closed_error : exn := runtime_error "channel is closed".

(** ** The operations *)

Definition spec_send (p : ptr) : M (fifo T) unit := λ f,
  if f_closed f then Throw closed_error f
  else Ok tt (fifo_set_flag p false f).

Definition spec_send_suspend (p : ptr) (h : handle) v
    : M (fifo T) (bool * handle) := λ f,
  if f_closed f then Ok (false, null) (fifo_set_flag p true f)
  else match fifo_push v f with
       | Some (wake, f') => Ok (false, wake) f'
       | None => Ok (true, null) (fifo_park_sender h p v f)
       end.

Definition spec_receive (p : ptr) : M (fifo T) unit := λ f,
  Ok tt (fifo_set_mail p None f).

Definition spec_receive_suspend (p : ptr) (h : handle)
    : M (fifo T) (bool * handle) := λ f,
  match fifo_pop f with
  | Some (v, wake, f') => Ok (false, wake) (fifo_set_mail p (Some v) f')
  | None =>
      if f_closed f then Ok (false, null) (fifo_set_mail p None f)
      else Ok (true, null) (fifo_park_receiver h p f)
  end.

Definition spec_try_send v : M (fifo T) (bool * handle) := λ f,
  if f_closed f then Throw closed_error f
  else match fifo_push v f with
       | Some (wake, f') => Ok (true, wake) f'
       | None => Ok (false, null) f
       end.

Definition spec_try_receive : M (fifo T) (option T * handle) := λ f,
  match fifo_pop f with
  | Some (v, wake, f') => Ok (Some v, wake) f'
  | None => if f_closed f then Throw closed_error f else Ok (None, null) f
  end.

(** The longest prefix of [vs] that enters: how many, and whom to wake. *)
Fixpoint fifo_push_many (vs : list T) f : nat * list handle * fifo T :=
  match vs with
  | [] => (0, [], f)
  | v :: vs' =>
      match fifo_push v f with
      | Some (wake, f') =>
          let '(n, hs, f'') := fifo_push_many vs' f' in
          (S n, (if is_null wake then hs else wake :: hs), f'')
      | None => (0, [], f)
      end
  end.

Definition spec_try_send_many (vs : list T) : M (fifo T) (Z * list handle) := λ f,
  if f_closed f then Throw closed_error f
  else let '(n, hs, f') := fifo_push_many vs f in Ok (u64 (Z.of_nat n), hs) f'.

Fixpoint fifo_pop_many (n : nat) f : list T * list handle * fifo T :=
  match n with
  | O => ([], [], f)
  | S n' =>
      match fifo_pop f with
      | Some (v, wake, f') =>
          let '(vs, hs, f'') := fifo_pop_many n' f' in
          (v :: vs, (if is_null wake then hs else wake :: hs), f'')
      | None => ([], [], f)
      end
  end.

Definition spec_try_receive_many (n : nat)
    : M (fifo T) (list T * list handle * bool) := λ f,
  let '(vs, hs, f') := fifo_pop_many n f in
  Ok (vs, hs, queue_empty vs && f_closed f) f'.

(** Closing tells every waiting sender that it failed and empties both
    waiting lists; buffered values stay. *)
Definition fifo_close f : fifo T :=
  MkFifo (f_cap f) (f_items f) [] [] true (f_mail f)
    (foldl (λ m '(_, p, _), <[p := true]> m) (f_flag f) (f_senders f)).

Definition spec_close : M (fifo T) (list handle * list handle) := λ f,
  if f_closed f then Throw (runtime_error "channel is already closed") f
  else Ok ((λ '(h, _, _), h) <$> f_senders f, fst <$> f_receivers f) (fifo_close f).

(** ** Well-formed states *)

Record fifo_wf f : Prop := {
  wf_cap : (Z.of_nat (length (f_items f)) ≤ f_cap f)%Z;
  wf_receivers : f_receivers f ≠ [] →
    f_items f = [] ∧ f_senders f = [] ∧ f_closed f = false;
  wf_senders : f_senders f ≠ [] →
    Z.of_nat (length (f_items f)) = f_cap f ∧ f_closed f = false;
  wf_sender_handles : Forall (λ x : handle * ptr * T, x.1.1 ≠ null) (f_senders f);
  wf_receiver_handles : Forall (λ x : handle * ptr, x.1 ≠ null) (f_receivers f);
  wf_sender_ptrs : NoDup ((λ x : handle * ptr * T, x.1.2) <$> f_senders f);
  wf_receiver_ptrs : NoDup (snd <$> f_receivers f);
  wf_mail : Forall (λ x : handle * ptr, f_mail f !! x.2 = Some None) (f_receivers f);
  wf_flag : Forall (λ x : handle * ptr * T, f_flag f !! x.1.2 = Some false) (f_senders f);
}.
End fifo_spec.

(** ** The operations preserve well-formedness *)

Section wf_lemmas.
Context {T : Type}.
Implicit Types (f : fifo T) (v : T).

Lemma full_lt f : fifo_wf f → fifo_full f = false →
  (Z.of_nat (length (f_items f)) < f_cap f)%Z.
Proof.
  intros Hwf Hf. apply Z.eqb_neq in Hf. pose proof (wf_cap f Hwf). lia.
Qed.

Lemma not_full_no_senders f : fifo_wf f → fifo_full f = false → f_senders f = [].
Proof.
  intros Hwf Hf. pose proof (full_lt f Hwf Hf).
  destruct (f_senders f) eqn:E; [done|].
  destruct (wf_senders f Hwf) as [? _]; [by rewrite E|lia].
Qed.

(** The five conditions on a waiting list only concern its own entries. *)
Lemma waiting_receivers_tail (m : gmap ptr (option T)) h p v rs :
  NoDup (snd <$> (h, p) :: rs) →
  Forall (λ x : handle * ptr, m !! x.2 = Some None) ((h, p) :: rs) →
  Forall (λ x : handle * ptr, <[p := Some v]> m !! x.2 = Some None) rs.
Proof.
  intros Hnd Hm. cbn in Hnd. apply NoDup_cons in Hnd as [Hni _].
  inversion Hm as [|? ? _ Hrs]; subst. rewrite Forall_forall in Hrs |- *.
  intros x Hx. rewrite lookup_insert_ne; [by apply Hrs|].
  intros ->. apply Hni, list_elem_of_fmap. eauto.
Qed.

Lemma fifo_push_wf v f h f' : fifo_wf f → f_closed f = false →
  fifo_push v f = Some (h, f') → fifo_wf f'.
Proof.
  intros Hwf Hcl. pose proof Hwf as [Hc Hr Hs Hsh Hrh Hsp Hrp Hm Hf].
  unfold fifo_push. destruct (f_receivers f) as [|[rh rp] rs] eqn:E.
  - destruct (fifo_full f) eqn:Ef; [done|]. intros [= <- <-].
    pose proof (full_lt f Hwf Ef). pose proof (not_full_no_senders f Hwf Ef) as Es.
    rewrite Es in *. split; cbn; rewrite ?length_app; cbn; try done. lia.
  - intros [= <- <-]. destruct Hr as (Ei & Es & _); [done|]. rewrite Es, Ei in *.
    split; cbn; try done.
    + by inversion Hrh.
    + cbn in Hrp. by apply NoDup_cons in Hrp as [_ ?].
    + by eapply waiting_receivers_tail.
Qed.

Lemma fifo_push_closed v f h f' :
  fifo_push v f = Some (h, f') → f_closed f' = f_closed f.
Proof. unfold fifo_push. repeat case_match; naive_solver. Qed.

Lemma fifo_pop_wf f v h f' : fifo_wf f → fifo_pop f = Some (v, h, f') → fifo_wf f'.
Proof.
  intros [Hc Hr Hs Hsh Hrh Hsp Hrp Hm Hf]. unfold fifo_pop.
  destruct (f_items f) as [|x xs]; destruct (f_senders f) as [|[[sh sp] sv] ss];
    cbn in *; try done; intros [= <- <- <-];
    (destruct (f_receivers f) as [|r rs];
      [|destruct Hr as (? & ? & ?); [done|discriminate]]);
    split; cbn; rewrite ?length_app; cbn; try done; try lia;
    try (by inversion Hsh); try (by inversion Hf);
    try (by apply NoDup_cons in Hsp as [_ ?]).
  - intros _. destruct Hs as [? ?]; [done|]. done.
  - intros _. destruct Hs as [? ?]; [done|]. split; [lia|done].
Qed.

Lemma fifo_pop_closed f v h f' :
  fifo_pop f = Some (v, h, f') → f_closed f' = f_closed f.
Proof. unfold fifo_pop. repeat case_match; naive_solver. Qed.

Lemma fifo_pop_none f : fifo_pop f = None → f_items f = [] ∧ f_senders f = [].
Proof. unfold fifo_pop. repeat case_match; naive_solver. Qed.

Lemma fifo_push_none v f : fifo_push v f = None →
  f_receivers f = [] ∧ fifo_full f = true.
Proof. unfold fifo_push. repeat case_match; naive_solver. Qed.

Lemma fifo_close_wf f : fifo_wf f → fifo_wf (fifo_close f).
Proof.
  intros [Hc _ _ _ _ _ _ _ _]. split; cbn; try done; try constructor.
Qed.

Lemma fifo_set_mail_wf p o f : fifo_wf f → p ∉ (snd <$> f_receivers f) →
  fifo_wf (fifo_set_mail p o f).
Proof.
  intros [Hc Hr Hs Hsh Hrh Hsp Hrp Hm Hf] Hp. split; cbn; try done.
  rewrite Forall_forall in Hm |- *. intros x Hx.
  rewrite lookup_insert_ne; [by apply Hm|].
  intros ->. apply Hp, list_elem_of_fmap. eauto.
Qed.

Lemma fifo_set_flag_wf p b f : fifo_wf f →
  p ∉ ((λ x : handle * ptr * T, x.1.2) <$> f_senders f) →
  fifo_wf (fifo_set_flag p b f).
Proof.
  intros [Hc Hr Hs Hsh Hrh Hsp Hrp Hm Hf] Hp. split; cbn; try done.
  rewrite Forall_forall in Hf |- *. intros x Hx.
  rewrite lookup_insert_ne; [by apply Hf|].
  intros ->. apply Hp, list_elem_of_fmap. eauto.
Qed.

Lemma NoDup_snoc {A} (l : list A) x : NoDup l → x ∉ l → NoDup (l ++ [x]).
Proof.
  intros Hl Hx. apply NoDup_app. split_and!; [done| |apply NoDup_singleton].
  intros y Hy ->%list_elem_of_singleton. done.
Qed.

Lemma Forall_snoc {A} (P : A → Prop) l x : Forall P l → P x → Forall P (l ++ [x]).
Proof. intros Hl Hx. apply Forall_app. split; [done|by apply Forall_singleton]. Qed.

Lemma fifo_park_sender_wf h p v f : fifo_wf f → h ≠ null → f_closed f = false →
  f_receivers f = [] → fifo_full f = true →
  p ∉ ((λ x : handle * ptr * T, x.1.2) <$> f_senders f) →
  f_flag f !! p = Some false → fifo_wf (fifo_park_sender h p v f).
Proof.
  intros [Hc Hr Hs Hsh Hrh Hsp Hrp Hm Hf] Hh Hcl Er Efull Hp Hflag.
  apply Z.eqb_eq in Efull. rewrite Er in *.
  split; cbn; rewrite ?Er, ?fmap_app; try done; try (by apply Forall_snoc).
  by apply NoDup_snoc.
Qed.

Lemma fifo_park_receiver_wf h p f : fifo_wf f → h ≠ null → f_closed f = false →
  fifo_pop f = None → p ∉ (snd <$> f_receivers f) →
  f_mail f !! p = Some None → fifo_wf (fifo_park_receiver h p f).
Proof.
  intros [Hc Hr Hs Hsh Hrh Hsp Hrp Hm Hf] Hh Hcl Epop Hp Hmail.
  destruct (fifo_pop_none f Epop) as [Ei Es]. rewrite Ei, Es in *.
  split; cbn; rewrite ?Ei, ?Es, ?fmap_app; try done; try (by apply Forall_snoc).
  by apply NoDup_snoc.
Qed.
End wf_lemmas.

Create HintDb chan.
#[export] Hint Resolve fifo_push_wf fifo_pop_wf fifo_close_wf fifo_set_mail_wf
  fifo_set_flag_wf fifo_park_sender_wf fifo_park_receiver_wf : chan.
