(* ===== verification/ChannelRing.v ===== *)
(** * The channel's ring buffer represents a list

    [ring_repr c items]: the slots of [buffer_] from [header_] on, modulo
    [capacity_], hold [items]; every other slot is empty.  Pushing at [tail_]
    appends, popping at [header_] removes the first item; neither divides by
    zero, leaves the buffer or wraps a counter. *)

From S2P Require Import Prelude Runtime Channel ChannelSpec.

Section ring.
Context {T : Type}.
Implicit Types (c : Channel T) (w : chan_world T) (items : list T).

Definition ring_slot c (i : nat) : nat :=
  Z.to_nat ((header_ c + Z.of_nat i) `mod` capacity_ c)%Z.

Record ring_repr c items : Prop := {
  rr_cap : (0 ≤ capacity_ c < 2 ^ 64)%Z;
  rr_buffer : length (buffer_ c) = Z.to_nat (capacity_ c);
  rr_header : (0 ≤ header_ c < Z.max 1 (capacity_ c))%Z;
  rr_tail : tail_ c = ((header_ c + Z.of_nat (length items)) `mod` capacity_ c)%Z;
  rr_count : count_ c = Z.of_nat (length items);
  rr_le : (Z.of_nat (length items) ≤ capacity_ c)%Z;
  rr_slots : ∀ i : nat, (Z.of_nat i < capacity_ c)%Z →
    buffer_ c !! ring_slot c i = Some (items !! i);
}.

(** What [buffer_push] and [buffer_pop] leave in the channel. *)
Definition ring_pushed (v : T) c : Channel T :=
  set_count (count_ c + 1) (set_tail ((tail_ c + 1) `mod` capacity_ c)
    (set_buffer (<[Z.to_nat (tail_ c) := Some v]> (buffer_ c)) c)).
Definition ring_popped c : Channel T :=
  set_count (count_ c - 1) (set_header ((header_ c + 1) `mod` capacity_ c)
    (set_buffer (<[Z.to_nat (header_ c) := None]> (buffer_ c)) c)).

Lemma ring_mod (h a n : Z) : (0 ≤ h < n)%Z → (0 ≤ a < n)%Z →
  ((h + a) `mod` n = if decide (h + a < n) then h + a else h + a - n)%Z.
Proof.
  intros Hh Ha. case_decide.
  - apply Z.mod_small. lia.
  - rewrite <- (Z.mod_small (h + a - n) n) by lia.
    rewrite <- (Z_mod_plus_full (h + a - n) 1 n). f_equal. lia.
Qed.

Lemma ring_slot_inj c i j : (0 ≤ header_ c < capacity_ c)%Z →
  (Z.of_nat i < capacity_ c)%Z → (Z.of_nat j < capacity_ c)%Z →
  ring_slot c i = ring_slot c j → i = j.
Proof.
  intros Hh Hi Hj. unfold ring_slot.
  rewrite !ring_mod by lia. repeat case_decide; lia.
Qed.

Lemma ring_slot_lt c i : (0 ≤ header_ c < capacity_ c)%Z →
  (Z.of_nat (ring_slot c i) < capacity_ c)%Z.
Proof.
  intros Hh. unfold ring_slot.
  pose proof (Z.mod_pos_bound (header_ c + Z.of_nat i) (capacity_ c)). lia.
Qed.

Lemma ring_repr_new cap : (0 < cap < 2 ^ 64)%Z →
  ring_repr (MkChannel (replicate (Z.to_nat cap) None) 0 0 cap 0 false [] []
               stats_init) [].
Proof.
  intros Hcap. split; cbn; try lia.
  - by rewrite length_replicate.
  - by rewrite Z.mod_0_l by lia.
  - intros i Hi. rewrite lookup_replicate_2; [by rewrite lookup_nil|].
    unfold ring_slot; cbn. rewrite Z.mod_small by lia. lia.
Qed.

Lemma ring_repr_default : ring_repr (@Channel_default T) [].
Proof. split; cbn; try lia. done. Qed.

(** The ring buffer reads only the fields [ring_repr] mentions. *)
Lemma ring_repr_ext c c' items : ring_repr c items →
  buffer_ c' = buffer_ c → header_ c' = header_ c → tail_ c' = tail_ c →
  capacity_ c' = capacity_ c → count_ c' = count_ c → ring_repr c' items.
Proof.
  intros [Hcap Hb Hh Ht Hn Hle Hs] E1 E2 E3 E4 E5.
  split; unfold ring_slot; rewrite ?E1, ?E2, ?E3, ?E4, ?E5; auto.
Qed.

Lemma ring_repr_pushed c items v : ring_repr c items →
  (Z.of_nat (length items) < capacity_ c)%Z →
  ring_repr (ring_pushed v c) (items ++ [v]).
Proof.
  intros [Hcap Hb Hh Ht Hn Hle Hs] Hlt.
  assert (Htail : Z.to_nat (tail_ c) = ring_slot c (length items))
    by (unfold ring_slot; by rewrite Ht).
  split; cbn; rewrite ?length_app, ?length_insert; cbn; try lia.
  - rewrite Ht, Z.add_mod_idemp_l by lia. f_equal. lia.
  - intros i Hi. change (ring_slot (ring_pushed v c) i) with (ring_slot c i).
    rewrite Htail. destruct (decide (i = length items)) as [->|Hne].
    + rewrite list_lookup_insert_eq, list_lookup_middle; [done..|].
      rewrite Hb. pose proof (ring_slot_lt c (length items)). lia.
    + rewrite list_lookup_insert_ne, Hs by
        (done || (intros E; apply ring_slot_inj in E; lia)).
      f_equal. destruct (decide (i < length items)).
      * by rewrite lookup_app_l.
      * rewrite !lookup_ge_None_2; rewrite ?length_app; cbn; [done|lia..].
Qed.

Lemma ring_repr_popped c x items : ring_repr c (x :: items) →
  ring_repr (ring_popped c) items.
Proof.
  intros [Hcap Hb Hh Ht Hn Hle Hs]. cbn [length] in *.
  assert (Hhead : Z.to_nat (header_ c) = ring_slot c 0)
    by (unfold ring_slot; rewrite Z.add_0_r, Z.mod_small; [done|lia]).
  assert (Hslot : ∀ i, ring_slot (ring_popped c) i = ring_slot c (S i)).
  { intros i. unfold ring_slot; cbn. rewrite Z.add_mod_idemp_l by lia.
    do 2 f_equal. lia. }
  split; cbn [ring_popped set_count set_header set_buffer buffer_ header_ tail_
    capacity_ count_]; rewrite ?length_insert; try lia.
  - pose proof (Z.mod_pos_bound (header_ c + 1) (capacity_ c)). lia.
  - rewrite Ht, Z.add_mod_idemp_l by lia. f_equal. lia.
  - intros i Hi. rewrite Hslot, Hhead.
    destruct (decide (Z.of_nat (S i) = capacity_ c)) as [E|Hne].
    + rewrite (lookup_ge_None_2 items) by lia.
      assert (ring_slot c (S i) = ring_slot c 0) as ->.
      { unfold ring_slot. rewrite E, Z.add_0_r. f_equal.
        rewrite <- (Z_mod_plus_full (header_ c) 1 (capacity_ c)). f_equal. lia. }
      apply list_lookup_insert_eq. rewrite Hb.
      pose proof (ring_slot_lt c 0). lia.
    + rewrite list_lookup_insert_ne by (intros E; apply ring_slot_inj in E; lia).
      rewrite Hs by lia. done.
Qed.

Lemma ring_repr_empty c items : ring_repr c items →
  isEmpty c = queue_empty items.
Proof.
  intros [_ _ _ _ Hn _ _]. unfold isEmpty. rewrite Hn.
  destruct items; [done|]. apply Z.eqb_neq. cbn. lia.
Qed.

Lemma wp_buffer_push w items v Q E :
  ring_repr (chan w) items → (Z.of_nat (length items) < capacity_ (chan w))%Z →
  Q tt (set_chan (ring_pushed v (chan w)) w) → wp (buffer_push v) w Q E.
Proof.
  intros Hr Hlt HQ. pose proof Hr as [Hcap Hb Hh Ht Hn Hle Hs].
  assert (Hbd : (0 ≤ tail_ (chan w) < capacity_ (chan w))%Z)
    by (rewrite Ht; apply Z.mod_pos_bound; lia).
  destruct (lookup_lt_is_Some_2 (buffer_ (chan w)) (Z.to_nat (tail_ (chan w))))
    as [o Ho]; [lia|].
  unfold buffer_push, chan_get, chan_set, id. wp_steps.
  apply wp_umod; [lia|]. cbn. wp_steps.
  rewrite !u64_small by lia. exact HQ.
Qed.

Lemma wp_buffer_pop w x items Q E :
  ring_repr (chan w) (x :: items) →
  Q x (set_chan (ring_popped (chan w)) w) → wp buffer_pop w Q E.
Proof.
  intros Hr HQ. pose proof Hr as [Hcap Hb Hh Ht Hn Hle Hs]. cbn [length] in *.
  assert (Ho : buffer_ (chan w) !! Z.to_nat (header_ (chan w)) = Some (Some x)).
  { specialize (Hs 0). unfold ring_slot in Hs.
    rewrite Z.add_0_r, Z.mod_small in Hs by lia. apply Hs. lia. }
  unfold buffer_pop, chan_get, chan_set, id. wp_steps.
  apply wp_umod; [lia|]. cbn. wp_steps.
  rewrite !u64_small by lia. exact HQ.
Qed.
End ring.

#[export] Hint Resolve ring_repr_pushed ring_repr_popped : chan.
