(* ===== verification/ChannelRefine.v ===== *)
(** * Channel<T> refines the FIFO specification

    [repr w f]: the concrete channel and awaiters [w] represent the abstract
    queue [f].  Every critical section, run in a state that represents a
    well-formed [f], has no undefined behaviour and returns or throws exactly
    what the specification says, in a state that represents the specified
    one. *)

From S2P Require Import Prelude Runtime Channel ChannelSpec ChannelRing.

Section repr.
Context {T : Type}.
Implicit Types (w : chan_world T) (f : fifo T) (v : T).

Definition sender_value (m : gmap ptr (SenderAwaiter T)) (p : ptr) : option T :=
  sa_value_ <$> m !! p.

Definition holds_values (m : gmap ptr (SenderAwaiter T))
    (ss : list (handle * ptr * T)) : Prop :=
  Forall (λ x : handle * ptr * T, sender_value m x.1.2 = Some x.2) ss.

Record repr w f : Prop := {
  re_ring : ring_repr (chan w) (f_items f);
  re_cap : capacity_ (chan w) = f_cap f;
  re_closed : close_ (chan w) = f_closed f;
  re_receivers : receiver_queue_ (chan w) = f_receivers f;
  re_senders : sender_queue_ (chan w) = fst <$> f_senders f;
  re_values : holds_values (senders w) (f_senders f);
  re_mail : ra_value_ <$> receivers w = f_mail f;
  re_flag : sa_close_ <$> senders w = f_flag f;
}.

Definition refines_at {X} (m : M (chan_world T) X) (s : M (fifo T) X) w f : Prop :=
  wp m w (λ x w', ∃ f', s f = Ok x f' ∧ repr w' f')
         (λ e w', ∃ f', s f = Throw e f' ∧ repr w' f').

(** ** The pieces of the operations *)

Lemma holds_values_insert m p a ss :
  p ∉ ((λ x : handle * ptr * T, x.1.2) <$> ss) →
  holds_values m ss → holds_values (<[p := a]> m) ss.
Proof.
  unfold holds_values. intros Hp Hss. rewrite Forall_forall in Hss |- *.
  intros x Hx. unfold sender_value. rewrite lookup_insert_ne; [by apply Hss|].
  intros ->. apply Hp, list_elem_of_fmap. eauto.
Qed.

Lemma flag_insert_same (m : gmap ptr (SenderAwaiter T)) p a v :
  m !! p = Some a →
  sa_close_ <$> <[p := MkSender v (sa_close_ a)]> m = sa_close_ <$> m.
Proof.
  intros Hp. rewrite fmap_insert. apply insert_id. by rewrite lookup_fmap, Hp.
Qed.

Context (moved_from : T → T) (kStats : bool).

Lemma wp_stats_add c d w Q E :
  (∀ st, Q tt (set_chan (set_stats st (chan w)) w)) →
  wp (stats_add kStats c d) w Q E.
Proof.
  intros HQ. unfold stats_add. destruct kStats; [apply HQ|].
  apply wp_ret. destruct w as [[] ? ?]. apply HQ.
Qed.

Lemma wp_receiver_queue_take w x q Q E :
  receiver_queue_ (chan w) = x :: q →
  Q x (set_chan (set_receiver_queue q (chan w)) w) →
  wp receiver_queue_take w Q E.
Proof.
  intros Hq HQ. unfold receiver_queue_take, chan_get, chan_set. wp_steps.
  rewrite Hq. wp_steps. exact HQ.
Qed.

Lemma wp_receiver_set_value p o w Q E :
  is_Some (receivers w !! p) →
  Q tt (set_receivers (<[p := MkReceiver o]> (receivers w)) w) →
  wp (receiver_set_value p o) w Q E.
Proof.
  intros [a Ha] HQ. unfold receiver_set_value. wp_steps. exact HQ.
Qed.

Lemma wp_sender_take_value p a w Q E :
  senders w !! p = Some a →
  Q (sa_value_ a) (set_senders
    (<[p := MkSender (moved_from (sa_value_ a)) (sa_close_ a)]> (senders w)) w) →
  wp (sender_take_value moved_from p) w Q E.
Proof. intros Ha HQ. unfold sender_take_value. wp_steps. exact HQ. Qed.

Lemma wp_sender_set_close p a w Q E :
  senders w !! p = Some a →
  Q tt (set_senders (<[p := MkSender (sa_value_ a) true]> (senders w)) w) →
  wp (sender_set_close p) w Q E.
Proof. intros Ha HQ. unfold sender_set_close. wp_steps. exact HQ. Qed.

(** Taking the first waiting sender and its value. *)
Lemma wp_first_sender {X} h p v ss w (k : handle → T → M (chan_world T) X) Q E :
  sender_queue_ (chan w) = (h, p) :: (fst <$> ss) →
  holds_values (senders w) ((h, p, v) :: ss) →
  NoDup ((λ x : handle * ptr * T, x.1.2) <$> (h, p, v) :: ss) →
  (∀ m, holds_values m ss → sa_close_ <$> m = sa_close_ <$> senders w →
    wp (k h v) (set_senders m
      (set_chan (set_sender_queue (fst <$> ss) (chan w)) w)) Q E) →
  wp (let! (sh, sa) := sender_queue_take in
      let! v' := sender_take_value moved_from sa in k sh v') w Q E.
Proof.
  intros Hq Hv Hnd Hk. inversion Hv as [|? ? Hp Hss]; subst. cbn in Hp.
  cbn in Hnd. apply NoDup_cons in Hnd as [Hni _].
  unfold sender_value in Hp. destruct (senders w !! p) as [a|] eqn:Ha; [|done].
  injection Hp as <-.
  unfold sender_queue_take, chan_get, chan_set. wp_steps. rewrite Hq. wp_steps.
  apply wp_sender_take_value with a; [done|]. cbn.
  apply Hk; [by apply holds_values_insert|by apply flag_insert_same].
Qed.
End repr.

(** ** The critical sections *)

(** The fields of a state written with the update functions. *)
Ltac chan_simpl :=
  cbn [chan senders receivers set_chan set_senders set_receivers buffer_ header_
       tail_ capacity_ count_ close_ sender_queue_ receiver_queue_ stats_
       set_buffer set_header set_tail set_count set_close set_sender_queue
       set_receiver_queue set_stats ring_pushed ring_popped f_cap f_items
       f_senders f_receivers f_closed f_mail f_flag fifo_set_mail fifo_set_flag
       fifo_park_sender fifo_park_receiver fifo_close] in *.

(** Close [repr] of an updated state from the components of the old one. *)
Ltac solve_ring :=
  first
    [ eassumption
    | eapply ring_repr_ext; [eassumption|reflexivity..]
    | eapply ring_repr_ext;
        [eapply ring_repr_pushed; [eassumption|]|reflexivity..]
    | eapply ring_repr_ext;
        [eapply ring_repr_popped; eassumption|reflexivity..] ].
Ltac norm_fifo :=
  repeat match goal with
  | H : f_items ?f = _ |- context [f_items ?f] => rewrite H
  | H : f_senders ?f = _ |- context [f_senders ?f] => rewrite H
  | H : f_receivers ?f = _ |- context [f_receivers ?f] => rewrite H
  | H : f_closed ?f = _ |- context [f_closed ?f] => rewrite H
  end.
Ltac solve_repr :=
  split; chan_simpl; norm_fifo;
  [ solve_ring | try done; try congruence .. ].
Ltac spec_done := eexists; split; [reflexivity|].

Section refinement.
Context {T : Type} (moved_from : T → T) (kStats : bool).
Implicit Types (w : chan_world T) (f : fifo T) (v : T).

Lemma full_spec w f : repr w f → isFull (chan w) = fifo_full f.
Proof.
  intros [Hr Hc _ _ _ _ _ _]. unfold isFull, fifo_full.
  by rewrite (rr_count _ _ Hr), Hc.
Qed.

Lemma front_receiver_live w f h p rs : repr w f → fifo_wf f →
  f_receivers f = (h, p) :: rs → is_Some (receivers w !! p).
Proof.
  intros Hr Hwf E. pose proof (wf_mail f Hwf) as Hm. rewrite E in Hm.
  inversion Hm as [|? ? Hp _]; subst. cbn in Hp.
  rewrite <- (re_mail _ _ Hr), lookup_fmap in Hp.
  destruct (receivers w !! p); [eauto|done].
Qed.

Lemma refines_send_suspend p h v b w f :
  repr w f → fifo_wf f → senders w !! p = Some (MkSender v b) →
  p ∉ ((λ x : handle * ptr * T, x.1.2) <$> f_senders f) →
  refines_at (SenderAwaiter_await_suspend_locked moved_from kStats p h)
    (spec_send_suspend p h v) w f.
Proof.
  intros Hr Hwf Hp Hni. pose proof Hr as [Hring Hcap Hcl Hrq Hsq Hv Hm Hf].
  unfold refines_at, SenderAwaiter_await_suspend_locked, spec_send_suspend, fifo_push.
  unfold chan_get, id. wp_steps. rewrite Hcl, Hrq.
  destruct (f_closed f) eqn:Ecl.
  { wp_steps. eapply wp_sender_set_close; [done|].
    wp_steps. apply wp_stats_add. intros st. wp_steps. spec_done. solve_repr.
    - by apply holds_values_insert.
    - by rewrite fmap_insert, Hf. }
  destruct (f_receivers f) as [|[rh rp] rs] eqn:Erq; cbn [queue_empty negb].
  2: { destruct (front_receiver_live w f rh rp rs Hr Hwf Erq) as [ra Hra].
    destruct (wf_receivers f Hwf) as (_ & Es & _); [by rewrite Erq|].
    wp_steps. eapply wp_receiver_queue_take; [done|]. wp_steps.
    eapply wp_sender_take_value; [done|]. wp_steps.
    apply wp_receiver_set_value; [by exists ra|]. wp_steps.
    apply wp_stats_add. intros st. wp_steps. spec_done. solve_repr.
    - constructor.
    - by rewrite fmap_insert, Hm.
    - rewrite <- Hf. by apply flag_insert_same with (a := MkSender v b). }
  rewrite (full_spec w f Hr).
  destruct (fifo_full f) eqn:Efull; cbn [negb].
  - unfold chan_set. wp_steps. apply wp_stats_add. intros st. wp_steps.
    spec_done. solve_repr.
    + unfold queue_push. by rewrite Hsq, fmap_app.
    + apply Forall_app. split; [done|]. apply Forall_singleton.
      unfold sender_value. cbn. by rewrite Hp.
  - pose proof (full_lt f Hwf Efull). pose proof (not_full_no_senders f Hwf Efull) as Es.
    wp_steps. eapply wp_sender_take_value; [done|]. wp_steps.
    eapply wp_buffer_push; [done|chan_simpl; lia|]. wp_steps.
    apply wp_stats_add. intros st. wp_steps. spec_done. solve_repr.
    + lia.
    + constructor.
    + rewrite <- Hf. by apply flag_insert_same with (a := MkSender v b).
Qed.

Lemma refines_send p v w f : repr w f →
  p ∉ ((λ x : handle * ptr * T, x.1.2) <$> f_senders f) →
  refines_at (send kStats p v) (spec_send p) w f.
Proof.
  intros Hr Hni. pose proof Hr as [Hring Hcap Hcl Hrq Hsq Hv Hm Hf].
  unfold refines_at, send, spec_send, chan_get, id. wp_steps. rewrite Hcl.
  destruct (f_closed f) eqn:Ecl; wp_steps.
  - apply wp_stats_add. intros st. wp_steps. spec_done. solve_repr.
  - spec_done. solve_repr.
    + by apply holds_values_insert.
    + by rewrite fmap_insert, Hf.
Qed.

Lemma refines_receive p w f : repr w f →
  refines_at (receive p) (spec_receive p) w f.
Proof.
  intros Hr. pose proof Hr as [Hring Hcap Hcl Hrq Hsq Hv Hm Hf].
  unfold refines_at, receive, spec_receive. wp_steps. spec_done. solve_repr.
  by rewrite fmap_insert, Hm.
Qed.

(** The refill after a pop: the first waiting sender's value is buffered. *)
Lemma wp_refill {X} w xs h p v ss (k : handle → M (chan_world T) X) Q E :
  ring_repr (chan w) xs → (Z.of_nat (length xs) < capacity_ (chan w))%Z →
  sender_queue_ (chan w) = (h, p) :: (fst <$> ss) →
  holds_values (senders w) ((h, p, v) :: ss) →
  NoDup ((λ x : handle * ptr * T, x.1.2) <$> (h, p, v) :: ss) →
  (∀ m c, ring_repr c (xs ++ [v]) → holds_values m ss →
    sa_close_ <$> m = sa_close_ <$> senders w →
    capacity_ c = capacity_ (chan w) → close_ c = close_ (chan w) →
    sender_queue_ c = fst <$> ss → receiver_queue_ c = receiver_queue_ (chan w) →
    wp (k h) (MkWorld c m (receivers w)) Q E) →
  wp (let! (sh, sa) := sender_queue_take in
      let! v' := sender_take_value moved_from sa in
      buffer_push v';;; stats_add kStats stats_buffer_pushes_ 1;;; k sh) w Q E.
Proof.
  intros Hring Hlt Hq Hv Hnd Hk.
  eapply (wp_first_sender moved_from h p v ss w (λ sh v',
    buffer_push v';;; stats_add kStats stats_buffer_pushes_ 1;;; k sh)); [done..|].
  intros m Hm Hf. wp_steps.
  eapply wp_buffer_push; [eapply ring_repr_ext; [exact Hring|reflexivity..]|done|].
  wp_steps. apply wp_stats_add. intros st. apply Hk; try done.
  eapply ring_repr_ext; [apply ring_repr_pushed; [exact Hring|done]|reflexivity..].
Qed.

Lemma refines_receive_suspend p h w f : repr w f → fifo_wf f →
  is_Some (receivers w !! p) →
  refines_at (ReceiverAwaiter_await_suspend_locked moved_from kStats p h)
    (spec_receive_suspend p h) w f.
Proof.
  intros Hr Hwf Hp. pose proof Hr as [Hring Hcap Hcl Hrq Hsq Hv Hm Hf].
  pose proof (wf_sender_ptrs f Hwf) as Hnd. pose proof (rr_le _ _ Hring) as Hle.
  unfold refines_at, ReceiverAwaiter_await_suspend_locked, spec_receive_suspend, fifo_pop.
  unfold chan_get, id. wp_steps.
  rewrite (ring_repr_empty _ _ Hring), Hsq, Hcl.
  destruct (f_items f) as [|x xs] eqn:Ei; cbn [queue_empty negb].
  - destruct (f_senders f) as [|[[sh sp] sv] ss] eqn:Es; cbn [queue_empty negb fmap list_fmap].
    + destruct (f_closed f) eqn:Ecl.
      * wp_steps. apply wp_receiver_set_value; [done|]. wp_steps.
        apply wp_stats_add. intros st. wp_steps. spec_done. solve_repr.
        by rewrite fmap_insert, Hm.
      * unfold chan_set. wp_steps. apply wp_stats_add. intros st. wp_steps.
        spec_done. solve_repr. unfold queue_push. by rewrite Hrq.
    + destruct (wf_senders f Hwf) as [_ Ecl]; [by rewrite Es|]. rewrite Ecl.
      eapply wp_first_sender; [done|exact Hv|exact Hnd|].
      intros m Hvm Hfm. wp_steps. apply wp_receiver_set_value; [done|]. wp_steps.
      apply wp_stats_add. intros st. wp_steps. spec_done. solve_repr.
      by rewrite fmap_insert, Hm.
  - wp_steps. eapply wp_buffer_pop; [done|]. wp_steps.
    apply wp_receiver_set_value; [done|]. wp_steps. apply wp_stats_add. intros st.
    pose proof (ring_repr_popped _ _ _ Hring) as Hpop.
    destruct (f_senders f) as [|[[sh sp] sv] ss] eqn:Es; cbn [queue_empty negb fmap list_fmap].
    + wp_steps. spec_done. solve_repr. by rewrite fmap_insert, Hm.
    + cbn [length] in Hle.
      eapply wp_refill; [eapply ring_repr_ext; [exact Hpop|reflexivity..]
        |chan_simpl; lia|exact Hsq|exact Hv|exact Hnd|].
      intros m c Hc Hvm Hfm ????. wp_steps. spec_done. solve_repr.
      by rewrite fmap_insert, Hm.
Qed.

(** *** Batches *)

(** One attempt to let a value in: the code's three branches are the three
    outcomes of [fifo_push]. *)
Lemma wp_push_step {X} v w f (k kfull : M (chan_world T) X)
    (k' : handle → M (chan_world T) X) Q E :
  repr w f → fifo_wf f →
  (∀ h f' w', fifo_push v f = Some (h, f') → is_null h = false → repr w' f' →
    wp (k' h) w' Q E) →
  (∀ f' w', fifo_push v f = Some (null, f') → repr w' f' → wp k w' Q E) →
  (fifo_push v f = None → wp kfull w Q E) →
  wp (if negb (queue_empty (receiver_queue_ (chan w))) then
        let! (rh, rp) := receiver_queue_take in
        receiver_set_value rp (Some v);;;
        stats_add kStats stats_direct_handoffs_ 1;;; k' rh
      else if negb (isFull (chan w)) then
        buffer_push v;;; stats_add kStats stats_buffer_pushes_ 1;;; k
      else kfull) w Q E.
Proof.
  intros Hr Hwf Hk' Hk Hfull. pose proof Hr as [Hring Hcap Hcl Hrq Hsq Hv Hm Hf].
  unfold fifo_push in *. rewrite Hrq, (full_spec w f Hr).
  destruct (f_receivers f) as [|[rh rp] rs] eqn:Erq; cbn [queue_empty negb].
  - destruct (fifo_full f) eqn:Efull; cbn [negb]; [by apply Hfull|].
    pose proof (full_lt f Hwf Efull).
    wp_steps. eapply wp_buffer_push; [done|chan_simpl; lia|]. wp_steps.
    apply wp_stats_add. intros st. eapply Hk; [done|]. solve_repr. lia.
  - pose proof (front_receiver_live w f rh rp rs Hr Hwf Erq).
    pose proof (wf_receiver_handles f Hwf) as Hh. rewrite Erq in Hh.
    inversion Hh; subst.
    wp_steps. eapply wp_receiver_queue_take; [done|]. wp_steps.
    apply wp_receiver_set_value; [done|]. wp_steps. apply wp_stats_add. intros st.
    eapply Hk'; [done|by apply N.eqb_neq|]. solve_repr. by rewrite fmap_insert, Hm.
Qed.

Lemma refines_try_send v w f : repr w f → fifo_wf f →
  refines_at (try_send_locked kStats v) (spec_try_send v) w f.
Proof.
  intros Hr Hwf. unfold refines_at, try_send_locked, spec_try_send, chan_get, id.
  wp_steps. rewrite (re_closed _ _ Hr). destruct (f_closed f) eqn:Ecl.
  { wp_steps. apply wp_stats_add. intros st. wp_steps. spec_done.
    destruct Hr. solve_repr. }
  eapply wp_push_step; [done..| | |].
  - intros h f' w' E _ Hr'. wp_steps. rewrite E. by eauto.
  - intros f' w' E Hr'. wp_steps. rewrite E. by eauto.
  - intros E. wp_steps. apply wp_stats_add. intros st. wp_steps. rewrite E.
    spec_done. destruct Hr. solve_repr.
Qed.

Lemma wp_try_send_many_loop items : ∀ w f sent resumes E,
  repr w f → fifo_wf f → f_closed f = false → (0 ≤ sent < 2 ^ 64)%Z →
  wp (try_send_many_loop kStats items sent resumes) w
    (λ r w', let '(n, hs, f') := fifo_push_many items f in
       r = (u64 (sent + Z.of_nat n), resumes ++ hs) ∧ repr w' f') E.
Proof.
  induction items as [|v items IH]; intros w f sent resumes E Hr Hwf Hcl Hs;
    cbn [try_send_many_loop fifo_push_many].
  { apply wp_ret. rewrite app_nil_r, Z.add_0_r, u64_small by done. done. }
  unfold chan_get, id. wp_steps. pose proof (u64_range (sent + 1)) as Hs1.
  eapply wp_push_step; [done..| | |].
  - intros h f' w' Epush Hh Hr'. rewrite Epush, Hh.
    eapply wp_mono; [apply IH; eauto using fifo_push_wf; by rewrite (fifo_push_closed v f h f')|
      |intros ?? H; exact H].
    intros r w2. destruct (fifo_push_many items f') as [[n hs] f2]. intros [-> ?].
    split; [|done]. rewrite u64_add_l, <- app_assoc. cbn. do 2 f_equal. lia.
  - intros f' w' Epush Hr'. rewrite Epush.
    eapply wp_mono; [apply IH; eauto using fifo_push_wf; by rewrite (fifo_push_closed v f null f')|
      |intros ?? H; exact H].
    intros r w2. destruct (fifo_push_many items f') as [[n hs] f2]. intros [-> ?].
    split; [|done]. rewrite u64_add_l. cbn. do 2 f_equal. lia.
  - intros Epush. rewrite Epush. wp_steps. apply wp_stats_add. intros st. wp_steps.
    rewrite app_nil_r, Z.add_0_r, u64_small by done. split; [done|].
    destruct Hr. solve_repr.
Qed.

Lemma refines_try_send_many items w f : repr w f → fifo_wf f →
  refines_at (try_send_many_locked kStats items) (spec_try_send_many items) w f.
Proof.
  intros Hr Hwf.
  unfold refines_at, try_send_many_locked, spec_try_send_many, chan_get, id.
  wp_steps. rewrite (re_closed _ _ Hr). destruct (f_closed f) eqn:Ecl.
  { wp_steps. apply wp_stats_add. intros st. wp_steps. spec_done.
    destruct Hr. solve_repr. }
  eapply wp_mono; [by apply wp_try_send_many_loop| |intros ?? H; exact H].
  intros r w'. destruct (fifo_push_many items f) as [[n hs] f']. intros [-> ?].
  rewrite Z.add_0_l. by eauto.
Qed.

(** One attempt to take a value out, as [try_receive_many] makes it. *)
Lemma wp_pop_step {X} w f (kempty : M (chan_world T) X)
    (k : T → M (chan_world T) X) (k' : T → handle → M (chan_world T) X) Q E :
  repr w f → fifo_wf f →
  (∀ v h f' w', fifo_pop f = Some (v, h, f') → is_null h = false → repr w' f' →
    wp (k' v h) w' Q E) →
  (∀ v f' w', fifo_pop f = Some (v, null, f') → repr w' f' → wp (k v) w' Q E) →
  (fifo_pop f = None → wp kempty w Q E) →
  wp (if negb (isEmpty (chan w)) then
        let! v := buffer_pop in
        stats_add kStats stats_buffer_pops_ 1;;;
        if negb (queue_empty (sender_queue_ (chan w))) then
          let! (sh, sa) := sender_queue_take in
          let! v' := sender_take_value moved_from sa in
          buffer_push v';;;
          stats_add kStats stats_buffer_pushes_ 1;;; k' v sh
        else k v
      else if negb (queue_empty (sender_queue_ (chan w))) then
        let! (sh, sa) := sender_queue_take in
        let! v := sender_take_value moved_from sa in
        stats_add kStats stats_direct_handoffs_ 1;;; k' v sh
      else kempty) w Q E.
Proof.
  intros Hr Hwf Hk' Hk Hempty. pose proof Hr as [Hring Hcap Hcl Hrq Hsq Hv Hm Hf].
  pose proof (wf_sender_ptrs f Hwf) as Hnd. pose proof (rr_le _ _ Hring) as Hle.
  pose proof (wf_sender_handles f Hwf) as Hh.
  unfold fifo_pop in *. rewrite (ring_repr_empty _ _ Hring), Hsq.
  destruct (f_items f) as [|x xs] eqn:Ei;
    destruct (f_senders f) as [|[[sh sp] sv] ss] eqn:Es;
    cbn [queue_empty negb fmap list_fmap]; [by apply Hempty|..];
    try (inversion Hh; subst).
  - eapply wp_first_sender; [done|exact Hv|exact Hnd|].
    intros m Hvm Hfm. wp_steps. apply wp_stats_add. intros st.
    eapply Hk'; [done|by apply N.eqb_neq|]. solve_repr.
  - wp_steps. eapply wp_buffer_pop; [done|]. wp_steps. apply wp_stats_add. intros st.
    pose proof (ring_repr_popped _ _ _ Hring) as Hpop.
    eapply Hk; [done|]. solve_repr.
  - wp_steps. eapply wp_buffer_pop; [done|]. wp_steps. apply wp_stats_add. intros st.
    pose proof (ring_repr_popped _ _ _ Hring) as Hpop. cbn [length] in Hle.
    eapply wp_refill; [eapply ring_repr_ext; [exact Hpop|reflexivity..]
      |chan_simpl; lia|exact Hsq|exact Hv|exact Hnd|].
    intros m c Hc Hvm Hfm ????.
    eapply Hk'; [done|by apply N.eqb_neq|]. solve_repr.
Qed.

Lemma refines_try_receive w f : repr w f → fifo_wf f →
  refines_at (try_receive_locked moved_from kStats) spec_try_receive w f.
Proof.
  intros Hr Hwf. unfold refines_at, try_receive_locked, spec_try_receive, chan_get, id.
  wp_steps. eapply wp_pop_step; [done..| | |].
  - intros v h f' w' E _ Hr'. wp_steps. rewrite E. by eauto.
  - intros v f' w' E Hr'. wp_steps. rewrite E. by eauto.
  - intros E. rewrite E, (re_closed _ _ Hr).
    destruct (f_closed f) eqn:Ecl; wp_steps; apply wp_stats_add; intros st; wp_steps;
      spec_done; destruct Hr; solve_repr.
Qed.

Lemma wp_try_receive_many_loop fuel : ∀ w f values resumes E,
  repr w f → fifo_wf f →
  wp (try_receive_many_loop moved_from kStats fuel values resumes) w
    (λ r w', let '(vs, hs, f') := fifo_pop_many fuel f in
       r = (values ++ vs, resumes ++ hs) ∧ repr w' f') E.
Proof.
  induction fuel as [|fuel IH]; intros w f values resumes E Hr Hwf;
    cbn [try_receive_many_loop fifo_pop_many].
  { apply wp_ret. by rewrite !app_nil_r. }
  unfold chan_get, id. wp_steps. eapply wp_pop_step; [done..| | |].
  - intros v h f' w' Epop Hh Hr'. rewrite Epop, Hh.
    eapply wp_mono; [apply IH; eauto using fifo_pop_wf| |intros ?? H; exact H].
    intros r w2. destruct (fifo_pop_many fuel f') as [[vs hs] f2]. intros [-> ?].
    by rewrite <- !app_assoc.
  - intros v f' w' Epop Hr'. rewrite Epop.
    eapply wp_mono; [apply IH; eauto using fifo_pop_wf| |intros ?? H; exact H].
    intros r w2. destruct (fifo_pop_many fuel f') as [[vs hs] f2]. intros [-> ?].
    by rewrite <- !app_assoc.
  - intros E0. rewrite E0. apply wp_ret. by rewrite !app_nil_r.
Qed.

Lemma fifo_pop_many_closed n : ∀ f vs hs f',
  fifo_pop_many n f = (vs, hs, f') → f_closed f' = f_closed f.
Proof.
  induction n as [|n IH]; intros f vs hs f' E; cbn in E; [by simplify_eq|].
  destruct (fifo_pop f) as [[[v h] f1]|] eqn:Ep; [|by simplify_eq].
  destruct (fifo_pop_many n f1) as [[vs1 hs1] f2] eqn:E1. simplify_eq.
  rewrite (IH _ _ _ _ E1). by apply fifo_pop_closed in Ep.
Qed.

Lemma refines_try_receive_many n w f : repr w f → fifo_wf f →
  refines_at (try_receive_many_locked moved_from kStats n)
    (spec_try_receive_many (Z.to_nat n)) w f.
Proof.
  intros Hr Hwf. unfold refines_at, try_receive_many_locked, spec_try_receive_many.
  wp_steps.
  eapply wp_mono; [by apply wp_try_receive_many_loop| |intros ?? H; exact H].
  intros r w'. destruct (fifo_pop_many (Z.to_nat n) f) as [[vs hs] f'] eqn:E.
  intros [-> Hr']. cbn. unfold chan_get. wp_steps.
  pose proof (fifo_pop_many_closed _ _ _ _ _ E) as Hcl.
  rewrite (re_closed _ _ Hr'), Hcl.
  destruct vs, (f_closed f); cbn [queue_empty andb]; wp_steps;
    try (apply wp_stats_add; intros st; wp_steps); spec_done; try done;
    destruct Hr'; solve_repr.
Qed.

(** *** Closing *)

Lemma holds_values_set_close (m : gmap ptr (SenderAwaiter T)) p a ss :
  m !! p = Some a → holds_values m ss →
  holds_values (<[p := MkSender (sa_value_ a) true]> m) ss.
Proof.
  unfold holds_values, sender_value. intros Hp Hss.
  eapply Forall_impl; [exact Hss|]. intros x Hx. cbn in *.
  destruct (decide (p = x.1.2)) as [E|Hne].
  - rewrite <- E, Hp in Hx. by rewrite <- E, lookup_insert_eq.
  - by rewrite lookup_insert_ne.
Qed.

Lemma wp_close_senders (ss : list (handle * ptr * T)) : ∀ w hs Q E,
  holds_values (senders w) ss → sender_queue_ (chan w) = fst <$> ss →
  (∀ m c, sa_close_ <$> m =
      foldl (λ m '(_, p, _), <[p := true]> m) (sa_close_ <$> senders w) ss →
    c = set_sender_queue [] (chan w) →
    Q (hs ++ ((λ '(h, _, _), h) <$> ss)) (MkWorld c m (receivers w))) →
  wp (close_senders (fst <$> ss) hs) w Q E.
Proof.
  induction ss as [|[[h p] v] ss IH]; intros w hs Q E Hv Hq HQ;
    cbn [close_senders fmap list_fmap fst].
  { apply wp_ret. specialize (HQ (senders w) (chan w)). rewrite app_nil_r in HQ.
    cbn in HQ, Hq. destruct w as [[] ? ?]. cbn in *. subst. by apply HQ. }
  inversion Hv as [|? ? Hp Hss]; subst. unfold sender_value in Hp. cbn in Hp.
  destruct (senders w !! p) as [a|] eqn:Ha; [|done].
  unfold chan_set. wp_steps. eapply wp_sender_set_close; [done|]. wp_steps.
  apply IH; chan_simpl; [by apply holds_values_set_close|done|].
  intros m c Hm ->. rewrite <- app_assoc. apply HQ; [|done].
  rewrite Hm, fmap_insert. done.
Qed.

Lemma wp_close_receivers (rs : list (handle * ptr)) : ∀ w hs Q E,
  receiver_queue_ (chan w) = rs →
  Q (hs ++ (fst <$> rs)) (set_chan (set_receiver_queue [] (chan w)) w) →
  wp (close_receivers rs hs) w Q E.
Proof.
  induction rs as [|[h p] rs IH]; intros w hs Q E Hq HQ; cbn [close_receivers].
  { apply wp_ret. rewrite app_nil_r in HQ.
    destruct w as [[] ? ?]. cbn in *. by subst. }
  unfold chan_set. wp_steps. apply IH; [done|]. by rewrite <- app_assoc.
Qed.

Lemma refines_close w f : repr w f → fifo_wf f →
  refines_at (close_locked kStats) spec_close w f.
Proof.
  intros Hr Hwf. pose proof Hr as [Hring Hcap Hcl Hrq Hsq Hv Hm Hf].
  unfold refines_at, close_locked, spec_close, chan_get, chan_set, id.
  wp_steps. rewrite Hcl. destruct (f_closed f) eqn:Ecl.
  { wp_steps. spec_done. done. }
  wp_steps. apply wp_stats_add. intros st. wp_steps. chan_simpl. rewrite Hsq.
  apply wp_close_senders; [done..|]. intros m c Hfm ->. wp_steps.
  apply wp_close_receivers; [done|]. cbn. wp_steps.
  apply wp_stats_add. intros st2. wp_steps. apply wp_stats_add. intros st3.
  wp_steps. chan_simpl. rewrite Hrq. spec_done. solve_repr. constructor.
Qed.

(** *** The awaiters' last step *)

Lemma SenderAwaiter_resume_spec p w f a : repr w f → senders w !! p = Some a →
  SenderAwaiter_await_resume p w =
    if decide (f_flag f !! p = Some true) then Throw closed_error w else Ok tt w.
Proof.
  intros Hr Ha. unfold SenderAwaiter_await_resume. cbn. rewrite Ha. cbn.
  rewrite <- (re_flag _ _ Hr), lookup_fmap, Ha. cbn.
  destruct (sa_close_ a); case_decide; naive_solver.
Qed.

Lemma ReceiverAwaiter_resume_spec p w f o : repr w f → f_mail f !! p = Some o →
  wp (ReceiverAwaiter_await_resume moved_from p) w
    (λ v w', o = Some v ∧ repr w' (fifo_set_mail p (Some (moved_from v)) f))
    (λ e w', o = None ∧ e = closed_error ∧ w' = w).
Proof.
  intros Hr Hp. pose proof Hr as [Hring Hcap Hcl Hrq Hsq Hv Hm Hf].
  rewrite <- Hm, lookup_fmap in Hp.
  destruct (receivers w !! p) as [[o']|] eqn:Ha; [|done]. injection Hp as ->.
  unfold ReceiverAwaiter_await_resume. wp_steps.
  destruct o as [v|]; wp_steps; [|done]. split; [done|]. solve_repr.
  by rewrite fmap_insert, Hm.
Qed.
End refinement.
