(* ===== verification/ChannelRun.v ===== *)
(** * Any interleaving of channel operations

    Every critical section runs under the channel's mutex, so the executions
    of any number of threads are the sequences of critical sections.
    [chan_step] is one of them, by any coroutine, at any time its awaiter
    object allows; a ghost history records what entered and left the channel
    and which coroutines it parked and woke. *)

From S2P Require Import Prelude Runtime Channel ChannelSpec ChannelRing ChannelRefine.

Section run.
Context {T : Type} (moved_from : T → T) (kStats : bool).
Implicit Types (w : chan_world T) (f : fifo T) (v : T).

(** ** Operations and their ghost observations *)

Inductive chan_op : Type :=
| OpSend (p : ptr) (v : T)
| OpSendSuspend (p : ptr) (h : handle)
| OpSendResume (p : ptr)
| OpSendDestroy (p : ptr)
| OpTrySend (v : T)
| OpTrySendMany (vs : list T)
| OpReceive (p : ptr)
| OpReceiveSuspend (p : ptr) (h : handle)
| OpReceiveResume (p : ptr)
| OpReceiveDestroy (p : ptr)
| OpTryReceive
| OpTryReceiveMany (n : Z)
| OpClose
| OpResetStats.

(** The values that entered and left, in order, the values that [close]
    discarded with their senders, and the coroutines parked and woken. *)
Record history := MkHistory {
  sent : list T;
  got : list T;
  dropped : list T;
  parked : list handle;
  woken : list handle;
}.

Definition no_history : history := MkHistory [] [] [] [] [].
Definition history_app (a b : history) : history :=
  MkHistory (sent a ++ sent b) (got a ++ got b) (dropped a ++ dropped b)
    (parked a ++ parked b) (woken a ++ woken b).

Definition handle_list (h : handle) : list handle := if is_null h then [] else [h].

(** The values of the parked senders, in queue order. *)
Definition queued_values (w : chan_world T) : list T :=
  omap (λ x : handle * ptr, sender_value (senders w) x.2) (sender_queue_ (chan w)).

Definition ignore_throw (m : M (chan_world T) history) : M (chan_world T) history :=
  try_catch m (λ _, ret no_history).

Definition sent_value (v : T) (w : chan_world T) : list T :=
  if queue_empty (receiver_queue_ (chan w)) then [] else [v].

(** Run an operation's critical section and observe it. *)
Definition exec (op : chan_op) : M (chan_world T) history :=
  match op with
  | OpSend p v => ignore_throw (send kStats p v;;; ret no_history)
  | OpSendSuspend p h =>
      let! w := get in
      let! a := deref (senders w !! p) in
      let! (suspend, wake) := SenderAwaiter_await_suspend_locked moved_from kStats p h in
      if close_ (chan w) then ret no_history
      else ret (MkHistory [sa_value_ a] (sent_value (sa_value_ a) w) []
                 (if suspend then [h] else []) (handle_list wake))
  | OpSendResume p =>
      ignore_throw (SenderAwaiter_await_resume p;;; ret no_history)
  | OpSendDestroy p =>
      modify (λ w, set_senders (delete p (senders w)) w);;; ret no_history
  | OpTrySend v => ignore_throw (
      let! w := get in
      let! (accepted, wake) := try_send_locked kStats v in
      ret (if accepted : bool then
             MkHistory [v] (sent_value v w) [] [] (handle_list wake)
           else no_history))
  | OpTrySendMany vs => ignore_throw (
      let! w := get in
      let! (n, wakes) := try_send_many_locked kStats vs in
      let k := Z.to_nat n in
      ret (MkHistory (take k vs)
             (take (Nat.min k (length (receiver_queue_ (chan w)))) vs) [] [] wakes))
  | OpReceive p => receive p;;; ret no_history
  | OpReceiveSuspend p h =>
      let! (suspend, wake) := ReceiverAwaiter_await_suspend_locked moved_from kStats p h in
      let! w' := get in
      ret (MkHistory [] (match receivers w' !! p with
                         | Some (MkReceiver (Some v)) => [v]
                         | _ => []
                         end) []
             (if suspend : bool then [h] else []) (handle_list wake))
  | OpReceiveResume p =>
      ignore_throw (ReceiverAwaiter_await_resume moved_from p;;; ret no_history)
  | OpReceiveDestroy p =>
      modify (λ w, set_receivers (delete p (receivers w)) w);;; ret no_history
  | OpTryReceive => ignore_throw (
      let! (value, wake) := try_receive_locked moved_from kStats in
      ret (MkHistory [] (match value with Some v => [v] | None => [] end) [] []
             (handle_list wake)))
  | OpTryReceiveMany n =>
      let! (r, _) := try_receive_many_locked moved_from kStats n in
      ret (MkHistory [] r.1 [] [] r.2)
  | OpClose => ignore_throw (
      let! w := get in
      let! (hs, hr) := close_locked kStats in
      ret (MkHistory [] [] (queued_values w) [] (hs ++ hr)))
  | OpResetStats =>
      modify (λ w, set_chan (reset_stats kStats (chan w)) w);;; ret no_history
  end.

(** What the language guarantees of the caller: an awaiter is constructed at
    a free address, awaited once by a coroutine with a frame, and neither
    read nor destroyed while its coroutine is suspended on it. *)
Definition op_enabled (w : chan_world T) (op : chan_op) : Prop :=
  let parked_sender p := p ∈ (snd <$> sender_queue_ (chan w)) in
  let parked_receiver p := p ∈ (snd <$> receiver_queue_ (chan w)) in
  match op with
  | OpSend p _ => senders w !! p = None
  | OpSendSuspend p h =>
      (∃ v, senders w !! p = Some (MkSender v false)) ∧ ¬ parked_sender p ∧ h ≠ null
  | OpSendResume p => is_Some (senders w !! p) ∧ ¬ parked_sender p
  | OpSendDestroy p => ¬ parked_sender p
  | OpTrySendMany vs => (Z.of_nat (length vs) < 2 ^ 64)%Z
  | OpReceive p => receivers w !! p = None
  | OpReceiveSuspend p h =>
      receivers w !! p = Some (MkReceiver None) ∧ ¬ parked_receiver p ∧ h ≠ null
  | OpReceiveResume p => is_Some (receivers w !! p) ∧ ¬ parked_receiver p
  | OpReceiveDestroy p => ¬ parked_receiver p
  | _ => True
  end.

(** ** Executions *)

Inductive chan_step : chan_world T * history → chan_world T * history → Prop :=
| chan_step_op op w w' hist o :
    op_enabled w op → exec op w = Ok o w' →
    chan_step (w, hist) (w', history_app hist o).

(** A new channel: [Channel<T> c;] or [Channel<T> c(capacity);]. *)
Definition chan_new (c : Channel T) : Prop :=
  c = Channel_default ∨
  ∃ cap, (0 < cap < 2 ^ 64)%Z ∧ Channel_make cap = inr c.

Definition chan_reachable (s : chan_world T * history) : Prop :=
  ∃ c, chan_new c ∧ rtc chan_step (MkWorld c ∅ ∅, no_history) s.
End run.
Arguments chan_op : clear implicits.
Arguments history : clear implicits.

(** ** Accounting on the specification *)

Section accounting.
Context {T : Type}.
Implicit Types (f : fifo T) (v : T).

(** The values inside the channel, oldest first. *)
Definition pending f : list T :=
  f_items f ++ (if f_closed f then [] else snd <$> f_senders f).
(** The coroutines it holds. *)
Definition waiting f : list handle :=
  ((λ x : handle * ptr * T, x.1.1) <$> f_senders f) ++ (fst <$> f_receivers f).

Record accounts f (o : history T) f' : Prop := {
  ac_values : pending f ++ sent o = got o ++ pending f' ++ dropped o;
  ac_closed : f_closed f = true → sent o = [] ∧ dropped o = [] ∧ f_closed f' = true;
  ac_open : f_closed f' = false → dropped o = [];
  ac_handles : waiting f ++ parked o ≡ₚ woken o ++ waiting f';
}.

Lemma accounts_refl f f' : pending f' = pending f → waiting f' = waiting f →
  f_closed f' = f_closed f → accounts f no_history f'.
Proof.
  intros E1 E2 E3. split; cbn; rewrite ?app_nil_r, ?E1, ?E2, ?E3; done.
Qed.

Lemma fifo_push_accounts v f h f' : fifo_wf f → f_closed f = false →
  fifo_push v f = Some (h, f') →
  accounts f (MkHistory [v] (if queue_empty (f_receivers f) then [] else [v]) []
                [] (handle_list h)) f'.
Proof.
  intros Hwf Hcl Hpush. pose proof Hwf as [_ Hr _ _ Hrh _ _ _ _].
  unfold fifo_push in Hpush.
  destruct (f_receivers f) as [|[rh rp] rs] eqn:Er.
  - destruct (fifo_full f) eqn:Ef; [done|]. injection Hpush as <- <-.
    pose proof (not_full_no_senders f Hwf Ef) as Es.
    split; unfold pending, waiting; cbn; rewrite ?Hcl, ?Es, ?Er; cbn;
      rewrite ?app_nil_r; done.
  - injection Hpush as <- <-. destruct Hr as (Ei & Es & _); [done|].
    inversion Hrh as [|? ? Hh _]; subst. cbn in Hh.
    unfold handle_list, is_null. rewrite (proj2 (N.eqb_neq rh null) Hh).
    split; unfold pending, waiting; cbn; rewrite ?Hcl, ?Es, ?Ei, ?Er; cbn;
      rewrite ?app_nil_r; done.
Qed.

Lemma fifo_pop_accounts v f h f' : fifo_wf f →
  fifo_pop f = Some (v, h, f') →
  accounts f (MkHistory [] [v] [] [] (handle_list h)) f'.
Proof.
  intros Hwf Hpop. pose proof Hwf as [_ _ Hs Hsh _ _ _ _ _].
  unfold fifo_pop in Hpop.
  destruct (f_items f) as [|x xs] eqn:Ei;
    destruct (f_senders f) as [|[[sh sp] sv] ss] eqn:Es; [done|..];
    injection Hpop as <- <- <-;
    try (destruct Hs as [_ Hcl]; [done|]; inversion Hsh as [|? ? Hh _]; subst;
         cbn in Hh; unfold handle_list, is_null; rewrite (proj2 (N.eqb_neq sh null) Hh));
    split; unfold pending, waiting; cbn; rewrite ?Ei, ?Es, ?Hcl; cbn;
    rewrite ?app_nil_r, <- ?app_assoc; try done.
Qed.

Lemma fifo_push_many_accounts vs : ∀ f n hs f', fifo_wf f → f_closed f = false →
  fifo_push_many vs f = (n, hs, f') →
  accounts f (MkHistory (take n vs) (take (Nat.min n (length (f_receivers f))) vs)
                [] [] hs) f' ∧ fifo_wf f' ∧ n ≤ length vs.
Proof.
  induction vs as [|v vs IH]; intros f n hs f' Hwf Hcl E; cbn in E.
  { simplify_eq. split_and!; [|done|done]. by apply accounts_refl. }
  destruct (fifo_push v f) as [[h f1]|] eqn:Ep.
  2: { simplify_eq. split_and!; [|done|cbn; lia]. by apply accounts_refl. }
  destruct (fifo_push_many vs f1) as [[n1 hs1] f2] eqn:E1. simplify_eq.
  pose proof (fifo_push_closed _ _ _ _ Ep) as Hcl1. rewrite Hcl in Hcl1.
  destruct (IH f1 n1 hs1 f') as (Hac & Hwf' & Hle); eauto using fifo_push_wf.
  split_and!; [|done|cbn; lia].
  pose proof (fifo_push_accounts _ _ _ _ Hwf Hcl Ep) as [Av _ Ao Ah].
  destruct Hac as [Bv Bc Bo Bh]. cbn in *. rewrite app_nil_r in *.
  assert (Hlen : (f_receivers f = [] ∧ f_receivers f1 = []) ∨
                 length (f_receivers f) = S (length (f_receivers f1))).
  { unfold fifo_push in Ep. destruct (f_receivers f) as [|[]];
      [destruct (fifo_full f)|]; simplify_eq; cbn; auto. }
  split; cbn; rewrite ?app_nil_r.
  - change (v :: take n1 vs) with ([v] ++ take n1 vs). rewrite app_assoc, Av, <- app_assoc, Bv.
    rewrite app_assoc. f_equal.
    destruct Hlen as [[E0 E2]|E0]; rewrite ?E0, ?E2 in *; cbn.
    + by rewrite Nat.min_0_r.
    + destruct (f_receivers f); [done|]. cbn in *. done.
  - by rewrite Hcl.
  - done.
  - rewrite Ah. unfold handle_list. destruct (is_null h); cbn; by rewrite Bh.
Qed.

Lemma fifo_pop_many_accounts n : ∀ f vs hs f', fifo_wf f →
  fifo_pop_many n f = (vs, hs, f') →
  accounts f (MkHistory [] vs [] [] hs) f' ∧ fifo_wf f'.
Proof.
  induction n as [|n IH]; intros f vs hs f' Hwf E; cbn in E.
  { simplify_eq. split; [by apply accounts_refl|done]. }
  destruct (fifo_pop f) as [[[v h] f1]|] eqn:Ep.
  2: { simplify_eq. split; [by apply accounts_refl|done]. }
  destruct (fifo_pop_many n f1) as [[vs1 hs1] f2] eqn:E1. simplify_eq.
  pose proof (fifo_pop_closed _ _ _ _ Ep) as Hcl1.
  destruct (IH f1 vs1 hs1 f') as (Hac & Hwf'); eauto using fifo_pop_wf.
  split; [|done]. pose proof (fifo_pop_accounts _ _ _ _ Hwf Ep) as [Av Ac Ao Ah].
  destruct Hac as [Bv Bc Bo Bh]. cbn in *. rewrite app_nil_r in *.
  split; cbn; rewrite ?app_nil_r in *.
  - by rewrite Av, Bv.
  - intros Hc. rewrite Hcl1 in Bc. by apply Bc.
  - done.
  - rewrite Ah. unfold handle_list. destruct (is_null h); cbn; by rewrite Bh.
Qed.

Lemma fifo_close_accounts f : f_closed f = false →
  accounts f (MkHistory [] [] (snd <$> f_senders f) [] (waiting f)) (fifo_close f).
Proof.
  intros Hcl. split; unfold pending, waiting; cbn; rewrite ?Hcl, ?app_nil_r; done.
Qed.
End accounting.

(** ** Every enabled operation is simulated and accounted for *)

Section simulation.
Context {T : Type} (moved_from : T → T) (kStats : bool).
Implicit Types (w : chan_world T) (f : fifo T) (v : T).

Definition simulated (op : chan_op T) w f : Prop :=
  wp (exec moved_from kStats op) w
    (λ o w', ∃ f', repr w' f' ∧ fifo_wf f' ∧ accounts f o f') (λ _ _, False).

(** From a refinement to a simulation: what the specification returns decides
    the observation. *)
Lemma refined_wp {X} (m : M (chan_world T) X) (s : M (fifo T) X) w f
    (Q : X → chan_world T → Prop) E :
  refines_at m s w f →
  (∀ x f' w', s f = Ok x f' → repr w' f' → Q x w') →
  (∀ e f' w', s f = Throw e f' → repr w' f' → E e w') →
  wp m w Q E.
Proof.
  intros Hm Hk He. eapply wp_mono; [exact Hm| |].
  - intros x w' (f' & Hs & Hr). by eapply Hk.
  - intros e w' (f' & Hs & Hr). by eapply He.
Qed.

Ltac unchanged f := exists f; split_and!; [done|done|by apply accounts_refl].

Lemma sender_ptr_parked w f p : repr w f →
  p ∉ (snd <$> sender_queue_ (chan w)) →
  p ∉ ((λ x : handle * ptr * T, x.1.2) <$> f_senders f).
Proof.
  intros Hr. rewrite (re_senders _ _ Hr), <- list_fmap_compose. done.
Qed.

Lemma live_sender_free w f p : fifo_wf f → repr w f → senders w !! p = None →
  p ∉ ((λ x : handle * ptr * T, x.1.2) <$> f_senders f).
Proof.
  intros Hwf Hr Hp ([[h q] v] & Hq & Hin)%list_elem_of_fmap. cbn in Hq. subst.
  pose proof (re_values _ _ Hr) as Hv. unfold holds_values in Hv.
  rewrite Forall_forall in Hv. specialize (Hv _ Hin).
  unfold sender_value in Hv. cbn in Hv. by rewrite Hp in Hv.
Qed.

Lemma sim_send p v w f : repr w f → fifo_wf f → op_enabled w (OpSend p v) →
  simulated (OpSend p v) w f.
Proof.
  intros Hr Hwf Hp. cbn in Hp. unfold simulated. cbn [exec]. unfold ignore_throw.
  pose proof (live_sender_free w f p Hwf Hr Hp) as Hni.
  wp_steps. eapply refined_wp; [by apply refines_send| |].
  - intros [] f' w' Hs Hr'. wp_steps. unfold spec_send in Hs.
    destruct (f_closed f) eqn:Ecl; simplify_eq. eexists. split_and!; [done| |].
    + by apply fifo_set_flag_wf.
    + by apply accounts_refl.
  - intros e f' w' Hs Hr'. wp_steps. unfold spec_send in Hs.
    destruct (f_closed f); simplify_eq. unchanged f'.
Qed.

Lemma sim_send_suspend p h w f : repr w f → fifo_wf f →
  op_enabled w (OpSendSuspend p h) → simulated (OpSendSuspend p h) w f.
Proof.
  intros Hr Hwf ((v & Hp) & Hni & Hh). apply (sender_ptr_parked w f p Hr) in Hni.
  unfold simulated. cbn [exec]. wp_steps.
  eapply refined_wp; [by eapply refines_send_suspend| |].
  2: { intros e f' w' Hs. unfold spec_send_suspend in Hs. repeat case_match; done. }
  intros [suspend wake] f' w' Hs Hr'. cbn [sa_value_]. rewrite (re_closed _ _ Hr).
  unfold spec_send_suspend in Hs. destruct (f_closed f) eqn:Ecl; wp_steps.
  { simplify_eq. eexists. split_and!; [done|by apply fifo_set_flag_wf|].
    by apply accounts_refl. }
  unfold sent_value. rewrite (re_receivers _ _ Hr).
  destruct (fifo_push v f) as [[wake' f1]|] eqn:Ep; simplify_eq.
  - eexists. split_and!; [done|by eapply fifo_push_wf|by apply fifo_push_accounts].
  - destruct (fifo_push_none _ _ Ep) as [Er Ef]. rewrite Er. cbn.
    eexists. split_and!; [done| |].
    + apply fifo_park_sender_wf; try done.
      by rewrite <- (re_flag _ _ Hr), lookup_fmap, Hp.
    + split; unfold pending, waiting; cbn; rewrite ?Ecl, ?Er, ?fmap_app, ?app_nil_r,
        <- ?app_assoc; done.
Qed.

Lemma sim_try_send v w f : repr w f → fifo_wf f → simulated (OpTrySend v) w f.
Proof.
  intros Hr Hwf. unfold simulated. cbn [exec]. unfold ignore_throw.
  wp_steps. eapply refined_wp; [by apply refines_try_send| |].
  - intros [ok wake] f' w' Hs Hr'. unfold spec_try_send in Hs. wp_steps.
    destruct (f_closed f) eqn:Ecl; [done|]. unfold sent_value.
    rewrite (re_receivers _ _ Hr).
    destruct (fifo_push v f) as [[wake' f1]|] eqn:Ep; simplify_eq.
    + eexists. split_and!; [done|by eapply fifo_push_wf|by apply fifo_push_accounts].
    + unchanged f'.
  - intros e f' w' Hs Hr'. wp_steps. unfold spec_try_send in Hs.
    repeat case_match; simplify_eq. unchanged f'.
Qed.

Lemma sim_try_send_many vs w f : repr w f → fifo_wf f →
  op_enabled w (OpTrySendMany vs) → simulated (OpTrySendMany vs) w f.
Proof.
  intros Hr Hwf Hlen. cbn in Hlen. unfold simulated. cbn [exec]. unfold ignore_throw.
  wp_steps. eapply refined_wp; [by apply refines_try_send_many| |].
  - intros [n hs] f' w' Hs Hr'. unfold spec_try_send_many in Hs. wp_steps.
    destruct (f_closed f) eqn:Ecl; [done|].
    destruct (fifo_push_many vs f) as [[n0 hs0] f0] eqn:Ep. simplify_eq.
    destruct (fifo_push_many_accounts _ _ _ _ _ Hwf Ecl Ep) as (Hac & Hwf' & Hle).
    rewrite (re_receivers _ _ Hr), u64_small, Nat2Z.id by lia. eauto.
  - intros e f' w' Hs Hr'. wp_steps. unfold spec_try_send_many in Hs.
    repeat case_match; simplify_eq. unchanged f'.
Qed.

Lemma sim_try_receive w f : repr w f → fifo_wf f → simulated OpTryReceive w f.
Proof.
  intros Hr Hwf. unfold simulated. cbn [exec]. unfold ignore_throw.
  wp_steps. eapply refined_wp; [by apply refines_try_receive| |].
  - intros [o wake] f' w' Hs Hr'. unfold spec_try_receive in Hs. wp_steps.
    destruct (fifo_pop f) as [[[v wake'] f1]|] eqn:Ep.
    + simplify_eq. eexists. split_and!; [done|by eapply fifo_pop_wf|].
      by apply fifo_pop_accounts.
    + destruct (f_closed f); simplify_eq. unchanged f'.
  - intros e f' w' Hs Hr'. wp_steps. unfold spec_try_receive in Hs.
    repeat case_match; simplify_eq. unchanged f'.
Qed.

Lemma sim_try_receive_many n w f : repr w f → fifo_wf f →
  simulated (OpTryReceiveMany n) w f.
Proof.
  intros Hr Hwf. unfold simulated. cbn [exec]. wp_steps.
  eapply refined_wp; [by apply refines_try_receive_many| |].
  2: { intros e f' w' Hs. unfold spec_try_receive_many in Hs. repeat case_match; done. }
  intros [[vs hs] b] f' w' Hs Hr'. unfold spec_try_receive_many in Hs. wp_steps.
  destruct (fifo_pop_many (Z.to_nat n) f) as [[vs0 hs0] f0] eqn:Ep. simplify_eq.
  destruct (fifo_pop_many_accounts _ _ _ _ _ Hwf Ep) as [Hac Hwf']. eauto.
Qed.

Lemma free_receiver w f p : repr w f → fifo_wf f → receivers w !! p = None →
  p ∉ (snd <$> f_receivers f).
Proof.
  intros Hr Hwf Hp ([h q] & Hq & Hin)%list_elem_of_fmap. cbn in Hq. subst.
  pose proof (wf_mail f Hwf) as Hm. rewrite Forall_forall in Hm.
  specialize (Hm _ Hin). cbn in Hm.
  by rewrite <- (re_mail _ _ Hr), lookup_fmap, Hp in Hm.
Qed.

Lemma sim_receive p w f : repr w f → fifo_wf f → op_enabled w (OpReceive p) →
  simulated (OpReceive p) w f.
Proof.
  intros Hr Hwf Hp. cbn in Hp. unfold simulated. cbn [exec]. wp_steps.
  eapply refined_wp; [by apply refines_receive| |done].
  intros [] f' w' Hs Hr'. unfold spec_receive in Hs. simplify_eq. wp_steps.
  eexists. split_and!; [done| |by apply accounts_refl].
  apply fifo_set_mail_wf; [done|]. by eapply free_receiver.
Qed.

Lemma mail_after w f p : repr w f →
  match receivers w !! p with Some (MkReceiver (Some v)) => [v] | _ => [] end =
  match f_mail f !! p with Some (Some v) => [v] | _ => [] end.
Proof.
  intros Hr. rewrite <- (re_mail _ _ Hr), lookup_fmap.
  destruct (receivers w !! p) as [[[]]|]; done.
Qed.

Lemma sim_receive_suspend p h w f : repr w f → fifo_wf f →
  op_enabled w (OpReceiveSuspend p h) → simulated (OpReceiveSuspend p h) w f.
Proof.
  intros Hr Hwf (Hp & Hni & Hh). rewrite (re_receivers _ _ Hr) in Hni.
  assert (Hmail : f_mail f !! p = Some None)
    by (by rewrite <- (re_mail _ _ Hr), lookup_fmap, Hp).
  unfold simulated. cbn [exec]. wp_steps.
  eapply refined_wp; [apply refines_receive_suspend; eauto| |].
  2: { intros e f' w' Hs. unfold spec_receive_suspend in Hs. repeat case_match; done. }
  intros [suspend wake] f' w' Hs Hr'. wp_steps. rewrite (mail_after _ _ _ Hr').
  unfold spec_receive_suspend in Hs.
  destruct (fifo_pop f) as [[[v wake'] f1]|] eqn:Ep.
  - simplify_eq. cbn [fifo_set_mail f_mail]. rewrite lookup_insert_eq.
    pose proof (fifo_pop_accounts _ _ _ _ Hwf Ep) as [Av Ac Ao Ah].
    eexists. split_and!; [done| |by split].
    apply fifo_set_mail_wf; [by eapply fifo_pop_wf|].
    assert (f_receivers f1 = f_receivers f) as ->; [|done].
    unfold fifo_pop in Ep. repeat case_match; simplify_eq; done.
  - destruct (f_closed f) eqn:Ecl; simplify_eq; cbn [fifo_set_mail fifo_park_receiver f_mail].
    + rewrite lookup_insert_eq. eexists.
      split_and!; [done|by apply fifo_set_mail_wf|by apply accounts_refl].
    + rewrite Hmail. eexists. split_and!; [done|by apply fifo_park_receiver_wf|].
      split; unfold pending, waiting; cbn; rewrite ?Ecl, ?fmap_app, ?app_nil_r, ?app_assoc;
        done.
Qed.

Lemma queued_values_repr w f : repr w f →
  queued_values w = snd <$> f_senders f.
Proof.
  intros Hr. unfold queued_values. rewrite (re_senders _ _ Hr).
  pose proof (re_values _ _ Hr) as Hv. clear Hr. unfold holds_values in Hv.
  induction Hv as [|x ss Hx Hv IH]; [done|]. cbn. rewrite Hx. cbn. by rewrite IH.
Qed.

Lemma sim_close w f : repr w f → fifo_wf f → simulated OpClose w f.
Proof.
  intros Hr Hwf. unfold simulated. cbn [exec]. unfold ignore_throw.
  wp_steps. eapply refined_wp; [by apply refines_close| |].
  - intros [hs hr] f' w' Hs Hr'. wp_steps. unfold spec_close in Hs.
    destruct (f_closed f) eqn:Ecl; simplify_eq.
    eexists. split_and!; [done|by apply fifo_close_wf|].
    rewrite (queued_values_repr w f Hr).
    replace ((λ '(h, _, _), h) <$> f_senders f)
      with ((λ x : handle * ptr * T, x.1.1) <$> f_senders f)
      by (apply list_fmap_ext; by intros ? [[]] ?).
    by apply fifo_close_accounts.
  - intros e f' w' Hs Hr'. wp_steps. unfold spec_close in Hs.
    repeat case_match; simplify_eq. unchanged f'.
Qed.

(** An awaiter no one is parked on is gone. *)
Definition fifo_drop_flag (p : ptr) f : fifo T :=
  MkFifo (f_cap f) (f_items f) (f_senders f) (f_receivers f) (f_closed f)
    (f_mail f) (delete p (f_flag f)).
Definition fifo_drop_mail (p : ptr) f : fifo T :=
  MkFifo (f_cap f) (f_items f) (f_senders f) (f_receivers f) (f_closed f)
    (delete p (f_mail f)) (f_flag f).

Lemma drop_flag_ok p w f : repr w f → fifo_wf f →
  p ∉ ((λ x : handle * ptr * T, x.1.2) <$> f_senders f) →
  repr (set_senders (delete p (senders w)) w) (fifo_drop_flag p f) ∧ fifo_wf (fifo_drop_flag p f).
Proof.
  intros [Hring Hcap Hcl Hrq Hsq Hv Hm Hf] [Wc Wr Ws Wsh Wrh Wsp Wrp Wm Wf] Hni.
  split; [split; cbn; try done|split; cbn; try done].
  - unfold holds_values in *. rewrite Forall_forall in Hv |- *. intros x Hx.
    unfold sender_value. rewrite lookup_delete_ne; [by apply Hv|].
    intros ->. apply Hni, list_elem_of_fmap. eauto.
  - by rewrite fmap_delete, Hf.
  - rewrite Forall_forall in Wf |- *. intros x Hx.
    rewrite lookup_delete_ne; [by apply Wf|].
    intros ->. apply Hni, list_elem_of_fmap. eauto.
Qed.

Lemma drop_mail_ok p w f : repr w f → fifo_wf f → p ∉ (snd <$> f_receivers f) →
  repr (set_receivers (delete p (receivers w)) w) (fifo_drop_mail p f) ∧ fifo_wf (fifo_drop_mail p f).
Proof.
  intros [Hring Hcap Hcl Hrq Hsq Hv Hm Hf] [Wc Wr Ws Wsh Wrh Wsp Wrp Wm Wf] Hni.
  split; [split; cbn; try done|split; cbn; try done].
  - by rewrite fmap_delete, Hm.
  - rewrite Forall_forall in Wm |- *. intros x Hx.
    rewrite lookup_delete_ne; [by apply Wm|].
    intros ->. apply Hni, list_elem_of_fmap. eauto.
Qed.

Lemma sim_send_resume p w f : repr w f → fifo_wf f →
  op_enabled w (OpSendResume p) → simulated (OpSendResume p) w f.
Proof.
  intros Hr Hwf ([a Ha] & _). unfold simulated. cbn [exec]. unfold ignore_throw.
  wp_steps. unfold wp. rewrite (SenderAwaiter_resume_spec p w f a Hr Ha).
  case_decide; unchanged f.
Qed.

Lemma sim_receive_resume p w f : repr w f → fifo_wf f →
  op_enabled w (OpReceiveResume p) → simulated (OpReceiveResume p) w f.
Proof.
  intros Hr Hwf ([[o] Ha] & Hni). rewrite (re_receivers _ _ Hr) in Hni.
  unfold simulated. cbn [exec]. unfold ignore_throw. wp_steps.
  eapply wp_mono; [apply (ReceiverAwaiter_resume_spec moved_from p w f o Hr)| |].
  - by rewrite <- (re_mail _ _ Hr), lookup_fmap, Ha.
  - intros v w' [_ Hr']. wp_steps. eexists.
    split_and!; [done|by apply fifo_set_mail_wf|by apply accounts_refl].
  - intros e w' (_ & _ & ->). wp_steps. unchanged f.
Qed.

(** Destroying an awaiter no one is parked on. *)
Lemma sim_send_destroy p w f : repr w f → fifo_wf f →
  op_enabled w (OpSendDestroy p) → simulated (OpSendDestroy p) w f.
Proof.
  intros Hr Hwf Hni. apply (sender_ptr_parked w f p Hr) in Hni.
  unfold simulated. cbn [exec]. wp_steps. exists (fifo_drop_flag p f).
  destruct (drop_flag_ok p w f Hr Hwf Hni). split_and!; [done..|by apply accounts_refl].
Qed.

Lemma sim_receive_destroy p w f : repr w f → fifo_wf f →
  op_enabled w (OpReceiveDestroy p) → simulated (OpReceiveDestroy p) w f.
Proof.
  intros Hr Hwf Hni. cbn in Hni. rewrite (re_receivers _ _ Hr) in Hni.
  unfold simulated. cbn [exec]. wp_steps. exists (fifo_drop_mail p f).
  destruct (drop_mail_ok p w f Hr Hwf Hni). split_and!; [done..|by apply accounts_refl].
Qed.

(** The statistics are no part of the contract. *)
Definition same_but_stats (c c' : Channel T) : Prop := ∃ st, c' = set_stats st c.

Lemma stats_reset_same k c c' :
  same_but_stats c c' → same_but_stats c (stats_reset kStats k c').
Proof.
  intros [st ->]. unfold stats_reset, same_but_stats.
  destruct kStats; [by eexists|by exists st].
Qed.

Lemma reset_stats_same c : same_but_stats c (reset_stats kStats c).
Proof.
  unfold reset_stats. repeat apply stats_reset_same. exists (stats_ c). by destruct c.
Qed.

Lemma repr_same_but_stats c' w f :
  same_but_stats (chan w) c' → repr w f → repr (set_chan c' w) f.
Proof. intros [st ->] []. solve_repr. Qed.

Lemma sim_reset_stats w f : repr w f → fifo_wf f → simulated OpResetStats w f.
Proof.
  intros Hr Hwf. unfold simulated. cbn [exec]. wp_steps. exists f.
  split_and!; [|done|by apply accounts_refl].
  apply repr_same_but_stats; [apply reset_stats_same|done].
Qed.

Lemma simulation op w f : repr w f → fifo_wf f → op_enabled w op → simulated op w f.
Proof.
  intros Hr Hwf Hop. destruct op; eauto using sim_send, sim_send_suspend,
    sim_send_resume, sim_send_destroy, sim_try_send, sim_try_send_many, sim_receive,
    sim_receive_suspend, sim_receive_resume, sim_receive_destroy, sim_try_receive,
    sim_try_receive_many, sim_close, sim_reset_stats.
Qed.

(** ** The invariant of every execution *)

Record history_ok (hist : history T) f : Prop := {
  ho_values : sent hist = got hist ++ pending f ++ dropped hist;
  ho_open : f_closed f = false → dropped hist = [];
  ho_handles : parked hist ≡ₚ woken hist ++ waiting f;
}.

Lemma history_ok_step hist f o f' :
  history_ok hist f → accounts f o f' → history_ok (history_app hist o) f'.
Proof.
  intros [Hv Ho Hh] [Av Ac Ao Ah]. split; cbn.
  - rewrite Hv, <- !app_assoc. f_equal. destruct (f_closed f) eqn:Ecl.
    + destruct Ac as (Es & Ed & _); [done|]. rewrite Es, Ed, !app_nil_r in *.
      rewrite Av. by rewrite app_assoc.
    + rewrite Ho, app_nil_l by done. cbn. by rewrite Av.
  - intros Hcl. rewrite Ao by done. destruct (f_closed f) eqn:Ecl.
    + destruct Ac as (_ & _ & E); [done|]. by rewrite E in Hcl.
    + by rewrite Ho.
  - rewrite Hh, <- !app_assoc. f_equiv. by rewrite Ah.
Qed.

Definition run_inv (s : chan_world T * history T) : Prop :=
  ∃ f, repr s.1 f ∧ fifo_wf f ∧ history_ok s.2 f.

Definition fifo_new (c : Channel T) : fifo T := MkFifo (capacity_ c) [] [] [] false ∅ ∅.

Lemma new_repr c : chan_new c → repr (MkWorld c ∅ ∅) (fifo_new c) ∧ fifo_wf (fifo_new c).
Proof.
  intros Hc.
  assert (Hring : ring_repr c [] ∧ close_ c = false ∧ sender_queue_ c = [] ∧
                  receiver_queue_ c = []).
  { destruct Hc as [->|(cap & Hcap & Hmake)]; [split_and!; [apply ring_repr_default|done..]|].
    unfold Channel_make in Hmake. destruct (cap =? 0)%Z; simplify_eq.
    split_and!; [by apply ring_repr_new|done..]. }
  destruct Hring as (Hring & Hcl & Hsq & Hrq). split.
  - split; cbn; rewrite ?fmap_empty; try done. constructor.
  - split; cbn; try done; try constructor. apply (rr_cap _ _ Hring).
Qed.

Lemma run_inv_init c : chan_new c → run_inv (MkWorld c ∅ ∅, no_history).
Proof. intros Hc. destruct (new_repr c Hc). exists (fifo_new c). by split_and!. Qed.

Lemma run_inv_step s s' : run_inv s → chan_step moved_from kStats s s' → run_inv s'.
Proof.
  intros (f & Hr & Hwf & Hh) Hstep. destruct Hstep as [op w w' hist o Hop Hexec].
  pose proof (simulation op w f Hr Hwf Hop) as Hsim. unfold simulated, wp in Hsim.
  rewrite Hexec in Hsim. destruct Hsim as (f' & Hr' & Hwf' & Hac).
  exists f'. eauto using history_ok_step.
Qed.

Lemma reachable_inv s : chan_reachable moved_from kStats s → run_inv s.
Proof.
  intros (c & Hc & Hrun). apply run_inv_init in Hc.
  remember (MkWorld c ∅ ∅, no_history) as s0 eqn:E. clear E.
  induction Hrun as [|s1 s2 s3 Hstep _ IH]; [done|].
  apply IH. by eapply run_inv_step.
Qed.
End simulation.

(** ** Executable runs *)

Section run_ops.
Context {T : Type} (moved_from : T → T) (kStats : bool).

Definition op_enabledb (w : chan_world T) (op : chan_op T) : bool :=
  let free_sender p := bool_decide (p ∉ (snd <$> sender_queue_ (chan w))) in
  let free_receiver p := bool_decide (p ∉ (snd <$> receiver_queue_ (chan w))) in
  match op with
  | OpSend p _ => match senders w !! p with None => true | _ => false end
  | OpSendSuspend p h =>
      match senders w !! p with Some (MkSender _ false) => true | _ => false end &&
      free_sender p && negb (is_null h)
  | OpSendResume p => bool_decide (is_Some (senders w !! p)) && free_sender p
  | OpSendDestroy p => free_sender p
  | OpTrySendMany vs => (Z.of_nat (length vs) <? 2 ^ 64)%Z
  | OpReceive p => match receivers w !! p with None => true | _ => false end
  | OpReceiveSuspend p h =>
      match receivers w !! p with Some (MkReceiver None) => true | _ => false end &&
      free_receiver p && negb (is_null h)
  | OpReceiveResume p => bool_decide (is_Some (receivers w !! p)) && free_receiver p
  | OpReceiveDestroy p => free_receiver p
  | _ => true
  end.

Lemma op_enabledb_sound w op : op_enabledb w op = true → op_enabled w op.
Proof.
  destruct op; cbn; try done; rewrite ?andb_true_iff, ?bool_decide_eq_true, ?negb_true_iff;
    unfold is_null; rewrite ?N.eqb_neq, ?Z.ltb_lt; try done.
  - by destruct (senders w !! p).
  - intros [[H1 H2] H3]. destruct (senders w !! p) as [[v []]|]; try done.
    split_and!; try done. by exists v.
  - by destruct (receivers w !! p).
  - intros [[H1 H2] H3]. by destruct (receivers w !! p) as [[[]]|].
Qed.

(** Run a list of operations, stopping at one that is not enabled. *)
Fixpoint run_ops (ops : list (chan_op T)) (s : chan_world T * history T)
    : option (chan_world T * history T) :=
  match ops with
  | [] => Some s
  | op :: ops' =>
      if op_enabledb s.1 op then
        match exec moved_from kStats op s.1 with
        | Ok o w' => run_ops ops' (w', history_app s.2 o)
        | _ => None
        end
      else None
  end.

Lemma run_ops_steps ops : ∀ s s', run_ops ops s = Some s' →
  rtc (chan_step moved_from kStats) s s'.
Proof.
  induction ops as [|op ops IH]; intros [w hist] s' E; cbn in E; [by simplify_eq|].
  destruct (op_enabledb w op) eqn:Een; [|done].
  destruct (exec moved_from kStats op w) as [o w1| | | |] eqn:Eex; try done.
  eapply rtc_l; [|by apply IH].
  econstructor; [by apply op_enabledb_sound|done].
Qed.

Lemma run_ops_reachable c ops s : chan_new c →
  run_ops ops (MkWorld c ∅ ∅, no_history) = Some s →
  chan_reachable moved_from kStats s.
Proof. intros Hc E. exists c. split; [done|]. by eapply run_ops_steps. Qed.
End run_ops.
