(* ===== verification/ChannelProps.v ===== *)
(** * Properties of Channel<T>

    The theorems about the channel that the rest of the development and its
    users rely on, with a concrete run in which their hypotheses hold. *)

From S2P Require Import Prelude Runtime Channel ChannelSpec ChannelRing ChannelRefine ChannelRun.

(** ** A concrete run: a channel of capacity 2 over integers

    Two values are buffered, two senders (awaiters 11 and 12, coroutines 101
    and 102) are parked, one value is received, then two more senders park. *)

Definition demo_channel : Channel Z :=
  MkChannel [None; None] 0 0 2 0 false [] [] stats_init.
Definition demo_ops : list (chan_op Z) :=
  [OpTrySend 1%Z; OpTrySend 2%Z; OpSend 11%N 3%Z; OpSendSuspend 11%N 101%N;
   OpSend 12%N 4%Z; OpSendSuspend 12%N 102%N; OpTryReceive;
   OpSend 13%N 5%Z; OpSendSuspend 13%N 103%N].
Definition demo_world0 : chan_world Z :=
  MkWorld
    (MkChannel [Some 3; Some 2]%Z 1 1 2 2 false [(102, 12); (103, 13)]%N []
       (MkStats 3 1 0 3 0 0 0 0 0 0 0))
    {[11%N := MkSender 3%Z false; 12%N := MkSender 4%Z false; 13%N := MkSender 5%Z false]}
    ∅.
Definition demo_state : chan_world Z * history Z :=
  (demo_world0, MkHistory [1; 2; 3; 4; 5]%Z [1]%Z [] [101; 102; 103]%N [101]%N).

Lemma demo_new : chan_new demo_channel.
Proof. right. exists 2%Z. split; [lia|reflexivity]. Qed.

Lemma demo_reachable : chan_reachable id true demo_state.
Proof. eapply (run_ops_reachable _ _ _ demo_ops); [apply demo_new|vm_compute; reflexivity]. Qed.

(** A run that leaves two receivers (awaiters 21 and 22) parked. *)
Definition demo_receive_ops : list (chan_op Z) :=
  [OpReceive 21%N; OpReceiveSuspend 21%N 201%N; OpReceive 22%N;
   OpReceiveSuspend 22%N 202%N].
Definition demo_receivers : chan_world Z * history Z :=
  (MkWorld
    (MkChannel [None; None] 0 0 2 0 false [] [(201, 21); (202, 22)]%N
       (MkStats 0 0 0 0 2 0 0 0 0 0 0))
    ∅ {[21%N := MkReceiver None; 22%N := MkReceiver None]},
   MkHistory [] [] [] [201; 202]%N []).

Lemma demo_receivers_reachable : chan_reachable id true demo_receivers.
Proof. eapply (run_ops_reachable _ _ _ demo_receive_ops); [apply demo_new|vm_compute; reflexivity]. Qed.

(** The state it reaches, with one more receiver awaiter (21) constructed, and
    the abstract state that represents. *)
Definition demo_world : chan_world Z :=
  set_receivers {[21%N := MkReceiver None]} demo_world0.
Definition demo_fifo : fifo Z :=
  MkFifo 2 [2; 3]%Z [(102, 12, 4%Z); (103, 13, 5%Z)]%N [] false
    {[21%N := None]} {[11%N := false; 12%N := false; 13%N := false]}.

Lemma demo_repr : repr demo_world demo_fifo.
Proof.
  split; try reflexivity.
  - split; cbn; try lia; try reflexivity.
    intros i Hi. assert (i = 0 ∨ i = 1) as [-> | ->] by lia; reflexivity.
  - repeat constructor.
Qed.

Lemma demo_wf : fifo_wf demo_fifo.
Proof.
  split; cbn; try done; try (repeat constructor; done).
  apply NoDup_cons. split; [by intros ?%list_elem_of_singleton|apply NoDup_singleton].
Qed.

Section props.
Context {T : Type} (moved_from : T → T) (kStats : bool).
Implicit Types (w : chan_world T) (f : fifo T) (v : T).

(** ** Refinement *)

(** C2. Every critical section of [Channel<T>], run on a channel that
    represents an abstract FIFO state, returns or throws exactly what the
    abstract operation does, with no undefined behaviour, and leaves a
    channel that represents the abstract result. *)
Theorem channel_refines_fifo w f : repr w f → fifo_wf f →
  (∀ p v, senders w !! p = None →
    refines_at (send kStats p v) (spec_send p) w f) ∧
  (∀ p h v b, senders w !! p = Some (MkSender v b) →
    p ∉ (snd <$> sender_queue_ (chan w)) →
    refines_at (SenderAwaiter_await_suspend_locked moved_from kStats p h)
      (spec_send_suspend p h v) w f) ∧
  (∀ p, refines_at (receive p) (spec_receive p) w f) ∧
  (∀ p h, is_Some (receivers w !! p) →
    refines_at (ReceiverAwaiter_await_suspend_locked moved_from kStats p h)
      (spec_receive_suspend p h) w f) ∧
  (∀ v, refines_at (try_send_locked kStats v) (spec_try_send v) w f) ∧
  (∀ vs, refines_at (try_send_many_locked kStats vs) (spec_try_send_many vs) w f) ∧
  refines_at (try_receive_locked moved_from kStats) spec_try_receive w f ∧
  (∀ n, refines_at (try_receive_many_locked moved_from kStats n)
    (spec_try_receive_many (Z.to_nat n)) w f) ∧
  refines_at (close_locked kStats) spec_close w f.
Proof.
  intros Hr Hwf. split_and!; intros;
    eauto using refines_receive, refines_try_send, refines_try_send_many,
      refines_try_receive, refines_try_receive_many, refines_close, refines_receive_suspend.
  - apply refines_send; [done|]. by eapply live_sender_free.
  - eapply refines_send_suspend; eauto using sender_ptr_parked.
Qed.

(** In every reachable state the ring buffer is well formed (the count is
    within the capacity and the tail follows the header by the count), no
    receiver is parked while a value, a sender or the end of the channel could
    serve it, and no sender is parked while there is room. *)
Theorem channel_reachable_wf w hist : chan_reachable moved_from kStats (w, hist) →
  let c := chan w in
  (0 ≤ count_ c ≤ capacity_ c)%Z ∧
  length (buffer_ c) = Z.to_nat (capacity_ c) ∧
  tail_ c = ((header_ c + count_ c) `mod` capacity_ c)%Z ∧
  (receiver_queue_ c ≠ [] →
    count_ c = 0%Z ∧ sender_queue_ c = [] ∧ close_ c = false) ∧
  (sender_queue_ c ≠ [] → count_ c = capacity_ c ∧ close_ c = false) ∧
  NoDup (snd <$> sender_queue_ c) ∧ NoDup (snd <$> receiver_queue_ c).
Proof.
  intros (f & Hr & Hwf & _)%reachable_inv. cbn in *.
  destruct Hr as [[Rc Rb Rh Rt Rn Rl _] Hc Hcl Hrq Hsq _ _ _].
  destruct Hwf as [_ Wr Ws _ _ Wsp Wrp _ _].
  rewrite Rn, Hrq, Hsq, Hcl, Hc in *. split_and!; try done; try lia.
  - intros Hne. destruct (Wr Hne) as (-> & -> & ->). done.
  - intros Hne. apply Ws. intros E. by rewrite E in Hne.
  - by rewrite <- list_fmap_compose.
Qed.

(** ** Safety and order *)

(** C15. In every reachable state, every operation the language allows runs to
    a normal return or a caught exception: no dangling awaiter, no empty
    [optional], no index outside the buffer, no modulus by a zero capacity
    (also for the default-constructed channel of capacity 0). *)
Theorem channel_no_undefined_behaviour w hist op :
  chan_reachable moved_from kStats (w, hist) → op_enabled w op →
  ∃ o w', exec moved_from kStats op w = Ok o w' ∧
    chan_reachable moved_from kStats (w', history_app hist o).
Proof.
  intros Hreach Hop. pose proof (reachable_inv _ _ _ Hreach) as (f & Hr & Hwf & _).
  destruct (wp_ok _ _ _ (simulation moved_from kStats op w f Hr Hwf Hop))
    as (o & w' & Hex & _).
  exists o, w'. split; [done|]. destruct Hreach as (c & Hc & Hrun).
  exists c. split; [done|]. eapply rtc_r; [done|]. by econstructor.
Qed.

(** The values in the buffer, from [header_] on. *)
Definition buffered (c : Channel T) : list T :=
  omap (λ i : nat, mjoin (buffer_ c !! ring_slot c i)) (seq 0 (Z.to_nat (count_ c))).

Lemma buffered_repr c items : ring_repr c items → buffered c = items.
Proof.
  intros [_ _ _ _ Hn Hle Hs]. unfold buffered. rewrite Hn, Nat2Z.id.
  assert (∀ l1 l2, items = l1 ++ l2 →
    omap (λ i : nat, mjoin (buffer_ c !! ring_slot c i)) (seq (length l1) (length l2)) = l2)
    as H; [|by apply (H [] items)].
  intros l1 l2. revert l1. induction l2 as [|x l2 IH]; intros l1 E; [done|].
  cbn [length seq omap list_omap]. rewrite Hs by (subst; rewrite length_app in *; cbn in *; lia).
  rewrite E at 1. rewrite list_lookup_middle by done. cbn. f_equal.
  specialize (IH (l1 ++ [x])). rewrite length_app in IH. cbn in IH.
  rewrite Nat.add_1_r in IH. apply IH. by rewrite <- app_assoc.
Qed.


(** C16. No coroutine is lost and none is resumed twice: in every reachable
    state the coroutines ever parked on the channel are, as a multiset, those
    already handed to the runtime and those still in one of the two queues. *)
Theorem channel_handles_conserved w hist : chan_reachable moved_from kStats (w, hist) →
  parked hist ≡ₚ
    woken hist ++ (fst <$> sender_queue_ (chan w)) ++ (fst <$> receiver_queue_ (chan w)).
Proof.
  intros (f & Hr & _ & [_ _ Hh])%reachable_inv. cbn in *.
  rewrite Hh. unfold waiting. rewrite (re_senders _ _ Hr), (re_receivers _ _ Hr).
  by rewrite <- list_fmap_compose.
Qed.

(** ** Batches *)

(** [try_send] of one value after the other until one is refused. *)
Fixpoint try_send_each (vs : list T) : M (chan_world T) (Z * list handle) :=
  match vs with
  | [] => ret (0%Z, [])
  | v :: vs' =>
      let! (accepted, wake) := try_send_locked kStats v in
      if accepted : bool then
        let! (n, wakes) := try_send_each vs' in
        ret (u64 (1 + n), handle_list wake ++ wakes)
      else ret (0%Z, [])
  end.

(** [try_receive] until nothing is left, at most [n] times. *)
Fixpoint try_receive_each (n : nat) : M (chan_world T) (list T * list handle) :=
  match n with
  | O => ret ([], [])
  | S n' => try_catch (
      let! (value, wake) := try_receive_locked moved_from kStats in
      match value with
      | Some v =>
          let! (vs, wakes) := try_receive_each n' in
          ret (v :: vs, handle_list wake ++ wakes)
      | None => ret ([], [])
      end) (λ _, ret ([], []))
  end.

Lemma handle_list_app h (hs : list handle) :
  handle_list h ++ hs = if is_null h then hs else h :: hs.
Proof. unfold handle_list. by destruct (is_null h). Qed.

Lemma wp_try_send_each vs : ∀ w f E, repr w f → fifo_wf f → f_closed f = false →
  wp (try_send_each vs) w (λ r w', let '(n, hs, f') := fifo_push_many vs f in
    r = (u64 (Z.of_nat n), hs) ∧ repr w' f') E.
Proof.
  induction vs as [|v vs IH]; intros w f E Hr Hwf Hcl;
    cbn [try_send_each fifo_push_many]; [by apply wp_ret|].
  wp_steps. eapply refined_wp; [by apply refines_try_send| |].
  - intros [ok wake] f1 w1 Hs Hr1. unfold spec_try_send in Hs. rewrite Hcl in Hs.
    destruct (fifo_push v f) as [[h f2]|] eqn:Ep; simplify_eq; [|by wp_steps].
    wp_steps. pose proof (fifo_push_closed _ _ _ _ Ep) as Hcl1. rewrite Hcl in Hcl1.
    eapply wp_mono; [apply IH; eauto using fifo_push_wf| |intros ?? H; exact H].
    intros r w2. destruct (fifo_push_many vs f1) as [[n hs] f2]. intros [-> Hr2].
    wp_steps. rewrite handle_list_app, u64_add_r. split; [|done]. do 2 f_equal. lia.
  - intros e f1 w1 Hs _. unfold spec_try_send in Hs. rewrite Hcl in Hs.
    by destruct (fifo_push v f) as [[]|].
Qed.

Lemma wp_try_receive_each n : ∀ w f E, repr w f → fifo_wf f →
  wp (try_receive_each n) w (λ r w', let '(vs, hs, f') := fifo_pop_many n f in
    r = (vs, hs) ∧ repr w' f') E.
Proof.
  induction n as [|n IH]; intros w f E Hr Hwf;
    cbn [try_receive_each fifo_pop_many]; [by apply wp_ret|].
  wp_steps. eapply refined_wp; [by apply refines_try_receive| |].
  - intros [o wake] f1 w1 Hs Hr1. unfold spec_try_receive in Hs. wp_steps.
    destruct (fifo_pop f) as [[[v h] f2]|] eqn:Ep; simplify_eq.
    + wp_steps. eapply wp_mono; [apply IH; eauto using fifo_pop_wf| |].
      2: { intros ?? H; exact H. }
      intros r w2. destruct (fifo_pop_many n f1) as [[vs hs] f2]. intros [-> Hr2].
      wp_steps. by rewrite handle_list_app.
    + destruct (f_closed f); simplify_eq. by wp_steps.
  - intros e f1 w1 Hs Hr1. unfold spec_try_receive in Hs. wp_steps.
    destruct (fifo_pop f) as [[[v h] f2]|]; [done|].
    destruct (f_closed f); by simplify_eq.
Qed.


(** ** Closing *)

Lemma flags_set (ss : list (handle * ptr * T)) : ∀ (m : gmap ptr bool) p,
  (∃ h v, (h, p, v) ∈ ss) ∨ m !! p = Some true →
  foldl (λ m '(_, p, _), <[p := true]> m) m ss !! p = Some true.
Proof.
  induction ss as [|[[h q] v] ss IH]; intros m p Hp; cbn.
  - destruct Hp as [(h & v & Hin)|?]; [by apply not_elem_of_nil in Hin|done].
  - apply IH. destruct (decide (p = q)) as [->|Hne].
    + right. apply lookup_insert_eq.
    + rewrite lookup_insert_ne by done. destruct Hp as [(h' & v' & Hin)|?]; [|by right].
      left. apply elem_of_cons in Hin as [E|Hin]; [by simplify_eq|eauto].
Qed.

(** C29. [close] on an open channel hands every parked sender and then every
    parked receiver to the runtime, in queue order, and leaves no one parked;
    each of those senders' and receivers' [co_await] then throws "channel is
    closed"; the buffered values stay; closing again throws. *)
Theorem channel_close_wakes_all w f :
  repr w f → fifo_wf f → close_ (chan w) = false →
  ∃ w', close_locked kStats w =
      Ok (fst <$> sender_queue_ (chan w), fst <$> receiver_queue_ (chan w)) w' ∧
    close_ (chan w') = true ∧ sender_queue_ (chan w') = [] ∧
    receiver_queue_ (chan w') = [] ∧ buffered (chan w') = buffered (chan w) ∧
    (∀ h p, (h, p) ∈ sender_queue_ (chan w) →
      SenderAwaiter_await_resume p w' = Throw closed_error w') ∧
    (∀ h p, (h, p) ∈ receiver_queue_ (chan w) →
      ReceiverAwaiter_await_resume moved_from p w' = Throw closed_error w') ∧
    close_locked kStats w' = Throw (runtime_error "channel is already closed") w'.
Proof.
  intros Hr Hwf Hcl. pose proof (refines_close kStats w f Hr Hwf) as Hc.
  rewrite (re_closed _ _ Hr) in Hcl. unfold refines_at, spec_close, wp in Hc.
  rewrite Hcl in Hc.
  destruct (close_locked kStats w) as [[hs hr] w'| | | |] eqn:E; try done;
    [|by destruct Hc as (? & ? & _)].
  destruct Hc as (f' & [= <- <- <-] & Hr').
  exists w'. rewrite (re_senders _ _ Hr), (re_receivers _ _ Hr). split_and!.
  - f_equal. f_equal. rewrite <- list_fmap_compose. apply list_fmap_ext. by intros ? [[]] ?.
  - apply (re_closed _ _ Hr').
  - apply (re_senders _ _ Hr').
  - apply (re_receivers _ _ Hr').
  - rewrite (buffered_repr _ _ (re_ring _ _ Hr)). apply (buffered_repr _ _ (re_ring _ _ Hr')).
  - intros h p ([[h' p'] v] & [= -> ->] & Hin)%list_elem_of_fmap.
    assert (Hflag : f_flag (fifo_close f) !! p' = Some true) by (apply flags_set; eauto).
    pose proof Hflag as Ha. rewrite <- (re_flag _ _ Hr'), lookup_fmap in Ha.
    destruct (senders w' !! p') as [a|] eqn:Ea; [|done].
    rewrite (SenderAwaiter_resume_spec p' w' _ a Hr' Ea). by rewrite decide_True.
  - intros h p Hin. pose proof (wf_mail f Hwf) as Hm. rewrite Forall_forall in Hm.
    specialize (Hm _ Hin).
    pose proof (ReceiverAwaiter_resume_spec moved_from p w' _ None Hr' Hm) as Hres.
    unfold wp in Hres. destruct (ReceiverAwaiter_await_resume moved_from p w');
      [by destruct Hres|by destruct Hres as (_ & -> & ->)|done..].
  - unfold close_locked. cbn. by rewrite (re_closed _ _ Hr').
Qed.

(** [co_await receive()] by the coroutine [h], its awaiter at [p]; a
    coroutine that stays parked gives no result ([NoFuel]). *)
Definition co_receive (x : ptr * handle) : M (chan_world T) (exn + T) :=
  receive x.1;;;
  let! (suspend, _) := ReceiverAwaiter_await_suspend_locked moved_from kStats x.1 x.2 in
  if suspend : bool then nofuel
  else try_catch (let! v := ReceiverAwaiter_await_resume moved_from x.1 in ret (inr v))
                 (λ e, ret (inl e)).

Fixpoint co_receive_all (xs : list (ptr * handle)) : M (chan_world T) (list (exn + T)) :=
  match xs with
  | [] => ret []
  | x :: xs' =>
      let! r := co_receive x in
      let! rs := co_receive_all xs' in
      ret (r :: rs)
  end.

Lemma wp_co_receive_closed x w f E : repr w f → fifo_wf f → f_closed f = true →
  wp (co_receive x) w (λ r w', ∃ f', repr w' f' ∧ fifo_wf f' ∧ f_closed f' = true ∧
    f_items f' = tail (f_items f) ∧
    r = match f_items f with v :: _ => inr v | [] => inl closed_error end) E.
Proof.
  intros Hr Hwf Hcl. destruct x as [p h]. cbn [co_receive fst snd].
  assert (f_senders f = [] ∧ f_receivers f = []) as [Es Er].
  { split; [destruct (f_senders f) eqn:E0; [done|]; destruct (wf_senders f Hwf) as [_ ?]
           |destruct (f_receivers f) eqn:E0; [done|]; destruct (wf_receivers f Hwf) as (_ & _ & ?)];
      rewrite ?E0 in *; congruence. }
  unfold co_receive. wp_steps. eapply refined_wp; [by apply refines_receive| |done].
  intros [] f1 w1 [= <-] Hr1.
  assert (Hwf1 : fifo_wf (fifo_set_mail p None f))
    by (apply fifo_set_mail_wf; [done|rewrite Er; apply not_elem_of_nil]).
  assert (Hlive : is_Some (receivers w1 !! p)).
  { pose proof (lookup_insert_eq (f_mail f) p None) as Hm.
    change (f_mail (fifo_set_mail p None f) !! p = Some None) in Hm.
    rewrite <- (re_mail _ _ Hr1), lookup_fmap in Hm. by destruct (receivers w1 !! p). }
  wp_steps. eapply refined_wp; [by apply refines_receive_suspend| |].
  2: { intros e f2 w2 Hs. unfold spec_receive_suspend in Hs. repeat case_match; done. }
  intros [susp wake] f2 w2 Hs Hr2.
  unfold spec_receive_suspend, fifo_pop in Hs. cbn in Hs. rewrite Es, Hcl in Hs.
  destruct (f_items f) as [|v xs] eqn:Ei; simplify_eq; wp_steps.
  - eapply wp_mono; [eapply (ReceiverAwaiter_resume_spec moved_from p w2 _ None Hr2);
      cbn; by rewrite lookup_insert_eq| |].
    + intros v w3 [? _]. done.
    + intros e w3 (_ & -> & ->). wp_steps. eexists. split_and!; [done| |done|done|done].
      apply fifo_set_mail_wf; [done|]. cbn. rewrite Er. apply not_elem_of_nil.
  - eapply wp_mono; [eapply (ReceiverAwaiter_resume_spec moved_from p w2 _ (Some v) Hr2);
      cbn; by rewrite lookup_insert_eq| |].
    + intros v' w3 [[= <-] Hr3]. wp_steps. eexists.
      split_and!; [done| |done|done|done].
      do 2 (apply fifo_set_mail_wf; [|cbn; rewrite Er; apply not_elem_of_nil]).
      eapply (fifo_pop_wf (fifo_set_mail p None f) v null); [done|].
      unfold fifo_pop. cbn. by rewrite Ei, Es, Hcl.
    + intros e w3 (? & _). done.
Qed.

(** C28. Receiving from a closed channel never parks: any number of receivers,
    one after the other, get the buffered values in order, and once the
    buffer is drained each of them throws "channel is closed". *)
Theorem channel_drain_after_close (xs : list (ptr * handle)) : ∀ w f,
  repr w f → fifo_wf f → close_ (chan w) = true →
  ∃ rs w', co_receive_all xs w = Ok rs w' ∧
    rs = (inr <$> take (length xs) (buffered (chan w))) ++
         replicate (length xs - length (buffered (chan w))) (inl closed_error) ∧
    buffered (chan w') = drop (length xs) (buffered (chan w)).
Proof.
  induction xs as [|x xs IH]; intros w f Hr Hwf Hcl.
  { exists [], w. split_and!; [done|done|by rewrite drop_0]. }
  rewrite (re_closed _ _ Hr) in Hcl.
  destruct (wp_ok _ _ _ (wp_co_receive_closed x w f _ Hr Hwf Hcl))
    as (r & w1 & E1 & f1 & Hr1 & Hwf1 & Hcl1 & Hi & ->).
  rewrite <- (re_closed _ _ Hr1) in Hcl1.
  destruct (IH w1 f1 Hr1 Hwf1 Hcl1) as (rs & w2 & E2 & -> & Hb).
  rewrite (buffered_repr _ _ (re_ring _ _ Hr)) in *.
  rewrite (buffered_repr _ _ (re_ring _ _ Hr1)), Hi in *.
  cbn [co_receive_all]. rewrite (bind_ok _ _ _ _ _ E1), (bind_ok _ _ _ _ _ E2).
  eexists _, w2. split; [done|].
  destruct (f_items f) as [|v items]; cbn; [|done].
  rewrite ?take_nil, ?drop_nil in *. cbn. rewrite Nat.sub_0_r. by destruct xs.
Qed.

(** ** Inside a worker's context *)

(** On a worker thread (a runtime context [i] is current) the whole
    [close] is its critical section followed by the submission to that
    context's queue of exactly the parked senders and then the parked
    receivers, in order; the channel itself is touched only under the lock. *)
Theorem channel_close_in_context {S} `{!Runtime S} `{!Lens S (chan_world T)}
    `{!RuntimeFrame S (chan_world T)} (s : S) i f :
  try_local_context s = Some i →
  repr (lget s) f → fifo_wf f → f_closed f = false →
  ∃ w', repr w' (fifo_close f) ∧
    close kStats s = Ok tt (submit_all i
      ((fst <$> sender_queue_ (chan (lget s))) ++ (fst <$> receiver_queue_ (chan (lget s))))
      (lset w' s)) ∧
    lget (submit_all i
      ((fst <$> sender_queue_ (chan (lget s))) ++ (fst <$> receiver_queue_ (chan (lget s))))
      (lset w' s)) = w'.
Proof.
  intros Hctx Hr Hwf Hcl.
  pose proof (refines_close kStats (lget s) f Hr Hwf) as Hc.
  unfold refines_at, spec_close, wp in Hc. rewrite Hcl in Hc.
  destruct (close_locked kStats (lget s)) as [[hs hr] w'| | | |] eqn:E; try done;
    [|by destruct Hc as (? & ? & _)].
  destruct Hc as (f' & [= <- <- <-] & Hr'). exists w'. split_and!; [done| |].
  - unfold close. rewrite (bind_ok _ _ _ _ _ (zoom_ok _ _ _ _ E)). cbn.
    pose proof (local_context_lset w' s) as Hctx'. rewrite Hctx in Hctx'.
    rewrite (bind_ok _ _ _ _ _ (reschedule_all_in_context _ i _ Hctx')).
    rewrite (reschedule_all_in_context _ i) by (by rewrite submit_all_context).
    rewrite <- submit_all_app, (re_receivers _ _ Hr), (re_senders _ _ Hr), <- list_fmap_compose.
    do 3 f_equal. apply list_fmap_ext. by intros ? [[]] ?.
  - by rewrite submit_all_frame, lget_lset.
Qed.
End props.

(** ** Witnesses *)

Lemma channel_refines_fifo_witness :
  refines_at (try_receive_locked id true) spec_try_receive demo_world demo_fifo ∧
  refines_at (SenderAwaiter_await_suspend_locked id true 11 104)
    (spec_send_suspend 11 104 3%Z) demo_world demo_fifo.
Proof.
  destruct (channel_refines_fifo id true demo_world demo_fifo demo_repr demo_wf)
    as (_ & H1 & _ & _ & _ & _ & H2 & _).
  split; [exact H2|]. apply (H1 _ _ _ false); [reflexivity|].
  vm_compute. intros H. repeat (apply elem_of_cons in H as [H|H]; [discriminate|]).
  by apply not_elem_of_nil in H.
Defined.

Lemma channel_reachable_wf_witness :
  sender_queue_ (chan demo_state.1) ≠ [] ∧
  (sender_queue_ (chan demo_state.1) ≠ [] →
    count_ (chan demo_state.1) = capacity_ (chan demo_state.1) ∧
    close_ (chan demo_state.1) = false).
Proof.
  split; [discriminate|].
  apply (channel_reachable_wf id true demo_state.1 demo_state.2 demo_reachable).
Defined.

Lemma channel_no_undefined_behaviour_witness :
  ∃ o w', exec id true OpTryReceive demo_state.1 = Ok o w' ∧
    chan_reachable id true (w', history_app demo_state.2 o).
Proof.
  apply (channel_no_undefined_behaviour id true demo_state.1 demo_state.2 OpTryReceive
    demo_reachable I).
Defined.


Lemma channel_handles_conserved_witness :
  parked demo_receivers.2 = [201; 202]%N ∧
  parked demo_receivers.2 ≡ₚ woken demo_receivers.2 ++
    (fst <$> sender_queue_ (chan demo_receivers.1)) ++
    (fst <$> receiver_queue_ (chan demo_receivers.1)).
Proof.
  split; [reflexivity|].
  apply (channel_handles_conserved id true demo_receivers.1 demo_receivers.2
    demo_receivers_reachable).
Defined.


Lemma channel_close_wakes_all_witness :
  ∃ w', close_locked true demo_world = Ok ([102; 103]%N, []) w' ∧
    close_ (chan w') = true ∧ SenderAwaiter_await_resume 12 w' = Throw closed_error w'.
Proof.
  destruct (channel_close_wakes_all id true demo_world demo_fifo demo_repr demo_wf
    ltac:(reflexivity)) as (w' & E & Hcl & _ & _ & _ & Hs & _).
  exists w'. split; [exact E|]. split; [exact Hcl|].
  apply (Hs 102%N). apply elem_of_cons. by left.
Defined.

(** The closed state: two values in the buffer, nobody parked. *)
Definition demo_closed : chan_world Z :=
  set_chan (set_close true (set_sender_queue [] (chan demo_world))) demo_world.

Lemma demo_closed_repr : repr demo_closed (MkFifo 2 [2; 3]%Z [] [] true
  {[21%N := None]} {[11%N := false; 12%N := false; 13%N := false]}).
Proof.
  destruct demo_repr as [Hring _ _ _ _ _ Hm Hf].
  split; try reflexivity; [|constructor].
  eapply ring_repr_ext; [exact Hring|reflexivity..].
Qed.

Lemma channel_drain_after_close_witness :
  ∃ rs w', co_receive_all id true [(31, 301); (32, 302); (33, 303)]%N demo_closed = Ok rs w' ∧
    rs = [inr 2%Z; inr 3%Z; inl closed_error] ∧ buffered (chan w') = [].
Proof.
  destruct (channel_drain_after_close id true [(31, 301); (32, 302); (33, 303)]%N
    demo_closed _ demo_closed_repr) as (rs & w' & E & Hrs & Hb).
  - split; cbn; try done; try constructor.
  - reflexivity.
  - exists rs, w'. split; [exact E|]. split; [rewrite Hrs|rewrite Hb]; reflexivity.
Defined.

Lemma channel_close_in_context_witness :
  ∃ w', close true (MkWorker demo_world [7%N]) = Ok tt (MkWorker w' [7; 102; 103]%N).
Proof.
  pose proof (channel_close_in_context (S := worker (chan_world Z)) true
    (MkWorker demo_world [7%N]) 0 demo_fifo) as H.
  destruct (H eq_refl demo_repr demo_wf eq_refl) as (w' & _ & E & _).
  exists w'. exact E.
Defined.
