(* ===== verification/AsyncMutex.v ===== *)
(** * AsyncMutex (src/include/async_mutex.h)

    The coroutine mutex, its RAII [LockGuard] objects and the two awaiters.
    [AsyncMutex] objects and [LockGuard] objects live in the shared state and
    are reached through pointers, as in the code. *)

From S2P Require Import Prelude Runtime.

(** ** Data *)

Record AsyncMutex := MkMutex { lock_ : bool; wait_queue_ : list handle }.
Record LockGuard := MkGuard { async_mutex_ : ptr; owns_lock_ : bool }.

Record mutex_world := MkMutexWorld {
  mutexes : gmap ptr AsyncMutex;
  guards : gmap ptr LockGuard;
}.

#[export] Instance AsyncMutex_eq_dec : EqDecision AsyncMutex.
Proof. solve_decision. Defined.
#[export] Instance LockGuard_eq_dec : EqDecision LockGuard.
Proof. solve_decision. Defined.

(** The default member initializers. *)
Definition AsyncMutex_init : AsyncMutex := MkMutex false [].

Definition set_mutexes (m : gmap ptr AsyncMutex) (w : mutex_world) : mutex_world :=
  MkMutexWorld m (guards w).
Definition set_guards (m : gmap ptr LockGuard) (w : mutex_world) : mutex_world :=
  MkMutexWorld (mutexes w) m.

Definition mutex_at (m : ptr) : M mutex_world AsyncMutex :=
  let! w := get in deref (mutexes w !! m).
Definition mutex_store (m : ptr) (x : AsyncMutex) : M mutex_world unit :=
  modify (λ w, set_mutexes (<[m := x]> (mutexes w)) w).
Definition guard_at (g : ptr) : M mutex_world LockGuard :=
  let! w := get in deref (guards w !! g).
Definition guard_store (g : ptr) (x : LockGuard) : M mutex_world unit :=
  modify (λ w, set_guards (<[g := x]> (guards w)) w).

(** ** Blocks under [mtx_] *)

(** The common block of the two [await_suspend] functions: whether the
    coroutine suspends. *)
Definition lock_or_enqueue (m : ptr) (h : handle) : M mutex_world bool :=
  let! x := mutex_at m in
  if negb (lock_ x) then
    mutex_store m (MkMutex true (wait_queue_ x));;; ret false
  else
    mutex_store m (MkMutex (lock_ x) (queue_push h (wait_queue_ x)));;; ret true.

(** [unlock] up to [lock.unlock()]: the next waiter, if there is one, takes the
    lock over. *)
Definition unlock_locked (m : ptr) : M mutex_world (option handle) :=
  let! x := mutex_at m in
  match wait_queue_ x with
  | h :: q => mutex_store m (MkMutex (lock_ x) q);;; ret (Some h)
  | [] => mutex_store m (MkMutex false (wait_queue_ x));;; ret None
  end.

(** ** Awaiters *)

Definition MutexAwaiter_await_ready : bool := false.

Definition MutexAwaiter_await_suspend (m : ptr) (h : handle) : M mutex_world bool :=
  lock_or_enqueue m h.

(** [await_resume] of [lock()]: the guard is constructed at [g]. *)
Definition MutexAwaiter_await_resume (m g : ptr) : M mutex_world unit :=
  guard_store g (MkGuard m true).

Definition ReLockAwaiter_await_ready : bool := false.

Definition ReLockAwaiter_await_suspend (g : ptr) (h : handle) : M mutex_world bool :=
  let! x := guard_at g in
  lock_or_enqueue (async_mutex_ x) h.

Definition ReLockAwaiter_await_resume (g : ptr) : M mutex_world unit :=
  let! x := guard_at g in
  guard_store g (MkGuard (async_mutex_ x) true).

(** ** Member functions, in a state that holds the objects *)

Section with_runtime.
Context {S : Type} `{!Runtime S} `{!Lens S mutex_world}.

Definition AsyncMutex_unlock (m : ptr) : M S unit :=
  noexcept (
    let! next := zoom (unlock_locked m) in
    match next with
    | Some h => reschedule_or_resume h
    | None => ret tt
    end).

(** [owns_lock_ && async_mutex_ != nullptr] *)
Definition guard_engaged (x : LockGuard) : bool :=
  owns_lock_ x && negb (is_null (async_mutex_ x)).

Definition LockGuard_unlock (g : ptr) : M S unit :=
  noexcept (
    let! x := zoom (guard_at g) in
    if guard_engaged x then
      AsyncMutex_unlock (async_mutex_ x);;;
      let! y := zoom (guard_at g) in
      zoom (guard_store g (MkGuard (async_mutex_ y) false))
    else ret tt).

(** [LockGuard(LockGuard &&other)], constructing at [this]. *)
Definition LockGuard_move (this other : ptr) : M S unit :=
  let! x := zoom (guard_at other) in
  zoom (guard_store this x);;;
  zoom (guard_store other (MkGuard null false)).

(** [operator=(LockGuard &&other)] *)
Definition LockGuard_move_assign (this other : ptr) : M S unit :=
  noexcept (
    if N.eqb this other then ret tt
    else
      let! x := zoom (guard_at this) in
      (if guard_engaged x then AsyncMutex_unlock (async_mutex_ x) else ret tt);;;
      let! y := zoom (guard_at other) in
      let! _ := zoom (guard_at this) in
      zoom (guard_store this y);;;
      zoom (guard_store other (MkGuard null false))).

(** [~LockGuard()]; the object is gone afterwards. *)
Definition LockGuard_destroy (g : ptr) : M S unit :=
  let! x := zoom (guard_at g) in
  (if guard_engaged x then AsyncMutex_unlock (async_mutex_ x) else ret tt);;;
  zoom (modify (λ w, set_guards (delete g (guards w)) w)).
End with_runtime.
