(* ===== verification/AsyncMutexRun.v ===== *)
(** * Any interleaving of AsyncMutex operations

    Coroutines on any threads lock, resume, unlock, relock, move and destroy
    guards of one mutex.  A coroutine's phase says where it is in the
    protocol; the ghost lists record who asked for the lock and who got it. *)

From S2P Require Import Prelude Runtime AsyncMutex.

(** ** Phases *)

(** [o] is the guard being relocked, [None] for [lock()]. *)
Inductive phase :=
| PWaiting (o : option ptr)     (** suspended in the wait queue *)
| PGranted (o : option ptr)     (** owns the lock; [await_resume] has not run *)
| PHolding (g : ptr)            (** owns the lock through its guard *)
| PReleasing (g : ptr)          (** inside [LockGuard::unlock], lock given up *)
| PReleased (g : ptr).          (** has a guard that owns nothing *)

(** The phases in which the coroutine owns the mutex. *)
Definition critical (p : phase) : bool :=
  match p with PGranted _ | PHolding _ => true | _ => false end.

Definition phase_guard (p : phase) : option ptr :=
  match p with
  | PWaiting o | PGranted o => o
  | PHolding g | PReleasing g | PReleased g => Some g
  end.
(** The value of [owns_lock_] in the phase's guard. *)
Definition phase_owns (p : phase) : bool :=
  match p with PHolding _ | PReleasing _ => true | _ => false end.

Record mutex_state := MkMutexState {
  ms_world : mutex_world;
  ms_phase : gmap handle phase;
  ms_arrived : list handle;
  ms_granted : list handle;
}.

(** The handle [unlock] pops owns the mutex from then on. *)
Definition grant (wake : option handle) (ph : gmap handle phase) : gmap handle phase :=
  match wake with
  | Some h =>
      match ph !! h with Some (PWaiting o) => <[h := PGranted o]> ph | _ => ph end
  | None => ph
  end.

(** [LockGuard::unlock] on an engaged guard, up to and after its call of
    [AsyncMutex::unlock]. *)
Definition release_begin (g : ptr) : M mutex_world (option handle) :=
  let! x := guard_at g in
  if guard_engaged x then unlock_locked (async_mutex_ x) else ret None.
Definition release_end (g : ptr) : M mutex_world unit :=
  let! y := guard_at g in guard_store g (MkGuard (async_mutex_ y) false).
Definition guard_delete (g : ptr) : M mutex_world unit :=
  modify (λ w, set_guards (delete g (guards w)) w).

Definition after_suspend (b : bool) (o : option ptr) : phase :=
  if b then PWaiting o else PGranted o.
Definition granted_now (b : bool) (h : handle) : list handle := if b then [] else [h].

Inductive mutex_step (m : ptr) : mutex_state → mutex_state → Prop :=
| mx_lock w ph ar gr h b w' : ph !! h = None →
    MutexAwaiter_await_suspend m h w = Ok b w' →
    mutex_step m (MkMutexState w ph ar gr)
      (MkMutexState w' (<[h := after_suspend b None]> ph) (ar ++ [h])
        (gr ++ granted_now b h))
| mx_resume w ph ar gr h g w' : ph !! h = Some (PGranted None) →
    guards w !! g = None → MutexAwaiter_await_resume m g w = Ok tt w' →
    mutex_step m (MkMutexState w ph ar gr)
      (MkMutexState w' (<[h := PHolding g]> ph) ar gr)
| mx_unlock w ph ar gr h g wake w' : ph !! h = Some (PHolding g) →
    release_begin g w = Ok wake w' →
    mutex_step m (MkMutexState w ph ar gr)
      (MkMutexState w' (grant wake (<[h := PReleasing g]> ph)) ar
        (gr ++ option_list wake))
| mx_unlock_end w ph ar gr h g w' : ph !! h = Some (PReleasing g) →
    release_end g w = Ok tt w' →
    mutex_step m (MkMutexState w ph ar gr)
      (MkMutexState w' (<[h := PReleased g]> ph) ar gr)
| mx_relock w ph ar gr h g b w' : ph !! h = Some (PReleased g) →
    ReLockAwaiter_await_suspend g h w = Ok b w' →
    mutex_step m (MkMutexState w ph ar gr)
      (MkMutexState w' (<[h := after_suspend b (Some g)]> ph) (ar ++ [h])
        (gr ++ granted_now b h))
| mx_relock_resume w ph ar gr h g w' : ph !! h = Some (PGranted (Some g)) →
    ReLockAwaiter_await_resume g w = Ok tt w' →
    mutex_step m (MkMutexState w ph ar gr)
      (MkMutexState w' (<[h := PHolding g]> ph) ar gr)
| mx_destroy w ph ar gr h g wake w' w'' : ph !! h = Some (PHolding g) →
    release_begin g w = Ok wake w' → guard_delete g w' = Ok tt w'' →
    mutex_step m (MkMutexState w ph ar gr)
      (MkMutexState w'' (grant wake (delete h ph)) ar (gr ++ option_list wake))
| mx_destroy_released w ph ar gr h g w' : ph !! h = Some (PReleased g) →
    guard_delete g w = Ok tt w' →
    mutex_step m (MkMutexState w ph ar gr) (MkMutexState w' (delete h ph) ar gr)
| mx_move w ph ar gr h g g' w' : ph !! h = Some (PHolding g) →
    guards w !! g' = None → LockGuard_move (S := mutex_world) g' g w = Ok tt w' →
    mutex_step m (MkMutexState w ph ar gr)
      (MkMutexState w' (<[h := PHolding g']> ph) ar gr)
| mx_destroy_moved w ph ar gr g w' : guards w !! g = Some (MkGuard null false) →
    guard_delete g w = Ok tt w' →
    mutex_step m (MkMutexState w ph ar gr) (MkMutexState w' ph ar gr).

Definition mutex_start (m : ptr) : mutex_state :=
  MkMutexState (MkMutexWorld {[m := AsyncMutex_init]} ∅) ∅ [] [].
Definition mutex_reachable (m : ptr) : mutex_state → Prop :=
  rtc (mutex_step m) (mutex_start m).

(** ** The operations computed *)

Lemma lock_or_enqueue_eq m h w x : mutexes w !! m = Some x →
  lock_or_enqueue m h w = Ok (lock_ x)
    (set_mutexes (<[m := if lock_ x then MkMutex true (wait_queue_ x ++ [h])
                         else MkMutex true (wait_queue_ x)]> (mutexes w)) w).
Proof.
  intros Hm. unfold lock_or_enqueue, mutex_at, bind, get, deref. rewrite Hm. cbn.
  by destruct x as [[] q].
Qed.

Lemma unlock_locked_eq m w x : mutexes w !! m = Some x →
  unlock_locked m w = Ok (head (wait_queue_ x))
    (set_mutexes (<[m := MkMutex (if queue_empty (wait_queue_ x) then false else lock_ x)
                          (tail (wait_queue_ x))]> (mutexes w)) w).
Proof.
  intros Hm. unfold unlock_locked, mutex_at, bind, get, deref. rewrite Hm. cbn.
  by destruct x as [l [|h q]].
Qed.

(** ** The invariant, in two independent halves

    The lock half only needs to know which coroutines wait and which own the
    mutex; the guard half only which guard each coroutine has and what it
    claims. *)

Inductive lock_kind := KWaiting | KCritical | KOther.

#[export] Instance lock_kind_eq_dec : EqDecision lock_kind.
Proof. solve_decision. Defined.

Definition kind_of (p : option phase) : lock_kind :=
  match p with
  | Some (PWaiting _) => KWaiting
  | Some p => if critical p then KCritical else KOther
  | None => KOther
  end.

Definition guard_view (p : option phase) : option (ptr * bool) :=
  p ← p; g ← phase_guard p; Some (g, phase_owns p).

Record lock_part (x : AsyncMutex) (k : handle → lock_kind) (ar gr : list handle)
    (owner : option handle) : Prop := {
  lp_queue : ar = gr ++ wait_queue_ x;
  lp_nodup : NoDup (wait_queue_ x);
  lp_waiting : ∀ h, k h = KWaiting ↔ h ∈ wait_queue_ x;
  lp_lock : lock_ x = bool_decide (is_Some owner);
  lp_idle : owner = None → wait_queue_ x = [];
  lp_owner : ∀ h, k h = KCritical ↔ owner = Some h;
}.

Record guard_part (m : ptr) (gs : gmap ptr LockGuard) (v : handle → option (ptr * bool))
    : Prop := {
  gp_guard : ∀ h g b, v h = Some (g, b) → gs !! g = Some (MkGuard m b);
  gp_inj : ∀ h1 h2 g b1 b2, v h1 = Some (g, b1) → v h2 = Some (g, b2) → h1 = h2;
  gp_engaged : ∀ g x, gs !! g = Some x → owns_lock_ x = true → ∃ h b, v h = Some (g, b);
}.

Definition mutex_inv (m : ptr) (s : mutex_state) : Prop :=
  ∃ x owner, mutexes (ms_world s) !! m = Some x ∧
    lock_part x (λ h, kind_of (ms_phase s !! h)) (ms_arrived s) (ms_granted s) owner ∧
    guard_part m (guards (ms_world s)) (λ h, guard_view (ms_phase s !! h)).

(** [k'] is [k] except at [h]. *)
Definition changed {A} (h : handle) (a : A) (k k' : handle → A) : Prop :=
  ∀ h', k' h' = if decide (h' = h) then a else k h'.

Section lock_lemmas.
Implicit Types (k : handle → lock_kind).

Lemma lock_part_ext x k k' ar gr owner :
  (∀ h, k' h = k h) → lock_part x k ar gr owner → lock_part x k' ar gr owner.
Proof. intros E [H1 H2 H3 H4 H5 H6]. split; try done; intros h; rewrite E; auto. Qed.

Lemma lock_part_wait x k k' ar gr owner h :
  lock_part x k ar gr owner → lock_ x = true → k h = KOther → changed h KWaiting k k' →
  lock_part (MkMutex true (wait_queue_ x ++ [h])) k' (ar ++ [h]) gr owner.
Proof.
  intros [H1 H2 H3 H4 H5 H6] Hl Hk Hc. rewrite Hl in H4. symmetry in H4.
  apply bool_decide_eq_true in H4. split; cbn.
  - by rewrite H1, app_assoc.
  - apply NoDup_app. split_and!; [done| |apply NoDup_singleton].
    intros y Hy ->%list_elem_of_singleton. apply H3 in Hy. congruence.
  - intros h'. rewrite Hc, elem_of_app, list_elem_of_singleton, <- H3.
    case_decide; naive_solver.
  - symmetry. by apply bool_decide_eq_true.
  - intros ->. by destruct H4.
  - intros h'. rewrite Hc, <- H6. case_decide; [subst; rewrite Hk; by split|done].
Qed.

Lemma lock_part_take x k k' ar gr owner h :
  lock_part x k ar gr owner → lock_ x = false → k h = KOther → changed h KCritical k k' →
  lock_part (MkMutex true (wait_queue_ x)) k' (ar ++ [h]) (gr ++ [h]) (Some h).
Proof.
  intros [H1 H2 H3 H4 H5 H6] Hl Hk Hc. rewrite Hl in H4. symmetry in H4.
  apply bool_decide_eq_false in H4. destruct owner as [o|]; [by destruct H4|].
  rewrite H5 in * by done. split; cbn; try done.
  - by rewrite H1, !app_nil_r.
  - intros h'. rewrite Hc, <- H3. case_decide; [subst; rewrite Hk; by split|done].
  - intros h'. rewrite Hc. case_decide; [naive_solver|]. rewrite H6. naive_solver.
Qed.

(** Giving the lock up hands it to the first waiter, if there is one. *)
Lemma lock_part_release x k k' ar gr h :
  lock_part x k ar gr (Some h) →
  (∀ h', k' h' = if decide (Some h' = head (wait_queue_ x)) then KCritical
                 else if decide (h' = h) then KOther else k h') →
  lock_part (MkMutex (if queue_empty (wait_queue_ x) then false else lock_ x)
               (tail (wait_queue_ x))) k' ar
    (gr ++ option_list (head (wait_queue_ x))) (head (wait_queue_ x)).
Proof.
  intros [H1 H2 H3 H4 H5 H6] Hk.
  assert (Hh : k h = KCritical) by by apply H6.
  destruct x as [l [|w q]]; cbn in *.
  - split; cbn; try done.
    + by rewrite H1, !app_nil_r.
    + intros h'. rewrite Hk, decide_False by done. case_decide; [|apply H3].
      split; [done|]. by intros ?%not_elem_of_nil.
    + intros h'. rewrite Hk, decide_False by done.
      case_decide; [naive_solver|]. rewrite H6. naive_solver.
  - apply NoDup_cons in H2 as [Hw Hq].
    assert (Hne : w ≠ h). { intros ->. assert (k h = KWaiting) by (apply H3; left). congruence. }
    split; cbn; try done.
    + by rewrite H1, <- app_assoc.
    + intros h'. rewrite Hk. case_decide as E; [simplify_eq; naive_solver|].
      case_decide; [subst; split; [done|]|].
      * intros Hin. assert (k h = KWaiting) by (apply H3; by right). congruence.
      * rewrite H3, elem_of_cons. naive_solver.
    + intros h'. rewrite Hk. case_decide as E; [naive_solver|].
      case_decide; [naive_solver|]. rewrite H6. naive_solver.
Qed.
End lock_lemmas.

Section guard_lemmas.
Context (m : ptr).
Implicit Types (v : handle → option (ptr * bool)) (gs : gmap ptr LockGuard).

Lemma guard_part_ext gs v v' :
  (∀ h, v' h = v h) → guard_part m gs v → guard_part m gs v'.
Proof.
  intros E [H1 H2 H3]. split; repeat setoid_rewrite E; eauto.
Qed.

(** The coroutine [h] sets its guard [g] (possibly a new one) to [b]. *)
Lemma guard_part_set gs v v' h g b :
  guard_part m gs v → (v h = None ∧ gs !! g = None ∨ ∃ b', v h = Some (g, b')) →
  changed h (Some (g, b)) v v' →
  guard_part m (<[g := MkGuard m b]> gs) v'.
Proof.
  intros [H1 H2 H3] Hg Hc.
  assert (Hother : ∀ h' b', h' ≠ h → v h' = Some (g, b') → False).
  { intros h' b' Hne Hv. destruct Hg as [[_ Hn]|[b0 Hv0]].
    - apply H1 in Hv. congruence.
    - by apply Hne, (H2 _ _ _ _ _ Hv Hv0). }
  split.
  - intros h' g' b'. rewrite Hc. case_decide as E.
    + intros [= <- <-]. apply lookup_insert_eq.
    + intros Hv. rewrite lookup_insert_ne; [eauto|]. intros ->. eauto.
  - intros h1 h2 g' b1 b2. rewrite !Hc. repeat case_decide; subst; try done; try naive_solver.
  - intros g' x. destruct (decide (g = g')) as [<-|Hne].
    + intros _ _. exists h, b. rewrite Hc. by rewrite decide_True.
    + rewrite lookup_insert_ne by done. intros Hx Ho.
      destruct (H3 _ _ Hx Ho) as (h' & b' & Hv). exists h', b'. rewrite Hc.
      rewrite decide_False; [done|]. intros ->. destruct Hg as [[? _]|[? ?]]; congruence.
Qed.

Lemma guard_part_delete gs v v' h g b :
  guard_part m gs v → v h = Some (g, b) → changed h None v v' →
  guard_part m (delete g gs) v'.
Proof.
  intros [H1 H2 H3] Hg Hc. split.
  - intros h' g' b'. rewrite Hc. case_decide as E; [done|]. intros Hv.
    rewrite lookup_delete_ne; [eauto|]. intros ->. eauto.
  - intros h1 h2 g' b1 b2. rewrite !Hc. repeat case_decide; try done. eauto.
  - intros g' x Hx Ho. destruct (decide (g = g')) as [<-|Hne].
    { by rewrite lookup_delete_eq in Hx. }
    rewrite lookup_delete_ne in Hx by done. destruct (H3 _ _ Hx Ho) as (h' & b' & Hv).
    exists h', b'. rewrite Hc, decide_False; [done|]. intros ->. congruence.
Qed.

Lemma guard_part_drop gs v g :
  guard_part m gs v → (∀ h b, v h ≠ Some (g, b)) → guard_part m (delete g gs) v.
Proof.
  intros [H1 H2 H3] Hg. split; [|done|].
  - intros h' g' b' Hv. rewrite lookup_delete_ne; [eauto|]. intros ->. by eapply Hg.
  - intros g' x Hx. destruct (decide (g = g')) as [<-|Hne].
    + by rewrite lookup_delete_eq in Hx.
    + rewrite lookup_delete_ne in Hx by done. eauto.
Qed.

(** A guard no one has that claims nothing. *)
Lemma guard_part_clear gs v g :
  guard_part m gs v → (∀ h b, v h ≠ Some (g, b)) →
  guard_part m (<[g := MkGuard null false]> gs) v.
Proof.
  intros [H1 H2 H3] Hg. split; [|done|].
  - intros h' g' b' Hv. rewrite lookup_insert_ne; [eauto|]. intros ->. by eapply Hg.
  - intros g' x. destruct (decide (g = g')) as [<-|Hne].
    + rewrite lookup_insert_eq. intros [= <-]. done.
    + rewrite lookup_insert_ne by done. eauto.
Qed.
End guard_lemmas.

(** ** Every step preserves the invariant *)

Section steps.
Context (m : ptr) (Hm : m ≠ null).

Lemma kind_insert (ph : gmap handle phase) h p :
  changed h (kind_of (Some p)) (λ h', kind_of (ph !! h')) (λ h', kind_of (<[h := p]> ph !! h')).
Proof.
  intros h'. case_decide; [subst; by rewrite lookup_insert_eq|by rewrite lookup_insert_ne].
Qed.

Lemma view_insert (ph : gmap handle phase) h p :
  changed h (guard_view (Some p)) (λ h', guard_view (ph !! h'))
    (λ h', guard_view (<[h := p]> ph !! h')).
Proof.
  intros h'. case_decide; [subst; by rewrite lookup_insert_eq|by rewrite lookup_insert_ne].
Qed.

Lemma view_delete (ph : gmap handle phase) h :
  changed h None (λ h', guard_view (ph !! h')) (λ h', guard_view (delete h ph !! h')).
Proof.
  intros h'. case_decide; [subst; by rewrite lookup_delete_eq|by rewrite lookup_delete_ne].
Qed.

(** A change of phase that both halves of the invariant do not see. *)
Lemma kind_insert_same (ph : gmap handle phase) h p :
  kind_of (Some p) = kind_of (ph !! h) →
  ∀ h', kind_of (<[h := p]> ph !! h') = kind_of (ph !! h').
Proof. intros E h'. rewrite (kind_insert ph h p h'). case_decide; congruence. Qed.

Lemma view_insert_same (ph : gmap handle phase) h p :
  guard_view (Some p) = guard_view (ph !! h) →
  ∀ h', guard_view (<[h := p]> ph !! h') = guard_view (ph !! h').
Proof. intros E h'. rewrite (view_insert ph h p h'). case_decide; congruence. Qed.

Lemma grant_view wake ph h :
  guard_view (grant wake ph !! h) = guard_view (ph !! h).
Proof.
  unfold grant. destruct wake as [w|]; [|done].
  destruct (ph !! w) as [[]|] eqn:E; try done.
  apply view_insert_same. by rewrite E.
Qed.

Lemma grant_kind wake ph : (∀ w, wake = Some w → kind_of (ph !! w) = KWaiting) →
  ∀ h, kind_of (grant wake ph !! h) =
       if decide (Some h = wake) then KCritical else kind_of (ph !! h).
Proof.
  intros Hw h. unfold grant. destruct wake as [w|]; [|done].
  specialize (Hw w eq_refl). destruct (ph !! w) as [[]|] eqn:E; try done.
  rewrite (kind_insert ph w _ h). repeat case_decide; naive_solver.
Qed.

(** The critical section of [unlock], by the coroutine that owns the mutex. *)
Lemma release_begin_inv w ph ar gr h g wake w' :
  mutex_inv m (MkMutexState w ph ar gr) → ph !! h = Some (PHolding g) →
  release_begin g w = Ok wake w' →
  ∃ x, mutexes w !! m = Some x ∧ wake = head (wait_queue_ x) ∧
    w' = set_mutexes (<[m := MkMutex (if queue_empty (wait_queue_ x) then false else lock_ x)
                              (tail (wait_queue_ x))]> (mutexes w)) w ∧
    lock_part x (λ h, kind_of (ph !! h)) ar gr (Some h).
Proof.
  intros (x & owner & Hx & Hl & Hg) Hh Hrel. cbn in *.
  pose proof (gp_guard _ _ _ Hg h g true) as Hgd. cbn in Hgd. rewrite Hh in Hgd.
  specialize (Hgd eq_refl).
  unfold release_begin, guard_at, bind, get, deref in Hrel. rewrite Hgd in Hrel. cbn in Hrel.
  unfold guard_engaged, is_null in Hrel. cbn in Hrel.
  rewrite (proj2 (N.eqb_neq m null) Hm) in Hrel. cbn in Hrel.
  rewrite (unlock_locked_eq _ _ _ Hx) in Hrel. simplify_eq.
  exists x. split_and!; try done.
  assert (owner = Some h) as ->; [|done].
  apply (lp_owner _ _ _ _ _ Hl). by rewrite Hh.
Qed.

Lemma head_waits x k ar gr owner h : lock_part x k ar gr owner →
  head (wait_queue_ x) = Some h → k h = KWaiting.
Proof.
  intros Hl Hh. apply (lp_waiting _ _ _ _ _ Hl). apply head_Some_elem_of. done.
Qed.

(** Releasing: the owner's phase becomes [ph1], without the lock. *)
Lemma inv_release w ph ph1 ar gr h g wake w' :
  mutex_inv m (MkMutexState w ph ar gr) → ph !! h = Some (PHolding g) →
  release_begin g w = Ok wake w' →
  changed h KOther (λ h', kind_of (ph !! h')) (λ h', kind_of (ph1 !! h')) →
  ∀ gs, guard_part m gs (λ h', guard_view (ph1 !! h')) →
  mutex_inv m (MkMutexState (set_guards gs w') (grant wake ph1) ar (gr ++ option_list wake)).
Proof.
  intros Hinv Hh Hrel Hc gs Hgs.
  destruct (release_begin_inv _ _ _ _ _ _ _ _ Hinv Hh Hrel) as (x & Hx & -> & -> & Hl).
  eexists _, (head (wait_queue_ x)). split_and!.
  - cbn. apply lookup_insert_eq.
  - cbn. eapply lock_part_release; [exact Hl|]. intros h'. cbn.
    rewrite grant_kind.
    + rewrite (Hc h'). done.
    + intros w0 Hw0. rewrite (Hc w0).
      pose proof (head_waits _ _ _ _ _ _ Hl Hw0) as Hk. cbn in Hk.
      case_decide; [|done]. subst. by rewrite Hh in Hk.
  - cbn. eapply guard_part_ext; [|exact Hgs]. intros h'. apply grant_view.
Qed.

Lemma inv_ask w ph ar gr h b o x :
  mutex_inv m (MkMutexState w ph ar gr) → mutexes w !! m = Some x → b = lock_ x →
  kind_of (ph !! h) = KOther →
  guard_view (ph !! h) = ((λ g, (g, false)) <$> o) →
  mutex_inv m (MkMutexState
    (set_mutexes (<[m := if lock_ x then MkMutex true (wait_queue_ x ++ [h])
                         else MkMutex true (wait_queue_ x)]> (mutexes w)) w)
    (<[h := after_suspend b o]> ph) (ar ++ [h]) (gr ++ granted_now b h)).
Proof.
  intros (x' & owner & Hx' & Hl & Hg) Hx -> Hk Hv. cbn in *.
  assert (x' = x) as -> by congruence.
  assert (Hg' : guard_part m (guards w) (λ h', guard_view
      (<[h := after_suspend (lock_ x) o]> ph !! h'))).
  { eapply guard_part_ext; [|exact Hg]. apply view_insert_same. rewrite Hv.
    by destruct o, (lock_ x). }
  destruct (lock_ x) eqn:El; eexists _, _; (split_and!;
    [cbn; apply lookup_insert_eq| |exact Hg']); cbn.
  - rewrite app_nil_r. eapply lock_part_wait; [exact Hl|done|done|apply kind_insert].
  - eapply lock_part_take; [exact Hl|done|done|apply kind_insert].
Qed.

Lemma kind_delete (ph : gmap handle phase) h :
  changed h KOther (λ h', kind_of (ph !! h')) (λ h', kind_of (delete h ph !! h')).
Proof.
  intros h'. case_decide; [subst; by rewrite lookup_delete_eq|by rewrite lookup_delete_ne].
Qed.

(** The guard of a coroutine, by its phase. *)
Lemma inv_guard_at w ph ar gr h p g :
  mutex_inv m (MkMutexState w ph ar gr) → ph !! h = Some p → phase_guard p = Some g →
  guards w !! g = Some (MkGuard m (phase_owns p)).
Proof.
  intros (x & owner & _ & _ & Hg) Hh Hp. cbn in *.
  apply (gp_guard _ _ _ Hg h). cbn. rewrite Hh. cbn. by rewrite Hp.
Qed.

(** A step that changes [h]'s guard and phase but not the lock. *)
Lemma inv_guard_step w ph ar gr h p g :
  mutex_inv m (MkMutexState w ph ar gr) →
  kind_of (Some p) = kind_of (ph !! h) → phase_guard p = Some g →
  (guard_view (ph !! h) = None ∧ guards w !! g = None ∨
   ∃ b, guard_view (ph !! h) = Some (g, b)) →
  mutex_inv m (MkMutexState
    (set_guards (<[g := MkGuard m (phase_owns p)]> (guards w)) w) (<[h := p]> ph) ar gr).
Proof.
  intros (x & owner & Hx & Hl & Hg) Hk Hp Hv. exists x, owner. cbn in *. split_and!.
  - done.
  - eapply lock_part_ext; [|exact Hl]. by apply kind_insert_same.
  - eapply guard_part_set; [exact Hg|exact Hv|].
    intros h'. rewrite (view_insert ph h p h'). cbn. by rewrite Hp.
Qed.

Lemma inv_unlock w ph ar gr h g wake w' :
  mutex_inv m (MkMutexState w ph ar gr) → ph !! h = Some (PHolding g) →
  release_begin g w = Ok wake w' →
  mutex_inv m (MkMutexState w' (grant wake (<[h := PReleasing g]> ph)) ar
    (gr ++ option_list wake)).
Proof.
  intros Hinv Hh Hrel.
  destruct (release_begin_inv _ _ _ _ _ _ _ _ Hinv Hh Hrel) as (x & _ & _ & Hw' & _).
  assert (Hgs : w' = set_guards (guards w) w') by by rewrite Hw'.
  rewrite Hgs. eapply inv_release; [done..|apply kind_insert|].
  destruct Hinv as (_ & _ & _ & _ & Hg). cbn in Hg.
  eapply guard_part_ext; [|exact Hg].
  apply view_insert_same. cbn. by rewrite Hh.
Qed.

Lemma inv_destroy w ph ar gr h g wake w' w'' :
  mutex_inv m (MkMutexState w ph ar gr) → ph !! h = Some (PHolding g) →
  release_begin g w = Ok wake w' → guard_delete g w' = Ok tt w'' →
  mutex_inv m (MkMutexState w'' (grant wake (delete h ph)) ar (gr ++ option_list wake)).
Proof.
  intros Hinv Hh Hrel [= <-].
  eapply inv_release; [done..|apply kind_delete|].
  destruct (release_begin_inv _ _ _ _ _ _ _ _ Hinv Hh Hrel) as (x & _ & _ & -> & _).
  destruct Hinv as (_ & _ & _ & _ & Hg). cbn in *.
  eapply guard_part_delete; [exact Hg| |apply view_delete]. cbn. by rewrite Hh.
Qed.

Lemma inv_destroy_released w ph ar gr h g w' :
  mutex_inv m (MkMutexState w ph ar gr) → ph !! h = Some (PReleased g) →
  guard_delete g w = Ok tt w' →
  mutex_inv m (MkMutexState w' (delete h ph) ar gr).
Proof.
  intros (x & owner & Hx & Hl & Hg) Hh [= <-]. exists x, owner. cbn in *. split_and!.
  - done.
  - eapply lock_part_ext; [|exact Hl]. intros h'. cbn. rewrite (kind_delete ph h h').
    case_decide; [|done]. subst. by rewrite Hh.
  - eapply guard_part_delete; [exact Hg| |apply view_delete]. cbn. by rewrite Hh.
Qed.

Lemma inv_move w ph ar gr h g g' w' :
  mutex_inv m (MkMutexState w ph ar gr) → ph !! h = Some (PHolding g) →
  guards w !! g' = None → LockGuard_move (S := mutex_world) g' g w = Ok tt w' →
  mutex_inv m (MkMutexState w' (<[h := PHolding g']> ph) ar gr).
Proof.
  intros Hinv Hh Hfresh Hmv.
  pose proof (inv_guard_at _ _ _ _ _ _ _ Hinv Hh eq_refl) as Hgd. cbn in Hgd.
  unfold LockGuard_move, zoom, bind, guard_at, get, deref in Hmv. cbn in Hmv.
  unfold bind in Hmv. rewrite Hgd in Hmv. cbn in Hmv. simplify_eq.
  assert (Hne : g ≠ g') by (intros ->; congruence).
  destruct Hinv as (x & owner & Hx & Hl & Hg). exists x, owner. cbn in *. split_and!.
  - done.
  - eapply lock_part_ext; [|exact Hl]. apply kind_insert_same. by rewrite Hh.
  - assert (Hd : guard_part m (delete g (guards w)) (λ h', guard_view (delete h ph !! h'))).
    { eapply guard_part_delete; [exact Hg| |apply view_delete]. cbn. by rewrite Hh. }
    eapply (guard_part_set _ _ _ (λ h', guard_view (<[h := PHolding g']> ph !! h')) h g' true)
      in Hd.
    + apply (guard_part_clear _ _ _ g) in Hd.
      * replace (<[g := _]> (<[g' := _]> (guards w)))
          with (<[g := MkGuard null false]> (<[g' := MkGuard m true]> (delete g (guards w))));
          [exact Hd|].
        apply map_eq. intros i. rewrite !lookup_insert, lookup_delete. by repeat case_decide.
      * intros h' b. rewrite (view_insert ph h (PHolding g') h'). case_decide; cbn.
        { intros [= -> _]. done. }
        intros Hv. apply H, (gp_inj _ _ _ Hg h' h g b true); [done|]. cbn. by rewrite Hh.
    + left. rewrite lookup_delete_eq, lookup_delete_ne by done. done.
    + intros h'. rewrite (view_insert ph h (PHolding g') h'), (view_delete ph h h').
      by case_decide.
Qed.

Lemma inv_drop_moved w ph ar gr g w' :
  mutex_inv m (MkMutexState w ph ar gr) → guards w !! g = Some (MkGuard null false) →
  guard_delete g w = Ok tt w' →
  mutex_inv m (MkMutexState w' ph ar gr).
Proof.
  intros (x & owner & Hx & Hl & Hg) Hgd [= <-]. exists x, owner. split_and!; try done.
  cbn in *. apply guard_part_drop; [done|]. intros h b Hv.
  apply (gp_guard _ _ _ Hg) in Hv. congruence.
Qed.

Lemma mutex_start_inv : mutex_inv m (mutex_start m).
Proof.
  exists AsyncMutex_init, None. cbn. split_and!.
  - apply lookup_singleton_eq.
  - split; cbn; [done|apply NoDup_nil_2| |done|done|].
    + intros h. rewrite lookup_empty. split; [done|]. by intros ?%not_elem_of_nil.
    + intros h. by rewrite lookup_empty.
  - split; intros h; try done.
Qed.

Lemma mutex_step_inv s s' : mutex_inv m s → mutex_step m s s' → mutex_inv m s'.
Proof.
  intros Hinv Hs. pose proof Hinv as (x & owner & Hx & _ & _).
  destruct Hs; cbn in Hx;
    unfold MutexAwaiter_await_suspend, MutexAwaiter_await_resume, ReLockAwaiter_await_suspend,
      ReLockAwaiter_await_resume, release_end, guard_store, modify in *.
  - rewrite (lock_or_enqueue_eq _ _ _ _ Hx) in H0. simplify_eq.
    eapply (inv_ask _ _ _ _ _ _ None); eauto; by rewrite H.
  - simplify_eq. eapply (inv_guard_step _ _ _ _ _ (PHolding g)); [done|by rewrite H|done|].
    left. by rewrite H.
  - by eapply inv_unlock.
  - pose proof (inv_guard_at _ _ _ _ _ _ _ Hinv H eq_refl) as Hgd.
    unfold guard_at, bind, get, deref in H0. rewrite Hgd in H0. cbn in H0. simplify_eq.
    eapply (inv_guard_step _ _ _ _ _ (PReleased g)); [done|by rewrite H|done|].
    right. rewrite H. cbn. eauto.
  - pose proof (inv_guard_at _ _ _ _ _ _ _ Hinv H eq_refl) as Hgd.
    unfold guard_at, bind, get, deref in H0. rewrite Hgd in H0. cbn in H0.
    rewrite (lock_or_enqueue_eq _ _ _ _ Hx) in H0. simplify_eq.
    eapply (inv_ask _ _ _ _ _ _ (Some g)); eauto; by rewrite H.
  - pose proof (inv_guard_at _ _ _ _ _ _ _ Hinv H eq_refl) as Hgd.
    unfold guard_at, bind, get, deref in H0. rewrite Hgd in H0. cbn in H0. simplify_eq.
    eapply (inv_guard_step _ _ _ _ _ (PHolding g)); [done|by rewrite H|done|].
    right. rewrite H. cbn. eauto.
  - by eapply inv_destroy.
  - by eapply inv_destroy_released.
  - by eapply inv_move.
  - by eapply inv_drop_moved.
Qed.

Lemma mutex_reachable_inv s : mutex_reachable m s → mutex_inv m s.
Proof.
  intros Hr. unfold mutex_reachable in Hr.
  assert (Hi := mutex_start_inv). revert Hi.
  induction Hr; eauto using mutex_step_inv.
Qed.
End steps.
