(* ===== verification/AsyncMutexProps.v ===== *)
(** * Properties of AsyncMutex

    Mutual exclusion, first-come first-served hand-off and progress for any
    interleaving; the functional behaviour of the guard operations. *)

From S2P Require Import Prelude Runtime AsyncMutex AsyncMutexRun.

(** ** Consequences of the invariant *)

Definition owns (s : mutex_state) (h : handle) : Prop :=
  ∃ p, ms_phase s !! h = Some p ∧ critical p = true.

Lemma owns_kind s h : owns s h ↔ kind_of (ms_phase s !! h) = KCritical.
Proof. unfold owns. destruct (ms_phase s !! h) as [[]|]; naive_solver. Qed.

Section consequences.
Context (m : ptr) (Hm : m ≠ null).

Definition mutex_of (s : mutex_state) : AsyncMutex :=
  default AsyncMutex_init (mutexes (ms_world s) !! m).

Lemma reachable_lock s : mutex_reachable m s →
  ∃ owner, lock_part (mutex_of s) (λ h, kind_of (ms_phase s !! h))
    (ms_arrived s) (ms_granted s) owner.
Proof.
  intros (x & owner & Hx & Hl & _)%mutex_reachable_inv; [|done].
  exists owner. unfold mutex_of. by rewrite Hx.
Qed.

(** The request history only grows, and so does the grant history. *)
Lemma mutex_step_history s s' : mutex_step m s s' →
  ms_arrived s `prefix_of` ms_arrived s' ∧ ms_granted s `prefix_of` ms_granted s'.
Proof. by destruct 1; split; cbn; try apply prefix_app_r. Qed.

Lemma mutex_run_history s s' : rtc (mutex_step m) s s' →
  ms_arrived s `prefix_of` ms_arrived s' ∧ ms_granted s `prefix_of` ms_granted s'.
Proof.
  induction 1 as [s|s s1 s' H1 _ [IHa IHg]]; [done|].
  apply mutex_step_history in H1 as [Ha Hg]. split; by etrans.
Qed.

(** What the coroutine that owns the mutex does next is always possible. *)
Lemma owner_step s h : mutex_reachable m s → owns s h →
  ∃ s', mutex_step m s s'.
Proof.
  intros Hr (p & Hp & Hc). pose proof (mutex_reachable_inv m Hm s Hr) as Hinv.
  destruct s as [w ph ar gr]. cbn in Hp.
  pose proof (λ g, inv_guard_at m w ph ar gr h p g) as Hgd.
  destruct p as [o|[g|]|g|g|g]; try done.
  - specialize (Hgd g Hinv Hp eq_refl).
    eexists. eapply mx_relock_resume; [done|].
    unfold ReLockAwaiter_await_resume, guard_at, bind, get, deref. by rewrite Hgd.
  - eexists. eapply (mx_resume _ _ _ _ _ h (fresh (dom (guards w)))); [done| |done].
    apply not_elem_of_dom, is_fresh.
  - specialize (Hgd g Hinv Hp eq_refl). destruct Hinv as (x & _ & Hx & _). cbn in Hx.
    eexists. eapply (mx_unlock _ _ _ _ _ h g); [done|].
    unfold release_begin, guard_at, bind, get, deref. rewrite Hgd. cbn.
    unfold guard_engaged, is_null. cbn. rewrite (proj2 (N.eqb_neq m null) Hm). cbn.
    by apply unlock_locked_eq.
Qed.
End consequences.

(** ** Operations of a guard, in a worker context *)

(** The mutex part of a state after [unlock] of [m], and the handle woken. *)
Definition unlocked (m : ptr) (w : mutex_world) : mutex_world :=
  match mutexes w !! m with
  | Some x => set_mutexes (<[m := MkMutex (if queue_empty (wait_queue_ x) then false
                                           else lock_ x) (tail (wait_queue_ x))]> (mutexes w)) w
  | None => w
  end.
Definition woken (m : ptr) (w : mutex_world) : list handle :=
  match mutexes w !! m with Some x => option_list (head (wait_queue_ x)) | None => [] end.

Section in_context.
Context {S : Type} `{!Runtime S} `{!Lens S mutex_world} `{!RuntimeFrame S mutex_world}.
Context (i : nat).
Implicit Types (s : S).

(** The state after the release an engaged guard makes; a guard that is not
    engaged releases nothing. *)
Definition release (x : LockGuard) (s : S) : S :=
  if guard_engaged x then
    submit_all i (woken (async_mutex_ x) (lget s))
      (lset (unlocked (async_mutex_ x) (lget s)) s)
  else s.

(** The mutex a guard names exists. *)
Definition guard_valid (x : LockGuard) (w : mutex_world) : Prop :=
  guard_engaged x = true → is_Some (mutexes w !! async_mutex_ x).

Lemma AsyncMutex_unlock_in_context m s :
  try_local_context s = Some i → is_Some (mutexes (lget s) !! m) →
  AsyncMutex_unlock m s =
    Ok tt (submit_all i (woken m (lget s)) (lset (unlocked m (lget s)) s)).
Proof.
  intros Hctx [x Hx]. unfold AsyncMutex_unlock, noexcept, woken, unlocked. rewrite Hx.
  erewrite bind_ok; [|apply zoom_ok, (unlock_locked_eq _ _ _ Hx)].
  destruct (wait_queue_ x) as [|h q]; [done|]. cbn [head].
  rewrite (reschedule_in_context _ i); [done|]. by rewrite local_context_lset.
Qed.

Lemma release_in_context x s :
  try_local_context s = Some i → guard_valid x (lget s) →
  (if guard_engaged x then AsyncMutex_unlock (async_mutex_ x) else ret tt) s =
    Ok tt (release x s).
Proof.
  intros Hctx Hv. unfold release. destruct (guard_engaged x) eqn:E; [|done].
  apply AsyncMutex_unlock_in_context; auto.
Qed.

Lemma guards_unlocked m w : guards (unlocked m w) = guards w.
Proof. unfold unlocked. by destruct (mutexes w !! m). Qed.

Lemma guards_release x s : guards (lget (release x s)) = guards (lget s).
Proof.
  unfold release. destruct (guard_engaged x); [|done].
  by rewrite submit_all_frame, lget_lset, guards_unlocked.
Qed.

Lemma zoom_guard_at g (s : S) x : guards (lget s) !! g = Some x →
  zoom (guard_at g) s = Ok x s.
Proof.
  intros Hx. unfold zoom, guard_at, bind, get, deref. rewrite Hx. cbn.
  by rewrite lset_lget.
Qed.

(** Assigning a guard object in the state. *)
Definition put_guard (g : ptr) (x : LockGuard) (s : S) : S :=
  lset (set_guards (<[g := x]> (guards (lget s))) (lget s)) s.

Lemma guards_put_guard g x s :
  guards (lget (put_guard g x s)) = <[g := x]> (guards (lget s)).
Proof. unfold put_guard. by rewrite lget_lset. Qed.
End in_context.

Section guard_lemmas.
Context {S : Type} `{!Runtime S} `{!Lens S mutex_world} `{!RuntimeFrame S mutex_world}.
Context (i : nat).
Implicit Types (s : S).

Lemma LockGuard_unlock_eq g x s :
  try_local_context s = Some i → guards (lget s) !! g = Some x →
  guard_valid x (lget s) →
  LockGuard_unlock g s =
    Ok tt (if guard_engaged x then put_guard g (MkGuard (async_mutex_ x) false) (release i x s)
           else s).
Proof.
  intros Hctx Hx Hv. unfold LockGuard_unlock, noexcept.
  erewrite bind_ok; [|by apply zoom_guard_at].
  pose proof (release_in_context i x s Hctx Hv) as Hr.
  pose proof (guards_release i x s) as Hg.
  destruct (guard_engaged x) eqn:E; [|done].
  erewrite bind_ok; [|exact Hr].
  erewrite bind_ok; [|apply zoom_guard_at; by rewrite Hg]. done.
Qed.

Lemma LockGuard_destroy_eq g x s :
  try_local_context s = Some i → guards (lget s) !! g = Some x →
  guard_valid x (lget s) →
  LockGuard_destroy g s =
    Ok tt (lset (set_guards (delete g (guards (lget (release i x s)))) (lget (release i x s)))
             (release i x s)).
Proof.
  intros Hctx Hx Hv. unfold LockGuard_destroy.
  erewrite bind_ok; [|by apply zoom_guard_at].
  erewrite bind_ok; [|by apply release_in_context]. done.
Qed.

Lemma LockGuard_move_eq this other y s :
  guards (lget s) !! other = Some y →
  LockGuard_move this other s =
    Ok tt (put_guard other (MkGuard null false) (put_guard this y s)).
Proof.
  intros Hy. unfold LockGuard_move. by erewrite bind_ok; [|by apply zoom_guard_at].
Qed.

Lemma LockGuard_move_assign_eq this other x y s :
  try_local_context s = Some i → this ≠ other →
  guards (lget s) !! this = Some x → guards (lget s) !! other = Some y →
  guard_valid x (lget s) →
  LockGuard_move_assign this other s =
    Ok tt (put_guard other (MkGuard null false) (put_guard this y (release i x s))).
Proof.
  intros Hctx Hne Hx Hy Hv. unfold LockGuard_move_assign, noexcept.
  rewrite (proj2 (N.eqb_neq _ _) Hne).
  erewrite bind_ok; [|by apply zoom_guard_at].
  erewrite bind_ok; [|by apply release_in_context].
  erewrite bind_ok; [|apply zoom_guard_at; by rewrite guards_release].
  erewrite bind_ok; [|apply zoom_guard_at; by rewrite guards_release]. done.
Qed.

Lemma LockGuard_move_assign_self g s : LockGuard_move_assign g g s = Ok tt s.
Proof. unfold LockGuard_move_assign, noexcept. by rewrite N.eqb_refl. Qed.
End guard_lemmas.

(** ** A concrete run: 10 locks, 11 queues up, 10 unlocks, 11 has the mutex *)

Section demo.
Let h1 : handle := 10%N.
Let h2 : handle := 11%N.
Let g1 : ptr := 20%N.
Let m : ptr := 1%N.

Definition demo_held : mutex_state :=
  MkMutexState (MkMutexWorld {[1%N := MkMutex true []]} {[20%N := MkGuard 1%N true]})
    {[10%N := PHolding 20%N]} [10%N] [10%N].
Definition demo_contended : mutex_state :=
  MkMutexState (MkMutexWorld {[1%N := MkMutex true [11%N]]} {[20%N := MkGuard 1%N true]})
    (<[11%N := PWaiting None]> {[10%N := PHolding 20%N]}) [10%N; 11%N] [10%N].
Definition demo_released : mutex_state :=
  MkMutexState (MkMutexWorld {[1%N := MkMutex true []]} {[20%N := MkGuard 1%N true]})
    (<[11%N := PGranted None]> {[10%N := PReleasing 20%N]}) [10%N; 11%N] [10%N; 11%N].

Lemma demo_held_reachable : mutex_reachable m demo_held.
Proof.
  eapply rtc_l; [eapply (mx_lock _ _ _ _ _ h1); reflexivity|].
  eapply rtc_l; [eapply (mx_resume _ _ _ _ _ h1 g1); reflexivity|].
  apply rtc_refl.
Defined.

Lemma demo_contended_step : mutex_step m demo_held demo_contended.
Proof. by apply (mx_lock m (ms_world demo_held) (ms_phase demo_held) [h1] [h1] h2 true). Defined.

Lemma demo_contended_reachable : mutex_reachable m demo_contended.
Proof.
  eapply rtc_r; [exact demo_held_reachable|exact demo_contended_step].
Defined.

Lemma demo_released_step : mutex_step m demo_contended demo_released.
Proof.
  by apply (mx_unlock m (ms_world demo_contended) (ms_phase demo_contended) [h1; h2] [h1]
    h1 g1 (Some h2)).
Defined.
End demo.

(** ** Properties *)

(** C10. At most one coroutine owns the mutex at any time, whatever the
    interleaving of [lock], [unlock], [relock], guard moves and guard
    destruction; the flag [lock_] is set exactly while some coroutine owns it.
    (async_mutex.h) *)
Theorem mutex_mutual_exclusion m s : m ≠ null → mutex_reachable m s →
  (∀ h1 h2, owns s h1 → owns s h2 → h1 = h2) ∧
  (lock_ (mutex_of m s) = true ↔ ∃ h, owns s h).
Proof.
  intros Hm Hr. destruct (reachable_lock m Hm s Hr) as [owner Hl]. split.
  - intros h1 h2 H1%owns_kind%(lp_owner _ _ _ _ _ Hl) H2%owns_kind%(lp_owner _ _ _ _ _ Hl).
    congruence.
  - rewrite (lp_lock _ _ _ _ _ Hl), bool_decide_eq_true.
    split; intros [h Hh]; exists h; [apply owns_kind|apply owns_kind in Hh];
      by apply (lp_owner _ _ _ _ _ Hl).
Qed.

Lemma mutex_mutual_exclusion_witness :
  mutex_reachable 1%N demo_held ∧
  (lock_ (mutex_of 1%N demo_held) = true ↔ ∃ h, owns demo_held h).
Proof.
  split; [exact demo_held_reachable|].
  apply (mutex_mutual_exclusion 1%N demo_held); [done|exact demo_held_reachable].
Defined.



(** C32. On a worker thread, [LockGuard::unlock], the destructor and move
    assignment release the mutex of an engaged guard exactly once - waking the
    first waiter by submitting it to the current context - and leave guards
    that own nothing alone; a moved-from guard owns nothing; self-assignment
    does nothing. *)
Theorem guard_operations {S} `{!Runtime S} `{!Lens S mutex_world}
    `{!RuntimeFrame S mutex_world} (i : nat) (s : S) (g other : ptr) x y :
  try_local_context s = Some i → g ≠ other →
  guards (lget s) !! g = Some x → guards (lget s) !! other = Some y →
  guard_valid x (lget s) →
  LockGuard_unlock g s =
    Ok tt (if guard_engaged x then put_guard g (MkGuard (async_mutex_ x) false) (release i x s)
           else s) ∧
  LockGuard_destroy g s =
    Ok tt (lset (set_guards (delete g (guards (lget (release i x s)))) (lget (release i x s)))
             (release i x s)) ∧
  LockGuard_move g other s =
    Ok tt (put_guard other (MkGuard null false) (put_guard g y s)) ∧
  LockGuard_move_assign g other s =
    Ok tt (put_guard other (MkGuard null false) (put_guard g y (release i x s))) ∧
  LockGuard_move_assign g g s = Ok tt s.
Proof.
  intros Hctx Hne Hx Hy Hv. split_and!.
  - by apply LockGuard_unlock_eq.
  - by apply LockGuard_destroy_eq.
  - by apply LockGuard_move_eq.
  - by eapply LockGuard_move_assign_eq.
  - apply LockGuard_move_assign_self.
Qed.

(** The state of [demo_contended] on a worker, with a second, empty guard. *)
Definition demo_worker : worker mutex_world :=
  MkWorker (MkMutexWorld {[1%N := MkMutex true [11%N]]}
    (<[21%N := MkGuard null false]> {[20%N := MkGuard 1%N true]})) [].

Lemma guard_operations_witness :
  LockGuard_unlock 20%N demo_worker =
    Ok tt (MkWorker (MkMutexWorld {[1%N := MkMutex true []]}
      (<[21%N := MkGuard null false]> {[20%N := MkGuard 1%N false]})) [11%N]).
Proof.
  refine (eq_trans (proj1 (guard_operations 0 demo_worker 20%N 21%N
    (MkGuard 1%N true) (MkGuard null false) eq_refl _ eq_refl eq_refl _)) _).
  - done.
  - intros _. by eexists.
  - vm_compute. reflexivity.
Defined.
