(* ===== verification/ConditionVariable.v ===== *)
(** * ConditionVariable (src/include/condition_variable.h)

    The wait queue of a condition variable, the awaiter that enqueues the
    coroutine and releases the guard, [wait] with and without a predicate as a
    coroutine, [notify_one] and [notify_all]. *)

From S2P Require Import Prelude Runtime AsyncMutex.

Record ConditionVariable := MkCv { cv_wait_queue_ : list handle }.
Record cv_world := MkCvWorld { cvs : gmap ptr ConditionVariable }.

#[export] Instance ConditionVariable_eq_dec : EqDecision ConditionVariable.
Proof. solve_decision. Defined.

Definition cv_at (c : ptr) : M cv_world ConditionVariable :=
  let! w := get in deref (cvs w !! c).
Definition cv_store (c : ptr) (q : list handle) : M cv_world unit :=
  modify (λ w, MkCvWorld (<[c := MkCv q]> (cvs w))).

(** ** Blocks under [mtx_] *)

(** The block of [Awaiter::await_suspend]. *)
Definition cv_enqueue (c : ptr) (h : handle) : M cv_world unit :=
  let! x := cv_at c in cv_store c (queue_push h (cv_wait_queue_ x)).

(** [notify_one] up to [lock.unlock()]. *)
Definition notify_one_locked (c : ptr) : M cv_world (option handle) :=
  let! x := cv_at c in
  match cv_wait_queue_ x with
  | h :: q => cv_store c q;;; ret (Some h)
  | [] => ret None
  end.

(** The loop of [notify_all] that moves the queue into [handles]. *)
Fixpoint drain_queue (q handles : list handle) : list handle * list handle :=
  match q with
  | [] => (handles, [])
  | h :: q' => drain_queue q' (handles ++ [h])
  end.

Definition notify_all_locked (c : ptr) : M cv_world (list handle) :=
  let! x := cv_at c in
  let '(handles, q) := drain_queue (cv_wait_queue_ x) [] in
  cv_store c q;;; ret handles.

Definition CvAwaiter_await_ready : bool := false.

(** Where [wait] is suspended, [None] of a finished coroutine being
    [WaitDone]. *)
Inductive wait_pc :=
| WaitStart        (** not started *)
| WaitNotify       (** suspended in the condition variable's queue *)
| WaitRelock       (** suspended in the mutex's queue *)
| WaitDone.

#[export] Instance wait_pc_eq_dec : EqDecision wait_pc.
Proof. solve_decision. Defined.

Section with_runtime.
Context {S : Type} `{!Runtime S} `{!Lens S mutex_world} `{!Lens S cv_world}.

Definition CvAwaiter_await_suspend (c g : ptr) (h : handle) : M S bool :=
  noexcept (
    zoom (cv_enqueue c h);;;
    LockGuard_unlock g;;;
    ret true).

Definition CvAwaiter_await_resume : M S unit := ret tt.

Definition notify_one (c : ptr) : M S unit :=
  noexcept (
    let! next := zoom (notify_one_locked c) in
    match next with
    | Some h => reschedule_or_resume h
    | None => ret tt
    end).

Definition notify_all (c : ptr) : M S unit :=
  noexcept (
    let! handles := zoom (notify_all_locked c) in
    reschedule_all handles).

(** ** The coroutine [wait(guard, op)], run from one suspension point to the
    next; [h] is its handle *)

Section wait.
Context (c g : ptr) (h : handle) (op : M S bool).

(** [co_await Awaiter{this, guard}], up to its suspension. *)
Definition wait_suspend : M S wait_pc :=
  let! _ := CvAwaiter_await_suspend c g h in ret WaitNotify.

(** The loop head. *)
Definition wait_test : M S wait_pc :=
  let! b := op in
  if Bool.eqb b false then wait_suspend else ret WaitDone.

(** [co_await guard.relock()] and what follows it. *)
Definition wait_relock (k : M S wait_pc) : M S wait_pc :=
  let! b := zoom (ReLockAwaiter_await_suspend g h) in
  if b then ret WaitRelock else zoom (ReLockAwaiter_await_resume g);;; k.

Definition wait_predicate (pc : wait_pc) : M S wait_pc :=
  match pc with
  | WaitStart => wait_test
  | WaitNotify => CvAwaiter_await_resume;;; wait_relock wait_test
  | WaitRelock => zoom (ReLockAwaiter_await_resume g);;; wait_test
  | WaitDone => undefined
  end.

(** [wait(guard)]: no predicate, no loop. *)
Definition wait (pc : wait_pc) : M S wait_pc :=
  match pc with
  | WaitStart => wait_suspend
  | WaitNotify => CvAwaiter_await_resume;;; wait_relock (ret WaitDone)
  | WaitRelock => zoom (ReLockAwaiter_await_resume g);;; ret WaitDone
  | WaitDone => undefined
  end.
End wait.
End with_runtime.
