(* ===== verification/ConditionVariableProps.v ===== *)
(** * Properties of ConditionVariable

    The awaiter and the notifications on every branch; [wait] as a client of
    the mutex protocol; the window between enqueuing and [owns_lock_ = false]. *)

From S2P Require Import Prelude Runtime AsyncMutex AsyncMutexRun AsyncMutexProps ConditionVariable.

Lemma drain_queue_eq q acc : drain_queue q acc = (acc ++ q, []).
Proof.
  revert acc. induction q as [|h q IH]; intros acc; cbn; [by rewrite app_nil_r|].
  by rewrite IH, <- app_assoc.
Qed.

(** The condition-variable part with a new queue for [c]. *)
Definition with_queue (c : ptr) (q : list handle) (w : cv_world) : cv_world :=
  MkCvWorld (<[c := MkCv q]> (cvs w)).

Lemma cv_enqueue_eq c h w q : cvs w !! c = Some (MkCv q) →
  cv_enqueue c h w = Ok tt (with_queue c (q ++ [h]) w).
Proof. intros Hc. unfold cv_enqueue, cv_at, bind, get, deref. by rewrite Hc. Qed.

Lemma notify_one_locked_eq c w q : cvs w !! c = Some (MkCv q) →
  notify_one_locked c w =
    Ok (head q) (match q with [] => w | _ :: q' => with_queue c q' w end).
Proof.
  intros Hc. unfold notify_one_locked, cv_at, bind, get, deref. rewrite Hc.
  by destruct q.
Qed.

Lemma notify_all_locked_eq c w q : cvs w !! c = Some (MkCv q) →
  notify_all_locked c w = Ok q (with_queue c [] w).
Proof.
  intros Hc. unfold notify_all_locked, cv_at, bind, get, deref. rewrite Hc. cbn.
  by rewrite drain_queue_eq.
Qed.

Section cv.
Context {S : Type} `{!Runtime S} `{!Lens S mutex_world} `{!Lens S cv_world}
  `{!RuntimeFrame S mutex_world} `{!RuntimeFrame S cv_world}
  `{!LensDisjoint S mutex_world cv_world}.
Context (i : nat).
Implicit Types (s : S).

Abbreviation mtx s := (lget s : mutex_world) (only parsing).
Abbreviation cvw s := (lget s : cv_world) (only parsing).

(** [h] appended to the queue of [c]. *)
Definition enqueued (c : ptr) (h : handle) (s : S) : S :=
  match cvs (lget s) !! c with
  | Some x => lset (with_queue c (cv_wait_queue_ x ++ [h]) (lget s)) s
  | None => s
  end.

(** The state after [guard.unlock()]. *)
Definition guard_unlocked (g : ptr) (s : S) : S :=
  match guards (lget s) !! g with
  | Some x => if guard_engaged x
              then put_guard g (MkGuard (async_mutex_ x) false) (release i x s) else s
  | None => s
  end.

Lemma enqueued_mutex c h s : mtx (enqueued c h s) = mtx s.
Proof.
  unfold enqueued. destruct (cvs (lget s) !! c); [|done].
  apply (lget_lset_r (A := mutex_world)).
Qed.

Lemma enqueued_context c h s :
  try_local_context (enqueued c h s) = try_local_context s.
Proof.
  unfold enqueued. destruct (cvs (lget s) !! c); [|done]. apply local_context_lset.
Qed.

Lemma release_context x s : try_local_context (release i x s) = try_local_context s.
Proof.
  unfold release. destruct (guard_engaged x); [|done].
  by rewrite (submit_all_context (A := mutex_world)), local_context_lset.
Qed.

Lemma release_cv x s : cvw (release i x s) = cvw s.
Proof.
  unfold release. destruct (guard_engaged x); [|done].
  by rewrite submit_all_frame, lget_lset_l.
Qed.

Lemma guard_unlocked_context g s :
  try_local_context (guard_unlocked g s) = try_local_context s.
Proof.
  unfold guard_unlocked. destruct (guards (lget s) !! g) as [x|]; [|done].
  destruct (guard_engaged x); [|done].
  unfold put_guard. by rewrite local_context_lset, release_context.
Qed.

Lemma guard_unlocked_cv g s : cvw (guard_unlocked g s) = cvw s.
Proof.
  unfold guard_unlocked. destruct (guards (lget s) !! g) as [x|]; [|done].
  destruct (guard_engaged x); [|done].
  unfold put_guard. by rewrite lget_lset_l, release_cv.
Qed.

Lemma CvAwaiter_await_suspend_eq c g h x s :
  try_local_context s = Some i → is_Some (cvs (lget s) !! c) →
  guards (lget s) !! g = Some x → guard_valid x (lget s) →
  CvAwaiter_await_suspend c g h s = Ok true (guard_unlocked g (enqueued c h s)).
Proof.
  intros Hctx [[q] Hc] Hx Hv. unfold CvAwaiter_await_suspend, noexcept.
  assert (Ee : zoom (cv_enqueue c h) s = Ok tt (enqueued c h s)).
  { unfold enqueued. rewrite Hc. by apply zoom_ok, cv_enqueue_eq. }
  rewrite (bind_ok _ _ _ _ _ Ee).
  pose proof (enqueued_mutex c h s) as Hm.
  erewrite bind_ok; [|apply (LockGuard_unlock_eq i g x)].
  - unfold guard_unlocked. rewrite Hm, Hx. done.
  - by rewrite enqueued_context.
  - by rewrite Hm.
  - by rewrite Hm.
Qed.

Lemma notify_one_eq c q s :
  try_local_context s = Some i → cvs (lget s) !! c = Some (MkCv q) →
  notify_one c s =
    Ok tt (match q with
           | [] => s
           | h :: q' => submit_all i [h] (lset (with_queue c q' (lget s)) s)
           end).
Proof.
  intros Hctx Hc. unfold notify_one, noexcept.
  erewrite bind_ok; [|by apply zoom_ok, notify_one_locked_eq].
  destruct q as [|h q]; cbn [head]; [by rewrite lset_lget|].
  rewrite (reschedule_in_context _ i); [done|]. by rewrite local_context_lset.
Qed.

Lemma notify_all_eq c q s :
  try_local_context s = Some i → cvs (lget s) !! c = Some (MkCv q) →
  notify_all c s = Ok tt (submit_all i q (lset (with_queue c [] (lget s)) s)).
Proof.
  intros Hctx Hc. unfold notify_all, noexcept.
  erewrite bind_ok; [|by apply zoom_ok, notify_all_locked_eq].
  rewrite (reschedule_all_in_context (A := cv_world) _ i); [done|].
  by rewrite local_context_lset.
Qed.

(** ** [wait] as a client of the mutex *)

Context (m : ptr) (Hm : m ≠ null).

(** [ms] describes the mutex part of [s], and [h] is in phase [p]. *)
Definition at_phase (ms : mutex_state) (h : handle) (p : phase) (s : S) : Prop :=
  ms_world ms = lget s ∧ ms_phase ms !! h = Some p.

Lemma grant_other wake ph (h : handle) p :
  ph !! h = Some p → (∀ o, p ≠ PWaiting o) → grant wake ph !! h = Some p.
Proof.
  intros Hp Hne. unfold grant. destruct wake as [w|]; [|done].
  destruct (ph !! w) as [[]|] eqn:E; try done.
  destruct (decide (w = h)) as [->|]; [|by rewrite lookup_insert_ne].
  rewrite Hp in E. injection E as ->. by destruct (Hne o).
Qed.

Lemma at_phase_guard ms h p g s :
  mutex_reachable m ms → at_phase ms h p s → phase_guard p = Some g →
  guards (lget s) !! g = Some (MkGuard m (phase_owns p)).
Proof.
  intros Hr%mutex_reachable_inv [Hw Hp] Hg; [|done]. destruct ms as [w ph ar gr].
  cbn in *. rewrite <- Hw. by eapply inv_guard_at.
Qed.

Lemma at_phase_mutex ms s :
  mutex_reachable m ms → ms_world ms = lget s →
  ∃ x, mutexes (lget s) !! m = Some x.
Proof. intros (x & _ & Hx & _)%mutex_reachable_inv <-; eauto. Qed.

Lemma engaged_holding : guard_engaged (MkGuard m true) = true.
Proof. unfold guard_engaged, is_null. cbn. by rewrite (proj2 (N.eqb_neq m null) Hm). Qed.

(** [guard.unlock()] is two steps of the mutex: the hand-over, then
    [owns_lock_ = false]. *)
Lemma guard_unlocked_steps ms h g s :
  mutex_reachable m ms → at_phase ms h (PHolding g) s →
  ∃ ms', rtc (mutex_step m) ms ms' ∧ at_phase ms' h (PReleased g) (guard_unlocked g s).
Proof.
  intros Hr Hat. pose proof (at_phase_guard _ _ _ _ _ Hr Hat eq_refl) as Hg.
  destruct (at_phase_mutex _ _ Hr (proj1 Hat)) as [x Hx].
  destruct ms as [w ph ar gr], Hat as [Hw Hp]. cbn in Hw, Hp, Hg. subst w.
  assert (Hrel : release_begin g (lget s) =
    Ok (head (wait_queue_ x)) (unlocked m (lget s))).
  { unfold release_begin. erewrite bind_ok; [|unfold guard_at, bind, get; by rewrite Hg].
    rewrite engaged_holding. unfold unlocked. rewrite Hx. by apply unlock_locked_eq. }
  assert (Hlget : mtx (release i (MkGuard m true) s) = unlocked m (lget s)).
  { unfold release. rewrite engaged_holding. by rewrite submit_all_frame, lget_lset. }
  eexists. split.
  - eapply rtc_l; [eapply mx_unlock; [done|exact Hrel]|].
    eapply rtc_once, (mx_unlock_end _ _ _ _ _ h g).
    + apply grant_other; [apply lookup_insert_eq|done].
    + unfold release_end, guard_at, bind, get, deref. rewrite guards_unlocked, Hg. done.
  - split; cbn [ms_world ms_phase]; [|apply lookup_insert_eq].
    unfold guard_unlocked. rewrite Hg, engaged_holding.
    unfold put_guard. by rewrite lget_lset, Hlget.
Qed.

Context (c g : ptr) (h : handle) (op : M S bool).

(** The calling thread runs in context [i] and the condition variable exists. *)
Definition cv_ok (s : S) : Prop :=
  try_local_context s = Some i ∧ is_Some (cvs (lget s) !! c).

(** The predicate returns, and changes neither the mutex nor the context. *)
Definition predicate_ok : Prop :=
  ∀ s, cv_ok s → ∃ b s', op s = Ok b s' ∧ mtx s' = mtx s ∧ cv_ok s'.

(** The phase of the coroutine when [wait] is resumed at [pc], and when it
    stops there. *)
Definition entry_phase (pc : wait_pc) : phase :=
  match pc with
  | WaitStart | WaitDone => PHolding g
  | WaitNotify => PReleased g
  | WaitRelock => PGranted (Some g)
  end.
Definition exit_phase (pc : wait_pc) : phase :=
  match pc with
  | WaitRelock => PWaiting (Some g)
  | pc => entry_phase pc
  end.

(** [k] run from [s] reaches its next suspension point by steps of the mutex;
    [P] holds of the final state if [wait] is done there. *)
Definition wait_runs (P : S → Prop) (k : M S wait_pc) (ms : mutex_state) (s : S) : Prop :=
  ∃ pc s' ms', k s = Ok pc s' ∧ rtc (mutex_step m) ms ms' ∧
    at_phase ms' h (exit_phase pc) s' ∧ cv_ok s' ∧ (pc = WaitDone → P s').

Lemma rtc_reachable ms ms' :
  mutex_reachable m ms → rtc (mutex_step m) ms ms' → mutex_reachable m ms'.
Proof. unfold mutex_reachable. intros. by etrans. Qed.

Lemma wait_suspend_runs P ms s :
  mutex_reachable m ms → cv_ok s → at_phase ms h (PHolding g) s →
  wait_runs P (wait_suspend c g h) ms s.
Proof.
  intros Hr [Hctx Hc] Hat.
  pose proof (at_phase_guard _ _ _ _ _ Hr Hat eq_refl) as Hg.
  destruct (at_phase_mutex _ _ Hr (proj1 Hat)) as [x Hx].
  assert (Hat' : at_phase ms h (PHolding g) (enqueued c h s)).
  { destruct Hat as [Hw Hp]. split; [|done]. by rewrite enqueued_mutex. }
  destruct (guard_unlocked_steps _ _ _ _ Hr Hat') as (ms' & Hrun & Hat'').
  eexists WaitNotify, _, ms'. split_and!; [|done..| |done].
  - unfold wait_suspend.
    erewrite bind_ok; [|eapply (CvAwaiter_await_suspend_eq _ _ _ (MkGuard m true)); try done];
      [done|]. intros _. by exists x.
  - split; [by rewrite guard_unlocked_context, enqueued_context|].
    rewrite guard_unlocked_cv. unfold enqueued. destruct Hc as [q Hc]. rewrite Hc.
    rewrite lget_lset. cbn. rewrite lookup_insert_eq. by eexists.
Qed.

Lemma wait_test_runs ms s :
  predicate_ok → mutex_reachable m ms → cv_ok s → at_phase ms h (PHolding g) s →
  wait_runs (λ s', ∃ s0, op s0 = Ok true s') (wait_test c g h op) ms s.
Proof.
  intros Hop Hr Hok [Hw Hp]. destruct (Hop s Hok) as (b & s1 & Hb & Hm1 & Hok1).
  unfold wait_runs, wait_test. rewrite (bind_ok _ _ _ _ _ Hb). destruct b; cbn.
  - exists WaitDone, s1, ms. split_and!; try done; [|by eexists]. split; [congruence|done].
  - apply wait_suspend_runs; [done..|]. split; [congruence|done].
Qed.

Lemma relock_resume_runs P k ms s :
  mutex_reachable m ms → cv_ok s → at_phase ms h (PGranted (Some g)) s →
  (∀ ms' s', mutex_reachable m ms' → cv_ok s' → at_phase ms' h (PHolding g) s' →
     wait_runs P k ms' s') →
  wait_runs P (zoom (ReLockAwaiter_await_resume g);;; k) ms s.
Proof.
  intros Hr [Hctx Hc] Hat Hk.
  pose proof (at_phase_guard _ _ _ _ _ Hr Hat eq_refl) as Hg.
  assert (Hres : ReLockAwaiter_await_resume g (mtx s) =
    Ok tt (set_guards (<[g := MkGuard m true]> (guards (lget s))) (lget s))).
  { unfold ReLockAwaiter_await_resume, guard_at, bind, get. by rewrite Hg. }
  destruct ms as [w ph ar gr], Hat as [Hw Hp]. cbn in Hw, Hp. subst w.
  assert (Hstep := mx_relock_resume m _ _ ar gr _ _ _ Hp Hres).
  unfold wait_runs. erewrite bind_ok; [|apply zoom_ok, Hres].
  edestruct (Hk _ (lset (set_guards (<[g := MkGuard m true]> (guards (lget s))) (mtx s)) s)
    (rtc_reachable _ _ Hr (rtc_once _ _ Hstep)))
    as (pc & s' & ms' & Hrun & Hsteps & Hrest).
  - split; [by rewrite local_context_lset|]. by rewrite lget_lset_l.
  - split; cbn; [by rewrite lget_lset|apply lookup_insert_eq].
  - exists pc, s', ms'. split_and!; try done; try apply Hrest.
    eapply rtc_l; [exact Hstep|exact Hsteps].
Qed.

Lemma wait_relock_runs P k ms s :
  mutex_reachable m ms → cv_ok s → at_phase ms h (PReleased g) s →
  (∀ ms' s', mutex_reachable m ms' → cv_ok s' → at_phase ms' h (PHolding g) s' →
     wait_runs P k ms' s') →
  wait_runs P (wait_relock g h k) ms s.
Proof.
  intros Hr [Hctx Hc] Hat Hk.
  pose proof (at_phase_guard _ _ _ _ _ Hr Hat eq_refl) as Hg.
  destruct (at_phase_mutex _ _ Hr (proj1 Hat)) as [x Hx].
  assert (Hres : ∃ w', ReLockAwaiter_await_suspend g h (mtx s) = Ok (lock_ x) w').
  { eexists. unfold ReLockAwaiter_await_suspend, guard_at.
    erewrite bind_ok; [|unfold bind, get; by rewrite Hg]. by apply lock_or_enqueue_eq. }
  destruct Hres as [w' Hres].
  destruct ms as [w ph ar gr], Hat as [Hw Hp]. cbn in Hw, Hp. subst w.
  assert (Hstep := mx_relock m _ _ ar gr _ _ _ _ Hp Hres).
  assert (Hr' := rtc_reachable _ _ Hr (rtc_once _ _ Hstep)).
  assert (Hok' : cv_ok (lset w' s)).
  { split; [by rewrite local_context_lset|]. by rewrite lget_lset_l. }
  unfold wait_runs, wait_relock. erewrite bind_ok; [|apply zoom_ok, Hres].
  destruct (lock_ x).
  - eexists WaitRelock, _, _. split_and!; [done|by apply rtc_once| |done|done].
    split; cbn; [by rewrite lget_lset|apply lookup_insert_eq].
  - destruct (relock_resume_runs P k _ _ Hr' Hok') as (pc & s' & ms' & Hrun & Hsteps & Hrest).
    + split; cbn; [by rewrite lget_lset|apply lookup_insert_eq].
    + done.
    + exists pc, s', ms'. split_and!; try done; try apply Hrest.
      eapply rtc_l; [exact Hstep|exact Hsteps].
Qed.
End cv.

(** ** A concrete state: mutex 1 held through guard 20 by coroutine 10,
    condition variable 2 *)

Abbreviation cv_worker := (worker (mutex_world * cv_world)) (only parsing).

#[local] Instance demo_lens_mutex : Lens cv_worker mutex_world :=
  lens_compose (worker_lens _) (lens_fst _ _).
#[local] Instance demo_lens_cv : Lens cv_worker cv_world :=
  lens_compose (worker_lens _) (lens_snd _ _).
#[local] Instance demo_frame_mutex : RuntimeFrame cv_worker mutex_world.
Proof. by split. Qed.
#[local] Instance demo_frame_cv : RuntimeFrame cv_worker cv_world.
Proof. by split. Qed.
#[local] Instance demo_disjoint : LensDisjoint cv_worker mutex_world cv_world.
Proof. by split. Qed.

Definition demo_cv (q : list handle) : cv_worker :=
  MkWorker (ms_world demo_contended, MkCvWorld {[2%N := MkCv q]}) [].

(** The coroutine whose handle is [h] suspends in [await_suspend] ... *)
Definition race_suspender (c g : ptr) (h : handle) : list (M cv_worker unit) :=
  [ zoom (cv_enqueue c h);
    (let! wake := zoom (release_begin g) in
     match wake with Some h' => reschedule_or_resume h' | None => ret tt end);
    zoom (release_end g) ].

(** ... while another thread notifies, and a worker resumes it. *)
Definition race_resumer (c g : ptr) (h : handle) : list (M cv_worker unit) :=
  [ notify_one c;
    (let! b := zoom (ReLockAwaiter_await_suspend g h) in
     if b then undefined else ret tt);
    zoom (ReLockAwaiter_await_resume g) ].

Definition race_start : cv_worker :=
  MkWorker (ms_world demo_held, MkCvWorld {[2%N := MkCv []]}) [].

(** ** Properties *)

(** [co_await Awaiter{cv, guard}] puts the coroutine at the end of the
    condition variable's queue, hands the guard's mutex to the mutex's next
    waiter (or frees it), disengages the guard, and always suspends. *)
Theorem cv_await_suspend {S} `{!Runtime S} `{!Lens S mutex_world} `{!Lens S cv_world}
    `{!RuntimeFrame S mutex_world} `{!RuntimeFrame S cv_world}
    `{!LensDisjoint S mutex_world cv_world}
    (i : nat) (s : S) (c g : ptr) (h : handle) q x :
  try_local_context s = Some i → cvs (lget s) !! c = Some (MkCv q) →
  guards (lget s) !! g = Some x → guard_valid x (lget s) → guard_engaged x = true →
  ∃ s', CvAwaiter_await_suspend c g h s = Ok true s' ∧
    cvs (lget s') = <[c := MkCv (q ++ [h])]> (cvs (lget s)) ∧
    mutexes (lget s') = mutexes (unlocked (async_mutex_ x) (lget s)) ∧
    guards (lget s') = <[g := MkGuard (async_mutex_ x) false]> (guards (lget s)).
Proof.
  intros Hctx Hc Hx Hv He. eexists. split.
  { eapply (CvAwaiter_await_suspend_eq i); [done|by eexists|done|done]. }
  assert (Hen : lget (enqueued c h s) = with_queue c (q ++ [h]) (lget s)).
  { unfold enqueued. rewrite Hc. by rewrite lget_lset. }
  split_and!.
  - by rewrite guard_unlocked_cv, Hen.
  - unfold guard_unlocked, put_guard. rewrite enqueued_mutex, Hx, He, lget_lset. cbn.
    unfold release. rewrite He, submit_all_frame, lget_lset. by rewrite enqueued_mutex.
  - unfold guard_unlocked. rewrite enqueued_mutex, Hx, He, guards_put_guard, guards_release.
    by rewrite enqueued_mutex.
Qed.

Lemma cv_await_suspend_witness :
  ∃ s', CvAwaiter_await_suspend 2%N 20%N 10%N (demo_cv [9%N]) = Ok true s' ∧
    cvs (lget s') = {[2%N := MkCv [9%N; 10%N]]}.
Proof.
  destruct (cv_await_suspend 0 (demo_cv [9%N]) 2%N 20%N 10%N [9%N] (MkGuard 1%N true))
    as (s' & H1 & H2 & _); try reflexivity; [intros _; by eexists|].
  exists s'. split; [exact H1|]. rewrite H2. reflexivity.
Defined.

(** On a worker thread [notify_one] removes exactly the first waiter and
    schedules it, and does nothing when there is none; [notify_all] empties the
    queue and schedules every waiter, in the order in which they waited. *)
Theorem cv_notify {S} `{!Runtime S} `{!Lens S cv_world} `{!RuntimeFrame S cv_world}
    (i : nat) (s : S) (c : ptr) q :
  try_local_context s = Some i → cvs (lget s) !! c = Some (MkCv q) →
  notify_one c s =
    Ok tt (match q with
           | [] => s
           | h :: q' => submit_all i [h] (lset (with_queue c q' (lget s)) s)
           end) ∧
  notify_all c s = Ok tt (submit_all i q (lset (with_queue c [] (lget s)) s)).
Proof. intros Hctx Hc. split; [by apply notify_one_eq|by apply notify_all_eq]. Qed.

Lemma cv_notify_witness :
  notify_all 2%N (demo_cv [9%N; 10%N]) =
    Ok tt (MkWorker (ms_world demo_contended, MkCvWorld {[2%N := MkCv []]}) [9%N; 10%N]).
Proof.
  exact (proj2 (cv_notify 0 (demo_cv [9%N; 10%N]) 2%N [9%N; 10%N] eq_refl eq_refl)).
Defined.

(** C21. [wait(guard, op)], entered with the lock held, runs from one
    suspension point to the next without undefined behaviour and only by steps
    the mutex allows; each time it stops it waits in one of the two queues, or
    it is done: then it holds the lock and the predicate's last evaluation
    returned true.  [wait(guard)] likewise, without the predicate. *)
Theorem cv_wait_protocol {S} `{!Runtime S} `{!Lens S mutex_world} `{!Lens S cv_world}
    `{!RuntimeFrame S mutex_world} `{!RuntimeFrame S cv_world}
    `{!LensDisjoint S mutex_world cv_world}
    (i : nat) (m c g : ptr) (h : handle) (op : M S bool) pc ms (s : S) :
  m ≠ null → predicate_ok i c op → mutex_reachable m ms → cv_ok i c s →
  pc ≠ WaitDone → at_phase ms h (entry_phase g pc) s →
  wait_runs i m c g h (λ s', ∃ s0, op s0 = Ok true s') (wait_predicate c g h op pc) ms s ∧
  wait_runs i m c g h (λ _, True) (wait c g h pc) ms s.
Proof.
  intros Hm Hop Hr Hok Hpc Hat. split.
  - destruct pc; cbn [entry_phase] in Hat; [|..|done].
    + by apply wait_test_runs.
    + apply (wait_relock_runs i m Hm); try done. intros; by apply wait_test_runs.
    + apply (relock_resume_runs i m Hm); try done. intros; by apply wait_test_runs.
  - assert (Hdone : ∀ ms' s', mutex_reachable m ms' → cv_ok i c s' →
      at_phase ms' h (PHolding g) s' →
      wait_runs i m c g h (λ _, True) (ret WaitDone) ms' s').
    { intros ms' s' _ Hok' Hat'. exists WaitDone, s', ms'. by split_and!. }
    destruct pc; cbn [entry_phase] in Hat; [|..|done].
    + by apply wait_suspend_runs.
    + by apply (wait_relock_runs i m Hm).
    + by apply (relock_resume_runs i m Hm).
Qed.

Lemma cv_wait_protocol_witness :
  wait_runs 0 1%N 2%N 20%N 10%N (λ s', ∃ s0 : cv_worker, ret true s0 = Ok true s')
    (wait_predicate 2%N 20%N 10%N (ret true) WaitStart) demo_contended (demo_cv []).
Proof.
  apply (cv_wait_protocol 0 1%N 2%N 20%N 10%N (ret true) WaitStart demo_contended);
    [done|intros s Hs; by exists true, s|exact demo_contended_reachable|by split; [|eexists]
    |done|by split].
Defined.

(** C36. Run alone, the three atomic parts of the suspending thread are
    [await_suspend].  But that thread and a notification can interleave so that
    [owns_lock_ = false] in [LockGuard::unlock] overwrites the
    [owns_lock_ = true] of the relock: the coroutine ends up resumed with the
    mutex locked, no one waiting for it, and a guard that claims not to own
    it, whose destructor then leaves the mutex locked for good. *)
Theorem cv_notify_races_with_unlock :
  (run_parts (race_suspender 2%N 20%N 10%N);;; ret true) race_start =
    CvAwaiter_await_suspend 2%N 20%N 10%N race_start ∧
  ∃ parts s', interleave (race_suspender 2%N 20%N 10%N) (race_resumer 2%N 20%N 10%N) parts ∧
    run_parts parts race_start = Ok tt s' ∧
    mutexes (lget s') !! 1%N = Some (MkMutex true []) ∧
    guards (lget s') !! 20%N = Some (MkGuard 1%N false) ∧
    ∃ s'', LockGuard_destroy 20%N s' = Ok tt s'' ∧
      mutexes (lget s'') !! 1%N = Some (MkMutex true []).
Proof.
  split; [vm_compute; reflexivity|].
  eexists. eexists. split.
  { unfold race_suspender, race_resumer.
    apply interleave_l, interleave_l, interleave_r, interleave_r, interleave_r, interleave_l,
      interleave_nil. }
  split; [vm_compute; reflexivity|]. split; [vm_compute; reflexivity|].
  split; [vm_compute; reflexivity|]. eexists.
  split; vm_compute; reflexivity.
Qed.
