(* ===== verification/WaitGroup.v ===== *)
(** * WaitGroup (src/include/wait_group.h)

    The counter, the queue of waiting coroutines, [add], [done] and the
    awaiter; then any interleaving of them. *)

From S2P Require Import Prelude Runtime.

(** [count_] is a [std::atomic<int>]: its arithmetic wraps. *)
Record WaitGroup := MkWaitGroup { count_ : Z; wg_wait_queue_ : list handle }.

#[export] Instance WaitGroup_eq_dec : EqDecision WaitGroup.
Proof. solve_decision. Defined.

Definition WaitGroup_init : WaitGroup := MkWaitGroup 0 [].

(** ** Awaiter *)

(** [await_ready] reads [count_] without the mutex. *)
Definition WgAwaiter_await_ready : M WaitGroup bool := gets (λ w, (count_ w =? 0)%Z).

Definition WgAwaiter_await_suspend (h : handle) : M WaitGroup bool :=
  let! w := get in
  if (count_ w =? 0)%Z then ret false
  else put (MkWaitGroup (count_ w) (queue_push h (wg_wait_queue_ w)));;; ret true.

Definition WgAwaiter_await_resume : M WaitGroup unit := ret tt.

(** ** Member functions *)

Definition wg_add (n : Z) : M WaitGroup unit :=
  modify (λ w, MkWaitGroup (i32 (count_ w + n)) (wg_wait_queue_ w)).

(** The loop of [done] that moves the queue into [handles]. *)
Fixpoint wg_drain (q handles : list handle) : list handle * list handle :=
  match q with
  | [] => (handles, [])
  | h :: q' => wg_drain q' (handles ++ [h])
  end.

(** [done] up to [lock.unlock()]: the handles to resume. *)
Definition wg_done_locked : M WaitGroup (list handle) :=
  let! w := get in
  if (count_ w =? 0)%Z then throw (runtime_error "count is zero")
  else
    let count := i32 (count_ w - 1) in
    put (MkWaitGroup count (wg_wait_queue_ w));;;
    if (count =? 0)%Z then
      let '(handles, q) := wg_drain (wg_wait_queue_ w) [] in
      put (MkWaitGroup count q);;; ret handles
    else ret [].

Definition wg_done {S} `{!Runtime S} `{!Lens S WaitGroup} : M S unit :=
  let! handles := zoom wg_done_locked in
  reschedule_all handles.

(** ** Any interleaving

    Each step is one critical section or one atomic read; [wg_suspended] is
    every coroutine that ever suspended, [wg_woken] those resumed by [done]. *)

Record wg_state := MkWgState {
  wg_group : WaitGroup;
  wg_suspended : list handle;
  wg_woken : list handle;
}.

(** A use of the group: [add] is given a positive number that does not
    overflow the counter. *)
Inductive wg_step : wg_state → wg_state → Prop :=
| wg_step_add w su wo n w' : (0 < n)%Z → (count_ w + n < 2 ^ 31)%Z →
    wg_add n w = Ok tt w' →
    wg_step (MkWgState w su wo) (MkWgState w' su wo)
| wg_step_done w su wo hs w' : wg_done_locked w = Ok hs w' →
    wg_step (MkWgState w su wo) (MkWgState w' su (wo ++ hs))
| wg_step_done_throw w su wo e w' : wg_done_locked w = Throw e w' →
    wg_step (MkWgState w su wo) (MkWgState w' su wo)
| wg_step_ready w su wo b w' : WgAwaiter_await_ready w = Ok b w' →
    wg_step (MkWgState w su wo) (MkWgState w' su wo)
| wg_step_suspend w su wo h b w' : WgAwaiter_await_suspend h w = Ok b w' →
    wg_step (MkWgState w su wo)
      (MkWgState w' (if b then su ++ [h] else su) wo).

Definition wg_start : wg_state := MkWgState WaitGroup_init [] [].
Definition wg_reachable : wg_state → Prop := rtc wg_step wg_start.

(** ** Lemmas *)

Lemma wg_drain_eq q acc : wg_drain q acc = (acc ++ q, []).
Proof.
  revert acc. induction q as [|h q IH]; intros acc; cbn; [by rewrite app_nil_r|].
  by rewrite IH, <- app_assoc.
Qed.

Lemma wg_done_locked_zero q :
  wg_done_locked (MkWaitGroup 0 q) = Throw (runtime_error "count is zero") (MkWaitGroup 0 q).
Proof. done. Qed.

Lemma wg_done_locked_pos n q : (0 < n < 2 ^ 31)%Z →
  wg_done_locked (MkWaitGroup n q) =
    if (n =? 1)%Z then Ok q (MkWaitGroup 0 []) else Ok [] (MkWaitGroup (n - 1) q).
Proof.
  intros Hn. unfold wg_done_locked, bind, get, put. cbn [count_ wg_wait_queue_].
  rewrite (proj2 (Z.eqb_neq n 0)) by lia. rewrite i32_small by lia.
  destruct (Z.eqb_spec n 1) as [->|Hne].
  - rewrite Z.sub_diag, wg_drain_eq. done.
  - by rewrite (proj2 (Z.eqb_neq (n - 1) 0)) by lia.
Qed.

(** While coroutines wait the count is positive, so a later [done] wakes them. *)
Record wg_inv (s : wg_state) : Prop := {
  wgi_count : (0 ≤ count_ (wg_group s) < 2 ^ 31)%Z;
  wgi_queue : count_ (wg_group s) = 0%Z → wg_wait_queue_ (wg_group s) = [];
  wgi_split : wg_suspended s = wg_woken s ++ wg_wait_queue_ (wg_group s);
}.

Lemma wg_step_inv s s' : wg_inv s → wg_step s s' → wg_inv s'.
Proof.
  intros [H1 H2 H3] Hs. destruct Hs; cbn [wg_group wg_suspended wg_woken] in *.
  - unfold wg_add, modify in H4. simplify_eq. split; cbn; rewrite ?i32_small by lia; [lia|lia|done].
  - destruct w as [n q]. cbn [count_ wg_wait_queue_] in *. destruct (decide (n = 0%Z)) as [->|Hne]; [done|].
    rewrite wg_done_locked_pos in H by lia. destruct (Z.eqb_spec n 1); simplify_eq.
    + split; cbn; [lia|done|by rewrite app_nil_r].
    + split; cbn; [lia|lia|by rewrite app_nil_r].
  - destruct w as [n q]. cbn [count_ wg_wait_queue_] in *. destruct (decide (n = 0%Z)) as [->|Hne].
    + rewrite wg_done_locked_zero in H. by simplify_eq.
    + rewrite wg_done_locked_pos in H by lia. by destruct (n =? 1)%Z.
  - unfold WgAwaiter_await_ready, gets in H. by simplify_eq.
  - unfold WgAwaiter_await_suspend, bind, get, put in H. destruct w as [n q]. cbn [count_ wg_wait_queue_] in *.
    destruct (Z.eqb_spec n 0); unfold ret in H; simplify_eq; [by split|].
    split; cbn; [done|done|]. by rewrite <- app_assoc.
Qed.

Lemma wg_reachable_inv s : wg_reachable s → wg_inv s.
Proof.
  intros Hr. assert (Hi : wg_inv wg_start) by by split.
  unfold wg_reachable in Hr. revert Hi. induction Hr; eauto using wg_step_inv.
Qed.

(** ** [done] on a worker thread *)

Section in_context.
Context {S : Type} `{!Runtime S} `{!Lens S WaitGroup} `{!RuntimeFrame S WaitGroup}.
Implicit Types (s : S).

Lemma wg_done_eq s i n q : try_local_context s = Some i →
  lget s = MkWaitGroup n q → (0 < n < 2 ^ 31)%Z →
  wg_done s =
    if (n =? 1)%Z then Ok tt (submit_all i q (lset (MkWaitGroup 0 []) s))
    else Ok tt (lset (MkWaitGroup (n - 1) q) s).
Proof.
  intros Hctx Hs Hn. unfold wg_done.
  pose proof (wg_done_locked_pos n q Hn) as E. rewrite <- Hs in E.
  destruct (n =? 1)%Z; (erewrite bind_ok; [|apply zoom_ok, E]).
  - apply (reschedule_all_in_context (A := WaitGroup)). by rewrite local_context_lset.
  - done.
Qed.

Lemma wg_done_zero s q : lget s = MkWaitGroup 0 q →
  wg_done s = Throw (runtime_error "count is zero") s.
Proof.
  intros Hs. unfold wg_done. erewrite bind_throw; [|apply zoom_throw; rewrite Hs;
    apply wg_done_locked_zero]. by rewrite <- Hs, lset_lget.
Qed.

(** [n] calls of [done]. *)
Fixpoint done_times (n : nat) : M S unit :=
  match n with O => ret tt | Datatypes.S n' => wg_done;;; done_times n' end.

Lemma done_times_eq n s i q : try_local_context s = Some i →
  lget s = MkWaitGroup (Z.of_nat (Datatypes.S n)) q → (Z.of_nat (Datatypes.S n) < 2 ^ 31)%Z →
  done_times (Datatypes.S n) s = Ok tt (submit_all i q (lset (MkWaitGroup 0 []) s)).
Proof.
  revert s. induction n as [|n IH]; intros s Hctx Hs Hn; cbn [done_times].
  - pose proof (wg_done_eq s i _ q Hctx Hs ltac:(lia)) as E. cbn in E.
    by rewrite (bind_ok _ _ _ _ _ E).
  - pose proof (wg_done_eq s i _ q Hctx Hs ltac:(lia)) as E.
    rewrite (proj2 (Z.eqb_neq _ 1)) in E by lia.
    rewrite (bind_ok _ _ _ _ _ E). fold (done_times (Datatypes.S n)).
    change (wg_done;;; done_times n) with (done_times (Datatypes.S n)).
    rewrite IH.
    + by rewrite lset_lset.
    + by rewrite local_context_lset.
    + rewrite lget_lset. f_equal. lia.
    + lia.
Qed.

Lemma done_times_silent k r s i q : try_local_context s = Some i →
  lget s = MkWaitGroup (Z.of_nat k + r) q → (0 < r)%Z → (Z.of_nat k + r < 2 ^ 31)%Z →
  done_times k s = Ok tt (lset (MkWaitGroup r q) s).
Proof.
  revert s. induction k as [|k IH]; intros s Hctx Hs Hr Hk; cbn [done_times].
  - replace r with (Z.of_nat 0 + r)%Z by lia. by rewrite <- Hs, lset_lget.
  - pose proof (wg_done_eq s i _ q Hctx Hs ltac:(lia)) as E.
    rewrite (proj2 (Z.eqb_neq _ 1)) in E by lia.
    rewrite (bind_ok _ _ _ _ _ E), IH.
    + by rewrite lset_lset.
    + by rewrite local_context_lset.
    + rewrite lget_lset. f_equal. lia.
    + done.
    + lia.
Qed.
End in_context.

(** ** Properties *)

(** C26. When [add] is given positive numbers that do not overflow [int]: the
    counter is never negative, the coroutines that suspended are those [done]
    has woken followed by the queue, and while a coroutine is queued the
    counter is positive, so it still has a [done] to come. *)
Theorem waitgroup_no_lost_wakeup s : wg_reachable s →
  wg_suspended s = wg_woken s ++ wg_wait_queue_ (wg_group s) ∧
  (0 ≤ count_ (wg_group s) < 2 ^ 31)%Z ∧
  (wg_wait_queue_ (wg_group s) ≠ [] → (0 < count_ (wg_group s))%Z).
Proof.
  intros [H1 H2 H3]%wg_reachable_inv. split_and!; [done|lia|lia|].
  intros Hq. destruct (decide (count_ (wg_group s) = 0%Z)); [by destruct Hq; apply H2|lia].
Qed.

Definition demo_wg_state : wg_state := MkWgState (MkWaitGroup 2 [10%N]) [10%N] [].

Lemma waitgroup_no_lost_wakeup_witness :
  wg_reachable demo_wg_state ∧ (0 < count_ (wg_group demo_wg_state))%Z.
Proof.
  assert (Hr : wg_reachable demo_wg_state).
  { eapply rtc_l; [apply (wg_step_add _ _ _ 2); [lia|cbn; lia|reflexivity]|].
    eapply rtc_l; [apply (wg_step_suspend _ _ _ 10%N); reflexivity|]. apply rtc_refl. }
  split; [exact Hr|]. apply (waitgroup_no_lost_wakeup demo_wg_state Hr). discriminate.
Defined.

(** With the counter at [n + 1], the next [n] calls of [done] wake nobody,
    the one after wakes every waiter in order, and any further one throws
    [std::runtime_error("count is zero")] and changes nothing. *)
Theorem waitgroup_done_wakes_all {S} `{!Runtime S} `{!Lens S WaitGroup}
    `{!RuntimeFrame S WaitGroup} (s : S) (i n : nat) q :
  try_local_context s = Some i → lget s = MkWaitGroup (Z.of_nat (Datatypes.S n)) q →
  (Z.of_nat (Datatypes.S n) < 2 ^ 31)%Z →
  done_times n s = Ok tt (lset (MkWaitGroup 1 q) s) ∧
  let s' := submit_all i q (lset (MkWaitGroup 0 []) s) in
  done_times (Datatypes.S n) s = Ok tt s' ∧
  lget s' = MkWaitGroup 0 [] ∧
  wg_done s' = Throw (runtime_error "count is zero") s'.
Proof.
  intros Hctx Hs Hn. split; [|split].
  - eapply done_times_silent; [done|rewrite Hs; f_equal; lia|lia|lia].
  - by apply done_times_eq.
  - assert (E : lget (submit_all i q (lset (MkWaitGroup 0 []) s)) = MkWaitGroup 0 []).
    { by rewrite submit_all_frame, lget_lset. }
    split; [exact E|]. by eapply wg_done_zero.
Qed.

Lemma waitgroup_done_wakes_all_witness :
  done_times 3 (MkWorker (MkWaitGroup 3 [10%N; 11%N]) []) =
    Ok tt (MkWorker (MkWaitGroup 0 []) [10%N; 11%N]).
Proof.
  exact (proj1 (proj2 (waitgroup_done_wakes_all
    (MkWorker (MkWaitGroup 3 [10%N; 11%N]) []) 0 2 [10%N; 11%N] eq_refl eq_refl eq_refl))).
Defined.

(** [add] of a negative number that brings the counter to zero wakes
    nobody: the coroutines waiting stay in the queue, a later [co_await] does
    not suspend, and [done] throws instead of waking them.
    (wait_group.h: add, done) *)
Theorem waitgroup_negative_add_strands (n : Z) q h :
  (0 < n < 2 ^ 31)%Z →
  let w := MkWaitGroup 0 q in
  wg_add (- n) (MkWaitGroup n q) = Ok tt w ∧
  WgAwaiter_await_ready w = Ok true w ∧
  WgAwaiter_await_suspend h w = Ok false w ∧
  wg_done_locked w = Throw (runtime_error "count is zero") w.
Proof.
  intros Hn. cbn zeta. split_and!; try done.
  unfold wg_add, modify. cbn. do 2 f_equal. unfold i32.
  replace (n + - n + 2 ^ 31)%Z with (2 ^ 31)%Z by lia. done.
Qed.

Lemma waitgroup_negative_add_strands_witness :
  wg_add (- 1) (MkWaitGroup 1 [7%N]) = Ok tt (MkWaitGroup 0 [7%N]) ∧
  wg_done_locked (MkWaitGroup 0 [7%N]) =
    Throw (runtime_error "count is zero") (MkWaitGroup 0 [7%N]).
Proof.
  destruct (waitgroup_negative_add_strands 1 [7%N] 8%N) as (H1 & _ & _ & H2); [lia|].
  split; [exact H1|exact H2].
Defined.
