(* ===== verification/WaitGroupLifetime.v ===== *)
(** * The lifetime of a WaitGroup

    [await_ready] (src/include/wait_group.h) reads [count_] without the mutex,
    so a coroutine that waits can see 0, go on and destroy the object while
    [done] is still in its critical section. *)

From S2P Require Import Prelude Runtime WaitGroup.

(** The [WaitGroup] objects alive, and the local [handles] of [done]. *)
Abbreviation wg_store := (gmap ptr WaitGroup * list handle)%type.

(** A member function, or a part of one, of the object at [p]. *)
Definition at_wg {X} (p : ptr) (m : M WaitGroup X) : M wg_store X := λ s,
  match fst s !! p with
  | None => UB
  | Some x =>
      match m x with
      | Ok a x' => Ok a (<[p := x']> (fst s), snd s)
      | Throw e x' => Throw e (<[p := x']> (fst s), snd s)
      | UB => UB
      | Terminate => Terminate
      | NoFuel => NoFuel
      end
  end.

(** [done], from the lock up to the change of [count_], and from there up to
    [lock.unlock()]; the threads waiting for the mutex run at neither point,
    a reader of the atomic can. *)
Definition done_decrement : M WaitGroup unit :=
  let! w := get in
  if (count_ w =? 0)%Z then throw (runtime_error "count is zero")
  else put (MkWaitGroup (i32 (count_ w - 1)) (wg_wait_queue_ w)).

Definition done_collect : M WaitGroup (list handle) :=
  let! w := get in
  if (count_ w =? 0)%Z then
    let '(handles, q) := wg_drain (wg_wait_queue_ w) [] in
    put (MkWaitGroup (count_ w) q);;; ret handles
  else ret [].

Definition done_parts (p : ptr) : list (M wg_store unit) :=
  [ at_wg p done_decrement;
    (let! handles := at_wg p done_collect in modify (λ s, (fst s, handles))) ].

(** A coroutine that awaits [wait()] and owns the object: when it need not
    suspend it runs on to its end. *)
Definition wait_and_destroy (p : ptr) : M wg_store unit :=
  let! ready := at_wg p WgAwaiter_await_ready in
  if ready : bool then modify (λ s, (delete p (fst s), snd s)) else ret tt.

Lemma at_wg_eq {X} p (m : M WaitGroup X) x hs :
  at_wg p m ({[p := x]}, hs) =
    match m x with
    | Ok a x' => Ok a ({[p := x']}, hs)
    | Throw e x' => Throw e ({[p := x']}, hs)
    | UB => UB
    | Terminate => Terminate
    | NoFuel => NoFuel
    end.
Proof.
  unfold at_wg. cbn [fst snd]. rewrite lookup_singleton_eq.
  by destruct (m x); rewrite ?insert_singleton_eq.
Qed.

Lemma at_wg_gone {X} p (m : M WaitGroup X) hs : at_wg p m (∅, hs) = UB.
Proof. unfold at_wg. cbn [fst]. by rewrite lookup_empty. Qed.

Lemma wait_destroys p q hs :
  wait_and_destroy p ({[p := MkWaitGroup 0 q]}, hs) = Ok tt (∅, hs).
Proof.
  unfold wait_and_destroy, bind. rewrite at_wg_eq.
  unfold WgAwaiter_await_ready, gets, modify. cbn [count_ fst snd Z.eqb].
  by rewrite delete_singleton_eq.
Qed.

(** The parts of [done], run without anything in between, are its critical
    section. *)
Lemma done_parts_eq p x : run_parts (done_parts p) ({[p := x]}, []) =
  match wg_done_locked x with
  | Ok handles x' => Ok tt ({[p := x']}, handles)
  | Throw e x' => Throw e ({[p := x']}, [])
  | UB => UB
  | Terminate => Terminate
  | NoFuel => NoFuel
  end.
Proof.
  unfold run_parts. cbn [for_each done_parts]. unfold bind, ret. rewrite at_wg_eq.
  destruct x as [n q]. unfold done_decrement, wg_done_locked, bind, get, put. cbn [count_ wg_wait_queue_].
  destruct (n =? 0)%Z; [done|]. rewrite at_wg_eq. unfold done_collect, bind, get, put.
  cbn [count_ wg_wait_queue_]. by destruct (i32 (n - 1) =? 0)%Z; [rewrite wg_drain_eq|].
Qed.

(** C40. The parts of [done], run without anything in between, are its critical
    section, whatever the state.  But when the last [done] has changed
    [count_] to 0, a coroutine that awaits [wait()] does not suspend and may
    destroy the [WaitGroup], and the rest of [done] uses a destroyed object.
    The same coroutine, awaiting before or after that [done], does no harm.
    (wait_group.h: done, await_ready) *)
Theorem waitgroup_destroyed_during_done (p : ptr) (x : WaitGroup) :
  run_parts (done_parts p) ({[p := x]}, []) =
    match wg_done_locked x with
    | Ok handles x' => Ok tt ({[p := x']}, handles)
    | Throw e x' => Throw e ({[p := x']}, [])
    | UB => UB
    | Terminate => Terminate
    | NoFuel => NoFuel
    end ∧
  let start := ({[p := MkWaitGroup 1 []]}, []) in
  (∃ parts, interleave (done_parts p) [wait_and_destroy p] parts ∧ run_parts parts start = UB) ∧
  run_parts (wait_and_destroy p :: done_parts p) start = Ok tt ({[p := MkWaitGroup 0 []]}, []) ∧
  run_parts (done_parts p ++ [wait_and_destroy p]) start = Ok tt (∅, []).
Proof.
  split; [|cbn zeta; split_and!].
  - apply done_parts_eq.
  - eexists. split.
    { apply interleave_l, interleave_r, interleave_l, interleave_nil. }
    unfold run_parts. cbn [for_each].
    rewrite (bind_ok _ _ _ tt ({[p := MkWaitGroup 0 []]}, [])) by (rewrite at_wg_eq; done).
    rewrite (bind_ok _ _ _ _ _ (wait_destroys p [] [])).
    unfold bind. by rewrite at_wg_gone.
  - unfold run_parts. cbn [for_each].
    rewrite (bind_ok _ _ _ tt ({[p := MkWaitGroup 1 []]}, []))
      by (unfold wait_and_destroy, bind; rewrite at_wg_eq; done).
    exact (done_parts_eq p (MkWaitGroup 1 [])).
  - unfold run_parts. rewrite for_each_app. erewrite bind_ok; [|exact (done_parts_eq p (MkWaitGroup 1 []))].
    cbn [for_each]. by erewrite bind_ok; [|exact (wait_destroys p [] [])].
Qed.
