(* ===== verification/Task.v ===== *)
(** * Task (src/include/task.h)

    Promises and coroutine frames, the owning [Task] object, and the transfer
    of control between a coroutine and the one it awaits.  Frames live in a
    heap indexed by their handle; [Task] objects in a second one, indexed by
    their address.  The body of a coroutine is the user's code, given as data:
    return, throw, [co_await] of a freshly called coroutine, or a suspension
    in some other awaitable. *)

From S2P Require Import Prelude.

(** ** Data *)

Inductive body (V : Type) : Type :=
| BReturn (v : V)
| BThrow (e : exn)
| BAwait (callee : body V) (k : V + exn → body V)
| BSuspend (b : body V).
Arguments BReturn {V} v.
Arguments BThrow {V} e.
Arguments BAwait {V} callee k.
Arguments BSuspend {V} b.

(** Where a frame is suspended.  [done], [resume] and [destroy] of a coroutine
    that is not suspended have undefined behaviour. *)
Inductive point (V : Type) : Type :=
| PBody (b : body V)                                  (** [b] is left to run *)
| PAwait (callee : handle) (k : V + exn → body V)     (** in [co_await task] *)
| PRunning                                            (** not suspended *)
| PFinal.                                             (** at [final_suspend] *)
Arguments PBody {V} b.
Arguments PAwait {V} callee k.
Arguments PRunning {V}.
Arguments PFinal {V}.

(** A frame: the fields of its promise and where it is suspended. *)
Record frame (V : Type) := MkFrame {
  caller_ : handle;
  exception_ : option exn;
  value_ : option V;
  point_ : point V;
}.
Arguments MkFrame {V}.
Arguments caller_ {V} _.
Arguments exception_ {V} _.
Arguments value_ {V} _.
Arguments point_ {V} _.

Record task_world (V : Type) := MkTaskWorld {
  frames : gmap handle (frame V);
  task_objects : gmap ptr handle;      (** each object's [handler_] *)
}.
Arguments MkTaskWorld {V}.
Arguments frames {V} _.
Arguments task_objects {V} _.

Section task.
Context {V : Type} (moved_from : V → V).
Implicit Types (w : task_world V).

Definition set_frames (f : gmap handle (frame V)) (w : task_world V) : task_world V :=
  MkTaskWorld f (task_objects w).
Definition set_objects (o : gmap ptr handle) (w : task_world V) : task_world V :=
  MkTaskWorld (frames w) o.

Definition frame_at (h : handle) : M (task_world V) (frame V) :=
  let! w := get in deref (frames w !! h).
Definition frame_store (h : handle) (f : frame V) : M (task_world V) unit :=
  modify (λ w, set_frames (<[h := f]> (frames w)) w).
Definition object_at (t : ptr) : M (task_world V) handle :=
  let! w := get in deref (task_objects w !! t).
Definition object_store (t : ptr) (h : handle) : M (task_world V) unit :=
  modify (λ w, set_objects (<[t := h]> (task_objects w)) w).

(** ** The promise *)

Definition set_caller (c : handle) (f : frame V) : frame V :=
  MkFrame c (exception_ f) (value_ f) (point_ f).
Definition set_exception (e : option exn) (f : frame V) : frame V :=
  MkFrame (caller_ f) e (value_ f) (point_ f).
Definition set_value (v : option V) (f : frame V) : frame V :=
  MkFrame (caller_ f) (exception_ f) v (point_ f).
Definition set_point (p : point V) (f : frame V) : frame V :=
  MkFrame (caller_ f) (exception_ f) (value_ f) p.

Definition frame_update (h : handle) (f : frame V → frame V) : M (task_world V) unit :=
  let! x := frame_at h in frame_store h (f x).

Definition unhandled_exception (h : handle) (e : exn) : M (task_world V) unit :=
  frame_update h (set_exception (Some e)).
Definition return_value (h : handle) (v : V) : M (task_world V) unit :=
  frame_update h (set_value (Some v)).

(** [base_promise::Awaiter::await_suspend]; the null handle stands for
    [std::noop_coroutine()]. *)
Definition FinalAwaiter_await_suspend (callee : handle) : M (task_world V) handle :=
  let! f := frame_at callee in
  let caller := caller_ f in
  if negb (is_null caller) then ret caller else ret null.

(** Calling a coroutine: a frame is allocated and suspended at
    [initial_suspend]. *)
Definition coroutine_create (b : body V) : M (task_world V) handle :=
  let! w := get in
  let h := fresh ({[null]} ∪ dom (frames w)) in
  frame_store h (MkFrame null None None (PBody b));;; ret h.

(** ** Frames *)

Definition handle_done (h : handle) : M (task_world V) bool :=
  let! f := frame_at h in
  match point_ f with
  | PFinal => ret true
  | PRunning => undefined
  | _ => ret false
  end.

(** [handle.destroy()]: a frame suspended in [co_await task] destroys the
    temporary [task], and so its frame. *)
Fixpoint frame_destroy_fuel (n : nat) (h : handle) : M (task_world V) unit :=
  match n with
  | O => nofuel
  | S n' =>
      let! f := frame_at h in
      modify (λ w, set_frames (delete h (frames w)) w);;;
      match point_ f with
      | PAwait callee _ => frame_destroy_fuel n' callee
      | PRunning => undefined
      | _ => ret tt
      end
  end.

Definition handle_destroy (h : handle) : M (task_world V) unit :=
  let! w := get in frame_destroy_fuel (S (size (frames w))) h.

(** ** The [Task] object *)

Definition Task_default (t : ptr) : M (task_world V) unit := object_store t null.
Definition Task_make (t : ptr) (h : handle) : M (task_world V) unit := object_store t h.

(** [get_return_object], the object being constructed at [t]. *)
Definition get_return_object (t : ptr) (h : handle) : M (task_world V) unit := Task_make t h.

Definition Task_destroy (t : ptr) : M (task_world V) unit :=
  let! h := object_at t in
  (if negb (is_null h) then handle_destroy h else ret tt);;;
  modify (λ w, set_objects (delete t (task_objects w)) w).

(** [Task(Task &&t)], constructing at [this]. *)
Definition Task_move (this t : ptr) : M (task_world V) unit :=
  let! h := object_at t in
  object_store this h;;;
  object_store t null.

Definition Task_move_assign (this t : ptr) : M (task_world V) unit :=
  if negb (N.eqb this t) then
    let! h := object_at this in
    (if negb (is_null h) then handle_destroy h else ret tt);;;
    let! h' := object_at t in
    object_store this h';;;
    object_store t null
  else ret tt.

Definition Task_done (t : ptr) : M (task_world V) bool :=
  let! h := object_at t in
  if negb (is_null h) then handle_done h else ret true.

Definition Task_get_handle (t : ptr) : M (task_world V) handle := object_at t.
Definition Task_detach (t : ptr) : M (task_world V) unit :=
  let! _ := object_at t in object_store t null.

(** [std::move( *value_ )] *)
Definition take_value (h : handle) : M (task_world V) V :=
  let! f := frame_at h in
  let! v := deref (value_ f) in
  frame_store h (set_value (Some (moved_from v)) f);;; ret v.

Definition rethrow_or_take (h : handle) : M (task_world V) V :=
  let! f := frame_at h in
  match exception_ f with
  | Some e => throw e
  | None => take_value h
  end.

(** A failed [assert] aborts the process. *)
Definition Task_get (t : ptr) : M (task_world V) V :=
  let! h := object_at t in
  let! ok := (if negb (is_null h) then handle_done h else ret false) in
  if ok : bool then rethrow_or_take h else (λ _, Terminate).

(** The awaiter functions, on a task whose [handler_] is [h]. *)
Definition Task_await_ready (h : handle) : M (task_world V) bool :=
  if is_null h then ret true else handle_done h.

Definition Task_await_suspend (h caller : handle) : M (task_world V) handle :=
  frame_update h (set_caller caller);;; ret h.

Definition Task_await_resume (h : handle) : M (task_world V) V := rethrow_or_take h.

(** For [Task<void>] there is no value to take. *)
Definition Task_await_resume_void (h : handle) : M (task_world V) unit :=
  let! f := frame_at h in
  match exception_ f with Some e => throw e | None => ret tt end.

(** ** Running coroutines

    What the processor does next: resume a handle, run the rest of the body of
    a frame, or return to whoever called [resume()], either because the
    coroutine suspended or because nothing is left to transfer to. *)

Inductive next :=
| NResume (h : handle)
| NRun (h : handle) (b : body V)
| NFinal (h : handle)          (** at [co_await final_suspend()] *)
| NSuspended (h : handle)
| NReturned.

(** [co_await task] of the suspended caller [h], when it continues:
    [await_resume], then the temporary is destroyed. *)
Definition resume_await (h callee : handle) (k : V + exn → body V) : M (task_world V) next :=
  let! r := try_catch (let! v := Task_await_resume callee in ret (inl v))
                      (λ e, ret (inr e)) in
  handle_destroy callee;;;
  ret (NRun h (k r)).

(** One transfer. *)
Definition machine_step (n : next) : M (task_world V) next :=
  match n with
  | NResume h =>
      let! f := frame_at h in
      match point_ f with
      | PBody b => frame_update h (set_point PRunning);;; ret (NRun h b)
      | PAwait callee k =>
          frame_update h (set_point PRunning);;; resume_await h callee k
      | PRunning | PFinal => undefined
      end
  | NRun h (BReturn v) =>
      return_value h v;;; frame_update h (set_point PFinal);;; ret (NFinal h)
  | NRun h (BThrow e) =>
      unhandled_exception h e;;; frame_update h (set_point PFinal);;; ret (NFinal h)
  | NRun h (BAwait c k) =>
      let! callee := coroutine_create c in
      let! ready := Task_await_ready callee in
      if ready : bool then resume_await h callee k
      else
        frame_update h (set_point (PAwait callee k));;;
        let! target := Task_await_suspend callee h in
        ret (NResume target)
  | NRun h (BSuspend b) =>
      frame_update h (set_point (PBody b));;; ret (NSuspended h)
  | NFinal h =>
      let! target := FinalAwaiter_await_suspend h in
      if is_null target then ret NReturned else ret (NResume target)
  | NSuspended h => ret (NSuspended h)
  | NReturned => ret NReturned
  end.

(** [handle.resume()]: transfers until control returns to the caller. *)
Fixpoint machine_run (fuel : nat) (n : next) : M (task_world V) next :=
  match n with
  | NSuspended _ | NReturned => ret n
  | _ =>
      match fuel with
      | O => nofuel
      | S fuel' => let! n' := machine_step n in machine_run fuel' n'
      end
  end.

Definition handle_resume (fuel : nat) (h : handle) : M (task_world V) next :=
  machine_run fuel (NResume h).

Definition Task_resume (fuel : nat) (t : ptr) : M (task_world V) unit :=
  noexcept (
    let! h := object_at t in
    if negb (is_null h) then let! _ := handle_resume fuel h in ret tt else ret tt).
End task.
