(* ===== verification/TaskRun.v ===== *)
(** * What a chain of awaited tasks computes

    The transfers of [machine_step] against the direct-style meaning of a
    coroutine body: the awaiting coroutine gets the value or the exception of
    the coroutine it awaits. *)

From S2P Require Import Prelude Task.

(** ** The meaning of a body *)

Fixpoint eval {V} (b : body V) : V + exn :=
  match b with
  | BReturn v => inl v
  | BThrow e => inr e
  | BAwait c k => eval (k (eval c))
  | BSuspend b => eval b
  end.

(** How many times a body and what it awaits suspend. *)
Fixpoint suspensions {V} (b : body V) : nat :=
  match b with
  | BReturn _ | BThrow _ => 0
  | BAwait c k => suspensions c + suspensions (k (eval c))
  | BSuspend b => S (suspensions b)
  end.

Section run.
Context {V : Type} (moved_from : V → V).
Implicit Types (w : task_world V) (f : frame V) (F : gmap handle (frame V)).

Abbreviation step := (machine_step moved_from).

(** The frame at [final_suspend] with the result of the body. *)
Definition finished (r : V + exn) (f : frame V) : frame V :=
  match r with
  | inl v => MkFrame (caller_ f) (exception_ f) (Some v) PFinal
  | inr e => MkFrame (caller_ f) (Some e) (value_ f) PFinal
  end.

Lemma finished_caller r f : caller_ (finished r f) = caller_ f.
Proof. by destruct r. Qed.

(** Transfers until [n'], the environment resuming each suspended handle; the
    number counts those resumptions. *)
Inductive driven : nat → next → task_world V → next → task_world V → Prop :=
| driven_refl n w : driven 0 n w n w
| driven_step k n w n1 w1 n' w' :
    (∀ h, n ≠ NSuspended h) → n ≠ NReturned → step n w = Ok n1 w1 →
    driven k n1 w1 n' w' → driven k n w n' w'
| driven_resume k h w n' w' :
    driven k (NResume h) w n' w' → driven (S k) (NSuspended h) w n' w'.

Lemma driven_trans k1 k2 n1 w1 n2 w2 n3 w3 :
  driven k1 n1 w1 n2 w2 → driven k2 n2 w2 n3 w3 → driven (k1 + k2) n1 w1 n3 w3.
Proof. induction 1; cbn; eauto using driven. Qed.

(** ** The operations on a heap [<[h := f]> F] *)

Abbreviation heap F o := (MkTaskWorld F o).

Lemma frame_at_eq h f F o : frame_at h (heap (<[h := f]> F) o) = Ok f (heap (<[h := f]> F) o).
Proof. unfold frame_at, bind, get. cbn. by rewrite lookup_insert_eq. Qed.

Lemma frame_update_eq h g f F o :
  frame_update h g (heap (<[h := f]> F) o) = Ok tt (heap (<[h := g f]> F) o).
Proof.
  unfold frame_update. rewrite (bind_ok _ _ _ _ _ (frame_at_eq _ _ _ _)).
  unfold frame_store, modify, set_frames. cbn. by rewrite insert_insert_eq.
Qed.

Lemma handle_destroy_eq h f F o : F !! h = None → point_ f = PFinal →
  handle_destroy h (heap (<[h := f]> F) o) = Ok tt (heap F o).
Proof.
  intros HF Hp. unfold handle_destroy. erewrite bind_ok; [|done]. cbn [frame_destroy_fuel].
  rewrite (bind_ok _ _ _ _ _ (frame_at_eq _ _ _ _)). rewrite Hp.
  unfold bind, modify, set_frames, ret. cbn. by rewrite delete_insert_id.
Qed.

(** [await_resume] of a finished callee and the destruction of the temporary. *)
Lemma resume_await_eq h callee k r f F o : F !! callee = None →
  exception_ f = None → value_ f = None →
  resume_await moved_from h callee k (heap (<[callee := finished r f]> F) o) =
    Ok (NRun h (k r)) (heap F o).
Proof.
  intros HF He Hv. unfold resume_await, try_catch, Task_await_resume, rethrow_or_take.
  destruct r as [v|e]; cbn [finished].
  - unfold take_value. rewrite He.
    unfold bind at 1 2. rewrite (bind_ok _ _ _ _ _ (frame_at_eq _ _ _ _)). cbn [exception_].
    rewrite (bind_ok _ _ _ _ _ (frame_at_eq _ _ _ _)). cbn -[handle_destroy].
    unfold bind, set_frames. cbn [frames task_objects]. rewrite insert_insert_eq.
    by rewrite handle_destroy_eq.
  - unfold bind at 1 2. rewrite (bind_ok _ _ _ _ _ (frame_at_eq _ _ _ _)). cbn -[handle_destroy].
    unfold bind. by rewrite handle_destroy_eq.
Qed.

(** [co_await] of a call allocates the callee's frame, links it to the caller
    and transfers to it. *)
Lemma call_step h c k f F o : F !! h = None →
  ∃ callee, callee ≠ null ∧ callee ≠ h ∧
    <[h := set_point (PAwait callee k) f]> F !! callee = None ∧
    step (NRun h (BAwait c k)) (heap (<[h := f]> F) o) =
      Ok (NResume callee)
        (heap (<[callee := MkFrame h None None (PBody c)]>
                 (<[h := set_point (PAwait callee k) f]> F)) o).
Proof.
  intros HF. set (F1 := <[h := f]> F).
  set (callee := fresh ({[null]} ∪ dom F1) : handle). exists callee.
  assert (Hfresh : callee ∉ ({[null]} ∪ dom F1 : gset handle)) by apply is_fresh.
  assert (Hnull : callee ≠ null) by set_solver.
  assert (Hcallee : F1 !! callee = None) by (apply not_elem_of_dom; set_solver).
  assert (Hne : callee ≠ h).
  { intros ->. unfold F1 in Hcallee. by rewrite lookup_insert_eq in Hcallee. }
  split_and!; [done|done| |].
  { unfold F1 in Hcallee. by rewrite lookup_insert_ne in * by done. }
  cbn [machine_step]. unfold coroutine_create at 1.
  unfold bind at 1 2 3, get, frame_store at 1, modify, ret at 1, set_frames. cbn [frames].
  fold callee. unfold Task_await_ready.
  rewrite (proj2 (N.eqb_neq _ _) Hnull : is_null callee = false).
  unfold bind at 1, handle_done. rewrite (bind_ok _ _ _ _ _ (frame_at_eq _ _ _ _)). cbn.
  replace (<[callee := _]> F1) with
    (<[h := f]> (<[callee := MkFrame null None None (PBody c)]> F))
    by (by unfold F1; rewrite insert_insert_ne).
  rewrite (bind_ok _ _ _ _ _ (frame_update_eq _ _ _ _ _)).
  rewrite insert_insert_ne by done. unfold Task_await_suspend.
  by rewrite bind_assoc, (bind_ok _ _ _ _ _ (frame_update_eq _ _ _ _ _)).
Qed.

(** One transfer that stays in the frame [h]. *)
Lemma driven_once n w n1 w1 :
  (∀ h, n ≠ NSuspended h) → n ≠ NReturned → step n w = Ok n1 w1 → driven 0 n w n1 w1.
Proof. intros H1 H2 Hs. eapply driven_step; [done|done|done|apply driven_refl]. Qed.

Lemma run_resume h b f F o : point_ f = PBody b →
  driven 0 (NResume h) (heap (<[h := f]> F) o)
    (NRun h b) (heap (<[h := set_point PRunning f]> F) o).
Proof.
  intros Hp. apply driven_once; [done|done|]. cbn [machine_step].
  rewrite (bind_ok _ _ _ _ _ (frame_at_eq _ _ _ _)), Hp.
  by rewrite (bind_ok _ _ _ _ _ (frame_update_eq _ _ _ _ _)).
Qed.

Lemma run_return h v f F o :
  driven 0 (NRun h (BReturn v)) (heap (<[h := f]> F) o)
    (NFinal h) (heap (<[h := finished (inl v) f]> F) o).
Proof.
  apply driven_once; [done|done|]. cbn. unfold return_value.
  rewrite (bind_ok _ _ _ _ _ (frame_update_eq _ _ _ _ _)).
  by rewrite (bind_ok _ _ _ _ _ (frame_update_eq _ _ _ _ _)).
Qed.

Lemma run_throw h e f F o :
  driven 0 (NRun h (BThrow e)) (heap (<[h := f]> F) o)
    (NFinal h) (heap (<[h := finished (inr e) f]> F) o).
Proof.
  apply driven_once; [done|done|]. cbn. unfold unhandled_exception.
  rewrite (bind_ok _ _ _ _ _ (frame_update_eq _ _ _ _ _)).
  by rewrite (bind_ok _ _ _ _ _ (frame_update_eq _ _ _ _ _)).
Qed.

Lemma run_suspend h b f F o :
  driven 0 (NRun h (BSuspend b)) (heap (<[h := f]> F) o)
    (NSuspended h) (heap (<[h := set_point (PBody b) f]> F) o).
Proof.
  apply driven_once; [done|done|]. cbn [machine_step].
  by rewrite (bind_ok _ _ _ _ _ (frame_update_eq _ _ _ _ _)).
Qed.

(** [co_await] of a coroutine that runs to its end in [n] resumptions gives
    its result and leaves no trace in the heap. *)
Lemma run_await n h c k f F o : F !! h = None → h ≠ null →
  (∀ h' f' F', F' !! h' = None → h' ≠ null → exception_ f' = None → value_ f' = None →
     driven n (NRun h' c) (heap (<[h' := f']> F') o)
       (NFinal h') (heap (<[h' := finished (eval c) f']> F') o)) →
  driven n (NRun h (BAwait c k)) (heap (<[h := f]> F) o)
    (NRun h (k (eval c))) (heap (<[h := set_point PRunning f]> F) o).
Proof.
  intros HF Hh Hc.
  destruct (call_step h c k f F o HF) as (callee & Hnull & Hne & Hcallee' & Hcall).
  set (f' := set_point (PAwait callee k) f) in *. set (F' := <[h := f']> F) in *.
  eapply (driven_trans 0); [by eapply driven_once; [..|exact Hcall]|].
  eapply (driven_trans 0); [by apply run_resume|]. rewrite <- (Nat.add_0_r n).
  eapply driven_trans; [by apply Hc|].
  eapply driven_step; [done|done| |].
  - cbn [machine_step]. unfold FinalAwaiter_await_suspend.
    rewrite bind_assoc, (bind_ok _ _ _ _ _ (frame_at_eq _ _ _ _)).
    rewrite finished_caller. cbn.
    rewrite (proj2 (N.eqb_neq _ _) Hh : is_null h = false). cbn.
    by rewrite (proj2 (N.eqb_neq _ _) Hh : is_null h = false).
  - apply driven_once; [done|done|]. cbn [machine_step].
    erewrite bind_ok.
    2: { unfold frame_at, bind, get. cbn. rewrite lookup_insert_ne by done.
         unfold F'. by rewrite lookup_insert_eq. }
    cbn [point_ f' set_point]. unfold F'. rewrite insert_insert_ne by done.
    rewrite (bind_ok _ _ _ _ _ (frame_update_eq _ _ _ _ _)).
    rewrite insert_insert_ne by done. apply resume_await_eq; [|done..].
    unfold F' in Hcallee'. by rewrite lookup_insert_ne in * by done.
Qed.

Lemma finished_point r p f : finished r (set_point p f) = finished r f.
Proof. by destruct r. Qed.

(** A body run in the frame [h] reaches [final_suspend] with the result of the
    body; the frames of the coroutines it called are gone, all others are as
    they were. *)
Lemma run_body b h f F o :
  F !! h = None → h ≠ null → exception_ f = None → value_ f = None →
  driven (suspensions b) (NRun h b) (heap (<[h := f]> F) o)
    (NFinal h) (heap (<[h := finished (eval b) f]> F) o).
Proof.
  revert h f F. induction b as [v|e|c IHc k IHk|b IHb]; intros h f F HF Hh He Hv; cbn.
  - apply run_return.
  - apply run_throw.
  - eapply driven_trans; [apply run_await; [done|done|apply IHc]|].
    rewrite <- (finished_point _ PRunning f). by apply IHk.
  - eapply (driven_trans 0); [apply run_suspend|]. apply driven_resume.
    eapply (driven_trans 0); [by apply run_resume|].
    rewrite <- (finished_point _ PRunning f). by apply IHb.
Qed.

(** ** Running up to the coroutine's own next suspension *)

(** The coroutines awaited run to their end without suspending. *)
Fixpoint flat {W} (b : body W) : Prop :=
  match b with
  | BReturn _ | BThrow _ => True
  | BAwait c k => suspensions c = 0 ∧ flat (k (eval c))
  | BSuspend b => flat b
  end.

(** What is left of the body at its next suspension. *)
Fixpoint advance {W} (b : body W) : option (body W) :=
  match b with
  | BReturn _ | BThrow _ => None
  | BAwait c k => advance (k (eval c))
  | BSuspend b => Some b
  end.

Lemma advance_flat {W} (b b' : body W) : flat b → advance b = Some b' →
  flat b' ∧ suspensions b = S (suspensions b') ∧ eval b' = eval b.
Proof.
  induction b as [v|e|c _ k IHk|b IHb]; cbn; try done.
  - intros [Hc Hf] Ha. rewrite Hc. by apply IHk.
  - by intros Hf [= ->].
Qed.

Lemma run_flat b h f F o :
  F !! h = None → h ≠ null → exception_ f = None → value_ f = None → caller_ f = null →
  flat b →
  match advance b with
  | None => driven 0 (NRun h b) (heap (<[h := f]> F) o)
      NReturned (heap (<[h := finished (eval b) f]> F) o)
  | Some b' => driven 0 (NRun h b) (heap (<[h := f]> F) o)
      (NSuspended h) (heap (<[h := set_point (PBody b') f]> F) o)
  end.
Proof.
  intros HF Hh. revert f.
  assert (Hfinal : ∀ f, caller_ f = null →
    driven 0 (NFinal h) (heap (<[h := f]> F) o) NReturned (heap (<[h := f]> F) o)).
  { intros f Hc. apply driven_once; [done|done|]. cbn [machine_step].
    unfold FinalAwaiter_await_suspend.
    by rewrite bind_assoc, (bind_ok _ _ _ _ _ (frame_at_eq _ _ _ _)), Hc. }
  induction b as [v|e|c _ k IHk|b _]; intros f He Hv Hca Hf; cbn in Hf |- *.
  - eapply (driven_trans 0 0); [apply run_return|]. by apply Hfinal.
  - eapply (driven_trans 0 0); [apply run_throw|]. by apply Hfinal.
  - destruct Hf as [Hc Hf].
    assert (Haw : driven 0 (NRun h (BAwait c k)) (heap (<[h := f]> F) o)
      (NRun h (k (eval c))) (heap (<[h := set_point PRunning f]> F) o)).
    { apply run_await; [done|done|]. rewrite <- Hc. intros; by apply run_body. }
    specialize (IHk (eval c) (set_point PRunning f) He Hv Hca Hf).
    rewrite finished_point in IHk.
    destruct (advance (k (eval c))); (eapply (driven_trans 0 0); [exact Haw|exact IHk]).
  - apply run_suspend.
Qed.

(** ** Running it with fuel *)

(** [k] external resumptions, each run for at most [fuel] transfers. *)
Fixpoint drive (fuel k : nat) (n : next) : M (task_world V) next :=
  let! n' := machine_run moved_from fuel n in
  match n', k with
  | NSuspended h, S k' => drive fuel k' (NResume h)
  | n', _ => ret n'
  end.

Lemma machine_run_mono fuel n w :
  machine_run moved_from fuel n w ≠ NoFuel →
  machine_run moved_from (S fuel) n w = machine_run moved_from fuel n w.
Proof.
  revert n w. induction fuel as [|fuel IH]; intros n w.
  { destruct n; cbn; try done; intros []; by unfold nofuel. }
  destruct n; try done; cbn -[machine_step];
    unfold bind; destruct (machine_step _ _ w); try done; intros; by rewrite <- IH.
Qed.

Lemma drive_eq fuel1 fuel2 k n1 w1 n2 w2 :
  machine_run moved_from fuel1 n1 w1 = machine_run moved_from fuel1 n2 w2 →
  fuel1 = fuel2 → drive fuel1 k n1 w1 = drive fuel2 k n2 w2.
Proof. intros E <-. destruct k; cbn; unfold bind; by rewrite E. Qed.

Lemma drive_defined fuel k n w n' w' :
  drive fuel k n w = Ok n' w' → machine_run moved_from fuel n w ≠ NoFuel.
Proof. destruct k; cbn; unfold bind; by destruct (machine_run _ fuel n w). Qed.

(** Enough fuel always suffices. *)
Lemma driven_run n w n' w' : driven 0 n w n' w' →
  (n' = NReturned ∨ ∃ h, n' = NSuspended h) →
  ∃ N, ∀ fuel, N ≤ fuel → machine_run moved_from fuel n w = Ok n' w'.
Proof.
  intros Hd. remember 0 as k eqn:Ek. revert Ek.
  induction Hd as [n w|k n w n1 w1 n' w' H1 H2 Hs _ IH|]; intros Ek Hn; [|..|done].
  - exists 0. intros fuel _. destruct Hn as [->|[h ->]]; by destruct fuel.
  - destruct (IH Ek Hn) as [N HN]. exists (S N). intros [|fuel] Hf; [lia|].
    rewrite <- (HN fuel) by lia.
    destruct n; try done; [..|by edestruct H1]; cbn -[machine_step];
      by rewrite (bind_ok _ _ _ _ _ Hs).
Qed.

Lemma driven_drive k n w w' : driven k n w NReturned w' →
  ∃ N, ∀ fuel, N ≤ fuel → drive fuel k n w = Ok NReturned w'.
Proof.
  remember NReturned as n' eqn:En.
  induction 1 as [n w|k n w n1 w1 n' w' H1 H2 Hs _ IH|k h w n' w' _ IH].
  - subst. exists 0. intros [|fuel] _; done.
  - destruct (IH En) as [N HN]. exists (S N). intros [|fuel] Hf; [lia|].
    rewrite <- (HN (S fuel)) by lia. apply drive_eq; [|done].
    assert (E : machine_run moved_from (S fuel) n w = machine_run moved_from fuel n1 w1).
    { destruct n; try done; [..|by edestruct H1]; cbn -[machine_step];
        by rewrite (bind_ok _ _ _ _ _ Hs). }
    rewrite E. symmetry. eapply machine_run_mono, drive_defined, HN. lia.
  - destruct (IH En) as [N HN]. exists N. intros fuel Hf.
    rewrite <- (HN fuel Hf). cbn [drive]. unfold bind. by destruct fuel.
Qed.
End run.

(** ** Properties *)

(** C12. A coroutine started in its own frame, with everything it awaits,
    terminates: after as many external resumptions as its body and its callees
    suspend, control is back at the resumer, the frame is at [final_suspend]
    with the value or exception the body means, every frame the coroutine
    called has been destroyed, and all other frames are untouched.
    [Task::get] then returns that value or rethrows that exception. *)
Theorem task_chain_result {V} (moved_from : V → V) (b : body V) h t F o :
  F !! h = None → h ≠ null → o !! t = Some h →
  let start := MkFrame null None None (PBody b) in
  let w' := MkTaskWorld (<[h := finished (eval b) start]> F) o in
  (∃ N, ∀ fuel, N ≤ fuel →
     drive moved_from fuel (suspensions b) (NResume h)
       (MkTaskWorld (<[h := start]> F) o) = Ok NReturned w') ∧
  match eval b with
  | inl v => ∃ w'', Task_get moved_from t w' = Ok v w''
  | inr e => Task_get moved_from t w' = Throw e w'
  end.
Proof.
  intros HF Hh Ho start w'. split.
  - apply driven_drive. replace (suspensions b) with (0 + (suspensions b + 0)) by lia.
    eapply driven_trans.
    { eapply driven_step; [done|done| |apply driven_refl]. cbn [machine_step].
      rewrite (bind_ok _ _ _ _ _ (frame_at_eq _ _ _ _)). cbn [point_ start].
      by rewrite (bind_ok _ _ _ _ _ (frame_update_eq _ _ _ _ _)). }
    eapply driven_trans; [by apply run_body|].
    eapply driven_step; [done|done| |].
    + cbn [machine_step]. unfold FinalAwaiter_await_suspend.
      by rewrite bind_assoc, (bind_ok _ _ _ _ _ (frame_at_eq _ _ _ _)), finished_caller.
    + replace (finished (eval b) start) with (finished (eval b) (set_point PRunning start))
        by by destruct (eval b). apply driven_refl.
  - unfold Task_get.
    assert (Ht : object_at t w' = Ok h w') by (unfold object_at, bind, get; cbn; by rewrite Ho).
    assert (Hd : (if negb (is_null h) then handle_done h else ret false) w' = Ok true w').
    { rewrite (proj2 (N.eqb_neq _ _) Hh : is_null h = false). unfold handle_done, w'. cbn.
      rewrite (bind_ok _ _ _ _ _ (frame_at_eq _ _ _ _)). by destruct (eval b). }
    unfold w' in *. destruct (eval b) as [v|e]; [eexists|];
      rewrite (bind_ok _ _ _ _ _ Ht), (bind_ok _ _ _ _ _ Hd); unfold rethrow_or_take, take_value;
      rewrite (bind_ok _ _ _ _ _ (frame_at_eq _ _ _ _)); cbn [exception_ finished start]; [|done].
    by rewrite (bind_ok _ _ _ _ _ (frame_at_eq _ _ _ _)).
Qed.

(** [h()] suspends and throws 5; [g()] awaits it, catches and returns 7; the
    outer coroutine awaits [g()], suspends, and returns one more. *)
Definition demo_body : body Z :=
  BAwait
    (BAwait (BSuspend (BThrow (user_exception 5)))
      (λ r, match r with inr (user_exception n) => BReturn (n + 2)%Z | _ => BReturn 0%Z end))
    (λ r, match r with inl v => BSuspend (BReturn (v + 1)%Z) | inr e => BThrow e end).

Lemma task_chain_result_witness :
  eval demo_body = inl 8%Z ∧ suspensions demo_body = 2 ∧
  ∃ N, ∀ fuel, N ≤ fuel →
    drive (λ _, 0%Z) fuel 2 (NResume 1%N)
      (MkTaskWorld {[1%N := MkFrame null None None (PBody demo_body)]} {[9%N := 1%N]}) =
    Ok NReturned (MkTaskWorld {[1%N := MkFrame null None (Some 8%Z) PFinal]} {[9%N := 1%N]}).
Proof.
  split_and!; [reflexivity|reflexivity|].
  exact (proj1 (task_chain_result (λ _, 0%Z) demo_body 1%N 9%N ∅ {[9%N := 1%N]}
    eq_refl ltac:(discriminate) eq_refl)).
Defined.
