(* ===== verification/TaskOwn.v ===== *)
(** * Ownership of coroutine frames

    Every frame has exactly one owner: a [Task] object, a frame waiting in
    [co_await] (through the temporary it awaits), or nobody, once detached.
    The operations of [Task] and the transfers between coroutines keep this,
    never touch a frame that is gone, and never resume a running coroutine. *)

From S2P Require Import Prelude Task.

(** ** The invariant *)

Inductive owner := OwnObject (t : ptr) | OwnFrame (h : handle) | OwnNone.

Section own.
Context {V : Type} (moved_from : V → V).
Implicit Types (w : task_world V) (f : frame V) (D : gset handle).

Definition awaited f : option handle :=
  match point_ f with PAwait c _ => Some c | _ => None end.
Definition has_result f : Prop :=
  point_ f = PFinal → is_Some (value_ f) ∨ is_Some (exception_ f).

Definition awaits w (h c : handle) : Prop :=
  ∃ f, frames w !! h = Some f ∧ awaited f = Some c.

(** [D] holds the frames nobody owns. *)
Definition owns D w (o : owner) (h : handle) : Prop :=
  match o with
  | OwnObject t => task_objects w !! t = Some h ∧ h ≠ null
  | OwnFrame h' => awaits w h' h
  | OwnNone => h ∈ D
  end.

(** [r] is a frame whose caller is being destroyed; [null] when there is none. *)
Record heap_wf D (r : handle) w : Prop := {
  hw_null : frames w !! null = None;
  hw_exists : ∀ o h, owns D w o h → is_Some (frames w !! h);
  hw_unique : ∀ o1 o2 h, owns D w o1 h → owns D w o2 h → o1 = o2;
  hw_owned : ∀ h, is_Some (frames w !! h) → ∃ o, owns D w o h;
  hw_caller : ∀ h f, h ≠ r → frames w !! h = Some f → caller_ f ≠ null →
    awaits w (caller_ f) h;
  hw_callee : ∀ h c f, awaits w h c → frames w !! c = Some f → caller_ f = h;
  hw_result : ∀ h f, frames w !! h = Some f → has_result f;
}.

(** ** Changes of the heap *)

Lemma awaits_insert w h f x c :
  awaits (set_frames (<[h := f]> (frames w)) w) x c ↔
    (x = h ∧ awaited f = Some c) ∨ (x ≠ h ∧ awaits w x c).
Proof.
  unfold awaits. cbn. destruct (decide (x = h)) as [->|Hne].
  - rewrite lookup_insert_eq. naive_solver.
  - rewrite lookup_insert_ne by done. naive_solver.
Qed.

Lemma awaits_delete w h x c :
  awaits (set_frames (delete h (frames w)) w) x c ↔ x ≠ h ∧ awaits w x c.
Proof.
  unfold awaits. cbn. destruct (decide (x = h)) as [->|Hne].
  - rewrite lookup_delete_eq. naive_solver.
  - rewrite lookup_delete_ne by done. naive_solver.
Qed.

(** A frame changes neither its caller nor what it awaits. *)
Lemma heap_wf_update D r w h f f' :
  heap_wf D r w → frames w !! h = Some f →
  caller_ f' = caller_ f → awaited f' = awaited f → has_result f' →
  heap_wf D r (set_frames (<[h := f']> (frames w)) w).
Proof.
  intros Hw Hf Hc Ha Hr. set (w' := set_frames _ _).
  assert (Haw : ∀ x c, awaits w' x c ↔ awaits w x c).
  { intros x c. unfold w'. rewrite awaits_insert. split.
    - intros [[-> E]|[_ E]]; [|done]. exists f. by rewrite <- Ha.
    - intros (g & Hg & E). destruct (decide (x = h)) as [->|]; [left|by right; split; [|exists g]].
      split; [done|]. congruence. }
  assert (Hown : ∀ o x, owns D w' o x ↔ owns D w o x) by (intros [] x; cbn; auto).
  assert (Hex : ∀ x, is_Some (frames w' !! x) ↔ is_Some (frames w !! x)).
  { intros x. unfold w'. cbn. destruct (decide (x = h)) as [->|].
    - rewrite lookup_insert_eq, Hf. split; by eexists.
    - by rewrite lookup_insert_ne. }
  destruct Hw as [H1 H2 H3 H4 H5 H6 H7]. split.
  - destruct (frames w' !! null) eqn:E; [|done].
    assert (is_Some (frames w !! null)) as [? ?] by (apply Hex; by eexists). congruence.
  - intros o x. rewrite Hown, Hex. apply H2.
  - intros o1 o2 x. rewrite !Hown. apply H3.
  - intros x. rewrite Hex. setoid_rewrite Hown. apply H4.
  - intros x g Hx. cbn. rewrite Haw. destruct (decide (h = x)) as [<-|].
    + rewrite lookup_insert_eq. intros [= <-]. rewrite Hc. by apply H5.
    + rewrite lookup_insert_ne by done. by apply H5.
  - intros x c g. rewrite Haw. cbn. destruct (decide (h = c)) as [<-|].
    + rewrite lookup_insert_eq. intros Hx [= <-]. rewrite Hc. by eapply H6.
    + rewrite lookup_insert_ne by done. by apply H6.
  - intros x g. cbn. destruct (decide (h = x)) as [<-|].
    + rewrite lookup_insert_eq. by intros [= <-].
    + rewrite lookup_insert_ne by done. apply H7.
Qed.

(** A new frame, owned by nobody yet. *)
Lemma heap_wf_create D r w h b :
  heap_wf D r w → frames w !! h = None → h ≠ null →
  heap_wf ({[h]} ∪ D) r (set_frames (<[h := MkFrame null None None (PBody b)]> (frames w)) w).
Proof.
  intros Hw Hf Hn. pose proof Hw as [H1 H2 H3 H4 H5 H6 H7]. set (w' := set_frames _ _).
  assert (Haw : ∀ x c, awaits w' x c ↔ awaits w x c).
  { intros x c. unfold w'. rewrite awaits_insert. cbn. split; [by intros [[_ ?]|[_ ?]]|].
    intros Ha. right. split; [|done]. intros ->. destruct Ha as (g & Hg & _). congruence. }
  assert (Hold : ∀ o, ¬ owns D w o h).
  { intros o [? Ho]%H2. congruence. }
  assert (Hown : ∀ o x, owns ({[h]} ∪ D) w' o x ↔ owns D w o x ∨ (o = OwnNone ∧ x = h)).
  { intros [] x; cbn; rewrite ?Haw; set_solver. }
  split.
  - cbn. by rewrite lookup_insert_ne.
  - intros o x. rewrite Hown. cbn. intros [Ho|[-> ->]].
    + rewrite lookup_insert_is_Some. destruct (decide (h = x)); [by left|right; eauto].
    + rewrite lookup_insert_eq. by eexists.
  - intros o1 o2 x. rewrite !Hown. naive_solver.
  - intros x. setoid_rewrite Hown. cbn. rewrite lookup_insert_is_Some.
    intros [<-|[_ Hx]]; [exists OwnNone; by right|]. destruct (H4 x Hx) as [o Ho]. eauto.
  - intros x g Hx. rewrite Haw. cbn. destruct (decide (h = x)) as [<-|].
    + rewrite lookup_insert_eq. by intros [= <-].
    + rewrite lookup_insert_ne by done. by apply H5.
  - intros x c g. rewrite Haw. cbn. intros Hx. destruct (decide (h = c)) as [<-|].
    + by destruct (Hold (OwnFrame x)).
    + rewrite lookup_insert_ne by done. by apply H6.
  - intros x g. cbn. destruct (decide (h = x)) as [<-|].
    + rewrite lookup_insert_eq. by intros [= <-].
    + rewrite lookup_insert_ne by done. apply H7.
Qed.

(** A frame nobody owns has no other owner. *)
Lemma unowned_sole D r w h : heap_wf ({[h]} ∪ D) r w →
  ∀ o, owns ({[h]} ∪ D) w o h → o = OwnNone.
Proof. intros Hw o Ho. apply (hw_unique _ _ _ Hw _ OwnNone h Ho). cbn. set_solver. Qed.

(** *** [co_await]: the awaiting frame becomes the owner of the callee *)

Section await.
Context (D : gset handle) (w : task_world V) (h c : handle) (f g : frame V)
  (k : V + exn → body V).
Context (Hne : h ≠ c) (Hf : frames w !! h = Some f) (Haf : awaited f = None)
  (Hg : frames w !! c = Some g).

Definition awaiting : task_world V :=
  set_frames (<[c := set_caller h g]> (<[h := set_point (PAwait c k) f]> (frames w))) w.

Lemma awaiting_frames x : frames awaiting !! x =
  if decide (x = c) then Some (set_caller h g)
  else if decide (x = h) then Some (set_point (PAwait c k) f) else frames w !! x.
Proof. cbn. rewrite !lookup_insert. repeat case_decide; congruence. Qed.

Lemma awaiting_exists x : is_Some (frames awaiting !! x) ↔ is_Some (frames w !! x).
Proof.
  rewrite awaiting_frames. repeat case_decide; subst; rewrite ?Hf, ?Hg; split; try done; by eexists.
Qed.

Lemma awaiting_before y : ¬ awaits w h y.
Proof. intros (f' & ? & ?). congruence. Qed.

Lemma awaiting_awaits x y :
  awaits awaiting x y ↔ (x = h ∧ y = c) ∨ (x ≠ h ∧ awaits w x y).
Proof.
  split.
  - intros (f0 & Hl & Ha). rewrite awaiting_frames in Hl. repeat case_decide; subst; simplify_eq.
    + right. split; [done|]. by exists g.
    + left. split; [done|]. by injection Ha.
    + right. split; [done|]. by exists f0.
  - intros [[-> ->]|[Hx (f0 & Hl & Ha)]].
    + exists (set_point (PAwait c k) f). rewrite awaiting_frames. by rewrite decide_False, decide_True.
    + destruct (decide (x = c)) as [->|].
      * exists (set_caller h g). rewrite awaiting_frames, decide_True by done. split; [done|].
        by replace g with f0 by congruence.
      * exists f0. by rewrite awaiting_frames, !decide_False.
Qed.

Lemma awaiting_owns (HD : c ∉ D) o x : owns D awaiting o x ↔
  (o = OwnFrame h ∧ x = c) ∨ (owns ({[c]} ∪ D) w o x ∧ (o = OwnNone → x ≠ c)).
Proof.
  destruct o as [t|y|]; cbn -[awaiting]; rewrite ?awaiting_awaits.
  - split; [intros ?; by right|]. by intros [[? _]|[? _]].
  - split.
    + intros [[-> ->]|[? ?]]; [by left|by right].
    + intros [[[= ->] ->]|[Ha _]]; [by left|]. right. split; [|done]. intros ->.
      by eapply awaiting_before.
  - set_solver.
Qed.

Lemma heap_wf_await : heap_wf ({[c]} ∪ D) null w → c ∉ D → heap_wf D null awaiting.
Proof.
  intros Hw HD. pose proof (unowned_sole _ _ _ _ Hw) as Hcown.
  destruct Hw as [H1 H2 H3 H4 H5 H6 H7]. split.
  - destruct (frames awaiting !! null) eqn:E; [|done].
    assert (is_Some (frames w !! null)) as [? ?] by (apply awaiting_exists; by eexists). congruence.
  - intros o x. rewrite awaiting_owns, awaiting_exists by done.
    intros [[-> ->]|[Ho _]]; [by eexists|eauto].
  - intros o1 o2 x. rewrite !awaiting_owns by done.
    intros [[-> ->]|[Ho1 Hx1]] [[-> Hx]|[Ho2 Hx2]]; subst; try done.
    + apply Hcown in Ho2 as ->. by destruct Hx2.
    + apply Hcown in Ho1 as ->. by destruct Hx1.
    + eauto.
  - intros x. rewrite awaiting_exists. intros [o Ho]%H4.
    destruct (decide (x = c)) as [->|].
    + exists (OwnFrame h). apply awaiting_owns; [done|by left].
    + exists o. apply awaiting_owns; [done|by right].
  - intros x g' Hx. rewrite awaiting_frames, awaiting_awaits. repeat case_decide; subst.
    + intros [= <-] _. cbn. by left.
    + intros [= <-]. cbn. intros Hc. right. split; [|by apply H5].
      intros E. apply (awaiting_before h). rewrite <- E at 1. by apply H5.
    + intros Hx' Hc. right. split; [|by apply H5].
      intros E. apply (awaiting_before x). rewrite <- E. by apply H5.
  - intros x y g'. rewrite awaiting_awaits, awaiting_frames. intros [[-> ->]|[Hx Ha]].
    + rewrite decide_True by done. by intros [= <-].
    + repeat case_decide; subst; [|intros [= <-]; cbn; by eapply H6|by apply H6].
      assert (OwnFrame x = OwnNone); [|done]. by apply Hcown.
  - intros x g'. rewrite awaiting_frames. repeat case_decide; subst; [| |apply H7].
    + intros [= <-]. apply (H7 _ _ Hg).
    + by intros [= <-].
Qed.
End await.

(** *** [await_resume] is over: the callee's frame is destroyed *)

Section collect.
Context (D : gset handle) (w : task_world V) (h c : handle) (f g : frame V).
Context (Hw : heap_wf D null w) (Hf : frames w !! h = Some f) (Haf : awaited f = Some c)
  (Hg : frames w !! c = Some g) (Hag : awaited g = None).

Definition collected : task_world V :=
  set_frames (delete c (<[h := set_point PRunning f]> (frames w))) w.

Lemma collected_ne : h ≠ c.
Proof. intros ->. congruence. Qed.

Lemma collected_frames x : frames collected !! x =
  if decide (x = c) then None
  else if decide (x = h) then Some (set_point PRunning f) else frames w !! x.
Proof.
  cbn. pose proof collected_ne. rewrite lookup_delete, lookup_insert.
  repeat case_decide; congruence.
Qed.

Lemma collected_awaits x y : awaits collected x y ↔ x ≠ h ∧ awaits w x y.
Proof.
  split.
  - intros (f0 & Hl & Ha). rewrite collected_frames in Hl. repeat case_decide; simplify_eq.
    split; [done|]. by exists f0.
  - intros [Hx (f0 & Hl & Ha)]. exists f0. rewrite collected_frames.
    rewrite decide_False by (intros ->; congruence). by rewrite decide_False.
Qed.

Lemma collected_owns o x : owns D collected o x ↔ owns D w o x ∧ o ≠ OwnFrame h.
Proof.
  destruct o as [t|y|]; cbn -[collected]; rewrite ?collected_awaits;
    (split; [intros Ho; split|intros [Ho Hn]]); try done; try apply Ho.
  - intros [= ->]. by destruct Ho.
  - split; [|done]. by intros ->.
Qed.

Lemma heap_wf_collect : heap_wf D null collected.
Proof.
  assert (Hcown : ∀ o, owns D w o c → o = OwnFrame h).
  { intros o Ho. apply (hw_unique _ _ _ Hw _ (OwnFrame h) c Ho). by exists f. }
  assert (Hhx : ∀ x, awaits w h x → x = c) by (intros x (f' & ? & ?); congruence).
  destruct Hw as [H1 H2 H3 H4 H5 H6 H7]. split.
  - rewrite collected_frames. repeat case_decide; try done. subst. congruence.
  - intros o x. rewrite collected_owns, collected_frames. intros [Ho Hoh].
    repeat case_decide; subst; [|by eexists|eauto]. by destruct Hoh; apply Hcown.
  - intros o1 o2 x. rewrite !collected_owns. naive_solver.
  - intros x. rewrite collected_frames. case_decide; [by intros []|].
    intros Hx. assert (is_Some (frames w !! x)) as [o Ho]%H4.
    { case_decide; [subst; by eexists|done]. }
    exists o. apply collected_owns. split; [done|]. intros ->. by apply Hhx in Ho.
  - intros x g' Hx. rewrite collected_awaits, collected_frames. case_decide; [done|]. intros Hx' Hc.
    assert (∃ g0, frames w !! x = Some g0 ∧ caller_ g0 = caller_ g') as (g0 & Hg0 & Eg).
    { case_decide; [subst; injection Hx' as <-; by exists f|by exists g']. }
    rewrite <- Eg in *. pose proof (H5 x g0 Hx Hg0 Hc) as Ha. split; [|done].
    intros E. rewrite E in Ha. by apply Hhx in Ha.
  - intros x y g'. rewrite collected_awaits, collected_frames. intros [Hx Ha]. case_decide; [done|].
    case_decide; [|by apply H6]. subst. intros [= <-]. cbn. by eapply H6.
  - intros x g'. rewrite collected_frames. case_decide; [done|]. case_decide; [|apply H7].
    by intros [= <-].
Qed.
End collect.

(** *** Destroying a frame nobody owns leaves what it awaited without owner *)

Section destroy.
Context (D : gset handle) (w : task_world V) (h : handle) (f : frame V).
Context (Hw : heap_wf ({[h]} ∪ D) h w) (HD : h ∉ D) (Hf : frames w !! h = Some f).

Definition destroyed : task_world V := set_frames (delete h (frames w)) w.
Definition orphans : gset handle :=
  match awaited f with Some c => {[c]} ∪ D | None => D end.

Lemma destroyed_frames x :
  frames destroyed !! x = if decide (x = h) then None else frames w !! x.
Proof. cbn. rewrite lookup_delete. repeat case_decide; congruence. Qed.

Lemma destroyed_awaits x y : awaits destroyed x y ↔ x ≠ h ∧ awaits w x y.
Proof. apply awaits_delete. Qed.

Lemma destroyed_callee c : awaited f = Some c → awaits w h c ∧ c ∉ D ∧ c ≠ h.
Proof.
  intros Ha. assert (Haw : awaits w h c) by by exists f. split_and!; [done| |].
  - intros Hin. assert (OwnFrame h = OwnNone); [|done].
    apply (hw_unique _ _ _ Hw _ _ c); [done|]. cbn. set_solver.
  - intros ->. by assert (OwnFrame h = OwnNone) by by eapply unowned_sole.
Qed.

Lemma destroyed_owns o x : owns orphans destroyed o x ↔
  (owns ({[h]} ∪ D) w o x ∧ x ≠ h ∧ o ≠ OwnFrame h) ∨ (o = OwnNone ∧ awaited f = Some x).
Proof.
  pose proof (unowned_sole _ _ _ _ Hw) as Hhown.
  destruct o as [t|y|]; cbn -[destroyed]; rewrite ?destroyed_awaits.
  - split; [|naive_solver]. intros [Ht Hn]. left. split_and!; try done. intros ->.
    by assert (OwnObject t = OwnNone) by by apply Hhown.
  - split; [|naive_solver]. intros [Hy Ha]. left. split_and!; [done| |congruence].
    intros ->. by assert (OwnFrame y = OwnNone) by by apply Hhown.
  - unfold orphans. destruct (awaited f) as [c|]; set_solver.
Qed.

Lemma destroyed_wf : heap_wf orphans (default null (awaited f)) destroyed.
Proof.
  pose proof destroyed_callee as Hc. destruct Hw as [H1 H2 H3 H4 H5 H6 H7]. split.
  - rewrite destroyed_frames. by case_decide.
  - intros o x. rewrite destroyed_owns, destroyed_frames. intros [(Ho & Hx & _)|[-> Ha]].
    + rewrite decide_False by done. eauto.
    + destruct (Hc x Ha) as (Haw' & _ & Hne). rewrite decide_False by done.
      by apply (H2 (OwnFrame h)).
  - intros o1 o2 x. rewrite !destroyed_owns.
    intros [(Ho1 & Hx1 & Hn1)|[-> Ha1]] [(Ho2 & Hx2 & Hn2)|[-> Ha2]]; try done; [eauto|..].
    + destruct Hn1. apply (H3 _ _ x Ho1). by apply Hc.
    + destruct Hn2. apply (H3 _ _ x Ho2). by apply Hc.
  - intros x. rewrite destroyed_frames. case_decide; [by intros []|]. intros [o Ho]%H4.
    setoid_rewrite destroyed_owns. destruct o as [t|y|]; [by exists (OwnObject t); left| |
      by exists OwnNone; left].
    destruct (decide (y = h)) as [->|Hy]; [|exists (OwnFrame y); left; split_and!; congruence].
    destruct Ho as (f' & Hf' & Ha). exists OwnNone. right. split; [done|]. congruence.
  - intros x g Hx. rewrite destroyed_frames, destroyed_awaits. case_decide; [done|]. intros Hg Hn.
    pose proof (H5 x g ltac:(done) Hg Hn) as Ha. split; [|done]. intros E. rewrite E in Ha.
    destruct Ha as (f' & Hf' & Ha). apply Hx.
    assert (f' = f) as -> by congruence. by rewrite Ha.
  - intros x y g. rewrite destroyed_awaits, destroyed_frames. case_decide; [done|].
    intros [_ ?]. by apply H6.
  - intros x g. rewrite destroyed_frames. case_decide; [done|]. apply H7.
Qed.

Lemma heap_wf_delete :
  match awaited f with
  | None => heap_wf D null destroyed
  | Some c => heap_wf ({[c]} ∪ D) c destroyed ∧ c ∉ D ∧ c ≠ h
  end.
Proof.
  pose proof destroyed_wf as Hwf. pose proof destroyed_callee as Hc. unfold orphans in Hwf.
  destruct (awaited f) as [c|]; [|done]. by destruct (Hc c eq_refl) as (_ & ? & ?).
Qed.
End destroy.

Lemma heap_wf_root D w h : heap_wf D null w → heap_wf D h w.
Proof.
  intros [H1 H2 H3 H4 H5 H6 H7]. split; try done. intros x f _ Hx. apply H5; [|done].
  intros ->. congruence.
Qed.

(** ** Changes of the objects *)

(** An object gives its frame up. *)
Lemma heap_wf_release D r w t h :
  heap_wf D r w → task_objects w !! t = Some h → h ≠ null →
  heap_wf ({[h]} ∪ D) r (set_objects (<[t := null]> (task_objects w)) w) ∧ h ∉ D.
Proof.
  intros Hw Ht Hn. pose proof Hw as [H1 H2 H3 H4 H5 H6 H7].
  assert (Hto : owns D w (OwnObject t) h) by done.
  assert (HD : h ∉ D). { intros Hin. by assert (OwnObject t = OwnNone) by by eapply H3. }
  split; [|done].
  set (w' := set_objects _ w).
  assert (Hown : ∀ x y, owns ({[h]} ∪ D) w' x y ↔
    (owns D w x y ∧ x ≠ OwnObject t) ∨ (x = OwnNone ∧ y = h)).
  { intros [t'|y'|] y; cbn.
    - destruct (decide (t' = t)) as [->|Ht'].
      + rewrite lookup_insert_eq. naive_solver.
      + rewrite lookup_insert_ne by done. naive_solver.
    - naive_solver.
    - set_solver. }
  split; try done.
  - intros x y. rewrite Hown. intros [[Hx _]|[-> ->]]; eauto.
  - intros x1 x2 y. rewrite !Hown.
    intros [[Hx1 Hn1]|[-> ->]] [[Hx2 Hn2]|[-> Hy]]; subst; eauto; [|];
      exfalso; eauto.
  - intros y [x Hx]%H4. setoid_rewrite Hown. destruct (decide (y = h)) as [->|Hy];
      [exists OwnNone; by right|].
    exists x. left. split; [done|]. intros ->. destruct Hx as [Hx _]. congruence.
Qed.

(** An object with no frame takes over one that nobody owns. *)
Lemma heap_wf_acquire D r w t h :
  heap_wf ({[h]} ∪ D) r w → h ∉ D → h ≠ null → default null (task_objects w !! t) = null →
  heap_wf D r (set_objects (<[t := h]> (task_objects w)) w).
Proof.
  intros [H1 H2 H3 H4 H5 H6 H7] HD Hn Ht. set (w' := set_objects _ w).
  assert (Hold : ∀ y, ¬ owns ({[h]} ∪ D) w (OwnObject t) y).
  { intros y [Hy Hny]. rewrite Hy in Ht. by cbn in Ht. }
  assert (Hnone : ∀ x, owns ({[h]} ∪ D) w x h → x = OwnNone).
  { intros x Hx. apply (H3 _ OwnNone h Hx). cbn. set_solver. }
  assert (Hown : ∀ x y, owns D w' x y ↔
    (owns ({[h]} ∪ D) w x y ∧ y ≠ h) ∨ (x = OwnObject t ∧ y = h)).
  { intros [t'|y'|] y; cbn.
    - destruct (decide (t' = t)) as [->|Ht'].
      + rewrite lookup_insert_eq. specialize (Hold y). cbn in Hold. naive_solver.
      + rewrite lookup_insert_ne by done. split; [|naive_solver]. intros [Hy Hny]. left.
        split; [done|]. intros ->. by assert (OwnObject t' = OwnNone) by by apply Hnone.
    - split; [|naive_solver]. intros Hy. left. split; [done|]. intros ->.
      by assert (OwnFrame y' = OwnNone) by by apply Hnone.
    - set_solver. }
  split; try done.
  - intros x y. rewrite Hown. intros [[Hx _]|[-> ->]]; [eauto|].
    apply (H2 OwnNone). cbn. set_solver.
  - intros x1 x2 y. rewrite !Hown. naive_solver.
  - intros y [x Hx]%H4. setoid_rewrite Hown. destruct (decide (y = h)) as [->|];
      [exists (OwnObject t)|exists x]; naive_solver.
Qed.

(** An object that owns no frame before and after. *)
Lemma heap_wf_null_object D r w (o' : gmap ptr handle) t :
  heap_wf D r w → default null (task_objects w !! t) = null →
  default null (o' !! t) = null → (∀ t', t' ≠ t → o' !! t' = task_objects w !! t') →
  heap_wf D r (set_objects o' w).
Proof.
  intros [H1 H2 H3 H4 H5 H6 H7] Ht Ht' Ho.
  assert (Hown : ∀ x y, owns D (set_objects o' w) x y ↔ owns D w x y).
  { intros [t'|y'|] y; cbn; try done. destruct (decide (t' = t)) as [->|Hne].
    - split; intros [Hy Hny]; rewrite Hy in *; by cbn in *.
    - by rewrite Ho. }
  split; try done; setoid_rewrite Hown; eauto.
Qed.
End own.
