(* ===== verification/TaskProps.v ===== *)
(** * Safety of [Task] operations and of control transfer *)

From S2P Require Import Prelude Task TaskOwn.

Section ops.
Context {V : Type} (moved_from : V → V).
Implicit Types (w : task_world V) (f : frame V) (D : gset handle)
  (F : gmap handle (frame V)) (o : gmap ptr handle).

(** No coroutine is running. *)
Definition quiet F : Prop := ∀ h f, F !! h = Some f → point_ f ≠ PRunning.

Lemma quiet_subseteq F F' : F' ⊆ F → quiet F → quiet F'.
Proof. intros Hs Hq h f Hf. eapply Hq, lookup_weaken; done. Qed.

(** Destroying a frame destroys the chain of frames it awaits. *)
Lemma frame_destroy_wf n D h F o :
  heap_wf ({[h]} ∪ D) h (MkTaskWorld F o) → h ∉ D → quiet F → size F ≤ n →
  ∃ F', (∀ o', frame_destroy_fuel n h (MkTaskWorld F o') = Ok tt (MkTaskWorld F' o')) ∧
    heap_wf D null (MkTaskWorld F' o) ∧ F' ⊆ F.
Proof.
  revert D h F. induction n as [|n IH]; intros D h F Hw HD Hq Hn;
    (assert (is_Some (F !! h)) as [f Hf];
      [apply (hw_exists _ _ _ Hw OwnNone); cbn; set_solver|]).
  { assert (F = ∅) as -> by (apply map_size_empty_inv; lia). by rewrite lookup_empty in Hf. }
  pose proof (heap_wf_delete D _ h f Hw HD Hf) as Hdel.
  assert (Hsz : size F = S (size (delete h F))).
  { rewrite map_size_delete_Some by by eexists. assert (size F ≠ 0); [|lia].
    intros E%map_size_empty_inv. subst. by rewrite lookup_empty in Hf. }
  assert (Hstep : ∀ o', frame_destroy_fuel (S n) h (MkTaskWorld F o') =
    match point_ f with
    | PAwait c _ => frame_destroy_fuel n c
    | PRunning => undefined
    | _ => ret tt
    end (MkTaskWorld (delete h F) o')).
  { intros o'. cbn [frame_destroy_fuel]. unfold frame_at, bind at 1 2, get. cbn. by rewrite Hf. }
  unfold awaited in Hdel. specialize (Hq h f Hf) as Hnr.
  destruct (point_ f) as [b|c k| |] eqn:Ep; [| |done|].
  - exists (delete h F). split_and!; [done|done|apply delete_subseteq].
  - destruct Hdel as (Hw' & HcD & _).
    destruct (IH D c (delete h F)) as (F' & HF' & Hwf & Hsub); [done|done| |lia|].
    { eapply quiet_subseteq; [apply delete_subseteq|done]. }
    exists F'. split_and!; [|done|].
    + intros o'. by rewrite Hstep.
    + etrans; [done|apply delete_subseteq].
  - exists (delete h F). split_and!; [done|done|apply delete_subseteq].
Qed.

Lemma handle_destroy_wf D h F o :
  heap_wf ({[h]} ∪ D) null (MkTaskWorld F o) → h ∉ D → quiet F →
  ∃ F', (∀ o', handle_destroy h (MkTaskWorld F o') = Ok tt (MkTaskWorld F' o')) ∧
    heap_wf D null (MkTaskWorld F' o) ∧ quiet F'.
Proof.
  intros Hw HD Hq.
  destruct (frame_destroy_wf (S (size F)) D h F o) as (F' & H1 & H2 & H3);
    [by apply heap_wf_root|done|done|lia|].
  exists F'. split_and!; [done|done|by eapply quiet_subseteq].
Qed.

(** ** The operations on [Task] objects *)

Inductive task_op :=
| OpDefault (t : ptr)
| OpCall (t : ptr) (b : body V)        (** [Task t = coroutine();] *)
| OpMove (this t : ptr)
| OpMoveAssign (this t : ptr)
| OpDetach (t : ptr)
| OpDestroy (t : ptr)
| OpDestroyDetached (h : handle).      (** [handle.destroy()] of a detached frame *)

Definition exec_task_op (op : task_op) : M (task_world V) unit :=
  match op with
  | OpDefault t => Task_default t
  | OpCall t b => let! h := coroutine_create b in get_return_object t h
  | OpMove this t => Task_move this t
  | OpMoveAssign this t => Task_move_assign this t
  | OpDetach t => Task_detach t
  | OpDestroy t => Task_destroy t
  | OpDestroyDetached h => handle_destroy h
  end.

(** Objects are constructed where there is none, and used while alive. *)
Definition task_op_enabled D w (op : task_op) : Prop :=
  match op with
  | OpDefault t | OpCall t _ => task_objects w !! t = None
  | OpMove this t => task_objects w !! this = None ∧ is_Some (task_objects w !! t)
  | OpMoveAssign this t => is_Some (task_objects w !! this) ∧ is_Some (task_objects w !! t)
  | OpDetach t | OpDestroy t => is_Some (task_objects w !! t)
  | OpDestroyDetached h => h ∈ D
  end.

(** The frames without owner after the operation. *)
Definition detached_after D w (op : task_op) : gset handle :=
  match op with
  | OpDetach t =>
      match task_objects w !! t with
      | Some h => if is_null h then D else {[h]} ∪ D
      | None => D
      end
  | OpDestroyDetached h => D ∖ {[h]}
  | _ => D
  end.

(** What an operation promises. *)
Definition op_safe D w (op : task_op) : Prop :=
  ∃ w', exec_task_op op w = Ok tt w' ∧
    heap_wf (detached_after D w op) null w' ∧ quiet (frames w').

Lemma object_at_eq t h w : task_objects w !! t = Some h → object_at t w = Ok h w.
Proof. intros Ht. unfold object_at, bind, get. by rewrite Ht. Qed.

Lemma is_null_true h : is_null h = true ↔ h = null.
Proof. apply N.eqb_eq. Qed.
Lemma is_null_false h : is_null h = false ↔ h ≠ null.
Proof. apply N.eqb_neq. Qed.

Lemma OpDefault_safe D w t :
  heap_wf D null w → quiet (frames w) → task_op_enabled D w (OpDefault t) →
  op_safe D w (OpDefault t).
Proof.
  intros Hw Hq Ht. eexists. split_and!; [done| |done]. cbn in *.
  apply (heap_wf_null_object _ _ _ _ t Hw).
  - by rewrite Ht.
  - by rewrite lookup_insert_eq.
  - intros t' Hne. by rewrite lookup_insert_ne.
Qed.

Lemma OpCall_safe D w t b :
  heap_wf D null w → quiet (frames w) → task_op_enabled D w (OpCall t b) →
  op_safe D w (OpCall t b).
Proof.
  intros Hw Hq Ht. cbn in Ht.
  set (h := fresh ({[null]} ∪ dom (frames w)) : handle).
  assert (Hfresh : h ∉ ({[null]} ∪ dom (frames w) : gset handle)) by apply is_fresh.
  assert (Hn : h ≠ null) by set_solver.
  assert (Hh : frames w !! h = None) by (apply not_elem_of_dom; set_solver).
  assert (HD : h ∉ D).
  { intros Hin. destruct (hw_exists _ _ _ Hw OwnNone h Hin). congruence. }
  eexists. split_and!; [done| |].
  - cbn. fold h. apply (heap_wf_acquire _ _ (set_frames _ w)); [|done|done|cbn; by rewrite Ht].
    by apply heap_wf_create.
  - cbn. fold h. intros x f. destruct (decide (h = x)) as [<-|].
    + rewrite lookup_insert_eq. by intros [= <-].
    + rewrite lookup_insert_ne by done. apply Hq.
Qed.

Lemma OpDetach_safe D w t :
  heap_wf D null w → quiet (frames w) → task_op_enabled D w (OpDetach t) →
  op_safe D w (OpDetach t).
Proof.
  intros Hw Hq [h Ht]. exists (set_objects (<[t := null]> (task_objects w)) w).
  split_and!; [| |done].
  - cbn. unfold Task_detach. by rewrite (bind_ok _ _ _ _ _ (object_at_eq _ _ _ Ht)).
  - cbn. rewrite Ht. destruct (is_null h) eqn:Eh.
    + apply is_null_true in Eh as ->. apply (heap_wf_null_object _ _ _ _ t Hw).
      * by rewrite Ht.
      * by rewrite lookup_insert_eq.
      * intros t' Hne. by rewrite lookup_insert_ne.
    + by apply heap_wf_release, is_null_false.
Qed.

Lemma OpMove_safe D w this t :
  heap_wf D null w → quiet (frames w) → task_op_enabled D w (OpMove this t) →
  op_safe D w (OpMove this t).
Proof.
  intros Hw Hq [Hthis [h Ht]]. assert (Hne : this ≠ t) by congruence.
  eexists. split; [cbn; unfold Task_move; by rewrite (bind_ok _ _ _ _ _ (object_at_eq _ _ _ Ht))|].
  cbn. split; [|done]. unfold set_objects. cbn. rewrite insert_insert_ne by done.
  destruct (decide (h = null)) as [->|Hn].
  - apply (heap_wf_null_object _ _ (set_objects (<[t := null]> (task_objects w)) w) _ this).
    + apply (heap_wf_null_object _ _ w _ t Hw); [by rewrite Ht|by rewrite lookup_insert_eq|].
      intros t' ?. by rewrite lookup_insert_ne.
    + cbn. by rewrite lookup_insert_ne, Hthis by done.
    + by rewrite lookup_insert_eq.
    + intros t' ?. by rewrite lookup_insert_ne.
  - destruct (heap_wf_release _ _ _ _ _ Hw Ht Hn) as [Hw' HD].
    apply (heap_wf_acquire _ _ _ this h Hw' HD Hn). cbn.
    by rewrite lookup_insert_ne, Hthis by done.
Qed.

(** Clearing an object and destroying the frame it owned. *)
Lemma drop_frame D w t h :
  heap_wf D null w → quiet (frames w) → task_objects w !! t = Some h →
  ∃ F', (∀ o', (if negb (is_null h) then handle_destroy h else ret tt)
                 (MkTaskWorld (frames w) o') = Ok tt (MkTaskWorld F' o')) ∧
    heap_wf D null (MkTaskWorld F' (<[t := null]> (task_objects w))) ∧ quiet F'.
Proof.
  intros Hw Hq Ht. destruct (is_null h) eqn:Eh.
  - apply is_null_true in Eh as ->. exists (frames w). split_and!; [done| |done].
    apply (heap_wf_null_object _ _ w _ t Hw); [by rewrite Ht|by rewrite lookup_insert_eq|].
    intros t' ?. by rewrite lookup_insert_ne.
  - apply is_null_false in Eh.
    destruct (heap_wf_release _ _ _ _ _ Hw Ht Eh) as [Hw' HD].
    by apply (handle_destroy_wf D h (frames w)) in Hw'.
Qed.

Lemma OpMoveAssign_safe D w this t :
  heap_wf D null w → quiet (frames w) → task_op_enabled D w (OpMoveAssign this t) →
  op_safe D w (OpMoveAssign this t).
Proof.
  intros Hw Hq [[h Hthis] [h' Ht]]. unfold op_safe. cbn. unfold Task_move_assign.
  destruct (N.eqb_spec this t) as [->|Hne]; cbn [negb]; [by exists w|].
  destruct (drop_frame D w this h Hw Hq Hthis) as (F' & Hd & Hw' & Hq').
  specialize (Hd (task_objects w)). destruct w as [F o]. cbn in *.
  assert (Ht' : object_at t (MkTaskWorld F' o) = Ok h' (MkTaskWorld F' o))
    by by apply object_at_eq.
  eexists. split; [|split].
  - rewrite (bind_ok _ _ _ _ _ (object_at_eq this _ (MkTaskWorld F o) Hthis)).
    rewrite (bind_ok _ _ _ _ _ Hd). by rewrite (bind_ok _ _ _ _ _ Ht').
  - destruct (OpMove_safe D (MkTaskWorld F' (delete this o)) this t) as (w'' & He & Hwf & _).
    + apply (heap_wf_null_object _ _ _ (delete this o) this) in Hw'; cbn.
      * done.
      * by rewrite lookup_insert_eq.
      * by rewrite lookup_delete_eq.
      * intros t' ?. by rewrite lookup_delete_ne, lookup_insert_ne.
    + done.
    + split; cbn; [apply lookup_delete_eq|]. rewrite lookup_delete_ne by done. by eexists.
    + cbn in He. unfold Task_move, object_at, bind, get in He. cbn in He.
      rewrite lookup_delete_ne, Ht in He by done. cbn in He. unfold modify, set_objects in He.
      cbn in He. injection He as <-. cbn in Hwf. unfold set_objects. cbn.
      by rewrite insert_delete_eq in Hwf.
  - done.
Qed.

Lemma OpDestroy_safe D w t :
  heap_wf D null w → quiet (frames w) → task_op_enabled D w (OpDestroy t) →
  op_safe D w (OpDestroy t).
Proof.
  intros Hw Hq [h Ht]. unfold op_safe. cbn. unfold Task_destroy.
  destruct (drop_frame D w t h Hw Hq Ht) as (F' & Hd & Hw' & Hq').
  specialize (Hd (task_objects w)). destruct w as [F o]. cbn in *.
  eexists. split; [|split].
  - rewrite (bind_ok _ _ _ _ _ (object_at_eq t _ (MkTaskWorld F o) Ht)).
    by rewrite (bind_ok _ _ _ _ _ Hd).
  - unfold set_objects. cbn.
    apply (heap_wf_null_object _ _ _ (delete t o) t) in Hw'; cbn.
    + done.
    + by rewrite lookup_insert_eq.
    + by rewrite lookup_delete_eq.
    + intros t' ?. by rewrite lookup_delete_ne, lookup_insert_ne.
  - done.
Qed.

Lemma OpDestroyDetached_safe D w h :
  heap_wf D null w → quiet (frames w) → task_op_enabled D w (OpDestroyDetached h) →
  op_safe D w (OpDestroyDetached h).
Proof.
  intros Hw Hq Hh. cbn in Hh. destruct w as [F o].
  assert (E : D = {[h]} ∪ D ∖ {[h]}) by by apply union_difference_singleton_L.
  rewrite E in Hw.
  destruct (handle_destroy_wf (D ∖ {[h]}) h F o Hw) as (F' & Hd & Hw' & Hq'); [set_solver|done|].
  eexists. split; [exact (Hd o)|]. done.
Qed.

Lemma task_op_safe D w op :
  heap_wf D null w → quiet (frames w) → task_op_enabled D w op → op_safe D w op.
Proof.
  destruct op; [apply OpDefault_safe|apply OpCall_safe|apply OpMove_safe|apply OpMoveAssign_safe
    |apply OpDetach_safe|apply OpDestroy_safe|apply OpDestroyDetached_safe].
Qed.

(** ** Control transfer *)

(** The machine is about to do something meaningful: it resumes a suspended
    coroutine whose awaited task, if any, is finished; it runs the body of a
    running frame; it leaves a finished one. *)
Definition next_ok w (n : @next V) : Prop :=
  match n with
  | NResume h => ∃ f, frames w !! h = Some f ∧
      match point_ f with
      | PBody _ => True
      | PAwait c _ => ∃ g, frames w !! c = Some g ∧ point_ g = PFinal
      | PRunning | PFinal => False
      end
  | NRun h _ => ∃ f, frames w !! h = Some f ∧ point_ f = PRunning
  | NFinal h => ∃ f, frames w !! h = Some f ∧ point_ f = PFinal
  | NSuspended h => ∃ f b, frames w !! h = Some f ∧ point_ f = PBody b
  | NReturned => True
  end.

Definition step_safe D w (n : @next V) : Prop :=
  ∃ n' w', machine_step moved_from n w = Ok n' w' ∧ heap_wf D null w' ∧ next_ok w' n' ∧
    task_objects w' = task_objects w.

Lemma frame_at_lookup h f w : frames w !! h = Some f → frame_at h w = Ok f w.
Proof. intros Hf. unfold frame_at, bind, get. by rewrite Hf. Qed.

Lemma frame_update_lookup h f g w : frames w !! h = Some f →
  frame_update h g w = Ok tt (set_frames (<[h := g f]> (frames w)) w).
Proof.
  intros Hf. unfold frame_update. by rewrite (bind_ok _ _ _ _ _ (frame_at_lookup _ _ _ Hf)).
Qed.

Lemma handle_destroy_final h f w : frames w !! h = Some f → point_ f = PFinal →
  handle_destroy h w = Ok tt (set_frames (delete h (frames w)) w).
Proof.
  intros Hf Hp. unfold handle_destroy. erewrite bind_ok; [|done]. cbn [frame_destroy_fuel].
  rewrite (bind_ok _ _ _ _ _ (frame_at_lookup _ _ _ Hf)), Hp. done.
Qed.

Lemma resume_await_final h c k g w : frames w !! c = Some g → point_ g = PFinal →
  has_result g →
  ∃ r, resume_await moved_from h c k w =
    Ok (NRun h (k r)) (set_frames (delete c (frames w)) w).
Proof.
  intros Hg Hp Hr. specialize (Hr Hp).
  unfold resume_await, Task_await_resume, rethrow_or_take, take_value.
  destruct (exception_ g) as [e|] eqn:Ee; [exists (inr e)|destruct (value_ g) as [v|] eqn:Ev;
    [exists (inl v)|by destruct Hr as [[? ?]|[? ?]]]].
  - erewrite bind_ok; [|unfold try_catch, bind at 1 2; rewrite (frame_at_lookup _ _ _ Hg), Ee; done].
    by rewrite (bind_ok _ _ _ _ _ (handle_destroy_final _ _ _ Hg Hp)).
  - erewrite bind_ok; [|unfold try_catch, bind; rewrite (frame_at_lookup _ _ _ Hg), Ee;
      rewrite (frame_at_lookup _ _ _ Hg), Ev; done].
    erewrite bind_ok; [|eapply handle_destroy_final; [apply lookup_insert_eq|done]].
    unfold set_frames. cbn. by rewrite delete_insert_eq.
Qed.

Lemma resume_safe D w h : heap_wf D null w → next_ok w (NResume h) → step_safe D w (NResume h).
Proof.
  intros Hw (f & Hf & Hp). unfold step_safe. cbn [machine_step].
  rewrite (bind_ok _ _ _ _ _ (frame_at_lookup _ _ _ Hf)).
  destruct (point_ f) as [b|c k| |] eqn:Ep; try done;
    rewrite (bind_ok _ _ _ _ _ (frame_update_lookup _ _ _ _ Hf)).
  - exists (NRun h b). eexists. split_and!; [done| |by eexists; split; [apply lookup_insert_eq|]|done].
    apply (heap_wf_update _ _ _ _ f); try done. unfold awaited. by rewrite Ep.
  - destruct Hp as (g & Hg & Hpg).
    assert (Hne : h ≠ c) by (intros ->; congruence).
    set (w1 := set_frames _ w).
    assert (Hg1 : frames w1 !! c = Some g) by (cbn; by rewrite lookup_insert_ne).
    destruct (resume_await_final h c k g w1 Hg1 Hpg (hw_result _ _ _ Hw _ _ Hg)) as [r Hr].
    exists (NRun h (k r)). eexists. split_and!; [exact Hr| | |done].
    + apply (heap_wf_collect D w h c f g); try done; unfold awaited; [by rewrite Ep|by rewrite Hpg].
    + eexists. cbn. rewrite lookup_delete_ne by done. by rewrite lookup_insert_eq.
Qed.

Lemma finish_safe D w h f (u : frame V → frame V) :
  heap_wf D null w → frames w !! h = Some f → point_ f = PRunning →
  caller_ (u f) = caller_ f → is_Some (value_ (u f)) ∨ is_Some (exception_ (u f)) →
  ∃ w', (frame_update h u;;; frame_update h (set_point PFinal);;; ret (NFinal (V := V) h)) w =
      Ok (NFinal h) w' ∧
    heap_wf D null w' ∧ next_ok w' (NFinal (V := V) h) ∧ task_objects w' = task_objects w.
Proof.
  intros Hw Hf Hp Hc Hr. eexists. split_and!.
  - rewrite (bind_ok _ _ _ _ _ (frame_update_lookup _ _ _ _ Hf)).
    erewrite bind_ok; [|eapply frame_update_lookup; apply lookup_insert_eq]. done.
  - unfold set_frames. cbn. rewrite insert_insert_eq.
    apply (heap_wf_update _ _ _ _ f); try done; [|by intros _].
    unfold awaited. by rewrite Hp.
  - eexists. split; [apply lookup_insert_eq|done].
  - done.
Qed.

Lemma await_safe D w h c k : heap_wf D null w → next_ok w (NRun h (BAwait c k)) →
  step_safe D w (NRun h (BAwait c k)).
Proof.
  intros Hw (f & Hf & Hp). unfold step_safe. cbn [machine_step].
  set (callee := fresh ({[null]} ∪ dom (frames w)) : handle).
  assert (Hfresh : callee ∉ ({[null]} ∪ dom (frames w) : gset handle)) by apply is_fresh.
  assert (Hn : callee ≠ null) by set_solver.
  assert (Hc : frames w !! callee = None) by (apply not_elem_of_dom; set_solver).
  assert (Hne : h ≠ callee) by (intros ->; congruence).
  assert (HD : callee ∉ D).
  { intros Hin. destruct (hw_exists _ _ _ Hw OwnNone callee Hin). congruence. }
  set (g := MkFrame null None None (PBody c)).
  set (w1 := set_frames (<[callee := g]> (frames w)) w).
  assert (Hcr : coroutine_create c w = Ok callee w1) by done.
  rewrite (bind_ok _ _ _ _ _ Hcr).
  assert (Hg1 : frames w1 !! callee = Some g) by apply lookup_insert_eq.
  assert (Hf1 : frames w1 !! h = Some f) by (cbn; by rewrite lookup_insert_ne).
  assert (Hready : Task_await_ready callee w1 = Ok false w1).
  { unfold Task_await_ready. rewrite (proj2 (is_null_false _) Hn). unfold handle_done.
    by rewrite (bind_ok _ _ _ _ _ (frame_at_lookup _ _ _ Hg1)). }
  rewrite (bind_ok _ _ _ _ _ Hready).
  rewrite (bind_ok _ _ _ _ _ (frame_update_lookup _ _ _ _ Hf1)).
  unfold Task_await_suspend. rewrite bind_assoc.
  erewrite bind_ok; [|eapply frame_update_lookup; cbn; rewrite lookup_insert_ne by done; exact Hg1].
  eexists (NResume callee), _. split_and!; [done| | |done].
  - apply (heap_wf_await _ w1); try done.
    + unfold awaited. by rewrite Hp.
    + by apply heap_wf_create.
  - eexists. split; [apply lookup_insert_eq|done].
Qed.

Lemma step_is_safe D w n : heap_wf D null w → next_ok w n → step_safe D w n.
Proof.
  intros Hw Hn. destruct n as [h|h [v|e|c k|b]|h|h|].
  - by apply resume_safe.
  - destruct Hn as (f & Hf & Hp).
    destruct (finish_safe D w h f (set_value (Some v)) Hw Hf Hp) as (w' & H1 & H2 & H3 & H4);
      [done|left; by eexists|]. by exists (NFinal h), w'.
  - destruct Hn as (f & Hf & Hp).
    destruct (finish_safe D w h f (set_exception (Some e)) Hw Hf Hp) as (w' & H1 & H2 & H3 & H4);
      [done|right; by eexists|]. by exists (NFinal h), w'.
  - by apply await_safe.
  - destruct Hn as (f & Hf & Hp). unfold step_safe. cbn [machine_step].
    rewrite (bind_ok _ _ _ _ _ (frame_update_lookup _ _ _ _ Hf)).
    exists (NSuspended h). eexists. split_and!; [done| | |done].
    + apply (heap_wf_update _ _ _ _ f); try done. unfold awaited. by rewrite Hp.
    + eexists _, b. split; [apply lookup_insert_eq|done].
  - destruct Hn as (f & Hf & Hp). unfold step_safe. cbn [machine_step].
    unfold FinalAwaiter_await_suspend.
    rewrite bind_assoc, (bind_ok _ _ _ _ _ (frame_at_lookup _ _ _ Hf)).
    destruct (is_null (caller_ f)) eqn:En; cbn [negb]; unfold bind, ret.
    + by exists NReturned, w.
    + rewrite En. exists (NResume (caller_ f)), w. split_and!; [done|done| |done].
      apply is_null_false in En.
      destruct (hw_caller _ _ _ Hw h f) as (g & Hg & Ha); [|done|done|].
      { intros ->. rewrite (hw_null _ _ _ Hw) in Hf. done. }
      exists g. split; [done|]. unfold awaited in Ha. destruct (point_ g); try done.
      injection Ha as ->. by exists f.
  - by exists (NSuspended h), w.
  - by exists NReturned, w.
Qed.

Lemma machine_run_safe fuel D w n : heap_wf D null w → next_ok w n →
  match machine_run moved_from fuel n w with
  | Ok n' w' => heap_wf D null w' ∧ next_ok w' n' ∧ task_objects w' = task_objects w ∧
      (n' = NReturned ∨ ∃ h, n' = NSuspended h)
  | NoFuel => True
  | _ => False
  end.
Proof.
  revert w n. induction fuel as [|fuel IH]; intros w n Hw Hn.
  { destruct n; cbn; try done; split_and!; try done; [right; by eexists|by left]. }
  destruct (step_is_safe D w n Hw Hn) as (n1 & w1 & Hs & Hw1 & Hn1 & Ho).
  specialize (IH w1 n1 Hw1 Hn1). rewrite Ho in IH.
  destruct n; try (cbn -[machine_step]; rewrite (bind_ok _ _ _ _ _ Hs); exact IH);
    cbn; split_and!; try done; [right; by eexists|by left].
Qed.
End ops.

(** ** A concrete heap: object 1 owns frame 10, which awaits frame 11 *)

Definition demo_heap (p : point Z) : task_world Z :=
  MkTaskWorld
    (<[10%N := MkFrame null None None (PAwait 11%N (λ _, BReturn 0%Z))]>
       {[11%N := MkFrame 10%N None (Some 4%Z) p]})
    (<[2%N := null]> {[1%N := 10%N]}).

Lemma demo_heap_wf p : (∀ c k, p ≠ PAwait c k) → heap_wf ∅ null (demo_heap p).
Proof.
  intros Hp.
  assert (Haw : ∀ x y, awaits (demo_heap p) x y ↔ x = 10%N ∧ y = 11%N).
  { intros x y. split.
    - intros (f & Hf & Ha). cbn in Hf. apply lookup_insert_Some in Hf as [[<- <-]|[_ Hf]].
      + by injection Ha.
      + apply lookup_singleton_Some in Hf as [<- <-]. unfold awaited in Ha. cbn in Ha.
        destruct p; try done. by edestruct Hp.
    - intros [-> ->]. eexists. split; [reflexivity|done]. }
  assert (Hob : ∀ t h, owns ∅ (demo_heap p) (OwnObject t) h ↔ t = 1%N ∧ h = 10%N).
  { intros t h. cbn. rewrite lookup_insert_Some, lookup_singleton_Some. split.
    - intros [[[<- <-]|[_ [<- <-]]] Hn]; [by destruct Hn|done].
    - intros [-> ->]. split; [right|]; done. }
  split.
  - done.
  - intros [t|x|] h; [rewrite Hob| cbn; rewrite Haw|]; [intros [_ ->]|intros [_ ->]|];
      [by eexists|by eexists|cbn; set_solver].
  - intros [t1|x1|] [t2|x2|] h; rewrite ?Hob; cbn; rewrite ?Haw; try set_solver; intros H1 H2;
      destruct_and?; congruence.
  - intros h [f Hf]. cbn in Hf. apply lookup_insert_Some in Hf as [[<- _]|[_ Hf]].
    + exists (OwnObject 1%N). by apply Hob.
    + apply lookup_singleton_Some in Hf as [<- _]. exists (OwnFrame 10%N). by apply Haw.
  - intros h f _ Hf Hn. rewrite Haw. cbn in Hf.
    apply lookup_insert_Some in Hf as [[<- <-]|[_ Hf]]; [done|].
    by apply lookup_singleton_Some in Hf as [<- <-].
  - intros h c f [-> ->]%Haw [= <-]. done.
  - intros h f Hf. cbn in Hf. apply lookup_insert_Some in Hf as [[<- <-]|[_ Hf]]; [done|].
    apply lookup_singleton_Some in Hf as [<- <-]. left. by eexists.
Qed.

(** ** Properties *)

(** C23. Constructing, calling, moving, move-assigning, detaching and
    destroying [Task] objects never touch a frame that is gone and keep every
    frame owned exactly once, by an object, by the frame that awaits it, or -
    after [detach] - by nobody; in particular no frame is destroyed twice and
    none is lost. *)
Theorem task_unique_ownership {V} D (w : task_world V) (op : task_op) :
  heap_wf D null w → quiet (frames w) → task_op_enabled D w op →
  ∃ w', exec_task_op op w = Ok tt w' ∧
    heap_wf (detached_after D w op) null w' ∧ quiet (frames w').
Proof. apply task_op_safe. Qed.

Lemma task_unique_ownership_witness :
  heap_wf ∅ null (demo_heap (PBody (BReturn 1%Z))) ∧
  ∃ w', Task_move_assign 1%N 2%N (demo_heap (PBody (BReturn 1%Z))) = Ok tt w' ∧
    heap_wf ∅ null w' ∧ quiet (frames w').
Proof.
  assert (Hw : heap_wf ∅ null (demo_heap (PBody (BReturn 1%Z)))) by by apply demo_heap_wf.
  split; [exact Hw|]. apply (task_unique_ownership ∅ _ (OpMoveAssign 1%N 2%N) Hw).
  - intros h f Hf. cbn in Hf. apply lookup_insert_Some in Hf as [[_ <-]|[_ Hf]]; [done|].
    by apply lookup_singleton_Some in Hf as [_ <-].
  - split; by eexists.
Defined.

(** C24. Resuming a suspended coroutine, in a heap where ownership is
    respected, never has undefined behaviour until control returns: no transfer
    reaches a destroyed, running or unfinished frame, [await_resume] always
    finds a value or an exception, no [Task] object changes, and when control
    returns ownership is respected again. *)
Theorem task_transfer_safe {V} (moved_from : V → V) fuel D (w : task_world V) h :
  heap_wf D null w → next_ok w (NResume h) →
  match handle_resume moved_from fuel h w with
  | Ok n' w' => heap_wf D null w' ∧ next_ok w' n' ∧ task_objects w' = task_objects w ∧
      (n' = NReturned ∨ ∃ h', n' = NSuspended h')
  | NoFuel => True
  | _ => False
  end.
Proof. intros Hw Hn. by apply machine_run_safe. Qed.

Lemma task_transfer_safe_witness :
  handle_resume (λ _, 0%Z) 4 10%N (demo_heap PFinal) =
    Ok NReturned (MkTaskWorld {[10%N := MkFrame null None (Some 0%Z) PFinal]}
      (<[2%N := null]> {[1%N := 10%N]})) ∧
  match handle_resume (λ _, 0%Z) 4 10%N (demo_heap PFinal) with
  | Ok n' w' => heap_wf ∅ null w' ∧ next_ok w' n' ∧
      task_objects w' = task_objects (demo_heap PFinal) ∧
      (n' = NReturned ∨ ∃ h', n' = NSuspended h')
  | NoFuel => True
  | _ => False
  end.
Proof.
  split; [vm_compute; reflexivity|].
  apply (task_transfer_safe (λ _, 0%Z) 4 ∅ (demo_heap PFinal) 10%N).
  - by apply demo_heap_wf.
  - eexists. split; [reflexivity|]. cbn. eexists. split; [reflexivity|done].
Defined.

(** The awaiter of a [Task], in a heap where ownership is respected: on an
    unfinished coroutine it is not ready, and suspending records the caller and
    transfers to the coroutine; on a finished one it is ready, and resuming
    rethrows the stored exception or moves the stored value out.  On an empty
    [Task] it claims to be ready, and resuming dereferences the null handle.
    (task.h: await_ready, await_suspend, await_resume) *)
Theorem task_awaiter {V} (moved_from : V → V) D (w : task_world V) h f caller :
  heap_wf D null w → frames w !! h = Some f → point_ f ≠ PRunning →
  (point_ f ≠ PFinal →
     Task_await_ready h w = Ok false w ∧
     Task_await_suspend h caller w =
       Ok h (set_frames (<[h := set_caller caller f]> (frames w)) w)) ∧
  (point_ f = PFinal →
     Task_await_ready h w = Ok true w ∧
     match exception_ f with
     | Some e => Task_await_resume moved_from h w = Throw e w
     | None => ∃ v, value_ f = Some v ∧ Task_await_resume moved_from h w =
         Ok v (set_frames (<[h := set_value (Some (moved_from v)) f]> (frames w)) w)
     end) ∧
  Task_await_ready null w = Ok true w ∧ Task_await_resume moved_from null w = UB.
Proof.
  intros Hw Hf Hp. pose proof (hw_null _ _ _ Hw) as H0.
  assert (Hn : is_null h = false).
  { apply N.eqb_neq. intros ->. by rewrite H0 in Hf. }
  pose proof (hw_result _ _ _ Hw h f Hf) as Hr.
  unfold Task_await_ready, Task_await_suspend, Task_await_resume, rethrow_or_take, take_value,
    handle_done, frame_update, frame_store, frame_at, modify, bind, get.
  rewrite Hn, H0. split_and!; try done.
  - intros Hnf. rewrite Hf. cbn. by destruct (point_ f).
  - intros Hpf. rewrite Hf. cbn. rewrite Hpf. split; [done|].
    destruct (exception_ f) as [e|] eqn:He; [done|].
    destruct (Hr Hpf) as [[v Hv]|[e He']]; [|by rewrite He in He'].
    exists v. split; [done|]. rewrite Hf. cbn. by rewrite Hv.
Qed.

Lemma task_awaiter_witness :
  (Task_await_ready 11%N (demo_heap PFinal) = Ok true (demo_heap PFinal) ∧
   ∃ v, Some 4%Z = Some v ∧ Task_await_resume (λ _, 0%Z) 11%N (demo_heap PFinal) =
     Ok v (set_frames (<[11%N := MkFrame 10%N None (Some 0%Z) PFinal]> (frames (demo_heap PFinal)))
             (demo_heap PFinal))).
Proof.
  destruct (task_awaiter (λ _, 0%Z) ∅ (demo_heap PFinal) 11%N
    (MkFrame 10%N None (Some 4%Z) PFinal) null) as (_ & H & _).
  - by apply demo_heap_wf.
  - reflexivity.
  - done.
  - exact (H eq_refl).
Defined.
