(* ===== verification/Dispatcher.v ===== *)
(** * Dispatcher (src/include/runtime/dispatcher.h)

    Round-robin choice of a context.  [next_] is a [std::atomic<size_t>]: it
    wraps at 2^64. *)

From S2P Require Import Prelude.

Open Scope Z_scope.

Record Dispatcher := MkDispatcher { context_count_ : Z; next_ : Z }.

Definition Dispatcher_default : Dispatcher := MkDispatcher 1 0.

Definition Dispatcher_init (context_count : Z) : M Dispatcher unit :=
  modify (λ _, MkDispatcher (if context_count =? 0 then 1 else context_count) 0).

Definition dispatch : M Dispatcher Z :=
  let! d := get in
  put (MkDispatcher (context_count_ d) (u64 (next_ d + 1)));;;
  umod (next_ d) (context_count_ d).

(** [n] calls in a row, and the contexts they chose. *)
Fixpoint dispatch_many (n : nat) : M Dispatcher (list Z) :=
  match n with
  | O => ret []
  | S n' => let! i := dispatch in let! js := dispatch_many n' in ret (i :: js)
  end.

(** The values the class keeps: [init] and [dispatch] establish them. *)
Definition dispatcher_wf (d : Dispatcher) : Prop :=
  0 < context_count_ d < 2 ^ 64 ∧ 0 ≤ next_ d < 2 ^ 64.

Lemma Dispatcher_init_wf n d : 0 ≤ n < 2 ^ 64 →
  ∃ d', Dispatcher_init n d = Ok tt d' ∧ dispatcher_wf d' ∧
    context_count_ d' = Z.max 1 n ∧ next_ d' = 0.
Proof.
  intros Hn. eexists. split; [done|]. unfold dispatcher_wf. cbn.
  destruct (Z.eqb_spec n 0); lia.
Qed.

Lemma dispatch_eq d : dispatcher_wf d →
  dispatch d = Ok (next_ d `mod` context_count_ d)
    (MkDispatcher (context_count_ d) (u64 (next_ d + 1))).
Proof.
  intros [Hc Hn]. unfold dispatch, umod, bind, get, put.
  by rewrite (proj2 (Z.eqb_neq (context_count_ d) 0)) by lia.
Qed.

Lemma dispatch_wf d : dispatcher_wf d →
  dispatcher_wf (MkDispatcher (context_count_ d) (u64 (next_ d + 1))).
Proof. intros [Hc Hn]. split; [done|]. apply u64_range. Qed.

Lemma dispatch_many_eq n d : dispatcher_wf d →
  ∃ d', dispatch_many n d =
      Ok ((λ i, u64 (next_ d + Z.of_nat i) `mod` context_count_ d) <$> seq 0 n) d' ∧
    dispatcher_wf d' ∧ context_count_ d' = context_count_ d.
Proof.
  revert d. induction n as [|n IH]; intros d Hd; [by exists d|].
  pose proof (dispatch_wf d Hd) as Hd1.
  destruct (IH _ Hd1) as (d' & Hrun & Hwf & Hcc). cbn [context_count_ next_] in *.
  exists d'. split; [|done]. cbn [dispatch_many].
  rewrite (bind_ok _ _ _ _ _ (dispatch_eq d Hd)), (bind_ok _ _ _ _ _ Hrun).
  cbn [seq fmap list_fmap]. unfold ret. f_equal. f_equal.
  - rewrite Z.add_0_r. by rewrite u64_small by apply Hd.
  - rewrite <- fmap_S_seq, <- list_fmap_compose. apply list_fmap_ext. intros _ i _. cbn.
    rewrite u64_add_l. do 2 f_equal. lia.
Qed.

(** [c] consecutive numbers have pairwise distinct residues modulo [c]. *)
Lemma consecutive_residues a (c : nat) : (c ≠ 0)%nat →
  Permutation ((λ i, (a + Z.of_nat i) `mod` Z.of_nat c) <$> seq 0 c)
    (Z.of_nat <$> seq 0 c).
Proof.
  intros Hc. symmetry. apply submseteq_length_Permutation; [|by rewrite !length_fmap].
  apply NoDup_submseteq.
  - apply NoDup_fmap_2_strong; [|apply NoDup_seq]. intros x y _ _. lia.
  - intros x (i & -> & Hi)%list_elem_of_fmap. apply elem_of_seq in Hi.
    apply list_elem_of_fmap.
    exists (Z.to_nat ((Z.of_nat i - a) `mod` Z.of_nat c)).
    pose proof (Z.mod_pos_bound (Z.of_nat i - a) (Z.of_nat c) ltac:(lia)).
    split; [|apply elem_of_seq; lia].
    rewrite Z2Nat.id by lia. rewrite Z.add_mod_idemp_r by lia.
    replace (a + (Z.of_nat i - a)) with (Z.of_nat i) by lia.
    rewrite Z.mod_small; lia.
Qed.

(** ** Properties *)


