(* ===== verification/Uring.v ===== *)
(** * IoUring (src/include/io_uring.h)

    The wrapper over liburing.  liburing is outside the repository: its
    functions are the operations of a class, its documented behaviour the laws
    of a second class, and [sim_ring] a ring that has that behaviour. *)

From S2P Require Import Prelude.

Open Scope Z_scope.

Definition EAGAIN : Z := 11.

Inductive io_kind := IoRead | IoWrite.

Record IoInfo := MkIoInfo { user_data : Z; result : Z }.

(** ** liburing *)

Class Liburing (U : Type) := {
  (** the negated errno, or 0 and a ring *)
  io_uring_queue_init : Z → Z * U;
  (** the address of an unused submission entry, or null *)
  io_uring_get_sqe : U → option ptr * U;
  (** [io_uring_prep_read]/[_write]: entry, fd, buffer, length (an [unsigned]),
      offset *)
  io_uring_prep : io_kind → ptr → Z → ptr → Z → Z → U → U;
  (** [sqe->user_data = d] *)
  sqe_set_user_data : ptr → Z → U → U;
  io_uring_submit : U → Z * U;
  (** the return code and the completion entry *)
  io_uring_wait_cqe : U → Z * option IoInfo * U;
  io_uring_peek_cqe : U → Z * option IoInfo * U;
  (** marks the entry at the head as consumed *)
  io_uring_cqe_seen : U → U;
}.

(** The user data of the entries prepared but not submitted, and of those
    submitted whose completion has not been consumed. *)
Class LiburingLaws (U : Type) `{!Liburing U} := {
  sqes_prepared : U → list Z;
  sqes_accepted : U → list Z;
  sq_entries : U → Z;
  law_get_sqe : ∀ u, Z.of_nat (length (sqes_prepared u)) < sq_entries u →
    ∃ sqe u', io_uring_get_sqe u = (Some sqe, u') ∧
      ∀ k fd buf len offset d,
        let u'' := sqe_set_user_data sqe d (io_uring_prep k sqe fd buf len offset u') in
        sqes_prepared u'' = sqes_prepared u ++ [d] ∧ sqes_accepted u'' = sqes_accepted u ∧
        sq_entries u'' = sq_entries u;
  law_submit : ∀ u, let '(n, u') := io_uring_submit u in
    sq_entries u' = sq_entries u ∧
    ((n < 0 ∧ sqes_prepared u' = sqes_prepared u ∧ sqes_accepted u' = sqes_accepted u) ∨
     (0 ≤ n ∧ sqes_prepared u = take (Z.to_nat n) (sqes_prepared u) ++ sqes_prepared u' ∧
      n = Z.of_nat (length (take (Z.to_nat n) (sqes_prepared u))) ∧
      sqes_accepted u' = sqes_accepted u ++ take (Z.to_nat n) (sqes_prepared u)));
  law_peek : ∀ u, let '(r, cqe, u') := io_uring_peek_cqe u in
    sq_entries u' = sq_entries u ∧ sqes_prepared u' = sqes_prepared u ∧
    sqes_accepted u' = sqes_accepted u ∧
    ∀ info, 0 ≤ r → cqe = Some info →
      let u'' := io_uring_cqe_seen u' in
      sq_entries u'' = sq_entries u ∧ sqes_prepared u'' = sqes_prepared u ∧
      sqes_accepted u ≡ₚ user_data info :: sqes_accepted u'';
}.

(** A new ring holds nothing, and a ring with nothing to report says so. *)
Class LiburingIdle (U : Type) `{!Liburing U, !LiburingLaws U} : Prop := {
  idle_init : ∀ depth r u, io_uring_queue_init depth = (r, u) → 0 ≤ r →
    sqes_prepared u = [] ∧ sqes_accepted u = [];
  idle_peek : ∀ u, sqes_accepted u = [] →
    let '(r, cqe, _) := io_uring_peek_cqe u in r = - EAGAIN ∨ (0 ≤ r ∧ cqe = None);
}.

(** What the kernel is asked to do. *)
Record io_request := MkRequest {
  rq_kind : io_kind;
  rq_fd : Z;
  rq_buf : ptr;
  rq_len : Z;
  rq_offset : Z;
}.

(** The contents of the entries: an outstanding request is known by its user
    data, as long as no two have the same, and its completion carries an
    answer to it. *)
Class LiburingRequests (U : Type) `{!Liburing U, !LiburingLaws U} := {
  request_of : U → Z → option io_request;
  answers : io_request → Z → Prop;
  law_prep : ∀ u sqe u' k fd buf len offset d,
    io_uring_get_sqe u = (Some sqe, u') → Z.of_nat (length (sqes_prepared u)) < sq_entries u →
    d ∉ sqes_prepared u ++ sqes_accepted u →
    let u'' := sqe_set_user_data sqe d (io_uring_prep k sqe fd buf len offset u') in
    request_of u'' d = Some (MkRequest k fd buf len offset) ∧
    ∀ d', d' ∈ sqes_prepared u ++ sqes_accepted u → request_of u'' d' = request_of u d';
  law_submit_requests : ∀ u d, NoDup (sqes_prepared u ++ sqes_accepted u) →
    request_of (snd (io_uring_submit u)) d = request_of u d;
  law_peek_requests : ∀ u, NoDup (sqes_prepared u ++ sqes_accepted u) →
    let '(r, cqe, u') := io_uring_peek_cqe u in
    (∀ d, request_of u' d = request_of u d) ∧
    ∀ info, 0 ≤ r → cqe = Some info →
      (∀ q, request_of u (user_data info) = Some q → answers q (result info)) ∧
      ∀ d, d ≠ user_data info → request_of (io_uring_cqe_seen u') d = request_of u d;
}.

Section uring.
Context {U : Type} `{!Liburing U}.

(** ** The member functions *)

Definition IoUring_make (queue_depth : Z) : M U unit :=
  let '(r, u) := io_uring_queue_init queue_depth in
  put u;;;
  if r <? 0 then throw (runtime_error "io_uring_queue_init failed") else ret tt.

Definition uring_get_sqe : M U (option ptr) := λ u,
  let '(sqe, u') := io_uring_get_sqe u in Ok sqe u'.

(** [submit_read] and [submit_write], [k] being which; the [size_t] length is
    converted to the [unsigned] that liburing takes. *)
Definition IoUring_submit_rw (k : io_kind) (fd : Z) (buf : ptr) (len offset user_data : Z)
    : M U unit :=
  let! sqe := uring_get_sqe in
  match sqe with
  | None => throw (runtime_error "io_uring_get_sqe failed")
  | Some sqe =>
      modify (io_uring_prep k sqe fd buf (u32 len) offset);;;
      modify (sqe_set_user_data sqe user_data)
  end.

Definition IoUring_submit_read := IoUring_submit_rw IoRead.
Definition IoUring_submit_write := IoUring_submit_rw IoWrite.

Definition IoUring_submit : M U Z := λ u,
  let '(n, u') := io_uring_submit u in Ok n u'.

Definition IoUring_wait_one : M U IoInfo :=
  let! p := (λ u, let '(r, cqe, u') := io_uring_wait_cqe u in Ok (r, cqe) u') in
  let '(r, cqe) := p : Z * option IoInfo in
  if r <? 0 then throw (runtime_error "io_uring_wait_cqe failed")
  else
    let! info := deref cqe in
    modify io_uring_cqe_seen;;;
    ret info.

(** [Some info] is the result true with [info] assigned, [None] is false. *)
Definition IoUring_try_wait_one : M U (option IoInfo) :=
  let! p := (λ u, let '(r, cqe, u') := io_uring_peek_cqe u in Ok (r, cqe) u') in
  let '(r, cqe) := p : Z * option IoInfo in
  if r <? 0 then
    if r =? - EAGAIN then ret None
    else throw (runtime_error "io_uring_peek_cqe failed")
  else
    match cqe with
    | None => ret None
    | Some info => modify io_uring_cqe_seen;;; ret (Some info)
    end.
End uring.

(** ** What they do to the ring *)

Section uring_lemmas.
Context {U : Type} `{!Liburing U, !LiburingLaws U}.
Implicit Types (u : U).

(** Everything handed to the ring that has not been reported complete. *)
Definition outstanding u : list Z := sqes_prepared u ++ sqes_accepted u.

Lemma wp_submit_rw k fd buf len offset d u E :
  Z.of_nat (length (sqes_prepared u)) < sq_entries u →
  wp (IoUring_submit_rw k fd buf len offset d) u
    (λ _ u', sqes_prepared u' = sqes_prepared u ++ [d] ∧
       sqes_accepted u' = sqes_accepted u ∧ sq_entries u' = sq_entries u) E.
Proof.
  intros Hl. destruct (law_get_sqe u Hl) as (sqe & u' & Hsqe & Hu').
  unfold wp, IoUring_submit_rw, uring_get_sqe, bind. rewrite Hsqe. cbn. apply Hu'.
Qed.

Lemma wp_submit u E :
  wp IoUring_submit u (λ n u', sq_entries u' = sq_entries u ∧
    ((n < 0 ∧ sqes_prepared u' = sqes_prepared u ∧ sqes_accepted u' = sqes_accepted u) ∨
     (0 ≤ n ∧ Z.of_nat (length (sqes_prepared u)) = n + Z.of_nat (length (sqes_prepared u')) ∧
      outstanding u' ≡ₚ outstanding u))) E.
Proof.
  pose proof (law_submit u) as H. unfold wp, IoUring_submit.
  destruct (io_uring_submit u) as [n u']. destruct H as [He [Hn|(Hn & Hp & Hl & Ha)]];
    (split; [done|]); [by left|right].
  split_and!; [done| |].
  - apply (f_equal length) in Hp. rewrite length_app in Hp. lia.
  - unfold outstanding. rewrite Ha. revert Hp. generalize (take (Z.to_nat n) (sqes_prepared u)).
    intros t ->. rewrite app_assoc, (Permutation_app_comm _ t). by rewrite app_assoc.
Qed.

Lemma wp_try_wait_one u :
  wp IoUring_try_wait_one u (λ o u', sq_entries u' = sq_entries u ∧
    sqes_prepared u' = sqes_prepared u ∧
    match o with
    | Some info => sqes_accepted u ≡ₚ user_data info :: sqes_accepted u'
    | None => sqes_accepted u' = sqes_accepted u
    end)
  (λ _ u', sq_entries u' = sq_entries u ∧ sqes_prepared u' = sqes_prepared u ∧
     sqes_accepted u' = sqes_accepted u).
Proof.
  pose proof (law_peek u) as H. unfold wp, IoUring_try_wait_one, bind.
  destruct (io_uring_peek_cqe u) as [[r cqe] u']. destruct H as (H1 & H2 & H3 & H4).
  destruct (Z.ltb_spec r 0).
  - by destruct (r =? - EAGAIN).
  - destruct cqe as [info|]; cbn; [|done]. by apply H4.
Qed.

Definition idle_ring u : Prop := sqes_prepared u = [] ∧ sqes_accepted u = [].

Lemma try_wait_one_idle `{!LiburingIdle U} u : idle_ring u →
  ∃ u', IoUring_try_wait_one u = Ok None u' ∧ idle_ring u'.
Proof.
  intros [Hp Ha]. pose proof (idle_peek u Ha) as Hi. pose proof (law_peek u) as H.
  unfold IoUring_try_wait_one, bind. destruct (io_uring_peek_cqe u) as [[r cqe] u'].
  destruct H as (_ & H2 & H3 & _). exists u'. split; [|split; congruence].
  destruct Hi as [->|[Hr ->]]; [done|]. by rewrite (proj2 (Z.ltb_ge r 0) Hr).
Qed.
End uring_lemmas.

(** ** A ring with that behaviour

    It completes every request on submission, with the requested length as
    the result. *)

Record sim_ring := MkSimRing {
  sim_depth : Z;
  sim_sq : list (Z * io_request);       (** user data and contents of the prepared entries *)
  sim_cq : list (Z * io_request);       (** the same for the completed ones *)
}.

Definition sim_blank : io_request := MkRequest IoRead 0 null 0 0.
Definition sim_info (e : Z * io_request) : IoInfo := MkIoInfo (fst e) (rq_len (snd e)).

(** The entry at [sqe], changed by [f]. *)
Definition sim_update (sqe : ptr) (f : Z * io_request → Z * io_request) (u : sim_ring) : sim_ring :=
  MkSimRing (sim_depth u) (alter f (N.to_nat sqe) (sim_sq u)) (sim_cq u).

#[export] Instance sim_liburing : Liburing sim_ring := {|
  io_uring_queue_init := λ depth, (0, MkSimRing depth [] []);
  io_uring_get_sqe := λ u,
    if Z.of_nat (length (sim_sq u)) <? sim_depth u then
      (Some (N.of_nat (length (sim_sq u))),
       MkSimRing (sim_depth u) (sim_sq u ++ [(0, sim_blank)]) (sim_cq u))
    else (None, u);
  io_uring_prep := λ k sqe fd buf len offset,
    sim_update sqe (λ e, (e.1, MkRequest k fd buf len offset));
  sqe_set_user_data := λ sqe d, sim_update sqe (λ e, (d, e.2));
  io_uring_submit := λ u,
    (Z.of_nat (length (sim_sq u)), MkSimRing (sim_depth u) [] (sim_cq u ++ sim_sq u));
  io_uring_wait_cqe := λ u,
    (if sim_cq u is [] then - EAGAIN else 0, sim_info <$> head (sim_cq u), u);
  io_uring_peek_cqe := λ u,
    (if sim_cq u is [] then - EAGAIN else 0, sim_info <$> head (sim_cq u), u);
  io_uring_cqe_seen := λ u, MkSimRing (sim_depth u) (sim_sq u) (tail (sim_cq u));
|}.

Lemma alter_last {A} (f : A → A) (l : list A) x :
  alter f (length l) (l ++ [x]) = l ++ [f x].
Proof. induction l as [|y l IH]; cbn; [done|]. by f_equal. Qed.

#[export, refine] Instance sim_laws : LiburingLaws sim_ring := {|
  sqes_prepared := λ u, fst <$> sim_sq u;
  sqes_accepted := λ u, fst <$> sim_cq u;
  sq_entries := sim_depth;
|}.
Proof.
  - intros u Hl. rewrite length_fmap in Hl. eexists _, _. split.
    + cbn. by rewrite (proj2 (Z.ltb_lt _ _) Hl).
    + intros k fd buf len offset d. cbn. rewrite Nat2N.id, !alter_last.
      by rewrite fmap_app.
  - intros u. cbn. split; [done|]. right. rewrite Nat2Z.id, take_ge by (by rewrite length_fmap).
    split_and!; [lia|by rewrite app_nil_r|by rewrite length_fmap|].
    by rewrite fmap_app.
  - intros u. cbn. split_and!; [done..|]. intros info _ Hh. split_and!; [done..|].
    destruct (sim_cq u); cbn in *; [done|]. by injection Hh as <-.
Defined.

#[export] Instance sim_idle : LiburingIdle sim_ring.
Proof.
  split.
  - by intros depth r u [= <- <-] _.
  - intros u. cbn. destruct (sim_cq u); cbn; [by left|done].
Qed.

Definition sim_entries (u : sim_ring) : list (Z * io_request) := sim_sq u ++ sim_cq u.

#[export, refine] Instance sim_requests : LiburingRequests sim_ring := {|
  request_of := λ u, λ d, (list_to_map (sim_entries u) : gmap Z io_request) !! d;
  answers := λ q r, r = rq_len q;
|}.
Proof.
  - intros u sqe u' k fd buf len offset d Hg Hl Hd. cbn in Hg, Hl, Hd |- *.
    rewrite length_fmap in Hl.
    rewrite (proj2 (Z.ltb_lt _ _) Hl) in Hg. injection Hg as <- <-.
    unfold sim_entries in *. cbn. rewrite Nat2N.id, !alter_last. cbn.
    rewrite <- fmap_app in Hd. rewrite <- app_assoc. cbn.
    assert (Hd1 : d ∉ (sim_sq u).*1) by (rewrite fmap_app in Hd; set_solver).
    split.
    + rewrite list_to_map_app, lookup_union_r by by apply not_elem_of_list_to_map_1.
      cbn. by rewrite lookup_insert_eq.
    + intros d' Hd'. rewrite !list_to_map_app. cbn.
      assert (d ≠ d') by (intros ->; apply Hd; by rewrite fmap_app).
      rewrite !lookup_union. by rewrite lookup_insert_ne.
  - intros u d Hnd. cbn in Hnd |- *. unfold sim_entries. cbn. rewrite <- fmap_app in Hnd.
    f_equal. apply list_to_map_proper; [|apply Permutation_app_comm].
    by rewrite Permutation_app_comm.
  - intros u Hnd. cbn in Hnd |- *. rewrite <- fmap_app in Hnd. split; [done|].
    intros info _ Hh. unfold sim_entries. destruct u as [dp sq [|e cq]]; cbn in Hh |- *; [done|].
    injection Hh as <-. cbn. rewrite (list_to_map_app sq (e :: cq)), (list_to_map_app sq cq).
    cbn [sim_sq sim_cq] in Hnd. rewrite fmap_app, fmap_cons in Hnd.
    apply NoDup_app in Hnd as (_ & Hno & _). split.
    + intros q. destruct e as [d q0]. cbn in *. rewrite lookup_union_r, lookup_insert_eq.
      * by intros [= ->].
      * apply not_elem_of_list_to_map_1. intros Hin. apply (Hno d Hin). by left.
    + intros d Hne. rewrite !lookup_union. destruct e as [d0 q0]. cbn in *.
      by rewrite lookup_insert_ne.
Defined.
