(* ===== verification/Engine.v ===== *)
(** * Engine (src/include/runtime/engine.h, src/src/runtime/engine.cpp)

    A context's task queue, its three IO queues and its ring.  The read and
    write awaiters (src/include/runtime/io_awaiter.h) live in coroutine frames;
    the engine reaches them by pointer. *)

From S2P Require Import Prelude Uring.

Open Scope Z_scope.

(** ** Data *)

(** [IoReadAwaiter] and [IoWriteAwaiter]. *)
Record IoOpAwaiter := MkIoOp {
  op_kind_ : io_kind;
  fd_ : Z;
  len_ : Z;
  offset_ : Z;
  result_ : Z;
  handle_ : handle;
  buf_ : ptr;
}.

Definition IoOpAwaiter_make (k : io_kind) (fd : Z) (buf : ptr) (len offset : Z) : IoOpAwaiter :=
  MkIoOp k fd len offset 0 null buf.
(** [io::read] and [io::write] *)
Definition io_read (fd : Z) (buf : ptr) (len offset : Z) : IoOpAwaiter :=
  IoOpAwaiter_make IoRead fd buf len offset.
Definition io_write (fd : Z) (buf : ptr) (len offset : Z) : IoOpAwaiter :=
  IoOpAwaiter_make IoWrite fd buf len offset.
Definition IoOpAwaiter_await_ready : bool := false.
Definition set_result (r : Z) (a : IoOpAwaiter) : IoOpAwaiter :=
  MkIoOp (op_kind_ a) (fd_ a) (len_ a) (offset_ a) r (handle_ a) (buf_ a).
Definition set_handle (h : handle) (a : IoOpAwaiter) : IoOpAwaiter :=
  MkIoOp (op_kind_ a) (fd_ a) (len_ a) (offset_ a) (result_ a) h (buf_ a).

Record Engine (U : Type) := MkEngine {
  task_queue_ : list handle;
  io_waiting_queue_ : list handle;
  io_read_submit_queue_ : list ptr;
  io_write_submit_queue_ : list ptr;
  uring_ : U;
  pending_submit_count_ : Z;
  inflight_tasks_ : Z;
  inflight_io_ : Z;
}.
Arguments MkEngine {U}.
Arguments task_queue_ {U} _.
Arguments io_waiting_queue_ {U} _.
Arguments io_read_submit_queue_ {U} _.
Arguments io_write_submit_queue_ {U} _.
Arguments uring_ {U} _.
Arguments pending_submit_count_ {U} _.
Arguments inflight_tasks_ {U} _.
Arguments inflight_io_ {U} _.

Record engine_world (U : Type) := MkEngineWorld {
  engine_ : Engine U;
  io_ops : gmap ptr IoOpAwaiter;
}.
Arguments MkEngineWorld {U}.
Arguments engine_ {U} _.
Arguments io_ops {U} _.

Section engine.
Context {U : Type} `{!Liburing U}.
Implicit Types (e : Engine U) (w : engine_world U).

Definition Engine_make (u : U) : Engine U := MkEngine [] [] [] [] u 0 0 0.

Definition set_tasks (q : list handle) e : Engine U :=
  MkEngine q (io_waiting_queue_ e) (io_read_submit_queue_ e) (io_write_submit_queue_ e)
    (uring_ e) (pending_submit_count_ e) (inflight_tasks_ e) (inflight_io_ e).
Definition set_waiting (q : list handle) e : Engine U :=
  MkEngine (task_queue_ e) q (io_read_submit_queue_ e) (io_write_submit_queue_ e)
    (uring_ e) (pending_submit_count_ e) (inflight_tasks_ e) (inflight_io_ e).
Definition set_reads (q : list ptr) e : Engine U :=
  MkEngine (task_queue_ e) (io_waiting_queue_ e) q (io_write_submit_queue_ e)
    (uring_ e) (pending_submit_count_ e) (inflight_tasks_ e) (inflight_io_ e).
Definition set_writes (q : list ptr) e : Engine U :=
  MkEngine (task_queue_ e) (io_waiting_queue_ e) (io_read_submit_queue_ e) q
    (uring_ e) (pending_submit_count_ e) (inflight_tasks_ e) (inflight_io_ e).
Definition set_uring (u : U) e : Engine U :=
  MkEngine (task_queue_ e) (io_waiting_queue_ e) (io_read_submit_queue_ e)
    (io_write_submit_queue_ e) u (pending_submit_count_ e) (inflight_tasks_ e) (inflight_io_ e).
Definition set_pending (n : Z) e : Engine U :=
  MkEngine (task_queue_ e) (io_waiting_queue_ e) (io_read_submit_queue_ e)
    (io_write_submit_queue_ e) (uring_ e) n (inflight_tasks_ e) (inflight_io_ e).
Definition set_inflight_tasks (n : Z) e : Engine U :=
  MkEngine (task_queue_ e) (io_waiting_queue_ e) (io_read_submit_queue_ e)
    (io_write_submit_queue_ e) (uring_ e) (pending_submit_count_ e) n (inflight_io_ e).
Definition set_inflight_io (n : Z) e : Engine U :=
  MkEngine (task_queue_ e) (io_waiting_queue_ e) (io_read_submit_queue_ e)
    (io_write_submit_queue_ e) (uring_ e) (pending_submit_count_ e) (inflight_tasks_ e) n.

(** ** Submission *)

Definition push_task (h : handle) : M (Engine U) unit :=
  modify (λ e, set_tasks (queue_push h (task_queue_ e)) e).

(** Notifying [cv_] wakes the worker; it does not change the state. *)
Definition Engine_submit_task (h : handle) : M (Engine U) unit := push_task h.

(** The counters are atomics: [fetch_add] and [fetch_sub] wrap. *)
Definition on_task_resume_begin : M (Engine U) unit :=
  modify (λ e, set_inflight_tasks (u64 (inflight_tasks_ e + 1)) e).
Definition on_task_resume_end : M (Engine U) unit :=
  modify (λ e, set_inflight_tasks (u64 (inflight_tasks_ e - 1)) e).
Definition on_io_inflight_begin (count : Z) : M (Engine U) unit :=
  if count =? 0 then ret tt
  else modify (λ e, set_inflight_io (u64 (inflight_io_ e + count)) e).
Definition on_io_inflight_end (count : Z) : M (Engine U) unit :=
  if count =? 0 then ret tt
  else modify (λ e, set_inflight_io (u64 (inflight_io_ e - count)) e).

Definition Engine_submit_io_waiting (h : handle) : M (Engine U) unit :=
  on_io_inflight_begin 1;;;
  modify (λ e, set_waiting (queue_push h (io_waiting_queue_ e)) e).

Definition Engine_submit_io_read (awaiter : ptr) : M (Engine U) unit :=
  if is_null awaiter then ret tt
  else
    on_io_inflight_begin 1;;;
    modify (λ e, set_reads (queue_push awaiter (io_read_submit_queue_ e)) e).

Definition Engine_submit_io_write (awaiter : ptr) : M (Engine U) unit :=
  if is_null awaiter then ret tt
  else
    on_io_inflight_begin 1;;;
    modify (λ e, set_writes (queue_push awaiter (io_write_submit_queue_ e)) e).

(** ** Taking tasks *)

Definition try_pop_task : M (Engine U) handle :=
  let! e := get in
  match task_queue_ e with
  | [] => ret null
  | h :: q => put (set_tasks q e);;; ret h
  end.

(** The loop of [pop_batch]: [n] more elements fit. *)
Fixpoint pop_batch_loop (n : nat) (q out : list handle) : list handle * list handle :=
  match n, q with
  | S n', h :: q' => pop_batch_loop n' q' (out ++ [h])
  | _, _ => (out, q)
  end.

(** The result and [out], which is unchanged when the result is 0. *)
Definition pop_batch (out : list handle) (max_n : nat) : M (Engine U) (nat * list handle) :=
  let! e := get in
  if queue_empty (task_queue_ e) || Nat.eqb max_n 0 then ret (0%nat, out)
  else
    let '(out', q) := pop_batch_loop max_n (task_queue_ e) [] in
    put (set_tasks q e);;; ret (length out', out').

(** ** [poll_io] *)

#[export, refine] Instance engine_world_engine : Lens (engine_world U) (Engine U) := {|
  lget := engine_;
  lset := λ e w, MkEngineWorld e (io_ops w);
|}.
Proof. all: by intros; repeat match goal with w : engine_world U |- _ => destruct w end. Defined.

#[export, refine] Instance engine_uring : Lens (Engine U) U := {|
  lget := uring_;
  lset := set_uring;
|}.
Proof. all: by intros; repeat match goal with e : Engine U |- _ => destruct e end. Defined.

(** [while (progressed < max_n && !io_waiting_queue_.empty())], the number of
    iterations. *)
Fixpoint poll_waiting (n : nat) : M (Engine U) nat :=
  match n with
  | O => ret 0%nat
  | S n' =>
      let! e := get in
      match io_waiting_queue_ e with
      | [] => ret 0%nat
      | h :: q =>
          push_task h;;;
          modify (set_waiting q);;;
          on_io_inflight_end 1;;;
          let! k := poll_waiting n' in ret (S k)
      end
  end.

Definition io_op_at (p : ptr) : M (engine_world U) IoOpAwaiter :=
  let! w := get in deref (io_ops w !! p).

(** The two preparation loops, for the queue of kind [k]; [n] more requests
    may be prepared. *)
Definition submit_queue (k : io_kind) e : list ptr :=
  match k with IoRead => io_read_submit_queue_ e | IoWrite => io_write_submit_queue_ e end.
Definition set_submit_queue (k : io_kind) (q : list ptr) e : Engine U :=
  match k with IoRead => set_reads q e | IoWrite => set_writes q e end.

Fixpoint poll_prepare (k : io_kind) (n : nat) : M (engine_world U) nat :=
  match n with
  | O => ret 0%nat
  | S n' =>
      let! w := get in
      match submit_queue k (engine_ w) with
      | [] => ret 0%nat
      | awaiter :: q =>
          zoom (modify (set_submit_queue k q));;;
          let! a := io_op_at awaiter in
          zoom (zoom (IoUring_submit_rw k (fd_ a) (buf_ a) (len_ a) (offset_ a)
                        (Z.of_N awaiter)) : M (Engine U) unit);;;
          zoom (modify (λ e, set_pending (u64 (pending_submit_count_ e + 1)) e));;;
          let! m := poll_prepare k n' in ret (S m)
      end
  end.

(** [while (pending_submit_count_ > 0)]. *)
Fixpoint poll_submit (fuel : nat) (progressed : Z) : M (Engine U) Z :=
  let! e := get in
  if pending_submit_count_ e >? 0 then
    match fuel with
    | O => nofuel
    | S fuel' =>
        let! submitted := zoom IoUring_submit in
        if submitted <=? 0 then
          throw (runtime_error "io_uring_submit failed in runtime::Engine")
        else
          let submitted_size := u64 submitted in
          let! e' := get in
          if submitted_size >? pending_submit_count_ e' then
            throw (runtime_error "io_uring_submit returned invalid count")
          else
            modify (λ e, set_pending (u64 (pending_submit_count_ e - submitted_size)) e);;;
            poll_submit fuel' (u64 (progressed + submitted_size))
    end
  else ret progressed.

(** The completion loop; [n] more completions may be taken. *)
Fixpoint poll_complete (n : nat) : M (engine_world U) nat :=
  match n with
  | O => ret 0%nat
  | S n' =>
      let! o := zoom (zoom IoUring_try_wait_one : M (Engine U) (option IoInfo)) in
      match o with
      | None => ret 0%nat
      | Some info =>
          let awaiter := Z.to_N (user_data info) in
          let! a := io_op_at awaiter in
          modify (λ w, MkEngineWorld (engine_ w)
                         (<[awaiter := set_result (result info) a]> (io_ops w)));;;
          zoom (push_task (handle_ a));;;
          zoom (on_io_inflight_end 1);;;
          let! m := poll_complete n' in ret (S m)
      end
  end.

(** The block of [poll_io] under [mutex_]. *)
Definition poll_io_locked (max_n : nat) : M (engine_world U) Z :=
  let! moved := zoom (poll_waiting max_n) in
  let! reads := poll_prepare IoRead max_n in
  let! _ := poll_prepare IoWrite (max_n - reads) in
  let! w := get in
  zoom (poll_submit (Z.to_nat (pending_submit_count_ (engine_ w))) (Z.of_nat moved)).

Definition poll_io (max_n : nat) : M (engine_world U) Z :=
  if Nat.eqb max_n 0 then ret 0
  else
    let! progressed := poll_io_locked max_n in
    let! completed := poll_complete max_n in
    ret (if Nat.ltb 0 completed then u64 (progressed + Z.of_nat completed) else progressed).

(** ** Stopping and waiting *)

Definition queues_empty e : bool :=
  queue_empty (task_queue_ e) && queue_empty (io_waiting_queue_ e) &&
  queue_empty (io_read_submit_queue_ e) && queue_empty (io_write_submit_queue_ e) &&
  (pending_submit_count_ e =? 0).

(** [can_stop], for [token.stop_requested()]. *)
Definition can_stop (stop_requested : bool) : M (Engine U) bool :=
  let! e := get in
  if Bool.eqb stop_requested false then ret false
  else if Bool.eqb (queue_empty (task_queue_ e)) false
       || Bool.eqb (queue_empty (io_waiting_queue_ e)) false
       || Bool.eqb (queue_empty (io_read_submit_queue_ e)) false
       || Bool.eqb (queue_empty (io_write_submit_queue_ e)) false
       || negb (pending_submit_count_ e =? 0) then ret false
  else if negb (inflight_tasks_ e =? 0) then ret false
  else if negb (inflight_io_ e =? 0) then ret false
  else ret true.

(** The predicate [wait_for_work_or_stop] waits for. *)
Definition work_or_stop (stop_requested : bool) e : bool :=
  stop_requested || Bool.eqb (queue_empty (task_queue_ e)) false
  || Bool.eqb (queue_empty (io_waiting_queue_ e)) false
  || Bool.eqb (queue_empty (io_read_submit_queue_ e)) false
  || Bool.eqb (queue_empty (io_write_submit_queue_ e)) false
  || negb (pending_submit_count_ e =? 0)
  || negb (inflight_io_ e =? 0).

Definition Engine_empty : M (Engine U) bool := gets queues_empty.
End engine.
