(* ===== verification/EngineProps.v ===== *)
(** * Properties of the engine

    [poll_io] neither loses nor duplicates a coroutine, its counters stay
    exact, and an engine that stops or sleeps has no work left. *)

From S2P Require Import Prelude Uring Engine.

Open Scope Z_scope.

Section engine_props.
Context {U : Type} `{!Liburing U, !LiburingLaws U}.
Implicit Types (e : Engine U) (w : engine_world U).

(** ** The invariant *)

(** The IO operations the engine has accepted and not completed. *)
Definition in_flight e : list ptr :=
  io_read_submit_queue_ e ++ io_write_submit_queue_ e ++
  (Z.to_N <$> outstanding (uring_ e)).

Definition op_handle (ops : gmap ptr IoOpAwaiter) (p : ptr) : handle :=
  default null (handle_ <$> ops !! p).

(** Every coroutine the engine holds, ready or waiting for IO. *)
Definition engine_handles w : list handle :=
  task_queue_ (engine_ w) ++ io_waiting_queue_ (engine_ w) ++
  (op_handle (io_ops w) <$> in_flight (engine_ w)).

Record engine_wf w : Prop := {
  ew_inflight : inflight_io_ (engine_ w) =
    Z.of_nat (length (io_waiting_queue_ (engine_ w)) + length (in_flight (engine_ w)));
  ew_bound : inflight_io_ (engine_ w) < 2 ^ 64;
  ew_pending : pending_submit_count_ (engine_ w) =
    Z.of_nat (length (sqes_prepared (uring_ (engine_ w))));
  ew_ops : Forall (λ p, is_Some (io_ops w !! p)) (in_flight (engine_ w));
  ew_data : Forall (λ d, 0 ≤ d) (outstanding (uring_ (engine_ w)));
}.

(** [w'] holds the coroutines of [w]: ready ones keep their place. *)
Record same_work w w' : Prop := {
  sw_handles : engine_handles w' ≡ₚ engine_handles w;
  sw_entries : sq_entries (uring_ (engine_ w')) = sq_entries (uring_ (engine_ w));
  sw_ops : ∀ p, handle_ <$> io_ops w' !! p = handle_ <$> io_ops w !! p;
  sw_tasks : ∃ l, task_queue_ (engine_ w') = task_queue_ (engine_ w) ++ l;
}.

Lemma same_work_refl w : same_work w w.
Proof. split; try done. exists []. by rewrite app_nil_r. Qed.

Lemma same_work_trans w1 w2 w3 : same_work w1 w2 → same_work w2 w3 → same_work w1 w3.
Proof.
  intros [H1 H2 H3 [l1 H4]] [H1' H2' H3' [l2 H4']]. split.
  - by rewrite H1', H1.
  - by rewrite H2', H2.
  - intros p. by rewrite H3', H3.
  - exists (l1 ++ l2). by rewrite H4', H4, app_assoc.
Qed.

(** The operations move between the queues and the ring. *)
Lemma same_work_move w e' :
  task_queue_ e' = task_queue_ (engine_ w) →
  io_waiting_queue_ e' = io_waiting_queue_ (engine_ w) →
  in_flight e' ≡ₚ in_flight (engine_ w) →
  sq_entries (uring_ e') = sq_entries (uring_ (engine_ w)) →
  same_work w (MkEngineWorld e' (io_ops w)).
Proof.
  intros Ht Hw Hi He. split; cbn; [|done|done|exists []; by rewrite app_nil_r].
  unfold engine_handles. cbn. by rewrite Ht, Hw, Hi.
Qed.

Lemma engine_wf_move w e' :
  engine_wf w →
  io_waiting_queue_ e' = io_waiting_queue_ (engine_ w) →
  in_flight e' ≡ₚ in_flight (engine_ w) →
  inflight_io_ e' = inflight_io_ (engine_ w) →
  pending_submit_count_ e' = Z.of_nat (length (sqes_prepared (uring_ e'))) →
  Forall (λ d, 0 ≤ d) (outstanding (uring_ e')) →
  engine_wf (MkEngineWorld e' (io_ops w)).
Proof.
  intros [H1 H2 H3 H4 H5] Hw Hi Hn Hp Hd. split; cbn; try done.
  - by rewrite Hn, Hw, Hi.
  - by rewrite Hn.
  - by rewrite Hi.
Qed.

(** ** The loops *)

Lemma poll_waiting_eq n e : Z.of_nat (length (io_waiting_queue_ e)) ≤ inflight_io_ e < 2 ^ 64 →
  let moved := take n (io_waiting_queue_ e) in
  poll_waiting n e = Ok (length moved)
    (set_inflight_io (inflight_io_ e - Z.of_nat (length moved))
      (set_waiting (drop n (io_waiting_queue_ e))
        (set_tasks (task_queue_ e ++ moved) e))).
Proof.
  revert e. induction n as [|n IH]; intros e Hl; cbn [poll_waiting take drop length].
  { rewrite app_nil_r, Z.sub_0_r. by destruct e. }
  destruct e as [tq [|h q] rq wq u p it io]; cbn -[u64] in *.
  { rewrite app_nil_r, Z.sub_0_r. done. }
  unfold bind at 1, get. cbn -[u64 poll_waiting]. unfold bind, modify, push_task, set_tasks. cbn -[u64 poll_waiting].
  rewrite u64_small by lia. rewrite IH by (cbn; lia). cbn.
  unfold ret. f_equal. unfold queue_push. rewrite <- app_assoc. cbn.
  unfold set_inflight_io, set_waiting, set_tasks. cbn. f_equal. lia.
Qed.

(** One request moves from its queue to the ring. *)
Definition prepared_one k (q : list ptr) (u : U) e : Engine U :=
  set_pending (u64 (pending_submit_count_ e + 1)) (set_uring u (set_submit_queue k q e)).

Lemma prepare_one w k p q u :
  engine_wf w → submit_queue k (engine_ w) = p :: q →
  pending_submit_count_ (engine_ w) + 1 < 2 ^ 64 →
  sqes_prepared u = sqes_prepared (uring_ (engine_ w)) ++ [Z.of_N p] →
  sqes_accepted u = sqes_accepted (uring_ (engine_ w)) →
  sq_entries u = sq_entries (uring_ (engine_ w)) →
  let w' := MkEngineWorld (prepared_one k q u (engine_ w)) (io_ops w) in
  engine_wf w' ∧ same_work w w' ∧
  pending_submit_count_ (engine_ w') = pending_submit_count_ (engine_ w) + 1.
Proof.
  intros Hw Hq Hlt Hp Ha He w'.
  pose proof (ew_pending _ Hw) as Hpend. pose proof (ew_data _ Hw) as Hdata.
  assert (Hf : in_flight (prepared_one k q u (engine_ w)) ≡ₚ in_flight (engine_ w)).
  { unfold in_flight, prepared_one, outstanding, submit_queue in *. destruct k; cbn;
      rewrite Hp, Ha, Hq, !fmap_app; cbn; rewrite N2Z.id.
    - set (A := Z.to_N <$> sqes_prepared _). set (B := Z.to_N <$> sqes_accepted _).
      rewrite <- app_assoc. cbn. rewrite <- (Permutation_middle A). by rewrite <- !Permutation_middle.
    - set (A := Z.to_N <$> sqes_prepared _). set (B := Z.to_N <$> sqes_accepted _).
      rewrite <- app_assoc. cbn. by rewrite <- (Permutation_middle A), <- !Permutation_middle. }
  assert (Hpc : pending_submit_count_ (engine_ w') = pending_submit_count_ (engine_ w) + 1).
  { cbn. rewrite u64_small; lia. }
  split_and!; [| |done].
  - apply engine_wf_move; [done| |done|..].
    + by destruct k.
    + by destruct k.
    + etrans; [exact Hpc|]. cbn. rewrite Hp, length_app. cbn. lia.
    + cbn. unfold outstanding in *. rewrite Hp, Ha.
      apply Forall_app in Hdata as [H1 H2]. rewrite !Forall_app. split_and!; try done.
      apply Forall_singleton. lia.
  - apply same_work_move; [by destruct k|by destruct k|done|done].
Qed.

Lemma wp_poll_prepare k n w E :
  engine_wf w →
  pending_submit_count_ (engine_ w) + Z.of_nat n ≤ sq_entries (uring_ (engine_ w)) < 2 ^ 64 →
  wp (poll_prepare k n) w (λ m w', engine_wf w' ∧ same_work w w' ∧
    io_waiting_queue_ (engine_ w') = io_waiting_queue_ (engine_ w) ∧
    task_queue_ (engine_ w') = task_queue_ (engine_ w) ∧
    m = length (take n (submit_queue k (engine_ w))) ∧
    pending_submit_count_ (engine_ w') = pending_submit_count_ (engine_ w) + Z.of_nat m ∧
    submit_queue k (engine_ w') = drop n (submit_queue k (engine_ w)) ∧
    (∀ k', k' ≠ k → submit_queue k' (engine_ w') = submit_queue k' (engine_ w))) E.
Proof.
  revert w. induction n as [|n IH]; intros w Hw Hl.
  { cbn. split_and!; try done; [apply same_work_refl|lia]. }
  cbn [poll_prepare]. wp_step. apply wp_get. cbn beta iota.
  destruct (submit_queue k (engine_ w)) as [|p q] eqn:Eq.
  { apply wp_ret. split_and!; try done; [apply same_work_refl|cbn; lia]. }
  destruct w as [e ops]. cbn [engine_ io_ops] in *.
  assert (Hin : p ∈ in_flight e).
  { unfold in_flight, submit_queue in *. destruct k; rewrite Eq; set_solver. }
  pose proof (ew_ops _ Hw) as Hops. rewrite Forall_forall in Hops.
  destruct (Hops p Hin) as [a Ha]. cbn in Ha.
  pose proof (ew_pending _ Hw) as Hpend. cbn in Hpend.
  wp_step. apply wp_zoom, wp_modify. wp_step.
  apply (wp_of_ok _ _ a (MkEngineWorld (set_submit_queue k q e) ops)).
  { unfold io_op_at, bind, get. cbn. by rewrite Ha. }
  wp_step. apply wp_zoom, wp_zoom.
  assert (Hu : uring_ (set_submit_queue k q e) = uring_ e) by by destruct k.
  cbn [lget lset engine_world_engine engine_uring engine_ io_ops]. rewrite Hu.
  eapply wp_mono; [apply (wp_submit_rw _ _ _ _ _ _ _ (λ _ _, False)); lia| |done].
  intros _ u (H1 & H2 & H3). wp_step. apply wp_zoom, wp_modify.
  cbn [lget lset engine_world_engine engine_ io_ops].
  assert (Hst : set_pending (u64 (pending_submit_count_ (set_uring u (set_submit_queue k q e)) + 1))
    (set_uring u (set_submit_queue k q e)) = prepared_one k q u e) by by destruct k.
  rewrite Hst.
  destruct (prepare_one (MkEngineWorld e ops) k p q u Hw Eq) as (Hw' & Hs & Hpc);
    [cbn; lia|done|done|done|]. cbn [engine_ io_ops] in *.
  wp_step. eapply wp_mono; [apply IH| |done].
  - done.
  - cbn [engine_]. rewrite Hpc. change (uring_ (prepared_one k q u e)) with u. lia.
  - intros m w' (I1 & I2 & I3 & I4 & I5 & I6 & I7 & I8). apply wp_ret.
    assert (Hsq : submit_queue k (prepared_one k q u e) = q) by by destruct k.
    cbn [engine_] in *. rewrite Hsq in *. split_and!; try done.
    + by eapply same_work_trans.
    + rewrite I3. by destruct k.
    + rewrite I4. by destruct k.
    + cbn. by rewrite I5.
    + rewrite I6, Hpc. lia.
    + intros k' Hk'. rewrite I8 by done. by destruct k, k'.
Qed.

(** The submission loop empties the submission queue, in at most as many
    iterations as there are entries. *)
Lemma wp_poll_submit fuel n e ops :
  engine_wf (MkEngineWorld e ops) → pending_submit_count_ e ≤ Z.of_nat fuel →
  pending_submit_count_ e < 2 ^ 64 →
  wp (poll_submit fuel n) e
    (λ r e', engine_wf (MkEngineWorld e' ops) ∧
      same_work (MkEngineWorld e ops) (MkEngineWorld e' ops) ∧
      io_waiting_queue_ e' = io_waiting_queue_ e ∧ task_queue_ e' = task_queue_ e ∧
      io_read_submit_queue_ e' = io_read_submit_queue_ e ∧
      io_write_submit_queue_ e' = io_write_submit_queue_ e ∧
      pending_submit_count_ e' = 0 ∧
      (0 ≤ n → n + pending_submit_count_ e < 2 ^ 64 → r = n + pending_submit_count_ e))
    (λ _ e', engine_wf (MkEngineWorld e' ops) ∧
      same_work (MkEngineWorld e ops) (MkEngineWorld e' ops)).
Proof.
  revert n e. induction fuel as [|fuel IH]; intros n e Hw Hf Hlt; cbn [poll_submit];
    pose proof (ew_pending _ Hw) as Hp; cbn in Hp.
  { wp_steps. replace (pending_submit_count_ e >? 0) with false by (symmetry; lia).
    apply wp_ret. split_and!; try done; [apply same_work_refl|lia|lia]. }
  wp_steps. destruct (Z.gtb_spec (pending_submit_count_ e) 0) as [Hpos|Hz].
  2: { apply wp_ret. split_and!; try done; [apply same_work_refl|lia|lia]. }
  wp_step. apply wp_zoom. cbn [lget lset engine_uring].
  eapply wp_mono; [apply (wp_submit _ (λ _ _, False))| |done].
  intros k u (He & Hk).
  assert (Hone : ∀ c, c = Z.of_nat (length (sqes_prepared u)) →
    outstanding u ≡ₚ outstanding (uring_ e) →
    engine_wf (MkEngineWorld (set_pending c (set_uring u e)) ops) ∧
    same_work (MkEngineWorld e ops) (MkEngineWorld (set_pending c (set_uring u e)) ops)).
  { intros c Hc Ho.
    assert (Hi : in_flight (set_pending c (set_uring u e)) ≡ₚ in_flight e)
      by (unfold in_flight; cbn; by rewrite Ho).
    split; [apply (engine_wf_move _ _ Hw); try done|by apply same_work_move].
    cbn. rewrite Ho. apply (ew_data _ Hw). }
  assert (Hsame : set_uring u e = set_pending (pending_submit_count_ e) (set_uring u e)) by done.
  destruct (Z.leb_spec k 0) as [Hk0|Hk0].
  { apply wp_throw. rewrite Hsame. apply Hone.
    - rewrite Hp. destruct Hk as [(_ & H1 & _)|(H0 & H1 & _)]; [by rewrite H1|lia].
    - destruct Hk as [(_ & H1 & H2)|(_ & _ & H1)]; [by unfold outstanding; rewrite H1, H2|done]. }
  destruct Hk as [(? & _)|(_ & Hlen & Ho)]; [lia|].
  wp_steps. rewrite u64_small by lia. cbn [pending_submit_count_ set_uring].
  destruct (Z.gtb_spec k (pending_submit_count_ e)); [lia|].
  wp_steps. cbn [pending_submit_count_ set_uring]. rewrite (u64_small (_ - k)) by lia.
  destruct (Hone (pending_submit_count_ e - k)) as [Hw' Hs]; [lia|done|].
  eapply wp_mono; [apply IH; [exact Hw'|cbn; lia|cbn; lia]|..].
  - intros r e' (I1 & I2 & I3 & I4 & I5 & I6 & I7 & I8). split_and!; try done.
    + by eapply same_work_trans.
    + intros Hn Hb. cbn [pending_submit_count_ set_pending] in I8.
      rewrite u64_small in I8 by lia. rewrite I8; lia.
  - intros x e' [I1 I2]. split; [done|]. by eapply same_work_trans.
Qed.

(** One completion leaves the ring and its coroutine becomes ready. *)
Definition completed_one u (a : IoOpAwaiter) e : Engine U :=
  set_inflight_io (u64 (inflight_io_ e - 1))
    (set_tasks (queue_push (handle_ a) (task_queue_ e)) (set_uring u e)).

Lemma op_handle_set_result (ops : gmap ptr IoOpAwaiter) p a r q : ops !! p = Some a →
  handle_ <$> <[p := set_result r a]> ops !! q = handle_ <$> ops !! q.
Proof.
  intros Ha. destruct (decide (p = q)) as [<-|]; [by rewrite lookup_insert_eq, Ha|].
  by rewrite lookup_insert_ne.
Qed.

Lemma complete_one e (ops : gmap ptr IoOpAwaiter) info u a :
  engine_wf (MkEngineWorld e ops) → ops !! Z.to_N (user_data info) = Some a →
  sq_entries u = sq_entries (uring_ e) → sqes_prepared u = sqes_prepared (uring_ e) →
  sqes_accepted (uring_ e) ≡ₚ user_data info :: sqes_accepted u →
  let w' := MkEngineWorld (completed_one u a e)
    (<[Z.to_N (user_data info) := set_result (result info) a]> ops) in
  engine_wf w' ∧ same_work (MkEngineWorld e ops) w'.
Proof.
  intros Hw Ha H1 H2 H3 w'. set (p := Z.to_N (user_data info)) in *.
  pose proof Hw as [W1 W2 W3 W4 W5]. cbn in W1, W2, W3, W4, W5.
  assert (Hout : outstanding (uring_ e) ≡ₚ user_data info :: outstanding u).
  { unfold outstanding. rewrite H2, H3. by rewrite <- Permutation_middle. }
  assert (Hi : in_flight e ≡ₚ p :: in_flight (completed_one u a e)).
  { unfold in_flight. cbn. rewrite Hout. cbn. by rewrite <- !Permutation_middle. }
  pose proof (Permutation_length Hi) as Hlen. cbn in Hlen.
  assert (Hops : ∀ q, op_handle (<[p := set_result (result info) a]> ops) q = op_handle ops q).
  { intros q. unfold op_handle. by rewrite (op_handle_set_result _ _ _ _ _ Ha). }
  split.
  - split; cbn -[u64].
    + rewrite u64_small by lia. lia.
    + pose proof (u64_range (inflight_io_ e - 1)). lia.
    + rewrite W3. by rewrite H2.
    + rewrite Hi in W4. apply Forall_cons in W4 as [_ W4].
      eapply Forall_impl; [exact W4|]. intros q Hq. cbn. rewrite lookup_insert_is_Some'. auto.
    + rewrite Hout in W5. by apply Forall_cons in W5 as [_ ?].
  - split; cbn; [|done| |by eexists].
    + unfold engine_handles. cbn -[completed_one].
      rewrite (list_fmap_ext _ (op_handle ops) (in_flight (completed_one u a e))) by done.
      rewrite Hi. cbn. unfold queue_push.
      assert (Hh : op_handle ops p = handle_ a) by (unfold op_handle; by rewrite Ha).
      rewrite Hh, <- !app_assoc. cbn. by rewrite <- (Permutation_middle (io_waiting_queue_ e)).
    + intros q. apply op_handle_set_result, Ha.
Qed.

(** The completion loop. *)
Lemma wp_poll_complete n w :
  engine_wf w →
  wp (poll_complete n) w
    (λ m w', engine_wf w' ∧ same_work w w' ∧
      io_waiting_queue_ (engine_ w') = io_waiting_queue_ (engine_ w) ∧
      io_read_submit_queue_ (engine_ w') = io_read_submit_queue_ (engine_ w) ∧
      io_write_submit_queue_ (engine_ w') = io_write_submit_queue_ (engine_ w) ∧
      pending_submit_count_ (engine_ w') = pending_submit_count_ (engine_ w) ∧
      length (task_queue_ (engine_ w')) = (length (task_queue_ (engine_ w)) + m)%nat ∧
      (m ≤ n)%nat)
    (λ _ w', engine_wf w' ∧ same_work w w').
Proof.
  revert w. induction n as [|n IH]; intros w Hw; cbn [poll_complete].
  { apply wp_ret. split_and!; try done; try apply same_work_refl; lia. }
  destruct w as [e ops]. wp_step. apply wp_zoom, wp_zoom.
  cbn [lget lset engine_world_engine engine_uring engine_ io_ops].
  assert (Hkeep : ∀ u, sq_entries u = sq_entries (uring_ e) →
    sqes_prepared u = sqes_prepared (uring_ e) → sqes_accepted u = sqes_accepted (uring_ e) →
    engine_wf (MkEngineWorld (set_uring u e) ops) ∧
    same_work (MkEngineWorld e ops) (MkEngineWorld (set_uring u e) ops)).
  { intros u H1 H2 H3.
    assert (Ho : outstanding u = outstanding (uring_ e)) by (unfold outstanding; by rewrite H2, H3).
    assert (Hi : in_flight (set_uring u e) ≡ₚ in_flight e) by (unfold in_flight; cbn; by rewrite Ho).
    split; [apply (engine_wf_move _ _ Hw); try done|by apply same_work_move].
    - cbn. rewrite H2. apply (ew_pending _ Hw).
    - cbn. rewrite Ho. apply (ew_data _ Hw). }
  eapply wp_mono; [apply wp_try_wait_one| |intros x u (H1 & H2 & H3); by apply Hkeep].
  intros [info|] u (H1 & H2 & H3).
  2: { apply wp_ret. destruct (Hkeep u H1 H2 H3). split_and!; try done; cbn; lia. }
  assert (Hin : Z.to_N (user_data info) ∈ in_flight e).
  { unfold in_flight, outstanding. rewrite H3. set_solver. }
  pose proof (ew_ops _ Hw) as Hops. rewrite Forall_forall in Hops.
  destruct (Hops _ Hin) as [a Ha]. cbn in Ha.
  wp_step. apply (wp_of_ok _ _ a (MkEngineWorld (set_uring u e) ops)).
  { unfold io_op_at, bind, get. cbn. by rewrite Ha. }
  wp_steps. apply wp_zoom, wp_modify. wp_steps. apply wp_zoom, wp_modify. wp_step.
  destruct (complete_one e ops info u a Hw Ha H1 H2 H3) as [Hw' Hs].
  eapply wp_mono; [apply (IH _ Hw')| |].
  - intros m w' (I1 & I2 & I3 & I4 & I5 & I6 & I7 & I8). apply wp_ret.
    split_and!; try done; [by eapply same_work_trans| |lia].
    rewrite I7. cbn. unfold queue_push. rewrite length_app. cbn. lia.
  - intros x w' [I1 I2]. split; [done|]. by eapply same_work_trans.
Qed.

(** ** [poll_io] *)

(** What a poll of at most [n] leaves behind; [r] is its result. *)
Record poll_done (n : nat) w (r : Z) w' : Prop := {
  pd_wf : engine_wf w';
  pd_work : same_work w w';
  pd_ready : ∃ l, task_queue_ (engine_ w') =
    task_queue_ (engine_ w) ++ take n (io_waiting_queue_ (engine_ w)) ++ l;
  pd_waiting : io_waiting_queue_ (engine_ w') = drop n (io_waiting_queue_ (engine_ w));
  pd_reads : io_read_submit_queue_ (engine_ w') = drop n (io_read_submit_queue_ (engine_ w));
  pd_writes : io_write_submit_queue_ (engine_ w') =
    drop (n - length (take n (io_read_submit_queue_ (engine_ w))))
      (io_write_submit_queue_ (engine_ w));
  pd_pending : pending_submit_count_ (engine_ w') = 0;
  pd_idle : r = 0 → task_queue_ (engine_ w') = task_queue_ (engine_ w) ∧
    io_waiting_queue_ (engine_ w) = [] ∧ io_read_submit_queue_ (engine_ w) = [] ∧
    io_write_submit_queue_ (engine_ w) = [];
}.

Lemma poll_waiting_wf n e ops :
  engine_wf (MkEngineWorld e ops) →
  let moved := take n (io_waiting_queue_ e) in
  let e' := set_inflight_io (inflight_io_ e - Z.of_nat (length moved))
      (set_waiting (drop n (io_waiting_queue_ e)) (set_tasks (task_queue_ e ++ moved) e)) in
  poll_waiting n e = Ok (length moved) e' ∧
  engine_wf (MkEngineWorld e' ops) ∧ same_work (MkEngineWorld e ops) (MkEngineWorld e' ops).
Proof.
  intros [W1 W2 W3 W4 W5] moved e'. cbn in *.
  assert (Hlen : length (io_waiting_queue_ e) =
    (length moved + length (drop n (io_waiting_queue_ e)))%nat).
  { unfold moved. rewrite <- length_app. by rewrite take_drop. }
  split_and!.
  - apply poll_waiting_eq. lia.
  - split; cbn; [|lia|done..]. unfold in_flight in *. cbn. lia.
  - split; cbn; [|done|done|by eexists]. unfold engine_handles. cbn.
    rewrite <- app_assoc, (app_assoc moved). unfold moved. by rewrite take_drop.
Qed.

(** Polls of at most 2^31 requests, on an empty submission queue with room for
    them. *)
Definition poll_room (n : nat) w : Prop :=
  0 < Z.of_nat n ≤ 2 ^ 31 ∧ pending_submit_count_ (engine_ w) = 0 ∧
  Z.of_nat n ≤ sq_entries (uring_ (engine_ w)) < 2 ^ 64.

Lemma take_nil_inv {A} n (l : list A) : (0 < n)%nat → length (take n l) = 0%nat → l = [].
Proof. destruct l, n; cbn; lia || done. Qed.

Lemma wp_poll_io_locked n w : engine_wf w → poll_room n w →
  wp (poll_io_locked n) w
    (λ r w', poll_done n w r w' ∧ task_queue_ (engine_ w') =
        task_queue_ (engine_ w) ++ take n (io_waiting_queue_ (engine_ w)) ∧ 0 ≤ r ≤ 2 ^ 32)
    (λ _ w', engine_wf w' ∧ same_work w w').
Proof.
  intros Hw ([Hn0 Hn] & Hp0 & Hr). destruct w as [e ops]. cbn [engine_ io_ops] in *.
  destruct (poll_waiting_wf n e ops Hw) as (Hrun & Hw1 & Hs1).
  set (moved := take n (io_waiting_queue_ e)) in *. set (e1 := set_inflight_io _ _) in *.
  assert (Hm : (length moved ≤ n)%nat) by (unfold moved; rewrite length_take; lia).
  unfold poll_io_locked. wp_step. apply wp_zoom. apply (wp_of_ok _ _ _ _ _ _ Hrun). cbn [lset].
  wp_step. eapply wp_mono; [apply (wp_poll_prepare _ _ _ (λ _ _, False)); [exact Hw1|cbn; lia]| |done].
  intros reads w2 (R1 & R2 & R3 & R4 & R5 & R6 & R7 & R8).
  assert (Hreads : (reads ≤ n)%nat) by (rewrite R5, length_take; lia).
  pose proof (sw_entries _ _ R2) as Ren. cbn in R3, R4, R5, R6, R7, Ren.
  specialize (R8 IoWrite ltac:(done)). cbn in R8.
  wp_step. eapply wp_mono; [apply (wp_poll_prepare _ _ _ (λ _ _, False)); [exact R1|lia]| |done].
  intros writes w3 (W1 & W2 & W3 & W4 & W5 & W6 & W7 & W8). cbn in W5, W7.
  specialize (W8 IoRead ltac:(done)). cbn in W8.
  assert (Hwrites : (writes ≤ n - reads)%nat) by (rewrite W5, length_take; lia).
  assert (Hpend : pending_submit_count_ (engine_ w3) = Z.of_nat reads + Z.of_nat writes) by lia.
  wp_step. apply wp_get. apply wp_zoom. destruct w3 as [e3 ops3]. cbn [lget engine_world_engine engine_] in *.
  assert (Hs3 : same_work (MkEngineWorld e ops) (MkEngineWorld e3 ops3)).
  { eapply same_work_trans; [exact Hs1|]. by eapply same_work_trans. }
  eapply wp_mono; [apply (wp_poll_submit _ _ _ ops3 W1); lia|..].
  2: { intros x e' [H1 H2]. split; [done|]. by eapply same_work_trans. }
  intros r e' (S1 & S2 & S3 & S4 & S5 & S6 & S7 & S8). cbn [lset engine_ io_ops].
  specialize (S8 ltac:(lia) ltac:(lia)).
  assert (Ht : task_queue_ e' = task_queue_ e ++ moved) by congruence.
  split_and!; [|done|lia|lia]. split; cbn [lset engine_world_engine engine_ io_ops].
  - done.
  - by eapply same_work_trans.
  - exists []. by rewrite app_nil_r.
  - rewrite S3, W3, R3. done.
  - rewrite S5, W8, R7. done.
  - rewrite S6, W7, R8, R5. done.
  - done.
  - intros Hr0. assert (length moved = 0%nat ∧ reads = 0%nat ∧ writes = 0%nat) as (E1 & E2 & E3) by lia.
    rewrite R5 in E2. rewrite W5, R8, R5, E2 in E3. rewrite Nat.sub_0_r in E3.
    split_and!; [|by apply (take_nil_inv n); [lia|]..].
    rewrite Ht. apply length_zero_iff_nil in E1. by rewrite E1, app_nil_r.
Qed.

Lemma wp_poll_io n w : engine_wf w → poll_room n w →
  wp (poll_io n) w (poll_done n w) (λ _ w', engine_wf w' ∧ same_work w w').
Proof.
  intros Hw Hr. unfold poll_io.
  destruct (Nat.eqb_spec n 0) as [->|Hn]; [destruct Hr as [? _]; lia|].
  wp_step. eapply wp_mono; [by apply wp_poll_io_locked| |done].
  intros r w1 ([P1 P2 _ P4 P5 P6 P7 P8] & Ht & Hrange).
  wp_step. eapply wp_mono; [by apply wp_poll_complete| |].
  - intros m w2 (C1 & C2 & C3 & C4 & C5 & C6 & C7 & C8). apply wp_ret.
    destruct (sw_tasks _ _ C2) as [l Hl]. split.
    + done.
    + by eapply same_work_trans.
    + exists l. by rewrite Hl, Ht, <- app_assoc.
    + by rewrite C3.
    + by rewrite C4.
    + by rewrite C5.
    + by rewrite C6.
    + destruct Hr as ([_ Hn31] & _). intros Hz.
      assert (m = 0%nat ∧ r = 0) as [-> ->].
      { destruct (Nat.ltb_spec 0 m); [|lia]. rewrite u64_small in Hz; lia. }
      destruct (P8 eq_refl) as (Q1 & Q). split; [|done].
      apply (f_equal length) in Hl as Hlen. rewrite length_app in Hlen.
      assert (l = []) as -> by (apply length_zero_iff_nil; lia).
      by rewrite Hl, app_nil_r.
  - intros x w2 [C1 C2]. split; [done|]. by eapply same_work_trans.
Qed.

(** ** The task queue *)

Lemma pop_batch_loop_eq n q out :
  pop_batch_loop n q out = (out ++ take n q, drop n q).
Proof.
  revert q out. induction n as [|n IH]; intros q out; [by rewrite app_nil_r|].
  destruct q as [|h q]; cbn; [by rewrite app_nil_r|]. by rewrite IH, <- app_assoc.
Qed.

Lemma pop_batch_eq out n e :
  pop_batch out n e =
    if queue_empty (task_queue_ e) || Nat.eqb n 0 then Ok (0%nat, out) e
    else Ok (length (take n (task_queue_ e)), take n (task_queue_ e))
           (set_tasks (drop n (task_queue_ e)) e).
Proof.
  unfold pop_batch, bind, get. destruct (_ || _); [done|]. by rewrite pop_batch_loop_eq.
Qed.

(** The uses of the task queue: a submission, a batch of the worker, a single
    pop. *)
Inductive task_use := USubmit (h : handle) | UBatch (max_n : nat) | UPop.

(** A use, and the handles it took out. *)
Definition use_tasks (x : task_use) : M (Engine U) (list handle) :=
  match x with
  | USubmit h => Engine_submit_task h;;; ret []
  | UBatch n => let! p := pop_batch [] n in ret (snd p)
  | UPop => let! h := try_pop_task in ret (if is_null h then [] else [h])
  end.

Fixpoint use_all (xs : list task_use) : M (Engine U) (list handle) :=
  match xs with
  | [] => ret []
  | x :: xs' => let! hs := use_tasks x in let! hs' := use_all xs' in ret (hs ++ hs')
  end.

Fixpoint submitted (xs : list task_use) : list handle :=
  match xs with
  | [] => []
  | USubmit h :: xs' => h :: submitted xs'
  | _ :: xs' => submitted xs'
  end.

Lemma use_all_fifo xs e : Forall (λ h, h ≠ null) (task_queue_ e ++ submitted xs) →
  ∃ out e', use_all xs e = Ok out e' ∧
    out ++ task_queue_ e' = task_queue_ e ++ submitted xs.
Proof.
  revert e. induction xs as [|x xs IH]; intros e Hn; cbn [use_all].
  { exists [], e. by rewrite app_nil_r. }
  assert (Hone : ∃ hs e1, use_tasks x e = Ok hs e1 ∧
    hs ++ task_queue_ e1 = task_queue_ e ++ submitted [x]).
  { destruct x as [h|n|]; cbn.
    - eexists [], _. by split.
    - unfold bind. rewrite pop_batch_eq.
      destruct (task_queue_ e) as [|h q] eqn:Eq; [exists [], e; cbn; by rewrite Eq|].
      cbn [queue_empty orb]. destruct (Nat.eqb n 0).
      + exists [], e. by rewrite Eq, app_nil_r.
      + eexists _, _. split; [done|]. cbn [task_queue_ set_tasks snd].
        by rewrite take_drop, app_nil_r.
    - unfold bind, try_pop_task, get, put. destruct e as [[|h q] ? ? ? ? ? ? ?]; cbn in *.
      + eexists [], _. by split.
      + apply Forall_cons in Hn as [Hn _]. assert (is_null h = false) as E by by apply N.eqb_neq.
        unfold ret. rewrite E. eexists [h], _. split; [done|]. cbn. by rewrite app_nil_r. }
  destruct Hone as (hs & e1 & Hrun & E1).
  assert (Hsub : submitted (x :: xs) = submitted [x] ++ submitted xs) by by destruct x.
  rewrite Hsub, app_assoc, <- E1, <- app_assoc in *.
  apply Forall_app in Hn as [_ Hn]. destruct (IH e1 Hn) as (out & e2 & Hrun2 & E2).
  exists (hs ++ out), e2. split; [|by rewrite <- app_assoc, E2].
  by rewrite (bind_ok _ _ _ _ _ Hrun), (bind_ok _ _ _ _ _ Hrun2).
Qed.

(** ** Stopping and sleeping *)

Lemma engine_idle w : engine_wf w →
  (engine_handles w = [] ↔ task_queue_ (engine_ w) = [] ∧ io_waiting_queue_ (engine_ w) = [] ∧
     io_read_submit_queue_ (engine_ w) = [] ∧ io_write_submit_queue_ (engine_ w) = [] ∧
     pending_submit_count_ (engine_ w) = 0 ∧ inflight_io_ (engine_ w) = 0).
Proof.
  intros [W1 _ W3 _ _]. unfold engine_handles. split.
  - intros [Ht [Hw Hi%fmap_nil_inv]%app_eq_nil]%app_eq_nil.
    assert (Hi' := Hi). unfold in_flight, outstanding in Hi'.
    apply app_eq_nil in Hi' as [Hr [Hwr Ho%fmap_nil_inv]%app_eq_nil].
    apply app_eq_nil in Ho as [Hp _]. rewrite W1, W3, Hw, Hi, Hp. by split_and!.
  - intros (Ht & Hw & _ & _ & _ & Hn). rewrite Ht, Hw. rewrite Hn in W1.
    assert (in_flight (engine_ w) = []) as -> by (apply length_zero_iff_nil; lia). done.
Qed.

Lemma queue_empty_spec {A} (q : list A) : queue_empty q = true ↔ q = [].
Proof. by destruct q. Qed.

Lemma can_stop_eq stop e :
  can_stop stop e = Ok (stop && queues_empty e && (inflight_tasks_ e =? 0) &&
    (inflight_io_ e =? 0)) e.
Proof.
  unfold can_stop, queues_empty, bind, get.
  destruct stop, (queue_empty (task_queue_ e)), (queue_empty (io_waiting_queue_ e)),
    (queue_empty (io_read_submit_queue_ e)), (queue_empty (io_write_submit_queue_ e)),
    (pending_submit_count_ e =? 0), (inflight_tasks_ e =? 0), (inflight_io_ e =? 0); done.
Qed.

(** An engine without IO, its ring idle. *)
Definition quiet_engine (q : list handle) (k : Z) (u : U) : Engine U :=
  MkEngine q [] [] [] u 0 k 0.

Lemma poll_io_quiet `{!LiburingIdle U} n q k u ops : idle_ring u →
  ∃ u', poll_io n (MkEngineWorld (quiet_engine q k u) ops) =
      Ok 0 (MkEngineWorld (quiet_engine q k u') ops) ∧ idle_ring u'.
Proof.
  intros Hu. destruct (try_wait_one_idle u Hu) as (u' & Hw & Hu').
  unfold poll_io. destruct n as [|n]; [by exists u|]. exists u'. split; [|done].
  cbn [Nat.eqb]. rewrite (bind_ok _ _ _ 0 (MkEngineWorld (quiet_engine q k u) ops)).
  - cbn [poll_complete]. unfold bind at 1 2. unfold zoom at 1 2. cbn. by rewrite Hw.
  - unfold poll_io_locked, bind, zoom. done.
Qed.
End engine_props.

(** ** A concrete engine: two ready coroutines, one waiting, one read *)

Definition demo_engine : engine_world sim_ring :=
  MkEngineWorld
    (MkEngine [10%N; 11%N] [12%N] [100%N] [] (MkSimRing 256 [] []) 0 0 2)
    {[100%N := MkIoOp IoRead 3 512 0 0 13%N 200%N]}.

Lemma demo_engine_wf : engine_wf demo_engine.
Proof.
  split; cbn; try lia; [|by repeat constructor].
  constructor; [by eexists|constructor].
Qed.

(** ** Properties *)

(** C13. [poll_io] of at most [n] operations terminates, and, if the kernel
    accepts the submissions: the waiting coroutines become ready in order, the
    first [n] read and write requests go to the ring, which never runs out of
    entries, every completion makes its coroutine ready; no coroutine is lost
    or duplicated and the counters [inflight_io_] and [pending_submit_count_]
    stay exact; the result is 0 only when nothing was there to do.  If the
    kernel reports an error the exception leaves every coroutine in the
    engine. *)
Theorem engine_poll_io {U} `{!Liburing U, !LiburingLaws U} n (w : engine_world U) :
  engine_wf w → poll_room n w →
  wp (poll_io n) w (poll_done n w) (λ _ w', engine_wf w' ∧ same_work w w').
Proof. apply wp_poll_io. Qed.

Lemma engine_poll_io_witness :
  ∃ w', poll_io 64 demo_engine = Ok 3 w' ∧ poll_done 64 demo_engine 3 w' ∧
    task_queue_ (engine_ w') = [10%N; 11%N; 12%N; 13%N].
Proof.
  pose proof (engine_poll_io 64 demo_engine demo_engine_wf) as H.
  assert (Hr : poll_room 64 demo_engine) by (unfold poll_room; cbn; lia).
  specialize (H Hr). unfold wp in H.
  destruct (poll_io 64 demo_engine) as [r w'| | | |] eqn:E; try done.
  vm_compute in E. injection E as <- <-. eexists. split; [reflexivity|]. split; [exact H|reflexivity].
Defined.

(** The worker stops only when it was asked to and no coroutine is ready,
    waiting, queued or in the kernel and none is being resumed; and it sleeps
    only when it was not asked to stop and no coroutine is in the engine at
    all.  (engine.cpp: can_stop, wait_for_work_or_stop) *)
Theorem engine_stop_and_sleep {U} `{!Liburing U, !LiburingLaws U} (w : engine_world U) stop :
  engine_wf w →
  (∃ b, can_stop stop (engine_ w) = Ok b (engine_ w) ∧
    (b = true ↔ stop = true ∧ engine_handles w = [] ∧ inflight_tasks_ (engine_ w) = 0)) ∧
  (work_or_stop stop (engine_ w) = false ↔ stop = false ∧ engine_handles w = []).
Proof.
  intros Hw. split.
  - eexists. split; [apply can_stop_eq|]. unfold queues_empty.
    rewrite !andb_true_iff, !queue_empty_spec, !Z.eqb_eq, (engine_idle w Hw). tauto.
  - rewrite (engine_idle w Hw). unfold work_or_stop. rewrite !orb_false_iff, !negb_false_iff, !Z.eqb_eq.
    destruct (task_queue_ (engine_ w)), (io_waiting_queue_ (engine_ w)),
      (io_read_submit_queue_ (engine_ w)), (io_write_submit_queue_ (engine_ w));
      cbn; intuition congruence.
Qed.

Lemma engine_stop_and_sleep_witness :
  engine_wf demo_engine ∧ work_or_stop false (engine_ demo_engine) ≠ false.
Proof.
  split; [exact demo_engine_wf|]. intros H.
  apply (proj2 (engine_stop_and_sleep demo_engine false demo_engine_wf)) in H as [_ H].
  discriminate H.
Defined.

(** The task queue is first in, first out: for any sequence of
    submissions, batches and single pops, the handles taken out followed by
    the queue are the queue before followed by the handles submitted. *)
Theorem engine_tasks_fifo {U} `{!Liburing U} (xs : list task_use) (e : Engine U) :
  Forall (λ h, h ≠ null) (task_queue_ e ++ submitted xs) →
  ∃ out e', use_all xs e = Ok out e' ∧
    out ++ task_queue_ e' = task_queue_ e ++ submitted xs.
Proof. apply use_all_fifo. Qed.

Lemma engine_tasks_fifo_witness :
  ∃ out e', use_all [USubmit 14%N; UBatch 2; UPop] (engine_ demo_engine) = Ok out e' ∧
    out ++ task_queue_ e' = [10%N; 11%N; 14%N].
Proof.
  apply (engine_tasks_fifo [USubmit 14%N; UBatch 2; UPop] (engine_ demo_engine)).
  repeat constructor; discriminate.
Defined.
