(* ===== verification/IoRequests.v ===== *)
(** * IO requests and their answers

    What an awaiter is resumed with is the kernel's answer to the request the
    awaiter described: the request travels through the submission queue of
    its kind into a ring entry that carries the awaiter's address, the
    completion brings the address back and the result is stored there. *)

From S2P Require Import Prelude Uring Engine EngineProps.

Open Scope Z_scope.

#[export] Instance io_kind_eq_dec : EqDecision io_kind.
Proof. solve_decision. Defined.

(** The request an awaiter stands for. *)
Definition op_request (a : IoOpAwaiter) : io_request :=
  MkRequest (op_kind_ a) (fd_ a) (buf_ a) (u32 (len_ a)) (offset_ a).

Section io_requests.
Context {U : Type} `{!Liburing U, !LiburingLaws U, !LiburingRequests U}.
Implicit Types (e : Engine U) (w : engine_world U).

(** ** The invariant *)

Record io_wf w : Prop := {
  iw_engine : engine_wf w;
  iw_distinct : NoDup (in_flight (engine_ w));
  iw_kinds : ∀ k p, p ∈ submit_queue k (engine_ w) →
    ∃ a, io_ops w !! p = Some a ∧ op_kind_ a = k;
  iw_requests : ∀ p, Z.of_N p ∈ outstanding (uring_ (engine_ w)) →
    ∃ a, io_ops w !! p = Some a ∧
      request_of (uring_ (engine_ w)) (Z.of_N p) = Some (op_request a);
}.

(** From [w] to [w']: an operation is in flight still and as it was, or its
    awaiter has an answer and its coroutine has been made ready; other
    awaiters are not touched. *)
Definition io_served w w' : Prop := ∃ l,
  task_queue_ (engine_ w') = task_queue_ (engine_ w) ++ l ∧
  (∀ p, p ∈ in_flight (engine_ w') →
    p ∈ in_flight (engine_ w) ∧ io_ops w' !! p = io_ops w !! p) ∧
  (∀ p a, p ∈ in_flight (engine_ w) → p ∉ in_flight (engine_ w') → io_ops w !! p = Some a →
    handle_ a ∈ l ∧ ∃ res, answers (op_request a) res ∧ io_ops w' !! p = Some (set_result res a)) ∧
  (∀ p, p ∉ in_flight (engine_ w) → io_ops w' !! p = io_ops w !! p).

Lemma io_served_refl w : io_served w w.
Proof. exists []. rewrite app_nil_r. split_and!; naive_solver. Qed.

Lemma io_served_trans w1 w2 w3 : io_served w1 w2 → io_served w2 w3 → io_served w1 w3.
Proof.
  intros (l1 & T1 & A1 & B1 & C1) (l2 & T2 & A2 & B2 & C2). exists (l1 ++ l2). split_and!.
  - by rewrite T2, T1, app_assoc.
  - intros p [Hp E2]%A2. destruct (A1 p Hp) as [Hp1 E1]. split; [done|congruence].
  - intros p a Hin Hout Ha. destruct (decide (p ∈ in_flight (engine_ w2))) as [Hp|Hp].
    + destruct (A1 p Hp) as [_ E1]. destruct (B2 p a Hp Hout) as [Hh Hr]; [congruence|].
      split; [|done]. apply elem_of_app. by right.
    + destruct (B1 p a Hin Hp Ha) as [Hh (res & Hr & Hres)]. split; [apply elem_of_app; by left|].
      exists res. split; [done|]. by rewrite C2.
  - intros p Hp. rewrite C2, C1; [done|done|]. intros Hp2. by destruct (A1 p Hp2).
Qed.

(** A step in which operations only move towards the ring. *)
Lemma io_move w e' l : io_wf w → engine_wf (MkEngineWorld e' (io_ops w)) →
  task_queue_ e' = task_queue_ (engine_ w) ++ l →
  in_flight e' ≡ₚ in_flight (engine_ w) →
  (∀ k, submit_queue k e' ⊆ submit_queue k (engine_ w)) →
  (∀ p, Z.of_N p ∈ outstanding (uring_ e') → ∃ a, io_ops w !! p = Some a ∧
     request_of (uring_ e') (Z.of_N p) = Some (op_request a)) →
  io_wf (MkEngineWorld e' (io_ops w)) ∧ io_served w (MkEngineWorld e' (io_ops w)).
Proof.
  intros [W1 W2 W3 W4] Hw Ht Hf Hq Hr. split.
  - split; cbn; [done|by rewrite Hf| |done]. intros k p Hp. by apply W3, Hq.
  - exists l. cbn. split_and!; [done|..].
    + intros p. by rewrite Hf.
    + intros p a Hin Hout. by rewrite Hf in Hout.
    + done.
Qed.

Lemma flight_outstanding w : io_wf w → NoDup (outstanding (uring_ (engine_ w))).
Proof.
  intros [_ Hnd _ _]. unfold in_flight in Hnd.
  apply NoDup_app in Hnd as (_ & _ & Hnd). apply NoDup_app in Hnd as (_ & _ & Hnd).
  by eapply NoDup_fmap_1.
Qed.

Lemma queue_in_flight k p e : p ∈ submit_queue k e → p ∈ in_flight e.
Proof. unfold in_flight. rewrite !elem_of_app. destruct k; auto. Qed.

(** A queued operation has no entry in the ring. *)
Lemma queue_not_outstanding w k p : io_wf w → p ∈ submit_queue k (engine_ w) →
  Z.of_N p ∉ outstanding (uring_ (engine_ w)).
Proof.
  intros [_ Hnd _ _] Hq Ho. unfold in_flight in Hnd.
  assert (Hf : p ∈ Z.to_N <$> outstanding (uring_ (engine_ w))).
  { apply list_elem_of_fmap. exists (Z.of_N p). by rewrite N2Z.id. }
  apply NoDup_app in Hnd as (_ & H1 & Hnd). apply NoDup_app in Hnd as (_ & H2 & _).
  destruct k; cbn in Hq; [apply (H1 p Hq), elem_of_app; by right|by apply (H2 p Hq)].
Qed.

Lemma outstanding_of_N w d : io_wf w → d ∈ outstanding (uring_ (engine_ w)) → Z.of_N (Z.to_N d) = d.
Proof.
  intros [[_ _ _ _ Hd] _ _ _] Hin. rewrite Forall_forall in Hd. specialize (Hd d Hin). lia.
Qed.

(** ** The ring *)

Lemma wp_submit_rw_request k fd buf len offset d u E :
  Z.of_nat (length (sqes_prepared u)) < sq_entries u → d ∉ outstanding u →
  wp (IoUring_submit_rw k fd buf len offset d) u
    (λ _ u', request_of u' d = Some (MkRequest k fd buf (u32 len) offset) ∧
       ∀ d', d' ∈ outstanding u → request_of u' d' = request_of u d') E.
Proof.
  intros Hl Hd. destruct (law_get_sqe u Hl) as (sqe & u' & Hsqe & _).
  pose proof (law_prep u sqe u' k fd buf (u32 len) offset d Hsqe Hl Hd) as Hp.
  unfold wp, IoUring_submit_rw, uring_get_sqe, bind. rewrite Hsqe. exact Hp.
Qed.

Lemma wp_and {S A} (m : M S A) s (Q1 Q2 : A → S → Prop) (E1 E2 : exn → S → Prop) :
  wp m s Q1 E1 → wp m s Q2 E2 → wp m s (λ a s, Q1 a s ∧ Q2 a s) (λ x s, E1 x s ∧ E2 x s).
Proof. unfold wp. by destruct (m s). Qed.

(** ** The loops of [poll_io] *)

(** The request of [p] is in the ring. *)
Lemma prepared_io k p q a e (ops : gmap ptr IoOpAwaiter) u : io_wf (MkEngineWorld e ops) →
  submit_queue k e = p :: q → ops !! p = Some a →
  sqes_prepared u = sqes_prepared (uring_ e) ++ [Z.of_N p] → sqes_accepted u = sqes_accepted (uring_ e) →
  request_of u (Z.of_N p) = Some (op_request a) →
  (∀ d, d ∈ outstanding (uring_ e) → request_of u d = request_of (uring_ e) d) →
  engine_wf (MkEngineWorld (prepared_one k q u e) ops) →
  io_wf (MkEngineWorld (prepared_one k q u e) ops) ∧
  io_served (MkEngineWorld e ops) (MkEngineWorld (prepared_one k q u e) ops).
Proof.
  intros Hw Eq Ha H1 H2 Hreq Hold Hw'. apply (io_move (MkEngineWorld e ops) (prepared_one k q u e) [] Hw Hw').
  - rewrite app_nil_r. by destruct k.
  - cbn [engine_]. unfold in_flight, prepared_one, outstanding, submit_queue in *. destruct k; cbn;
      rewrite H1, H2, Eq, !fmap_app; cbn; rewrite N2Z.id;
      rewrite <- (app_assoc (Z.to_N <$> sqes_prepared _)); cbn;
      rewrite <- (Permutation_middle (Z.to_N <$> sqes_prepared _)); by rewrite <- !Permutation_middle.
  - intros k'. unfold submit_queue in *. destruct k, k'; cbn; rewrite ?Eq; set_solver.
  - intros p' Hp'. change (uring_ (prepared_one k q u e)) with u in *. cbn [io_ops].
    assert (Hd : Z.of_N p' = Z.of_N p ∨ Z.of_N p' ∈ outstanding (uring_ e)).
    { unfold outstanding in *. rewrite H1, H2 in Hp'. set_solver. }
    destruct Hd as [Hd|Hd].
    + apply N2Z.inj in Hd as ->. by exists a.
    + destruct (iw_requests _ Hw p' Hd) as (a' & Ha' & Hr'). exists a'. split; [done|].
      by rewrite Hold.
Qed.

Lemma wp_prepare_requests k n w E :
  io_wf w → pending_submit_count_ (engine_ w) + Z.of_nat n ≤ sq_entries (uring_ (engine_ w)) < 2 ^ 64 →
  wp (poll_prepare k n) w (λ _ w', io_wf w' ∧ io_served w w') E.
Proof.
  revert w. induction n as [|n IH]; intros w Hw Hl.
  { cbn. split; [done|apply io_served_refl]. }
  cbn [poll_prepare]. wp_step. apply wp_get. cbn beta iota.
  destruct (submit_queue k (engine_ w)) as [|p q] eqn:Eq.
  { apply wp_ret. split; [done|apply io_served_refl]. }
  assert (Hpq : p ∈ submit_queue k (engine_ w)) by (rewrite Eq; by left).
  destruct (iw_kinds _ Hw k p Hpq) as (a & Ha & Hk).
  pose proof (queue_not_outstanding _ _ _ Hw Hpq) as Hno.
  pose proof (ew_pending _ (iw_engine _ Hw)) as Hpend.
  destruct w as [e ops]. cbn [engine_ io_ops] in *.
  wp_step. apply wp_zoom, wp_modify. wp_step.
  apply (wp_of_ok _ _ a (MkEngineWorld (set_submit_queue k q e) ops)).
  { unfold io_op_at, bind, get. cbn. by rewrite Ha. }
  wp_step. apply wp_zoom, wp_zoom.
  assert (Hu : uring_ (set_submit_queue k q e) = uring_ e) by by destruct k.
  cbn [lget lset engine_world_engine engine_uring engine_ io_ops]. rewrite Hu.
  assert (Hroom : Z.of_nat (length (sqes_prepared (uring_ e))) < sq_entries (uring_ e)) by lia.
  pose proof (wp_submit_rw k (fd_ a) (buf_ a) (len_ a) (offset_ a) (Z.of_N p) (uring_ e)
    (λ _ _, False) Hroom) as P1.
  pose proof (wp_submit_rw_request k (fd_ a) (buf_ a) (len_ a) (offset_ a) (Z.of_N p) (uring_ e)
    (λ _ _, False) Hroom Hno) as P2.
  eapply wp_mono; [exact (wp_and _ _ _ _ _ _ P1 P2)| |by intros ?? []].
  intros _ u ((H1 & H2 & H3) & Hreq & Hold). wp_step. apply wp_zoom, wp_modify.
  cbn [lget lset engine_world_engine engine_ io_ops].
  assert (Hst : set_pending (u64 (pending_submit_count_ (set_uring u (set_submit_queue k q e)) + 1))
    (set_uring u (set_submit_queue k q e)) = prepared_one k q u e) by by destruct k.
  rewrite Hst.
  destruct (prepare_one (MkEngineWorld e ops) k p q u (iw_engine _ Hw) Eq) as (Hw' & Hs & Hpc);
    [cbn; lia|done|done|done|]. cbn [engine_ io_ops] in *.
  assert (Hra : request_of u (Z.of_N p) = Some (op_request a)) by (rewrite Hreq; unfold op_request; by rewrite Hk).
  destruct (prepared_io k p q a e ops u Hw Eq Ha H1 H2 Hra Hold Hw') as [Hw1 Hs1].
  wp_step. eapply wp_mono; [apply (IH _ Hw1)| |done].
  - cbn [engine_]. rewrite Hpc. change (uring_ (prepared_one k q u e)) with u. lia.
  - intros m w' (I1 & I2). apply wp_ret. split; [done|]. by eapply io_served_trans.
Qed.

(** The ring moves on, and the requests with it. *)
Lemma io_ring_moved e ops u n : io_wf (MkEngineWorld e ops) → n = Z.of_nat (length (sqes_prepared u)) →
  outstanding u ≡ₚ outstanding (uring_ e) → (∀ d, request_of u d = request_of (uring_ e) d) →
  io_wf (MkEngineWorld (set_pending n (set_uring u e)) ops) ∧
  io_served (MkEngineWorld e ops) (MkEngineWorld (set_pending n (set_uring u e)) ops).
Proof.
  intros Hw Hn Ho Hr.
  assert (Hi : in_flight (set_pending n (set_uring u e)) ≡ₚ in_flight e)
    by (unfold in_flight; cbn; by rewrite Ho).
  apply (io_move (MkEngineWorld e ops) _ []); [done| | |done| |].
  - apply (engine_wf_move (MkEngineWorld e ops)); try done; [apply (iw_engine _ Hw)|].
    cbn. rewrite Ho. apply (ew_data _ (iw_engine _ Hw)).
  - by rewrite app_nil_r.
  - by intros [].
  - intros p Hpo. cbn in Hpo. rewrite Ho in Hpo. cbn. rewrite Hr. by apply (iw_requests _ Hw).
Qed.

Lemma set_uring_pending (u : U) e : set_uring u e = set_pending (pending_submit_count_ e) (set_uring u e).
Proof. done. Qed.

Lemma wp_submit_requests fuel n e ops :
  io_wf (MkEngineWorld e ops) → pending_submit_count_ e ≤ Z.of_nat fuel →
  pending_submit_count_ e < 2 ^ 64 →
  wp (poll_submit fuel n) e
    (λ _ e', io_wf (MkEngineWorld e' ops) ∧ io_served (MkEngineWorld e ops) (MkEngineWorld e' ops))
    (λ _ e', io_wf (MkEngineWorld e' ops) ∧ io_served (MkEngineWorld e ops) (MkEngineWorld e' ops)).
Proof.
  revert n e. induction fuel as [|fuel IH]; intros n e Hw Hf Hlt; cbn [poll_submit];
    pose proof (ew_pending _ (iw_engine _ Hw)) as Hp; cbn in Hp.
  { wp_steps. replace (pending_submit_count_ e >? 0) with false by (symmetry; lia).
    apply wp_ret. split; [done|apply io_served_refl]. }
  wp_steps. destruct (Z.gtb_spec (pending_submit_count_ e) 0) as [Hpos|Hz].
  2: { apply wp_ret. split; [done|apply io_served_refl]. }
  wp_step. apply wp_zoom. cbn [lget lset engine_uring].
  assert (Hreq : wp IoUring_submit (uring_ e)
    (λ _ u, ∀ d, request_of u d = request_of (uring_ e) d) (λ _ _, False)).
  { unfold wp, IoUring_submit. pose proof (law_submit_requests (uring_ e)) as Hl.
    destruct (io_uring_submit (uring_ e)). intros d. apply Hl. by apply (flight_outstanding _ Hw). }
  eapply wp_mono; [exact (wp_and _ _ _ _ _ _ (wp_submit _ (λ _ _, False)) Hreq)| |by intros ?? []].
  intros k u ((He & Hk) & Hr).
  destruct (Z.leb_spec k 0) as [Hk0|Hk0].
  { apply wp_throw. rewrite set_uring_pending. apply io_ring_moved; [done| | |done].
    - rewrite Hp. destruct Hk as [(_ & H1 & _)|(H0 & H1 & _)]; [by rewrite H1|lia].
    - destruct Hk as [(_ & H1 & H2)|(_ & _ & H1)]; [by unfold outstanding; rewrite H1, H2|done]. }
  destruct Hk as [(? & _)|(_ & Hlen & Ho)]; [lia|].
  wp_steps. rewrite u64_small by lia. cbn [pending_submit_count_ set_uring].
  destruct (Z.gtb_spec k (pending_submit_count_ e)); [lia|].
  wp_steps. cbn [pending_submit_count_ set_uring]. rewrite (u64_small (_ - k)) by lia.
  destruct (io_ring_moved e ops u (pending_submit_count_ e - k) Hw) as [Hw' Hs]; [lia|done|done|].
  eapply wp_mono; [apply IH; [exact Hw'|cbn; lia|cbn; lia]|..].
  - intros r e' (I1 & I2). split; [done|]. by eapply io_served_trans.
  - intros x e' (I1 & I2). split; [done|]. by eapply io_served_trans.
Qed.

Lemma wp_try_wait_requests u : NoDup (outstanding u) →
  wp IoUring_try_wait_one u (λ o u',
    match o with
    | Some info => (∀ q, request_of u (user_data info) = Some q → answers q (result info)) ∧
        ∀ d, d ≠ user_data info → request_of u' d = request_of u d
    | None => ∀ d, request_of u' d = request_of u d
    end) (λ _ u', ∀ d, request_of u' d = request_of u d).
Proof.
  intros Hnd. pose proof (law_peek_requests u Hnd) as H. unfold wp, IoUring_try_wait_one, bind.
  pose proof (law_peek u) as H'.
  destruct (io_uring_peek_cqe u) as [[r cqe] u']. destruct H as (H1 & H2).
  destruct (Z.ltb_spec r 0).
  - by destruct (r =? - EAGAIN).
  - destruct cqe as [info|]; cbn; [|done]. by apply H2.
Qed.

(** The operation [p] has its answer [info]: it leaves, with the result of its
    own request; the others stay as they are. *)
Section completed.
Context e (ops : gmap ptr IoOpAwaiter) (info : IoInfo) (u : U) (a : IoOpAwaiter) (Hw : io_wf (MkEngineWorld e ops)).
Context (Hen : sq_entries u = sq_entries (uring_ e)) (Hprep : sqes_prepared u = sqes_prepared (uring_ e))
  (Hacc : sqes_accepted (uring_ e) ≡ₚ user_data info :: sqes_accepted u).
#[local] Abbreviation p := (Z.to_N (user_data info)).
#[local] Abbreviation ops' := (<[p := set_result (result info) a]> ops).

Lemma completed_outstanding : outstanding (uring_ e) ≡ₚ user_data info :: outstanding u.
Proof. unfold outstanding. rewrite Hprep, Hacc. by rewrite <- Permutation_middle. Qed.

Lemma completed_data : Z.of_N p = user_data info.
Proof. apply (outstanding_of_N _ _ Hw). cbn. rewrite completed_outstanding. by left. Qed.

Lemma completed_flight : in_flight e ≡ₚ p :: in_flight (completed_one u a e).
Proof. unfold in_flight. cbn. rewrite completed_outstanding. cbn. by rewrite <- !Permutation_middle. Qed.

Lemma completed_nodup : p ∉ in_flight (completed_one u a e) ∧ NoDup (in_flight (completed_one u a e)).
Proof.
  pose proof (iw_distinct _ Hw) as Hnd. cbn in Hnd. rewrite completed_flight in Hnd. by apply NoDup_cons in Hnd.
Qed.

Lemma completed_others q : q ∈ in_flight (completed_one u a e) → ops' !! q = ops !! q.
Proof. intros Hq. rewrite lookup_insert_ne; [done|]. intros <-. by apply completed_nodup. Qed.

Lemma completed_wf : ops !! p = Some a → (∀ d, d ≠ user_data info → request_of u d = request_of (uring_ e) d) →
  io_wf (MkEngineWorld (completed_one u a e) ops').
Proof.
  intros Ha Hrest. destruct (complete_one e ops info u a (iw_engine _ Hw) Ha Hen Hprep Hacc) as [Hw' _].
  split; cbn [engine_ io_ops]; [done|by apply completed_nodup| |].
  - intros k q Hq. rewrite completed_others by by apply (queue_in_flight k).
    apply (iw_kinds _ Hw). by destruct k.
  - intros q Hq. change (uring_ (completed_one u a e)) with u in *.
    assert (q ∈ in_flight (completed_one u a e)) as Hqf.
    { unfold in_flight. rewrite !elem_of_app. right. right. apply list_elem_of_fmap.
      exists (Z.of_N q). by rewrite N2Z.id. }
    rewrite (completed_others q Hqf), Hrest.
    + apply (iw_requests _ Hw). cbn. rewrite completed_outstanding. by right.
    + rewrite <- completed_data. intros E%N2Z.inj. subst q. by apply completed_nodup.
Qed.

Lemma completed_served : ops !! p = Some a → answers (op_request a) (result info) →
  io_served (MkEngineWorld e ops) (MkEngineWorld (completed_one u a e) ops').
Proof.
  intros Ha Hans. exists [handle_ a]. cbn [engine_ io_ops]. split_and!; [done|..].
  - intros q Hq. split; [|by apply completed_others]. rewrite completed_flight. by right.
  - intros q b Hin Hno Hb. rewrite completed_flight in Hin. apply elem_of_cons in Hin as [->|Hin]; [|done].
    rewrite Ha in Hb. injection Hb as <-. split; [by left|]. exists (result info).
    split; [done|]. by rewrite lookup_insert_eq.
  - intros q Hq. rewrite lookup_insert_ne; [done|]. intros <-. apply Hq. rewrite completed_flight. by left.
Qed.
End completed.

Lemma wp_complete_requests n w : io_wf w →
  wp (poll_complete n) w (λ _ w', io_wf w' ∧ io_served w w') (λ _ w', io_wf w' ∧ io_served w w').
Proof.
  revert w. induction n as [|n IH]; intros w Hw; cbn [poll_complete].
  { apply wp_ret. split; [done|apply io_served_refl]. }
  destruct w as [e ops]. wp_step. apply wp_zoom, wp_zoom.
  cbn [lget lset engine_world_engine engine_uring engine_ io_ops].
  assert (Hkeep : ∀ u, sqes_prepared u = sqes_prepared (uring_ e) → sqes_accepted u = sqes_accepted (uring_ e) →
    (∀ d, request_of u d = request_of (uring_ e) d) →
    io_wf (MkEngineWorld (set_uring u e) ops) ∧
    io_served (MkEngineWorld e ops) (MkEngineWorld (set_uring u e) ops)).
  { intros u H2 H3 Hr. rewrite set_uring_pending. apply io_ring_moved; [done| | |done].
    - rewrite H2. apply (ew_pending _ (iw_engine _ Hw)).
    - unfold outstanding. by rewrite H2, H3. }
  eapply wp_mono; [exact (wp_and _ _ _ _ _ _ (wp_try_wait_one (uring_ e))
    (wp_try_wait_requests _ (flight_outstanding _ Hw)))| |
    intros x u ((H1 & H2 & H3) & Hr); by apply Hkeep].
  intros [info|] u ((H1 & H2 & H3) & Hr).
  2: { apply wp_ret. by apply Hkeep. }
  destruct Hr as [Hans Hrest].
  pose proof (completed_outstanding e info u H2 H3) as Hout.
  pose proof (completed_data e ops info u Hw H2 H3) as Hpd.
  destruct (iw_requests _ Hw (Z.to_N (user_data info))) as (a & Ha & Hreq).
  { cbn. rewrite Hout, Hpd. by left. }
  cbn [engine_ io_ops] in Ha, Hreq. rewrite Hpd in Hreq.
  wp_step. apply (wp_of_ok _ _ a (MkEngineWorld (set_uring u e) ops)).
  { unfold io_op_at, bind, get. cbn. by rewrite Ha. }
  wp_steps. apply wp_zoom, wp_modify. wp_steps. apply wp_zoom, wp_modify. wp_step.
  pose proof (completed_wf e ops info u a Hw H1 H2 H3 Ha Hrest) as Hw1.
  pose proof (completed_served e ops info u a Hw H2 H3 Ha (Hans _ Hreq)) as Hs1.
  eapply wp_mono; [apply (IH _ Hw1)|..].
  - intros m w' (I1 & I2). apply wp_ret. split; [done|]. by eapply io_served_trans.
  - intros x w' (I1 & I2). split; [done|]. by eapply io_served_trans.
Qed.

Lemma wp_poll_requests n w : io_wf w → poll_room n w →
  wp (poll_io n) w (λ _ w', io_wf w' ∧ io_served w w') (λ _ w', io_wf w' ∧ io_served w w').
Proof.
  intros Hw ([Hn0 Hn] & Hp0 & Hr). destruct w as [e ops]. cbn [engine_ io_ops] in *.
  destruct (poll_waiting_wf n e ops (iw_engine _ Hw)) as (Hrun & Hw1 & _).
  set (moved := take n (io_waiting_queue_ e)) in *. set (e1 := set_inflight_io _ _) in *.
  destruct (io_move (MkEngineWorld e ops) e1 moved Hw Hw1) as [V1 S1]; [done|done|by intros []| |].
  { apply (iw_requests _ Hw). }
  unfold poll_io. destruct (Nat.eqb_spec n 0); [lia|]. unfold poll_io_locked.
  wp_step. wp_step. apply wp_zoom. apply (wp_of_ok _ _ _ _ _ _ Hrun). cbn [lset engine_world_engine].
  assert (R1 : pending_submit_count_ (engine_ (MkEngineWorld e1 ops)) + Z.of_nat n ≤
    sq_entries (uring_ (engine_ (MkEngineWorld e1 ops))) < 2 ^ 64) by (cbn; lia).
  wp_step. eapply wp_mono; [exact (wp_and _ _ _ _ _ _ (wp_poll_prepare IoRead n _ (λ _ _, False) Hw1 R1)
    (wp_prepare_requests IoRead n _ (λ _ _, False) V1 R1))| |by intros ?? []].
  intros reads w2 ((P1 & P2 & _ & _ & P5 & P6 & _) & V2 & S2).
  assert (Hreads : (reads ≤ n)%nat) by (rewrite P5, length_take; lia).
  pose proof (sw_entries _ _ P2) as Ren. cbn in P6, Ren.
  assert (R2 : pending_submit_count_ (engine_ w2) + Z.of_nat (n - reads) ≤
    sq_entries (uring_ (engine_ w2)) < 2 ^ 64) by lia.
  wp_step. eapply wp_mono; [exact (wp_and _ _ _ _ _ _ (wp_poll_prepare IoWrite _ _ (λ _ _, False) P1 R2)
    (wp_prepare_requests IoWrite _ _ (λ _ _, False) V2 R2))| |by intros ?? []].
  intros writes w3 ((Q1 & Q2 & _ & _ & Q5 & Q6 & _) & V3 & S3).
  assert (Hwrites : (writes ≤ n - reads)%nat) by (rewrite Q5, length_take; lia).
  assert (S : io_served (MkEngineWorld e ops) w3).
  { eapply io_served_trans; [exact S1|]. by eapply io_served_trans. }
  wp_step. apply wp_get. apply wp_zoom. destruct w3 as [e3 ops3]. cbn [lget lset engine_world_engine engine_ io_ops] in *.
  eapply wp_mono; [apply (wp_submit_requests _ _ e3 ops3 V3); lia|..].
  2: { intros x e' (I1 & I2). split; [done|]. by eapply io_served_trans. }
  intros r e' (V4 & S4). wp_step. eapply wp_mono; [by apply (wp_complete_requests n)|..].
  - intros m w' (V5 & S5). apply wp_ret. split; [done|].
    eapply io_served_trans; [exact S|]. by eapply io_served_trans.
  - intros x w' (V5 & S5). split; [done|].
    eapply io_served_trans; [exact S|]. by eapply io_served_trans.
Qed.

(** ** Submission, and any number of polls *)

(** [submit_io_read] or [submit_io_write], as the awaiter is. *)
Definition op_submit (a : IoOpAwaiter) (p : ptr) : M (Engine U) unit :=
  match op_kind_ a with
  | IoRead => Engine_submit_io_read p
  | IoWrite => Engine_submit_io_write p
  end.

Fixpoint polls (ns : list nat) : M (engine_world U) unit :=
  match ns with
  | [] => ret tt
  | n :: ns' => let! _ := poll_io n in polls ns'
  end.

Lemma op_submit_wf w p a : io_wf w → io_ops w !! p = Some a → p ≠ null →
  p ∉ in_flight (engine_ w) → inflight_io_ (engine_ w) + 1 < 2 ^ 64 →
  ∃ e', op_submit a p (engine_ w) = Ok tt e' ∧ io_wf (MkEngineWorld e' (io_ops w)) ∧
    p ∈ in_flight e' ∧ task_queue_ e' = task_queue_ (engine_ w) ∧
    pending_submit_count_ e' = pending_submit_count_ (engine_ w) ∧ uring_ e' = uring_ (engine_ w).
Proof.
  intros [[W1 W2 W3 W4 W5] Hnd Hk Hr] Ha Hp Hno Hlt. destruct w as [e ops]. cbn [engine_ io_ops] in *.
  exists (set_submit_queue (op_kind_ a) (submit_queue (op_kind_ a) e ++ [p])
    (set_inflight_io (inflight_io_ e + 1) e)).
  assert (Hf : ∀ k, in_flight (set_submit_queue k (submit_queue k e ++ [p])
    (set_inflight_io (inflight_io_ e + 1) e)) ≡ₚ p :: in_flight e).
  { intros k. unfold in_flight. destruct k; cbn.
    - rewrite <- !app_assoc. cbn. by rewrite <- Permutation_middle.
    - rewrite <- !app_assoc. cbn. by rewrite <- !Permutation_middle. }
  split_and!; [| | |by destruct (op_kind_ a)..].
  - unfold op_submit, Engine_submit_io_read, Engine_submit_io_write, on_io_inflight_begin.
    assert (is_null p = false) as -> by by apply N.eqb_neq.
    destruct (op_kind_ a); unfold bind, modify; cbn -[u64]; by rewrite u64_small by lia.
  - specialize (Hf (op_kind_ a)). set (e' := set_submit_queue _ _ _) in *.
    assert (Hu : uring_ e' = uring_ e) by (unfold e'; by destruct (op_kind_ a)).
    assert (Hi : inflight_io_ e' = inflight_io_ e + 1) by (unfold e'; by destruct (op_kind_ a)).
    assert (Hw : io_waiting_queue_ e' = io_waiting_queue_ e) by (unfold e'; by destruct (op_kind_ a)).
    assert (Hpe : pending_submit_count_ e' = pending_submit_count_ e) by (unfold e'; by destruct (op_kind_ a)).
    assert (Hq : ∀ k, submit_queue k e' =
      submit_queue k e ++ (if decide (k = op_kind_ a) then [p] else [])).
    { intros k. unfold e'. destruct k, (op_kind_ a); cbn; by rewrite ?app_nil_r. }
    split; cbn [engine_ io_ops].
    + split; cbn [engine_ io_ops]; rewrite ?Hu, ?Hi, ?Hw, ?Hpe, ?Hf; cbn [length]; try done; [lia|].
      by constructor; [eexists|].
    + rewrite Hf. by constructor.
    + intros k q. rewrite Hq, elem_of_app. intros [Hin|Hin]; [by apply Hk|].
      destruct (decide (k = op_kind_ a)) as [->|]; [|by apply not_elem_of_nil in Hin].
      apply list_elem_of_singleton in Hin as ->. by exists a.
    + by rewrite Hu.
  - rewrite Hf. by left.
Qed.

Lemma wp_polls ns w : io_wf w → Forall (λ n, poll_room n w) ns →
  wp (polls ns) w (λ _ w', io_wf w' ∧ io_served w w') (λ _ w', io_wf w' ∧ io_served w w').
Proof.
  revert w. induction ns as [|n ns IH]; intros w Hw Hr.
  { apply wp_ret. split; [done|apply io_served_refl]. }
  apply Forall_cons in Hr as [Hn Hr]. cbn [polls]. wp_step.
  eapply wp_mono; [exact (wp_and _ _ _ _ _ _ (wp_poll_io n w (iw_engine _ Hw) Hn)
    (wp_poll_requests n w Hw Hn))| |by intros x w' [_ ?]].
  intros r w1 ([_ P2 _ _ _ _ P7 _] & V1 & S1).
  eapply wp_mono; [apply (IH w1 V1)|..].
  - eapply Forall_impl; [exact Hr|]. intros k (K1 & K2 & K3).
    pose proof (sw_entries _ _ P2). unfold poll_room. lia.
  - intros [] w' (I1 & I2). split; [done|]. by eapply io_served_trans.
  - intros x w' (I1 & I2). split; [done|]. by eapply io_served_trans.
Qed.
End io_requests.

(** ** Properties *)

(** C7. Round trip. An awaiter [a] at [p] is submitted and the engine
    polled any number of times, whatever else is in flight, returning or
    throwing: either the operation is in flight still and its awaiter as it
    was, or its coroutine has been put into the task queue and the result in
    its awaiter, which [await_resume] returns, is an answer of the kernel to
    the request for this file descriptor, buffer and offset and this length
    modulo 2^32. *)
Theorem io_roundtrip {U} `{!Liburing U, !LiburingLaws U, !LiburingRequests U}
    (ns : list nat) (w : engine_world U) p a :
  io_wf w → Forall (λ n, poll_room n w) ns → io_ops w !! p = Some a → p ≠ null →
  p ∉ in_flight (engine_ w) → inflight_io_ (engine_ w) + 1 < 2 ^ 64 →
  let outcome (w2 : engine_world U) :=
    io_wf w2 ∧ ∃ l a', task_queue_ (engine_ w2) = task_queue_ (engine_ w) ++ l ∧
      io_ops w2 !! p = Some a' ∧
      (p ∈ in_flight (engine_ w2) ∧ a' = a ∨
       p ∉ in_flight (engine_ w2) ∧ handle_ a ∈ l ∧ handle_ a' = handle_ a ∧
       answers (MkRequest (op_kind_ a) (fd_ a) (buf_ a) (len_ a `mod` 2 ^ 32) (offset_ a))
         (result_ a')) in
  wp (zoom (op_submit a p);;; polls ns) w (λ _ w2, outcome w2) (λ _ w2, outcome w2).
Proof.
  intros Hw Hr Ha Hp Hno Hlt outcome.
  destruct (op_submit_wf w p a Hw Ha Hp Hno Hlt) as (e' & He & Hw' & Hin & Ht & Hpe & Hu).
  wp_step. apply wp_zoom. apply (wp_of_ok _ _ _ _ _ _ He). cbn [lset engine_world_engine].
  assert (Hr' : Forall (λ n, poll_room n (MkEngineWorld e' (io_ops w))) ns).
  { eapply Forall_impl; [exact Hr|]. intros n. unfold poll_room. cbn. by rewrite Hpe, Hu. }
  assert (Hdone : ∀ w2, io_wf w2 ∧ io_served (MkEngineWorld e' (io_ops w)) w2 → outcome w2).
  { intros w2 [W (l & L1 & L2 & L3 & L4)]. cbn [engine_ io_ops] in *. split; [done|].
    exists l. destruct (decide (p ∈ in_flight (engine_ w2))) as [Hp2|Hp2].
    - exists a. destruct (L2 p Hp2) as [_ E]. split_and!; [by rewrite L1, Ht|by rewrite E|by left].
    - destruct (L3 p a Hin Hp2 Ha) as [Hh (res & Hres & E)]. exists (set_result res a).
      split_and!; [by rewrite L1, Ht|done|]. by right. }
  eapply wp_mono; [by apply wp_polls|..].
  - intros ? w2. apply Hdone.
  - intros ? w2. apply Hdone.
Qed.

Definition demo_read : IoOpAwaiter := MkIoOp IoRead 3 (2 ^ 32 + 5) 0 0 13%N 200%N.

(** A read at address 100 beside a request that is in the ring already. *)
Definition demo_io : engine_world sim_ring :=
  MkEngineWorld
    (MkEngine [10%N] [] [] [] (MkSimRing 256 [] [(101, MkRequest IoWrite 4 300%N 7 0)]) 0 0 1)
    {[100%N := demo_read;
      101%N := MkIoOp IoWrite 4 7 0 0 14%N 300%N]}.

Lemma demo_io_wf : io_wf demo_io.
Proof.
  split.
  - split; cbn; try lia; [|by repeat constructor]. repeat constructor. by eexists.
  - cbn. repeat constructor. apply not_elem_of_nil.
  - intros [] p Hp; by apply not_elem_of_nil in Hp.
  - intros p Hp. cbn in Hp. apply list_elem_of_singleton in Hp.
    assert (p = 101%N) as -> by lia. eexists. split; [reflexivity|]. reflexivity.
Qed.

Lemma io_roundtrip_witness : ∃ w2,
  (zoom (op_submit demo_read 100%N);;; polls [64; 64]%nat) demo_io =
    Ok tt w2 ∧ task_queue_ (engine_ w2) = [10%N; 14%N; 13%N] ∧
  result_ <$> io_ops w2 !! 100%N = Some 5 ∧ io_wf w2.
Proof.
  pose proof (io_roundtrip [64; 64]%nat demo_io 100%N demo_read demo_io_wf) as H. cbv zeta in H.
  assert (Hr : Forall (λ n, poll_room n demo_io) [64; 64]%nat).
  { repeat constructor; cbn; lia. }
  assert (Hno : 100%N ∉ in_flight (engine_ demo_io)).
  { change (in_flight (engine_ demo_io)) with [101%N]. by intros ?%list_elem_of_singleton. }
  specialize (H Hr eq_refl ltac:(done) Hno ltac:(done)).
  unfold wp in H. revert H.
  destruct ((zoom (op_submit _ _);;; _) demo_io) as [[] w2| | | |] eqn:E;
    [|vm_compute in E; discriminate E..].
  vm_compute in E. injection E as <-. intros [W _]. eexists. split; [reflexivity|]. split; [reflexivity|].
  split; [reflexivity|exact W].
Defined.
