(* ===== verification/Context.v ===== *)
(** * Context (src/include/runtime/context.h, src/src/runtime/context.cpp)

    A worker thread with its engine: submission, the run loop, and the
    awaiters that use the current context (src/include/runtime/io_awaiter.h,
    YieldAwaiter and submit_to_scheduler of src/include/runtime/scheduler.h). *)

From S2P Require Import Prelude Runtime Uring Engine.

Open Scope Z_scope.

Definition kProcessBatchSize : nat := 64.
Definition kIoPollBatchSize : nat := 64.

(** [ctx_stop_] is the state of the [std::jthread]'s stop token. *)
Record ContextObj (U : Type) := MkContext {
  ctx_id_ : Z;
  ctx_engine_ : Engine U;
  ctx_stop_ : bool;
  work_batch_ : list handle;
}.
Arguments MkContext {U}.
Arguments ctx_id_ {U} _.
Arguments ctx_engine_ {U} _.
Arguments ctx_stop_ {U} _.
Arguments work_batch_ {U} _.

(** The runtime's shared state as a thread sees it: the contexts, the IO
    operations in coroutine frames, the scheduler's counter of pending tasks,
    and the thread's [local_context_ptr]. *)
Record rt_world (U : Type) := MkRt {
  rt_contexts : gmap ptr (ContextObj U);
  rt_ops : gmap ptr IoOpAwaiter;
  pending_tasks_ : Z;
  local_context_ptr : ptr;
}.
Arguments MkRt {U}.
Arguments rt_contexts {U} _.
Arguments rt_ops {U} _.
Arguments pending_tasks_ {U} _.
Arguments local_context_ptr {U} _.

(** What the language provides on coroutine handles; see [Task] for coroutines
    that await tasks. *)
Class Coroutines (W : Type) := {
  co_resume : handle → M W unit;
  co_done : handle → M W bool;
  co_destroy : handle → M W unit;
}.

Section context.
Context {U : Type} `{!Liburing U}.
Implicit Types (w : rt_world U) (x : ContextObj U).

Definition set_contexts (m : gmap ptr (ContextObj U)) w : rt_world U :=
  MkRt m (rt_ops w) (pending_tasks_ w) (local_context_ptr w).
Definition set_pending_tasks (n : Z) w : rt_world U :=
  MkRt (rt_contexts w) (rt_ops w) n (local_context_ptr w).
Definition set_local_context (c : ptr) w : rt_world U :=
  MkRt (rt_contexts w) (rt_ops w) (pending_tasks_ w) c.
Definition set_engine (e : Engine U) x : ContextObj U :=
  MkContext (ctx_id_ x) e (ctx_stop_ x) (work_batch_ x).
Definition set_stop (b : bool) x : ContextObj U :=
  MkContext (ctx_id_ x) (ctx_engine_ x) b (work_batch_ x).
Definition set_batch (l : list handle) x : ContextObj U :=
  MkContext (ctx_id_ x) (ctx_engine_ x) (ctx_stop_ x) l.

Definition context_at (c : ptr) : M (rt_world U) (ContextObj U) :=
  let! w := get in deref (rt_contexts w !! c).
Definition context_store (c : ptr) x : M (rt_world U) unit :=
  modify (λ w, set_contexts (<[c := x]> (rt_contexts w)) w).

Definition rt_update (c : ptr) x w (ew : engine_world U) : rt_world U :=
  MkRt (<[c := set_engine (engine_ ew) x]> (rt_contexts w)) (io_ops ew) (pending_tasks_ w)
    (local_context_ptr w).

(** A member function of [engine_] of the context [c]. *)
Definition in_engine {A} (c : ptr) (m : M (engine_world U) A) : M (rt_world U) A := λ w,
  match rt_contexts w !! c with
  | None => UB
  | Some x =>
      match m (MkEngineWorld (ctx_engine_ x) (rt_ops w)) with
      | Ok a ew => Ok a (rt_update c x w ew)
      | Throw e ew => Throw e (rt_update c x w ew)
      | UB => UB
      | Terminate => Terminate
      | NoFuel => NoFuel
      end
  end.

(** ** Construction, submission and stopping *)

Definition Context_make (id : Z) (u : U) : ContextObj U :=
  MkContext id (Engine_make u) false [].

(** [worker_.request_stop(); engine_.notify_all();] *)
Definition Context_notify_stop (c : ptr) : M (rt_world U) unit :=
  let! x := context_at c in context_store c (set_stop true x).

Definition Context_submit_task (c : ptr) (h : handle) : M (rt_world U) unit :=
  in_engine c (zoom (Engine_submit_task h)).
Definition Context_submit_io_waiting (c : ptr) (h : handle) : M (rt_world U) unit :=
  in_engine c (zoom (Engine_submit_io_waiting h)).
Definition Context_submit_io_read (c : ptr) (awaiter : ptr) : M (rt_world U) unit :=
  in_engine c (zoom (Engine_submit_io_read awaiter)).
Definition Context_submit_io_write (c : ptr) (awaiter : ptr) : M (rt_world U) unit :=
  in_engine c (zoom (Engine_submit_io_write awaiter)).

(** [Context::id] *)
Definition Context_id (c : ptr) : M (rt_world U) Z := let! x := context_at c in ret (ctx_id_ x).

Definition Context_submit_tracked_task (c : ptr) (h : handle) : M (rt_world U) unit :=
  if is_null h then ret tt
  else
    modify (λ w, set_pending_tasks (u64 (pending_tasks_ w + 1)) w);;;
    Context_submit_task c h.

(** [Scheduler::on_task_completed], the callback; reaching 0 notifies the
    thread in [loop]. *)
Definition on_task_completed : M (rt_world U) unit :=
  modify (λ w, set_pending_tasks (u64 (pending_tasks_ w - 1)) w).

(** ** Awaiters that use the current context *)

Definition YieldAwaiter_await_ready : bool := false.

(** The result of [await_suspend]; [missing_context_] is its negation. *)
Definition YieldAwaiter_await_suspend (h : handle) : M (rt_world U) bool :=
  let! w := get in
  let ctx := local_context_ptr w in
  if is_null ctx then ret false
  else Context_submit_task ctx h;;; ret true.

Definition YieldAwaiter_await_resume (missing_context_ : bool) : M (rt_world U) unit :=
  if missing_context_ then
    throw (logic_error "runtime::yield() requires runtime context")
  else ret tt.

Definition IoSuspendOnceAwaiter_await_ready : bool := false.
Definition IoSuspendOnceAwaiter_await_suspend (h : handle) : M (rt_world U) bool :=
  let! w := get in
  let ctx := local_context_ptr w in
  if is_null ctx then ret false
  else Context_submit_io_waiting ctx h;;; ret true.

Definition rt_op_at (p : ptr) : M (rt_world U) IoOpAwaiter :=
  let! w := get in deref (rt_ops w !! p).
Definition rt_op_store (p : ptr) (a : IoOpAwaiter) : M (rt_world U) unit :=
  modify (λ w, MkRt (rt_contexts w) (<[p := a]> (rt_ops w)) (pending_tasks_ w)
                 (local_context_ptr w)).

(** The awaiter at [p], suspending the coroutine [h]. *)
Definition IoReadAwaiter_await_suspend (p : ptr) (h : handle) : M (rt_world U) bool :=
  let! a := rt_op_at p in
  rt_op_store p (set_handle h a);;;
  let! w := get in
  let ctx := local_context_ptr w in
  if is_null ctx then
    let! a := rt_op_at p in
    rt_op_store p (set_result (-1) a);;; ret false
  else Context_submit_io_read ctx p;;; ret true.

Definition IoWriteAwaiter_await_suspend (p : ptr) (h : handle) : M (rt_world U) bool :=
  let! a := rt_op_at p in
  rt_op_store p (set_handle h a);;;
  let! w := get in
  let ctx := local_context_ptr w in
  if is_null ctx then
    let! a := rt_op_at p in
    rt_op_store p (set_result (-1) a);;; ret false
  else Context_submit_io_write ctx p;;; ret true.

(** Awaiting either, by its class. *)
Definition IoOpAwaiter_await_suspend (p : ptr) (h : handle) : M (rt_world U) bool :=
  let! a := rt_op_at p in
  match op_kind_ a with
  | IoRead => IoReadAwaiter_await_suspend p h
  | IoWrite => IoWriteAwaiter_await_suspend p h
  end.

Definition IoOpAwaiter_await_resume (p : ptr) : M (rt_world U) Z :=
  let! a := rt_op_at p in ret (result_ a).

(** ** The worker *)

Section worker.
Context {W : Type} `{!Lens W (rt_world U)} `{!Coroutines W}.

(** [submit_to_scheduler(Task<void> &&)], on the handle the task gave up; a
    null handle is destroyed all the same. *)
Definition submit_to_scheduler_task (h : handle) : M W unit :=
  let! w := zoom get in
  let ctx := local_context_ptr w in
  if negb (is_null ctx) then zoom (Context_submit_tracked_task ctx h)
  else
    co_destroy h;;;
    throw (logic_error "runtime::submit_to_scheduler() requires runtime context").

(** [submit_to_scheduler(std::coroutine_handle<>)] *)
Definition submit_to_scheduler (h : handle) : M W unit :=
  if is_null h then ret tt else submit_to_scheduler_task h.

(** One turn of the loop in [process_work_once]. *)
Definition process_handle (c : ptr) (h : handle) : M W unit :=
  zoom (in_engine c (zoom on_task_resume_begin));;;
  co_resume h;;;
  zoom (in_engine c (zoom on_task_resume_end));;;
  let! d := co_done h in
  if d : bool then co_destroy h;;; zoom on_task_completed else ret tt.

Definition process_work_once (c : ptr) : M W bool :=
  let! x := zoom (context_at c) in
  let! p := zoom (in_engine c (zoom (pop_batch (work_batch_ x) kProcessBatchSize))) in
  let '(popped, batch) := p : nat * list handle in
  let! x := zoom (context_at c) in
  zoom (context_store c (set_batch batch x));;;
  if Nat.eqb popped 0 then ret false
  else for_each batch (process_handle c);;; ret true.

(** The same, cut where the other threads' effects can fall: the batch is
    taken; a coroutine of it is resumed; [resume()] has come back. *)
Definition work_pop (c : ptr) : M W (nat * list handle) :=
  let! x := zoom (context_at c) in
  let! p := zoom (in_engine c (zoom (pop_batch (work_batch_ x) kProcessBatchSize))) in
  let! x := zoom (context_at c) in
  zoom (context_store c (set_batch (snd p) x));;; ret p.

Definition turn_resume (c : ptr) (h : handle) : M W unit :=
  zoom (in_engine c (zoom on_task_resume_begin));;; co_resume h.

Definition turn_finish (c : ptr) (h : handle) : M W unit :=
  zoom (in_engine c (zoom on_task_resume_end));;;
  let! d := co_done h in
  if d : bool then co_destroy h;;; zoom on_task_completed else ret tt.

Lemma process_handle_parts c h s :
  process_handle c h s = (turn_resume c h;;; turn_finish c h) s.
Proof. unfold turn_resume. by rewrite bind_assoc. Qed.

Lemma process_work_once_parts c s : process_work_once c s =
  (let! p := work_pop c in
   if Nat.eqb (fst p) 0 then ret false
   else for_each (snd p) (λ h, turn_resume c h;;; turn_finish c h);;; ret true) s.
Proof.
  unfold work_pop, process_work_once. rewrite bind_assoc. apply bind_ext. intros x s1.
  rewrite bind_assoc. apply bind_ext. intros [n batch] s2. rewrite bind_assoc.
  apply bind_ext. intros y s3. rewrite bind_assoc. apply bind_ext. intros [] s4.
  unfold bind at 2. cbn [ret fst snd]. destruct (Nat.eqb n 0); [done|].
  unfold bind. by rewrite (for_each_ext _ _ _ s4 (process_handle_parts c)).
Qed.

Definition poll_io_once (c : ptr) : M W bool :=
  let! n := zoom (in_engine c (poll_io kIoPollBatchSize)) in ret (n >? 0).

(** What [run] does after one iteration of its loop. *)
Inductive run_next :=
| RunAgain       (** [continue] *)
| RunBreak
| RunIdle.       (** blocks in [wait_or_idle], then continues *)

(** An exception leaving the thread function terminates the process. *)
Definition run_iteration (c : ptr) : M W run_next :=
  noexcept (
    let! worked := process_work_once c in
    if worked : bool then ret RunAgain
    else
      let! polled := poll_io_once c in
      if polled : bool then ret RunAgain
      else
        let! x := zoom (context_at c) in
        let! stop := zoom (in_engine c (zoom (can_stop (ctx_stop_ x)))) in
        if stop : bool then ret RunBreak else ret RunIdle).

(** The start and the end of [run]. *)
Definition run_begin (c : ptr) : M W unit := zoom (modify (set_local_context c)).
Definition run_end : M W unit := zoom (modify (set_local_context null)).

(** The loop of [run], at most [n] iterations of it; a wait in [wait_or_idle]
    is over when its predicate holds, and the loop goes on. *)
Fixpoint run_loop (n : nat) (c : ptr) : M W unit :=
  match n with
  | O => nofuel
  | S n' =>
      let! next := run_iteration c in
      match next with RunBreak => ret tt | RunAgain | RunIdle => run_loop n' c end
  end.

Definition run (n : nat) (c : ptr) : M W unit :=
  run_begin c;;; run_loop n c;;; run_end.
End worker.
End context.

(** ** The runtime offers its current context to the primitives *)

Section runtime_instance.
Context {U : Type} `{!Liburing U} {A : Type} (resume : handle → M (rt_world U * A) unit).

(** The index of the current context is its address. *)
Definition rt_local (s : rt_world U * A) : option nat :=
  let c := local_context_ptr (fst s) in
  if is_null c then None else Some (N.to_nat c).

Definition rt_submit (i : nat) (h : handle) (s : rt_world U * A) : rt_world U * A :=
  match Context_submit_task (N.of_nat i) h (fst s) with
  | Ok _ w => (w, snd s)
  | _ => s
  end.

Definition rt_runtime : Runtime (rt_world U * A) := {|
  try_local_context := rt_local;
  context_submit_task := rt_submit;
  coro_resume := resume;
|}.

(** It keeps the promise the primitives rely on. *)
#[local] Existing Instance rt_runtime.
Lemma rt_frame : RuntimeFrame (rt_world U * A) A.
Proof.
  split.
  - intros a [w b]. done.
  - intros i h [w b]. cbn. unfold rt_local, rt_submit, Context_submit_task, in_engine. cbn.
    by destruct (rt_contexts w !! N.of_nat i).
  - intros i h [w b]. cbn. unfold rt_submit, Context_submit_task, in_engine. cbn.
    by destruct (rt_contexts w !! N.of_nat i).
Qed.
End runtime_instance.
