(* ===== verification/ContextProps.v ===== *)
(** * Properties of the worker loop and of the awaiters that use a context *)

From S2P Require Import Prelude Runtime Uring Engine EngineProps Context.

Open Scope Z_scope.

Section context_props.
Context {U : Type} `{!Liburing U}.
Implicit Types (w : rt_world U).

Lemma in_engine_ok {A} c (m : M (engine_world U) A) w x a ew :
  rt_contexts w !! c = Some x → m (MkEngineWorld (ctx_engine_ x) (rt_ops w)) = Ok a ew →
  in_engine c m w = Ok a (rt_update c x w ew).
Proof. intros Hx Hm. unfold in_engine. by rewrite Hx, Hm. Qed.

Lemma rt_update_same c x w : rt_contexts w !! c = Some x →
  rt_update c x w (MkEngineWorld (ctx_engine_ x) (rt_ops w)) = w.
Proof.
  intros Hx. unfold rt_update, set_engine. cbn.
  assert (MkContext (ctx_id_ x) (ctx_engine_ x) (ctx_stop_ x) (work_batch_ x) = x) as ->
    by by destruct x.
  rewrite insert_id by done. by destruct w.
Qed.

Lemma in_engine_can_stop c w x : rt_contexts w !! c = Some x →
  in_engine c (zoom (can_stop (ctx_stop_ x))) w =
    Ok (ctx_stop_ x && queues_empty (ctx_engine_ x) && (inflight_tasks_ (ctx_engine_ x) =? 0) &&
        (inflight_io_ (ctx_engine_ x) =? 0)) w.
Proof.
  intros Hx. rewrite <- (rt_update_same c x w Hx) at 2. apply in_engine_ok; [done|].
  unfold zoom. cbn [lget engine_world_engine engine_]. by rewrite can_stop_eq.
Qed.

(** The engine world of a context. *)
Definition engine_of w x : engine_world U := MkEngineWorld (ctx_engine_ x) (rt_ops w).

Section iteration.
Context {W : Type} `{!Lens W (rt_world U)} `{!Coroutines W}.
Implicit Types (s : W).

(** The answers of [can_stop] decide between leaving and waiting. *)
Lemma run_iteration_end c n s s' : run_iteration c s = Ok n s' → n ≠ RunAgain →
  ∃ x, rt_contexts (lget s') !! c = Some x ∧
    (n = RunBreak ↔ ctx_stop_ x && queues_empty (ctx_engine_ x) &&
       (inflight_tasks_ (ctx_engine_ x) =? 0) && (inflight_io_ (ctx_engine_ x) =? 0) = true).
Proof.
  unfold run_iteration, noexcept, bind at 1. intros Hrun Hn.
  destruct (process_work_once c s) as [[] s1|e s1| | |]; try done.
  { by injection Hrun as <- <-. }
  unfold bind at 1 in Hrun.
  destruct (poll_io_once c s1) as [[] s2|e s2| | |]; try done.
  { by injection Hrun as <- <-. }
  unfold bind at 1, zoom at 1, context_at, bind at 1, get in Hrun.
  destruct (rt_contexts (lget s2) !! c) as [x|] eqn:Hx; [|done]. cbn in Hrun.
  rewrite lset_lget in Hrun. unfold bind, zoom at 1 in Hrun.
  rewrite (in_engine_can_stop _ _ _ Hx), lset_lget in Hrun.
  exists x. destruct (_ && _) eqn:E; cbn in Hrun; injection Hrun as <- <-; by split.
Qed.
End iteration.

(** ** Awaiters *)

(** The thread runs in the context [c] / in no context. *)
Definition running_in c x w : Prop :=
  local_context_ptr w = c ∧ c ≠ null ∧ rt_contexts w !! c = Some x.

Definition with_engine (c : ptr) (x : ContextObj U) (e : Engine U) w : rt_world U :=
  set_contexts (<[c := set_engine e x]> (rt_contexts w)) w.

Lemma yield_in_context c x w h : running_in c x w →
  YieldAwaiter_await_suspend h w =
    Ok true (with_engine c x (set_tasks (task_queue_ (ctx_engine_ x) ++ [h]) (ctx_engine_ x)) w).
Proof.
  intros (Hl & Hn & Hx). unfold YieldAwaiter_await_suspend, bind at 1, get. rewrite Hl.
  assert (is_null c = false) as -> by by apply N.eqb_neq.
  unfold bind, Context_submit_task. by erewrite in_engine_ok; [|exact Hx|reflexivity].
Qed.

Lemma io_once_in_context c x w h : running_in c x w →
  IoSuspendOnceAwaiter_await_suspend h w =
    Ok true (with_engine c x (set_waiting (io_waiting_queue_ (ctx_engine_ x) ++ [h])
      (set_inflight_io (u64 (inflight_io_ (ctx_engine_ x) + 1)) (ctx_engine_ x))) w).
Proof.
  intros (Hl & Hn & Hx). unfold IoSuspendOnceAwaiter_await_suspend, bind at 1, get. rewrite Hl.
  assert (is_null c = false) as -> by by apply N.eqb_neq.
  unfold bind, Context_submit_io_waiting. by erewrite in_engine_ok; [|exact Hx|reflexivity].
Qed.

(** The engine after a read or write was queued. *)
Definition io_queued (a : IoOpAwaiter) (p : ptr) (e : Engine U) : Engine U :=
  set_submit_queue (op_kind_ a) (submit_queue (op_kind_ a) e ++ [p])
    (set_inflight_io (u64 (inflight_io_ e + 1)) e).

Lemma rt_op_at_eq w p a : rt_ops w !! p = Some a → rt_op_at p w = Ok a w.
Proof. intros Ha. unfold rt_op_at, bind, get. by rewrite Ha. Qed.

Lemma io_op_in_context c x w p a h : running_in c x w → p ≠ null → rt_ops w !! p = Some a →
  IoOpAwaiter_await_suspend p h w =
    Ok true (MkRt (<[c := set_engine (io_queued a p (ctx_engine_ x)) x]> (rt_contexts w))
      (<[p := set_handle h a]> (rt_ops w)) (pending_tasks_ w) (local_context_ptr w)).
Proof.
  intros (Hl & Hn & Hx) Hp Ha.
  assert (Hc : is_null (local_context_ptr w) = false) by by rewrite Hl; apply N.eqb_neq.
  assert (Hpn : is_null p = false) by by apply N.eqb_neq.
  unfold IoOpAwaiter_await_suspend, io_queued. rewrite (bind_ok _ _ _ _ _ (rt_op_at_eq w p a Ha)).
  destruct (op_kind_ a);
    unfold IoReadAwaiter_await_suspend, IoWriteAwaiter_await_suspend, rt_op_at, bind, get;
    rewrite Ha; cbn -[u64]; rewrite Hc;
    unfold Context_submit_io_read, Context_submit_io_write, in_engine; cbn -[u64]; rewrite Hl, Hx;
    unfold zoom, Engine_submit_io_read, Engine_submit_io_write; cbn -[u64]; by rewrite Hpn.
Qed.

Lemma io_op_no_context w p a h : local_context_ptr w = null → rt_ops w !! p = Some a →
  IoOpAwaiter_await_suspend p h w =
    Ok false (MkRt (rt_contexts w) (<[p := set_result (-1) (set_handle h a)]> (rt_ops w))
      (pending_tasks_ w) (local_context_ptr w)).
Proof.
  intros Hl Ha. unfold IoOpAwaiter_await_suspend. rewrite (bind_ok _ _ _ _ _ (rt_op_at_eq w p a Ha)).
  destruct (op_kind_ a);
    unfold IoReadAwaiter_await_suspend, IoWriteAwaiter_await_suspend, rt_op_at, rt_op_store, bind,
      get, modify;
    rewrite Ha; cbn; rewrite Hl; cbn; rewrite lookup_insert_eq; cbn; by rewrite insert_insert_eq.
Qed.
End context_props.

(** ** A concrete thread: context 1, a read operation at 100 *)

Definition demo_rt (ctx : ptr) (stop : bool) : rt_world sim_ring :=
  MkRt {[1%N := MkContext 0 (Engine_make (MkSimRing 256 [] [])) stop []]}
    {[100%N := IoOpAwaiter_make IoRead 3 200%N 512 0]} 0 ctx.

#[local] Instance demo_no_coroutines : Coroutines (rt_world sim_ring) := {|
  co_resume := λ _, undefined;
  co_done := λ _, undefined;
  co_destroy := λ _, ret tt;
|}.

(** ** Properties *)

(** The worker leaves [run] only when its stop token is set and its
    engine holds no coroutine, ready or waiting, and resumes none; it goes to
    wait only when it may not leave. *)
Theorem worker_leaves_only_idle {U} `{!Liburing U, !LiburingLaws U} {W}
    `{!Lens W (rt_world U)} `{!Coroutines W} c (s s' : W) n :
  run_iteration c s = Ok n s' → n ≠ RunAgain →
  ∃ x, rt_contexts (lget s') !! c = Some x ∧
    (engine_wf (engine_of (lget s') x) →
     (n = RunBreak ↔ ctx_stop_ x = true ∧ engine_handles (engine_of (lget s') x) = [] ∧
        inflight_tasks_ (ctx_engine_ x) = 0)).
Proof.
  intros Hrun Hn. destruct (run_iteration_end c n s s' Hrun Hn) as (x & Hx & Hiff).
  exists x. split; [done|]. intros Hw. rewrite Hiff, (engine_idle _ Hw). unfold queues_empty.
  rewrite !andb_true_iff, !queue_empty_spec, !Z.eqb_eq. cbn. tauto.
Qed.

Lemma worker_leaves_only_idle_witness :
  run_iteration 1%N (demo_rt 1%N true) = Ok RunBreak (demo_rt 1%N true) ∧
  ∃ x, rt_contexts (demo_rt 1%N true) !! 1%N = Some x ∧
    (engine_wf (engine_of (demo_rt 1%N true) x) →
     (RunBreak = RunBreak ↔ ctx_stop_ x = true ∧
        engine_handles (engine_of (demo_rt 1%N true) x) = [] ∧
        inflight_tasks_ (ctx_engine_ x) = 0)).
Proof.
  assert (H : run_iteration 1%N (demo_rt 1%N true) = Ok RunBreak (demo_rt 1%N true))
    by (vm_compute; reflexivity).
  split; [exact H|].
  exact (worker_leaves_only_idle 1%N (demo_rt 1%N true) (demo_rt 1%N true) RunBreak H
    ltac:(discriminate)).
Defined.

(** The awaiters that use the current context.  In a context: [yield]
    puts the coroutine at the end of the task queue, [io_suspend_once] at the
    end of the waiting queue, a read or write records the coroutine and goes to
    the end of its submission queue, each IO operation is counted in
    [inflight_io_], and all suspend.  Outside: none suspends; [yield] then
    throws, and a read or write returns -1. *)
Theorem context_awaiters {U} `{!Liburing U} (w : rt_world U) c x p a h :
  p ≠ null → rt_ops w !! p = Some a →
  (running_in c x w →
   let e := ctx_engine_ x in
   YieldAwaiter_await_suspend h w =
     Ok true (with_engine c x (set_tasks (task_queue_ e ++ [h]) e) w) ∧
   IoSuspendOnceAwaiter_await_suspend h w =
     Ok true (with_engine c x (set_waiting (io_waiting_queue_ e ++ [h])
       (set_inflight_io (u64 (inflight_io_ e + 1)) e)) w) ∧
   IoOpAwaiter_await_suspend p h w =
     Ok true (MkRt (<[c := set_engine (io_queued a p e) x]> (rt_contexts w))
       (<[p := set_handle h a]> (rt_ops w)) (pending_tasks_ w) (local_context_ptr w))) ∧
  (local_context_ptr w = null →
   YieldAwaiter_await_suspend h w = Ok false w ∧
   YieldAwaiter_await_resume true w =
     Throw (logic_error "runtime::yield() requires runtime context") w ∧
   IoSuspendOnceAwaiter_await_suspend h w = Ok false w ∧
   ∃ w', IoOpAwaiter_await_suspend p h w = Ok false w' ∧
     IoOpAwaiter_await_resume p w' = Ok (-1) w').
Proof.
  intros Hp Ha. split.
  - intros Hc. cbn zeta. split_and!.
    + by apply yield_in_context.
    + by apply io_once_in_context.
    + by apply io_op_in_context.
  - intros Hl.
    unfold YieldAwaiter_await_suspend, IoSuspendOnceAwaiter_await_suspend, bind, get.
    rewrite Hl. split_and!; [done..|]. eexists. split; [by apply io_op_no_context|].
    unfold IoOpAwaiter_await_resume, rt_op_at, bind, get. cbn. by rewrite lookup_insert_eq.
Qed.

Lemma context_awaiters_witness :
  ∃ w', IoOpAwaiter_await_suspend 100%N 10%N (demo_rt null false) = Ok false w' ∧
    IoOpAwaiter_await_resume 100%N w' = Ok (-1) w'.
Proof.
  exact (proj2 (proj2 (proj2 (proj2 (context_awaiters (demo_rt null false) 1%N
    (MkContext 0 (Engine_make (MkSimRing 256 [] [])) false []) 100%N
    (IoOpAwaiter_make IoRead 3 200%N 512 0) 10%N ltac:(discriminate) eq_refl) eq_refl)))).
Defined.
