(* ===== verification/WorkerRun.v ===== *)
(** * A worker running tasks

    [Context::process_work_once] on coroutines of [Task]: every task that
    suspends through [co_await yield()] in its own body is driven to its end,
    destroyed and counted.  A task that suspends inside a coroutine it awaits
    is not: the handle in the queue is then the inner coroutine's. *)

From S2P Require Import Prelude Runtime Uring Engine EngineProps Task TaskRun Context ContextProps.

Open Scope Z_scope.

Section worker_run.
Context {U : Type} `{!Liburing U} {V : Type} (moved_from : V → V) (fuel : nat).

Abbreviation sys_world := (rt_world U * task_world V)%type.

(** [handle.resume()] on a worker: every suspension of a body is
    [co_await yield()], which puts the suspended coroutine on the queue of the
    current context. *)
Definition task_resume (h : handle) : M sys_world unit :=
  let! n := zoom (handle_resume moved_from fuel h) in
  match n with
  | NSuspended h' =>
      let! suspended := zoom (YieldAwaiter_await_suspend h' : M (rt_world U) bool) in
      if suspended : bool then ret tt else undefined
  | _ => ret tt
  end.

Definition task_coroutines : Coroutines sys_world := {|
  co_resume := task_resume;
  co_done := λ h, zoom (handle_done h : M (task_world V) bool);
  co_destroy := λ h, zoom (handle_destroy h : M (task_world V) unit);
|}.

#[local] Existing Instance task_coroutines.
Definition worker_process (c : ptr) (h : handle) : M sys_world unit := process_handle c h.
Definition worker_round (c : ptr) : M sys_world bool := process_work_once c.
Definition worker_submit (h : handle) : M sys_world unit := submit_to_scheduler h.
Definition worker_submit_task (h : handle) : M sys_world unit := submit_to_scheduler_task h.

(** At most [k] rounds, until there is no work. *)
Fixpoint worker_rounds (c : ptr) (k : nat) : M sys_world unit :=
  match k with
  | O => ret tt
  | S k' => let! b := worker_round c in if b : bool then worker_rounds c k' else ret tt
  end.
End worker_run.

Section worker_props.
Context {U : Type} `{!Liburing U} {V : Type} (moved_from : V → V).
Context (c : ptr) (Hc : c ≠ null) (contexts : gmap ptr (ContextObj U))
  (ops : gmap ptr IoOpAwaiter) (objects : gmap ptr handle).
Implicit Types (e : Engine U) (F : gmap handle (frame V)).

(** The frame of a task that is not awaited, with [b] left to run. *)
Definition root (b : body V) : frame V := MkFrame null None None (PBody b).

(** The state of a thread of context [c] with engine [e]. *)
Definition sys id e st bt (p : Z) F : rt_world U * task_world V :=
  (MkRt (<[c := MkContext id e st bt]> contexts) ops p c, MkTaskWorld F objects).

Lemma in_engine_sys {A} id e st bt p F (m : M (engine_world U) A) a e' :
  m (MkEngineWorld e ops) = Ok a (MkEngineWorld e' ops) →
  zoom (in_engine c m) (sys id e st bt p F) = Ok a (sys id e' st bt p F).
Proof.
  intros Hm. unfold zoom, in_engine, sys. cbn. rewrite lookup_insert_eq. cbn. rewrite Hm.
  unfold rt_update. cbn. by rewrite insert_insert_eq.
Qed.

(** What one turn does to a task: it is run to its end, or up to its next
    suspension. *)
Definition turn (t : handle * body V) : option (handle * body V) :=
  b ← advance (snd t); Some (fst t, b).

Definition task_ok (t : handle * body V) : Prop := fst t ≠ null ∧ flat (snd t).

Definition tasks_heap F (ts : list (handle * body V)) : gmap handle (frame V) :=
  list_to_map ((λ t, (fst t, root (snd t))) <$> ts) ∪ F.

(** The counter of running tasks is not at its limit. *)
Definition engine_ready e : Prop := 0 ≤ inflight_tasks_ e < 2 ^ 64 - 1.

Lemma yield_sys h id e st bt p F :
  zoom (YieldAwaiter_await_suspend h : M (rt_world U) bool) (sys id e st bt p F) =
    Ok true (sys id (set_tasks (task_queue_ e ++ [h]) e) st bt p F).
Proof.
  unfold zoom, YieldAwaiter_await_suspend, bind at 1, get. cbn.
  assert (is_null c = false) as -> by by apply N.eqb_neq.
  unfold Context_submit_task, in_engine, bind. cbn. rewrite lookup_insert_eq. cbn.
  unfold rt_update, sys, set_engine. cbn. by rewrite insert_insert_eq.
Qed.

(** [handle.resume()] of a task up to its next suspension or its end. *)
Lemma task_resume_sys h b id e st bt p F :
  F !! h = None → h ≠ null → flat b →
  ∃ N, ∀ fuel, (N ≤ fuel)%nat →
    task_resume moved_from fuel h (sys id e st bt p (<[h := root b]> F)) =
      Ok tt match advance b with
            | Some b' => sys id (set_tasks (task_queue_ e ++ [h]) e) st bt p (<[h := root b']> F)
            | None => sys id e st bt p (<[h := finished (eval b) (root b)]> F)
            end.
Proof.
  intros HF Hh Hb.
  pose proof (run_flat moved_from b h (set_point PRunning (root b)) F objects HF Hh
    eq_refl eq_refl eq_refl Hb) as Hrun.
  pose proof (run_resume moved_from h b (root b) F objects eq_refl) as Hres.
  assert (Hd : driven moved_from 0 (NResume h) (MkTaskWorld (<[h := root b]> F) objects)
    (if advance b is Some _ then NSuspended h else NReturned)
    (MkTaskWorld (<[h := if advance b is Some b' then root b' else finished (eval b) (root b)]> F)
       objects)).
  { rewrite <- (finished_point _ PRunning (root b)).
    destruct (advance b); exact (driven_trans _ 0 0 _ _ _ _ _ _ Hres Hrun). }
  apply driven_run in Hd as [N HN]; [|destruct (advance b); [right; by eexists|by left]].
  exists N. intros fuel Hf. unfold task_resume.
  erewrite bind_ok; [|apply zoom_ok; exact (HN fuel Hf)]. cbn [lset lens_snd].
  destruct (advance b) as [b'|]; [|done].
  by erewrite bind_ok; [|apply yield_sys].
Qed.

(** [handle.done()] and what follows it. *)
Lemma task_finish_sys h f id e st bt p F :
  F !! h = None → (point_ f = PFinal ∨ ∃ b, point_ f = PBody b) →
  (let! d := zoom (handle_done h : M (task_world V) bool) in
   if d : bool then
     zoom (handle_destroy h : M (task_world V) unit);;;
     zoom (on_task_completed : M (rt_world U) unit)
   else ret tt) (sys id e st bt p (<[h := f]> F)) =
    Ok tt (if point_ f is PFinal then sys id e st bt (u64 (p - 1)) F
           else sys id e st bt p (<[h := f]> F)).
Proof.
  intros HF Hf.
  assert (Hd : zoom (handle_done h : M (task_world V) bool) (sys id e st bt p (<[h := f]> F)) =
    Ok (if point_ f is PFinal then true else false) (sys id e st bt p (<[h := f]> F))).
  { unfold zoom, sys. cbn. unfold handle_done. rewrite (bind_ok _ _ _ _ _ (frame_at_eq _ _ _ _)).
    destruct Hf as [->|[b ->]]; done. }
  rewrite (bind_ok _ _ _ _ _ Hd). destruct Hf as [Hp|[b Hp]]; rewrite Hp; [|done].
  erewrite bind_ok; [|apply zoom_ok; exact (handle_destroy_eq _ _ _ _ HF Hp)]. done.
Qed.

Lemma process_one h b id e st bt p F :
  F !! h = None → h ≠ null → flat b → engine_ready e →
  ∃ N, ∀ fuel, (N ≤ fuel)%nat →
    worker_process moved_from fuel c h (sys id e st bt p (<[h := root b]> F)) =
      Ok tt match advance b with
            | Some b' => sys id (set_tasks (task_queue_ e ++ [h]) e) st bt p (<[h := root b']> F)
            | None => sys id e st bt (u64 (p - 1)) F
            end.
Proof.
  intros HF Hh Hb He. unfold engine_ready in He.
  set (e1 := set_inflight_tasks (u64 (inflight_tasks_ e + 1)) e).
  assert (Hend : ∀ q F', zoom (in_engine c (zoom on_task_resume_end))
    (sys id (set_tasks q e1) st bt p F') = Ok tt (sys id (set_tasks q e) st bt p F')).
  { intros q F'. apply in_engine_sys. unfold zoom, on_task_resume_end, modify. cbn -[u64].
    do 2 f_equal. unfold e1, set_tasks, set_inflight_tasks. cbn -[u64].
    rewrite (u64_small (inflight_tasks_ e + 1)) by lia. rewrite u64_small; [f_equal|]; lia. }
  assert (He1 : e1 = set_tasks (task_queue_ e) e1) by done.
  assert (He0 : set_tasks (task_queue_ e) e = e) by by destruct e.
  destruct (task_resume_sys h b id e1 st bt p F HF Hh Hb) as [N HN].
  exists N. intros fuel Hf. unfold worker_process, process_handle.
  rewrite (bind_ok _ _ _ tt (sys id e1 st bt p (<[h := root b]> F)))
    by by apply in_engine_sys.
  erewrite bind_ok; [|exact (HN fuel Hf)].
  destruct (advance b) as [b'|] eqn:Ea.
  - erewrite bind_ok; [|apply Hend].
    etrans; [apply task_finish_sys; [done|right; by eexists]|done].
  - rewrite He1. erewrite bind_ok; [|apply Hend]. rewrite He0.
    etrans; [apply task_finish_sys; [done|left; by destruct (eval b)]|by destruct (eval b)].
Qed.

(** ** A batch *)

Lemma tasks_heap_cons F t ts :
  tasks_heap F (t :: ts) = <[fst t := root (snd t)]> (tasks_heap F ts).
Proof. unfold tasks_heap. cbn. by rewrite insert_union_l. Qed.

Lemma tasks_heap_fresh F ts h : F !! h = None → h ∉ ts.*1 → tasks_heap F ts !! h = None.
Proof.
  intros HF Hn. unfold tasks_heap. rewrite lookup_union_r; [done|].
  apply not_elem_of_list_to_map_1. by rewrite <- list_fmap_compose.
Qed.

Lemma tasks_heap_perm F ts ts' : NoDup ts.*1 → ts ≡ₚ ts' → tasks_heap F ts = tasks_heap F ts'.
Proof.
  intros Hnd Hp. unfold tasks_heap. f_equal. apply list_to_map_proper; [|by rewrite Hp].
  by rewrite <- list_fmap_compose.
Qed.

(** The tasks are distinct, ours alone, and none awaits a task that suspends. *)
Definition tasks_ok F (ts : list (handle * body V)) : Prop :=
  NoDup ts.*1 ∧ Forall task_ok ts ∧ Forall (λ h, F !! h = None) ts.*1.

Lemma tasks_ok_perm F ts ts' : ts ≡ₚ ts' → tasks_ok F ts → tasks_ok F ts'.
Proof. intros Hp (H1 & H2 & H3). unfold tasks_ok. by rewrite <- Hp. Qed.

Lemma tasks_ok_turn F t t' ts :
  tasks_ok F (t :: ts) → turn t = Some t' → tasks_ok F (t' :: ts) ∧ fst t' = fst t.
Proof.
  destruct t as [h b]. intros (H1 & H2 & H3) Ht. unfold turn in Ht. cbn in Ht.
  destruct (advance b) as [b'|] eqn:Ea; [|done]. injection Ht as <-. split; [|done].
  apply Forall_cons in H2 as [[Hn Hf] H2].
  split_and!; [done| |done]. constructor; [|done]. split; [done|].
  by apply (advance_flat b b').
Qed.

Lemma tasks_ok_tail F t ts : tasks_ok F (t :: ts) → tasks_ok F ts.
Proof.
  intros (H1 & H2 & H3). cbn in *. apply NoDup_cons in H1 as [_ H1].
  apply Forall_cons in H2 as [_ H2]. by apply Forall_cons in H3 as [_ H3].
Qed.

(** How many of the tasks end in their next turn. *)
Definition ended (ts : list (handle * body V)) : Z :=
  Z.of_nat (length ts) - Z.of_nat (length (omap turn ts)).

Lemma turns_some t t' ts : turn t = Some t' →
  omap turn (t :: ts) = t' :: omap turn ts ∧ ended (t :: ts) = ended ts.
Proof.
  intros Ht. assert (E : omap turn (t :: ts) = t' :: omap turn ts).
  { unfold omap, list_omap. by rewrite Ht. }
  split; [exact E|]. unfold ended. rewrite E. cbn [length]. lia.
Qed.

Lemma turns_none t ts : turn t = None →
  omap turn (t :: ts) = omap turn ts ∧ ended (t :: ts) = ended ts + 1.
Proof.
  intros Ht. assert (E : omap turn (t :: ts) = omap turn ts).
  { unfold omap, list_omap. by rewrite Ht. }
  split; [exact E|]. unfold ended. rewrite E. cbn [length]. lia.
Qed.

Lemma ended_bound ts : 0 ≤ ended ts ≤ Z.of_nat (length ts).
Proof.
  induction ts as [|t ts IH]; [done|]. cbn [length]. destruct (turn t) as [t'|] eqn:E.
  - destruct (turns_some _ _ ts E) as [_ ->]. lia.
  - destruct (turns_none _ ts E) as [_ ->]. lia.
Qed.

Lemma process_batch tb tq id e st bt p F :
  tasks_ok F (tb ++ tq) → engine_ready e → Z.of_nat (length (tb ++ tq)) ≤ p < 2 ^ 64 →
  ∃ N, ∀ fuel, (N ≤ fuel)%nat →
    for_each tb.*1 (worker_process moved_from fuel c)
      (sys id (set_tasks tq.*1 e) st bt p (tasks_heap F (tb ++ tq))) =
    Ok tt (sys id (set_tasks (tq ++ omap turn tb).*1 e) st bt (p - ended tb)
      (tasks_heap F (tq ++ omap turn tb))).
Proof.
  revert tq p. induction tb as [|[h b] tb IH]; intros tq p Hok He Hp.
  { exists 0%nat. intros fuel _. cbn. rewrite app_nil_r. unfold ended. cbn. by rewrite Z.sub_0_r. }
  pose proof Hok as (Hnd & Hall & Hout). cbn in Hnd, Hout. apply NoDup_cons in Hnd as [Hh Hnd].
  apply Forall_cons in Hall as [[Hn Hf] _]. apply Forall_cons in Hout as [HF _].
  pose proof (tasks_heap_fresh F (tb ++ tq) h HF Hh) as Hfresh.
  destruct (process_one h b id (set_tasks tq.*1 e) st bt p (tasks_heap F (tb ++ tq))) as [N1 HN1];
    [done..|].
  cbn in Hp. destruct (advance b) as [b'|] eqn:Ea.
  - set (tq' := tq ++ [(h, b')]).
    assert (Ht : turn (h, b) = Some (h, b')) by (unfold turn; cbn; by rewrite Ea).
    destruct (tasks_ok_turn F _ _ _ Hok Ht) as [Hok1 _].
    assert (Hperm : (h, b') :: tb ++ tq ≡ₚ tb ++ tq').
    { unfold tq'. rewrite app_assoc. by rewrite <- Permutation_cons_append. }
    destruct (IH tq' p (tasks_ok_perm _ _ _ Hperm Hok1) He) as [N2 HN2].
    { rewrite <- Hperm. cbn. lia. }
    exists (N1 `max` N2)%nat. intros fuel Hfuel. cbn [fmap list_fmap for_each fst].
    rewrite <- app_comm_cons, tasks_heap_cons. cbn [fst snd].
    rewrite (bind_ok _ _ _ _ _ (HN1 fuel ltac:(lia))).
    replace (set_tasks _ (set_tasks tq.*1 e)) with (set_tasks tq'.*1 e)
      by (unfold tq'; by rewrite fmap_app).
    change (<[h := root b']> (tasks_heap F (tb ++ tq)))
      with (<[fst (h, b') := root (snd (h, b'))]> (tasks_heap F (tb ++ tq))).
    rewrite <- tasks_heap_cons, (tasks_heap_perm _ _ _ (proj1 Hok1) Hperm).
    rewrite (HN2 fuel ltac:(lia)). destruct (turns_some _ _ tb Ht) as [-> ->].
    replace (tq ++ (h, b') :: omap turn tb) with (tq' ++ omap turn tb)
      by (unfold tq'; by rewrite <- app_assoc). done.
  - assert (Ht : turn (h, b) = None) by (unfold turn; cbn; by rewrite Ea).
    destruct (IH tq (p - 1) (tasks_ok_tail _ _ _ Hok) He) as [N2 HN2]; [lia|].
    exists (N1 `max` N2)%nat. intros fuel Hfuel. cbn [fmap list_fmap for_each fst].
    rewrite <- app_comm_cons, tasks_heap_cons. cbn [fst snd].
    rewrite (bind_ok _ _ _ _ _ (HN1 fuel ltac:(lia))), u64_small by lia.
    rewrite (HN2 fuel ltac:(lia)). destruct (turns_none _ tb Ht) as [-> ->].
    do 2 f_equal. lia.
Qed.

(** ** Rounds *)

(** One round of the worker on the tasks [ts]. *)
Definition after_round (ts : list (handle * body V)) : list (handle * body V) :=
  drop kProcessBatchSize ts ++ omap turn (take kProcessBatchSize ts).

Lemma process_round ts id e st bt p F :
  tasks_ok F ts → engine_ready e → Z.of_nat (length ts) ≤ p < 2 ^ 64 → ts ≠ [] →
  ∃ N, ∀ fuel, (N ≤ fuel)%nat →
    worker_round moved_from fuel c
      (sys id (set_tasks ts.*1 e) st bt p (tasks_heap F ts)) =
    Ok true (sys id (set_tasks (after_round ts).*1 e) st (take kProcessBatchSize ts).*1
      (p - ended (take kProcessBatchSize ts)) (tasks_heap F (after_round ts))).
Proof.
  intros Hok He Hp Hne. unfold after_round.
  destruct (process_batch (take kProcessBatchSize ts) (drop kProcessBatchSize ts)
    id e st (take kProcessBatchSize ts).*1 p F) as [N HN]; [by rewrite take_drop|done|by rewrite take_drop|].
  exists N. intros fuel Hf. specialize (HN fuel Hf). rewrite take_drop in HN.
  assert (Hpop : pop_batch bt kProcessBatchSize (set_tasks ts.*1 e) =
    Ok (length (take kProcessBatchSize ts), (take kProcessBatchSize ts).*1)
      (set_tasks (drop kProcessBatchSize ts).*1 e)).
  { rewrite pop_batch_eq. cbn [task_queue_ set_tasks].
    assert (queue_empty ts.*1 = false) as -> by by destruct ts.
    assert (Nat.eqb kProcessBatchSize 0 = false) as -> by done. cbn [orb].
    by rewrite <- fmap_take, <- fmap_drop, length_fmap. }
  unfold worker_round, process_work_once.
  erewrite bind_ok.
  2: { unfold zoom, context_at, bind, get. cbn. by rewrite lookup_insert_eq. }
  rewrite (bind_ok _ _ _ (length (take kProcessBatchSize ts), (take kProcessBatchSize ts).*1)
    (sys id (set_tasks (drop kProcessBatchSize ts).*1 e) st bt p (tasks_heap F ts))).
  2: { apply in_engine_sys. unfold zoom.
       cbn [lget lset engine_world_engine engine_ io_ops work_batch_]. by rewrite Hpop. }
  erewrite bind_ok.
  2: { unfold zoom, context_at, bind, get. cbn. by rewrite lookup_insert_eq. }
  erewrite bind_ok; [|done].
  assert (Nat.eqb (length (take kProcessBatchSize ts)) 0 = false) as -> by by destruct ts.
  cbn -[kProcessBatchSize for_each fmap sys]. unfold set_contexts. cbn -[kProcessBatchSize for_each fmap].
  rewrite insert_insert_eq. unfold set_batch. cbn -[kProcessBatchSize for_each fmap].
  by rewrite (bind_ok _ _ _ _ _ HN).
Qed.

Definition work_left (ts : list (handle * body V)) : nat :=
  sum_list_with (λ t, S (suspensions (snd t))) ts.

Lemma work_left_turns ts : Forall task_ok ts → ts ≠ [] →
  (work_left (omap turn ts) < work_left ts)%nat.
Proof.
  intros Hok Hne.
  assert (H : (work_left (omap turn ts) + length ts ≤ work_left ts)%nat).
  { induction ts as [|[h b] ts IH]; [done|]. apply Forall_cons in Hok as [[_ Hf] Hok]. cbn in Hf.
    destruct ts as [|t ts'].
    - clear IH. unfold work_left. cbn. unfold turn. cbn.
      destruct (advance b) as [b'|] eqn:Ea; cbn; [|lia].
      destruct (advance_flat _ _ Hf Ea) as (_ & -> & _). lia.
    - specialize (IH Hok ltac:(done)). set (r := t :: ts') in *.
      destruct (advance b) as [b'|] eqn:Ea.
      + destruct (turns_some (h, b) (h, b') r) as [-> _]; [unfold turn; cbn; by rewrite Ea|].
        destruct (advance_flat _ _ Hf Ea) as (_ & Hs & _).
        unfold work_left in *. cbn [sum_list_with snd length]. lia.
      + destruct (turns_none (h, b) r) as [-> _]; [unfold turn; cbn; by rewrite Ea|].
        unfold work_left in *. cbn [sum_list_with snd length]. lia. }
  destruct ts; cbn in *; [done|lia].
Qed.

Lemma work_left_app ts1 ts2 : work_left (ts1 ++ ts2) = (work_left ts1 + work_left ts2)%nat.
Proof. apply sum_list_with_app. Qed.

Lemma after_round_ok F ts : tasks_ok F ts → tasks_ok F (after_round ts).
Proof.
  unfold after_round. generalize kProcessBatchSize. intros n Hok.
  rewrite <- (take_drop n ts) in Hok. revert Hok. generalize (drop n ts) (take n ts).
  intros tq tb. revert tq. induction tb as [|t tb IH]; intros tq Hok; [by rewrite app_nil_r|].
  destruct (turn t) as [t'|] eqn:Et.
  - destruct (turns_some _ _ tb Et) as [-> _].
    destruct (tasks_ok_turn F t t' (tb ++ tq) Hok Et) as [Hok' _].
    rewrite cons_middle, app_assoc. apply IH. eapply tasks_ok_perm; [|exact Hok'].
    rewrite app_assoc. by rewrite <- Permutation_cons_append.
  - destruct (turns_none _ tb Et) as [-> _]. apply IH. by eapply tasks_ok_tail.
Qed.

Lemma after_round_length ts :
  Z.of_nat (length (after_round ts)) = Z.of_nat (length ts) - ended (take kProcessBatchSize ts).
Proof.
  unfold after_round, ended. rewrite length_app, length_drop, length_take. lia.
Qed.

Lemma after_round_work F ts : tasks_ok F ts → ts ≠ [] →
  (work_left (after_round ts) < work_left ts)%nat.
Proof.
  intros Hok Hne. unfold after_round. rewrite work_left_app.
  rewrite <- (take_drop kProcessBatchSize ts) at 3. rewrite work_left_app.
  pose proof (work_left_turns (take kProcessBatchSize ts)) as Hw.
  destruct Hok as (_ & Hall & _). specialize (Hw (Forall_take _ _ _ Hall)).
  assert (take kProcessBatchSize ts ≠ []) by by destruct ts. specialize (Hw ltac:(done)). lia.
Qed.

(** Rounds drive every task to its end. *)
Lemma worker_drains ts id e st bt p F :
  tasks_ok F ts → engine_ready e → Z.of_nat (length ts) ≤ p < 2 ^ 64 →
  ∃ k N bt', ∀ fuel, (N ≤ fuel)%nat →
    worker_rounds moved_from fuel c k
      (sys id (set_tasks ts.*1 e) st bt p (tasks_heap F ts)) =
    Ok tt (sys id (set_tasks [] e) st bt' (p - Z.of_nat (length ts)) F).
Proof.
  revert bt p. induction ts as [ts IH] using (induction_ltof1 _ work_left).
  intros bt p Hok He Hp. destruct (decide (ts = [])) as [->|Hne].
  { exists 0%nat, 0%nat, bt. intros fuel _. cbn. rewrite Z.sub_0_r.
    unfold tasks_heap. cbn. by rewrite map_empty_union. }
  destruct (process_round ts id e st bt p F Hok He Hp Hne) as [N1 HN1].
  pose proof (ended_bound (take kProcessBatchSize ts)) as Hb.
  pose proof (after_round_length ts) as Hlen.
  rewrite length_take in Hb.
  destruct (IH (after_round ts)) with (bt := (take kProcessBatchSize ts).*1)
    (p := p - ended (take kProcessBatchSize ts)) as (k & N2 & bt' & HN2); [|by apply after_round_ok|done|lia|].
  { by apply (after_round_work F). }
  exists (S k), (N1 `max` N2)%nat, bt'. intros fuel Hf. cbn [worker_rounds].
  rewrite (bind_ok _ _ _ _ _ (HN1 fuel ltac:(lia))).
  replace (p - Z.of_nat (length ts))
    with (p - ended (take kProcessBatchSize ts) - Z.of_nat (length (after_round ts))) by lia.
  apply HN2. lia.
Qed.
End worker_props.

(** Destroying a coroutine that has not been started. *)
Lemma handle_destroy_root {V} h (b : body V) (F : gmap handle (frame V)) o : F !! h = None →
  handle_destroy h (MkTaskWorld (<[h := root b]> F) o) = Ok tt (MkTaskWorld F o).
Proof.
  intros HF. unfold handle_destroy. erewrite bind_ok; [|done]. cbn [frame_destroy_fuel].
  rewrite (bind_ok _ _ _ _ _ (frame_at_eq _ _ _ _)).
  unfold bind, modify, set_frames, ret. cbn. by rewrite delete_insert_id.
Qed.

(** ** [submit_to_scheduler(Task<void> &&)] *)

Section submit.
Context {U : Type} `{!Liburing U} {V : Type} (moved_from : V → V) (fuel : nat).
Implicit Types (w : rt_world U) (t : task_world V).

Lemma submit_task_in_context c x w t h : h ≠ null → running_in c x w →
  worker_submit_task moved_from fuel h (w, t) =
    Ok tt (with_engine c x (set_tasks (task_queue_ (ctx_engine_ x) ++ [h]) (ctx_engine_ x))
      (set_pending_tasks (u64 (pending_tasks_ w + 1)) w), t).
Proof.
  intros Hh (Hl & Hc & Hx).
  unfold worker_submit_task, submit_to_scheduler_task, bind at 1, zoom, get. cbn -[u64].
  rewrite Hl. assert (is_null c = false) as -> by by apply N.eqb_neq. cbn -[u64].
  unfold Context_submit_tracked_task. assert (is_null h = false) as -> by by apply N.eqb_neq.
  unfold bind, modify, Context_submit_task, in_engine.
  cbn -[u64]. by rewrite Hx.
Qed.

Lemma submit_task_outside w t h t' : local_context_ptr w = null → handle_destroy h t = Ok tt t' →
  worker_submit_task moved_from fuel h (w, t) =
    Throw (logic_error "runtime::submit_to_scheduler() requires runtime context") (w, t').
Proof.
  intros Hl Hd. unfold worker_submit_task, submit_to_scheduler_task, bind at 1. cbn. rewrite Hl. cbn.
  assert (Hz : zoom (handle_destroy h) (w, t) = Ok tt (w, t'))
    by (unfold zoom; cbn [lget lens_snd snd]; by rewrite Hd).
  by erewrite bind_ok; [|exact Hz].
Qed.
End submit.

(** ** A concrete worker: context 1 with an empty engine and ring *)

Definition demo_sys (tasks : list handle) (frames : gmap handle (frame Z)) :
    rt_world sim_ring * task_world Z :=
  (MkRt {[1%N := MkContext 0 (MkEngine tasks [] [] [] (MkSimRing 256 [] []) 0 0 0) false []]}
     ∅ (Z.of_nat (length tasks)) 1%N,
   MkTaskWorld frames ∅).

(** Yields once and returns 5. *)
Definition demo_yields : body Z := BSuspend (BReturn 5).
(** Awaits a coroutine that only computes, yields twice, and throws. *)
Definition demo_throws : body Z :=
  BAwait (BReturn 1) (λ _, BSuspend (BSuspend (BThrow (user_exception 3)))).
(** Awaits [demo_yields]. *)
Definition demo_nested : body Z := BAwait demo_yields (λ _, BReturn 2).

(** ** Properties *)

(** Tasks that yield in their own body, and await only coroutines that do
    not suspend, are all driven to their end by a worker, whatever their number
    and bodies: after finitely many rounds the queue is empty, every frame has
    been destroyed - the others untouched - and [pending_tasks_] has gone down
    by exactly the number of tasks, to 0 when they were all. *)
Theorem worker_completes_tasks {U} `{!Liburing U} {V} (moved_from : V → V) c contexts ops
    objects (ts : list (handle * body V)) id (e : Engine U) st bt p F :
  c ≠ null → tasks_ok F ts → engine_ready e → Z.of_nat (length ts) ≤ p < 2 ^ 64 →
  ∃ k N bt', ∀ fuel, (N ≤ fuel)%nat →
    worker_rounds moved_from fuel c k
      (sys c contexts ops objects id (set_tasks ts.*1 e) st bt p (tasks_heap F ts)) =
    Ok tt (sys c contexts ops objects id (set_tasks [] e) st bt' (p - Z.of_nat (length ts)) F).
Proof. intros Hc. by apply worker_drains. Qed.

Lemma worker_completes_tasks_witness :
  ∃ k N bt', ∀ fuel, (N ≤ fuel)%nat →
    worker_rounds (λ _, 0) fuel 1%N k
      (sys (V := Z) 1%N ∅ ∅ ∅ 0 (MkEngine [10%N; 11%N] [] [] [] (MkSimRing 256 [] []) 0 0 0)
        false [] 2 (tasks_heap ∅ [(10%N, demo_yields); (11%N, demo_throws)])) =
    Ok tt (sys (V := Z) 1%N ∅ ∅ ∅ 0 (MkEngine [] [] [] [] (MkSimRing 256 [] []) 0 0 0)
        false bt' 0 ∅).
Proof.
  apply (worker_completes_tasks (λ _, 0) 1%N ∅ ∅ ∅ [(10%N, demo_yields); (11%N, demo_throws)]
    0 (MkEngine [] [] [] [] (MkSimRing 256 [] []) 0 0 0) false [] 2 ∅).
  - discriminate.
  - split_and!.
    + cbn. apply NoDup_cons. split; [|apply NoDup_singleton]. by intros ?%list_elem_of_singleton.
    + repeat constructor; discriminate.
    + repeat constructor.
  - split; cbn; lia.
  - cbn. lia.
Defined.


(** C34. [submit_to_scheduler] in a context counts the coroutine in
    [pending_tasks_] and puts it at the end of that context's task queue;
    outside it destroys the coroutine and throws.  A null handle is ignored;
    but an empty [Task] outside a context has its null handle destroyed, which
    is undefined.  (scheduler.h: submit_to_scheduler; context.cpp:
    submit_tracked_task) *)
Theorem submit_to_scheduler_cases {U} `{!Liburing U} {V} (moved_from : V → V) fuel
    (w : rt_world U) (t : task_world V) h :
  h ≠ null → frames t !! null = None →
  (∀ c x, running_in c x w →
     let w' := with_engine c x (set_tasks (task_queue_ (ctx_engine_ x) ++ [h]) (ctx_engine_ x))
       (set_pending_tasks (u64 (pending_tasks_ w + 1)) w) in
     worker_submit moved_from fuel h (w, t) = Ok tt (w', t) ∧
     worker_submit_task moved_from fuel h (w, t) = Ok tt (w', t) ∧
     worker_submit_task moved_from fuel null (w, t) = Ok tt (w, t)) ∧
  worker_submit moved_from fuel null (w, t) = Ok tt (w, t) ∧
  (local_context_ptr w = null →
     (∀ t', handle_destroy h t = Ok tt t' →
        let r := Throw (logic_error "runtime::submit_to_scheduler() requires runtime context")
          (w, t') in
        worker_submit moved_from fuel h (w, t) = r ∧
        worker_submit_task moved_from fuel h (w, t) = r) ∧
     worker_submit_task moved_from fuel null (w, t) = UB).
Proof.
  intros Hh Ht.
  assert (Heq : worker_submit moved_from fuel h (w, t) = worker_submit_task moved_from fuel h (w, t)).
  { unfold worker_submit, submit_to_scheduler.
    by assert (is_null h = false) as -> by by apply N.eqb_neq. }
  split_and!.
  - intros c x Hr. cbn zeta. rewrite Heq. split_and!; [by apply submit_task_in_context..|].
    destruct Hr as (Hl & Hc & Hx).
    unfold worker_submit_task, submit_to_scheduler_task, bind at 1, zoom, get. cbn -[u64].
    rewrite Hl. by assert (is_null c = false) as -> by by apply N.eqb_neq.
  - done.
  - intros Hl. split.
    + intros t' Hd. cbn zeta. rewrite Heq. by rewrite (submit_task_outside _ _ _ _ _ t').
    + unfold worker_submit_task, submit_to_scheduler_task, bind at 1. cbn. rewrite Hl. cbn.
      unfold bind, zoom, handle_destroy, bind, get. cbn. unfold frame_at, bind, get. cbn.
      by rewrite Ht.
Qed.

Lemma submit_to_scheduler_cases_witness :
  let t : task_world Z := MkTaskWorld {[10%N := root demo_yields]} ∅ in
  worker_submit (λ _, 0) 1 10%N (MkRt (U := sim_ring) ∅ ∅ 0 null, t) =
    Throw (logic_error "runtime::submit_to_scheduler() requires runtime context")
      (MkRt ∅ ∅ 0 null, MkTaskWorld ∅ ∅).
Proof.
  cbn zeta.
  destruct (submit_to_scheduler_cases (λ _, 0) 1 (MkRt (U := sim_ring) ∅ ∅ 0 null)
    (MkTaskWorld {[10%N := root demo_yields]} ∅) 10%N) as (_ & _ & H); [done|done|].
  exact (proj1 (proj1 (H eq_refl) (MkTaskWorld ∅ ∅) eq_refl)).
Defined.
