(* ===== verification/ContextRun.v ===== *)
(** * The whole of Context::run

    A context that has been asked to stop and runs tasks that yield: [run]
    sets the thread's current context, drives every task to its end, leaves
    its loop and clears the current context. *)

From S2P Require Import Prelude Runtime Uring Engine EngineProps Task TaskRun Context WorkerRun.

Open Scope Z_scope.

Section context_run.
Context {U : Type} `{!Liburing U, !LiburingLaws U, !LiburingIdle U} {V : Type}
  (moved_from : V → V).
Context (c : ptr) (contexts : gmap ptr (ContextObj U)) (ops : gmap ptr IoOpAwaiter)
  (objects : gmap ptr handle).
Implicit Types (F : gmap handle (frame V)).

Abbreviation sys := (sys c contexts ops objects).

(** [run] with the coroutines of [Task]. *)
Definition worker_run (fuel n : nat) : M (rt_world U * task_world V) unit :=
  run (Coroutines0 := task_coroutines moved_from fuel) n c.
Abbreviation worker_loop fuel n := (run_loop (Coroutines0 := task_coroutines moved_from fuel) n c).

(** An iteration that finds nothing to do. *)
Lemma iteration_quiet id u stop bt p F : idle_ring u →
  ∃ u', idle_ring u' ∧ ∀ fuel,
    run_iteration (Coroutines0 := task_coroutines moved_from fuel) c
      (sys id (quiet_engine [] 0 u) stop bt p F) =
    Ok (if stop then RunBreak else RunIdle) (sys id (quiet_engine [] 0 u') stop bt p F).
Proof.
  intros Hu. destruct (poll_io_quiet kIoPollBatchSize [] 0 u ops Hu) as (u' & Hpoll & Hu').
  exists u'. split; [done|]. intros fuel.
  set (st v := sys id (quiet_engine [] 0 v) stop bt p F).
  assert (Hctx : ∀ v, zoom (context_at c) (st v) = Ok (MkContext id (quiet_engine [] 0 v) stop bt) (st v)).
  { intros v. unfold zoom, context_at, bind, get, st, sys. cbn. by rewrite lookup_insert_eq. }
  unfold run_iteration, noexcept.
  rewrite (bind_ok _ _ _ false (st u)).
  - rewrite (bind_ok _ _ _ false (st u')).
    + rewrite (bind_ok _ _ _ _ _ (Hctx u')).
      rewrite (bind_ok _ _ _ stop (st u')); [by destruct stop|].
      apply in_engine_sys. unfold zoom. cbn [ctx_stop_ lget lset engine_world_engine engine_].
      rewrite can_stop_eq. by destruct stop.
    + unfold poll_io_once. erewrite bind_ok; [|apply in_engine_sys; exact Hpoll]. done.
  - unfold process_work_once. rewrite (bind_ok _ _ _ _ _ (Hctx u)).
    rewrite (bind_ok _ _ _ (0%nat, bt) (st u)) by by apply in_engine_sys.
    rewrite (bind_ok _ _ _ _ _ (Hctx u)). unfold bind, zoom, context_store, modify, st, sys, ret.
    cbn. unfold set_contexts, set_batch. cbn. by rewrite insert_insert_eq.
Qed.

(** An iteration that finds tasks. *)
Lemma iteration_work fuel s s' : worker_round moved_from fuel c s = Ok true s' →
  run_iteration (Coroutines0 := task_coroutines moved_from fuel) c s = Ok RunAgain s'.
Proof. intros H. unfold run_iteration, noexcept. by rewrite (bind_ok _ _ _ _ _ H). Qed.

Lemma loop_drains (Hc : c ≠ null) ts id u bt p F :
  tasks_ok F ts → Z.of_nat (length ts) ≤ p < 2 ^ 64 → idle_ring u →
  ∃ n N bt' u', idle_ring u' ∧ ∀ fuel, (N ≤ fuel)%nat →
    worker_loop fuel n (sys id (quiet_engine ts.*1 0 u) true bt p (tasks_heap F ts)) =
    Ok tt (sys id (quiet_engine [] 0 u') true bt' (p - Z.of_nat (length ts)) F).
Proof.
  revert bt p. induction ts as [ts IH] using (induction_ltof1 _ work_left).
  intros bt p Hok Hp Hu. destruct (decide (ts = [])) as [->|Hne].
  { destruct (iteration_quiet id u true bt p F Hu) as (u' & Hu' & Hit).
    exists 1%nat, 0%nat, bt, u'. split; [done|]. intros fuel _. cbn [run_loop].
    assert (tasks_heap F [] = F) as -> by (unfold tasks_heap; cbn; by rewrite map_empty_union).
    rewrite (bind_ok _ _ _ _ _ (Hit fuel)). unfold ret. cbn [length]. by rewrite Z.sub_0_r. }
  destruct (process_round moved_from c Hc contexts ops objects ts id (quiet_engine [] 0 u) true bt p F)
    as [N1 HN1]; [done|split; cbn; lia|done|done|].
  pose proof (ended_bound c Hc (take kProcessBatchSize ts)) as Hb.
  pose proof (after_round_length c Hc ts) as Hlen. rewrite length_take in Hb.
  destruct (IH (after_round ts)) with (bt := (take kProcessBatchSize ts).*1)
    (p := p - ended (take kProcessBatchSize ts)) as (n & N2 & bt' & u' & Hu' & HN2);
    [|by apply (after_round_ok c Hc)|lia|done|].
  { by apply (after_round_work c Hc F). }
  exists (S n), (N1 `max` N2)%nat, bt', u'. split; [done|]. intros fuel Hf. cbn [run_loop].
  rewrite (bind_ok _ _ _ _ _ (iteration_work _ _ _ (HN1 fuel ltac:(lia)))).
  replace (p - Z.of_nat (length ts))
    with (p - ended (take kProcessBatchSize ts) - Z.of_nat (length (after_round ts))) by lia.
  apply HN2. lia.
Qed.
End context_run.

(** ** Properties *)

(** [run] of a context that has been asked to stop, whose queue holds
    tasks that yield in their own body and await only coroutines that do not
    suspend, whatever their number and bodies: it returns after finitely many
    iterations, with the queue empty, every frame of those tasks destroyed and
    the others untouched, [pending_tasks_] down by exactly their number, no
    coroutine being resumed and no current context on the thread. *)
Theorem context_run_drains {U} `{!Liburing U, !LiburingLaws U, !LiburingIdle U} {V}
    (moved_from : V → V) (w : rt_world U) objects c x u (ts : list (handle * body V)) F :
  c ≠ null → rt_contexts w !! c = Some x → idle_ring u →
  ctx_engine_ x = quiet_engine ts.*1 0 u → ctx_stop_ x = true →
  tasks_ok F ts → Z.of_nat (length ts) ≤ pending_tasks_ w < 2 ^ 64 →
  ∃ n N bt' u', idle_ring u' ∧ ∀ fuel, (N ≤ fuel)%nat →
    worker_run moved_from c fuel n (w, MkTaskWorld (tasks_heap F ts) objects) =
    Ok tt (MkRt (<[c := MkContext (ctx_id_ x) (quiet_engine [] 0 u') true bt']> (rt_contexts w))
        (rt_ops w) (pending_tasks_ w - Z.of_nat (length ts)) null,
      MkTaskWorld F objects).
Proof.
  intros Hc Hx Hu He Hst Hok Hp.
  destruct (loop_drains moved_from c (rt_contexts w) (rt_ops w) objects Hc ts (ctx_id_ x) u
    (work_batch_ x) (pending_tasks_ w) F Hok Hp Hu) as (n & N & bt' & u' & Hu' & Hrun).
  exists n, N, bt', u'. split; [done|]. intros fuel Hf.
  unfold worker_run, run. erewrite bind_ok; [|done]. cbn [lset lens_fst fst snd lget].
  rewrite (bind_ok _ _ _ tt (sys c (rt_contexts w) (rt_ops w) objects (ctx_id_ x)
    (quiet_engine [] 0 u') true bt' (pending_tasks_ w - Z.of_nat (length ts)) F)); [done|].
  rewrite <- (Hrun fuel Hf). f_equal. unfold sys, set_local_context. f_equal. f_equal.
  rewrite insert_id; [done|]. rewrite Hx. destruct x. cbn in *. by subst.
Qed.

(** Context 1 with two tasks, asked to stop. *)
Definition demo_stopping : ContextObj sim_ring :=
  MkContext 0 (MkEngine [10%N; 11%N] [] [] [] (MkSimRing 256 [] []) 0 0 0) true [].
Definition demo_run_world : rt_world sim_ring := MkRt {[1%N := demo_stopping]} ∅ 2 null.

Lemma context_run_drains_witness :
  ∃ n N bt' u', idle_ring u' ∧ ∀ fuel, (N ≤ fuel)%nat →
    worker_run (λ _, 0) 1%N fuel n
      (demo_run_world, MkTaskWorld (tasks_heap ∅ [(10%N, demo_yields); (11%N, demo_throws)]) ∅) =
    Ok tt (MkRt (<[1%N := MkContext 0 (quiet_engine [] 0 u') true bt']> {[1%N := demo_stopping]})
      ∅ 0 null, MkTaskWorld ∅ ∅).
Proof.
  apply (context_run_drains (λ _, 0) demo_run_world ∅ 1%N demo_stopping (MkSimRing 256 [] [])
    [(10%N, demo_yields); (11%N, demo_throws)] ∅).
  - discriminate.
  - reflexivity.
  - by split.
  - reflexivity.
  - reflexivity.
  - split_and!.
    + cbn. apply NoDup_cons. split; [|apply NoDup_singleton]. by intros ?%list_elem_of_singleton.
    + repeat constructor; discriminate.
    + repeat constructor.
  - cbn. lia.
Defined.
