(* ===== verification/Migration.v ===== *)
(** * A coroutine that moves between workers

    Two workers, a channel and one task.  The task, run by the first worker,
    parks in [co_await ch.send(2)]; the second worker receives from the
    channel, which submits the task to its own context, and runs it.
    [Context::process_work_once] of the first worker (src/src/runtime/context.cpp)
    is split into the parts between which the second worker can run. *)

From S2P Require Import Prelude Runtime Channel Uring Engine Task Context.

Open Scope Z_scope.

Abbreviation mig_world := (rt_world sim_ring * (task_world Z * chan_world Z))%type.

#[local] Instance mig_tasks : Lens mig_world (task_world Z) := lens_compose (lens_snd _ _) (lens_fst _ _).
#[local] Instance mig_chan : Lens mig_world (chan_world Z) := lens_compose (lens_snd _ _) (lens_snd _ _).

(** Every thread here runs in a context, so nothing is resumed inline. *)
#[local] Instance mig_runtime : Runtime mig_world := rt_runtime (λ _, undefined).

(** The task sends 2 on the channel, its awaiter being at 100, and returns. *)
Definition sender_body : body Z := BSuspend (BReturn 5).

(** [co_await ch.send(2)] up to the suspension, and after it. *)
Definition sender_suspend (h : handle) : M mig_world unit :=
  zoom (send false 100%N 2);;;
  let! suspended := SenderAwaiter_await_suspend (λ _, 0) false 100%N h in
  if suspended : bool then ret tt else undefined.
Definition sender_continue : M mig_world unit :=
  let! w := zoom (get (S := chan_world Z)) in
  when (bool_decide (is_Some (senders w !! 100%N))) (zoom (SenderAwaiter_await_resume (T := Z) 100%N)).

#[local] Instance mig_coroutines : Coroutines mig_world := {|
  co_resume := λ h,
    sender_continue;;;
    let! n := zoom (handle_resume (λ _, 0) 10 h) in
    match n with NSuspended h' => sender_suspend h' | _ => ret tt end;
  co_done := λ h, zoom (handle_done h : M (task_world Z) bool);
  co_destroy := λ h, zoom (handle_destroy h : M (task_world Z) unit);
|}.

(** A step of the thread of context [c]. *)
Definition on_thread (c : ptr) (m : M mig_world unit) : M mig_world unit :=
  zoom (modify (set_local_context (U := sim_ring) c));;; m.

(** One turn of the loop of [process_work_once] on the thread of [c]. *)
Definition turn_parts (c : ptr) (h : handle) : list (M mig_world unit) :=
  [ on_thread c (zoom (in_engine c (zoom on_task_resume_begin));;; co_resume h);
    on_thread c (zoom (in_engine c (zoom on_task_resume_end)));
    on_thread c
      (let! d := co_done h in
       if d : bool then co_destroy h;;; zoom on_task_completed else ret tt) ].

(** The second worker: a task calls [try_receive]; then a round. *)
Definition receiver_parts (c : ptr) : list (M mig_world unit) :=
  [ on_thread c (let! _ := try_receive (λ _, 0) false in ret tt);
    on_thread c (let! _ := process_work_once c in ret tt) ].

Definition mig_engine : Engine sim_ring := Engine_make (MkSimRing 256 [] []).

(** Task 10 was popped by worker 1; the channel of capacity 1 holds 1. *)
Definition mig_start : mig_world :=
  (MkRt {[1%N := MkContext 0 mig_engine false [10%N]; 2%N := MkContext 1 mig_engine false []]}
     ∅ 1 1%N,
   (MkTaskWorld {[10%N := MkFrame null None None (PBody sender_body)]} ∅,
    MkWorld (MkChannel [Some 1] 0 0 1 1 false [] [] stats_init) ∅ ∅)).

(** C39. A task parked in a primitive can be resumed, run to its end and
    destroyed by another worker before the first worker has come back from
    [handle.resume()]: the value is delivered and the task is counted, but the
    first worker's [handle.done()] then reads a destroyed frame.  Run alone,
    the parts are the turn of the loop, and leave the task parked in the
    channel.  (context.cpp: process_work_once) *)
Theorem worker_done_races_with_migration :
  run_parts (turn_parts 1%N 10%N) mig_start = process_handle 1%N 10%N mig_start ∧
  (∃ s, process_handle 1%N 10%N mig_start = Ok tt s ∧
     sender_queue_ (chan (snd (snd s))) = [(10%N, 100%N)]) ∧
  ∃ before last s,
    interleave (turn_parts 1%N 10%N) (receiver_parts 2%N) (before ++ [last]) ∧
    run_parts before mig_start = Ok tt s ∧
    frames (fst (snd s)) = ∅ ∧ pending_tasks_ (fst s) = 0 ∧
    buffer_ (chan (snd (snd s))) = [Some 2] ∧
    last s = UB.
Proof.
  split; [vm_compute; reflexivity|]. split; [eexists; split; vm_compute; reflexivity|].
  unfold turn_parts, receiver_parts.
  eexists [_; _; _; _], _, _. split.
  { apply interleave_l, interleave_r, interleave_r, interleave_l, interleave_l, interleave_nil. }
  split; [vm_compute; reflexivity|]. split_and!; vm_compute; reflexivity.
Qed.
