(* ===== verification/Scheduler.v ===== *)
(** * Scheduler (src/include/runtime/scheduler.h, src/src/runtime/scheduler.cpp)

    The pool of contexts: [init], [submit], the entry to and the way out of
    [loop], [stop] and [shutdown_contexts].  [pending_tasks_] is shared with
    the contexts and is part of their world. *)

From S2P Require Import Prelude Runtime Uring Engine Context Dispatcher.

Open Scope Z_scope.

Definition kQueueDepth : Z := 256.

Record Scheduler := MkScheduler {
  contexts_ : list ptr;
  dispatcher_ : Dispatcher;
  stop_requested_ : bool;
  accepting_ : bool;
  initialized_ : bool;
}.

Definition Scheduler_default : Scheduler :=
  MkScheduler [] Dispatcher_default false false false.

Record sched_world (U : Type) := MkSched {
  sched_ : Scheduler;
  sched_rt : rt_world U;
}.
Arguments MkSched {U}.
Arguments sched_ {U} _.
Arguments sched_rt {U} _.

Section scheduler.
Context {U : Type} `{!Liburing U}.
Implicit Types (s : sched_world U).

#[export, refine] Instance sched_world_rt : Lens (sched_world U) (rt_world U) := {|
  lget := sched_rt;
  lset := λ w s, MkSched (sched_ s) w;
|}.
Proof. all: by intros; repeat match goal with s : sched_world U |- _ => destruct s end. Defined.

#[export, refine] Instance sched_world_sched : Lens (sched_world U) Scheduler := {|
  lget := sched_;
  lset := λ x s, MkSched x (sched_rt s);
|}.
Proof. all: by intros; repeat match goal with s : sched_world U |- _ => destruct s end. Defined.

#[export, refine] Instance sched_dispatcher : Lens Scheduler Dispatcher := {|
  lget := dispatcher_;
  lset := λ d x, MkScheduler (contexts_ x) d (stop_requested_ x) (accepting_ x) (initialized_ x);
|}.
Proof. all: by intros; repeat match goal with x : Scheduler |- _ => destruct x end. Defined.

Definition set_sched_contexts (l : list ptr) (x : Scheduler) : Scheduler :=
  MkScheduler l (dispatcher_ x) (stop_requested_ x) (accepting_ x) (initialized_ x).
Definition set_stop_requested (b : bool) (x : Scheduler) : Scheduler :=
  MkScheduler (contexts_ x) (dispatcher_ x) b (accepting_ x) (initialized_ x).
Definition set_accepting (b : bool) (x : Scheduler) : Scheduler :=
  MkScheduler (contexts_ x) (dispatcher_ x) (stop_requested_ x) b (initialized_ x).
Definition set_initialized (b : bool) (x : Scheduler) : Scheduler :=
  MkScheduler (contexts_ x) (dispatcher_ x) (stop_requested_ x) (accepting_ x) b.

(** ** [init] *)

(** [std::make_unique<Context>(id, ...)]: the engine's ring is set up, the
    context gets an address of its own. *)
Definition Context_new (id : Z) : M (rt_world U) ptr :=
  let '(r, u) := io_uring_queue_init kQueueDepth in
  if r <? 0 then throw (runtime_error "io_uring_queue_init failed")
  else
    let! w := get in
    let c := fresh ({[null]} ∪ dom (rt_contexts w)) in
    context_store c (Context_make id u);;; ret c.

(** The thread is started with a stop token of its own. *)
Definition Context_start (c : ptr) : M (rt_world U) unit :=
  let! x := context_at c in context_store c (set_stop false x).

(** [for (i = from; i < from + n; ++i) contexts_.push_back(...)] *)
Fixpoint push_contexts (from : Z) (n : nat) : M (sched_world U) unit :=
  match n with
  | O => ret tt
  | S n' =>
      let! c := zoom (Context_new from) in
      zoom (modify (λ x, set_sched_contexts (contexts_ x ++ [c]) x));;;
      push_contexts (from + 1) n'
  end.

Definition Scheduler_init (context_count : Z) : M (sched_world U) unit :=
  let! x := zoom (get (S := Scheduler)) in
  if initialized_ x then ret tt
  else
    let worker_count := if context_count =? 0 then 1 else context_count in
    push_contexts 0 (Z.to_nat worker_count);;;
    let! x := zoom (get (S := Scheduler)) in
    zoom (for_each (contexts_ x) Context_start);;;
    zoom (zoom (Dispatcher_init worker_count) : M Scheduler unit);;;
    zoom (modify (set_pending_tasks (U := U) 0));;;
    zoom (modify (set_stop_requested false));;;
    zoom (modify (set_accepting true));;;
    zoom (modify (set_initialized true)).

(** ** [shutdown_contexts] *)

(** The block under [state_mutex_]: the contexts, moved out of [contexts_]. *)
Definition shutdown_locked : M Scheduler (option (list ptr)) :=
  let! x := get in
  if negb (initialized_ x) then ret None
  else
    put (set_initialized false (set_sched_contexts [] x));;; ret (Some (contexts_ x)).

(** [notify_stop] of each; the joins wait for the workers to leave [run];
    then the contexts are destroyed with the local vector. *)
Definition shutdown_notify (cs : list ptr) : M (rt_world U) unit :=
  for_each cs Context_notify_stop.
Definition shutdown_destroy (cs : list ptr) : M (rt_world U) unit :=
  for_each cs (λ c, modify (λ w, set_contexts (delete c (rt_contexts w)) w)).

Definition shutdown_contexts : M (sched_world U) unit :=
  let! cs := zoom shutdown_locked in
  match cs with
  | None => ret tt
  | Some cs => zoom (shutdown_notify cs);;; zoom (shutdown_destroy cs)
  end.

(** ** [loop] and [stop] *)

Definition loop_enter : M Scheduler unit :=
  let! x := get in
  if negb (initialized_ x) then
    throw (logic_error "runtime::Scheduler::init must be called before loop")
  else ret tt.

(** What [loop] waits for. *)
Definition loop_ready s : bool :=
  stop_requested_ (sched_ s) || (pending_tasks_ (sched_rt s) =? 0).

(** [loop] after its wait. *)
Definition loop_leave : M (sched_world U) unit :=
  zoom (modify (set_accepting false));;; shutdown_contexts.

(** The block of [stop] under [state_mutex_]: whether to go on. *)
Definition stop_locked : M Scheduler bool :=
  let! x := get in
  if negb (initialized_ x) then ret false
  else put (set_stop_requested true (set_accepting false x));;; ret true.

Definition Scheduler_stop : M (sched_world U) unit :=
  let! go := zoom stop_locked in
  if go : bool then shutdown_contexts else ret tt.

(** ** [submit] *)

Section submit.
Context {W : Type} `{!Lens W (sched_world U)} `{!Coroutines W}.

(** The block under [state_mutex_]: the context chosen, or [None] when the
    task is not accepted. *)
Definition submit_locked : M (sched_world U) (option ptr) :=
  let! x := zoom (get (S := Scheduler)) in
  if negb (initialized_ x) || negb (accepting_ x) then ret None
  else
    zoom (modify (λ w : rt_world U, set_pending_tasks (u64 (pending_tasks_ w + 1)) w));;;
    let! i := zoom (zoom dispatch : M Scheduler Z) in
    let! target := deref (contexts_ x !! Z.to_nat i) in
    ret (Some target).

Definition submit_new (h : handle) : M W unit :=
  if is_null h then ret tt
  else
    let! target := zoom submit_locked in
    match target with
    | None => co_destroy h
    | Some target => zoom (zoom (Context_submit_task target h) : M (sched_world U) unit)
    end.
End submit.
End scheduler.
