(* ===== verification/SchedulerProps.v ===== *)
(** * Properties of the scheduler *)

From S2P Require Import Prelude Runtime Uring Engine Context Dispatcher Scheduler.

Open Scope Z_scope.

Section sched_props.
Context {U : Type} `{!Liburing U}.
Implicit Types (s : sched_world U) (w : rt_world U).

(** ** The invariant *)

(** The contexts the scheduler owns exist and are distinct. *)
Definition owns_contexts (cs : list ptr) w : Prop :=
  NoDup cs ∧ Forall (λ c, c ≠ null ∧ is_Some (rt_contexts w !! c)) cs.

Record sched_wf s : Prop := {
  sd_dispatcher : dispatcher_wf (dispatcher_ (sched_ s));
  sd_off : initialized_ (sched_ s) = false →
    contexts_ (sched_ s) = [] ∧ accepting_ (sched_ s) = false;
  sd_on : initialized_ (sched_ s) = true →
    Z.of_nat (length (contexts_ (sched_ s))) = context_count_ (dispatcher_ (sched_ s));
  sd_contexts : owns_contexts (contexts_ (sched_ s)) (sched_rt s);
}.

(** liburing sets a ring up whenever asked to. *)
Definition ring_available : Prop := ∀ r (u : U),
  io_uring_queue_init kQueueDepth = (r, u) → 0 ≤ r.

Lemma wp_push_contexts n from s :
  owns_contexts (contexts_ (sched_ s)) (sched_rt s) →
  wp (push_contexts from n) s (λ _ s',
    ∃ cs w', s' = MkSched (set_sched_contexts cs (sched_ s)) w' ∧
      length cs = (length (contexts_ (sched_ s)) + n)%nat ∧ owns_contexts cs w')
    (λ _ _, ¬ ring_available).
Proof.
  revert from s. induction n as [|n IH]; intros from s [Hnd Hall].
  { cbn. exists (contexts_ (sched_ s)), (sched_rt s). split_and!; [|lia|done].
    by destruct s as [[] ?]. }
  cbn [push_contexts]. wp_step. apply wp_zoom. unfold Context_new.
  destruct (io_uring_queue_init kQueueDepth) as [r u] eqn:Er.
  destruct (Z.ltb_spec r 0).
  { apply wp_throw. intros Hring. apply Hring in Er. lia. }
  cbn [lget sched_world_rt]. wp_step. apply wp_get.
  set (c := fresh ({[null]} ∪ dom (rt_contexts (sched_rt s))) : ptr).
  assert (Hc : c ∉ ({[null]} ∪ dom (rt_contexts (sched_rt s)) : gset ptr)) by apply is_fresh.
  unfold context_store. wp_steps. apply wp_zoom, wp_modify.
  set (w1 := set_contexts _ _). cbn [lget lset sched_world_sched sched_world_rt sched_ sched_rt].
  eapply wp_mono; [apply IH| |done]; cbn [sched_ sched_rt contexts_ set_sched_contexts].
  - split.
    + apply NoDup_app. split_and!; [done| |apply NoDup_singleton].
      intros y Hy ->%list_elem_of_singleton. rewrite Forall_forall in Hall.
      destruct (Hall _ Hy) as [_ Hs]. apply elem_of_dom in Hs. set_solver.
    + apply Forall_app. split.
      * eapply Forall_impl; [exact Hall|]. intros y [Hn Hs]. split; [done|].
        cbn. rewrite lookup_insert_is_Some'. by right.
      * apply Forall_singleton. split; [set_solver|]. cbn. rewrite lookup_insert_eq. by eexists.
  - intros _ s' (cs & w' & -> & Hlen & Hown). exists cs, w'. split_and!; [|..|done].
    + by destruct s as [[] ?].
    + rewrite Hlen, length_app. cbn. lia.
Qed.

(** Changes of contexts that keep every context in existence. *)
Definition same_contexts w w' : Prop :=
  (∀ c, is_Some (rt_contexts w !! c) → is_Some (rt_contexts w' !! c)) ∧
  pending_tasks_ w' = pending_tasks_ w ∧ rt_ops w' = rt_ops w ∧
  local_context_ptr w' = local_context_ptr w.

Lemma owns_same cs w w' : same_contexts w w' → owns_contexts cs w → owns_contexts cs w'.
Proof.
  intros [Hs _] [Hnd Hall]. split; [done|]. eapply Forall_impl; [exact Hall|].
  intros c [Hn Hc]. split; [done|]. by apply Hs.
Qed.

Lemma wp_each_context (f : ContextObj U → ContextObj U) cs w :
  owns_contexts cs w →
  wp (for_each cs (λ c, let! x := context_at c in context_store c (f x))) w
    (λ _ w', same_contexts w w') (λ _ _, False).
Proof.
  revert w. induction cs as [|c cs IH]; intros w [Hnd Hall]; [by apply wp_ret|].
  apply NoDup_cons in Hnd as [_ Hnd]. apply Forall_cons in Hall as [[Hn [x Hx]] Hall].
  cbn [for_each]. unfold context_at at 1, context_store at 1. wp_steps.
  set (w1 := set_contexts _ _).
  assert (Hs : same_contexts w w1).
  { split_and!; try done. intros c' Hc'. cbn. rewrite lookup_insert_is_Some'. by right. }
  eapply wp_mono; [apply IH; by apply (owns_same _ w)| |done].
  intros _ w' (H1 & H2 & H3 & H4). destruct Hs as (S1 & S2 & S3 & S4).
  split_and!; [|congruence..]. eauto.
Qed.

(** ** The operations *)

Lemma wp_init n s : sched_wf s → 0 ≤ n < 2 ^ 64 →
  wp (Scheduler_init n) s (λ _ s', sched_wf s' ∧ initialized_ (sched_ s') = true ∧
      (initialized_ (sched_ s) = false →
       Z.of_nat (length (contexts_ (sched_ s'))) = Z.max 1 n ∧
       accepting_ (sched_ s') = true ∧ stop_requested_ (sched_ s') = false ∧
       pending_tasks_ (sched_rt s') = 0) ∧
      (initialized_ (sched_ s) = true → s' = s))
    (λ _ _, ¬ ring_available).
Proof.
  intros Hwf Hn. pose proof Hwf as [H1 H2 H3 H4]. unfold Scheduler_init. wp_step. apply wp_zoom, wp_get.
  cbn [lget lset sched_world_sched sched_].
  destruct (initialized_ (sched_ s)) eqn:Ei.
  { apply wp_ret. destruct s as [x w]. by split_and!. }
  destruct (H2 eq_refl) as [Hnil Hacc].
  set (count := if n =? 0 then 1 else n).
  assert (Hcount : count = Z.max 1 n) by (unfold count; destruct (Z.eqb_spec n 0); lia).
  assert (Hcount' : (if count =? 0 then 1 else count) = count)
    by (destruct (Z.eqb_spec count 0); lia).
  wp_step. eapply wp_mono; [apply wp_push_contexts; exact H4| |done].
  intros _ s1 (cs & w1 & -> & Hlen & Hown).
  cbn [sched_ sched_rt] in Hlen. rewrite Hnil in Hlen. cbn in Hlen.
  wp_step. apply wp_zoom, wp_get. cbn [lget lset sched_world_sched sched_ sched_rt contexts_ set_sched_contexts].
  wp_step. apply wp_zoom. eapply wp_mono; [apply (wp_each_context (set_stop false)); exact Hown| |by intros ?].
  cbn [lget lset sched_world_rt sched_ sched_rt].
  intros _ w2 Hw2. wp_step. apply wp_zoom, wp_zoom, wp_modify.
  wp_step. apply wp_zoom, wp_modify. wp_step. apply wp_zoom, wp_modify.
  wp_step. apply wp_zoom, wp_modify. apply wp_zoom, wp_modify.
  cbn. fold count. split_and!; [|done| |done].
  - split; cbn.
    + split; cbn [context_count_ next_]; [rewrite Hcount'|]; lia.
    + done.
    + intros _. rewrite Hcount'. lia.
    + exact (owns_same _ w1 w2 Hw2 Hown).
  - intros _. split_and!; [lia|done..].
Qed.

(** [submit_new] chooses a context of the scheduler, or none. *)
Lemma submit_locked_eq s : sched_wf s →
  if initialized_ (sched_ s) && accepting_ (sched_ s) then
    ∃ c x, contexts_ (sched_ s) !! Z.to_nat (next_ (dispatcher_ (sched_ s)) `mod`
          context_count_ (dispatcher_ (sched_ s))) = Some c ∧
      rt_contexts (sched_rt s) !! c = Some x ∧
      submit_locked s = Ok (Some c)
        (MkSched (MkScheduler (contexts_ (sched_ s))
            (MkDispatcher (context_count_ (dispatcher_ (sched_ s)))
              (u64 (next_ (dispatcher_ (sched_ s)) + 1)))
            (stop_requested_ (sched_ s)) (accepting_ (sched_ s)) (initialized_ (sched_ s)))
          (set_pending_tasks (u64 (pending_tasks_ (sched_rt s) + 1)) (sched_rt s)))
  else submit_locked s = Ok None s.
Proof.
  intros [H1 H2 H3 [Hnd Hall]]. destruct s as [[cs d st acc ini] w]. cbn -[u64 submit_locked] in *.
  destruct ini, acc; cbn -[u64 submit_locked]; try done. specialize (H3 eq_refl).
  destruct H1 as [Hcc Hnext].
  pose proof (Z.mod_pos_bound (next_ d) (context_count_ d) ltac:(lia)) as Hmod.
  destruct (lookup_lt_is_Some_2 cs (Z.to_nat (next_ d `mod` context_count_ d))) as [c Hc]; [lia|].
  rewrite Forall_forall in Hall.
  destruct (Hall c) as [_ [x Hx]]; [by eapply list_elem_of_lookup_2|].
  exists c, x. split_and!; [done|done|].
  set (x0 := MkScheduler cs d st true true).
  set (w1 := set_pending_tasks (u64 (pending_tasks_ w + 1)) w).
  set (x1 := MkScheduler cs (MkDispatcher (context_count_ d) (u64 (next_ d + 1))) st true true).
  unfold submit_locked. rewrite (bind_ok _ _ _ x0 (MkSched x0 w)) by done.
  cbn [x0 initialized_ accepting_ negb orb].
  rewrite (bind_ok _ _ _ tt (MkSched x0 w1)) by done.
  rewrite (bind_ok _ _ _ (next_ d `mod` context_count_ d) (MkSched x1 w1)).
  - unfold bind, deref. change (contexts_ x0) with cs. by rewrite Hc.
  - assert (Hdisp : dispatch d = Ok (next_ d `mod` context_count_ d)
      (MkDispatcher (context_count_ d) (u64 (next_ d + 1)))) by (apply dispatch_eq; by split).
    unfold zoom. cbn [lget lset sched_world_sched sched_dispatcher sched_ dispatcher_ x0].
    by rewrite Hdisp.
Qed.

(** Moving the contexts out and destroying them. *)
Lemma wp_shutdown_destroy cs w :
  wp (shutdown_destroy cs) w (λ _ w', rt_contexts w' = foldr delete (rt_contexts w) cs ∧
    pending_tasks_ w' = pending_tasks_ w) (λ _ _, False).
Proof.
  revert w. unfold shutdown_destroy. induction cs as [|c cs IH]; intros w; [by apply wp_ret|].
  cbn [for_each]. wp_steps. eapply wp_mono; [apply IH| |done].
  intros _ w' [H1 H2]. cbn in *. split; [|done]. rewrite H1.
  cbn. by rewrite delete_foldr_delete.
Qed.

Lemma wp_shutdown s : sched_wf s →
  wp shutdown_contexts s (λ _ s',
      initialized_ (sched_ s') = false ∧ contexts_ (sched_ s') = [] ∧
      dispatcher_ (sched_ s') = dispatcher_ (sched_ s) ∧
      accepting_ (sched_ s') = accepting_ (sched_ s) ∧
      stop_requested_ (sched_ s') = stop_requested_ (sched_ s) ∧
      pending_tasks_ (sched_rt s') = pending_tasks_ (sched_rt s) ∧
      ∀ c, c ∈ contexts_ (sched_ s) → initialized_ (sched_ s) = true →
        rt_contexts (sched_rt s') !! c = None)
    (λ _ _, False).
Proof.
  intros [H1 H2 H3 H4]. unfold shutdown_contexts, shutdown_locked.
  wp_step. apply wp_zoom. wp_steps. cbn [lget lset sched_world_sched].
  destruct (initialized_ (sched_ s)) eqn:Ei; cbn [negb].
  2: { apply wp_ret. apply wp_ret. destruct (H2 eq_refl). destruct s. cbn in *. by split_and!. }
  apply wp_bind. unfold wp at 1, put. cbn beta iota. apply wp_ret.
  apply wp_bind, wp_zoom. cbn [lget lset sched_world_sched sched_world_rt sched_rt sched_].
  unfold shutdown_notify, Context_notify_stop.
  eapply wp_mono; [apply (wp_each_context (set_stop true)); exact H4| |done].
  intros _ w1 (_ & S2 & _). apply wp_zoom.
  eapply wp_mono; [apply wp_shutdown_destroy| |done].
  intros _ w2 [Hw2 Hp2]. cbn in *. split_and!; try done; [congruence|].
  intros c Hc _. rewrite Hw2. clear -Hc. induction (contexts_ (sched_ s)) as [|c' cs IH];
    [by apply not_elem_of_nil in Hc|]. cbn.
  destruct (decide (c' = c)) as [->|]; [apply lookup_delete_eq|].
  rewrite lookup_delete_ne by done. apply IH. apply elem_of_cons in Hc as [->|?]; done.
Qed.

(** ** Any sequence of operations *)

Inductive sched_op :=
| SInit (context_count : Z)
| SSubmit (h : handle)
| SLoop                      (** [loop], when its wait is over *)
| SStop.

(** What [submit_new] does to the scheduler; a task that is not accepted is
    destroyed. *)
Definition submit_sched (h : handle) : M (sched_world U) unit :=
  let! target := submit_locked in
  match target with
  | None => ret tt
  | Some target => zoom (Context_submit_task target h)
  end.

Definition exec_sched (op : sched_op) : M (sched_world U) unit :=
  match op with
  | SInit n => Scheduler_init n
  | SSubmit h => submit_sched h
  | SLoop => zoom loop_enter;;; loop_leave
  | SStop => Scheduler_stop
  end.

Definition sched_op_ok (op : sched_op) : Prop :=
  match op with SInit n => 0 ≤ n < 2 ^ 64 | _ => True end.

Lemma Context_submit_task_eq c h w x : rt_contexts w !! c = Some x →
  Context_submit_task c h w =
    Ok tt (set_contexts (<[c := set_engine
      (set_tasks (task_queue_ (ctx_engine_ x) ++ [h]) (ctx_engine_ x)) x]> (rt_contexts w)) w).
Proof. intros Hx. unfold Context_submit_task, in_engine. rewrite Hx. done. Qed.

Lemma sched_wf_off s s' :
  dispatcher_ (sched_ s') = dispatcher_ (sched_ s) → initialized_ (sched_ s') = false →
  contexts_ (sched_ s') = [] → accepting_ (sched_ s') = false → sched_wf s → sched_wf s'.
Proof.
  intros Hd Hi Hc Ha [H1 _ _ _]. split; rewrite ?Hd, ?Hi, ?Hc, ?Ha; try done.
  split; [apply NoDup_nil_2|constructor].
Qed.

(** Shutting down after [accepting_] was cleared. *)
Lemma wp_shutdown_off s x : sched_wf s →
  x = set_accepting false (sched_ s) ∨ x = set_stop_requested true (set_accepting false (sched_ s)) →
  wp shutdown_contexts (MkSched x (sched_rt s)) (λ _ s', sched_wf s') (λ _ _, False).
Proof.
  intros Hwf Hx. pose proof Hwf as [H1 H2 H3 H4].
  assert (Hwf' : sched_wf (MkSched x (sched_rt s))).
  { destruct Hx as [-> | ->]; split; cbn; try done; intros Hi; by destruct (H2 Hi). }
  eapply wp_mono; [by apply wp_shutdown| |done].
  intros _ s' (E1 & E2 & E3 & E4 & _). eapply sched_wf_off; [| | | |exact Hwf']; try done.
  rewrite E4. by destruct Hx as [-> | ->].
Qed.

(** The scheduler with [h] in the queue of the context [c], [y] before. *)
Definition submitted (c : ptr) (y : ContextObj U) (h : handle) s : sched_world U :=
  let x := sched_ s in
  let d := dispatcher_ x in
  let w := sched_rt s in
  MkSched
    (MkScheduler (contexts_ x) (MkDispatcher (context_count_ d) (u64 (next_ d + 1)))
       (stop_requested_ x) (accepting_ x) (initialized_ x))
    (set_contexts
       (<[c := set_engine (set_tasks (task_queue_ (ctx_engine_ y) ++ [h]) (ctx_engine_ y)) y]>
          (rt_contexts w))
       (set_pending_tasks (u64 (pending_tasks_ w + 1)) w)).

Lemma submitted_wf c y h s : sched_wf s → initialized_ (sched_ s) && accepting_ (sched_ s) = true →
  rt_contexts (sched_rt s) !! c = Some y → sched_wf (submitted c y h s).
Proof.
  intros [H1 H2 H3 H4] [Ei Ea]%andb_true_iff Hx. split; cbn -[u64].
  - by apply dispatch_wf.
  - congruence.
  - done.
  - destruct H4 as [Hnd Hall]. split; [done|]. eapply Forall_impl; [exact Hall|].
    intros c' [Hn Hc']. split; [done|]. cbn. rewrite lookup_insert_is_Some'. by right.
Qed.

Lemma wp_submit_sched h s : sched_wf s →
  wp (submit_sched h) s (λ _ s', sched_wf s') (λ _ _, False).
Proof.
  intros Hwf. pose proof (submit_locked_eq s Hwf) as Hs. unfold submit_sched.
  destruct (initialized_ (sched_ s) && accepting_ (sched_ s)) eqn:Ea.
  2: { wp_step. apply (wp_of_ok _ _ _ _ _ _ Hs). by apply wp_ret. }
  destruct Hs as (c & x & Hc & Hx & Hs). wp_step. apply (wp_of_ok _ _ _ _ _ _ Hs).
  apply wp_zoom. eapply wp_of_ok; [by apply Context_submit_task_eq|]. by apply submitted_wf.
Qed.

(** [submit] of a handle: while the scheduler accepts, exactly one task is
    added to [pending_tasks_] and the handle goes to the end of the queue of
    the context the dispatcher chose, nothing else changes; otherwise the
    handle is destroyed and the scheduler untouched. *)
Lemma submit_new_cases {W} `{!Lens W (sched_world U)} `{!Coroutines W} (h : handle) (s : W) :
  sched_wf (lget s) → h ≠ null →
  let x := sched_ (lget s) in
  let d := dispatcher_ x in
  if initialized_ x && accepting_ x then
    ∃ c y, contexts_ x !! Z.to_nat (next_ d `mod` context_count_ d) = Some c ∧
      rt_contexts (sched_rt (lget s)) !! c = Some y ∧
      submit_new h s = Ok tt (lset (submitted c y h (lget s)) s)
  else submit_new h s = co_destroy h s.
Proof.
  intros Hwf Hh x d.
  pose proof (submit_locked_eq _ Hwf) as Hs. unfold submit_new.
  assert (is_null h = false) as -> by by apply N.eqb_neq. subst x d.
  destruct (initialized_ _ && accepting_ _).
  - destruct Hs as (c & y & Hc & Hy & Hs). exists c, y. split_and!; [done|done|].
    rewrite (bind_ok _ _ _ _ _ (zoom_ok _ _ _ _ Hs)).
    erewrite zoom_ok; [|rewrite lget_lset; apply zoom_ok, Context_submit_task_eq; exact Hy].
    by rewrite lset_lset.
  - rewrite (bind_ok _ _ _ _ _ (zoom_ok _ _ _ _ Hs)). by rewrite lset_lget.
Qed.
End sched_props.

(** ** A concrete scheduler with one context *)

Definition demo_sched : sched_world sim_ring :=
  MkSched (MkScheduler [1%N] (MkDispatcher 1 0) false true true)
    (MkRt {[1%N := Context_make 0 (MkSimRing 256 [] [])]} ∅ 0 null).

Lemma demo_sched_init :
  Scheduler_init 1 (MkSched Scheduler_default (MkRt ∅ ∅ 0 null)) = Ok tt demo_sched.
Proof. vm_compute. reflexivity. Qed.

Lemma sim_ring_available : ring_available (U := sim_ring).
Proof. intros r u. cbn. intros [= <- <-]. done. Qed.

Lemma demo_sched_wf : sched_wf demo_sched.
Proof.
  split; cbn; try done.
  split; [apply NoDup_singleton|]. apply Forall_singleton. split; [done|by eexists].
Qed.

(** The parts of [submit_new] and of [stop] between which the other thread can
    run; the registers hold their local variables [target] and [contexts].
    A join waits until the worker may leave its loop. *)
Abbreviation race_world := (sched_world sim_ring * (option ptr * list ptr))%type.

Definition submit_parts (h : handle) : list (M race_world unit) :=
  [ (let! t := zoom submit_locked in modify (λ s, (fst s, (t, snd (snd s)))));
    (let! s := get in
     match fst (snd s) with
     | Some target => zoom (zoom (Context_submit_task target h) : M (sched_world sim_ring) unit)
     | None => ret tt
     end) ].

Definition join_context (c : ptr) : M (rt_world sim_ring) unit :=
  let! x := context_at c in
  let! b := in_engine c (zoom (can_stop (ctx_stop_ x))) in
  if b : bool then ret tt else throw (logic_error "the worker is still running").

Definition stop_parts : list (M race_world unit) :=
  [ (let! _ := zoom (zoom stop_locked : M (sched_world sim_ring) bool) in ret tt);
    (let! cs := zoom (zoom shutdown_locked : M (sched_world sim_ring) (option (list ptr))) in
     modify (λ s, (fst s, (fst (snd s), default [] cs))));
    (let! s := get in zoom (zoom (shutdown_notify (snd (snd s))) : M (sched_world sim_ring) unit));
    (let! s := get in
     zoom (zoom (for_each (snd (snd s)) join_context) : M (sched_world sim_ring) unit));
    (let! s := get in zoom (zoom (shutdown_destroy (snd (snd s))) : M (sched_world sim_ring) unit)) ].

(** No coroutine is run or destroyed in the examples. *)
#[local] Instance demo_coroutines : Coroutines (sched_world sim_ring) := {|
  co_resume := λ _, undefined;
  co_done := λ _, undefined;
  co_destroy := λ _, undefined;
|}.

(** ** Properties *)



(** C37. [submit] uses the context it chose after releasing [state_mutex_]: a
    concurrent [stop] can shut the contexts down and destroy them in between,
    and the submission then has undefined behaviour.  (scheduler.cpp:
    submit_new, shutdown_contexts) *)
Theorem scheduler_submit_races_with_stop :
  ∃ parts, interleave (submit_parts 10%N) stop_parts parts ∧
    run_parts parts (demo_sched, (None, [])) = UB.
Proof.
  eexists. split.
  - unfold submit_parts, stop_parts.
    apply interleave_l, interleave_r, interleave_r, interleave_r, interleave_r, interleave_r,
      interleave_l, interleave_nil.
  - vm_compute. reflexivity.
Qed.
