(* ===== verification/SchedulerTask.v ===== *)
(** * Giving tasks to the scheduler

    [Scheduler::submit] on a [Task] object and the destructor of [Scheduler]:
    who owns the coroutine's frame before and after. *)

From S2P Require Import Prelude Runtime Uring Engine Task TaskRun TaskOwn TaskProps Context WorkerRun Dispatcher Scheduler SchedulerProps.

Open Scope Z_scope.

Section scheduler_task.
Context {U : Type} `{!Liburing U} {V : Type} (moved_from : V → V) (fuel : nat).

Abbreviation sched_sys := (sched_world U * task_world V)%type.

(** The runtime's shared state with the coroutines. *)
#[export, refine] Instance sched_sys_rt : Lens sched_sys (rt_world U * task_world V) := {|
  lget := λ s, (sched_rt (fst s), snd s);
  lset := λ x s, (MkSched (sched_ (fst s)) (fst x), snd x);
|}.
Proof. all: by intros; repeat match goal with s : sched_sys |- _ => destruct s as [[] ?] | x : _ * _ |- _ => destruct x end. Defined.

#[local] Instance sched_coroutines : Coroutines sched_sys := {|
  co_resume := λ h, zoom (task_resume moved_from fuel h : M (rt_world U * task_world V) unit);
  co_done := λ h, zoom (handle_done h : M (task_world V) bool);
  co_destroy := λ h, zoom (handle_destroy h : M (task_world V) unit);
|}.

(** [submit(std::coroutine_handle<>)] *)
Definition Scheduler_submit (h : handle) : M sched_sys unit := submit_new h.

(** [submit(Task<void> &&)], the object being at [t]. *)
Definition Scheduler_submit_task (t : ptr) : M sched_sys unit :=
  let! h := zoom (Task_get_handle t : M (task_world V) handle) in
  zoom (Task_detach t : M (task_world V) unit);;;
  submit_new h.

Definition Scheduler_destroy : M (sched_world U) unit := Scheduler_stop.

(** A frame that has left its object and is destroyed is gone. *)
Lemma destroy_released D (w : task_world V) t h :
  heap_wf D null w → quiet (frames w) → task_objects w !! t = Some h → h ≠ null →
  let o := <[t := null]> (task_objects w) in
  ∃ F', handle_destroy h (MkTaskWorld (frames w) o) = Ok tt (MkTaskWorld F' o) ∧
    heap_wf D null (MkTaskWorld F' o) ∧ F' ⊆ frames w ∧ F' !! h = None.
Proof.
  intros Hw Hq Ht Hn o. destruct (heap_wf_release D null w t h Hw Ht Hn) as [Hw1 HD].
  change (set_objects _ w) with (MkTaskWorld (frames w) o) in Hw1.
  destruct (frame_destroy_wf (S (size (frames w))) D h (frames w) o) as (F' & Hd & Hw2 & Hsub);
    [by apply heap_wf_root|done|done|lia|].
  exists F'. split_and!; [by unfold handle_destroy; erewrite bind_ok; [|done]|done|done|].
  destruct (F' !! h) as [f|] eqn:Ef; [exfalso|done].
  destruct (hw_owned _ _ _ Hw2 h) as [x Hx]; [by eexists|].
  assert (Hx1 : owns ({[h]} ∪ D) (MkTaskWorld (frames w) o) x h).
  { destruct x as [t'|h'|]; [exact Hx| |cbn; set_solver]. destruct Hx as (g & Hg & Ha).
    exists g. split; [by eapply lookup_weaken|done]. }
  assert (x = OwnNone) as ->.
  { apply (hw_unique _ _ _ Hw1 _ _ h Hx1). cbn. set_solver. }
  done.
Qed.

Lemma submit_release t h (s : sched_world U) (w : task_world V) : task_objects w !! t = Some h →
  Scheduler_submit_task t (s, w) =
    submit_new h (s, set_objects (<[t := null]> (task_objects w)) w).
Proof.
  intros Ht. unfold Scheduler_submit_task, Task_get_handle, Task_detach, object_at, object_store.
  unfold bind, zoom, get, modify. cbn. rewrite Ht. cbn. by rewrite Ht.
Qed.

Lemma submit_new_eq h (s : sched_world U) (w : task_world V) : sched_wf s → h ≠ null →
  let x := sched_ s in let d := dispatcher_ x in
  if initialized_ x && accepting_ x then
    ∃ c y, contexts_ x !! Z.to_nat (next_ d `mod` context_count_ d) = Some c ∧
      rt_contexts (sched_rt s) !! c = Some y ∧
      submit_new h (s, w) = Ok tt (submitted c y h s, w)
  else submit_new h (s, w) = zoom (handle_destroy h) (s, w).
Proof. intros Hwf Hh. exact (submit_new_cases h (s, w) Hwf Hh). Qed.
End scheduler_task.

(** ** Properties *)

(** C22. Handing a task over. After [submit] of a [Task] object, which is
    empty from then on, the frame is owned in exactly one way: an accepting
    scheduler has it in the queue of the context the dispatcher chose, behind
    what was there, and counts it; otherwise it has been destroyed, with all
    it was awaiting.  No other object and no other frame is affected, and an
    empty object is ignored. *)
Theorem scheduler_takes_ownership {U} `{!Liburing U} {V} (moved_from : V → V) fuel
    (D : gset handle) (s : sched_world U) (w : task_world V) t h :
  sched_wf s → heap_wf D null w → quiet (frames w) → task_objects w !! t = Some h →
  let o := <[t := null]> (task_objects w) in
  let x := sched_ s in
  ∃ s' F', Scheduler_submit_task moved_from fuel t (s, w) = Ok tt (s', MkTaskWorld F' o) ∧
    sched_wf s' ∧
    if is_null h then s' = s ∧ F' = frames w
    else if initialized_ x && accepting_ x then
      F' = frames w ∧ h ∉ D ∧ heap_wf ({[h]} ∪ D) null (MkTaskWorld F' o) ∧
      pending_tasks_ (sched_rt s') = u64 (pending_tasks_ (sched_rt s) + 1) ∧
      ∃ c y y', contexts_ x !! Z.to_nat (next_ (dispatcher_ x) `mod` context_count_ (dispatcher_ x)) = Some c ∧
        rt_contexts (sched_rt s) !! c = Some y ∧ rt_contexts (sched_rt s') = <[c := y']> (rt_contexts (sched_rt s)) ∧
        task_queue_ (ctx_engine_ y') = task_queue_ (ctx_engine_ y) ++ [h]
    else
      s' = s ∧ F' !! h = None ∧ F' ⊆ frames w ∧ heap_wf D null (MkTaskWorld F' o).
Proof.
  intros Hs Hw Hq Ht o x.
  rewrite (submit_release moved_from fuel t h s w Ht). destruct (is_null h) eqn:En.
  { apply N.eqb_eq in En as ->. by exists s, (frames w). }
  assert (Hh : h ≠ null) by by apply N.eqb_neq.
  pose proof (submit_new_eq moved_from fuel h s (MkTaskWorld (frames w) o) Hs Hh) as Hsub.
  cbv zeta in Hsub. subst x. destruct (initialized_ (sched_ s) && accepting_ (sched_ s)) eqn:Ea.
  - destruct Hsub as (c & y & Hc & Hy & Hsub). eexists _, (frames w). split; [exact Hsub|].
    destruct (heap_wf_release D null w t h Hw Ht Hh) as [Hw1 HD]. split.
    + by apply submitted_wf.
    + split_and!; [done|done|exact Hw1|done|]. by eexists c, y, _.
  - destruct (destroy_released D w t h Hw Hq Ht Hh) as (F' & Hd & Hw' & Hsub' & Hno).
    exists s, F'. split_and!; try done. etrans; [exact Hsub|].
    exact (zoom_ok (handle_destroy h) (s, MkTaskWorld (frames w) o) _ _ Hd).
Qed.

(** An object at 50 that owns the coroutine 10. *)
Definition demo_owner : task_world Z := MkTaskWorld {[10%N := root demo_yields]} {[50%N := 10%N]}.

Lemma demo_owner_frames h f : frames demo_owner !! h = Some f → h = 10%N ∧ f = root demo_yields.
Proof. unfold demo_owner, frames. by intros [<- <-]%lookup_singleton_Some. Qed.
Lemma demo_owner_objects t h : task_objects demo_owner !! t = Some h → t = 50%N ∧ h = 10%N.
Proof. unfold demo_owner, task_objects. by intros [<- <-]%lookup_singleton_Some. Qed.

Lemma demo_owner_wf : heap_wf ∅ null demo_owner.
Proof.
  assert (Hf : ∀ h f, frames demo_owner !! h = Some f → h = 10%N ∧ f = root demo_yields).
  { exact demo_owner_frames. }
  assert (Ha : ∀ x y, ¬ awaits demo_owner x y).
  { intros x y (f & Hl & Haw). apply Hf in Hl as [-> ->]. done. }
  split.
  - done.
  - intros [t|x|] h Ho; [|by destruct (Ha _ _ Ho)|by cbn in Ho; set_solver].
    destruct Ho as [[-> ->]%demo_owner_objects _]. by eexists.
  - intros o1 o2 h H1 H2.
    destruct o1 as [t1|x|]; [|by destruct (Ha _ _ H1)|by cbn in H1; set_solver].
    destruct o2 as [t2|x|]; [|by destruct (Ha _ _ H2)|by cbn in H2; set_solver].
    destruct H1 as [[-> _]%demo_owner_objects _], H2 as [[-> _]%demo_owner_objects _]. done.
  - intros h [f Hl]. apply Hf in Hl as [-> _]. by exists (OwnObject 50%N).
  - intros h f _ Hl. by apply Hf in Hl as [-> ->].
  - intros h c f Haw. by destruct (Ha _ _ Haw).
  - intros h f Hl. by apply Hf in Hl as [-> ->].
Qed.

Lemma scheduler_takes_ownership_witness : ∃ s' F',
  Scheduler_submit_task (λ _, 0) 0 50%N (demo_sched, demo_owner) =
    Ok tt (s', MkTaskWorld F' (<[50%N := null]> {[50%N := 10%N]})) ∧
  heap_wf {[10%N]} null (MkTaskWorld F' (<[50%N := null]> {[50%N := 10%N]})) ∧
  pending_tasks_ (sched_rt s') = 1.
Proof.
  destruct (scheduler_takes_ownership (λ _, 0) 0%nat ∅ demo_sched demo_owner 50%N 10%N
    demo_sched_wf demo_owner_wf) as (s' & F' & E & _ & _ & _ & Hw & Hp & _).
  - by intros h f [-> ->]%demo_owner_frames.
  - reflexivity.
  - exists s', F'. split_and!; [exact E|by rewrite (right_id_L ∅ (∪)) in Hw|exact Hp].
Defined.
