(* ===== verification/Wakeup.v ===== *)
(** * Sleeping and waking

    A thread waiting on a [std::condition_variable] for a predicate of the
    shared state, and threads that change the state and notify.  The engine's
    submissions change the state under the waiter's mutex
    (src/src/runtime/engine.cpp); the scheduler's [on_task_completed] and the
    contexts' [notify_stop] do not (src/src/runtime/scheduler.cpp,
    src/src/runtime/context.cpp). *)

From S2P Require Import Prelude Runtime Uring Engine EngineProps Context Dispatcher Scheduler.

Section wakeup.
Context {A : Type} (P : A → bool).
(** [pre] is a change made before taking the mutex, [upd] one made under it;
    with [locked = false] the whole change is [pre] and the mutex is never
    taken. *)
Context (locked : bool) (pre upd : A → A → Prop).

(** The waiter, in [while (!P()) cv.wait(lock)]. *)
Inductive waiter_pc :=
| WOut       (** does not hold the mutex; awake *)
| WHolds     (** holds the mutex, about to evaluate the predicate *)
| WFalse     (** the predicate was false; about to sleep *)
| WSleep
| WGone.     (** the wait is over *)

Inductive notifier_pc :=
| NPre       (** made its unlocked change *)
| NLocked    (** holds the mutex *)
| NMust.     (** all changes made; about to notify *)

Inductive mutex_owner := MWaiter | MNotifier (i : nat).

Record wk_state := MkWk {
  wk_shared : A;
  wk_mutex : option mutex_owner;
  wk_waiter : waiter_pc;
  wk_notifiers : gmap nat notifier_pc;
}.

(** [notify_one] and [notify_all]: the waiter is the only one who waits. *)
Definition notified (p : waiter_pc) : waiter_pc :=
  match p with WSleep => WOut | p => p end.

Inductive wk_step : wk_state → wk_state → Prop :=
| wk_lock a ns : wk_step (MkWk a None WOut ns) (MkWk a (Some MWaiter) WHolds ns)
| wk_true a ns : P a = true →
    wk_step (MkWk a (Some MWaiter) WHolds ns) (MkWk a None WGone ns)
| wk_false a ns : P a = false →
    wk_step (MkWk a (Some MWaiter) WHolds ns) (MkWk a (Some MWaiter) WFalse ns)
| wk_sleep a ns : wk_step (MkWk a (Some MWaiter) WFalse ns) (MkWk a None WSleep ns)
| wk_spurious a mx ns : wk_step (MkWk a mx WSleep ns) (MkWk a mx WOut ns)
| wk_own a a' mx ns : wk_step (MkWk a mx WOut ns) (MkWk a' mx WOut ns)
| wk_pre a a' mx w ns i : ns !! i = None → pre a a' →
    wk_step (MkWk a mx w ns) (MkWk a' mx w (<[i := if locked then NPre else NMust]> ns))
| wk_acquire a w ns i : ns !! i = Some NPre →
    wk_step (MkWk a None w ns) (MkWk a (Some (MNotifier i)) w (<[i := NLocked]> ns))
| wk_update a a' w ns i : ns !! i = Some NLocked → upd a a' →
    wk_step (MkWk a (Some (MNotifier i)) w ns) (MkWk a' None w (<[i := NMust]> ns))
| wk_notify a mx w ns i : ns !! i = Some NMust →
    wk_step (MkWk a mx w ns) (MkWk a mx (notified w) (delete i ns)).

Definition wk_start (a : A) : wk_state := MkWk a None WOut ∅.
Definition wk_reachable (a : A) : wk_state → Prop := rtc wk_step (wk_start a).

(** The predicate holds, and yet the waiter sleeps and nobody will wake it. *)
Definition stuck (s : wk_state) : Prop :=
  wk_waiter s = WSleep ∧ P (wk_shared s) = true ∧ wk_notifiers s = ∅.

(** ** With the mutex, no wakeup is lost *)

Record wk_inv (s : wk_state) : Prop := {
  wi_waiter : wk_waiter s = WFalse ∨ wk_waiter s = WHolds → wk_mutex s = Some MWaiter;
  wi_false : wk_waiter s = WFalse → P (wk_shared s) = true →
    ∃ i, wk_notifiers s !! i = Some NPre;
  wi_sleep : wk_waiter s = WSleep → P (wk_shared s) = true →
    ∃ i p, wk_notifiers s !! i = Some p;
}.

Lemma wk_step_inv s s' : locked = true → wk_inv s → wk_step s s' → wk_inv s'.
Proof.
  intros Hl [H1 H2 H3] Hs. destruct Hs; cbn in *; rewrite ?Hl.
  - split; cbn; naive_solver.
  - split; cbn; naive_solver.
  - split; cbn; try naive_solver. congruence.
  - split; cbn; naive_solver.
  - split; cbn; naive_solver.
  - split; cbn; naive_solver.
  - split; cbn; [done|intros _ _; exists i|intros _ _; exists i, NPre]; apply lookup_insert_eq.
  - split; cbn.
    + intros Hw. specialize (H1 Hw). done.
    + intros Hw. specialize (H1 (or_introl Hw)). done.
    + intros _ _. exists i, NLocked. apply lookup_insert_eq.
  - split; cbn.
    + intros Hw. specialize (H1 Hw). done.
    + intros Hw. specialize (H1 (or_introl Hw)). done.
    + intros _ _. exists i, NMust. apply lookup_insert_eq.
  - split; cbn.
    + intros Hw. apply H1. destruct w; cbn in *; naive_solver.
    + intros Hw Hp. destruct w; try done. destruct (H2 eq_refl Hp) as [j Hj]. exists j.
      rewrite lookup_delete_ne; [done|]. intros ->. congruence.
    + intros Hw. by destruct w.
Qed.

Lemma wk_reachable_inv a s : locked = true → wk_reachable a s → wk_inv s.
Proof.
  intros Hl Hr. assert (Hi : wk_inv (wk_start a)) by (split; cbn; naive_solver).
  unfold wk_reachable in Hr. revert Hi. induction Hr; eauto using wk_step_inv.
Qed.

Lemma locked_not_stuck a s : locked = true → wk_reachable a s → ¬ stuck s.
Proof.
  intros Hl Hr (Hw & Hp & Hn). destruct (wi_sleep _ (wk_reachable_inv a s Hl Hr) Hw Hp)
    as (i & p & Hi). by rewrite Hn, lookup_empty in Hi.
Qed.

(** ** Without it, one can be *)

Lemma unlocked_stuck a a' : locked = false → P a = false → P a' = true → pre a a' →
  ∃ s, wk_reachable a s ∧ wk_shared s = a' ∧ stuck s.
Proof.
  intros Hl Ha Ha' Hpre. exists (MkWk a' None WSleep ∅). split; [|by split_and!].
  eapply rtc_l; [apply wk_lock|]. eapply rtc_l; [by apply wk_false|].
  eapply rtc_l; [by apply (wk_pre _ a' _ _ ∅ 0)|]. rewrite Hl.
  eapply rtc_l; [apply (wk_notify _ _ _ _ 0), lookup_insert_eq|].
  eapply rtc_l; [cbn; apply wk_sleep|].
  rewrite delete_insert_id by done. apply rtc_refl.
Qed.
End wakeup.

Arguments wk_shared {A} _.
Arguments wk_waiter {A} _.
Arguments wk_notifiers {A} _.

(** ** The engine's submissions *)

Section engine_wakeup.
Context {U : Type} `{!Liburing U}.
Implicit Types (e : Engine U).

(** What a submission does before it takes [mutex_], and under it. *)
Definition submit_pre e e' : Prop := e' = e ∨ on_io_inflight_begin 1 e = Ok tt e'.
Definition submit_upd e e' : Prop :=
  (∃ h, push_task h e = Ok tt e') ∨
  (∃ h, e' = set_waiting (queue_push h (io_waiting_queue_ e)) e) ∨
  (∃ p, e' = set_reads (queue_push p (io_read_submit_queue_ e)) e) ∨
  (∃ p, e' = set_writes (queue_push p (io_write_submit_queue_ e)) e).

(** Each submission is one such pair of changes. *)
Definition is_submission (m : M (Engine U) unit) : Prop :=
  ∀ e, ∃ e1 e2, submit_pre e e1 ∧ submit_upd e1 e2 ∧ m e = Ok tt e2.

Lemma submissions h p : is_null p = false →
  is_submission (Engine_submit_task h) ∧ is_submission (Engine_submit_io_waiting h) ∧
  is_submission (Engine_submit_io_read p) ∧ is_submission (Engine_submit_io_write p).
Proof.
  intros Hp. unfold is_submission, Engine_submit_io_read, Engine_submit_io_write. rewrite Hp.
  split_and!; intros e; [exists e|eexists..]; eexists; (split; [|split; [|reflexivity]]).
  - by left.
  - left. by exists h.
  - by right.
  - right. left. by exists h.
  - by right.
  - right. right. left. by exists p.
  - by right.
  - right. right. right. by exists p.
Qed.
End engine_wakeup.

(** ** Properties *)



(** C38. [on_task_completed] decrements [pending_tasks_] and notifies without
    [state_mutex_], and [notify_stop] requests the stop and notifies without
    the engine's mutex: either change can fall between the waiter's evaluation
    of its predicate and its going to sleep.  Then [loop] sleeps although no
    task is pending, or a worker sleeps although it was asked to stop, and
    nobody will wake it. *)
Theorem unlocked_notifications_can_be_lost {U} `{!Liburing U} (x : Scheduler) (w : rt_world U)
    (e : Engine U) :
  stop_requested_ x = false → pending_tasks_ w = 1%Z → work_or_stop false e = false →
  (∃ s, wk_reachable loop_ready false
       (λ a a' : sched_world U, zoom on_task_completed a = Ok tt a') (λ _ _, False)
       (MkSched x w) s ∧ pending_tasks_ (sched_rt (wk_shared s)) = 0%Z ∧ stuck loop_ready s) ∧
  (∃ s, wk_reachable (λ a : bool * Engine U, work_or_stop (fst a) (snd a)) false
       (λ a a', a' = (true, snd a)) (λ _ _, False) (false, e) s ∧
     fst (wk_shared s) = true ∧
     stuck (λ a : bool * Engine U, work_or_stop (fst a) (snd a)) s).
Proof.
  intros Hst Hp He. split.
  - destruct (unlocked_stuck loop_ready false
      (λ a a' : sched_world U, zoom on_task_completed a = Ok tt a') (λ _ _, False)
      (MkSched x w) (MkSched x (set_pending_tasks 0 w))) as (s & Hr & Hsh & Hs).
    + done.
    + unfold loop_ready. cbn. by rewrite Hst, Hp.
    + unfold loop_ready. cbn. by rewrite Hst.
    + unfold zoom, on_task_completed, modify. cbn. by rewrite Hp.
    + exists s. by rewrite Hsh.
  - destruct (unlocked_stuck (λ a : bool * Engine U, work_or_stop (fst a) (snd a)) false
      (λ a a', a' = (true, snd a)) (λ _ _, False) (false, e) (true, e))
      as (s & Hr & Hsh & Hs); try done.
    exists s. by rewrite Hsh.
Qed.

Lemma unlocked_notifications_can_be_lost_witness :
  ∃ s, wk_reachable loop_ready false
    (λ a a' : sched_world sim_ring, zoom on_task_completed a = Ok tt a') (λ _ _, False)
    (MkSched Scheduler_default (MkRt ∅ ∅ 1%Z null)) s ∧
    pending_tasks_ (sched_rt (wk_shared s)) = 0%Z ∧ stuck loop_ready s.
Proof.
  exact (proj1 (unlocked_notifications_can_be_lost Scheduler_default (MkRt ∅ ∅ 1%Z null)
    (Engine_make (MkSimRing 256 [] [])) eq_refl eq_refl eq_refl)).
Defined.
