(* ===== verification/WhenAll.v ===== *)
(** * when_all (src/include/when_all.h)

    The version for vectors: the state the wrappers share, a wrapper as its
    atomic parts, the coroutine that waits and collects; then any interleaving
    of the wrappers.  The tuple version is in [WhenAllTuple]. *)

From S2P Require Import Prelude Runtime WaitGroup.

(** ** Data *)

(** [VectorState]; the tasks' outcomes are given separately. *)
Record when_all_state (V : Type) := MkWhenAll {
  wa_res : list (option V);
  wa_exception : option exn;
  wa_wg : WaitGroup;
}.
Arguments MkWhenAll {V}.
Arguments wa_res {V} _.
Arguments wa_exception {V} _.
Arguments wa_wg {V} _.

Section when_all.
Context {V : Type}.
Implicit Types (s : when_all_state V).

#[export, refine] Instance when_all_wg : Lens (when_all_state V) WaitGroup := {|
  lget := wa_wg;
  lset := λ w s, MkWhenAll (wa_res s) (wa_exception s) w;
|}.
Proof. all: by intros; repeat match goal with s : when_all_state V |- _ => destruct s end. Defined.

(** [std::make_shared<VectorState<T>>()] *)
Definition when_all_make : when_all_state V := MkWhenAll [] None WaitGroup_init.

Definition store_first_exception (ex : option exn) : M (when_all_state V) unit :=
  match ex with
  | None => ret tt
  | Some e =>
      let! s := get in
      match wa_exception s with
      | None => put (MkWhenAll (wa_res s) (Some e) (wa_wg s))
      | Some _ => ret tt
      end
  end.

(** [state->res[i].emplace(v)] *)
Definition emplace_result (i : nat) (v : V) : M (when_all_state V) unit :=
  let! s := get in
  let! _ := deref (wa_res s !! i) in
  put (MkWhenAll (<[i := Some v]> (wa_res s)) (wa_exception s) (wa_wg s)).

(** The try block of the wrapper of task [i], [r] being what [co_await] of the
    task gives. *)
Definition wrapper_store (i : nat) (r : V + exn) : M (when_all_state V) unit :=
  try_catch
    (match r with inl v => emplace_result i v | inr e => throw e end)
    (λ e, store_first_exception (Some e)).

(** [state->wg.done()]: the coroutines to resume. *)
Definition wrapper_done : M (when_all_state V) (list handle) := zoom wg_done_locked.

(** The whole wrapper. *)
Definition wrapper {S} `{!Runtime S} `{!Lens S (when_all_state V)} `{!Lens S WaitGroup}
    (i : nat) (r : V + exn) : M S unit :=
  zoom (wrapper_store i r);;; wg_done.

(** [when_all] up to the submission of the wrappers: [n] is [tasks.size()]. *)
Definition when_all_begin (n : nat) : M (when_all_state V) unit :=
  modify (λ s, MkWhenAll (replicate n None) (wa_exception s) (wa_wg s));;;
  zoom (wg_add (i32 (Z.of_nat n))).

(** [co_await state->wg.wait()]: whether the coroutine [h] suspends. *)
Definition when_all_wait (h : handle) : M (when_all_state V) bool :=
  let! ready := zoom WgAwaiter_await_ready in
  if ready : bool then ret false else zoom (WgAwaiter_await_suspend h).

(** The loop that moves the results out. *)
Fixpoint collect (res : list (option V)) (out : list V) : M (when_all_state V) (list V) :=
  match res with
  | [] => ret out
  | o :: res' => let! v := deref o in collect res' (out ++ [v])
  end.

(** What follows the wait. *)
Definition when_all_finish : M (when_all_state V) (list V) :=
  let! s := get in
  match wa_exception s with
  | Some e => throw e
  | None => collect (wa_res s) []
  end.

(** ** Any interleaving of the wrappers *)

Inductive wrapper_pc := WrRunning | WrStored | WrDone.

(** [wr_failed] records the exceptions in the order in which they were stored,
    [wr_woken] the coroutines resumed by [done]. *)
Record wa_run := MkWaRun {
  wr_state : when_all_state V;
  wr_pcs : list wrapper_pc;
  wr_failed : list exn;
  wr_suspended : list handle;
  wr_woken : list handle;
}.

Context (outcomes : list (V + exn)).

Definition failure (r : V + exn) : list exn := match r with inl _ => [] | inr e => [e] end.

Inductive wa_step : wa_run → wa_run → Prop :=
| wa_store s pcs fl su wo i r s' : pcs !! i = Some WrRunning → outcomes !! i = Some r →
    wrapper_store i r s = Ok tt s' →
    wa_step (MkWaRun s pcs fl su wo)
      (MkWaRun s' (<[i := WrStored]> pcs) (fl ++ failure r) su wo)
| wa_done s pcs fl su wo i hs s' : pcs !! i = Some WrStored →
    wrapper_done s = Ok hs s' →
    wa_step (MkWaRun s pcs fl su wo)
      (MkWaRun s' (<[i := WrDone]> pcs) fl su (wo ++ hs))
| wa_wait s pcs fl wo h b s' : when_all_wait h s = Ok b s' →
    wa_step (MkWaRun s pcs fl [] wo) (MkWaRun s' pcs fl (if b then [h] else []) wo).

(** The start: [when_all_begin] has run and every wrapper been submitted. *)
Definition wa_start (s : when_all_state V) : wa_run :=
  MkWaRun s (replicate (length outcomes) WrRunning) [] [] [].

Definition wa_reachable (r : wa_run) : Prop :=
  ∃ s, when_all_begin (length outcomes) when_all_make = Ok tt s ∧ rtc wa_step (wa_start s) r.

(** ** The invariant *)

(** What slot [i] holds, by the wrapper's progress. *)
Definition slot (pc : wrapper_pc) (r : V + exn) : option V :=
  match pc, r with
  | WrRunning, _ => None
  | _, inl v => Some v
  | _, inr _ => None
  end.

#[export] Instance wrapper_pc_eq_dec : EqDecision wrapper_pc.
Proof. solve_decision. Defined.

(** The wrappers that have not called [done]. *)
Definition still_running (pc : wrapper_pc) : nat :=
  match pc with WrDone => 0 | _ => 1 end.
Definition not_done (pcs : list wrapper_pc) : nat := sum_list_with still_running pcs.
#[local] Arguments not_done : simpl never.

Record wa_inv (r : wa_run) : Prop := {
  wai_pcs : length (wr_pcs r) = length outcomes;
  wai_res : wa_res (wr_state r) = zip_with slot (wr_pcs r) outcomes;
  wai_exception : wa_exception (wr_state r) = head (wr_failed r);
  wai_failed : ∀ e, e ∈ wr_failed r → inr e ∈ outcomes;
  wai_stored : ∀ i pc e, wr_pcs r !! i = Some pc → pc ≠ WrRunning →
    outcomes !! i = Some (inr e) → wr_failed r ≠ [];
  wai_count : count_ (wa_wg (wr_state r)) = Z.of_nat (not_done (wr_pcs r));
  wai_waiting : wr_suspended r = wr_woken r ++ wg_wait_queue_ (wa_wg (wr_state r));
  wai_idle : count_ (wa_wg (wr_state r)) = 0%Z → wg_wait_queue_ (wa_wg (wr_state r)) = [];
}.

Lemma not_done_insert pcs i pc : pcs !! i = Some pc →
  not_done (<[i := WrDone]> pcs) + still_running pc = not_done pcs ∧
  not_done (<[i := WrStored]> pcs) + still_running pc =
    not_done pcs + 1.
Proof.
  revert i. induction pcs as [|p pcs IH]; intros [|i]; cbn; try done.
  - intros [= ->]. unfold not_done. cbn. lia.
  - intros Hi. destruct (IH i Hi) as [E1 E2].
    change (still_running p + not_done (<[i := WrDone]> pcs) + still_running pc =
        still_running p + not_done pcs ∧
      still_running p + not_done (<[i := WrStored]> pcs) + still_running pc =
        still_running p + not_done pcs + 1). lia.
Qed.

Lemma not_done_bound pcs : not_done pcs ≤ length pcs.
Proof.
  induction pcs as [|p pcs IH]; [done|]. unfold not_done in *. cbn.
  destruct p; cbn; lia.
Qed.

Lemma not_done_zero pcs : not_done pcs = 0 → pcs = replicate (length pcs) WrDone.
Proof.
  induction pcs as [|p pcs IH]; [done|]. unfold not_done in *. cbn.
  destruct p; cbn; try lia. intros H. by rewrite <- IH.
Qed.

Lemma not_done_replicate n : not_done (replicate n WrRunning) = n.
Proof. induction n as [|n IH]; [done|]. unfold not_done in *. cbn. lia. Qed.

Lemma zip_slot_insert pcs i pc pc' r : pcs !! i = Some pc → outcomes !! i = Some r →
  zip_with slot (<[i := pc']> pcs) outcomes =
    <[i := slot pc' r]> (zip_with slot pcs outcomes).
Proof.
  intros Hpc Hr. rewrite insert_zip_with. f_equal. symmetry. by apply list_insert_id.
Qed.

Lemma slot_lookup pcs i pc r : pcs !! i = Some pc → outcomes !! i = Some r →
  zip_with slot pcs outcomes !! i = Some (slot pc r).
Proof. intros Hpc Hr. by rewrite lookup_zip_with, Hpc; cbn; rewrite Hr. Qed.

(** Storing always succeeds: the slot exists. *)
Lemma wrapper_store_eq i r s : is_Some (wa_res s !! i) →
  wrapper_store i r s = Ok tt
    (MkWhenAll
      (match r with inl v => <[i := Some v]> (wa_res s) | inr _ => wa_res s end)
      (match r with inl _ => wa_exception s
       | inr e => Some (default e (wa_exception s)) end) (wa_wg s)).
Proof.
  intros [o Ho]. destruct r as [v|e].
  - unfold wrapper_store, try_catch, emplace_result, bind, get. by rewrite Ho.
  - unfold wrapper_store, try_catch, store_first_exception, bind, get, throw.
    by destruct s as [res [e0|] w].
Qed.

Lemma wa_start_inv s : (Z.of_nat (length outcomes) < 2 ^ 31)%Z →
  when_all_begin (length outcomes) when_all_make = Ok tt s → wa_inv (wa_start s).
Proof.
  intros Hn Hb. unfold when_all_begin, when_all_make, zoom, wg_add, bind, modify in Hb.
  cbn -[i32] in Hb. injection Hb as <-. rewrite (i32_small (Z.of_nat _)), i32_small by lia.
  split; cbn.
  - apply length_replicate.
  - induction outcomes as [|r l IH]; [done|]. cbn. f_equal. apply IH. cbn in Hn. lia.
  - done.
  - by intros e ?%not_elem_of_nil.
  - intros i pc e Hi Hne. apply lookup_replicate in Hi as [-> _]. done.
  - by rewrite not_done_replicate.
  - done.
  - done.
Qed.

Lemma wa_store_inv s pcs fl su wo i r s' :
  wa_inv (MkWaRun s pcs fl su wo) → pcs !! i = Some WrRunning → outcomes !! i = Some r →
  wrapper_store i r s = Ok tt s' →
  wa_inv (MkWaRun s' (<[i := WrStored]> pcs) (fl ++ failure r) su wo).
Proof.
  intros [H1 H2 H3 H4 H5 H6 H7 H8] Hi Hr Hs. cbn in *.
  rewrite wrapper_store_eq in Hs by (rewrite H2; by erewrite slot_lookup; [eexists|..]).
  injection Hs as <-.
  pose proof (not_done_insert pcs i WrRunning Hi) as [_ Hnd].
  cbn [still_running] in Hnd.
  split; cbn; try done.
  - by rewrite length_insert.
  - rewrite (zip_slot_insert _ _ _ _ _ Hi Hr), H2. destruct r as [v|e]; [done|].
    symmetry. apply list_insert_id. exact (slot_lookup _ _ _ _ Hi Hr).
  - rewrite H3. destruct r as [v|e]; cbn; [by rewrite app_nil_r|]. by destruct fl.
  - intros e [He|He]%elem_of_app; [by apply H4|]. destruct r as [v|e']; cbn in He.
    + by apply not_elem_of_nil in He.
    + apply list_elem_of_singleton in He as ->. by eapply list_elem_of_lookup_2.
  - intros j pc e Hj Hne Hout. destruct (decide (i = j)) as [<-|Hij].
    + simplify_eq. cbn. by destruct fl.
    + rewrite list_lookup_insert_ne in Hj by done.
      pose proof (H5 j pc e Hj Hne Hout) as Hfl. by destruct fl.
  - rewrite H6. f_equal. apply (Nat.add_cancel_r _ _ 1). symmetry. exact Hnd.
Qed.

Lemma wa_done_inv s pcs fl su wo i hs s' :
  (Z.of_nat (length outcomes) < 2 ^ 31)%Z →
  wa_inv (MkWaRun s pcs fl su wo) → pcs !! i = Some WrStored → wrapper_done s = Ok hs s' →
  wa_inv (MkWaRun s' (<[i := WrDone]> pcs) fl su (wo ++ hs)).
Proof.
  intros Hn [H1 H2 H3 H4 H5 H6 H7 H8] Hi Hd. cbn in *.
  pose proof (not_done_insert pcs i WrStored Hi) as [Hnd _].
  cbn [still_running] in Hnd. pose proof (not_done_bound pcs) as Hb.
  destruct s as [res ex [n q]].
  cbn [wa_res wa_exception wa_wg count_ wg_wait_queue_] in *. unfold wrapper_done, zoom in Hd. cbn -[wg_done_locked] in Hd.
  rewrite wg_done_locked_pos in Hd by lia.
  assert (Hres : ∀ w, count_ w = Z.of_nat (not_done (<[i := WrDone]> pcs)) ∧
    su = (wo ++ hs) ++ wg_wait_queue_ w ∧ (count_ w = 0%Z → wg_wait_queue_ w = []) →
    wa_inv (MkWaRun (MkWhenAll res ex w) (<[i := WrDone]> pcs) fl su (wo ++ hs))).
  { intros w (E1 & E2 & E3). split; cbn; try done.
    - by rewrite length_insert.
    - destruct (lookup_lt_is_Some_2 outcomes i) as [r Hr].
      { rewrite <- H1. by eapply lookup_lt_Some. }
      rewrite (zip_slot_insert _ _ _ _ _ Hi Hr), H2. symmetry. apply list_insert_id.
      exact (slot_lookup _ _ _ _ Hi Hr).
    - intros j pc e Hj Hne Hout. destruct (decide (i = j)) as [<-|Hij].
      + by apply (H5 i WrStored e).
      + rewrite list_lookup_insert_ne in Hj by done. by apply (H5 j pc e). }
  destruct (Z.eqb_spec n 1); injection Hd as <- <-; apply Hres; cbn; split_and!; try lia; try done.
  - by rewrite H7, app_nil_r.
  - by rewrite H7, app_nil_r.
Qed.

Lemma wa_wait_inv s pcs fl wo h b s' :
  wa_inv (MkWaRun s pcs fl [] wo) → when_all_wait h s = Ok b s' →
  wa_inv (MkWaRun s' pcs fl (if b then [h] else []) wo).
Proof.
  intros Hinv Hw. pose proof Hinv as [H1 H2 H3 H4 H5 H6 H7 H8]. cbn in *.
  destruct s as [res ex [n q]]. cbn in *. unfold when_all_wait, zoom, bind, WgAwaiter_await_ready,
    gets, WgAwaiter_await_suspend, get, put, ret in Hw. cbn in Hw.
  destruct (n =? 0)%Z eqn:En; cbn in Hw; [by injection Hw as <- <-|].
  rewrite En in Hw. cbn in Hw. injection Hw as <- <-.
  destruct wo; [|done]. cbn in H7. subst q. split; cbn; try done.
  apply Z.eqb_neq in En. done.
Qed.

Lemma wa_reachable_inv r : (Z.of_nat (length outcomes) < 2 ^ 31)%Z →
  wa_reachable r → wa_inv r.
Proof.
  intros Hn (s & Hb & Hr). pose proof (wa_start_inv s Hn Hb) as Hi. revert Hi.
  induction Hr as [|r1 r2 r3 Hs _ IH]; [done|]. intros Hi. apply IH.
  destruct Hs; [by eapply wa_store_inv|by eapply wa_done_inv|by eapply wa_wait_inv].
Qed.

(** ** When every wrapper is done *)

Lemma collect_eq vs out s : collect (Some <$> vs) out s = Ok (out ++ vs) s.
Proof.
  revert out. induction vs as [|v vs IH]; intros out; cbn; [by rewrite app_nil_r|].
  unfold bind, ret. by rewrite IH, <- app_assoc.
Qed.

Lemma slots_done : (∀ e, inr e ∉ outcomes) →
  ∃ vs, outcomes = inl <$> vs ∧
    zip_with slot (replicate (length outcomes) WrDone) outcomes = Some <$> vs.
Proof.
  induction outcomes as [|[v|e] l IH]; intros Hno; [by exists []|..].
  - destruct IH as (vs & -> & Hz); [intros e He; apply (Hno e); by right|].
    exists (v :: vs). split; [done|]. cbn. by rewrite Hz.
  - destruct (Hno e). by left.
Qed.

Lemma wa_finish r : wa_inv r → not_done (wr_pcs r) = 0 →
  (∃ vs, outcomes = inl <$> vs ∧ when_all_finish (wr_state r) = Ok vs (wr_state r)) ∨
  (∃ e fl, wr_failed r = e :: fl ∧ inr e ∈ outcomes ∧
     when_all_finish (wr_state r) = Throw e (wr_state r)).
Proof.
  intros [H1 H2 H3 H4 H5 H6 H7 H8] Hz%not_done_zero.
  destruct (wr_failed r) as [|e fl] eqn:Ef.
  - left. rewrite Hz, H1 in H2.
    destruct slots_done as (vs & Ho & Hs).
    { intros e [i Hi]%list_elem_of_lookup. apply (H5 i WrDone e); [|done..].
      rewrite Hz. apply lookup_replicate_2. rewrite H1. by eapply lookup_lt_Some. }
    exists vs. split; [done|]. unfold when_all_finish, bind, get. rewrite H3. cbn.
    by rewrite H2, Hs, collect_eq.
  - right. exists e, fl. split_and!; [done|apply H4; left|].
    unfold when_all_finish, bind, get. by rewrite H3.
Qed.

(** [done] of a wrapper that has stored its result does not throw. *)
Lemma wrapper_done_ok r i : (Z.of_nat (length outcomes) < 2 ^ 31)%Z → wa_inv r →
  wr_pcs r !! i = Some WrStored → ∃ hs s', wrapper_done (wr_state r) = Ok hs s'.
Proof.
  intros Hn [H1 H2 H3 H4 H5 H6 H7 H8] Hi. destruct r as [s pcs fl su wo].
  cbn [wr_state wr_pcs wr_failed wr_suspended wr_woken] in *.
  pose proof (not_done_insert pcs i WrStored Hi) as [Hnd _]. cbn [still_running] in Hnd.
  pose proof (not_done_bound pcs) as Hb.
  unfold wrapper_done, zoom. destruct s as [res ex [n q]].
  cbn [lget when_all_wg wa_wg count_] in *. rewrite wg_done_locked_pos by lia.
  destruct (n =? 1)%Z; by eexists _, _.
Qed.

Lemma wa_progress r i pc : (Z.of_nat (length outcomes) < 2 ^ 31)%Z → wa_inv r →
  wr_pcs r !! i = Some pc → pc ≠ WrDone → ∃ r', wa_step r r'.
Proof.
  intros Hn Hinv Hi Hpc. destruct (lookup_lt_is_Some_2 outcomes i) as [o Ho].
  { rewrite <- (wai_pcs _ Hinv). by eapply lookup_lt_Some. }
  destruct pc; [| |done].
  - destruct r as [s pcs fl su wo]. eexists. eapply wa_store; [done|done|]. apply wrapper_store_eq.
    pose proof (wai_res _ Hinv) as H2. cbn in H2, Hi.
    rewrite H2, (slot_lookup _ _ _ _ Hi Ho). by eexists.
  - destruct (wrapper_done_ok r i Hn Hinv Hi) as (hs & s' & Hd). destruct r as [s pcs fl su wo].
    eexists. by eapply wa_done.
Qed.

Lemma wa_all_done r : wa_inv r → (∀ i pc, wr_pcs r !! i = Some pc → pc = WrDone) →
  wr_woken r = wr_suspended r ∧
  (∀ h, when_all_wait h (wr_state r) = Ok false (wr_state r)) ∧ not_done (wr_pcs r) = 0.
Proof.
  intros Hi Hall.
  assert (Hz : not_done (wr_pcs r) = 0).
  { clear -Hall. induction (wr_pcs r) as [|p pcs IH]; [done|].
    pose proof (Hall 0 p eq_refl) as ->. apply IH. intros i pc Hi. by apply (Hall (S i)). }
  assert (Hc : count_ (wa_wg (wr_state r)) = 0%Z) by (by rewrite (wai_count _ Hi), Hz).
  split_and!; [| |done].
  - rewrite (wai_waiting _ Hi), (wai_idle _ Hi Hc). by rewrite app_nil_r.
  - intros h. destruct (wr_state r) as [res ex [n q]]. cbn in Hc. subst n. done.
Qed.
End when_all.

(** ** Properties *)

(** C20. [when_all] of fewer than 2^31 tasks, under any interleaving of the
    wrappers and of the waiting coroutine: a wrapper that is not done can
    always go on; once all are done the waiting coroutine has been resumed
    exactly once, or does not suspend; and then the result is the list of the
    tasks' values in the order of the tasks, whatever the order in which they
    finished, or the exception that was stored first, which is one of the
    tasks' own.  No empty [optional] is ever dereferenced. *)
Theorem when_all_result {V} (outcomes : list (V + exn)) r :
  (Z.of_nat (length outcomes) < 2 ^ 31)%Z → wa_reachable outcomes r →
  (∀ i pc, wr_pcs r !! i = Some pc → pc ≠ WrDone → ∃ r', wa_step outcomes r r') ∧
  ((∀ i pc, wr_pcs r !! i = Some pc → pc = WrDone) →
   wr_woken r = wr_suspended r ∧
   (∀ h, when_all_wait h (wr_state r) = Ok false (wr_state r)) ∧
   ((∃ vs, outcomes = inl <$> vs ∧ when_all_finish (wr_state r) = Ok vs (wr_state r)) ∨
    (∃ e fl, wr_failed r = e :: fl ∧ inr e ∈ outcomes ∧
       when_all_finish (wr_state r) = Throw e (wr_state r)))).
Proof.
  intros Hn Hr. pose proof (wa_reachable_inv outcomes r Hn Hr) as Hi. split.
  - intros i pc. by apply wa_progress.
  - intros Hall. destruct (wa_all_done outcomes r Hi Hall) as (H1 & H2 & Hz).
    split_and!; [done|done|]. by apply wa_finish.
Qed.

Definition demo_outcomes : list (Z + exn) := [inl 1%Z; inr (user_exception 2); inl 3%Z].

(** The coroutine 9 waits; the wrappers finish in the order 2, 1, 0. *)
Definition demo_wa_done : wa_run (V := Z) :=
  MkWaRun (MkWhenAll [Some 1%Z; None; Some 3%Z] (Some (user_exception 2)) (MkWaitGroup 0 []))
    [WrDone; WrDone; WrDone] [user_exception 2] [9%N] [9%N].

Lemma demo_wa_reachable : wa_reachable demo_outcomes demo_wa_done.
Proof.
  eexists. split; [reflexivity|].
  eapply rtc_l; [eapply (wa_store _ _ _ _ _ _ 2); reflexivity|].
  eapply rtc_l; [eapply (wa_done _ _ _ _ _ _ 2); reflexivity|].
  eapply rtc_l; [eapply (wa_wait _ _ _ _ _ 9%N); reflexivity|].
  eapply rtc_l; [eapply (wa_store _ _ _ _ _ _ 1); reflexivity|].
  eapply rtc_l; [eapply (wa_store _ _ _ _ _ _ 0); reflexivity|].
  eapply rtc_l; [eapply (wa_done _ _ _ _ _ _ 1); reflexivity|].
  eapply rtc_l; [eapply (wa_done _ _ _ _ _ _ 0); reflexivity|].
  apply rtc_refl.
Defined.

Lemma when_all_result_witness :
  wa_reachable demo_outcomes demo_wa_done ∧
  when_all_finish (wr_state demo_wa_done) = Throw (user_exception 2) (wr_state demo_wa_done).
Proof.
  split; [exact demo_wa_reachable|].
  destruct (proj2 (when_all_result demo_outcomes demo_wa_done eq_refl demo_wa_reachable))
    as (_ & _ & [(vs & _ & H)|(e & fl & E & _ & H)]).
  - intros i pc Hi. apply list_elem_of_lookup_2 in Hi. cbn in Hi. set_solver.
  - discriminate H.
  - injection E as <- <-. exact H.
Defined.
