(* ===== verification/WhenAllTuple.v ===== *)
(** * when_all of tasks of different types (src/include/when_all.h)

    [TupleState], [wrapper<N>], [unwrap_tuple_result], [when_all_impl] and the
    variadic [when_all]: a tuple of slots indexed by its list of types.  Seen
    without the types it is the vector version. *)

From S2P Require Import Prelude Runtime WaitGroup WhenAll.

(** ** Tuples *)

(** [std::tuple<f<Ts>...>] *)
Fixpoint tuple (f : Type → Type) (Ts : list Type) : Type :=
  match Ts with [] => unit | T :: Ts' => f T * tuple f Ts' end.

(** A constant index [N] with the type [std::tuple_element] gives it. *)
Inductive index : list Type → Type → Type :=
| idx_here T Ts : index (T :: Ts) T
| idx_there T T' Ts : index Ts T → index (T' :: Ts) T.
Arguments idx_here {T Ts}.
Arguments idx_there {T T' Ts} _.

Fixpoint index_nat {Ts T} (i : index Ts T) : nat :=
  match i with idx_here => 0 | idx_there i' => S (index_nat i') end.

(** [std::get<N>], reading and writing. *)
Fixpoint tuple_get {f : Type → Type} {Ts T} (i : index Ts T) : tuple f Ts → f T :=
  match i in index Ts T return tuple f Ts → f T with
  | idx_here => λ t, fst t
  | idx_there i' => λ t, tuple_get i' (snd t)
  end.
Fixpoint tuple_set {f : Type → Type} {Ts T} (i : index Ts T) (x : f T) : tuple f Ts → tuple f Ts :=
  match i in index Ts T return f T → tuple f Ts → tuple f Ts with
  | idx_here => λ x t, (x, snd t)
  | idx_there i' => λ x t, (fst t, tuple_set i' x (snd t))
  end x.

Fixpoint tuple_map {f g : Type → Type} (h : ∀ T, f T → g T) {Ts} : tuple f Ts → tuple g Ts :=
  match Ts with [] => λ t, t | T :: Ts' => λ t, (h T (fst t), tuple_map h (snd t)) end.

(** ** Data and operations *)

Abbreviation slots := (tuple (λ T, option T)).
Abbreviation values := (tuple (λ T, T)).
Abbreviation results := (tuple (λ T, T + exn)%type).

Record TupleState (Ts : list Type) := MkTupleState {
  ts_res : slots Ts;
  ts_exception : option exn;
  ts_wg : WaitGroup;
}.
Arguments MkTupleState {Ts}.
Arguments ts_res {Ts} _.
Arguments ts_exception {Ts} _.
Arguments ts_wg {Ts} _.

Section when_all_tuple.
Context {Ts : list Type}.
Implicit Types (s : TupleState Ts).

#[export, refine] Instance tuple_state_wg : Lens (TupleState Ts) WaitGroup := {|
  lget := ts_wg;
  lset := λ w s, MkTupleState (ts_res s) (ts_exception s) w;
|}.
Proof. all: by intros; repeat match goal with s : TupleState Ts |- _ => destruct s end. Defined.

(** [std::make_shared<TupleState<Ts...>>()]: every [optional] is empty. *)
Fixpoint tuple_empty (l : list Type) : slots l :=
  match l with [] => tt | T :: l' => (None, tuple_empty l') end.
Definition tuple_state_make : TupleState Ts := MkTupleState (tuple_empty Ts) None WaitGroup_init.

(** [store_first_exception] of this state *)
Definition tuple_store_first_exception (ex : option exn) : M (TupleState Ts) unit :=
  match ex with
  | None => ret tt
  | Some e =>
      let! s := get in
      match ts_exception s with
      | None => put (MkTupleState (ts_res s) (Some e) (ts_wg s))
      | Some _ => ret tt
      end
  end.

(** [wrapper<N>] in its two parts; [r] is what [co_await] of the task gives. *)
Definition tuple_wrapper_store {T} (i : index Ts T) (r : T + exn) : M (TupleState Ts) unit :=
  try_catch
    (match r with
     | inl v => modify (λ s, MkTupleState (tuple_set i (Some v) (ts_res s)) (ts_exception s) (ts_wg s))
     | inr e => throw e
     end)
    (λ e, tuple_store_first_exception (Some e)).
Definition tuple_wrapper_done : M (TupleState Ts) (list handle) := zoom wg_done_locked.

(** The variadic [when_all]: [state->wg.add(n)]. *)
Definition tuple_when_all_begin : M (TupleState Ts) unit :=
  zoom (wg_add (i32 (Z.of_nat (length Ts)))).

(** [when_all_impl]: [co_await state->wg.wait()], and what follows it. *)
Definition tuple_when_all_wait (h : handle) : M (TupleState Ts) bool :=
  let! ready := zoom WgAwaiter_await_ready in
  if ready : bool then ret false else zoom (WgAwaiter_await_suspend h).

(** [std::tuple<Ts...>{std::move( *std::get<Is>(res))...}], from left to
    right. *)
Fixpoint unwrap_tuple_result {S} (l : list Type) : slots l → M S (values l) :=
  match l with
  | [] => λ _, ret tt
  | T :: l' => λ res,
      let! v := deref (fst res) in
      let! vs := unwrap_tuple_result l' (snd res) in
      ret (v, vs)
  end.

Definition when_all_impl_finish : M (TupleState Ts) (values Ts) :=
  let! s := get in
  match ts_exception s with
  | Some e => throw e
  | None => unwrap_tuple_result Ts (ts_res s)
  end.
End when_all_tuple.
Arguments TupleState Ts : clear implicits.

(** ** Without the types *)

(** A value of some type. *)
Definition dyn : Type := sigT (λ T : Type, T).
Definition to_dyn {T} (v : T) : dyn := existT T v.
Definition result_dyn {T} (r : T + exn) : dyn + exn :=
  match r with inl v => inl (to_dyn v) | inr e => inr e end.

(** The components in a list. *)
Fixpoint tuple_list {f : Type → Type} {B : Type} (h : ∀ T, f T → B) {Ts} : tuple f Ts → list B :=
  match Ts with [] => λ _, [] | T :: Ts' => λ t, h T (fst t) :: tuple_list h (snd t) end.

Definition slots_dyn {Ts} : slots Ts → list (option dyn) :=
  tuple_list (f := λ T, option T) (λ T o, option_map (to_dyn (T := T)) o).
Definition values_dyn {Ts} : values Ts → list dyn := tuple_list (f := λ T, T) (λ T v, to_dyn v).
Definition results_dyn {Ts} : results Ts → list (dyn + exn) := tuple_list (f := λ T, (T + exn)%type) (λ T r, result_dyn r).

Definition to_vector {Ts} (s : TupleState Ts) : when_all_state dyn :=
  MkWhenAll (slots_dyn (ts_res s)) (ts_exception s) (ts_wg s).

Definition outcome_map {S S' A A'} (f : A → A') (g : S → S') (o : outcome S A) : outcome S' A' :=
  match o with
  | Ok a s => Ok (f a) (g s)
  | Throw e s => Throw e (g s)
  | UB => UB
  | Terminate => Terminate
  | NoFuel => NoFuel
  end.

Lemma tuple_list_length {f B} (h : ∀ T, f T → B) {Ts} (t : tuple f Ts) :
  length (tuple_list h t) = length Ts.
Proof. induction Ts as [|T Ts IH]; [done|]. cbn. by rewrite IH. Qed.

Lemma tuple_list_lookup {f B} (h : ∀ T, f T → B) {Ts T} (i : index Ts T) (t : tuple f Ts) :
  tuple_list h t !! index_nat i = Some (h T (tuple_get i t)).
Proof. induction i as [|T T' Ts i IH]; [done|]. cbn. apply IH. Qed.

Lemma tuple_list_set {f B} (h : ∀ T, f T → B) {Ts T} (i : index Ts T) (x : f T) (t : tuple f Ts) :
  tuple_list h (tuple_set i x t) = <[index_nat i := h T x]> (tuple_list h t).
Proof. induction i as [|T T' Ts i IH]; [done|]. cbn. by rewrite IH. Qed.

Lemma slots_dyn_empty Ts : slots_dyn (tuple_empty Ts) = replicate (length Ts) None.
Proof. unfold slots_dyn. induction Ts as [|T Ts IH]; [done|]. cbn. by rewrite IH. Qed.

Lemma collect_unwrap {Ts S} (t : slots Ts) out (s : S) (s' : when_all_state dyn) :
  collect (slots_dyn t) out s' = outcome_map (λ vs, out ++ values_dyn vs) (λ _, s')
    (unwrap_tuple_result Ts t s).
Proof.
  unfold slots_dyn, values_dyn. revert out. induction Ts as [|T Ts IH]; intros out; cbn.
  { by rewrite app_nil_r. }
  destruct t as [[v|] t]; cbn; [|done]. unfold bind at 1. cbn. rewrite IH.
  unfold bind. cbn. destruct (unwrap_tuple_result Ts t s); cbn; try done.
  by rewrite <- app_assoc.
Qed.

(** The result of unwrapping does not change the state. *)
Lemma unwrap_state {Ts S} (t : slots Ts) (s : S) :
  match unwrap_tuple_result Ts t s with Ok _ s' | Throw _ s' => s' = s | _ => True end.
Proof.
  induction Ts as [|T Ts IH]; [done|]. destruct t as [[v|] t]; cbn; [|done].
  unfold bind. cbn. specialize (IH t). by destruct (unwrap_tuple_result Ts t s).
Qed.

(** ** Runs of the wrappers *)

Section runs.
Context {Ts : list Type} (outcomes : results Ts).

Record tw_run := MkTwRun {
  tw_state : TupleState Ts;
  tw_pcs : list wrapper_pc;
  tw_failed : list exn;
  tw_suspended : list handle;
  tw_woken : list handle;
}.

Inductive tw_step : tw_run → tw_run → Prop :=
| tw_store s pcs fl su wo T (i : index Ts T) s' : pcs !! index_nat i = Some WrRunning →
    tuple_wrapper_store i (tuple_get i outcomes) s = Ok tt s' →
    tw_step (MkTwRun s pcs fl su wo)
      (MkTwRun s' (<[index_nat i := WrStored]> pcs) (fl ++ failure (tuple_get i outcomes)) su wo)
| tw_done s pcs fl su wo T (i : index Ts T) hs s' : pcs !! index_nat i = Some WrStored →
    tuple_wrapper_done s = Ok hs s' →
    tw_step (MkTwRun s pcs fl su wo) (MkTwRun s' (<[index_nat i := WrDone]> pcs) fl su (wo ++ hs))
| tw_wait s pcs fl wo h b s' : tuple_when_all_wait h s = Ok b s' →
    tw_step (MkTwRun s pcs fl [] wo) (MkTwRun s' pcs fl (if b then [h] else []) wo).

(** [when_all] has run and [when_all_impl] has submitted every wrapper. *)
Definition tw_start (s : TupleState Ts) : tw_run :=
  MkTwRun s (replicate (length Ts) WrRunning) [] [] [].

Definition tw_reachable (r : tw_run) : Prop :=
  ∃ s, tuple_when_all_begin tuple_state_make = Ok tt s ∧ rtc tw_step (tw_start s) r.

(** The run of the vector version it stands for. *)
Definition run_dyn (r : tw_run) : wa_run :=
  MkWaRun (to_vector (tw_state r)) (tw_pcs r) (tw_failed r) (tw_suspended r) (tw_woken r).
End runs.
Arguments tw_run Ts : clear implicits.

(** ** The operations are those of the vector version *)

Section simulation.
Context {Ts : list Type}.
Implicit Types (s : TupleState Ts).

Lemma begin_sim : when_all_begin (length Ts) when_all_make =
  outcome_map (λ u, u) to_vector (tuple_when_all_begin (Ts := Ts) tuple_state_make).
Proof.
  unfold when_all_begin, when_all_make, tuple_when_all_begin, tuple_state_make, to_vector, zoom,
    wg_add, bind, modify. cbn -[i32 WaitGroup_init]. by rewrite slots_dyn_empty.
Qed.

Lemma store_sim {T} (i : index Ts T) (r : T + exn) s :
  wrapper_store (index_nat i) (result_dyn r) (to_vector s) =
    outcome_map (λ u, u) to_vector (tuple_wrapper_store i r s).
Proof.
  destruct r as [v|e].
  - unfold wrapper_store, tuple_wrapper_store, try_catch, emplace_result, bind, get, modify. cbn.
    unfold slots_dyn at 1. rewrite tuple_list_lookup. cbn. unfold to_vector, slots_dyn. cbn.
    by rewrite tuple_list_set.
  - unfold wrapper_store, tuple_wrapper_store, try_catch, store_first_exception,
      tuple_store_first_exception, bind, get, throw. cbn. by destruct (ts_exception s).
Qed.

Lemma done_sim s : wrapper_done (to_vector s) = outcome_map (λ hs, hs) to_vector (tuple_wrapper_done s).
Proof.
  unfold wrapper_done, tuple_wrapper_done, zoom. cbn -[wg_done_locked].
  by destruct (wg_done_locked (ts_wg s)).
Qed.

Lemma wait_sim h s :
  when_all_wait h (to_vector s) = outcome_map (λ b, b) to_vector (tuple_when_all_wait h s).
Proof.
  unfold when_all_wait, tuple_when_all_wait, zoom, bind. cbn.
  destruct (ts_wg s) as [n q]. cbn. destruct (n =? 0)%Z eqn:En; cbn; [done|].
  unfold WgAwaiter_await_suspend, bind, get. cbn. rewrite En. done.
Qed.

Lemma finish_sim s : when_all_finish (to_vector s) =
  outcome_map values_dyn to_vector (when_all_impl_finish s).
Proof.
  unfold when_all_finish, when_all_impl_finish, bind, get. cbn.
  destruct (ts_exception s); [done|]. rewrite (collect_unwrap _ _ s).
  pose proof (unwrap_state (ts_res s) s) as Hu. by destruct (unwrap_tuple_result Ts (ts_res s) s); subst.
Qed.
End simulation.

(** ** The invariant of the runs *)

(** A result is stored in the slot of its own component. *)
Fixpoint tuple_slots {Ts} (pcs : list wrapper_pc) : results Ts → slots Ts :=
  match Ts with
  | [] => λ _, tt
  | T :: Ts' => λ r, (slot (hd WrRunning pcs) (fst r), tuple_slots (tail pcs) (snd r))
  end.

Lemma tuple_slots_start Ts (outs : results Ts) :
  tuple_slots (replicate (length Ts) WrRunning) outs = tuple_empty Ts.
Proof. induction Ts as [|T Ts IH]; [done|]. cbn. f_equal. apply IH. Qed.

Lemma tuple_slots_set {Ts T} (i : index Ts T) pcs pc (outs : results Ts) :
  is_Some (pcs !! index_nat i) →
  tuple_set i (slot pc (tuple_get i outs)) (tuple_slots pcs outs) =
    tuple_slots (<[index_nat i := pc]> pcs) outs.
Proof.
  revert pcs. induction i as [T Ts|T T' Ts i IH]; intros [|p pcs] Hi; cbn in *;
    try (by destruct Hi). f_equal. by apply IH.
Qed.

Lemma tuple_slots_same {Ts T} (i : index Ts T) pcs (outs : results Ts) :
  pcs !! index_nat i = Some WrStored →
  tuple_slots (<[index_nat i := WrDone]> pcs) outs = tuple_slots pcs outs.
Proof.
  revert pcs. induction i as [T Ts|T T' Ts i IH]; intros [|p pcs] Hi; cbn in *; try done.
  - injection Hi as ->. cbn. by destruct (fst outs).
  - f_equal. by apply IH.
Qed.

Lemma tuple_slots_failed {Ts T} (i : index Ts T) pcs e (outs : results Ts) :
  is_Some (pcs !! index_nat i) → pcs !! index_nat i = Some WrRunning →
  tuple_get i outs = inr e →
  tuple_slots (<[index_nat i := WrStored]> pcs) outs = tuple_slots pcs outs.
Proof.
  intros _. revert pcs. induction i as [T Ts|T T' Ts i IH]; intros [|p pcs] Hi Ho; cbn in *; try done.
  - injection Hi as ->. by rewrite Ho.
  - f_equal. by apply IH.
Qed.

Lemma unwrap_done {Ts S} (outs : results Ts) (s s' : S) vals :
  unwrap_tuple_result Ts (tuple_slots (replicate (length Ts) WrDone) outs) s = Ok vals s' →
  outs = tuple_map (f := λ T, T) (g := λ T, (T + exn)%type) (λ T v, inl v) vals.
Proof.
  induction Ts as [|T Ts IH]; cbn; [by destruct outs, vals|]. destruct outs as [[v|e] outs]; cbn; [|done].
  unfold bind. cbn. destruct (unwrap_tuple_result Ts _ s) as [vs s1| | | |] eqn:E; try done.
  cbn. intros [= <- ->]. cbn. f_equal. by apply IH.
Qed.

(** Every position has an index. *)
Lemma index_at (Ts : list Type) k : k < length Ts → ∃ T (i : index Ts T), index_nat i = k.
Proof.
  revert k. induction Ts as [|T Ts IH]; intros [|k] Hk; cbn in *; try lia.
  - by exists T, idx_here.
  - destruct (IH k ltac:(lia)) as (T' & i & <-). by exists T', (idx_there i).
Qed.

Section tuple_runs.
Context {Ts : list Type} (outcomes : results Ts).
Implicit Types (r : tw_run Ts).

Lemma results_dyn_lookup {T} (i : index Ts T) :
  results_dyn outcomes !! index_nat i = Some (result_dyn (tuple_get i outcomes)).
Proof. unfold results_dyn. by rewrite tuple_list_lookup. Qed.

Lemma results_dyn_length : length (results_dyn outcomes) = length Ts.
Proof. apply tuple_list_length. Qed.

Lemma step_sim r r' : tw_step outcomes r r' →
  wa_step (results_dyn outcomes) (run_dyn r) (run_dyn r').
Proof.
  intros Hs. destruct Hs as [s pcs fl su wo T i s' Hi Hs|s pcs fl su wo T i hs s' Hi Hs|s pcs fl wo h b s' Hs].
  - assert (Hf : failure (tuple_get i outcomes) = failure (result_dyn (tuple_get i outcomes)))
      by by destruct (tuple_get i outcomes).
    unfold run_dyn. cbn. rewrite Hf. apply wa_store; [done|apply results_dyn_lookup|].
    by rewrite store_sim, Hs.
  - apply wa_done; [done|]. cbn [tw_state]. by rewrite done_sim, Hs.
  - apply wa_wait. cbn [tw_state]. by rewrite wait_sim, Hs.
Qed.

Lemma reachable_sim r : tw_reachable outcomes r → wa_reachable (results_dyn outcomes) (run_dyn r).
Proof.
  intros (s & Hb & Hr). exists (to_vector s). rewrite results_dyn_length. split.
  - by rewrite begin_sim, Hb.
  - unfold wa_start. rewrite results_dyn_length. change (MkWaRun _ _ _ _ _) with (run_dyn (tw_start s)).
    induction Hr as [|r1 r2 r3 H12 _ IH]; [done|]. eapply rtc_l; [by apply step_sim|done].
Qed.

Lemma store_slots {T} (i : index Ts T) s s' pcs :
  pcs !! index_nat i = Some WrRunning → ts_res s = tuple_slots pcs outcomes →
  tuple_wrapper_store i (tuple_get i outcomes) s = Ok tt s' →
  ts_res s' = tuple_slots (<[index_nat i := WrStored]> pcs) outcomes.
Proof.
  intros Hi Hs. destruct (tuple_get i outcomes) as [v|e] eqn:Eo.
  - unfold tuple_wrapper_store, try_catch, modify. intros [= <-]. cbn.
    rewrite <- (tuple_slots_set i) by by eexists. by rewrite Eo, <- Hs.
  - rewrite (tuple_slots_failed i _ e); [|by eexists|done|done]. rewrite <- Hs.
    unfold tuple_wrapper_store, try_catch, tuple_store_first_exception, bind, get, throw.
    destruct (ts_exception s); by intros [= <-].
Qed.

Lemma reachable_slots r : tw_reachable outcomes r →
  ts_res (tw_state r) = tuple_slots (tw_pcs r) outcomes.
Proof.
  intros (s & Hb & Hr).
  assert (H0 : ts_res (tw_state (tw_start s)) = tuple_slots (tw_pcs (tw_start s)) outcomes).
  { cbn. rewrite tuple_slots_start. by injection Hb as <-. }
  induction Hr as [|r1 r2 r3 Hs _ IH]; [done|]. apply IH. clear IH.
  destruct Hs as [s1 pcs fl su wo T i s' Hi Hs|s1 pcs fl su wo T i hs s' Hi Hs|s1 pcs fl wo h b s' Hs]; cbn in *.
  - by eapply store_slots.
  - rewrite (tuple_slots_same i) by done. rewrite <- H0. unfold tuple_wrapper_done, zoom in Hs.
    destruct (wg_done_locked _); try done. by injection Hs as ? <-.
  - rewrite <- H0. revert Hs. destruct s1 as [res ex [m q]].
    unfold tuple_when_all_wait, bind, zoom, WgAwaiter_await_suspend, get, put, ret, bind. cbn.
    destruct (m =? 0)%Z eqn:Em; cbn; [by intros [= _ <-]|]. rewrite Em. cbn. by intros [= _ <-].
Qed.

Lemma tuple_progress r k pc : (Z.of_nat (length Ts) < 2 ^ 31)%Z → tw_reachable outcomes r →
  tw_pcs r !! k = Some pc → pc ≠ WrDone → ∃ r', tw_step outcomes r r'.
Proof.
  intros Hn Hr Hk Hpc. pose proof (reachable_sim r Hr) as Hv.
  rewrite <- results_dyn_length in Hn. apply wa_reachable_inv in Hv; [|done].
  destruct (index_at Ts k) as (T & i & <-).
  { rewrite <- results_dyn_length, <- (wai_pcs _ _ Hv). by eapply lookup_lt_Some. }
  destruct pc; [| |done].
  - destruct r as [s pcs fl su wo]. cbn in Hk.
    assert (Hs : ∃ s', tuple_wrapper_store i (tuple_get i outcomes) s = Ok tt s').
    { unfold tuple_wrapper_store, try_catch, tuple_store_first_exception, bind, get, throw.
      destruct (tuple_get i outcomes); [by eexists|]. destruct (ts_exception s); by eexists. }
    destruct Hs as [s' Hs]. eexists. by eapply (tw_store outcomes _ _ _ _ _ _ i).
  - destruct (wrapper_done_ok _ (run_dyn r) _ Hn Hv Hk) as (hs & s' & Hd). cbn in Hd.
    rewrite done_sim in Hd. destruct r as [s pcs fl su wo]. cbn in Hk, Hd.
    destruct (tuple_wrapper_done s) eqn:E; try done. eexists. by eapply (tw_done outcomes _ _ _ _ _ _ i).
Qed.

Lemma tuple_finish r : (Z.of_nat (length Ts) < 2 ^ 31)%Z → tw_reachable outcomes r →
  (∀ i pc, tw_pcs r !! i = Some pc → pc = WrDone) →
  (∃ vals : values Ts, outcomes = tuple_map (f := λ T, T) (g := λ T, (T + exn)%type) (λ T v, inl v) vals ∧
     when_all_impl_finish (tw_state r) = Ok vals (tw_state r)) ∨
  (∃ e fl T (i : index Ts T), tw_failed r = e :: fl ∧ tuple_get i outcomes = inr e ∧
     when_all_impl_finish (tw_state r) = Throw e (tw_state r)).
Proof.
  intros Hn Hr Hall. pose proof (reachable_sim r Hr) as Hv. pose proof (reachable_slots r Hr) as Hsl.
  rewrite <- results_dyn_length in Hn. apply wa_reachable_inv in Hv; [|done].
  destruct (wa_all_done _ _ Hv Hall) as (_ & _ & Hz).
  assert (Hst : ∀ a s', when_all_impl_finish (tw_state r) = Ok a s' → s' = tw_state r).
  { intros a s'. unfold when_all_impl_finish, bind, get. destruct (ts_exception _); [done|].
    pose proof (unwrap_state (ts_res (tw_state r)) (tw_state r)) as Hu.
    destruct (unwrap_tuple_result _ _ _); try done. by intros [= _ <-]. }
  pose proof (finish_sim (tw_state r)) as Hsim.
  destruct (wa_finish _ _ Hv Hz) as [(vs & _ & Hf)|(e & fl & He & Hin & Hf)].
  - left. change (wr_state (run_dyn r)) with (to_vector (tw_state r)) in Hf. rewrite Hf in Hsim.
    destruct (when_all_impl_finish (tw_state r)) as [vals s'| | | |] eqn:E; try done.
    exists vals. pose proof (Hst _ _ eq_refl) as ->. split; [|done].
    apply not_done_zero in Hz. pose proof (wai_pcs _ _ Hv) as Hl.
    change (wr_pcs (run_dyn r)) with (tw_pcs r) in Hz, Hl. rewrite results_dyn_length in Hl.
    rewrite Hz, Hl in Hsl. unfold when_all_impl_finish, bind, get in E.
    destruct (ts_exception _); [done|]. rewrite Hsl in E. by eapply unwrap_done.
  - right. change (wr_state (run_dyn r)) with (to_vector (tw_state r)) in Hf. rewrite Hf in Hsim.
    apply list_elem_of_lookup in Hin as [k Hk].
    destruct (index_at Ts k) as (T & i & <-).
    { rewrite <- results_dyn_length. by eapply lookup_lt_Some. }
    exists e, fl, T, i. split; [done|]. rewrite results_dyn_lookup in Hk. split.
    { destruct (tuple_get i outcomes); [done|]. by injection Hk as ->. }
    unfold when_all_impl_finish, bind, get in *. destruct (ts_exception (tw_state r)) eqn:Ex.
    + by injection Hsim as <-.
    + pose proof (unwrap_state (ts_res (tw_state r)) (tw_state r)) as Hu.
      destruct (unwrap_tuple_result Ts _ _) eqn:Eu; try done. subst. by injection Hsim as <-.
Qed.
End tuple_runs.

(** ** Properties *)

(** C25. The tuple version is the vector version: with the types forgotten,
    starting, storing a result through [wrapper<N>], calling [done], waiting
    and unwrapping do the same to the state, return or throw the same, and
    dereference an empty [optional] in the same cases; the elements of the
    resulting tuple are those of the vector. *)
Theorem when_all_tuple_as_vector {Ts : list Type} :
  when_all_begin (length Ts) when_all_make =
    outcome_map (λ u, u) to_vector (tuple_when_all_begin (Ts := Ts) tuple_state_make) ∧
  ∀ s : TupleState Ts,
    (∀ T (i : index Ts T) (r : T + exn), wrapper_store (index_nat i) (result_dyn r) (to_vector s) =
       outcome_map (λ u, u) to_vector (tuple_wrapper_store i r s)) ∧
    wrapper_done (to_vector s) = outcome_map (λ hs, hs) to_vector (tuple_wrapper_done s) ∧
    (∀ h, when_all_wait h (to_vector s) =
       outcome_map (λ b, b) to_vector (tuple_when_all_wait h s)) ∧
    when_all_finish (to_vector s) = outcome_map values_dyn to_vector (when_all_impl_finish s).
Proof.
  split; [apply begin_sim|]. intros s.
  split_and!; [intros; apply store_sim|apply done_sim|intros; apply wait_sim|apply finish_sim].
Qed.

(** C14. [when_all] of fewer than 2^31 tasks of any types, under any
    interleaving of the wrappers and of the waiting coroutine: a wrapper that
    is not done can always go on; once all are done the waiting coroutine has
    been resumed exactly once, or does not suspend, and the result is the
    tuple of the tasks' values, each of its own type and in its own place, or
    the exception that was stored first, which is one of the tasks' own. *)
Theorem when_all_tuple_result {Ts : list Type} (outcomes : results Ts) (r : tw_run Ts) :
  (Z.of_nat (length Ts) < 2 ^ 31)%Z → tw_reachable outcomes r →
  (∀ k pc, tw_pcs r !! k = Some pc → pc ≠ WrDone → ∃ r', tw_step outcomes r r') ∧
  ((∀ k pc, tw_pcs r !! k = Some pc → pc = WrDone) →
   tw_woken r = tw_suspended r ∧
   (∀ h, tuple_when_all_wait h (tw_state r) = Ok false (tw_state r)) ∧
   ((∃ vals : values Ts,
       outcomes = tuple_map (f := λ T, T) (g := λ T, (T + exn)%type) (λ T v, inl v) vals ∧
       when_all_impl_finish (tw_state r) = Ok vals (tw_state r)) ∨
    (∃ e fl T (i : index Ts T), tw_failed r = e :: fl ∧ tuple_get i outcomes = inr e ∧
       when_all_impl_finish (tw_state r) = Throw e (tw_state r)))).
Proof.
  intros Hn Hr. split; [intros k pc; by apply tuple_progress|]. intros Hall.
  pose proof (reachable_sim outcomes r Hr) as Hv.
  pose proof Hn as Hn'. rewrite <- (results_dyn_length outcomes) in Hn'.
  apply wa_reachable_inv in Hv; [|done].
  destruct (wa_all_done _ _ Hv Hall) as (H1 & H2 & Hz).
  split_and!; [done| |by apply tuple_finish].
  intros h. pose proof (wai_count _ _ Hv) as Hc. rewrite Hz in Hc.
  change (count_ (ts_wg (tw_state r)) = 0%Z) in Hc. clear -Hc.
  destruct (tw_state r) as [res ex [n q]]. cbn in Hc. by subst n.
Qed.

Definition demo_types : list Type := [Z : Type; bool : Type].
Definition demo_results : results demo_types := (inl 1%Z, (inl true, tt)).

(** The coroutine 9 waits; the second wrapper is the first to finish. *)
Definition demo_tuple_done : tw_run demo_types :=
  MkTwRun (MkTupleState (Ts := demo_types) (Some 1%Z, (Some true, tt)) None (MkWaitGroup 0 []))
    [WrDone; WrDone] [] [9%N] [9%N].

Lemma demo_tuple_reachable : tw_reachable demo_results demo_tuple_done.
Proof.
  eexists. split; [reflexivity|].
  eapply rtc_l; [apply (tw_store demo_results _ _ _ _ _ bool (idx_there idx_here)); reflexivity|].
  eapply rtc_l; [eapply (tw_done demo_results _ _ _ _ _ bool (idx_there idx_here)); reflexivity|].
  eapply rtc_l; [eapply (tw_wait demo_results _ _ _ _ 9%N); reflexivity|].
  eapply rtc_l; [apply (tw_store demo_results _ _ _ _ _ Z idx_here); reflexivity|].
  eapply rtc_l; [eapply (tw_done demo_results _ _ _ _ _ Z idx_here); reflexivity|].
  apply rtc_refl.
Defined.

Lemma when_all_tuple_result_witness :
  tw_reachable demo_results demo_tuple_done ∧
  when_all_impl_finish (tw_state demo_tuple_done) =
    Ok (1%Z, (true, tt)) (tw_state demo_tuple_done).
Proof.
  split; [exact demo_tuple_reachable|].
  destruct (proj2 (when_all_tuple_result demo_results demo_tuple_done eq_refl demo_tuple_reachable))
    as (_ & _ & [([a [b []]] & E & H)|(e & fl & T & i & E & _)]).
  - intros k pc Hk. apply list_elem_of_lookup_2 in Hk. cbn in Hk. set_solver.
  - injection E as <- <-. exact H.
  - discriminate E.
Defined.
