(* ===== verification/WhenAllLaunch.v ===== *)
(** * Launching the wrappers of when_all (src/include/when_all.h)

    The loop, or the fold over the indices, that calls each wrapper coroutine
    and gives it to [submit_to_scheduler]. *)

From S2P Require Import Prelude Runtime Uring Engine Task TaskRun Context ContextProps WorkerRun.

Open Scope Z_scope.

Section launch.
Context {U : Type} `{!Liburing U} {V : Type} (moved_from : V → V) (fuel : nat).
Implicit Types (w : rt_world U) (t : task_world V) (F : gmap handle (frame V)).

Abbreviation sys_world := (rt_world U * task_world V)%type.

(** [runtime::submit_to_scheduler(wrapper(i))], [b] being the wrapper's body. *)
Definition launch_wrapper (b : body V) : M sys_world unit :=
  let! h := zoom (coroutine_create b) in worker_submit_task moved_from fuel h.

(** For every task. *)
Definition launch_wrappers (bodies : list (body V)) : M sys_world unit :=
  for_each bodies launch_wrapper.

(** The current context with [hs] more in its queue, all of them counted. *)
Definition launched (c : ptr) (x : ContextObj U) (hs : list handle) w : rt_world U :=
  with_engine c x (set_tasks (task_queue_ (ctx_engine_ x) ++ hs) (ctx_engine_ x))
    (set_pending_tasks (u64 (pending_tasks_ w + Z.of_nat (length hs))) w).

(** The frames of the wrappers [hs]. *)
Definition with_wrappers (hs : list handle) (bodies : list (body V)) F : gmap handle (frame V) :=
  list_to_map (zip hs (root <$> bodies)) ∪ F.

Lemma create_eq b t : ∃ h, h ≠ null ∧ frames t !! h = None ∧
  coroutine_create b t = Ok h (set_frames (<[h := root b]> (frames t)) t).
Proof.
  set (h := fresh ({[null]} ∪ dom (frames t)) : ptr).
  assert (Hh : h ∉ ({[null]} ∪ dom (frames t) : gset ptr)) by apply is_fresh.
  exists h. split_and!; [set_solver|apply not_elem_of_dom; set_solver|done].
Qed.

Lemma launch_in_context c x w t bodies :
  running_in c x w → 0 ≤ pending_tasks_ w < 2 ^ 64 →
  ∃ hs, launch_wrappers bodies (w, t) =
      Ok tt (launched c x hs w, set_frames (with_wrappers hs bodies (frames t)) t) ∧
    length hs = length bodies ∧ NoDup hs ∧ Forall (λ h, h ≠ null ∧ frames t !! h = None) hs.
Proof.
  revert x w t. induction bodies as [|b bodies IH]; intros x w t Hr Hp.
  { exists []. split_and!; [|done|apply NoDup_nil_2|constructor].
    unfold launched, with_wrappers, launch_wrappers. cbn -[u64].
    rewrite app_nil_r, Z.add_0_r, u64_small by done. destruct Hr as (_ & _ & Hx).
    rewrite map_empty_union. unfold with_engine, set_pending_tasks, set_contexts. cbn.
    rewrite insert_id; [by destruct w, t|]. rewrite Hx. by destruct x as [? []]. }
  destruct (create_eq b t) as (h & Hh & Ht & Hc).
  set (t1 := set_frames (<[h := root b]> (frames t)) t) in *.
  pose proof (submit_task_in_context moved_from fuel c x w t1 h Hh Hr) as Hs.
  set (x1 := set_engine (set_tasks (task_queue_ (ctx_engine_ x) ++ [h]) (ctx_engine_ x)) x).
  set (w1 := with_engine c x _ _) in Hs.
  assert (Hr1 : running_in c x1 w1).
  { destruct Hr as (Hl & Hn & Hx). split_and!; [done|done|]. cbn. by rewrite lookup_insert_eq. }
  destruct (IH x1 w1 t1 Hr1 (u64_range _)) as (hs & Hrun & Hlen & Hnd & Hfr).
  assert (Hnin : h ∉ hs).
  { intros Hin. rewrite Forall_forall in Hfr. destruct (Hfr h Hin) as [_ E]. cbn in E.
    by rewrite lookup_insert_eq in E. }
  exists (h :: hs). split_and!.
  - unfold launch_wrappers in *. cbn [for_each]. unfold launch_wrapper at 1.
    rewrite (bind_ok _ _ _ tt (w1, t1)).
    2: { by rewrite (bind_ok _ _ _ h (w, t1)) by (unfold zoom; cbn [lget lset lens_snd snd fst]; by rewrite Hc). }
    rewrite Hrun. f_equal. f_equal.
    + unfold launched, with_engine, w1, x1, with_engine, set_contexts, set_pending_tasks, set_engine, set_tasks.
      cbn -[u64]. rewrite u64_add_l, <- app_assoc. cbn -[u64]. rewrite insert_insert_eq. f_equal.
      f_equal. lia.
    + unfold t1, set_frames, with_wrappers. cbn. f_equal.
      rewrite <- insert_union_l, insert_union_r; [done|].
      apply not_elem_of_list_to_map_1. rewrite fst_zip; [done|]. rewrite length_fmap. lia.
  - cbn. by rewrite Hlen.
  - by constructor.
  - constructor; [done|]. eapply Forall_impl; [exact Hfr|]. intros h' [Hn E]. split; [done|].
    cbn in E. by apply lookup_insert_None in E as [? _].
Qed.

Lemma launch_outside w t b bodies : local_context_ptr w = null →
  launch_wrappers (b :: bodies) (w, t) =
    Throw (logic_error "runtime::submit_to_scheduler() requires runtime context") (w, t).
Proof.
  intros Hl. destruct (create_eq b t) as (h & Hh & Ht & Hc).
  unfold launch_wrappers. cbn [for_each]. apply bind_throw. unfold launch_wrapper.
  rewrite (bind_ok _ _ _ h (w, set_frames (<[h := root b]> (frames t)) t))
    by (unfold zoom; cbn [lget lset lens_snd snd fst]; by rewrite Hc).
  apply submit_task_outside; [done|]. unfold set_frames. rewrite handle_destroy_root by done.
  by destruct t.
Qed.
End launch.

(** ** Properties *)

(** Launching the wrappers. In a context every wrapper becomes a new
    coroutine at the end of that context's queue, in the order of the tasks,
    and is counted in [pending_tasks_]; nothing else changes.  Outside a
    context the first submission throws, having destroyed the wrapper, and
    nothing has changed; without tasks nothing is submitted. *)
Theorem when_all_launch {U} `{!Liburing U} {V} (moved_from : V → V) fuel (w : rt_world U)
    (t : task_world V) (bodies : list (body V)) :
  0 ≤ pending_tasks_ w < 2 ^ 64 →
  (∀ c x, running_in c x w → ∃ hs,
     launch_wrappers moved_from fuel bodies (w, t) =
       Ok tt (launched c x hs w, set_frames (with_wrappers hs bodies (frames t)) t) ∧
     length hs = length bodies ∧ NoDup hs ∧ Forall (λ h, h ≠ null ∧ frames t !! h = None) hs) ∧
  (local_context_ptr w = null →
     launch_wrappers moved_from fuel bodies (w, t) =
       if bodies is [] then Ok tt (w, t)
       else Throw (logic_error "runtime::submit_to_scheduler() requires runtime context") (w, t)).
Proof.
  intros Hp. split.
  - intros c x Hr. by apply launch_in_context.
  - intros Hl. destruct bodies as [|b bodies]; [done|]. by apply launch_outside.
Qed.

Lemma when_all_launch_witness : ∃ s,
  launch_wrappers (λ _, 0) 0 [demo_yields; demo_throws] (demo_sys [] ∅) = Ok tt s ∧
  pending_tasks_ (fst s) = 2 ∧
  (∃ h1 h2, task_queue_ <$> (ctx_engine_ <$> rt_contexts (fst s) !! 1%N) = Some [h1; h2] ∧ h1 ≠ h2).
Proof.
  destruct (proj1 (when_all_launch (λ _, 0) 0%nat (fst (demo_sys [] ∅)) (snd (demo_sys [] ∅))
    [demo_yields; demo_throws] ltac:(cbn; lia)) 1%N
    (MkContext 0 (MkEngine [] [] [] [] (MkSimRing 256 [] []) 0 0 0) false []))
    as (hs & E & Hlen & Hnd & _).
  - by split_and!.
  - eexists. split; [exact E|]. destruct hs as [|h1 [|h2 [|]]]; try discriminate Hlen.
    split; [reflexivity|]. exists h1, h2. split; [reflexivity|].
    apply NoDup_cons in Hnd as [Hn _]. intros ->. apply Hn. by left.
Defined.
