(* ===== verification/System.v ===== *)
(** * The runtime as a whole

    A scheduler, its workers and their tasks: any number of threads submit,
    every worker runs its loop, one thread waits in [Scheduler::loop] and any
    number of threads call [Scheduler::stop].  Each step is one of the
    program's blocks, run by one thread on the shared state; a worker's place
    in [Context::run], a submitter's in [submit_new] and the place of a thread
    that shuts the runtime down are the ghost components of the state.  What
    the tasks are is a parameter, given by two instances: the coroutines of
    [Task], below, and the bodies of file Program, in file Fleet. *)

From S2P Require Import Prelude Runtime Uring Engine EngineProps Task TaskRun Context WorkerRun Dispatcher Scheduler.

Open Scope Z_scope.

(** ** States *)

(** A worker thread, in [Context::run]; [R] is what a running body has left. *)
Inductive worker_pc (R : Type) :=
| PIdle                                    (** before [process_work_once] *)
| PBatch (hs : list handle)                (** at the head of its loop, [hs] left *)
| PTurn (h : handle) (r : R) (hs : list handle) (** in [h.resume()] *)
| PResumed (h : handle) (hs : list handle) (** [h.resume()] has returned *)
| PExited.                                 (** has left [run] *)
Arguments PIdle {R}.
Arguments PBatch {R} hs.
Arguments PTurn {R} h r hs.
Arguments PResumed {R} h hs.
Arguments PExited {R}.

(** A thread in [shutdown_contexts], called from [loop] after its wait or from
    [stop] after its critical section. *)
Inductive closer_pc :=
| CEnter                         (** before the critical section *)
| CHolds (cs todo : list ptr).   (** has the contexts [cs]; [todo] of them are
                                     not notified yet, then they are joined *)

#[export] Instance exited_dec {R} (o : option (worker_pc R)) : Decision (o = Some PExited).
Proof. by destruct o as [[]|]; first [left; reflexivity|right]. Defined.
#[export] Instance closer_pc_eq_dec : EqDecision closer_pc.
Proof. solve_decision. Defined.

(** [sy_transit]: the threads in [submit_new] that have chosen a context and
    not yet put their task there.  [sy_waiting]: a thread is in the wait of [loop].
    [sy_rt] is the shared part of the runtime's state; its
    [local_context_ptr], each thread's own, is null. *)
Record system (U X R : Type) := MkSystem {
  sy_sched : Scheduler;
  sy_rt : rt_world U;
  sy_tasks : X;
  sy_workers : gmap ptr (worker_pc R);
  sy_transit : list (ptr * handle);
  sy_waiting : bool;
  sy_closers : list closer_pc;
}.
Arguments MkSystem {U X R}.
Arguments sy_sched {U X R} _.
Arguments sy_rt {U X R} _.
Arguments sy_tasks {U X R} _.
Arguments sy_workers {U X R} _.
Arguments sy_transit {U X R} _.
Arguments sy_waiting {U X R} _.
Arguments sy_closers {U X R} _.

(** Tasks as the runtime sees them: their coroutines' [done] and [destroy];
    [resume], given fuel, in parts between which the other threads' effects
    can fall, each saying what is left of it; which coroutines are at their
    end; and calling a new one, whose handle is [h]. *)
Record task_kind (U X R : Type) := MkTaskKind {
  tk_coroutines : Coroutines (rt_world U * X);
  tk_begin : nat → handle → M (rt_world U * X) (option R);
  tk_part : handle → R → M (rt_world U * X) (option R);
  tk_ended : X → handle → bool;
  tk_call : handle → X → X → Prop;
}.
Arguments MkTaskKind {U X R}.
Arguments tk_coroutines {U X R} _.
Arguments tk_begin {U X R} _.
Arguments tk_part {U X R} _.
Arguments tk_ended {U X R} _.
Arguments tk_call {U X R} _.

Section system.
Context {U : Type} `{!Liburing U} {X R : Type} (K : task_kind U X R).

(** The parts of [process_work_once], and [poll_io_once]. *)
Definition worker_pop (c : ptr) : M (rt_world U * X) (nat * list handle) := work_pop c.
Definition worker_resume (fuel : nat) (c : ptr) (h : handle) : M (rt_world U * X) (option R) :=
  zoom (in_engine c (zoom on_task_resume_begin));;; tk_begin K fuel h.
Definition worker_run (h : handle) (r : R) : M (rt_world U * X) (option R) := tk_part K h r.
Definition worker_finish (c : ptr) (h : handle) : M (rt_world U * X) unit :=
  turn_finish (Coroutines0 := tk_coroutines K) c h.
Definition worker_poll (c : ptr) : M (rt_world U * X) bool := poll_io_once c.
(** A whole iteration of the loop in [run], for a worker that finds no task. *)
Definition worker_iteration (c : ptr) : M (rt_world U * X) run_next :=
  run_iteration (Coroutines0 := tk_coroutines K) c.
(** [handle.destroy()] on a thread that is not a worker. *)
Definition task_destroy (h : handle) : M (rt_world U * X) unit :=
  co_destroy (Coroutines := tk_coroutines K) h.

(** [m] on the thread of [c]. *)
Definition on_worker {Y} (c : ptr) (m : M (rt_world U * X) Y) (w : rt_world U) (t : X)
    (a : Y) (w' : rt_world U) (t' : X) : Prop :=
  ∃ w1, m (set_local_context c w, t) = Ok a (w1, t') ∧ w' = set_local_context null w1.

(** Where the worker is after a part of [h.resume()]. *)
Definition pc_after (h : handle) (hs : list handle) (o : option R) : worker_pc R :=
  match o with Some r => PTurn h r hs | None => PResumed h hs end.

(** Something is to be waited for from the ring of [c]; without, a worker
    sleeps until a task comes or it is asked to stop. *)
Definition io_awaited (c : ptr) (w : rt_world U) : Prop :=
  ∃ x, rt_contexts w !! c = Some x ∧ inflight_io_ (ctx_engine_ x) ≠ 0.

(** ** Steps *)

(** A new task: the coroutine is called, and [submit_new] up to the end of its
    critical section.  [stop] is called
    while no other thread is inside [submit]; file SchedulerProps has what
    happens otherwise. *)
Inductive env_step : system U X R → system U X R → Prop :=
| sy_submit x w t pcs tr l ks h t' c x' w' :
    tk_call K h t t' → submit_locked (MkSched x w) = Ok (Some c) (MkSched x' w') →
    env_step (MkSystem x w t pcs tr l ks) (MkSystem x' w' t' pcs (tr ++ [(c, h)]) l ks)
| sy_refused x w t pcs tr l ks h t1 w' t' :
    tk_call K h t t1 → submit_locked (MkSched x w) = Ok None (MkSched x w) →
    task_destroy h (w, t1) = Ok tt (w', t') →
    env_step (MkSystem x w t pcs tr l ks) (MkSystem x w' t' pcs tr l ks)
| sy_stop x w t pcs l ks go x' :
    stop_locked x = Ok go x' →
    env_step (MkSystem x w t pcs [] l ks)
      (MkSystem x' w t pcs [] l (if go : bool then ks ++ [CEnter] else ks)).

Inductive work_step : system U X R → system U X R → Prop :=
| sy_deliver x w t pcs tr1 tr2 l ks c h w' :
    Context_submit_task c h w = Ok tt w' →
    work_step (MkSystem x w t pcs (tr1 ++ (c, h) :: tr2) l ks)
      (MkSystem x w' t pcs (tr1 ++ tr2) l ks)
| sy_pop x w t pcs tr l ks c n batch w' t' :
    pcs !! c = Some PIdle → on_worker c (worker_pop c) w t (n, batch) w' t' → n ≠ 0%nat →
    work_step (MkSystem x w t pcs tr l ks)
      (MkSystem x w' t' (<[c := PBatch batch]> pcs) tr l ks)
| sy_resume x w t pcs tr l ks c h hs fuel o w' t' :
    pcs !! c = Some (PBatch (h :: hs)) → on_worker c (worker_resume fuel c h) w t o w' t' →
    work_step (MkSystem x w t pcs tr l ks)
      (MkSystem x w' t' (<[c := pc_after h hs o]> pcs) tr l ks)
| sy_run x w t pcs tr l ks c h r hs o w' t' :
    pcs !! c = Some (PTurn h r hs) → on_worker c (worker_run h r) w t o w' t' →
    work_step (MkSystem x w t pcs tr l ks)
      (MkSystem x w' t' (<[c := pc_after h hs o]> pcs) tr l ks)
| sy_finish x w t pcs tr l ks c h hs w' t' :
    pcs !! c = Some (PResumed h hs) → on_worker c (worker_finish c h) w t tt w' t' →
    work_step (MkSystem x w t pcs tr l ks)
      (MkSystem x w' t' (<[c := PBatch hs]> pcs) tr l ks)
| sy_batch_end x w t pcs tr l ks c :
    pcs !! c = Some (PBatch []) →
    work_step (MkSystem x w t pcs tr l ks) (MkSystem x w t (<[c := PIdle]> pcs) tr l ks)
| sy_poll x w t pcs tr l ks c b w' t' :
    pcs !! c = Some PIdle → io_awaited c w → on_worker c (worker_poll c) w t b w' t' →
    work_step (MkSystem x w t pcs tr l ks) (MkSystem x w' t' pcs tr l ks)
| sy_exit x w t pcs tr l ks c w' t' :
    pcs !! c = Some PIdle → on_worker c (worker_iteration c) w t RunBreak w' t' →
    work_step (MkSystem x w t pcs tr l ks) (MkSystem x w' t' (<[c := PExited]> pcs) tr l ks)
| sy_leave x w t pcs tr ks :
    loop_ready (MkSched x w) = true →
    work_step (MkSystem x w t pcs tr true ks)
      (MkSystem (set_accepting false x) w t pcs tr false (ks ++ [CEnter]))
| sy_shutdown x w t pcs tr l ks1 ks2 cs x' :
    shutdown_locked x = Ok (Some cs) x' →
    work_step (MkSystem x w t pcs tr l (ks1 ++ CEnter :: ks2))
      (MkSystem x' w t pcs tr l (ks1 ++ CHolds cs cs :: ks2))
| sy_shutdown_off x w t pcs tr l ks1 ks2 x' :
    shutdown_locked x = Ok None x' →
    work_step (MkSystem x w t pcs tr l (ks1 ++ CEnter :: ks2))
      (MkSystem x' w t pcs tr l (ks1 ++ ks2))
| sy_notify x w t pcs tr l ks1 ks2 cs c todo w' :
    Context_notify_stop c w = Ok tt w' →
    work_step (MkSystem x w t pcs tr l (ks1 ++ CHolds cs (c :: todo) :: ks2))
      (MkSystem x w' t pcs tr l (ks1 ++ CHolds cs todo :: ks2))
| sy_joined x w t pcs tr l ks1 ks2 cs w' :
    Forall (λ c, pcs !! c = Some PExited) cs → shutdown_destroy cs w = Ok tt w' →
    work_step (MkSystem x w t pcs tr l (ks1 ++ CHolds cs [] :: ks2))
      (MkSystem x w' t ∅ tr l (ks1 ++ ks2)).

Definition sys_step (s s' : system U X R) : Prop := env_step s s' ∨ work_step s s'.

(** A scheduler initialized for [n] contexts; [t] holds the program's other
    coroutines. *)
Inductive sys_start (n : Z) (t : X) : system U X R → Prop :=
| sys_start_intro x w :
    Scheduler_init n (MkSched Scheduler_default (MkRt ∅ ∅ 0 null)) = Ok tt (MkSched x w) →
    sys_start n t
      (MkSystem x w t (gset_to_gmap PIdle (list_to_set (contexts_ x))) [] true []).

Definition sys_reachable (n : Z) (t : X) (s : system U X R) : Prop :=
  ∃ s0, sys_start n t s0 ∧ rtc sys_step s0 s.

(** ** What an observer sees *)

(** All threads have returned from [loop] and [stop]. *)
Definition closed (s : system U X R) : bool :=
  negb (sy_waiting s) && queue_empty (sy_closers s).

(** The tasks waiting for a worker: on their way, queued, in a batch. *)
Definition batch_of (p : worker_pc R) : list handle :=
  match p with PBatch hs | PTurn _ _ hs | PResumed _ hs => hs | _ => [] end.
Definition waiting (s : system U X R) : list handle :=
  (snd <$> sy_transit s) ++
  (map_to_list (rt_contexts (sy_rt s)) ≫= λ p, task_queue_ (ctx_engine_ (snd p))) ++
  (map_to_list (sy_workers s) ≫= λ p, batch_of (snd p)).

(** The tasks at their end whose worker has not come to destroy them. *)
Definition ending_of (t : X) (p : worker_pc R) : list handle :=
  match p with PResumed h _ => if tk_ended K t h then [h] else [] | _ => [] end.
Definition ending (s : system U X R) : list handle :=
  map_to_list (sy_workers s) ≫= λ p, ending_of (sy_tasks s) (snd p).
End system.

(** ** The coroutines of [Task]

    Resuming one touches nothing another thread does but its own queue, so it
    is one part. *)

Section tasks.
Context {U : Type} `{!Liburing U} {V : Type} (moved_from : V → V).

(** A task that suspends by [yield] in its own body, its frame [h]; the heap
    has room for one more. *)
Inductive task_call (h : handle) (t : task_world V) : task_world V → Prop :=
| task_call_intro b :
    h ≠ null → frames t !! h = None → flat b → Z.of_nat (size (frames t)) < 2 ^ 64 - 1 →
    task_call h t (set_frames (<[h := root b]> (frames t)) t).

Definition frame_ended (t : task_world V) (h : handle) : bool :=
  match frames t !! h with
  | Some f => match point_ f with PFinal => true | _ => false end
  | None => false
  end.

Definition tasks_of : task_kind U (task_world V) Empty_set := {|
  tk_coroutines := task_coroutines moved_from 0;
  tk_begin := λ fuel h, co_resume (Coroutines := task_coroutines moved_from fuel) h;;; ret None;
  tk_part := λ _ (r : Empty_set), match r with end;
  tk_ended := frame_ended;
  tk_call := task_call;
|}.
End tasks.
