(* ===== verification/SystemClose.v ===== *)
(** * Shutting the runtime down

    What the threads in [loop] and [stop] own of the scheduler on their way
    through [shutdown_contexts], whatever the tasks are: once the scheduler is
    not initialized any more, one thread has the contexts, asks their workers
    to stop, and destroys them. *)

From S2P Require Import Prelude Runtime Uring Engine EngineProps Context Dispatcher Scheduler SchedulerProps System.

Open Scope Z_scope.

(** ** Lists of contexts *)

(** A sum does not depend on the order. *)
Lemma sum_list_with_perm {X} (f : X → nat) l l' : l ≡ₚ l' → sum_list_with f l = sum_list_with f l'.
Proof. induction 1; cbn; lia. Qed.

Lemma bind_perm_app {X Y} (f g : X → list Y) l :
  (l ≫= λ x, f x ++ g x) ≡ₚ (l ≫= f) ++ (l ≫= g).
Proof.
  induction l as [|x l IH]; [done|]. cbn. rewrite IH, <- !app_assoc. f_equiv.
  rewrite !app_assoc. f_equiv. apply Permutation_app_comm.
Qed.

(** ** Who has the contexts *)

Section closing.
Implicit Types (D : gset ptr) (x : Scheduler) (ks : list closer_pc) (c : ptr).

(** The contexts a thread in [shutdown_contexts] has, and those it has not
    notified yet. *)
Definition holders ks : list (list ptr * list ptr) :=
  omap (λ k, match k with CHolds cs todo => Some (cs, todo) | CEnter => None end) ks.

(** Whether the context [c] has been asked to stop. *)
Definition stopping x ks c : bool :=
  if initialized_ x then false
  else match holders ks with (_, todo) :: _ => bool_decide (c ∉ todo) | [] => true end.

(** [D] are the contexts.  While the scheduler is initialized it has them all;
    once it is not, one thread has them until they are gone.  A scheduler that
    accepts nothing is being shut down. *)
Definition closing_ok D x (waiting : bool) ks : Prop :=
  (accepting_ x = true → initialized_ x = true ∧ waiting = true ∧ ks = [] ∧
     stop_requested_ x = false) ∧
  if initialized_ x then
    dispatcher_wf (dispatcher_ x) ∧
    Z.of_nat (length (contexts_ x)) = context_count_ (dispatcher_ x) ∧
    NoDup (contexts_ x) ∧ (∀ c, c ∈ contexts_ x ↔ c ∈ D) ∧
    holders ks = [] ∧ (accepting_ x = true ∨ ks ≠ [])
  else
    match holders ks with
    | [] => D = ∅
    | [(cs, todo)] => (∀ c, c ∈ cs ↔ c ∈ D) ∧ NoDup todo ∧ todo ⊆ cs
    | _ => False
    end.

(** How far the threads in [loop] and [stop] are from their end. *)
Definition closer_weight (n : nat) (k : closer_pc) : nat :=
  match k with CEnter => 2 + n | CHolds _ todo => 1 + length todo end.
Definition closing_weight D (waiting : bool) ks : nat :=
  ((if waiting then 3 + size D else 0) + sum_list_with (closer_weight (size D)) ks)%nat.

Lemma holders_app ks1 ks2 : holders (ks1 ++ ks2) = holders ks1 ++ holders ks2.
Proof. apply omap_app. Qed.

Lemma closers_weight n ks1 k ks2 :
  sum_list_with (closer_weight n) (ks1 ++ k :: ks2) =
    (closer_weight n k + sum_list_with (closer_weight n) (ks1 ++ ks2))%nat.
Proof. rewrite !sum_list_with_app. cbn. lia. Qed.

Lemma size_of_elements (cs : list ptr) D : NoDup cs → (∀ c, c ∈ cs ↔ c ∈ D) → length cs = size D.
Proof.
  intros Hn Hcs. rewrite <- (size_list_to_set (C := gset ptr) cs Hn). f_equal.
  apply set_eq. intros c. by rewrite elem_of_list_to_set.
Qed.

(** ** The steps *)

(** [loop] leaves its wait. *)
Lemma closing_leave D x ks : closing_ok D x true ks →
  let ks' := ks ++ [CEnter] in let x' := set_accepting false x in
  closing_ok D x' false ks' ∧ (∀ c, stopping x' ks' c = stopping x ks c) ∧
  (closing_weight D false ks' < closing_weight D true ks)%nat.
Proof.
  intros [Hacc Hcl] ks' x'.
  assert (Hh : holders ks' = holders ks) by (unfold ks'; rewrite holders_app; apply app_nil_r).
  split_and!.
  - unfold closing_ok, x'. rewrite Hh. cbn. split; [done|].
    destruct (initialized_ x); [|done].
    destruct Hcl as (H1 & H2 & H3 & H4 & H5 & H6). split_and!; try done. right. unfold ks'. by destruct ks.
  - intros c. unfold stopping, x'. rewrite Hh. done.
  - unfold closing_weight, ks'. rewrite sum_list_with_app. cbn. lia.
Qed.

(** A thread takes the contexts. *)
Lemma closing_shutdown D x l ks1 ks2 cs x' : closing_ok D x l (ks1 ++ CEnter :: ks2) →
  shutdown_locked x = Ok (Some cs) x' →
  let ks := ks1 ++ CEnter :: ks2 in let ks' := ks1 ++ CHolds cs cs :: ks2 in
  closing_ok D x' l ks' ∧ (∀ c, c ∈ D → stopping x' ks' c = stopping x ks c) ∧
  accepting_ x = false ∧ accepting_ x' = false ∧ stop_requested_ x' = stop_requested_ x ∧
  (closing_weight D l ks' < closing_weight D l ks)%nat.
Proof.
  intros [Hacc Hcl] Hlock ks ks'. unfold shutdown_locked, bind, get in Hlock.
  destruct (initialized_ x) eqn:Ei; [|done]. injection Hlock as <- <-.
  destruct Hcl as (H1 & H2 & H3 & H4 & H5 & H6).
  assert (Hfalse : accepting_ x = false).
  { destruct (accepting_ x); [|done]. destruct Hacc as (_ & _ & Hnil & _); [done|]. by destruct ks1. }
  assert (Hh : holders ks' = [(contexts_ x, contexts_ x)]).
  { rewrite holders_app in H5. apply app_eq_nil in H5 as [E1 E2]. cbn in E2.
    unfold ks'. rewrite holders_app, E1. cbn. unfold holders in E2 |- *. by rewrite E2. }
  split_and!; try done.
  - unfold closing_ok. rewrite Hh. cbn. rewrite Hfalse. by split_and!.
  - intros c Hc. unfold stopping. cbn. rewrite Hh, Ei. apply bool_decide_eq_false. intros Hn.
    by apply Hn, H4.
  - unfold closing_weight, ks, ks'. rewrite !closers_weight. cbn. rewrite (size_of_elements _ D H3 H4). lia.
Qed.

(** A thread finds that another has taken them. *)
Lemma closing_shutdown_off D x l ks1 ks2 x' : closing_ok D x l (ks1 ++ CEnter :: ks2) →
  shutdown_locked x = Ok None x' →
  let ks := ks1 ++ CEnter :: ks2 in let ks' := ks1 ++ ks2 in
  x' = x ∧ closing_ok D x l ks' ∧ (∀ c, stopping x ks' c = stopping x ks c) ∧
  (closing_weight D l ks' < closing_weight D l ks)%nat.
Proof.
  intros [Hacc Hcl] Hlock ks ks'. unfold shutdown_locked, bind, get in Hlock.
  destruct (initialized_ x) eqn:Ei; [done|]. injection Hlock as <-.
  assert (Hh : holders ks' = holders ks) by (unfold ks, ks'; by rewrite !holders_app).
  split_and!; try done.
  - unfold closing_ok. rewrite Hh, Ei. split; [|done].
    intros Ha. destruct (Hacc Ha) as (? & _). congruence.
  - intros c. unfold stopping. by rewrite Hh.
  - unfold closing_weight, ks, ks'. rewrite closers_weight. cbn. lia.
Qed.

(** The one thread that has the contexts. *)
Lemma closing_holds D x l ks1 ks2 cs todo : closing_ok D x l (ks1 ++ CHolds cs todo :: ks2) →
  initialized_ x = false ∧ accepting_ x = false ∧ holders ks1 = [] ∧ holders ks2 = [] ∧
  (∀ c, c ∈ cs ↔ c ∈ D) ∧ NoDup todo ∧ todo ⊆ cs ∧
  ∀ c, stopping x (ks1 ++ CHolds cs todo :: ks2) c = bool_decide (c ∉ todo).
Proof.
  set (ks := ks1 ++ CHolds cs todo :: ks2). intros [Hacc Hcl].
  assert (Hh : holders ks = holders ks1 ++ (cs, todo) :: holders ks2) by (unfold ks; by rewrite holders_app).
  destruct (initialized_ x) eqn:Ei.
  { destruct Hcl as (_ & _ & _ & _ & E & _). rewrite Hh in E. by destruct (holders ks1). }
  assert (Ha : accepting_ x = false).
  { destruct (accepting_ x); [|done]. by destruct Hacc. }
  unfold stopping. rewrite Ei. rewrite Hh in Hcl |- *.
  destruct (holders ks1) as [|[] [|]]; cbn in Hcl; try done.
  destruct (holders ks2); [|done]. destruct Hcl as (H1 & H2 & H3). by split_and!.
Qed.

(** It asks one worker to stop. *)
Lemma closing_notify D x l ks1 ks2 cs c todo : closing_ok D x l (ks1 ++ CHolds cs (c :: todo) :: ks2) →
  let ks := ks1 ++ CHolds cs (c :: todo) :: ks2 in let ks' := ks1 ++ CHolds cs todo :: ks2 in
  c ∈ D ∧ closing_ok D x l ks' ∧ stopping x ks c = false ∧
  (∀ c', stopping x ks' c' = if decide (c' = c) then true else stopping x ks c') ∧
  (closing_weight D l ks' < closing_weight D l ks)%nat.
Proof.
  intros H ks ks'. destruct (closing_holds _ _ _ _ _ _ _ H) as (Ei & Ea & E1 & E2 & Hcs & Hn & Hsub & Hst).
  apply NoDup_cons in Hn as [Hc Hn].
  assert (Hh : holders ks' = [(cs, todo)]).
  { unfold ks'. rewrite holders_app, E1. cbn. unfold holders in E2 |- *. by rewrite E2. }
  split_and!.
  - apply Hcs, Hsub. by left.
  - unfold closing_ok. rewrite Ei, Hh, Ea. split_and!; try done. set_solver.
  - unfold ks. rewrite Hst. apply bool_decide_eq_false. intros Hin. apply Hin. by left.
  - intros c'. unfold ks. rewrite Hst. unfold stopping. rewrite Ei, Hh. case_decide as E.
    + subst c'. by apply bool_decide_eq_true.
    + apply bool_decide_ext. rewrite elem_of_cons. naive_solver.
  - unfold closing_weight, ks, ks'. rewrite !closers_weight. cbn. lia.
Qed.

(** All workers have left; the contexts are destroyed. *)
Lemma closing_joined D x l ks1 ks2 cs : closing_ok D x l (ks1 ++ CHolds cs [] :: ks2) →
  let ks := ks1 ++ CHolds cs [] :: ks2 in let ks' := ks1 ++ ks2 in
  (∀ c, c ∈ cs ↔ c ∈ D) ∧ closing_ok ∅ x l ks' ∧ (closing_weight ∅ l ks' < closing_weight D l ks)%nat.
Proof.
  intros H ks ks'. destruct (closing_holds _ _ _ _ _ _ _ H) as (Ei & Ea & E1 & E2 & Hcs & _).
  split_and!; [done| |].
  - unfold closing_ok, ks'. rewrite Ei, holders_app, E1, E2, Ea. by split_and!.
  - unfold closing_weight, ks, ks'. rewrite closers_weight, size_empty. cbn.
    assert (Hle : ∀ ks, (sum_list_with (closer_weight 0) ks <= sum_list_with (closer_weight (size D)) ks)%nat).
    { induction ks0 as [|[|cs0 todo0] ks0 IH]; cbn; lia. }
    specialize (Hle (ks1 ++ ks2)). destruct l; lia.
Qed.

(** When all have returned no context is left. *)
Lemma closing_closed D x : closing_ok D x false [] → D = ∅.
Proof.
  intros [Hacc Hcl]. destruct (initialized_ x); [|done].
  destruct Hcl as (_ & _ & _ & _ & _ & [Ha|?]); [|done]. by destruct Hacc as (_ & ? & _).
Qed.

(** [stop]'s critical section. *)
Lemma closing_stop D x l ks go x' : closing_ok D x l ks → stop_locked x = Ok go x' →
  let ks' := if go then ks ++ [CEnter] else ks in
  closing_ok D x' l ks' ∧ (∀ c, stopping x' ks' c = stopping x ks c) ∧
  (go = false ∧ x' = x ∨ go = true ∧ accepting_ x' = false ∧ stop_requested_ x' = true).
Proof.
  intros [Hacc Hcl] Hst ks'. unfold stop_locked, bind, get in Hst.
  destruct (initialized_ x) eqn:Ei.
  - injection Hst as <- <-. destruct Hcl as (L1 & L2 & L3 & L4 & L5 & L6). unfold ks'.
    split_and!; [| |by right].
    + unfold closing_ok. cbn. rewrite Ei, holders_app, L5. split_and!; try done. right. by destruct ks.
    + intros c. unfold stopping. cbn. by rewrite Ei.
  - injection Hst as <- <-. unfold ks'. split_and!; [|done|by left]. unfold closing_ok. by rewrite Ei.
Qed.

(** A submission is accepted: it goes to a context, which is not asked to
    stop. *)
Lemma closing_submit D x l ks {U} `{!Liburing U} (w : rt_world U) o s' : closing_ok D x l ks →
  (∀ c, c ∈ D → c ≠ null ∧ is_Some (rt_contexts w !! c)) →
  submit_locked (MkSched x w) = Ok (Some o) s' →
  o ∈ D ∧ accepting_ x = true ∧ initialized_ x = true ∧ l = true ∧ ks = [] ∧ stop_requested_ x = false ∧
  ∃ x', s' = MkSched x' (set_pending_tasks (u64 (pending_tasks_ w + 1)) w) ∧
    closing_ok D x' l ks ∧ (∀ c, stopping x' ks c = stopping x ks c) ∧
    accepting_ x' = true ∧ stop_requested_ x' = false.
Proof.
  intros [Hacc Hcl] HD Hsub.
  assert (Hi : initialized_ x = true).
  { destruct (initialized_ x) eqn:E; [done|]. unfold submit_locked, bind, zoom, get in Hsub.
    cbn in Hsub. by rewrite E in Hsub. }
  rewrite Hi in Hcl. destruct Hcl as (L1 & L2 & L3 & L4 & L5 & L6).
  assert (Hwf : sched_wf (MkSched x w)).
  { split; cbn; try done; try congruence. split; [done|]. apply Forall_forall. intros c Hc%L4. by apply HD. }
  pose proof (submit_locked_eq _ Hwf) as Hs. cbn [sched_] in Hs. rewrite Hi in Hs. cbn [andb] in Hs.
  destruct (accepting_ x) eqn:Ha; [|congruence].
  destruct Hs as (c' & y & Hc & Hy & Hs). cbn [sched_rt sched_] in *.
  rewrite Hsub in Hs. injection Hs as <- ->.
  destruct (Hacc eq_refl) as (_ & Hl & Hks & Hstop).
  split_and!; try done.
  - by eapply L4, list_elem_of_lookup_2.
  - eexists. split_and!; [by f_equal| | |done|done].
    + unfold closing_ok. cbn. split; [done|]. rewrite Hks. split_and!; try done; [by apply dispatch_wf|by left].
    + intros c. unfold stopping. cbn. by rewrite Hi.
Qed.
End closing.

(** ** The contexts *)

Section contexts.
Context {U : Type} `{!Liburing U}.
Implicit Types (w : rt_world U).

(** The context [c] changed to [x]. *)
Definition with_ctx (c : ptr) (x : ContextObj U) w : rt_world U := set_contexts (<[c := x]> (rt_contexts w)) w.

Lemma set_contexts_same w : set_contexts (rt_contexts w) w = w.
Proof. by destruct w. Qed.

Lemma each_context_eq (f : ContextObj U → ContextObj U) cs w :
  (∀ x, f (f x) = f x) → (∀ c, c ∈ cs → is_Some (rt_contexts w !! c)) →
  ∃ m, for_each cs (λ c, let! x := context_at c in context_store c (f x)) w =
      Ok tt (set_contexts m w) ∧
    ∀ c, m !! c = if decide (c ∈ cs) then f <$> rt_contexts w !! c else rt_contexts w !! c.
Proof.
  intros Hf. revert w. induction cs as [|c cs IH]; intros w Hcs.
  { exists (rt_contexts w). rewrite set_contexts_same. split; [done|].
    intros c. by rewrite decide_False by apply not_elem_of_nil. }
  destruct (Hcs c) as [x Hx]; [by left|].
  set (w1 := set_contexts (<[c := f x]> (rt_contexts w)) w).
  assert (H1 : (let! x := context_at c in context_store c (f x)) w = Ok tt w1).
  { unfold context_at, bind, get, deref. by rewrite Hx. }
  destruct (IH w1) as (m & Hm & Hl).
  { intros c' Hc'. cbn. apply lookup_insert_is_Some'. right. apply Hcs. by right. }
  exists m. split; [cbn [for_each]; by rewrite (bind_ok _ _ _ _ _ H1)|].
  intros c'. rewrite Hl. cbn [w1 rt_contexts set_contexts].
  destruct (decide (c' = c)) as [->|Hne].
  - rewrite lookup_insert_eq, Hx. rewrite (decide_True (P := c ∈ c :: cs)) by by left.
    cbn. rewrite Hf. by destruct (decide (c ∈ cs)).
  - rewrite lookup_insert_ne by done. apply decide_ext. rewrite elem_of_cons. naive_solver.
Qed.

Lemma Context_notify_stop_eq c x w : rt_contexts w !! c = Some x →
  Context_notify_stop c w = Ok tt (with_ctx c (set_stop true x) w).
Proof. intros Hx. unfold Context_notify_stop, context_at, bind, get, deref. by rewrite Hx. Qed.

Lemma shutdown_destroy_eq cs w :
  ∃ m, shutdown_destroy cs w = Ok tt (set_contexts m w) ∧
    ∀ c, m !! c = if decide (c ∈ cs) then None else rt_contexts w !! c.
Proof.
  unfold shutdown_destroy. revert w. induction cs as [|c cs IH]; intros w.
  { exists (rt_contexts w). rewrite set_contexts_same. split; [done|].
    intros c. by rewrite decide_False by apply not_elem_of_nil. }
  destruct (IH (set_contexts (delete c (rt_contexts w)) w)) as (m & Hm & Hl).
  exists m. split; [exact Hm|]. intros c'. rewrite Hl. cbn [rt_contexts set_contexts].
  destruct (decide (c' = c)) as [->|Hne].
  - rewrite lookup_delete_eq, (decide_True (P := c ∈ c :: cs)) by by left.
    by destruct (decide (c ∈ cs)).
  - rewrite lookup_delete_ne by done. apply decide_ext. rewrite elem_of_cons. naive_solver.
Qed.
End contexts.
