(* ===== verification/SystemStart.v ===== *)
(** * Starting the runtime

    What [Scheduler::init] leaves, whatever the tasks are: contexts with empty
    queues and new rings, none of them asked to stop, and a thread in the wait
    of [loop]. *)

From S2P Require Import Prelude Runtime Uring Engine EngineProps Context Dispatcher Scheduler SchedulerProps System SystemClose.

Open Scope Z_scope.

Section start.
Context {U : Type} `{!Liburing U} (good : U → Prop).
Hypothesis good_init : ∀ r u, io_uring_queue_init kQueueDepth = (r, u) → 0 ≤ r → good u.
Implicit Types (w : rt_world U).

(** A context without work, on a ring as it is made. *)
Definition new_context (x : ContextObj U) : Prop :=
  ctx_stop_ x = false ∧ ∃ u, good u ∧ ctx_engine_ x = Engine_make u.

(** The contexts are [cs]. *)
Definition contexts_new (cs : list ptr) w : Prop :=
  local_context_ptr w = null ∧ rt_ops w = ∅ ∧
  ∀ c, match rt_contexts w !! c with
       | Some x => c ∈ cs ∧ new_context x
       | None => c ∉ cs
       end.

Lemma wp_push_new n from (s : sched_world U) : contexts_new (contexts_ (sched_ s)) (sched_rt s) →
  wp (push_contexts from n) s (λ _ s', contexts_new (contexts_ (sched_ s')) (sched_rt s'))
    (λ _ _, True).
Proof.
  revert from s. induction n as [|n IH]; intros from s (Hl & Ho & Hq); [by apply wp_ret|].
  cbn [push_contexts]. wp_step. apply wp_zoom. unfold Context_new.
  destruct (io_uring_queue_init kQueueDepth) as [r u] eqn:Er.
  destruct (Z.ltb_spec r 0); [by apply wp_throw|].
  cbn [lget sched_world_rt]. wp_step. apply wp_get.
  set (c0 := fresh ({[null]} ∪ dom (rt_contexts (sched_rt s))) : ptr).
  unfold context_store. wp_steps. apply wp_zoom, wp_modify.
  cbn [lget lset sched_world_sched sched_world_rt sched_ sched_rt].
  apply IH. split_and!; [done|done|]. cbn. intros c. destruct (decide (c0 = c)) as [<-|Hne].
  - rewrite lookup_insert_eq. split; [apply elem_of_app; right; by left|].
    split; [done|]. exists u. split; [by eapply good_init|done].
  - rewrite lookup_insert_ne by done. specialize (Hq c).
    destruct (rt_contexts (sched_rt s) !! c); rewrite elem_of_app; [naive_solver|set_solver].
Qed.

Lemma start_new cs w : contexts_new cs w →
  wp (for_each cs Context_start) w (λ _ w', contexts_new cs w') (λ _ _, True).
Proof.
  intros (Hl & Ho & Hq). destruct (each_context_eq (set_stop false) cs w) as (m & Hm & Hml); [done| |].
  { intros c Hc. specialize (Hq c). by destruct (rt_contexts w !! c). }
  eapply wp_of_ok; [exact Hm|]. split_and!; [done|done|]. intros c. cbn. rewrite Hml.
  specialize (Hq c). destruct (decide (c ∈ cs)), (rt_contexts w !! c) as [x|]; cbn; try done.
  destruct Hq as [_ [_ Hu]]. by repeat split.
Qed.

Lemma init_new n (s' : sched_world U) :
  Scheduler_init n (MkSched Scheduler_default (MkRt ∅ ∅ 0 null)) = Ok tt s' →
  contexts_new (contexts_ (sched_ s')) (sched_rt s').
Proof.
  intros Hinit.
  assert (Hw : wp (Scheduler_init n) (MkSched Scheduler_default (MkRt (U := U) ∅ ∅ 0 null))
    (λ _ s', contexts_new (contexts_ (sched_ s')) (sched_rt s')) (λ _ _, True)).
  { unfold Scheduler_init. wp_step. apply wp_zoom, wp_get. cbn beta iota.
    cbn [lget lset sched_world_sched sched_ initialized_ Scheduler_default].
    wp_step. eapply wp_mono; [apply wp_push_new; split_and!; [done|done|]| |done].
    { intros c. cbn. rewrite lookup_empty. apply not_elem_of_nil. }
    intros _ [x w] Hq. cbn [sched_ sched_rt] in Hq.
    wp_step. apply wp_zoom, wp_get. cbn [lget lset sched_world_sched sched_].
    wp_step. apply wp_zoom. eapply wp_mono; [by apply start_new| |done].
    intros ? w' Hq'. cbn [lget lset sched_world_rt sched_ sched_rt] in *.
    wp_step. apply wp_zoom, wp_zoom, wp_modify.
    wp_step. apply wp_zoom, wp_modify. wp_step. apply wp_zoom, wp_modify.
    wp_step. apply wp_zoom, wp_modify. by apply wp_zoom, wp_modify. }
  unfold wp in Hw. by rewrite Hinit in Hw.
Qed.

(** The state the runtime starts in. *)
Lemma init_started n (x : Scheduler) w : 0 ≤ n < 2 ^ 64 →
  Scheduler_init n (MkSched Scheduler_default (MkRt ∅ ∅ 0 null)) = Ok tt (MkSched x w) →
  local_context_ptr w = null ∧ rt_ops w = ∅ ∧ pending_tasks_ w = 0 ∧
  (∀ c, match rt_contexts w !! c with
        | Some y => c ∈ contexts_ x ∧ c ≠ null ∧ new_context y
        | None => c ∉ contexts_ x
        end) ∧
  closing_ok (list_to_set (contexts_ x)) x true [] ∧ (∀ c, stopping x [] c = false) ∧
  accepting_ x = true.
Proof.
  intros Hn Hinit. pose proof (init_new _ _ Hinit) as (Hl & Ho & Hq). cbn [sched_ sched_rt] in *.
  assert (Hwf0 : sched_wf (MkSched Scheduler_default (MkRt (U := U) ∅ ∅ 0 null))).
  { split; cbn; try done. split; [apply NoDup_nil_2|constructor]. }
  pose proof (wp_init n _ Hwf0 Hn) as Hw. unfold wp in Hw. rewrite Hinit in Hw.
  destruct Hw as ([W1 W2 W3 [W4 W5]] & Hi & Hrest & _). cbn [sched_ sched_rt] in *.
  destruct (Hrest eq_refl) as (_ & Hacc & Hst & Hp). rewrite Forall_forall in W5.
  split_and!; try done.
  - intros c. specialize (Hq c). destruct (rt_contexts w !! c); [|done]. destruct Hq as [Hc Hy].
    split_and!; [done| |done]. by apply W5.
  - unfold closing_ok. rewrite Hi. split; [by intros _; split_and!|].
    split_and!; try done; [by apply W3| |by left]. intros c. by rewrite elem_of_list_to_set.
  - intros c. unfold stopping. by rewrite Hi.
Qed.
End start.
