(* ===== verification/SystemInv.v ===== *)
(** * The invariant of the runtime as a whole

    An abstract view of a running system: which tasks, with what left to run,
    are in each worker's queue and batch and on their way to a worker.  The
    concrete state is a function of the view up to what no step reads. *)

From S2P Require Import Prelude Runtime Uring Engine EngineProps Task TaskRun Context WorkerRun ContextRun Dispatcher Scheduler SchedulerProps System SystemClose.

Open Scope Z_scope.

(** ** Heaps given by a list of frames *)

Section heaps.
Context {V : Type} (F : gmap handle (frame V)).
Implicit Types (E : list (handle * frame V)).

Definition heap_of E : gmap handle (frame V) := list_to_map E ∪ F.

(** The handles are distinct, and none is in [F]. *)
Definition heap_fresh E : Prop :=
  NoDup E.*1 ∧ Forall (λ h, F !! h = None ∧ h ≠ null) E.*1.

Lemma heap_of_perm E E' : NoDup E.*1 → E ≡ₚ E' → heap_of E = heap_of E'.
Proof. intros Hn Hp. unfold heap_of. f_equal. by apply list_to_map_proper. Qed.

Lemma heap_of_cons h f E : heap_of ((h, f) :: E) = <[h := f]> (heap_of E).
Proof. unfold heap_of. cbn. by rewrite insert_union_l. Qed.

Lemma heap_of_none h E : heap_of E !! h = None ↔ h ∉ E.*1 ∧ F !! h = None.
Proof.
  unfold heap_of. rewrite lookup_union_None. split; intros [H1 H2]; (split; [|done]).
  - by apply not_elem_of_list_to_map_2.
  - by apply not_elem_of_list_to_map_1.
Qed.

Lemma heap_of_lookup_in h f E : NoDup E.*1 → (h, f) ∈ E → heap_of E !! h = Some f.
Proof.
  intros Hn Hin. unfold heap_of. apply lookup_union_Some_l. by apply elem_of_list_to_map_1.
Qed.

Lemma heap_fresh_perm E E' : E ≡ₚ E' → heap_fresh E → heap_fresh E'.
Proof. intros Hp [H1 H2]. split; [by rewrite <- Hp|]. by rewrite <- Hp. Qed.

Lemma heap_fresh_cons h f E :
  heap_fresh ((h, f) :: E) ↔ heap_fresh E ∧ heap_of E !! h = None ∧ h ≠ null.
Proof.
  unfold heap_fresh. cbn. rewrite NoDup_cons, Forall_cons, heap_of_none. naive_solver.
Qed.

(** A heap without the frames of [F] has room for as many as it holds. *)
Lemma heap_of_size E : heap_fresh E → size (heap_of E) = (length E + size F)%nat.
Proof.
  intros [Hn Hf]. unfold heap_of. rewrite map_size_disj_union.
  - by rewrite map_size_list_to_map.
  - apply map_disjoint_spec. intros h f g Hl Hg. apply elem_of_list_to_map_2 in Hl.
    rewrite Forall_forall in Hf. destruct (Hf h) as [HF _]; [|congruence].
    apply list_elem_of_fmap. by exists (h, f).
Qed.
End heaps.

(** ** Abstract workers *)

Section view.
Context {V : Type}.

Abbreviation task := (handle * body V)%type.

Inductive aphase :=
| AIdle
| ABatch (ts : list task)
| AYielded (h : handle) (ts : list task)            (** [h] is in the queue again *)
| AEnded (h : handle) (r : V + exn) (ts : list task)
| AExited.

(** A worker's queue, and what its thread is at. *)
Record aworker := MkAWorker { aq : list task; ap : aphase }.

Definition abatch (p : aphase) : list task :=
  match p with ABatch ts | AYielded _ ts | AEnded _ _ ts => ts | _ => [] end.
Definition apc (p : aphase) : worker_pc Empty_set :=
  match p with
  | AIdle => PIdle
  | ABatch ts => PBatch ts.*1
  | AYielded h ts | AEnded h _ ts => PResumed h ts.*1
  | AExited => PExited
  end.
Definition aresuming (p : aphase) : Z :=
  match p with AYielded _ _ | AEnded _ _ _ => 1 | _ => 0 end.

Definition task_entry (t : task) : handle * frame V := (fst t, root (snd t)).
Definition final_frame (r : V + exn) : frame V := finished r (MkFrame null None None PRunning).
Definition aended (p : aphase) : list (handle * frame V) :=
  match p with AEnded h r _ => [(h, final_frame r)] | _ => [] end.

(** The frames of a worker's tasks. *)
Definition aentries (a : aworker) : list (handle * frame V) :=
  (task_entry <$> aq a) ++ (task_entry <$> abatch (ap a)) ++ aended (ap a).

Abbreviation aview := (gmap ptr aworker).

(** The frames of all tasks; [T] are those on their way to a context. *)
Definition entries (A : aview) (T : list (ptr * task)) : list (handle * frame V) :=
  (map_to_list A ≫= λ p, aentries (snd p)) ++ ((λ p, task_entry (snd p)) <$> T).

Lemma task_entry_keys (ts : list task) : (task_entry <$> ts).*1 = ts.*1.
Proof. by rewrite <- list_fmap_compose. Qed.

Lemma entries_worker A T c a : A !! c = Some a →
  entries A T ≡ₚ aentries a ++ entries (delete c A) T.
Proof.
  intros Ha. unfold entries. rewrite app_assoc. f_equiv.
  rewrite <- (map_to_list_delete A c a Ha). done.
Qed.

Lemma entries_insert A T c a : entries (<[c := a]> A) T ≡ₚ aentries a ++ entries (delete c A) T.
Proof.
  etrans; [apply (entries_worker _ _ c a), lookup_insert_eq|]. by rewrite delete_insert_eq.
Qed.

Lemma entries_transit A T1 T2 p :
  entries A (T1 ++ p :: T2) ≡ₚ task_entry (snd p) :: entries A (T1 ++ T2).
Proof.
  unfold entries. rewrite !fmap_app, fmap_cons. by rewrite <- !Permutation_middle.
Qed.

End view.
Arguments aworker V : clear implicits.
Arguments aphase V : clear implicits.

(** ** The worker's parts on a concrete state *)

Section parts.
Context {U : Type} `{!Liburing U, !LiburingLaws U, !LiburingIdle U} {V : Type}
  (moved_from : V → V).
Implicit Types (w : rt_world U) (x : ContextObj U).

(** A context without IO: its queue [q], [k] coroutines being resumed. *)
Definition quiet_ctx (stop : bool) (q : list handle) (k : Z) x : Prop :=
  ∃ u, idle_ring u ∧ ctx_engine_ x = quiet_engine q k u ∧ ctx_stop_ x = stop.

(** [m], on the thread of [c], takes its context from [q], [k] to [q'], [k'],
    the tasks from [t] to [t'] and adds [dp] to the pending tasks. *)
Definition worker_effect {X} (c : ptr) (m : M (rt_world U * task_world V) X) w t (a : X)
    stop q k (dp : Z) t' : Prop :=
  ∃ x', quiet_ctx stop q k x' ∧
    on_worker c m w t a (with_ctx c x' (set_pending_tasks (u64 (pending_tasks_ w + dp)) w)) t'.

Lemma on_worker_sys {X} c (m : M (rt_world U * task_world V) X) w F ob a x e' bt' p' F' :
  local_context_ptr w = null → rt_contexts w !! c = Some x →
  m (sys c (rt_contexts w) (rt_ops w) ob (ctx_id_ x) (ctx_engine_ x) (ctx_stop_ x)
       (work_batch_ x) (pending_tasks_ w) F) =
    Ok a (sys c (rt_contexts w) (rt_ops w) ob (ctx_id_ x) e' (ctx_stop_ x) bt' p' F') →
  on_worker c m w (MkTaskWorld F ob) a
    (with_ctx c (MkContext (ctx_id_ x) e' (ctx_stop_ x) bt') (set_pending_tasks p' w))
    (MkTaskWorld F' ob).
Proof.
  intros Hl Hx Hm. unfold sys in Hm. rewrite insert_id in Hm by (rewrite Hx; by destruct x).
  eexists. split; [exact Hm|]. unfold with_ctx, set_contexts, set_pending_tasks, set_local_context.
  cbn. by rewrite Hl.
Qed.

(** The result of a part is determined. *)
Lemma on_worker_det {X} c (m : M (rt_world U * task_world V) X) w t a1 w1 t1 a2 w2 t2 :
  on_worker c m w t a1 w1 t1 → on_worker c m w t a2 w2 t2 → a1 = a2 ∧ w1 = w2 ∧ t1 = t2.
Proof. intros (v1 & H1 & ->) (v2 & H2 & ->). rewrite H1 in H2. by simplify_eq. Qed.

Lemma u64_same w : 0 ≤ pending_tasks_ w < 2 ^ 64 → u64 (pending_tasks_ w + 0) = pending_tasks_ w.
Proof. intros H. rewrite u64_small; lia. Qed.

(** The front of the queue is taken, at most a batch of it; from an empty queue
    the batch vector stays as it was. *)
Lemma worker_pop_effect c w F ob x stop q k :
  local_context_ptr w = null → 0 ≤ pending_tasks_ w < 2 ^ 64 →
  rt_contexts w !! c = Some x → quiet_ctx stop q k x →
  worker_effect c (worker_pop c) w (MkTaskWorld F ob)
    (length (take kProcessBatchSize q),
     if queue_empty q then work_batch_ x else take kProcessBatchSize q)
    stop (drop kProcessBatchSize q) k 0 (MkTaskWorld F ob).
Proof.
  intros Hl Hp Hx (u & Hu & He & Hst).
  exists (MkContext (ctx_id_ x) (quiet_engine (drop kProcessBatchSize q) k u) (ctx_stop_ x)
    (if queue_empty q then work_batch_ x else take kProcessBatchSize q)). split; [by exists u|].
  rewrite (u64_same _ Hp).
  apply on_worker_sys; [done|done|]. rewrite He. generalize (work_batch_ x). intros bt.
  assert (Hpop : pop_batch bt kProcessBatchSize (quiet_engine q k u) =
    Ok (length (take kProcessBatchSize q),
        if queue_empty q then bt else take kProcessBatchSize q)
      (quiet_engine (drop kProcessBatchSize q) k u)).
  { rewrite pop_batch_eq. by destruct q. }
  unfold worker_pop, work_pop.
  rewrite (bind_ok _ _ _ (MkContext (ctx_id_ x) (quiet_engine q k u) (ctx_stop_ x) bt)
    (sys c (rt_contexts w) (rt_ops w) ob (ctx_id_ x) (quiet_engine q k u) (ctx_stop_ x) bt
      (pending_tasks_ w) F)).
  2: { unfold zoom, context_at, bind, get, sys. cbn. by rewrite lookup_insert_eq. }
  erewrite bind_ok.
  2: { apply in_engine_sys. unfold zoom. cbn [lget lset engine_world_engine engine_ io_ops work_batch_].
       by rewrite Hpop. }
  erewrite bind_ok.
  2: { unfold zoom, context_at, bind, get, sys. cbn. by rewrite lookup_insert_eq. }
  unfold bind, zoom, context_store, modify, ret, sys. cbn -[kProcessBatchSize].
  unfold set_contexts, set_batch. cbn -[kProcessBatchSize]. by rewrite insert_insert_eq.
Qed.
(** More fuel does not change what a resumption does. *)
Lemma machine_run_fuel f1 f2 n (t : task_world V) : (f1 ≤ f2)%nat →
  machine_run moved_from f1 n t ≠ NoFuel →
  machine_run moved_from f2 n t = machine_run moved_from f1 n t.
Proof.
  intros Hf Hn. induction Hf as [|f2 _ IH]; [done|].
  rewrite <- IH in Hn |- *. by apply machine_run_mono.
Qed.

Lemma task_resume_fuel f1 f2 h (s s1 s2 : rt_world U * task_world V) :
  task_resume moved_from f1 h s = Ok tt s1 → task_resume moved_from f2 h s = Ok tt s2 → s1 = s2.
Proof.
  intros H1 H2.
  assert (E : handle_resume moved_from f1 h (snd s) = handle_resume moved_from f2 h (snd s)).
  { assert (N1 : handle_resume moved_from f1 h (snd s) ≠ NoFuel).
    { intros E. unfold task_resume, bind, zoom in H1. cbn [lget lens_snd] in H1. by rewrite E in H1. }
    assert (N2 : handle_resume moved_from f2 h (snd s) ≠ NoFuel).
    { intros E. unfold task_resume, bind, zoom in H2. cbn [lget lens_snd] in H2. by rewrite E in H2. }
    unfold handle_resume in *. destruct (le_ge_dec f1 f2) as [Hf|Hf].
    - symmetry. by apply machine_run_fuel.
    - by apply machine_run_fuel. }
  unfold task_resume, bind at 1, zoom at 1 in H1. unfold task_resume, bind at 1, zoom at 1 in H2.
  cbn [lget lens_snd] in H1, H2. rewrite E in H1. rewrite H1 in H2. by injection H2.
Qed.

(** A task's turn is one part, [turn_resume]. *)
Lemma worker_resume_turn fuel c h w t o w' t' :
  on_worker c (worker_resume (tasks_of moved_from) fuel c h) w t o w' t' ↔
  o = None ∧ on_worker c (turn_resume (Coroutines0 := task_coroutines (U := U) moved_from fuel) c h) w t tt w' t'.
Proof.
  assert (E : ∀ s, worker_resume (tasks_of moved_from) fuel c h s =
    (turn_resume (Coroutines0 := task_coroutines (U := U) moved_from fuel) c h;;; ret None) s).
  { intros s. unfold worker_resume, turn_resume. cbn [tk_begin tasks_of]. by rewrite !bind_assoc. }
  unfold on_worker. setoid_rewrite E. unfold bind, ret. split.
  - intros (v & H & ->). destruct (turn_resume _ _ _) as [[] s| | | |]; try done.
    injection H as <- ->. split; [done|]. by exists v.
  - intros (-> & v & -> & ->). by exists v.
Qed.

Lemma worker_resume_fuel f1 f2 c h w t o1 w1 t1 o2 w2 t2 :
  on_worker c (worker_resume (tasks_of moved_from) f1 c h) w t o1 w1 t1 →
  on_worker c (worker_resume (tasks_of moved_from) f2 c h) w t o2 w2 t2 →
  o1 = None ∧ o2 = None ∧ w1 = w2 ∧ t1 = t2.
Proof.
  rewrite !worker_resume_turn. intros (-> & v1 & H1 & ->) (-> & v2 & H2 & ->).
  unfold turn_resume, bind in H1, H2. destruct (zoom _ _) as [[] s|e s| | |]; try done.
  pose proof (task_resume_fuel _ _ _ _ _ _ H1 H2) as E. by simplify_eq.
Qed.

(** A task is run to its end, or to its next suspension and queued again. *)
Lemma worker_resume_effect c h b w F ob x stop q :
  c ≠ null → local_context_ptr w = null → 0 ≤ pending_tasks_ w < 2 ^ 64 →
  rt_contexts w !! c = Some x → quiet_ctx stop q 0 x →
  F !! h = None → h ≠ null → flat b →
  ∃ fuel, worker_effect c (worker_resume (tasks_of moved_from) fuel c h) w
    (MkTaskWorld (<[h := root b]> F) ob) None stop
    (if advance b is Some _ then q ++ [h] else q) 1 0
    (MkTaskWorld (<[h := if advance b is Some b' then root b' else final_frame (eval b)]> F) ob).
Proof.
  intros Hc Hl Hp Hx (u & Hu & He & Hst) HF Hh Hb.
  destruct (task_resume_sys moved_from c Hc (rt_contexts w) (rt_ops w) ob h b (ctx_id_ x)
    (quiet_engine q 1 u) (ctx_stop_ x) (work_batch_ x) (pending_tasks_ w) F HF Hh Hb) as [N HN].
  exists N. set (q' := if advance b is Some _ then q ++ [h] else q).
  exists (MkContext (ctx_id_ x) (quiet_engine q' 1 u) (ctx_stop_ x) (work_batch_ x)).
  split; [by exists u|]. rewrite (u64_same _ Hp). apply worker_resume_turn. split; [done|].
  apply on_worker_sys; [done|done|]. rewrite He. unfold turn_resume.
  rewrite (bind_ok _ _ _ tt (sys c (rt_contexts w) (rt_ops w) ob (ctx_id_ x) (quiet_engine q 1 u)
    (ctx_stop_ x) (work_batch_ x) (pending_tasks_ w) (<[h := root b]> F)))
    by by apply in_engine_sys.
  etrans; [exact (HN N (le_n N))|]. unfold q'. destruct (advance b); [done|].
  unfold final_frame. by destruct (eval b).
Qed.

(** [done()], and a finished task is destroyed and counted. *)
Lemma worker_finish_effect c h f w F ob x stop q :
  local_context_ptr w = null → 0 ≤ pending_tasks_ w < 2 ^ 64 →
  rt_contexts w !! c = Some x → quiet_ctx stop q 1 x →
  F !! h = None → (point_ f = PFinal ∨ ∃ b, point_ f = PBody b) →
  worker_effect c (worker_finish (tasks_of moved_from) c h) w (MkTaskWorld (<[h := f]> F) ob) tt stop q 0
    (if point_ f is PFinal then -1 else 0)
    (MkTaskWorld (if point_ f is PFinal then F else <[h := f]> F) ob).
Proof.
  intros Hl Hp Hx (u & Hu & He & Hst) HF Hf.
  exists (MkContext (ctx_id_ x) (quiet_engine q 0 u) (ctx_stop_ x) (work_batch_ x)).
  split; [by exists u|]. apply on_worker_sys; [done|done|]. rewrite He.
  unfold worker_finish, turn_finish.
  rewrite (bind_ok _ _ _ tt (sys c (rt_contexts w) (rt_ops w) ob (ctx_id_ x) (quiet_engine q 0 u)
    (ctx_stop_ x) (work_batch_ x) (pending_tasks_ w) (<[h := f]> F)))
    by by apply in_engine_sys.
  etrans; [exact (task_finish_sys c (rt_contexts w) (rt_ops w) ob h f (ctx_id_ x)
    (quiet_engine q 0 u) (ctx_stop_ x) (work_batch_ x) (pending_tasks_ w) F HF Hf)|].
  destruct (point_ f); rewrite ?(u64_same _ Hp); done.
Qed.

(** A worker that has nothing to do leaves if it is asked to stop. *)
Lemma worker_iteration_effect c w F ob x stop :
  local_context_ptr w = null → 0 ≤ pending_tasks_ w < 2 ^ 64 →
  rt_contexts w !! c = Some x → quiet_ctx stop [] 0 x →
  worker_effect c (worker_iteration (tasks_of moved_from) c) w (MkTaskWorld F ob)
    (if stop then RunBreak else RunIdle) stop [] 0 0 (MkTaskWorld F ob).
Proof.
  intros Hl Hp Hx (u & Hu & He & Hst).
  destruct (iteration_quiet moved_from c (rt_contexts w) (rt_ops w) ob (ctx_id_ x) u stop
    (work_batch_ x) (pending_tasks_ w) F Hu) as (u' & Hu' & Hit).
  exists (MkContext (ctx_id_ x) (quiet_engine [] 0 u') (ctx_stop_ x) (work_batch_ x)).
  split; [by exists u'|]. rewrite (u64_same _ Hp). apply on_worker_sys; [done|done|].
  rewrite He, Hst. exact (Hit 0%nat).
Qed.

(** It leaves in no other case. *)
Lemma worker_iteration_break c w F ob x stop q w' t' :
  local_context_ptr w = null → 0 ≤ pending_tasks_ w < 2 ^ 64 →
  rt_contexts w !! c = Some x → quiet_ctx stop q 0 x →
  on_worker c (worker_iteration (tasks_of moved_from) c) w (MkTaskWorld F ob) RunBreak w' t' →
  q = [] ∧ stop = true.
Proof.
  intros Hl Hp Hx Hq Hon. destruct q as [|h q].
  - split; [done|]. destruct (worker_iteration_effect c w F ob x stop Hl Hp Hx Hq) as (x' & _ & Hon').
    destruct (on_worker_det _ _ _ _ _ _ _ _ _ _ Hon Hon') as [E _]. by destruct stop.
  - exfalso. destruct (worker_pop_effect c w F ob x stop (h :: q) 0 Hl Hp Hx Hq)
      as (x' & _ & w1 & Hpop & _).
    destruct Hon as (w2 & Hon & _). revert Hon. unfold worker_iteration, run_iteration, noexcept.
    unfold bind at 1. rewrite process_work_once_parts. unfold worker_pop in Hpop.
    rewrite (bind_ok _ _ _ _ _ Hpop). cbn -[for_each]. unfold bind at 1.
    by destruct (for_each _ _ _).
Qed.
End parts.
