(* ===== verification/SystemRun.v ===== *)
(** * The runtime as a whole: invariant, progress and termination

    The invariant relates a state of [System] to its view; every step keeps
    it, a state that is not at its end has a step of the runtime, and every
    step of the runtime decreases a measure of the view. *)

From S2P Require Import Prelude Runtime Uring Engine EngineProps Task TaskRun Context WorkerRun Dispatcher Scheduler SchedulerProps System SystemClose SystemInv.

Open Scope Z_scope.

Section run.
Context {U : Type} `{!Liburing U, !LiburingLaws U, !LiburingIdle U} {V : Type}
  (moved_from : V → V) (F : gmap handle (frame V)) (ob : gmap ptr handle).
Implicit Types (A : gmap ptr (aworker V)) (T : list (ptr * (handle * body V)))
  (s : system U (task_world V) Empty_set) (a : aworker V).

#[local] Abbreviation K := (tasks_of moved_from).

(** ** The invariant *)

(** A yielded task is back in the queue; a worker leaves with its queue empty. *)
Definition aphase_ok (stop : bool) a : Prop :=
  match ap a with
  | AYielded h _ => h ∈ (aq a).*1
  | AExited => aq a = [] ∧ stop = true
  | _ => True
  end.

Inductive worker_ok (stop : bool) (c : ptr) :
    option (aworker V) → option (ContextObj U) → option (worker_pc Empty_set) → Prop :=
| worker_ok_none : worker_ok stop c None None None
| worker_ok_some a x :
    c ≠ null → quiet_ctx stop (aq a).*1 (aresuming (ap a)) x →
    Forall (λ t, flat (snd t)) (aq a ++ abatch (ap a)) → aphase_ok stop a →
    worker_ok stop c (Some a) (Some x) (Some (apc (ap a))).

Record sys_inv A T s : Prop := {
  iv_local : local_context_ptr (sy_rt s) = null;
  iv_workers : ∀ c, worker_ok (stopping (sy_sched s) (sy_closers s) c) c (A !! c) (rt_contexts (sy_rt s) !! c)
    (sy_workers s !! c);
  iv_transit : sy_transit s = (λ p, (fst p, fst (snd p))) <$> T;
  iv_targets : Forall (λ p, is_Some (A !! fst p) ∧ flat (snd (snd p))) T;
  iv_tasks : sy_tasks s = MkTaskWorld (heap_of F (entries A T)) ob;
  iv_fresh : heap_fresh F (entries A T);
  iv_pending : pending_tasks_ (sy_rt s) = Z.of_nat (length (entries A T));
  iv_room : Z.of_nat (length (entries A T)) < 2 ^ 64;
  iv_closing : closing_ok (dom A) (sy_sched s) (sy_waiting s) (sy_closers s);
  iv_end : accepting_ (sy_sched s) = false → T = [];
  iv_left : stop_requested_ (sy_sched s) = false → sy_waiting s = false → entries A T = [];
}.

Lemma iv_pending_range A T s : sys_inv A T s → 0 ≤ pending_tasks_ (sy_rt s) < 2 ^ 64.
Proof. intros H. rewrite (iv_pending _ _ _ H). pose proof (iv_room _ _ _ H). lia. Qed.

(** A context that is asked to stop gets no more submissions. *)
Lemma iv_stopping A T s c : stopping (sy_sched s) (sy_closers s) c = true → sys_inv A T s → T = [].
Proof.
  intros Hs H. apply (iv_end _ _ _ H). destruct (iv_closing _ _ _ H) as [Hacc _].
  unfold stopping in Hs. destruct (initialized_ (sy_sched s)); [done|].
  destruct (accepting_ (sy_sched s)); [|done]. by destruct Hacc.
Qed.

Lemma iv_worker A T s c pc : sys_inv A T s → sy_workers s !! c = Some pc →
  ∃ a x, A !! c = Some a ∧ rt_contexts (sy_rt s) !! c = Some x ∧ pc = apc (ap a) ∧ c ≠ null ∧
    quiet_ctx (stopping (sy_sched s) (sy_closers s) c) (aq a).*1 (aresuming (ap a)) x ∧
    Forall (λ t, flat (snd t)) (aq a ++ abatch (ap a)) ∧ aphase_ok (stopping (sy_sched s) (sy_closers s) c) a.
Proof.
  intros H Hc. pose proof (iv_workers _ _ _ H c) as Hw. rewrite Hc in Hw.
  inversion Hw as [|a x ??]; subst. by exists a, x.
Qed.

Lemma iv_view A T s c a : sys_inv A T s → A !! c = Some a →
  sy_workers s !! c = Some (apc (ap a)) ∧ ∃ x, rt_contexts (sy_rt s) !! c = Some x ∧ c ≠ null ∧
    quiet_ctx (stopping (sy_sched s) (sy_closers s) c) (aq a).*1 (aresuming (ap a)) x ∧
    Forall (λ t, flat (snd t)) (aq a ++ abatch (ap a)) ∧ aphase_ok (stopping (sy_sched s) (sy_closers s) c) a.
Proof.
  intros H Hc. pose proof (iv_workers _ _ _ H c) as Hw. rewrite Hc in Hw.
  inversion Hw as [|a' x ?? Hp]; subst. split; [done|]. by exists x.
Qed.

Lemma closing_ok_insert A x l ks c a : is_Some (A !! c) →
  closing_ok (dom A) x l ks → closing_ok (dom (<[c := a]> A)) x l ks.
Proof. intros Hc. by rewrite dom_insert_lookup_L. Qed.

Lemma targets_insert A T c a : is_Some (A !! c) →
  Forall (λ p, is_Some (A !! fst p) ∧ flat (snd (snd p))) T →
  Forall (λ p, is_Some (<[c := a]> A !! fst p) ∧ flat (snd (snd p))) T.
Proof.
  intros Hc HT. eapply Forall_impl; [exact HT|]. intros p [Hp Hf]. split; [|done].
  rewrite lookup_insert_is_Some'. naive_solver.
Qed.

(** One worker goes from [a] to [a'] and the tasks on their way from [T] to
    [T'], with [dp] tasks more (none, or one less). *)
Lemma inv_worker_transit A T T' s c a a' x' pcs' w' t' tr' dp E' :
  sys_inv A T s → A !! c = Some a →
  w' = with_ctx c x' (set_pending_tasks (u64 (pending_tasks_ (sy_rt s) + dp)) (sy_rt s)) →
  pcs' = <[c := apc (ap a')]> (sy_workers s) →
  quiet_ctx (stopping (sy_sched s) (sy_closers s) c) (aq a').*1 (aresuming (ap a')) x' →
  Forall (λ t, flat (snd t)) (aq a' ++ abatch (ap a')) → aphase_ok (stopping (sy_sched s) (sy_closers s) c) a' →
  tr' = (λ p, (fst p, fst (snd p))) <$> T' → T' ⊆ T →
  Z.of_nat (length E') = Z.of_nat (length (entries A T)) + dp → dp ≤ 0 →
  aentries a' ++ entries (delete c A) T' ≡ₚ E' → heap_fresh F E' →
  t' = MkTaskWorld (heap_of F E') ob →
  sys_inv (<[c := a']> A) T' (MkSystem (sy_sched s) w' t' pcs' tr' (sy_waiting s) (sy_closers s)).
Proof.
  intros H Ha -> -> Hx' Hfl Hok -> HT Hlen Hdp HE Hfresh ->.
  assert (Hsome : is_Some (A !! c)) by by eexists.
  destruct (iv_view _ _ _ _ _ H Ha) as (Hpc & x & Hx & Hnull & _).
  assert (Hperm : entries (<[c := a']> A) T' ≡ₚ E')
    by (rewrite <- HE; apply entries_insert).
  assert (HL : Z.of_nat (length (entries (<[c := a']> A) T')) =
    Z.of_nat (length (entries A T)) + dp) by by rewrite Hperm.
  pose proof (iv_room _ _ _ H). pose proof (iv_pending _ _ _ H) as Hp.
  assert (heap_fresh F (entries (<[c := a']> A) T')) by by apply (heap_fresh_perm F _ _ (symmetry Hperm)).
  split; cbn [sy_rt sy_waiting sy_closers sy_workers sy_transit sy_tasks sy_sched]; try done.
  - apply (iv_local _ _ _ H).
  - intros c'. destruct (decide (c' = c)) as [->|Hne].
    + cbn. rewrite !lookup_insert_eq. by constructor.
    + cbn. rewrite !lookup_insert_ne by done. apply (iv_workers _ _ _ H).
  - apply targets_insert; [done|]. pose proof (iv_targets _ _ _ H) as Ht.
    rewrite Forall_forall in Ht |- *. auto.
  - f_equal. symmetry. apply heap_of_perm; [|done].
    by destruct (heap_fresh_perm F _ _ (symmetry Hperm) Hfresh).
  - cbn. rewrite Hp, u64_small; lia.
  - lia.
  - apply closing_ok_insert; [done|]. apply (iv_closing _ _ _ H).
  - intros Hl. apply (iv_end _ _ _ H) in Hl as ->. by apply list_nil_subseteq.
  - intros Hs Hl. rewrite (iv_left _ _ _ H Hs Hl) in HL. cbn in HL.
    apply length_zero_iff_nil. lia.
Qed.

Lemma inv_worker A T s c a a' x' pcs' w' t' dp E' :
  sys_inv A T s → A !! c = Some a →
  w' = with_ctx c x' (set_pending_tasks (u64 (pending_tasks_ (sy_rt s) + dp)) (sy_rt s)) →
  pcs' = <[c := apc (ap a')]> (sy_workers s) →
  quiet_ctx (stopping (sy_sched s) (sy_closers s) c) (aq a').*1 (aresuming (ap a')) x' →
  Forall (λ t, flat (snd t)) (aq a' ++ abatch (ap a')) → aphase_ok (stopping (sy_sched s) (sy_closers s) c) a' →
  Z.of_nat (length (aentries a')) = Z.of_nat (length (aentries a)) + dp → dp ≤ 0 →
  aentries a' ++ entries (delete c A) T ≡ₚ E' → heap_fresh F E' →
  t' = MkTaskWorld (heap_of F E') ob →
  sys_inv (<[c := a']> A) T (MkSystem (sy_sched s) w' t' pcs' (sy_transit s) (sy_waiting s) (sy_closers s)).
Proof.
  intros H Ha Hw Hpc Hx' Hfl Hok Hlen Hdp HE Hfr Ht.
  eapply (inv_worker_transit A T T); try done; [by apply (iv_transit _ _ _ H)|].
  rewrite <- HE, (entries_worker A T c a Ha), !length_app. lia.
Qed.

(** The measure of what is left to do. *)
Definition weight (t : handle * body V) : nat := S (suspensions (snd t)).
Definition phase_weight (p : aphase V) : nat :=
  match p with AExited => 0 | AIdle => 1 | ABatch _ => 2 | _ => 3 end.
Definition worker_weight a : nat :=
  (sum_list_with (λ t, 5 * weight t) (aq a) +
   sum_list_with (λ t, 5 * weight t - 2) (abatch (ap a)) + phase_weight (ap a))%nat.
Definition sys_weight A T (waiting : bool) ks : nat :=
  (sum_list_with (λ p, worker_weight (snd p)) (map_to_list A) +
   sum_list_with (λ p, 6 * weight (snd p)) T + closing_weight (dom A) waiting ks)%nat.

Lemma sys_weight_worker A T l ks c a : A !! c = Some a →
  sys_weight A T l ks =
    (worker_weight a + sum_list_with (λ p, worker_weight (snd p)) (map_to_list (delete c A)) +
     sum_list_with (λ p, 6 * weight (snd p)) T + closing_weight (dom A) l ks)%nat.
Proof.
  intros Ha. unfold sys_weight.
  rewrite (sum_list_with_perm _ _ _ (symmetry (map_to_list_delete A c a Ha))). cbn. lia.
Qed.

Lemma closing_weight_insert A l ks c a : is_Some (A !! c) →
  closing_weight (dom (<[c := a]> A)) l ks = closing_weight (dom A) l ks.
Proof. intros Hc. by rewrite dom_insert_lookup_L. Qed.

Lemma sys_weight_insert A T l ks c a a' : A !! c = Some a →
  (worker_weight a' < worker_weight a)%nat →
  (sys_weight (<[c := a']> A) T l ks < sys_weight A T l ks)%nat.
Proof.
  intros Ha Hw. rewrite (sys_weight_worker A T l ks c a Ha).
  rewrite (sys_weight_worker (<[c := a']> A) T l ks c a' (lookup_insert_eq _ _ _)).
  rewrite delete_insert_eq, closing_weight_insert by by eexists. lia.
Qed.

(** ** The steps of a worker *)

#[local] Ltac count_tac :=
  unfold aentries; cbn; repeat (rewrite ?length_app, ?length_fmap; cbn); lia.

Definition advances A T s s' : Prop := ∃ A' T',
  sys_inv A' T' s' ∧ (sys_weight A' T' (sy_waiting s') (sy_closers s') < sys_weight A T (sy_waiting s) (sy_closers s))%nat.

Lemma heap_split E h f E' : heap_fresh F E → E ≡ₚ (h, f) :: E' →
  heap_of F E = <[h := f]> (heap_of F E') ∧ heap_of F E' !! h = None ∧ h ≠ null ∧ heap_fresh F E'.
Proof.
  intros Hf Hp. pose proof (heap_fresh_perm F _ _ Hp Hf) as Hf'.
  apply heap_fresh_cons in Hf' as (H1 & H2 & H3). split_and!; try done.
  rewrite (heap_of_perm F _ _ (proj1 Hf) Hp). apply heap_of_cons.
Qed.

Lemma sum_list_with_weight (f g : handle * body V → nat) (l : list (handle * body V)) k :
  (∀ t, f t + k <= g t)%nat → (sum_list_with f l + k * length l <= sum_list_with g l)%nat.
Proof. intros H. induction l as [|t l IH]; cbn; [lia|]. pose proof (H t). lia. Qed.

Lemma sum_list_with_take (f : handle * body V → nat) n l :
  (sum_list_with f (take n l) + sum_list_with f (drop n l) = sum_list_with f l)%nat.
Proof. by rewrite <- sum_list_with_app, take_drop. Qed.

Lemma step_pop A T s c n batch w' t' :
  sys_inv A T s → sy_workers s !! c = Some PIdle →
  on_worker c (worker_pop c) (sy_rt s) (sy_tasks s) (n, batch) w' t' → n ≠ 0%nat →
  advances A T s (MkSystem (sy_sched s) w' t' (<[c := PBatch batch]> (sy_workers s))
    (sy_transit s) (sy_waiting s) (sy_closers s)).
Proof.
  intros H Hpc Hon Hn.
  destruct (iv_worker _ _ _ _ _ H Hpc) as (a & x & Ha & Hx & Eap & Hc & Hq & Hfl & Hok).
  destruct a as [q p]. destruct p; try discriminate Eap. cbn [aq ap abatch aresuming] in *.
  rewrite (iv_tasks _ _ _ H) in Hon.
  destruct (worker_pop_effect c (sy_rt s) (heap_of F (entries A T)) ob x _ _ 0 (iv_local _ _ _ H)
    (iv_pending_range _ _ _ H) Hx Hq) as (x' & Hx' & Hon').
  destruct (on_worker_det _ _ _ _ _ _ _ _ _ _ Hon Hon') as (E & -> & ->). injection E as -> Hb.
  assert (Hne : q ≠ []) by (intros ->; done).
  assert (Hbatch : batch = (take kProcessBatchSize q).*1).
  { rewrite Hb, fmap_take. by destruct q. }
  set (a' := MkAWorker (drop kProcessBatchSize q) (ABatch (take kProcessBatchSize q))).
  assert (Hent : aentries a' = (task_entry <$> drop kProcessBatchSize q) ++
    (task_entry <$> take kProcessBatchSize q)) by (unfold aentries; cbn; by rewrite app_nil_r).
  assert (Hent' : aentries a' ≡ₚ aentries (MkAWorker q AIdle)).
  { rewrite Hent, Permutation_app_comm, <- fmap_app, take_drop. unfold aentries. cbn.
    by rewrite app_nil_r. }
  exists (<[c := a']> A), T. split.
  - eapply (inv_worker A T s c _ a' x' _ _ _ 0 (entries A T)); try done.
    + cbn. by rewrite Hbatch.
    + cbn. by rewrite fmap_drop.
    + cbn. rewrite Permutation_app_comm, take_drop. by rewrite app_nil_r in Hfl.
    + rewrite Hent'. lia.
    + by rewrite Hent', (entries_worker A T c _ Ha).
    + apply (iv_fresh _ _ _ H).
  - apply (sys_weight_insert _ _ _ _ _ _ _ Ha). unfold worker_weight, a'. cbn [aq ap abatch phase_weight].
    pose proof (sum_list_with_weight (λ t, 5 * weight t - 2)%nat (λ t, 5 * weight t)%nat
      (take kProcessBatchSize q) 2 ltac:(intros t; cbv beta; unfold weight; lia)).
    pose proof (sum_list_with_take (λ t, 5 * weight t)%nat kProcessBatchSize q).
    assert (0 < length (take kProcessBatchSize q))%nat by (destruct q; [done|cbn; lia]).
    cbn [sum_list_with]. lia.
Qed.

Lemma final_frame_point (r : V + exn) : point_ (final_frame r) = PFinal.
Proof. by destruct r. Qed.

Lemma step_resume A T s c h hs fuel o w' t' :
  sys_inv A T s → sy_workers s !! c = Some (PBatch (h :: hs)) →
  on_worker c (worker_resume K fuel c h) (sy_rt s) (sy_tasks s) o w' t' →
  advances A T s (MkSystem (sy_sched s) w' t' (<[c := pc_after h hs o]> (sy_workers s))
    (sy_transit s) (sy_waiting s) (sy_closers s)).
Proof.
  intros H Hpc Hon.
  destruct (iv_worker _ _ _ _ _ H Hpc) as (a & x & Ha & Hx & Eap & Hc & Hq & Hfl & Hok).
  destruct a as [q [|ts|h0 ts|h0 r0 ts|]]; try discriminate Eap. cbn [aq ap abatch aresuming apc] in *.
  destruct ts as [|[h' b] ts]; [discriminate Eap|]. injection Eap as <- ->.
  set (R := entries (delete c A) T).
  set (E' := (task_entry <$> q) ++ (task_entry <$> ts) ++ R).
  assert (HE : entries A T ≡ₚ (h, root b) :: E').
  { rewrite (entries_worker A T c _ Ha). unfold aentries, E', R. cbn.
    rewrite app_nil_r, <- app_assoc. cbn. by rewrite <- Permutation_middle. }
  destruct (heap_split _ _ _ _ (iv_fresh _ _ _ H) HE) as (Hheap & HF & Hh & Hfr).
  apply Forall_app in Hfl as [Hfq [Hfb Hft]%Forall_cons]. cbn in Hfb.
  rewrite (iv_tasks _ _ _ H), Hheap in Hon.
  destruct (worker_resume_effect moved_from c h b (sy_rt s) _ ob x _ _ Hc (iv_local _ _ _ H)
    (iv_pending_range _ _ _ H) Hx Hq HF Hh Hfb) as (fuel' & x' & Hx' & Hon').
  destruct (worker_resume_fuel moved_from _ _ _ _ _ _ _ _ _ _ _ _ Hon Hon') as (-> & _ & -> & ->).
  assert (Hlen : ∀ f, heap_fresh F ((h, f) :: E')).
  { intros f. by apply heap_fresh_cons. }
  rewrite <- heap_of_cons.
  destruct (advance b) as [b'|] eqn:Eb.
  - destruct (advance_flat _ _ Hfb Eb) as (Hfb' & Hsus & _).
    set (a' := MkAWorker (q ++ [(h, b')]) (AYielded h ts)).
    assert (Hent : aentries a' = (task_entry <$> q) ++ (h, root b') :: (task_entry <$> ts)).
    { unfold aentries. cbn. by rewrite fmap_app, app_nil_r, <- app_assoc. }
    exists (<[c := a']> A), T. split.
    + eapply (inv_worker A T s c _ a' x' _ _ _ 0 ((h, root b') :: E')); try done.
      * cbn. by rewrite fmap_app.
      * cbn. rewrite <- app_assoc. apply Forall_app. split; [done|]. by apply Forall_cons.
      * red. cbn. rewrite fmap_app. set_solver.
      * rewrite Hent. count_tac.
      * rewrite Hent, <- app_assoc. cbn. unfold E'. by rewrite <- Permutation_middle.
    + apply (sys_weight_insert _ _ _ _ _ _ _ Ha). unfold worker_weight, a'. cbn [aq ap abatch phase_weight].
      rewrite sum_list_with_app. cbn [sum_list_with]. unfold weight. cbn [snd]. lia.
  - set (a' := MkAWorker q (AEnded h (eval b) ts)).
    exists (<[c := a']> A), T. split.
    + eapply (inv_worker A T s c _ a' x' _ _ _ 0 ((h, final_frame (eval b)) :: E')); try done.
      * cbn. by apply Forall_app.
      * count_tac.
      * unfold aentries. cbn. rewrite <- !app_assoc. cbn. unfold E'.
        by rewrite <- !Permutation_middle.
    + apply (sys_weight_insert _ _ _ _ _ _ _ Ha). unfold worker_weight, a'. cbn [aq ap abatch phase_weight].
      cbn [sum_list_with]. unfold weight. cbn [snd]. lia.
Qed.

Lemma step_finish A T s c h hs w' t' :
  sys_inv A T s → sy_workers s !! c = Some (PResumed h hs) →
  on_worker c (worker_finish K c h) (sy_rt s) (sy_tasks s) tt w' t' →
  advances A T s (MkSystem (sy_sched s) w' t' (<[c := PBatch hs]> (sy_workers s))
    (sy_transit s) (sy_waiting s) (sy_closers s)).
Proof.
  intros H Hpc Hon.
  destruct (iv_worker _ _ _ _ _ H Hpc) as (a & x & Ha & Hx & Eap & Hc & Hq & Hfl & Hok).
  pose proof (entries_worker A T c _ Ha) as HE.
  destruct a as [q [|ts|h0 ts|h0 r ts|]]; try discriminate Eap; cbn [aq ap abatch aresuming apc] in *;
    injection Eap as -> ->; rewrite (iv_tasks _ _ _ H) in Hon;
    exists (<[c := MkAWorker q (ABatch ts)]> A), T; (split;
      [|apply (sys_weight_insert _ _ _ _ _ _ _ Ha); unfold worker_weight;
        cbn [aq ap abatch phase_weight]; lia]).
  - red in Hok. cbn in Hok. apply list_elem_of_fmap in Hok as ([h' b] & -> & Hin). cbn [fst] in *.
    apply list_elem_of_split in Hin as (q1 & q2 & ->).
    destruct (heap_split _ h' (root b) ((task_entry <$> q1 ++ q2) ++ (task_entry <$> ts) ++
      entries (delete c A) T) (iv_fresh _ _ _ H)) as (Hheap & HF & Hh & Hfr).
    { rewrite HE. unfold aentries. cbn. rewrite app_nil_r, !fmap_app, <- !app_assoc. cbn.
      by rewrite <- Permutation_middle. }
    rewrite Hheap in Hon.
    destruct (worker_finish_effect moved_from c h' (root b) (sy_rt s) _ ob x _ _ (iv_local _ _ _ H)
      (iv_pending_range _ _ _ H) Hx Hq HF ltac:(right; by eexists)) as (x' & Hx' & Hon').
    destruct (on_worker_det _ _ _ _ _ _ _ _ _ _ Hon Hon') as (_ & -> & ->).
    eapply (inv_worker A T s c _ _ x' _ _ _ 0 (entries A T)); try done.
    + count_tac.
    + apply (iv_fresh _ _ _ H).
    + by rewrite Hheap.
  - destruct (heap_split _ h0 (final_frame r) (aentries (MkAWorker q (ABatch ts)) ++
      entries (delete c A) T) (iv_fresh _ _ _ H)) as (Hheap & HF & Hh & Hfr).
    { rewrite HE. unfold aentries. cbn. rewrite app_nil_r, <- !app_assoc. cbn.
      by rewrite <- !Permutation_middle. }
    rewrite Hheap in Hon.
    destruct (worker_finish_effect moved_from c h0 (final_frame r) (sy_rt s) _ ob x _ _ (iv_local _ _ _ H)
      (iv_pending_range _ _ _ H) Hx Hq HF (or_introl (final_frame_point r))) as (x' & Hx' & Hon').
    rewrite final_frame_point in Hon'.
    destruct (on_worker_det _ _ _ _ _ _ _ _ _ _ Hon Hon') as (_ & -> & ->).
    eapply (inv_worker A T s c _ _ x' _ _ _ (-1)
      (aentries (MkAWorker q (ABatch ts)) ++ entries (delete c A) T)); try done.
    count_tac.
Qed.

Lemma step_batch_end A T s c :
  sys_inv A T s → sy_workers s !! c = Some (PBatch []) →
  advances A T s (MkSystem (sy_sched s) (sy_rt s) (sy_tasks s) (<[c := PIdle]> (sy_workers s))
    (sy_transit s) (sy_waiting s) (sy_closers s)).
Proof.
  intros H Hpc.
  destruct (iv_worker _ _ _ _ _ H Hpc) as (a & x & Ha & Hx & Eap & Hc & Hq & Hfl & Hok).
  destruct a as [q [|[|]|h0 ts|h0 r ts|]]; try discriminate Eap.
  exists (<[c := MkAWorker q AIdle]> A), T. split.
  - eapply (inv_worker A T s c _ _ x _ _ _ 0 (entries A T)); try done.
    + rewrite (u64_same _ (iv_pending_range _ _ _ H)). unfold with_ctx, set_contexts, set_pending_tasks.
      cbn. rewrite insert_id by done. by destruct (sy_rt s).
    + count_tac.
    + by rewrite (entries_worker A T c _ Ha).
    + apply (iv_fresh _ _ _ H).
    + apply (iv_tasks _ _ _ H).
  - apply (sys_weight_insert _ _ _ _ _ _ _ Ha). unfold worker_weight. cbn [aq ap abatch phase_weight]. lia.
Qed.

Lemma step_exit A T s c w' t' :
  sys_inv A T s → sy_workers s !! c = Some PIdle →
  on_worker c (worker_iteration K c) (sy_rt s) (sy_tasks s) RunBreak w' t' →
  advances A T s (MkSystem (sy_sched s) w' t' (<[c := PExited]> (sy_workers s))
    (sy_transit s) (sy_waiting s) (sy_closers s)).
Proof.
  intros H Hpc Hon.
  destruct (iv_worker _ _ _ _ _ H Hpc) as (a & x & Ha & Hx & Eap & Hc & Hq & Hfl & Hok).
  destruct a as [q [|ts|h0 ts|h0 r ts|]]; try discriminate Eap. cbn [aq ap abatch aresuming apc] in *.
  rewrite (iv_tasks _ _ _ H) in Hon. pose proof (iv_pending_range _ _ _ H) as Hp.
  destruct (worker_iteration_break moved_from c _ _ _ x _ _ _ _ (iv_local _ _ _ H) Hp Hx Hq Hon)
    as [Eq Est]. apply fmap_nil_inv in Eq as ->.
  destruct (worker_iteration_effect moved_from c (sy_rt s) (heap_of F (entries A T)) ob x _
    (iv_local _ _ _ H) Hp Hx Hq) as (x' & Hx' & Hon').
  rewrite Est in Hon' at 1.
  destruct (on_worker_det _ _ _ _ _ _ _ _ _ _ Hon Hon') as (_ & -> & ->).
  exists (<[c := MkAWorker [] AExited]> A), T. split.
  - eapply (inv_worker A T s c _ _ x' _ _ _ 0 (entries A T)); try done.
    + by rewrite (entries_worker A T c _ Ha).
    + apply (iv_fresh _ _ _ H).
  - apply (sys_weight_insert _ _ _ _ _ _ _ Ha). unfold worker_weight. cbn. lia.
Qed.

Lemma step_deliver A T s tr1 tr2 c h w' :
  sys_inv A T s → sy_transit s = tr1 ++ (c, h) :: tr2 →
  Context_submit_task c h (sy_rt s) = Ok tt w' →
  advances A T s (MkSystem (sy_sched s) w' (sy_tasks s) (sy_workers s) (tr1 ++ tr2) (sy_waiting s) (sy_closers s)).
Proof.
  intros H Htr Hsub. rewrite (iv_transit _ _ _ H) in Htr.
  apply fmap_app_inv in Htr as (T1 & T2' & -> & Htr2 & ->). symmetry in Htr2.
  apply fmap_cons_inv in Htr2 as ([c' [h' b]] & T2 & [= -> ->] & -> & ->).
  pose proof (iv_targets _ _ _ H) as Htg.
  apply Forall_app in Htg as [_ [[[a Ha] Hb] _]%Forall_cons]. cbn [fst snd] in Ha, Hb.
  destruct (iv_view _ _ _ _ _ H Ha) as (Hpc & x & Hx & Hnull & (u & Hu & He & Hst) & Hfl & Hok).
  rewrite (Context_submit_task_eq _ _ _ _ Hx) in Hsub. injection Hsub as <-.
  pose proof (entries_transit A T1 T2 (c', (h', b))) as HE. cbn [snd] in HE.
  set (a' := MkAWorker (aq a ++ [(h', b)]) (ap a)).
  assert (Hent : aentries a' ≡ₚ (h', root b) :: aentries a).
  { unfold aentries. cbn. rewrite fmap_app, <- app_assoc. cbn. by rewrite <- Permutation_middle. }
  assert (HR : aentries a' ++ entries (delete c' A) (T1 ++ T2) ≡ₚ entries A (T1 ++ (c', (h', b)) :: T2)).
  { rewrite Hent, HE, (entries_worker A (T1 ++ T2) c' a Ha). done. }
  exists (<[c' := a']> A), (T1 ++ T2). split.
  - eapply (inv_worker_transit A _ (T1 ++ T2) s c' a a' _ _ _ _ _ 0); try done.
    + rewrite (u64_same _ (iv_pending_range _ _ _ H)). unfold with_ctx, set_pending_tasks, set_contexts.
      cbn. done.
    + cbn. rewrite insert_id; [done|]. by rewrite Hpc.
    + exists u. cbn. split_and!; [done| |done]. rewrite He. unfold set_tasks, quiet_engine. cbn.
      by rewrite fmap_app.
    + cbn. rewrite <- app_assoc. apply Forall_app in Hfl as [Hf1 Hf2]. apply Forall_app.
      split; [done|]. by apply Forall_cons.
    + unfold aphase_ok in *. cbn. destruct (ap a) eqn:Eap; try done.
      * rewrite fmap_app. set_solver.
      * exfalso. destruct Hok as [_ Hstop].
        pose proof (iv_stopping _ _ _ _ Hstop H) as Hn. by destruct T1.
    + by rewrite fmap_app.
    + intros p. rewrite !elem_of_app, elem_of_cons. naive_solver.
    + lia.
    + apply (iv_fresh _ _ _ H).
    + apply (iv_tasks _ _ _ H).
  - cbn [sy_waiting sy_closers].
    rewrite (sys_weight_worker (<[c' := a']> A) _ _ _ c' a' (lookup_insert_eq _ _ _)).
    rewrite (sys_weight_worker A _ _ _ c' a Ha), delete_insert_eq, closing_weight_insert by by eexists.
    unfold worker_weight. cbn [aq ap a'].
    rewrite !sum_list_with_app. cbn [sum_list_with snd]. unfold weight. lia.
Qed.

(** ** The steps of the threads that shut the runtime down *)

Lemma entries_transit_nil A T : entries A T = [] → T = [].
Proof.
  unfold entries. intros [_ H]%app_eq_nil. by apply fmap_nil_inv in H.
Qed.

Lemma entries_resting A : (∀ c a, A !! c = Some a → aentries a = []) → entries A [] = [].
Proof.
  intros HA. unfold entries. rewrite app_nil_r. apply elem_of_nil_inv. intros e He.
  apply list_elem_of_bind in He as ([c a] & He & Hin%elem_of_map_to_list).
  cbn [snd] in He. rewrite (HA c a Hin) in He. by apply not_elem_of_nil in He.
Qed.

(** The scheduler and the closing threads change, each worker sees the same
    stop flag, and no task moves. *)
Lemma inv_closers A T s x' l' ks' : sys_inv A T s →
  (∀ c, is_Some (A !! c) → stopping x' ks' c = stopping (sy_sched s) (sy_closers s) c) →
  closing_ok (dom A) x' l' ks' → (accepting_ x' = false → T = []) →
  (stop_requested_ x' = false → l' = false → entries A T = []) →
  sys_inv A T (MkSystem x' (sy_rt s) (sy_tasks s) (sy_workers s) (sy_transit s) l' ks').
Proof.
  intros [I1 I2 I3 I4 I5 I6 I7 I8 I9 I10 I11] Hst Hcl Hend Hleft. split; cbn; try done.
  intros c. specialize (I2 c). destruct (A !! c) eqn:Ea; [by rewrite Hst|].
  inversion I2; constructor.
Qed.

Lemma sys_weight_closing A T l l' ks ks' : (closing_weight (dom A) l' ks' < closing_weight (dom A) l ks)%nat →
  (sys_weight A T l' ks' < sys_weight A T l ks)%nat.
Proof. unfold sys_weight. lia. Qed.

Lemma step_leave A T s :
  sys_inv A T s → sy_waiting s = true → loop_ready (MkSched (sy_sched s) (sy_rt s)) = true →
  advances A T s (MkSystem (set_accepting false (sy_sched s)) (sy_rt s) (sy_tasks s)
    (sy_workers s) (sy_transit s) false (sy_closers s ++ [CEnter])).
Proof.
  intros H Hl Hr. pose proof (iv_closing _ _ _ H) as Hcl. rewrite Hl in Hcl.
  destruct (closing_leave _ _ _ Hcl) as (Hcl' & Hst & Hw).
  assert (Hnone : stop_requested_ (sy_sched s) = false → entries A T = []).
  { intros Hs. unfold loop_ready in Hr. cbn in Hr. rewrite Hs in Hr. apply Z.eqb_eq in Hr.
    rewrite (iv_pending _ _ _ H) in Hr. apply length_zero_iff_nil. lia. }
  exists A, T. split.
  - apply inv_closers; try done.
    + intros _. destruct (accepting_ (sy_sched s)) eqn:Ea; [|by apply (iv_end _ _ _ H)].
      destruct (proj1 Hcl Ea) as (_ & _ & _ & Hs). by eapply entries_transit_nil, Hnone.
    + intros Hs _. by apply Hnone.
  - cbn [sy_waiting sy_closers]. rewrite Hl. by apply sys_weight_closing.
Qed.

Lemma step_shutdown A T s ks1 ks2 cs x' :
  sys_inv A T s → sy_closers s = ks1 ++ CEnter :: ks2 →
  shutdown_locked (sy_sched s) = Ok (Some cs) x' →
  advances A T s (MkSystem x' (sy_rt s) (sy_tasks s) (sy_workers s) (sy_transit s) (sy_waiting s)
    (ks1 ++ CHolds cs cs :: ks2)).
Proof.
  intros H Hks Hlock. pose proof (iv_closing _ _ _ H) as Hcl. rewrite Hks in Hcl.
  destruct (closing_shutdown _ _ _ _ _ _ _ Hcl Hlock) as (Hcl' & Hst & Ha & Ha' & Hs & Hw).
  exists A, T. split.
  - apply inv_closers; try done.
    + intros c Hc. rewrite Hks. apply Hst. by apply elem_of_dom.
    + intros _. by apply (iv_end _ _ _ H).
    + rewrite Hs. apply (iv_left _ _ _ H).
  - cbn [sy_waiting sy_closers]. rewrite Hks. by apply sys_weight_closing.
Qed.

Lemma step_shutdown_off A T s ks1 ks2 x' :
  sys_inv A T s → sy_closers s = ks1 ++ CEnter :: ks2 →
  shutdown_locked (sy_sched s) = Ok None x' →
  advances A T s (MkSystem x' (sy_rt s) (sy_tasks s) (sy_workers s) (sy_transit s) (sy_waiting s)
    (ks1 ++ ks2)).
Proof.
  intros H Hks Hlock. pose proof (iv_closing _ _ _ H) as Hcl. rewrite Hks in Hcl.
  destruct (closing_shutdown_off _ _ _ _ _ _ Hcl Hlock) as (-> & Hcl' & Hst & Hw).
  exists A, T. split.
  - apply inv_closers; try done.
    + intros c _. by rewrite Hks.
    + apply (iv_end _ _ _ H).
    + apply (iv_left _ _ _ H).
  - cbn [sy_waiting sy_closers]. rewrite Hks. by apply sys_weight_closing.
Qed.

(** A thread that has the contexts. *)
Lemma iv_holds A T s ks1 ks2 cs todo : sys_inv A T s → sy_closers s = ks1 ++ CHolds cs todo :: ks2 →
  T = [] ∧ (∀ c, c ∈ cs ↔ is_Some (A !! c)) ∧ todo ⊆ cs ∧
  ∀ c, stopping (sy_sched s) (sy_closers s) c = bool_decide (c ∉ todo).
Proof.
  intros H Hks. pose proof (iv_closing _ _ _ H) as Hcl. rewrite Hks in Hcl.
  destruct (closing_holds _ _ _ _ _ _ _ Hcl) as (Ei & Ea & _ & _ & Hcs & _ & Hsub & Hst).
  rewrite Hks. split_and!; [by apply (iv_end _ _ _ H)| |done|done].
  intros c. by rewrite Hcs, elem_of_dom.
Qed.

Lemma step_notify A T s ks1 ks2 cs c todo w' :
  sys_inv A T s → sy_closers s = ks1 ++ CHolds cs (c :: todo) :: ks2 →
  Context_notify_stop c (sy_rt s) = Ok tt w' →
  advances A T s (MkSystem (sy_sched s) w' (sy_tasks s) (sy_workers s) (sy_transit s) (sy_waiting s)
    (ks1 ++ CHolds cs todo :: ks2)).
Proof.
  intros H Hks Hnot. pose proof (iv_closing _ _ _ H) as Hcl. rewrite Hks in Hcl.
  destruct (closing_notify _ _ _ _ _ _ _ _ Hcl) as (Hc & Hcl' & Hno & Hst & Hw).
  apply elem_of_dom in Hc as [a Ha].
  destruct (iv_view _ _ _ _ _ H Ha) as (Hpc & x & Hx & Hnull & (u & Hu & He & _) & Hfl & Hok).
  rewrite (Context_notify_stop_eq _ _ _ Hx) in Hnot. injection Hnot as <-.
  exists A, T. split.
  - destruct H as [I1 I2 I3 I4 I5 I6 I7 I8 I9 I10 I11]. split; cbn; try done.
    intros c'. specialize (I2 c'). rewrite Hst. rewrite Hks in I2, Hok. case_decide as E; [subst c'|].
    + rewrite lookup_insert_eq, Ha, Hpc. constructor; try done; [by exists u|].
      rewrite Hno in Hok. unfold aphase_ok in *. destruct (ap a); try done. by destruct Hok.
    + by rewrite lookup_insert_ne.
  - cbn [sy_waiting sy_closers]. rewrite Hks. by apply sys_weight_closing.
Qed.

Lemma step_joined A T s ks1 ks2 cs w' :
  sys_inv A T s → sy_closers s = ks1 ++ CHolds cs [] :: ks2 →
  Forall (λ c, sy_workers s !! c = Some PExited) cs → shutdown_destroy cs (sy_rt s) = Ok tt w' →
  advances A T s (MkSystem (sy_sched s) w' (sy_tasks s) ∅ (sy_transit s) (sy_waiting s) (ks1 ++ ks2)).
Proof.
  intros H Hks Hex Hdes. destruct (iv_holds _ _ _ _ _ _ _ H Hks) as (-> & Hcs & _).
  pose proof (iv_closing _ _ _ H) as Hcl. rewrite Hks in Hcl.
  destruct (closing_joined _ _ _ _ _ _ Hcl) as (_ & Hcl' & Hw).
  destruct (shutdown_destroy_eq cs (sy_rt s)) as (m & Hm & Hml).
  rewrite Hdes in Hm. injection Hm as ->. rewrite Forall_forall in Hex.
  assert (He : entries A [] = []).
  { apply entries_resting. intros c a Ha.
    destruct (iv_view _ _ _ _ _ H Ha) as (Hpc & _ & _ & _ & _ & _ & Hok).
    rewrite Hex in Hpc by by apply Hcs. destruct a as [q []]; try discriminate Hpc.
    destruct Hok as [Eq _]. cbn in Eq. by subst q. }
  assert (E0 : entries ∅ [] = (@nil (handle * frame V))).
  { unfold entries. by rewrite map_to_list_empty. }
  exists ∅, []. split.
  - destruct H as [I1 I2 I3 I4 I5 I6 I7 I8 I9 I10 I11].
    rewrite He in I5, I6, I7, I8. split; cbn; rewrite ?E0; try done.
    + intros c. rewrite !lookup_empty, Hml.
      specialize (I2 c). specialize (Hcs c). destruct (decide (c ∈ cs)) as [|Hc]; [constructor|].
      destruct (A !! c) eqn:EA; [destruct Hc; by apply Hcs|].
      inversion I2. constructor.
  - cbn [sy_waiting sy_closers]. unfold sys_weight. rewrite Hks, dom_empty_L, map_to_list_empty. cbn. lia.
Qed.

(** No worker waits for its ring. *)
Lemma no_io A T s c : sys_inv A T s → sy_workers s !! c = Some PIdle → io_awaited c (sy_rt s) → False.
Proof.
  intros H Hpc (x & Hx & Hn). destruct (iv_worker _ _ _ _ _ H Hpc) as (a & x' & _ & Hx' & _ & _ & Hq & _).
  rewrite Hx in Hx'. injection Hx' as <-. destruct Hq as (u & _ & He & _). by rewrite He in Hn.
Qed.

(** Every step of the runtime keeps the invariant and comes closer to the end. *)
Lemma inv_work_step A T s s' : sys_inv A T s → work_step K s s' → advances A T s s'.
Proof.
  intros H Hstep. inversion Hstep; subst.
  - exact (step_deliver A T _ tr1 tr2 c h w' H eq_refl ltac:(eassumption)).
  - by eapply (step_pop A T _ _ _ _ _ _ H).
  - by eapply (step_resume A T _ _ _ _ _ _ _ _ H).
  - match goal with r : Empty_set |- _ => destruct r end.
  - by eapply (step_finish A T _ _ _ _ _ _ H).
  - by eapply (step_batch_end A T _ _ H).
  - exfalso. by eapply (no_io A T _ _ H).
  - by eapply (step_exit A T _ _ _ _ H).
  - by eapply (step_leave A T _ H).
  - by eapply (step_shutdown A T _ _ _ _ _ H).
  - by eapply (step_shutdown_off A T _ _ _ _ H).
  - by eapply (step_notify A T _ _ _ _ _ _ _ H).
  - by eapply (step_joined A T _ _ _ _ _ H).
Qed.

(** ** Submissions *)

Lemma inv_submit A T s h t' c x' w' :
  sys_inv A T s → task_call h (sy_tasks s) t' →
  submit_locked (MkSched (sy_sched s) (sy_rt s)) = Ok (Some c) (MkSched x' w') →
  ∃ T', sys_inv A T' (MkSystem x' w' t' (sy_workers s)
    (sy_transit s ++ [(c, h)]) (sy_waiting s) (sy_closers s)).
Proof.
  intros H [b Hh Hfr Hb Hroom] Hsub. exists (T ++ [(c, (h, b))]).
  assert (HD : ∀ c', c' ∈ dom A → c' ≠ null ∧ is_Some (rt_contexts (sy_rt s) !! c')).
  { intros c' [a Ha]%elem_of_dom. destruct (iv_view _ _ _ _ _ H Ha) as (_ & x & -> & Hc & _). by split. }
  destruct (closing_submit _ _ _ _ _ _ _ (iv_closing _ _ _ H) HD Hsub)
    as (Hc & Ha & Hi & Hl & Hks & Hstop & x1 & [= -> ->] & Hcl & Hst & Ha' & Hs').
  pose proof (entries_transit A T [] (c, (h, b))) as HE. rewrite app_nil_r in HE. cbn [snd] in HE.
  rewrite (iv_tasks _ _ _ H) in Hfr, Hroom |- *. cbn [frames set_frames] in *.
  rewrite (heap_of_size F _ (iv_fresh _ _ _ H)) in Hroom.
  assert (Hfresh : heap_fresh F ((h, root b) :: entries A T)).
  { apply heap_fresh_cons. split_and!; try done. apply (iv_fresh _ _ _ H). }
  pose proof (iv_pending _ _ _ H) as Hp. apply elem_of_dom in Hc.
  pose proof (iv_workers _ _ _ H) as Hw.
  split; cbn [sy_rt sy_waiting sy_closers sy_workers sy_transit sy_tasks sy_sched]; try congruence.
  - apply (iv_local _ _ _ H).
  - intros c'. rewrite Hst. apply Hw.
  - rewrite fmap_app. f_equal. apply (iv_transit _ _ _ H).
  - apply Forall_app. split; [apply (iv_targets _ _ _ H)|]. by apply Forall_singleton.
  - unfold set_frames. cbn. f_equal. rewrite <- heap_of_cons. apply heap_of_perm; [|done].
    apply Hfresh.
  - by apply (heap_fresh_perm F _ _ (symmetry HE)).
  - cbn. rewrite HE, Hp. cbn [length task_entry]. rewrite u64_small; lia.
  - rewrite HE. cbn [length]. lia.
Qed.

Lemma inv_refused A T s h t1 w' t' : sys_inv A T s → task_call h (sy_tasks s) t1 →
  task_destroy K h (sy_rt s, t1) = Ok tt (w', t') → w' = sy_rt s ∧ t' = sy_tasks s.
Proof.
  intros H [b Hh Hfr Hb Hroom] Hd. rewrite (iv_tasks _ _ _ H) in Hd, Hfr |- *.
  cbn [frames task_objects] in Hfr. unfold set_frames in Hd. cbn [frames task_objects] in Hd.
  unfold task_destroy in Hd. cbn [co_destroy tk_coroutines tasks_of task_coroutines] in Hd.
  unfold zoom in Hd. cbn [lget lset lens_snd snd fst] in Hd.
  rewrite (handle_destroy_root _ _ _ _ Hfr) in Hd. by injection Hd as <- <-.
Qed.

Lemma inv_stop A T s go x' : sys_inv A T s → sy_transit s = [] →
  stop_locked (sy_sched s) = Ok go x' →
  sys_inv A T (MkSystem x' (sy_rt s) (sy_tasks s) (sy_workers s) (sy_transit s) (sy_waiting s)
    (if go then sy_closers s ++ [CEnter] else sy_closers s)).
Proof.
  intros H Htr Hst. rewrite (iv_transit _ _ _ H) in Htr. apply fmap_nil_inv in Htr as ->.
  destruct (closing_stop _ _ _ _ _ _ (iv_closing _ _ _ H) Hst) as (Hcl & Hs & [[-> ->]|(-> & Ha & Hr)]).
  - by destruct s.
  - apply inv_closers; try done; congruence.
Qed.

Lemma inv_env_step A T s s' : sys_inv A T s → env_step K s s' → ∃ T', sys_inv A T' s'.
Proof.
  intros H Hstep. inversion Hstep as [x w t pcs tr l ks h t' c x' w' Hcall Hsub|x w t pcs tr l ks h t1 w' t' Hcall _ Hd|]; subst.
  - exact (inv_submit A T _ h t' c x' w' H Hcall Hsub).
  - exists T. destruct (inv_refused A T _ h t1 w' t' H Hcall Hd) as [E1 E2]. cbn in E1, E2. by subst.
  - exists T. by eapply (inv_stop A T _ go x' H).
Qed.

(** ** Progress *)

Lemma progress_transit A T s : sys_inv A T s → T ≠ [] → ∃ s', work_step K s s'.
Proof.
  intros H HT. destruct T as [|[c [h b]] T]; [done|]. destruct s as [x w t pcs tr l ks].
  pose proof (iv_transit _ _ _ H) as Htr. cbn in Htr. subst tr.
  destruct (Forall_inv (iv_targets _ _ _ H)) as [[a Ha] _]. cbn in Ha.
  destruct (iv_view _ _ _ _ _ H Ha) as (_ & y & Hy & _). cbn in Hy.
  eexists. eapply (sy_deliver K x w t pcs []).
  by apply Context_submit_task_eq.
Qed.

(** The next block of a worker is defined. *)
Lemma worker_block A T s c a : sys_inv A T s → A !! c = Some a →
  match ap a with
  | AIdle => ∃ p w' t', on_worker c (worker_pop c) (sy_rt s) (sy_tasks s) p w' t' ∧
      (fst p = 0%nat ↔ aq a = [])
  | ABatch ((h, _) :: _) =>
      ∃ fuel w' t', on_worker c (worker_resume K fuel c h) (sy_rt s) (sy_tasks s) None w' t'
  | AYielded h _ | AEnded h _ _ =>
      ∃ w' t', on_worker c (worker_finish K c h) (sy_rt s) (sy_tasks s) tt w' t'
  | _ => True
  end.
Proof.
  intros H Ha. destruct (iv_view _ _ _ _ _ H Ha) as (_ & x & Hx & Hc & Hq & Hfl & Hok).
  pose proof (iv_pending_range _ _ _ H) as Hp. pose proof (iv_local _ _ _ H) as Hl.
  pose proof (entries_worker A T c a Ha) as HE. pose proof (iv_fresh _ _ _ H) as Hfresh.
  rewrite (iv_tasks _ _ _ H).
  destruct a as [q [|[|[h b] ts]|h ts|h r ts|]]; cbn [ap aq apc aresuming abatch] in *; try done.
  - destruct (worker_pop_effect c (sy_rt s) (heap_of F (entries A T)) ob x _ _ 0 Hl Hp Hx Hq)
      as (x' & _ & Hon).
    eexists _, _, _. split; [exact Hon|]. cbn [fst]. by destruct q.
  - destruct (heap_split (entries A T) h (root b) ((task_entry <$> q) ++ (task_entry <$> ts) ++
      entries (delete c A) T)) as (Hheap & HF & Hh & _); [done| |].
    { rewrite HE. unfold aentries. cbn. rewrite app_nil_r, <- app_assoc. cbn.
      by rewrite <- Permutation_middle. }
    apply Forall_app in Hfl as [_ [Hb _]%Forall_cons].
    destruct (worker_resume_effect moved_from c h b (sy_rt s) _ ob x _ _ Hc Hl Hp Hx Hq HF Hh Hb)
      as (fuel & x' & _ & Hon). rewrite <- Hheap in Hon. by eexists _, _, _.
  - red in Hok. cbn in Hok. apply list_elem_of_fmap in Hok as ([h' b] & -> & Hin). cbn [fst] in *.
    apply list_elem_of_split in Hin as (q1 & q2 & ->).
    destruct (heap_split (entries A T) h' (root b) ((task_entry <$> q1 ++ q2) ++ (task_entry <$> ts) ++
      entries (delete c A) T)) as (Hheap & HF & Hh & _); [done| |].
    { rewrite HE. unfold aentries. cbn. rewrite app_nil_r, !fmap_app, <- !app_assoc. cbn.
      by rewrite <- Permutation_middle. }
    destruct (worker_finish_effect moved_from c h' (root b) (sy_rt s) _ ob x _ _ Hl Hp Hx Hq HF
      ltac:(right; by eexists)) as (x' & _ & Hon). rewrite <- Hheap in Hon. by eexists _, _.
  - destruct (heap_split (entries A T) h (final_frame r) (aentries (MkAWorker q (ABatch ts)) ++
      entries (delete c A) T)) as (Hheap & HF & Hh & _); [done| |].
    { rewrite HE. unfold aentries. cbn. rewrite app_nil_r, <- !app_assoc. cbn.
      by rewrite <- !Permutation_middle. }
    destruct (worker_finish_effect moved_from c h (final_frame r) (sy_rt s) _ ob x _ _ Hl Hp Hx Hq HF
      (or_introl (final_frame_point r))) as (x' & _ & Hon). rewrite <- Hheap in Hon. by eexists _, _.
Qed.

Lemma progress_worker A T s c a : sys_inv A T s → A !! c = Some a →
  (∃ s', work_step K s s') ∨ aentries a = [] ∧ (ap a = AIdle ∨ ap a = AExited).
Proof.
  intros H Ha. destruct (iv_view _ _ _ _ _ H Ha) as (Hpc & _ & _ & _ & _ & _ & Hok).
  pose proof (worker_block A T s c a H Ha) as Hb. destruct s as [sx w t pcs tr l ks].
  destruct a as [q [|[|[h b] ts]|h ts|h r ts|]]; cbn [ap aq apc sy_rt sy_workers sy_tasks] in *.
  - destruct Hb as ([k batch] & w' & t' & Hon & Hk). destruct q; [by right; split; [|left]|left].
    eexists. eapply (sy_pop K); [done|exact Hon|]. intros E. by apply Hk in E.
  - left. eexists. by eapply (sy_batch_end K).
  - left. destruct Hb as (fuel & w' & t' & Hon). eexists. by eapply (sy_resume K).
  - left. destruct Hb as (w' & t' & Hon). eexists. by eapply (sy_finish K).
  - left. destruct Hb as (w' & t' & Hon). eexists. by eapply (sy_finish K).
  - destruct Hok as [Eq _]. cbn in Eq. subst q. by right; split; [|right].
Qed.

Lemma progress_workers A T s : sys_inv A T s →
  (∃ s', work_step K s s') ∨
  ∀ c a, A !! c = Some a → aentries a = [] ∧ (ap a = AIdle ∨ ap a = AExited).
Proof.
  intros H.
  assert (Hl : (∃ s', work_step K s s') ∨ Forall (λ p : ptr * aworker V,
    aentries (snd p) = [] ∧ (ap (snd p) = AIdle ∨ ap (snd p) = AExited)) (map_to_list A)).
  { assert (Hin : ∀ p, p ∈ map_to_list A → A !! fst p = Some (snd p))
      by (intros []; apply elem_of_map_to_list).
    induction (map_to_list A) as [|p l IH]; [by right|].
    destruct (progress_worker A T s _ _ H (Hin p ltac:(by left))) as [Hs|Hp]; [by left|].
    destruct IH as [Hs|Hf]; [intros q Hq; apply Hin; by right|by left|].
    right. by apply Forall_cons. }
  destruct Hl as [Hs|Hf]; [by left|right]. intros c a Ha. rewrite Forall_forall in Hf.
  by apply (Hf (c, a)), elem_of_map_to_list.
Qed.

Lemma progress_joining A s ks1 ks2 cs : sys_inv A [] s → sy_closers s = ks1 ++ CHolds cs [] :: ks2 →
  (∀ c a, A !! c = Some a → aentries a = [] ∧ (ap a = AIdle ∨ ap a = AExited)) →
  ∃ s', work_step K s s'.
Proof.
  intros H Hks Hrest. destruct (iv_holds _ _ _ _ _ _ _ H Hks) as (_ & Hcs & _ & Hst).
  destruct (decide (Forall (λ c, sy_workers s !! c = Some PExited) cs)) as [Hex|Hex].
  - destruct (shutdown_destroy_eq cs (sy_rt s)) as (m & Hm & _). destruct s as [x w t pcs tr l ks].
    cbn in *. subst ks. eexists. by eapply (sy_joined K).
  - apply not_Forall_Exists in Hex; [|intros c; apply _].
    apply Exists_exists in Hex as (c & Hc & Hpc).
    apply Hcs in Hc as [a Ha]. destruct (Hrest c a Ha) as [He Hap].
    destruct (iv_view _ _ _ _ _ H Ha) as (Hpc' & x & Hx & Hn & Hq & _).
    destruct Hap as [Hap|Hap]; [|cbn in Hpc; rewrite Hpc', Hap in Hpc; by destruct Hpc].
    assert (aq a = []) as Eq.
    { destruct a as [[|t q] p]; [done|]. done. }
    rewrite Eq, Hap, Hst, bool_decide_true in Hq by apply not_elem_of_nil. cbn in Hq.
    destruct (worker_iteration_effect moved_from c (sy_rt s) (heap_of F (entries A [])) ob x true
      (iv_local _ _ _ H) (iv_pending_range _ _ _ H) Hx Hq) as (x' & _ & Hon).
    rewrite <- (iv_tasks _ _ _ H) in Hon. rewrite Hap in Hpc'. destruct s as [sx w t pcs tr l ks].
    eexists. by eapply (sy_exit K).
Qed.

Lemma progress_closers A s k ks : sys_inv A [] s → sy_closers s = k :: ks →
  (∀ c a, A !! c = Some a → aentries a = [] ∧ (ap a = AIdle ∨ ap a = AExited)) →
  ∃ s', work_step K s s'.
Proof.
  intros H Hks Hrest. destruct k as [|cs [|c todo]].
  - destruct s as [x w t pcs tr l ks']. cbn in Hks. subst ks'.
    destruct (initialized_ x) eqn:Ei; eexists.
    + eapply (sy_shutdown K _ _ _ _ _ _ []). unfold shutdown_locked, bind, get. by rewrite Ei.
    + eapply (sy_shutdown_off K _ _ _ _ _ _ []). unfold shutdown_locked, bind, get. by rewrite Ei.
  - by eapply (progress_joining A s [] ks).
  - destruct (iv_holds A [] s [] ks cs (c :: todo) H Hks) as (_ & Hcs & Hsub & _).
    destruct (Hcs c) as [[a Ha] _]; [apply Hsub; by left|].
    destruct (iv_view _ _ _ _ _ H Ha) as (_ & x & Hx & _).
    destruct s as [sx w t pcs tr l ks']. cbn in *. subst ks'. eexists.
    eapply (sy_notify K _ _ _ _ _ _ []). by apply Context_notify_stop_eq.
Qed.

Lemma progress A T s : sys_inv A T s → closed s = false → ∃ s', work_step K s s'.
Proof.
  intros H Hl. destruct T as [|p T]; [|by eapply (progress_transit A (p :: T))].
  destruct (progress_workers A [] s H) as [Hs|Hrest]; [done|].
  destruct (sy_closers s) as [|k ks] eqn:Eks; [|by eapply progress_closers].
  unfold closed in Hl. rewrite Eks, andb_true_r in Hl. apply negb_false_iff in Hl.
  pose proof (iv_pending _ _ _ H) as Hp.
  rewrite entries_resting in Hp by (intros c a Ha; by apply (Hrest c)).
  destruct s as [x w t pcs tr l ks]. cbn in *. subst l ks.
  eexists. apply (sy_leave K). unfold loop_ready. cbn. rewrite Hp. by rewrite orb_true_r.
Qed.
End run.
