(* ===== verification/SystemProps.v ===== *)
(** * Properties of the runtime as a whole *)

From S2P Require Import Prelude Runtime Uring Engine EngineProps Task TaskRun Context WorkerRun Dispatcher Scheduler SchedulerProps System SystemClose SystemStart SystemInv SystemRun.

Open Scope Z_scope.

Section system_props.
Context {U : Type} `{!Liburing U, !LiburingLaws U, !LiburingIdle U} {V : Type}.
Implicit Types (w : rt_world U).

Lemma start_inv n (t : task_world V) (s : system U (task_world V) Empty_set) : 0 ≤ n < 2 ^ 64 → sys_start n t s →
  ∃ A, sys_inv (frames t) (task_objects t) A [] s.
Proof.
  intros Hn [x w Hinit].
  destruct (init_started idle_ring (idle_init kQueueDepth) n x w Hn Hinit)
    as (Hl & _ & Hp & Hq & Hcl & Hst & Hacc).
  set (A := gset_to_gmap (MkAWorker (V := V) [] AIdle) (list_to_set (contexts_ x))).
  assert (HA : ∀ c, A !! c = if decide (c ∈ contexts_ x) then Some (MkAWorker [] AIdle) else None).
  { intros c. unfold A. rewrite lookup_gset_to_gmap. case_decide as Hc.
    - by rewrite option_guard_True by by apply elem_of_list_to_set.
    - rewrite option_guard_False; [done|]. by rewrite elem_of_list_to_set. }
  assert (E0 : entries A [] = []).
  { apply entries_resting. intros c a. rewrite HA. case_decide; [|done]. by intros [= <-]. }
  assert (EF : heap_of (frames t) [] = frames t).
  { unfold heap_of. cbn. apply map_union_empty_l || apply (left_id_L ∅ (∪)). }
  exists A. split; cbn [sy_rt sy_waiting sy_closers sy_workers sy_transit sy_tasks sy_sched]; rewrite ?E0, ?EF; try done.
  - intros c. rewrite Hst, HA, lookup_gset_to_gmap. specialize (Hq c). case_decide as Hc.
    + destruct (rt_contexts w !! c) as [y|]; [|done]. destruct Hq as (_ & Hnull & Hs & u & Hu & He).
      rewrite option_guard_True by by apply elem_of_list_to_set.
      apply (worker_ok_some _ c (MkAWorker [] AIdle) y Hnull); try done. by exists u.
    + destruct (rt_contexts w !! c) as [y|]; [by destruct Hq|].
      rewrite option_guard_False by by rewrite elem_of_list_to_set. constructor.
  - by destruct t.
  - split; [apply NoDup_nil_2|constructor].
  - unfold A. by rewrite dom_gset_to_gmap.
Qed.

Context (moved_from : V → V).

Lemma sys_reachable_inv n t (s : system U (task_world V) Empty_set) : 0 ≤ n < 2 ^ 64 → sys_reachable (tasks_of moved_from) n t s →
  ∃ A T, sys_inv (frames t) (task_objects t) A T s.
Proof.
  intros Hn (s0 & Hs0 & Hrtc). destruct (start_inv n t s0 Hn Hs0) as [A HA].
  assert (H0 : ∃ A T, sys_inv (frames t) (task_objects t) A T s0) by by exists A, [].
  clear A HA Hs0. induction Hrtc as [|s0 s1 s2 Hstep _ IH]; [done|]. apply IH.
  destruct H0 as (A & T & H). destruct Hstep as [Hstep|Hstep].
  - destruct (inv_env_step _ _ _ _ _ _ _ H Hstep) as [T' H']. by exists A, T'.
  - destruct (inv_work_step _ _ _ _ _ _ _ H Hstep) as (A' & T' & H' & _). by exists A', T'.
Qed.

(** ** What the observer sees, in terms of the view *)

Lemma bind_map_values {X Y Z} (f : X → list Z) (g : Y → list Z) (m : gmap ptr X) (m' : gmap ptr Y) :
  f <$> m = g <$> m' →
  (map_to_list m ≫= λ p, f (snd p)) ≡ₚ (map_to_list m' ≫= λ p, g (snd p)).
Proof.
  assert (H : ∀ W (h : W → list Z) (q : gmap ptr W),
    (map_to_list q ≫= λ p, h (snd p)) ≡ₚ (map_to_list (h <$> q) ≫= snd)).
  { intros W h q. rewrite map_to_list_fmap. induction (map_to_list q) as [|[c a] l IH]; [done|].
    cbn. by rewrite IH. }
  intros Heq. rewrite (H _ f), (H _ g). by rewrite Heq.
Qed.

Lemma fmap_view {X} (f : X → list handle) (g : aworker V → list handle)
    (m : gmap ptr X) (A : gmap ptr (aworker V)) :
  (∀ c, match A !! c, m !! c with
        | Some a, Some x => f x = g a | None, None => True | _, _ => False end) →
  (map_to_list m ≫= λ p, f (snd p)) ≡ₚ (map_to_list A ≫= λ p, g (snd p)).
Proof.
  intros H. apply bind_map_values, map_eq. intros c. rewrite !lookup_fmap. specialize (H c).
  destruct (A !! c), (m !! c); cbn; try done. by f_equal.
Qed.

Lemma ending_view F ob A T (s : system U (task_world V) Empty_set) c a : sys_inv F ob A T s → A !! c = Some a →
  ending_of (tasks_of (U := U) moved_from) (sy_tasks s) (apc (ap a)) = (aended (ap a)).*1.
Proof.
  intros H Ha. destruct (iv_view _ _ _ _ _ _ _ H Ha) as (_ & _ & _ & _ & _ & _ & Hok).
  rewrite (iv_tasks _ _ _ _ _ H). destruct (iv_fresh _ _ _ _ _ H) as [Hnd _].
  assert (Hin : ∀ h f, (h, f) ∈ aentries a → heap_of F (entries A T) !! h = Some f).
  { intros h f Hf. apply heap_of_lookup_in; [done|]. rewrite (entries_worker A T c a Ha).
    apply elem_of_app. by left. }
  destruct a as [q [|ts|h ts|h r ts|]]; try done; unfold ending_of; cbn [ap apc aended tk_ended tasks_of];
    unfold frame_ended; cbn [frames].
  - red in Hok. cbn in Hok. apply list_elem_of_fmap in Hok as ([h' b] & -> & Hq).
    rewrite (Hin _ (root b)); [done|]. unfold aentries. apply elem_of_app. left.
    apply list_elem_of_fmap. by exists (h', b).
  - rewrite (Hin _ (final_frame r)); [by rewrite final_frame_point|]. unfold aentries. cbn.
    rewrite !elem_of_app. right. right. by left.
Qed.

Lemma view_keys (A : gmap ptr (aworker V)) T :
  (entries A T).*1 ≡ₚ (T.*2).*1 ++ (map_to_list A ≫= λ p, (aq (snd p)).*1) ++
    (map_to_list A ≫= λ p, (abatch (ap (snd p))).*1) ++
    (map_to_list A ≫= λ p, (aended (ap (snd p))).*1).
Proof.
  unfold entries. rewrite fmap_app, Permutation_app_comm. f_equiv.
  { by rewrite <- !list_fmap_compose. }
  rewrite <- !bind_perm_app. induction (map_to_list A) as [|[c a] l IH]; [done|].
  cbn. rewrite fmap_app. rewrite IH. f_equiv. unfold aentries.
  by rewrite !fmap_app, !task_entry_keys.
Qed.

Lemma view_tasks F ob A T (s : system U (task_world V) Empty_set) : sys_inv F ob A T s →
  waiting s ++ ending (tasks_of moved_from) s ≡ₚ (entries A T).*1.
Proof.
  intros H. rewrite view_keys. unfold waiting. rewrite <- !app_assoc. f_equiv; [|f_equiv; [|f_equiv]].
  - by rewrite (iv_transit _ _ _ _ _ H), <- !list_fmap_compose.
  - apply (fmap_view (λ x, task_queue_ (ctx_engine_ x)) (λ a, (aq a).*1)). intros c.
    destruct (iv_workers _ _ _ _ _ H c) as [|a x _ (u & _ & -> & _)]; done.
  - apply (fmap_view batch_of (λ a, (abatch (ap a)).*1)). intros c.
    destruct (iv_workers _ _ _ _ _ H c) as [|[q []] x]; done.
  - apply (fmap_view (ending_of (tasks_of (U := U) moved_from) (sy_tasks s)) (λ a, (aended (ap a)).*1)). intros c.
    pose proof (iv_workers _ _ _ _ _ H c) as Hw. destruct (A !! c) as [a|] eqn:Ha.
    + inversion Hw. by apply (ending_view F ob A T s c).
    + by inversion Hw.
Qed.

(** ** Runs of the runtime *)

Lemma inv_acc F ob A T (s : system U (task_world V) Empty_set) : sys_inv F ob A T s → Acc (flip (work_step (tasks_of moved_from))) s.
Proof.
  remember (sys_weight A T (sy_waiting s) (sy_closers s)) as k eqn:Hk. revert A T s Hk.
  induction (lt_wf k) as [k _ IH]. intros A T s -> H. constructor. intros s' Hstep.
  destruct (inv_work_step _ _ _ _ _ _ _ H Hstep) as (A' & T' & H' & Hlt).
  by eapply (IH _ Hlt).
Qed.

Lemma inv_rtc F ob A T (s s' : system U (task_world V) Empty_set) : sys_inv F ob A T s → rtc (work_step (tasks_of moved_from)) s s' →
  ∃ A' T', sys_inv F ob A' T' s'.
Proof.
  intros H Hrtc. revert A T H. induction Hrtc as [|s s1 s' Hstep _ IH]; intros A T H; [by exists A, T|].
  destruct (inv_work_step _ _ _ _ _ _ _ H Hstep) as (A' & T' & H' & _). by apply (IH A' T').
Qed.

Lemma inv_ends F ob A T (s : system U (task_world V) Empty_set) : sys_inv F ob A T s →
  ∃ s', rtc (work_step (tasks_of moved_from)) s s' ∧ closed s' = true.
Proof.
  intros H. pose proof (inv_acc F ob A T s H) as Hacc. revert A T H.
  induction Hacc as [s _ IH]. intros A T H.
  destruct (closed s) eqn:Hl; [by exists s|].
  destruct (progress moved_from F ob A T s H Hl) as [s1 Hs1].
  destruct (inv_work_step _ _ _ _ _ _ _ H Hs1) as (A' & T' & H' & _).
  destruct (IH s1 Hs1 A' T' H') as (s' & Hr & Hd). exists s'. split; [|done]. by eapply rtc_l.
Qed.

Lemma inv_done F ob A T (s : system U (task_world V) Empty_set) : sys_inv F ob A T s → rt_contexts (sy_rt s) = ∅ →
  sy_tasks s = MkTaskWorld F ob ∧ pending_tasks_ (sy_rt s) = 0 ∧ entries A T = [] ∧
  sy_transit s = [] ∧ sy_workers s = ∅.
Proof.
  intros H Hc. assert (A = ∅) as ->.
  { apply map_eq. intros c. pose proof (iv_workers _ _ _ _ _ H c) as Hw.
    rewrite Hc, lookup_empty in Hw. rewrite lookup_empty. by inversion Hw. }
  assert (T = []) as ->.
  { destruct T as [|p T]; [done|]. destruct (Forall_inv (iv_targets _ _ _ _ _ H)) as [[a Ha] _].
    by rewrite lookup_empty in Ha. }
  assert (E0 : entries ∅ [] = (@nil (handle * frame V))).
  { apply entries_resting. intros c a. by rewrite lookup_empty. }
  rewrite (iv_tasks _ _ _ _ _ H), (iv_pending _ _ _ _ _ H), E0, (iv_transit _ _ _ _ _ H).
  split_and!; try done.
  - unfold heap_of. cbn. by rewrite (left_id_L ∅ (∪)).
  - apply map_eq. intros c. pose proof (iv_workers _ _ _ _ _ H c) as Hw.
    rewrite lookup_empty in *. by inversion Hw.
Qed.

Lemma inv_closed F ob A T (s : system U (task_world V) Empty_set) : sys_inv F ob A T s → closed s = true →
  rt_contexts (sy_rt s) = ∅.
Proof.
  unfold closed. intros H [Hw Hk]%andb_true_iff. apply negb_true_iff in Hw.
  pose proof (iv_closing _ _ _ _ _ H) as Hcl. rewrite Hw in Hcl.
  destruct (sy_closers s); [|done]. apply closing_closed, dom_empty_inv_L in Hcl. subst A.
  apply map_eq. intros c. pose proof (iv_workers _ _ _ _ _ H c) as Hc.
  rewrite lookup_empty in *. by inversion Hc.
Qed.
End system_props.

(** ** Properties *)




(** ** A run: one context, and a task that yields once *)

Definition demo_tasks : task_world Z := MkTaskWorld {[7%N := root (BReturn 1)]} ∅.

Definition demo_system : system sim_ring (task_world Z) Empty_set :=
  MkSystem (MkScheduler [1%N] (MkDispatcher 1 1) false true true)
    (set_pending_tasks 1 (sched_rt demo_sched))
    (set_frames (<[2%N := root demo_yields]> (frames demo_tasks)) demo_tasks)
    {[1%N := PIdle]} [(1%N, 2%N)] true [].

Lemma demo_system_reachable : sys_reachable (tasks_of id) 1 demo_tasks demo_system.
Proof.
  exists (MkSystem (sched_ demo_sched) (sched_rt demo_sched) demo_tasks {[1%N := PIdle]} [] true []).
  split.
  - apply (sys_start_intro 1 demo_tasks (sched_ demo_sched) (sched_rt demo_sched)).
    exact demo_sched_init.
  - apply rtc_once. left.
    eapply (sy_submit _ _ _ demo_tasks _ [] true [] 2%N _ 1%N); [by constructor|reflexivity].
Qed.



