(* ===== verification/Responsive.v ===== *)
(** * A kernel that answers

    Reads and writes may take as long as they take; this file states when they
    end: a new ring has room, it accepts what is submitted, reports no errors of
    its own, and a request it has accepted is answered after finitely many
    looks.  On such a ring [poll_io] does not throw, and every call of it brings
    the engine closer to having nothing to wait for. *)

From S2P Require Import Prelude Uring Engine EngineProps.

Open Scope Z_scope.

Class LiburingResponsive (U : Type) `{!Liburing U, !LiburingLaws U} := {
  (** how many more looks at the completion queue will find nothing *)
  response_time : U → nat;
  (** a new ring has the entries asked for *)
  responsive_init : ∀ depth r u, depth < 2 ^ 32 → io_uring_queue_init depth = (r, u) → 0 ≤ r →
    depth ≤ sq_entries u < 2 ^ 64;
  responsive_submit : ∀ u, sqes_prepared u ≠ [] → 0 < fst (io_uring_submit u);
  responsive_peek : ∀ u, let '(r, cqe, u') := io_uring_peek_cqe u in
    (r = - EAGAIN ∨ 0 ≤ r) ∧
    (r < 0 ∨ cqe = None → sqes_accepted u ≠ [] → (response_time u' < response_time u)%nat);
}.

#[export, refine] Instance sim_responsive : LiburingResponsive sim_ring := {|
  response_time := λ _, 0%nat;
|}.
Proof.
  - intros depth r u Hd [= <- <-] _. cbn. lia.
  - intros u. cbn. destruct (sim_sq u); cbn; [done|lia].
  - intros u. cbn. destruct (sim_cq u); cbn; [|split; [by right|by intros [|[=]]]].
    split; [by left|]. by intros _ [].
Defined.

(** ** Programs that do not throw *)

Definition nothrow {S A} (m : M S A) (s : S) : Prop := ∀ e s', m s ≠ Throw e s'.

Lemma wp_nothrow {S A} (m : M S A) s Q E : wp m s Q E → nothrow m s → wp m s Q (λ _ _, False).
Proof. unfold wp, nothrow. destruct (m s) as [a s'|e s'| | |]; try done. intros _ H. by apply (H e s'). Qed.

Lemma nothrow_bind {S A B} (m : M S A) (f : A → M S B) s :
  nothrow m s → (∀ a s', m s = Ok a s' → nothrow (f a) s') → nothrow (bind m f) s.
Proof.
  unfold nothrow, bind. intros Hm Hf e s'. destruct (m s) as [a s1|e1 s1| | |]; try done.
  - by apply Hf.
  - by destruct (Hm e1 s1).
Qed.

Lemma nothrow_zoom {S A X} `{!Lens S A} (m : M A X) (s : S) : nothrow m (lget s) → nothrow (zoom m) s.
Proof.
  unfold nothrow, zoom. intros Hm e s'. destruct (m (lget s)) as [a s1|e1 s1| | |]; try done.
  by destruct (Hm e1 s1).
Qed.

Section responsive.
Context {U : Type} `{!Liburing U, !LiburingLaws U, !LiburingResponsive U}.
Implicit Types (e : Engine U) (w : engine_world U) (u : U).

Lemma nothrow_submit fuel n e : pending_submit_count_ e = Z.of_nat (length (sqes_prepared (uring_ e))) →
  pending_submit_count_ e < 2 ^ 64 → nothrow (poll_submit fuel n) e.
Proof.
  revert n e. induction fuel as [|fuel IH]; intros n e Hp Hlt; cbn [poll_submit]; intros ex s';
    unfold bind at 1, get; destruct (Z.gtb_spec (pending_submit_count_ e) 0) as [Hpos|]; try done.
  pose proof (law_submit (uring_ e)) as H. pose proof (responsive_submit (uring_ e)) as Hr.
  unfold bind at 1, zoom, IoUring_submit. cbn [lget engine_uring].
  destruct (io_uring_submit (uring_ e)) as [k u]. cbn [fst] in Hr. destruct H as [_ H].
  assert (Hk : 0 < k) by (apply Hr; intros E; rewrite E in Hp; cbn in Hp; lia).
  destruct H as [(? & _)|(_ & Hsplit & Hlen & _)]; [lia|].
  assert (Hl : Z.of_nat (length (sqes_prepared (uring_ e))) = k + Z.of_nat (length (sqes_prepared u))).
  { apply (f_equal length) in Hsplit. rewrite length_app in Hsplit. lia. }
  replace (k <=? 0) with false by lia. cbn [lset].
  rewrite u64_small by lia. unfold bind at 1. change (lset u e) with (set_uring u e).
  cbn [pending_submit_count_ set_uring].
  replace (k >? pending_submit_count_ e) with false by lia.
  unfold bind, modify. cbn [pending_submit_count_ set_uring]. rewrite (u64_small (_ - k)) by lia.
  apply IH; cbn; lia.
Qed.

Lemma nothrow_peek u : nothrow IoUring_try_wait_one u.
Proof.
  pose proof (responsive_peek u) as H. unfold nothrow, IoUring_try_wait_one, bind.
  destruct (io_uring_peek_cqe u) as [[r cqe] u']. destruct H as [[->|Hr] _]; [done|].
  intros e s'. rewrite (proj2 (Z.ltb_ge r 0) Hr). by destruct cqe.
Qed.

Lemma nothrow_complete n w : nothrow (poll_complete n) w.
Proof.
  revert w. induction n as [|n IH]; intros w; cbn [poll_complete]; [done|].
  apply nothrow_bind; [apply nothrow_zoom, nothrow_zoom, nothrow_peek|]. intros [info|] w1 _; [|done].
  apply nothrow_bind; [|intros a w2 _].
  { unfold nothrow, io_op_at, bind, get. intros e s'. by destruct (io_ops w1 !! _). }
  apply nothrow_bind; [done|intros [] w3 _]. apply nothrow_bind; [done|intros [] w4 _].
  apply nothrow_bind; [done|intros [] w5 _]. apply nothrow_bind; [apply IH|done].
Qed.

(** ** What a poll keeps *)

Definition keeps {S A X} (f : S → X) (m : M S A) : Prop := ∀ s a s', m s = Ok a s' → f s' = f s.

Lemma keeps_bind {S A B X} (f : S → X) (m : M S A) (k : A → M S B) :
  keeps f m → (∀ a, keeps f (k a)) → keeps f (bind m k).
Proof.
  intros Hm Hk s b s'. unfold bind. destruct (m s) as [a s1|e s1| | |] eqn:E; try done.
  intros Hb. by rewrite (Hk a _ _ _ Hb), (Hm _ _ _ E).
Qed.
Lemma keeps_ret {S A X} (f : S → X) (a : A) : keeps f (ret a).
Proof. by intros s b s' [= _ ->]. Qed.
Lemma keeps_get {S X} (f : S → X) : keeps f get.
Proof. by intros s b s' [= _ ->]. Qed.
Lemma keeps_modify {S X} (f : S → X) g : (∀ s, f (g s) = f s) → keeps f (modify g).
Proof. intros H s b s' [= _ <-]. apply H. Qed.
Lemma keeps_throw {S A X} (f : S → X) ex : keeps f (throw (A := A) ex).
Proof. done. Qed.
Lemma keeps_zoom {S A X Y} `{!Lens S A} (f : S → X) (g : A → X) (m : M A Y) :
  (∀ s, f s = g (lget s)) → keeps g m → keeps f (zoom m).
Proof.
  intros Hf Hm s b s'. unfold zoom. destruct (m (lget s)) as [a s1|e s1| | |] eqn:E; try done.
  intros [= <- <-]. by rewrite !Hf, lget_lset, (Hm _ _ _ E).
Qed.
(** What is done to the ring. *)
Lemma keeps_ring {Y} (m : M U Y) : keeps (inflight_tasks_ (U := U)) (zoom m).
Proof.
  intros e a e'. unfold zoom. destruct (m (lget e)); try done. by intros [= <- <-].
Qed.

#[local] Ltac keep :=
  repeat first [apply keeps_bind; [|intros ?]|apply keeps_ret|apply keeps_get|apply keeps_throw|
                apply keeps_ring|apply keeps_modify; by intros [] ].

Lemma poll_waiting_keeps n : keeps (inflight_tasks_ (U := U)) (poll_waiting n).
Proof.
  induction n as [|n IH]; cbn [poll_waiting]; [keep|]. apply keeps_bind; [keep|]. intros e.
  destruct (io_waiting_queue_ e); unfold push_task, on_io_inflight_end; keep; done.
Qed.
Lemma poll_submit_keeps fuel n : keeps (inflight_tasks_ (U := U)) (poll_submit fuel n).
Proof.
  revert n. induction fuel as [|fuel IH]; intros n; cbn [poll_submit]; (apply keeps_bind; [keep|]);
    intros e; destruct (_ >? 0); try (keep; done).
  apply keeps_bind; [keep|]. intros k. destruct (k <=? 0); [keep|]. apply keeps_bind; [keep|]. intros e'.
  destruct (_ >? _); keep. apply IH.
Qed.

Abbreviation resuming := (λ w : engine_world U, inflight_tasks_ (engine_ w)).

Lemma keeps_engine {Y} (m : M (Engine U) Y) : keeps inflight_tasks_ m → keeps resuming (zoom m).
Proof. by apply keeps_zoom. Qed.

Lemma io_op_at_keeps p : keeps resuming (io_op_at p).
Proof. intros w a w'. unfold io_op_at, bind, get. destruct (io_ops w !! p); cbn; [|done]. by intros [= _ <-]. Qed.

Lemma poll_prepare_keeps k n : keeps resuming (poll_prepare k n).
Proof.
  induction n as [|n IH]; cbn [poll_prepare]; [keep|]. apply keeps_bind; [keep|]. intros w.
  destruct (submit_queue k (engine_ w)); [keep|].
  apply keeps_bind; [apply keeps_engine, keeps_modify; by destruct k; intros []|intros _].
  apply keeps_bind; [apply io_op_at_keeps|intros a].
  apply keeps_bind; [apply keeps_engine; keep|intros _].
  apply keeps_bind; [apply keeps_engine; keep|intros _]. apply keeps_bind; [done|intros m]. keep.
Qed.

Lemma poll_complete_keeps n : keeps resuming (poll_complete n).
Proof.
  induction n as [|n IH]; cbn [poll_complete]; [keep|].
  apply keeps_bind; [apply keeps_engine; keep|intros [info|]]; [|keep].
  apply keeps_bind; [apply io_op_at_keeps|intros a].
  apply keeps_bind; [by apply keeps_modify|intros _].
  apply keeps_bind; [apply keeps_engine; unfold push_task; keep|intros _].
  apply keeps_bind; [apply keeps_engine; unfold on_io_inflight_end; keep|intros _].
  apply keeps_bind; [done|intros m]. keep.
Qed.

Lemma poll_io_keeps n : keeps resuming (poll_io n).
Proof.
  unfold poll_io, poll_io_locked. destruct (Nat.eqb n 0); [keep|].
  apply keeps_bind; [|intros r; apply keeps_bind; [apply poll_complete_keeps|intros m; keep]].
  apply keeps_bind; [apply keeps_engine, poll_waiting_keeps|intros k].
  apply keeps_bind; [apply poll_prepare_keeps|intros k1].
  apply keeps_bind; [apply poll_prepare_keeps|intros k2]. apply keeps_bind; [keep|intros w].
  apply keeps_engine, poll_submit_keeps.
Qed.

(** ** A poll makes progress *)

Lemma poll_io_returns n w : engine_wf w → poll_room n w →
  ∃ r w', poll_io n w = Ok r w' ∧ poll_done n w r w'.
Proof.
  intros Hw Hr. apply wp_ok. eapply wp_nothrow; [by apply wp_poll_io|].
  unfold poll_io. destruct (Nat.eqb_spec n 0) as [->|Hn]; [done|].
  apply nothrow_bind; [|intros r w1 _; apply nothrow_bind; [apply nothrow_complete|done]].
  destruct Hr as ([Hn0 Hn31] & Hp0 & Hroom). unfold poll_io_locked.
  destruct w as [e ops]. cbn [engine_ io_ops] in *.
  destruct (poll_waiting_wf n e ops Hw) as (Hrun & Hw1 & Hs1). set (e1 := set_inflight_io _ _) in *.
  apply nothrow_bind; [apply nothrow_zoom; unfold nothrow; cbn [lget engine_world_engine engine_]; by rewrite Hrun|]. intros moved w1 E1.
  assert (w1 = MkEngineWorld e1 ops) as ->.
  { unfold zoom in E1. cbn [lget lset engine_world_engine engine_] in E1. rewrite Hrun in E1. by injection E1. }
  destruct (wp_ok _ _ _ (wp_poll_prepare IoRead n (MkEngineWorld e1 ops) (λ _ _, False) Hw1 ltac:(cbn; lia)))
    as (reads & w2 & E2 & R1 & R2 & _ & _ & R5 & R6 & _).
  apply nothrow_bind; [unfold nothrow; by rewrite E2|]. intros ? ? E2'. rewrite E2 in E2'. injection E2' as <- <-.
  assert (Hreads : (reads ≤ n)%nat) by (rewrite R5, length_take; lia).
  pose proof (sw_entries _ _ R2) as Ren. cbn in R6, Ren.
  destruct (wp_ok _ _ _ (wp_poll_prepare IoWrite (n - reads) w2 (λ _ _, False) R1 ltac:(lia)))
    as (writes & w3 & E3 & W1 & W2 & _ & _ & W5 & W6 & _).
  apply nothrow_bind; [unfold nothrow; by rewrite E3|]. intros ? ? E3'. rewrite E3 in E3'. injection E3' as <- <-.
  apply nothrow_bind; [done|]. intros ? ? [= <- <-]. apply nothrow_zoom.
  assert (Hwrites : (writes ≤ n - reads)%nat) by (rewrite W5, length_take; lia).
  apply nothrow_submit; [apply (ew_pending _ W1)|cbn; lia].
Qed.

(** What the engine still has to wait for, requests not yet submitted
    counting twice. *)
Definition io_left e : nat :=
  length (io_waiting_queue_ e) + length (io_read_submit_queue_ e) + length (io_write_submit_queue_ e) +
  (length (io_waiting_queue_ e) + length (in_flight e)).

Lemma poll_io_lowers n w r w' : (0 < n)%nat → poll_done n w r w' →
  io_waiting_queue_ (engine_ w) ≠ [] ∨ io_read_submit_queue_ (engine_ w) ≠ [] ∨
    io_write_submit_queue_ (engine_ w) ≠ [] →
  (io_left (engine_ w') < io_left (engine_ w))%nat.
Proof.
  intros Hn [_ [Hh _ _ _] [l Hl] Hwt Hrd Hwr _ _] Hne. unfold io_left.
  apply Permutation_length in Hh. unfold engine_handles in Hh.
  rewrite !length_app, !length_fmap, Hl, !length_app in Hh. rewrite Hwt, Hrd, Hwr in *.
  rewrite !length_drop, !length_take in *.
  assert (Hlen : ∀ (l : list N), l ≠ [] → (0 < length l)%nat) by (intros []; cbn; [done|lia]).
  destruct Hne as [H%Hlen|[H%Hlen|H%Hlen]]; lia.
Qed.

(** What a poll no longer has to wait for, it has queued. *)
Lemma poll_io_room n w r w' : poll_done n w r w' →
  (io_left (engine_ w') + length (task_queue_ (engine_ w')) ≤
   io_left (engine_ w) + length (task_queue_ (engine_ w)))%nat.
Proof.
  intros [_ [Hh _ _ _] _ Hwt Hrd Hwr _ _]. unfold io_left.
  apply Permutation_length in Hh. unfold engine_handles in Hh.
  rewrite !length_app, !length_fmap in Hh. rewrite Hwt, Hrd, Hwr in *.
  rewrite !length_drop in *. lia.
Qed.

(** A poll of an engine whose requests are all with the kernel. *)
Lemma poll_io_quiet_queues n e ops : io_waiting_queue_ e = [] → io_read_submit_queue_ e = [] →
  io_write_submit_queue_ e = [] → pending_submit_count_ e = 0 →
  poll_io (S n) (MkEngineWorld e ops) =
    (let! m := poll_complete (S n) in ret (if Nat.ltb 0 m then u64 (Z.of_nat m) else 0))
      (MkEngineWorld e ops).
Proof.
  intros Hw Hr Hwr Hp. unfold poll_io. cbn [Nat.eqb].
  rewrite (bind_ok _ _ _ 0 (MkEngineWorld e ops)); [by unfold bind; destruct (poll_complete _ _)|].
  assert (He : ∀ k, poll_prepare k (S n) (MkEngineWorld e ops) = Ok 0%nat (MkEngineWorld e ops)).
  { intros k. cbn [poll_prepare]. unfold bind at 1, get. cbn [engine_]. destruct k; cbn [submit_queue]; by rewrite ?Hr, ?Hwr. }
  unfold poll_io_locked. rewrite (bind_ok _ _ _ 0%nat (MkEngineWorld e ops)).
  - rewrite (bind_ok _ _ _ _ _ (He IoRead)). rewrite Nat.sub_0_r, (bind_ok _ _ _ _ _ (He IoWrite)).
    unfold bind at 1, get. cbn [engine_]. rewrite Hp.
    assert (Es : poll_submit (Z.to_nat 0) (Z.of_nat 0) e = Ok 0 e).
    { clear -Hp. destruct e as [????? p ??]. cbn in Hp. by subst p. }
    unfold zoom. cbn [lget engine_world_engine engine_]. by rewrite Es.
  - unfold zoom. cbn [lget engine_world_engine engine_ poll_waiting]. unfold bind, get. by rewrite Hw.
Qed.

(** What a poll leaves, and that it comes closer to the end, unless there is
    nothing to wait for. *)
Lemma poll_answers n w : engine_wf w → poll_room (S n) w →
  ∃ r w', poll_io (S n) w = Ok r w' ∧ engine_wf w' ∧ same_work w w' ∧
    pending_submit_count_ (engine_ w') = 0 ∧
    inflight_tasks_ (engine_ w') = inflight_tasks_ (engine_ w) ∧
    (io_left (engine_ w') + length (task_queue_ (engine_ w')) ≤
     io_left (engine_ w) + length (task_queue_ (engine_ w)))%nat ∧
    ((io_waiting_queue_ (engine_ w) = [] ∧ in_flight (engine_ w) = [] ∧ r = 0) ∨
     (io_left (engine_ w') < io_left (engine_ w))%nat ∨
     in_flight (engine_ w) ≠ [] ∧ io_left (engine_ w') = io_left (engine_ w) ∧
       (response_time (uring_ (engine_ w')) < response_time (uring_ (engine_ w)))%nat).
Proof.
  intros Hw Hr. destruct (poll_io_returns (S n) w Hw Hr) as (r & w' & E & Hd).
  exists r, w'. split_and!; [done|by destruct Hd..|by eapply poll_io_keeps|by eapply poll_io_room|].
  destruct w as [e ops]. cbn [engine_].
  destruct (decide (io_waiting_queue_ e = [] ∧ io_read_submit_queue_ e = [] ∧ io_write_submit_queue_ e = []))
    as [(H1 & H2 & H3)|Hne].
  2: { right. left. apply (poll_io_lowers (S n) _ r _ (Nat.lt_0_succ n) Hd). cbn.
       destruct (decide (io_waiting_queue_ e = [])), (decide (io_read_submit_queue_ e = [])); tauto. }
  destruct Hr as (_ & Hp & _). cbn in Hp. pose proof (ew_pending _ Hw) as Hpe. cbn in Hpe. rewrite Hp in Hpe.
  assert (Hprep : sqes_prepared (uring_ e) = []) by (apply length_zero_iff_nil; lia).
  rewrite poll_io_quiet_queues in E by done.
  destruct (wp_ok _ _ _ (wp_nothrow _ _ _ _ (wp_poll_complete (S n) _ Hw) (nothrow_complete _ _)))
    as (m & w1 & Em & _ & Hs & C3 & C4 & C5 & _ & Hlen & _).
  rewrite (bind_ok _ _ _ _ _ Em) in E. injection E as Er <-. cbn in C3, C4, C5, Hlen.
  assert (Hleft : length (in_flight (engine_ w1)) = (length (in_flight e) - m)%nat ∧ (m ≤ length (in_flight e))%nat).
  { pose proof (Permutation_length (sw_handles _ _ Hs)) as Hl. unfold engine_handles in Hl.
    rewrite !length_app, !length_fmap, C3 in Hl. cbn in Hl. lia. }
  destruct m as [|m].
  2: { right. left. unfold io_left. rewrite C3, C4, C5. lia. }
  assert (Ein : io_left (engine_ w1) = io_left e) by (unfold io_left; rewrite C3, C4, C5; lia).
  destruct (decide (in_flight e = [])) as [Hno|Hsome]; [by left|]. right. right. split_and!; [done..|].
  assert (Hacc : sqes_accepted (uring_ e) ≠ []).
  { intros Ea. apply Hsome. unfold in_flight, outstanding. by rewrite H2, H3, Hprep, Ea. }
  cbn [poll_complete] in Em. pose proof (responsive_peek (uring_ e)) as Hpk. pose proof (nothrow_peek (uring_ e)) as Hnt.
  unfold bind at 1, zoom at 1 2 in Em. cbn [lget engine_world_engine engine_uring engine_] in Em.
  unfold IoUring_try_wait_one, bind at 1 2 in Em. unfold nothrow, IoUring_try_wait_one, bind in Hnt.
  destruct (io_uring_peek_cqe (uring_ e)) as [[rc cqe] u]. destruct Hpk as [_ Hpk].
  destruct (Z.ltb_spec rc 0) as [Hneg|_].
  - destruct (rc =? - EAGAIN); [|by destruct (Hnt _ _ eq_refl)]. injection Em as <-. cbn. apply Hpk; [by left|done].
  - destruct cqe as [info|]; [|injection Em as <-; cbn; apply Hpk; [by right|done]].
    exfalso. revert Em. unfold bind, modify, ret. repeat (case_match; simplify_eq; try done).
Qed.
End responsive.
