(* ===== verification/MultisetOrder.v ===== *)
(** * The multiset order

    A list, up to permutation, shrinks when one element is replaced by any
    number of smaller ones; over a well-founded order this ends.  Used for
    work that creates more work. *)

From S2P Require Import Prelude.

Lemma tc_acc {X} (R : X → X → Prop) x : Acc R x → Acc (tc R) x.
Proof.
  induction 1 as [x _ IH]. constructor. intros y Hy. revert IH.
  induction Hy as [y x Hyx|y z x Hyz Hzx IHz]; intros IH; [by apply IH|].
  apply Acc_inv with z; [by apply IHz|by apply tc_once].
Qed.
Lemma tc_wf {X} (R : X → X → Prop) : well_founded R → well_founded (tc R).
Proof. intros H x. by apply tc_acc. Qed.

Section multiset.
Context {X : Type} (R : X → X → Prop).

Definition multiset_lt (l' l : list X) : Prop :=
  ∃ x ys r, l ≡ₚ x :: r ∧ l' ≡ₚ ys ++ r ∧ Forall (λ y, R y x) ys.

#[export] Instance multiset_lt_proper : Proper ((≡ₚ) ==> (≡ₚ) ==> iff) multiset_lt.
Proof.
  intros l1 l2 E k1 k2 F. unfold multiset_lt. by setoid_rewrite E; setoid_rewrite F.
Qed.

Lemma multiset_acc_perm l l' : l ≡ₚ l' → Acc multiset_lt l → Acc multiset_lt l'.
Proof. intros E [H]. constructor. intros k Hk. apply H. by rewrite E. Qed.

Lemma multiset_acc_nil : Acc multiset_lt [].
Proof. constructor. intros l (x & ys & r & E%Permutation_nil_l & _). done. Qed.

Lemma multiset_acc_cons x l : Acc R x → Acc multiset_lt l → Acc multiset_lt (x :: l).
Proof.
  intros Hx. revert l. induction Hx as [x _ IHx]. intros l Hl. induction Hl as [l Hl IHl].
  constructor. intros k (x0 & ys & r & E & Ek & Hys).
  apply (multiset_acc_perm (ys ++ r)); [done|].
  assert (Hin : x0 ∈ x :: l) by (rewrite E; by left).
  apply elem_of_cons in Hin as [->|Hin].
  - apply Permutation_cons_inv in E. apply (multiset_acc_perm (ys ++ l)); [by rewrite E|].
    clear Ek. induction Hys as [|y ys Hy _ IH]; [by constructor|]. cbn. by apply IHx.
  - apply list_elem_of_split in Hin as (l1 & l2 & ->).
    assert (E' : x :: l1 ++ l2 ≡ₚ r).
    { apply (Permutation_cons_inv (a := x0)). rewrite <- E. by rewrite <- Permutation_middle, perm_swap. }
    apply (multiset_acc_perm (x :: ys ++ l1 ++ l2)).
    { rewrite <- E'. by rewrite <- !Permutation_middle. }
    apply IHl. exists x0, ys, (l1 ++ l2). split_and!; [by rewrite <- Permutation_middle|done..].
Qed.

Lemma multiset_lt_wf : well_founded R → well_founded multiset_lt.
Proof.
  intros Hwf l. induction l as [|x l IH]; [apply multiset_acc_nil|]. by apply multiset_acc_cons.
Qed.
End multiset.
