(* ===== verification/Program.v ===== *)
(** * Tasks that use the primitives on a worker

    Coroutines of [Task<void>] whose bodies yield, lock mutexes, send to and
    receive from a channel, wait for a wait group, read and write, and submit
    further tasks to the scheduler; all on the thread of one context, whose
    queue receives the coroutines the primitives and the ring wake.  A body is data: its next operation and
    what it does with the result.  [co_await] is the language's sequence of
    the awaiter's three functions; the functions are those of the
    components.  An awaiter lives in the frame of the coroutine that awaits
    it, so its address is given by the coroutine's handle, and that of a
    [LockGuard] by the handle and the mutex. *)

From S2P Require Import Prelude Runtime Channel AsyncMutex WaitGroup Uring Engine Context.

Open Scope Z_scope.

(** ** Bodies *)

Section data.
Context (T : Type).

Inductive op :=
| OYield                  (** [co_await yield()] *)
| OLock (m : ptr)         (** [auto guard = co_await m.lock()] *)
| OUnlock (m : ptr)       (** the end of that guard's scope *)
| OSend (v : T)           (** [co_await ch.send(v)] *)
| OReceive                (** [co_await ch.receive()] *)
| OTrySend (v : T)
| OTryReceive
| OClose                  (** [ch.close()] *)
| ODone                   (** [wg.done()] *)
| OWait                   (** [co_await wg.wait()] *)
| OIoOnce                 (** [co_await io_suspend_once()] *)
| OIo (k : io_kind) (fd : Z) (buf : ptr) (len offset : Z).
                          (** [co_await io::read(..)], [co_await io::write(..)] *)

Inductive result :=
| RUnit
| RBool (b : bool)
| RValue (o : option T)
| RCount (n : Z)
| RThrown (e : exn).

Inductive script :=
| SReturn
| SOp (o : op) (k : result → script)
| SSubmit (child : script) (k : script).   (** [submit_to_scheduler(child())] *)

(** Where a coroutine is suspended, and the guards in scope, the last one
    first. *)
Inductive place :=
| PStart (s : script)
| PAwait (o : op) (k : result → script)
| PRun
| PEnd.

Record coro := MkCoro { co_place : place; co_guards : list ptr }.

Record prog_world := MkProg {
  pg_coros : gmap handle coro;
  pg_chan : chan_world T;
  pg_mutex : mutex_world;
  pg_wg : WaitGroup;
}.
End data.
Arguments OYield {T}.
Arguments OLock {T} m.
Arguments OUnlock {T} m.
Arguments OSend {T} v.
Arguments OReceive {T}.
Arguments OTrySend {T} v.
Arguments OTryReceive {T}.
Arguments OClose {T}.
Arguments ODone {T}.
Arguments OWait {T}.
Arguments OIoOnce {T}.
Arguments OIo {T} k fd buf len offset.
Arguments RUnit {T}.
Arguments RBool {T} b.
Arguments RValue {T} o.
Arguments RCount {T} n.
Arguments RThrown {T} e.
Arguments SReturn {T}.
Arguments SOp {T} o k.
Arguments SSubmit {T} child k.
Arguments PStart {T} s.
Arguments PAwait {T} o k.
Arguments PRun {T}.
Arguments PEnd {T}.
Arguments MkCoro {T} _ _.
Arguments co_place {T} _.
Arguments co_guards {T} _.
Arguments MkProg {T} _ _ _ _.
Arguments pg_coros {T} _.
Arguments pg_chan {T} _.
Arguments pg_mutex {T} _.
Arguments pg_wg {T} _.

(** The guard of [m] in the frame of [h]. *)
Definition guard_ptr (h : handle) (m : ptr) : ptr := Npos (encode (h, m)).

Section lenses.
Context {T : Type}.

#[export, refine] Instance prog_chan : Lens (prog_world T) (chan_world T) := {|
  lget := pg_chan;
  lset := λ c w, MkProg (pg_coros w) c (pg_mutex w) (pg_wg w);
|}.
Proof. all: by intros; repeat match goal with w : prog_world T |- _ => destruct w end. Defined.
#[export, refine] Instance prog_mutex : Lens (prog_world T) mutex_world := {|
  lget := pg_mutex;
  lset := λ m w, MkProg (pg_coros w) (pg_chan w) m (pg_wg w);
|}.
Proof. all: by intros; repeat match goal with w : prog_world T |- _ => destruct w end. Defined.
#[export, refine] Instance prog_wg : Lens (prog_world T) WaitGroup := {|
  lget := pg_wg;
  lset := λ g w, MkProg (pg_coros w) (pg_chan w) (pg_mutex w) g;
|}.
Proof. all: by intros; repeat match goal with w : prog_world T |- _ => destruct w end. Defined.

Definition set_coros (m : gmap handle (coro T)) (w : prog_world T) : prog_world T :=
  MkProg m (pg_chan w) (pg_mutex w) (pg_wg w).
End lenses.

(** ** Running a body *)

Section program.
Context {U : Type} `{!Liburing U} {T : Type} (moved_from : T → T) (kStats : bool).

Abbreviation world := (rt_world U * prog_world T)%type.

#[export] Instance world_chan : Lens world (chan_world T) := lens_compose (lens_snd _ _) prog_chan.
#[export] Instance world_mutex : Lens world mutex_world := lens_compose (lens_snd _ _) prog_mutex.
#[export] Instance world_wg : Lens world WaitGroup := lens_compose (lens_snd _ _) prog_wg.

(** Everything runs in a context: no coroutine is resumed inline. *)
#[export] Instance world_runtime : Runtime world := rt_runtime (λ _, undefined).

Definition coro_at (h : handle) : M world (coro T) :=
  let! w := get in deref (pg_coros (snd w) !! h).
Definition coro_store (h : handle) (x : coro T) : M world unit :=
  modify (λ w, (fst w, set_coros (<[h := x]> (pg_coros (snd w))) (snd w))).
Definition set_place (h : handle) (p : place T) : M world unit :=
  let! x := coro_at h in coro_store h (MkCoro p (co_guards x)).
Definition set_guards_of (h : handle) (f : list ptr → list ptr) : M world unit :=
  let! x := coro_at h in coro_store h (MkCoro (co_place x) (f (co_guards x))).

Definition attempt (m : M world (result T)) : M world (result T) :=
  try_catch m (λ e, ret (RThrown e)).

(** [co_await] up to the decision to suspend: the awaiter is made, then
    [await_ready] and [await_suspend].  A plain call does not suspend. *)
Definition op_suspend (h : handle) (o : op T) : M world bool :=
  match o with
  | OYield => if YieldAwaiter_await_ready then ret false else zoom (YieldAwaiter_await_suspend h)
  | OLock m => if MutexAwaiter_await_ready then ret false else zoom (MutexAwaiter_await_suspend m h)
  | OSend v =>
      zoom (send kStats h v);;;
      if SenderAwaiter_await_ready then ret false
      else SenderAwaiter_await_suspend moved_from kStats h h
  | OReceive =>
      zoom (receive (T := T) h);;;
      if ReceiverAwaiter_await_ready then ret false
      else ReceiverAwaiter_await_suspend moved_from kStats h h
  | OWait =>
      let! ready := zoom WgAwaiter_await_ready in
      if ready : bool then ret false else zoom (WgAwaiter_await_suspend h)
  | OIoOnce =>
      if IoSuspendOnceAwaiter_await_ready then ret false
      else zoom (IoSuspendOnceAwaiter_await_suspend h)
  | OIo k fd buf len offset =>
      zoom (rt_op_store h (IoOpAwaiter_make k fd buf len offset));;;
      if IoOpAwaiter_await_ready then ret false
      else zoom (IoOpAwaiter_await_suspend h h)
  | _ => ret false
  end.

Definition rt_op_delete (h : handle) : M (rt_world U) unit :=
  modify (λ w, MkRt (rt_contexts w) (delete h (rt_ops w)) (pending_tasks_ w) (local_context_ptr w)).

(** The end of the scope of the guard of [m]. *)
Definition guard_end (h : handle) (m : ptr) : M world unit :=
  LockGuard_destroy (guard_ptr h m);;;
  set_guards_of h (filter (λ m', m' ≠ m)).

(** [await_resume], and the awaiter is gone; or the call. *)
Definition op_result (h : handle) (o : op T) : M world (result T) :=
  match o with
  | OYield => zoom (YieldAwaiter_await_resume (U := U) false);;; ret RUnit
  | OLock m =>
      zoom (MutexAwaiter_await_resume m (guard_ptr h m));;;
      set_guards_of h (cons m);;; ret RUnit
  | OUnlock m => guard_end h m;;; ret RUnit
  | OSend _ =>
      let! r := attempt (zoom (SenderAwaiter_await_resume (T := T) h);;; ret RUnit) in
      zoom (modify (λ w : chan_world T, set_senders (delete h (senders w)) w));;; ret r
  | OReceive =>
      let! r := attempt (let! v := zoom (ReceiverAwaiter_await_resume moved_from h) in
                         ret (RValue (Some v))) in
      zoom (modify (λ w : chan_world T, set_receivers (delete h (receivers w)) w));;; ret r
  | OTrySend v => attempt (let! b := try_send kStats v in ret (RBool b))
  | OTryReceive => attempt (let! v := try_receive moved_from kStats in ret (RValue v))
  | OClose => attempt (close (T := T) kStats;;; ret RUnit)
  | ODone => attempt (wg_done;;; ret RUnit)
  | OWait => zoom WgAwaiter_await_resume;;; ret RUnit
  | OIoOnce => ret RUnit
  | OIo _ _ _ _ _ =>
      let! r := zoom (IoOpAwaiter_await_resume h) in
      zoom (rt_op_delete h);;; ret (RCount r)
  end.

(** Calling a coroutine; [None] is [std::bad_alloc], when every address but
    null is taken. *)
Definition coro_create (s : script T) : M world (option handle) :=
  let! w := get in
  if Z.of_nat (size (pg_coros (snd w))) <? 2 ^ 64 - 1 then
    let h := fresh ({[null]} ∪ dom (pg_coros (snd w))) in
    coro_store h (MkCoro (PStart s) []);;; ret (Some h)
  else ret None.

Definition coro_done (h : handle) : M world bool :=
  let! x := coro_at h in
  match co_place x with PEnd => ret true | PRun => undefined | _ => ret false end.

(** What [done()] says of a coroutine that is not running. *)
Definition place_ended (P : prog_world T) (h : handle) : bool :=
  match co_place <$> pg_coros P !! h with Some PEnd => true | _ => false end.

(** Destroying a coroutine destroys its guards and its awaiter. *)
Definition coro_destroy (h : handle) : M world unit :=
  let! x := coro_at h in
  for_each (co_guards x) (guard_end h);;;
  zoom (modify (λ w : chan_world T, set_senders (delete h (senders w)) w));;;
  zoom (modify (λ w : chan_world T, set_receivers (delete h (receivers w)) w));;;
  zoom (rt_op_delete h);;;
  modify (λ w, (fst w, set_coros (delete h (pg_coros (snd w))) (snd w))).

(** What [submit_to_scheduler] needs of coroutines. *)
Definition coro_frames : Coroutines world := {|
  co_resume := λ _, undefined;
  co_done := coro_done;
  co_destroy := coro_destroy;
|}.

(** The end of the body, by [co_return] or by an exception that leaves it:
    the guards in scope are destroyed. *)
Definition script_end (h : handle) : M world unit :=
  let! x := coro_at h in
  for_each (co_guards x) (guard_end h);;; set_place h PEnd.

(** The next operation of [s], what is left of the body of [h]: what is left
    then, or [None] when it has suspended or come to its end. *)
Definition script_part (h : handle) (s : script T) : M world (option (script T)) :=
  match s with
  | SReturn => script_end h;;; ret None
  | SOp o k =>
      set_place h (PAwait o k);;;
      let! r := try_catch (let! b := op_suspend h o in ret (inl b)) (λ e, ret (inr e)) in
      match r with
      | inl true => ret None
      | inl false => set_place h PRun;;; let! r := op_result h o in ret (Some (k r))
      | inr e => set_place h PRun;;; ret (Some (k (RThrown e)))
      end
  | SSubmit child k =>
      let! o := coro_create child in
      match o with
      | Some h' => submit_to_scheduler_task (Coroutines0 := coro_frames) h';;; ret (Some k)
      | None => script_end h;;; ret None
      end
  end.

(** All of it, until it suspends or ends. *)
Fixpoint run_script (h : handle) (s : script T) : M world unit :=
  match s with
  | SReturn => script_end h
  | SOp o k =>
      set_place h (PAwait o k);;;
      let! r := try_catch (let! b := op_suspend h o in ret (inl b)) (λ e, ret (inr e)) in
      match r with
      | inl true => ret tt
      | inl false =>
          set_place h PRun;;; let! r := op_result h o in run_script h (k r)
      | inr e => set_place h PRun;;; run_script h (k (RThrown e))
      end
  | SSubmit child k =>
      let! o := coro_create child in
      match o with
      | Some h' =>
          submit_to_scheduler_task (Coroutines0 := coro_frames) h';;; run_script h k
      | None => script_end h
      end
  end.

Definition run_rest (h : handle) (o : option (script T)) : M world unit :=
  match o with Some s => run_script h s | None => ret tt end.

Lemma run_script_parts h s w : run_script h s w = (let! o := script_part h s in run_rest h o) w.
Proof.
  assert (Hend : script_end h w = (let! o := (script_end h;;; ret None) in run_rest h o) w).
  { rewrite bind_assoc. unfold bind, ret. cbn. by destruct (script_end h w) as [[] w'| | | |]. }
  destruct s as [|o k|child k]; [exact Hend| |]; cbn [run_script script_part].
  - rewrite bind_assoc. apply bind_ext. intros [] w1. rewrite bind_assoc. apply bind_ext.
    intros [[]|e] w2; [done|rewrite !bind_assoc; apply bind_ext; intros [] w3..]; [|done].
    rewrite bind_assoc. by apply bind_ext.
  - rewrite bind_assoc. apply bind_ext. intros [h'|] w1; rewrite bind_assoc.
    + by apply bind_ext.
    + unfold bind, ret. cbn. by destruct (script_end h w1) as [[] w'| | | |].
Qed.

(** [handle.resume()] up to the first operation after it: the awaiter's
    [await_resume], if the body had begun. *)
Definition script_begin (h : handle) : M world (script T) :=
  let! x := coro_at h in
  match co_place x with
  | PStart s => set_place h PRun;;; ret s
  | PAwait o k => set_place h PRun;;; let! r := op_result h o in ret (k r)
  | PRun | PEnd => undefined
  end.

(** [handle.resume()] *)
Definition coro_resume_script (h : handle) : M world unit :=
  let! s := script_begin h in run_script h s.

Definition script_coroutines : Coroutines world := {|
  co_resume := coro_resume_script;
  co_done := coro_done;
  co_destroy := coro_destroy;
|}.

(** The worker on these coroutines. *)
Definition prog_process (c : ptr) (h : handle) : M world unit :=
  process_handle (Coroutines0 := script_coroutines) c h.
Definition prog_round (c : ptr) : M world bool :=
  process_work_once (Coroutines0 := script_coroutines) c.
Definition prog_run (n : nat) (c : ptr) : M world unit :=
  run (Coroutines0 := script_coroutines) n c.
End program.
