(* ===== verification/ProgramInv.v ===== *)
(** * The invariant of tasks that use the primitives

    Every coroutine is in one place: ready or running on the worker, or in the
    queue of one primitive; and where it is fits what it awaits.  The
    invariant has a part for the channel, one for each mutex, one for the wait
    group and one for the coroutines themselves. *)

From S2P Require Import Prelude Runtime Channel ChannelSpec ChannelRing ChannelRefine ChannelRun AsyncMutex AsyncMutexRun AsyncMutexProps WaitGroup Uring Engine EngineProps Context MultisetOrder Program.

Open Scope Z_scope.

(** ** The channel's part *)

Section chan_part.
Context {T : Type}.
Implicit Types (f : fifo T) (pl : handle → option (place T)) (h : handle).

Definition awaits_send (p : option (place T)) : Prop := ∃ v k, p = Some (PAwait (OSend v) k).
Definition awaits_receive (p : option (place T)) : Prop := ∃ k, p = Some (PAwait OReceive k).

Record chan_part f pl : Prop := {
  cp_wf : fifo_wf f;
  cp_senders : ∀ h p v, (h, p, v) ∈ f_senders f → p = h ∧ awaits_send (pl h);
  cp_receivers : ∀ h p, (h, p) ∈ f_receivers f → p = h ∧ awaits_receive (pl h);
  cp_flag : ∀ h, awaits_send (pl h) → is_Some (f_flag f !! h);
  cp_mail : ∀ h, awaits_receive (pl h) → is_Some (f_mail f !! h);
}.

Lemma chan_part_ext f pl pl' : (∀ h, pl' h = pl h) → chan_part f pl → chan_part f pl'.
Proof. intros E [H1 H2 H3 H4 H5]. split; repeat setoid_rewrite E; eauto. Qed.

(** A coroutine that is not in the channel and does not go there. *)
Lemma chan_part_move f pl pl' h p : chan_part f pl →
  ¬ awaits_send (pl h) → ¬ awaits_receive (pl h) →
  ¬ awaits_send (Some p) → ¬ awaits_receive (Some p) →
  changed h (Some p) pl pl' → chan_part f pl'.
Proof.
  intros [H1 H2 H3 H4 H5] Hs Hr Hs' Hr' Hc. split; [done|..].
  - intros h' p' v Hin. destruct (H2 _ _ _ Hin) as [-> Ha]. split; [done|].
    rewrite Hc. case_decide; [by subst|done].
  - intros h' p' Hin. destruct (H3 _ _ Hin) as [-> Ha]. split; [done|].
    rewrite Hc. case_decide; [by subst|done].
  - intros h'. rewrite Hc. case_decide; [done|auto].
  - intros h'. rewrite Hc. case_decide; [done|auto].
Qed.

(** The coroutine of an awaiter that is not queued goes on. *)
Lemma chan_part_resume f pl pl' h p : chan_part f pl → h ∉ waiting f →
  ¬ awaits_send (Some p) → ¬ awaits_receive (Some p) →
  changed h (Some p) pl pl' → chan_part f pl'.
Proof.
  intros [H1 H2 H3 H4 H5] Hw Hs' Hr' Hc. split; [done|..].
  - intros h' p' v Hin. destruct (H2 _ _ _ Hin) as [-> Ha]. split; [done|].
    rewrite Hc. case_decide; [subst|done]. destruct Hw. apply elem_of_app. left.
    apply list_elem_of_fmap. by exists (h, h, v).
  - intros h' p' Hin. destruct (H3 _ _ Hin) as [-> Ha]. split; [done|].
    rewrite Hc. case_decide; [subst|done]. destruct Hw. apply elem_of_app. right.
    apply list_elem_of_fmap. by exists (h, h).
  - intros h'. rewrite Hc. case_decide; [done|auto].
  - intros h'. rewrite Hc. case_decide; [done|auto].
Qed.

Lemma waiting_senders f pl h : chan_part f pl → h ∈ waiting f → awaits_send (pl h) ∨ awaits_receive (pl h).
Proof.
  intros H. unfold waiting. rewrite elem_of_app, !list_elem_of_fmap.
  intros [([[h' p] v] & -> & Hin)|([h' p] & -> & Hin)]; cbn.
  - left. by apply (cp_senders _ _ H) in Hin as [_ ?].
  - right. by apply (cp_receivers _ _ H) in Hin as [_ ?].
Qed.

Lemma not_sender_ptr f pl h : chan_part f pl → ¬ awaits_send (pl h) →
  h ∉ ((λ x : handle * ptr * T, x.1.2) <$> f_senders f).
Proof.
  intros H Hn Hin. apply list_elem_of_fmap in Hin as ([[h' p] v] & -> & Hin). cbn in Hn.
  destruct (cp_senders _ _ H _ _ _ Hin) as [-> ?]. done.
Qed.
Lemma not_receiver_ptr f pl h : chan_part f pl → ¬ awaits_receive (pl h) →
  h ∉ (snd <$> f_receivers f).
Proof.
  intros H Hn Hin. apply list_elem_of_fmap in Hin as ([h' p] & -> & Hin). cbn in Hn.
  destruct (cp_receivers _ _ H _ _ Hin) as [-> ?]. done.
Qed.

(** A value enters or leaves: waiting coroutines become free, and the awaiters
    stay. *)
Lemma chan_part_push f pl v wake f' : chan_part f pl → f_closed f = false →
  fifo_push v f = Some (wake, f') →
  chan_part f' pl ∧ waiting f ≡ₚ handle_list wake ++ waiting f' ∧ f_flag f' = f_flag f.
Proof.
  intros [H1 H2 H3 H4 H5] Hcl Hp.
  pose proof (ac_handles _ _ _ (fifo_push_accounts _ _ _ _ H1 Hcl Hp)) as Hw. cbn in Hw.
  rewrite app_nil_r in Hw.
  pose proof (fifo_push_wf _ _ _ _ H1 Hcl Hp) as Hwf. split; [|split; [done|]].
  - unfold fifo_push in Hp. destruct (f_receivers f) as [|[h p] rs] eqn:Er.
    + destruct (fifo_full f); by simplify_eq.
    + simplify_eq. split; cbn; try done.
      * intros h' p' Hin. apply H3. by right.
      * intros h' Ha. apply lookup_insert_is_Some'. right. auto.
  - unfold fifo_push in Hp. destruct (f_receivers f) as [|[h p] rs]; [destruct (fifo_full f)|];
      by simplify_eq.
Qed.

Lemma chan_part_pop f pl v wake f' : chan_part f pl → fifo_pop f = Some (v, wake, f') →
  chan_part f' pl ∧ waiting f ≡ₚ handle_list wake ++ waiting f' ∧ f_mail f' = f_mail f.
Proof.
  intros [H1 H2 H3 H4 H5] Hp.
  pose proof (ac_handles _ _ _ (fifo_pop_accounts _ _ _ _ H1 Hp)) as Hw. cbn in Hw.
  rewrite app_nil_r in Hw.
  pose proof (fifo_pop_wf _ _ _ _ H1 Hp) as Hwf.
  assert (f_receivers f' = f_receivers f ∧ f_flag f' = f_flag f ∧ f_mail f' = f_mail f ∧
    f_senders f' ⊆ f_senders f) as (E1 & E2 & E3 & E4).
  { unfold fifo_pop in Hp. destruct (f_items f), (f_senders f) as [|[[] ?] ?] eqn:?; simplify_eq;
      cbn; split_and!; try done; set_solver. }
  split_and!; [|done..]. split; rewrite ?E1, ?E2, ?E3; try done. intros h p v' Hin. by apply H2 with (v := v'), E4.
Qed.

Lemma chan_part_set_mail f pl h o : chan_part f pl → h ∉ (snd <$> f_receivers f) →
  chan_part (fifo_set_mail h o f) pl.
Proof.
  intros [H1 H2 H3 H4 H5] Hn. split; cbn; auto with chan.
  intros h' Ha. apply lookup_insert_is_Some'. auto.
Qed.
Lemma chan_part_set_flag f pl h b : chan_part f pl →
  h ∉ ((λ x : handle * ptr * T, x.1.2) <$> f_senders f) →
  chan_part (fifo_set_flag h b f) pl.
Proof.
  intros [H1 H2 H3 H4 H5] Hn. split; cbn; auto with chan.
  intros h' Ha. apply lookup_insert_is_Some'. auto.
Qed.

(** [co_await ch.send(v)] of [h], up to the decision to suspend. *)
Lemma chan_send f pl pl' h v k : chan_part f pl → f_closed f = false → h ≠ null →
  ¬ awaits_send (pl h) → ¬ awaits_receive (pl h) →
  changed h (Some (PAwait (OSend v) k)) pl pl' →
  ∃ b wake f', spec_send_suspend h h v (fifo_set_flag h false f) = Ok (b, wake) f' ∧
    chan_part f' pl' ∧
    waiting f ++ (if b : bool then [h] else []) ≡ₚ handle_list wake ++ waiting f'.
Proof.
  intros H Hcl Hh Hns Hnr Hc. pose proof (not_sender_ptr _ _ _ H Hns) as Hps.
  set (f1 := fifo_set_flag h false f). assert (H1 : chan_part f1 pl) by by apply chan_part_set_flag.
  assert (Hown : ∀ f', chan_part f' pl → f_flag f' !! h = Some false → chan_part f' pl').
  { intros f' [A1 A2 A3 A4 A5] Hf. split; [done|..].
    - intros h' p' v' Hin. destruct (A2 _ _ _ Hin) as [-> Ha]. split; [done|].
      rewrite Hc. case_decide; [by subst|done].
    - intros h' p' Hin. destruct (A3 _ _ Hin) as [-> Ha]. split; [done|].
      rewrite Hc. case_decide; [by subst|done].
    - intros h'. rewrite Hc. case_decide; [subst; by rewrite Hf|auto].
    - intros h'. rewrite Hc. case_decide; [by intros [k' [=]]|auto]. }
  unfold spec_send_suspend. cbn [f1 fifo_set_flag f_closed]. rewrite Hcl. fold f1.
  destruct (fifo_push v f1) as [[wake f']|] eqn:Ep.
  - destruct (chan_part_push f1 pl v wake f' H1 Hcl Ep) as (Hf' & Hw & Hflag).
    exists false, wake, f'. split_and!; [done| |by rewrite app_nil_r].
    apply Hown; [done|]. rewrite Hflag. cbn. apply lookup_insert_eq.
  - destruct (fifo_push_none _ _ Ep) as [Er Efull].
    exists true, null, (fifo_park_sender h h v f1). split_and!; [done| |].
    + assert (Hflag : f_flag f1 !! h = Some false) by apply lookup_insert_eq.
      destruct H1 as [A1 A2 A3 A4 A5]. split.
      * by apply fifo_park_sender_wf.
      * intros h' p v'. cbn. rewrite elem_of_app, list_elem_of_singleton. intros [Hin|[= -> -> ->]].
        { destruct (A2 _ _ _ Hin) as [-> Ha]. split; [done|]. rewrite Hc. case_decide; [by subst|done]. }
        split; [done|]. rewrite Hc, decide_True by done. by exists v, k.
      * cbn. intros h' p Hin. destruct (A3 _ _ Hin) as [-> Ha]. split; [done|].
        rewrite Hc. case_decide; [by subst|done].
      * intros h'. rewrite Hc. case_decide; [subst; cbn; by rewrite lookup_insert_eq|apply A4].
      * intros h'. rewrite Hc. case_decide; [by intros [k' [=]]|apply A5].
    + unfold waiting. cbn. rewrite fmap_app. cbn. rewrite <- !app_assoc. f_equiv.
      apply Permutation_app_comm.
Qed.

(** [co_await ch.receive()] of [h], up to the decision to suspend. *)
Lemma chan_receive f pl pl' h k : chan_part f pl → h ≠ null →
  ¬ awaits_send (pl h) → ¬ awaits_receive (pl h) →
  changed h (Some (PAwait OReceive k)) pl pl' →
  ∃ b wake f', spec_receive_suspend h h (fifo_set_mail h None f) = Ok (b, wake) f' ∧
    chan_part f' pl' ∧
    waiting f ++ (if b : bool then [h] else []) ≡ₚ handle_list wake ++ waiting f'.
Proof.
  intros H Hh Hns Hnr Hc. pose proof (not_receiver_ptr _ _ _ H Hnr) as Hpr.
  set (f1 := fifo_set_mail h None f). assert (H1 : chan_part f1 pl) by by apply chan_part_set_mail.
  assert (Hown : ∀ f', chan_part f' pl → is_Some (f_mail f' !! h) → chan_part f' pl').
  { intros f' [A1 A2 A3 A4 A5] Hf. split; [done|..].
    - intros h' p' v' Hin. destruct (A2 _ _ _ Hin) as [-> Ha]. split; [done|].
      rewrite Hc. case_decide; [by subst|done].
    - intros h' p' Hin. destruct (A3 _ _ Hin) as [-> Ha]. split; [done|].
      rewrite Hc. case_decide; [by subst|done].
    - intros h'. rewrite Hc. case_decide; [by intros (v' & k' & [=])|auto].
    - intros h'. rewrite Hc. case_decide; [by subst|auto]. }
  unfold spec_receive_suspend. destruct (fifo_pop f1) as [[[v wake] f']|] eqn:Ep.
  - destruct (chan_part_pop f1 pl v wake f' H1 Ep) as (Hf' & Hw & Hmail).
    assert (Hpr' : h ∉ (snd <$> f_receivers f')) by by apply (not_receiver_ptr f' pl).
    exists false, wake, (fifo_set_mail h (Some v) f'). split_and!; [done| |by rewrite app_nil_r].
    apply Hown; [by apply chan_part_set_mail|]. cbn. by rewrite lookup_insert_eq.
  - destruct (f_closed f1) eqn:Ecl.
    { exists false, null, (fifo_set_mail h None f1). split_and!; [done| |by rewrite app_nil_r].
      apply Hown; [by apply chan_part_set_mail|]. cbn. by rewrite lookup_insert_eq. }
    exists true, null, (fifo_park_receiver h h f1). split_and!; [done| |].
    + destruct H1 as [A1 A2 A3 A4 A5]. split.
      * apply fifo_park_receiver_wf; try done. apply lookup_insert_eq.
      * cbn. intros h' p v' Hin. destruct (A2 _ _ _ Hin) as [-> Ha]. split; [done|].
        rewrite Hc. case_decide; [by subst|done].
      * intros h' p. cbn. rewrite elem_of_app, list_elem_of_singleton. intros [Hin|[= -> ->]].
        { destruct (A3 _ _ Hin) as [-> Ha]. split; [done|]. rewrite Hc. case_decide; [by subst|done]. }
        split; [done|]. rewrite Hc, decide_True by done. by exists k.
      * intros h'. rewrite Hc. case_decide; [by intros (v' & k' & [=])|apply A4].
      * intros h'. rewrite Hc. case_decide; [subst; cbn; by rewrite lookup_insert_eq|apply A5].
    + unfold waiting. cbn. rewrite fmap_app. cbn. by rewrite <- app_assoc.
Qed.

(** The awaiters of a coroutine that awaits nothing are gone. *)
Lemma chan_part_drop_flag f pl h w : chan_part f pl → repr w f → ¬ awaits_send (pl h) →
  repr (set_senders (delete h (senders w)) w) (fifo_drop_flag h f) ∧
  chan_part (fifo_drop_flag h f) pl.
Proof.
  intros H Hr Hn. destruct (drop_flag_ok h w f Hr (cp_wf _ _ H)) as [Hr' Hwf'].
  { by eapply not_sender_ptr. }
  split; [done|]. destruct H as [A1 A2 A3 A4 A5]. split; try done. cbn. intros h' Ha.
  destruct (decide (h' = h)) as [->|]; [done|]. rewrite lookup_delete_ne by done. auto.
Qed.
Lemma chan_part_drop_mail f pl h w : chan_part f pl → repr w f → ¬ awaits_receive (pl h) →
  repr (set_receivers (delete h (receivers w)) w) (fifo_drop_mail h f) ∧
  chan_part (fifo_drop_mail h f) pl.
Proof.
  intros H Hr Hn. destruct (drop_mail_ok h w f Hr (cp_wf _ _ H)) as [Hr' Hwf'].
  { by eapply not_receiver_ptr. }
  split; [done|]. destruct H as [A1 A2 A3 A4 A5]. split; try done. cbn. intros h' Ha.
  destruct (decide (h' = h)) as [->|]; [done|]. rewrite lookup_delete_ne by done. auto.
Qed.

(** Closing wakes every coroutine in the channel. *)
Lemma chan_close f pl : chan_part f pl → chan_part (fifo_close f) pl ∧ waiting (fifo_close f) = [].
Proof.
  intros [A1 A2 A3 A4 A5]. split; [|done]. split; cbn; try done.
  - by apply fifo_close_wf.
  - intros ??? ?%not_elem_of_nil. done.
  - intros ?? ?%not_elem_of_nil. done.
  - intros h Ha. apply A4 in Ha. clear -Ha. revert Ha. generalize (f_flag f).
    induction (f_senders f) as [|[[h' p] v] ss IH]; intros m Hm; cbn; [done|].
    apply IH. apply lookup_insert_is_Some'. by right.
Qed.
End chan_part.

(** ** The mutexes' part *)

Section mutex_part.
Context {T : Type}.
Implicit Types (C : gmap handle (coro T)) (w : mutex_world) (h : handle).

Definition guards_of C h : list ptr := match C !! h with Some x => co_guards x | None => [] end.

(** What a coroutine is to the mutex [m] with the queue [q]. *)
Definition kind C (m : ptr) (q : list handle) h : lock_kind :=
  if decide (m ∈ guards_of C h) then KCritical
  else match co_place <$> C !! h with
       | Some (PAwait (OLock m') _) =>
           if decide (m' = m) then if decide (h ∈ q) then KWaiting else KCritical else KOther
       | _ => KOther
       end.

Definition locks (x : AsyncMutex) (k : handle → lock_kind) : Prop :=
  ∃ ar gr owner, lock_part x k ar gr owner.

Record mutex_part C w : Prop := {
  mp_locks : ∀ m x, mutexes w !! m = Some x → locks x (kind C m (wait_queue_ x));
  mp_guards : ∀ g y, guards w !! g = Some y ↔
    ∃ h m, g = guard_ptr h m ∧ m ∈ guards_of C h ∧ y = MkGuard m true;
}.

Lemma guard_ptr_inj h1 m1 h2 m2 : guard_ptr h1 m1 = guard_ptr h2 m2 → h1 = h2 ∧ m1 = m2.
Proof. unfold guard_ptr. intros [= E]. apply (inj encode) in E. by simplify_eq. Qed.

Lemma guards_of_insert C h x h' :
  guards_of (<[h := x]> C) h' = if decide (h' = h) then co_guards x else guards_of C h'.
Proof.
  unfold guards_of. case_decide; [subst; by rewrite lookup_insert_eq|by rewrite lookup_insert_ne].
Qed.

Lemma guards_of_insert_eq C h x : guards_of (<[h := x]> C) h = co_guards x.
Proof. unfold guards_of. by rewrite lookup_insert_eq. Qed.

Lemma kind_insert_ne C h x m q h' : h' ≠ h → kind (<[h := x]> C) m q h' = kind C m q h'.
Proof. intros Hne. unfold kind, guards_of. by rewrite !lookup_insert_ne. Qed.

Lemma mutex_part_ext C C' w : (∀ m q h, kind C' m q h = kind C m q h) →
  (∀ h m, m ∈ guards_of C' h ↔ m ∈ guards_of C h) → mutex_part C w → mutex_part C' w.
Proof.
  intros Hk Hg [H1 H2]. split.
  - intros m x (ar & gr & o & Hx)%H1. exists ar, gr, o. eapply lock_part_ext; [|exact Hx].
    intros h. apply Hk.
  - intros g y. rewrite H2. by setoid_rewrite Hg.
Qed.

Definition awaits_lock (p : place T) : bool :=
  match p with PAwait (OLock _) _ => true | _ => false end.

(** A coroutine keeps its guards and awaits no mutex before or after. *)
Lemma mutex_part_move C w h x x' : mutex_part C w → C !! h = Some x →
  co_guards x' = co_guards x → awaits_lock (co_place x) = false →
  awaits_lock (co_place x') = false → mutex_part (<[h := x']> C) w.
Proof.
  intros H Hx Hg Ha Ha'. apply mutex_part_ext with C; [| |done].
  - intros m q h'. destruct (decide (h' = h)) as [->|Hne]; [|by apply kind_insert_ne].
    unfold kind. rewrite guards_of_insert_eq, Hg. unfold guards_of. rewrite Hx.
    rewrite lookup_insert_eq. cbn. destruct (decide _); [done|].
    destruct x as [[|[]| |] ?], x' as [[|[]| |] ?]; done.
  - intros h' m. rewrite guards_of_insert. case_decide; [|done]. subst. rewrite Hg.
    unfold guards_of. by rewrite Hx.
Qed.

(** A new coroutine, or one that is gone. *)
Lemma mutex_part_create C w h p : mutex_part C w → C !! h = None → awaits_lock p = false →
  mutex_part (<[h := MkCoro p []]> C) w.
Proof.
  intros H Hx Ha. apply mutex_part_ext with C; [| |done].
  - intros m q h'. destruct (decide (h' = h)) as [->|Hne]; [|by apply kind_insert_ne].
    unfold kind, guards_of. rewrite lookup_insert_eq, Hx. cbn. by destruct p as [|[]| |].
  - intros h' m. rewrite guards_of_insert. case_decide; [|done]. subst.
    unfold guards_of. by rewrite Hx.
Qed.

Lemma mutex_part_delete C w h p : mutex_part C w → C !! h = Some (MkCoro p []) →
  awaits_lock p = false → mutex_part (delete h C) w.
Proof.
  intros H Hx Ha. apply mutex_part_ext with C; [| |done].
  - intros m q h'. unfold kind, guards_of. destruct (decide (h' = h)) as [->|Hne].
    + rewrite lookup_delete_eq, Hx. cbn. by destruct p as [|[]| |].
    + by rewrite lookup_delete_ne.
  - intros h' m. unfold guards_of. destruct (decide (h' = h)) as [->|Hne].
    + by rewrite lookup_delete_eq, Hx.
    + by rewrite lookup_delete_ne.
Qed.

(** [co_await m.lock()] of the running coroutine, up to the decision to
    suspend: it takes the mutex or joins the queue. *)
Lemma mutex_lock C w h gs m x k : mutex_part C w → C !! h = Some (MkCoro PRun gs) → m ∉ gs →
  mutexes w !! m = Some x →
  let C' := <[h := MkCoro (PAwait (OLock m) k) gs]> C in
  lock_or_enqueue m h w = Ok (lock_ x)
    (set_mutexes (<[m := MkMutex true (wait_queue_ x ++ if lock_ x then [h] else [])]> (mutexes w)) w) ∧
  mutex_part C' (set_mutexes
    (<[m := MkMutex true (wait_queue_ x ++ if lock_ x then [h] else [])]> (mutexes w)) w).
Proof.
  intros [H1 H2] Hh Hm Hx C'. split.
  { rewrite (lock_or_enqueue_eq _ _ _ _ Hx). by destruct (lock_ x); rewrite ?app_nil_r. }
  assert (Hk0 : ∀ m q, m ∉ gs → kind C m q h = KOther).
  { intros m' q Hn. unfold kind, guards_of. rewrite Hh. cbn. by rewrite decide_False. }
  assert (Hoth : ∀ m' q h', m' ≠ m ∨ h' ≠ h → kind C' m' q h' = kind C m' q h').
  { intros m' q h' Hne. destruct (decide (h' = h)) as [->|]; [|by apply kind_insert_ne].
    destruct Hne as [Hne|]; [|done]. unfold kind, C'. rewrite guards_of_insert_eq.
    unfold guards_of. rewrite lookup_insert_eq, Hh. cbn.
    destruct (decide (m' ∈ gs)); [done|]. by rewrite decide_False. }
  split; cbn.
  - intros m' x'. destruct (decide (m' = m)) as [->|Hne].
    + rewrite lookup_insert_eq. intros [= <-]. destruct (H1 _ _ Hx) as (ar & gr & o & Hl). cbn.
      destruct (lock_ x) eqn:El.
      * exists (ar ++ [h]), gr, o.
        assert (Hnq : h ∉ wait_queue_ x).
        { intros Hin%(lp_waiting _ _ _ _ _ Hl). rewrite Hk0 in Hin; done. }
        eapply lock_part_wait; [exact Hl|done|by apply Hk0|].
        intros h'. case_decide as E; [subst h'|].
        { unfold kind, C'. rewrite guards_of_insert_eq. cbn.
          rewrite decide_False, lookup_insert_eq by done. cbn.
          rewrite !decide_True; [done| |done]. apply elem_of_app. right. by left. }
        rewrite Hoth by by right. unfold kind. destruct (decide (m ∈ _)); [done|].
        destruct (co_place <$> C !! h') as [[|[]| |]|]; try done. destruct (decide _); [|done].
        assert (h' ∈ wait_queue_ x ++ [h] ↔ h' ∈ wait_queue_ x) as E'.
        { rewrite elem_of_app, list_elem_of_singleton. naive_solver. }
        destruct (decide (h' ∈ wait_queue_ x)), (decide (h' ∈ _ ++ _)); tauto.
      * rewrite app_nil_r. exists (ar ++ [h]), (gr ++ [h]), (Some h).
        assert (Hnq : h ∉ wait_queue_ x).
        { intros Hin%(lp_waiting _ _ _ _ _ Hl). rewrite Hk0 in Hin; done. }
        eapply lock_part_take; [exact Hl|done|by apply Hk0|].
        intros h'. case_decide as E; [subst h'|by apply Hoth; right].
        unfold kind, C'. rewrite guards_of_insert_eq. cbn.
        rewrite decide_False, lookup_insert_eq by done. cbn.
        by rewrite decide_True, decide_False.
    + rewrite lookup_insert_ne by done. intros (ar & gr & o & Hl)%H1. exists ar, gr, o.
      eapply lock_part_ext; [|exact Hl]. intros h'. apply Hoth. by left.
  - intros g y. rewrite H2. unfold C'. setoid_rewrite guards_of_insert. cbn.
    assert (E : guards_of C h = gs) by (unfold guards_of; by rewrite Hh).
    split; intros (h' & m' & -> & Hin & ->); exists h', m'; split_and!; try done;
      case_decide; subst; by rewrite ?E in *.
Qed.

(** The mutex is the coroutine's: its guard is made. *)
Lemma mutex_granted C w h gs m k : mutex_part C w →
  C !! h = Some (MkCoro (PAwait (OLock m) k) gs) → m ∉ gs →
  (∀ x, mutexes w !! m = Some x → h ∉ wait_queue_ x) →
  mutex_part (<[h := MkCoro PRun (m :: gs)]> C)
    (set_guards (<[guard_ptr h m := MkGuard m true]> (guards w)) w).
Proof.
  intros [H1 H2] Hh Hm Hq. split; cbn.
  - intros m' x Hx. destruct (H1 _ _ Hx) as (ar & gr & o & Hl). exists ar, gr, o.
    eapply lock_part_ext; [|exact Hl]. intros h'.
    destruct (decide (h' = h)) as [->|]; [|by apply kind_insert_ne].
    unfold kind. rewrite guards_of_insert_eq. unfold guards_of. rewrite lookup_insert_eq, Hh. cbn.
    destruct (decide (m' = m)) as [->|Hne].
    + rewrite (decide_True (P := m ∈ m :: gs)) by by left.
      rewrite (decide_False (P := m ∈ gs)), (decide_True (P := m = m)) by done.
      by rewrite decide_False by eauto.
    + assert (E : m' ∈ m :: gs ↔ m' ∈ gs) by (rewrite elem_of_cons; naive_solver).
      destruct (decide (m' ∈ m :: gs)), (decide (m' ∈ gs)); try tauto.
      by rewrite decide_False.
  - intros g y. setoid_rewrite guards_of_insert. cbn. split.
    + rewrite lookup_insert_Some. intros [[<- <-]|[Hne Hg]].
      { exists h, m. rewrite decide_True by done. split_and!; [done|by left|done]. }
      apply H2 in Hg as (h' & m' & -> & Hin & ->). exists h', m'. split_and!; try done.
      case_decide; [subst|done]. right. unfold guards_of in Hin. by rewrite Hh in Hin.
    + intros (h' & m' & -> & Hin & ->). destruct (decide (h' = h ∧ m' = m)) as [[-> ->]|Hne].
      { apply lookup_insert_eq. }
      rewrite lookup_insert_ne by (intros [-> ->]%guard_ptr_inj; tauto).
      apply H2. exists h', m'. split_and!; try done. case_decide; [subst|done].
      unfold guards_of. rewrite Hh. cbn. apply elem_of_cons in Hin as [->|]; [tauto|done].
Qed.

(** What the others are to a mutex when its first waiter leaves the queue. *)
Lemma kind_next C m x ar gr o h' : lock_part x (kind C m (wait_queue_ x)) ar gr o →
  kind C m (tail (wait_queue_ x)) h' =
    if decide (Some h' = head (wait_queue_ x)) then KCritical else kind C m (wait_queue_ x) h'.
Proof.
  intros Hl. pose proof (lp_nodup _ _ _ _ _ Hl) as Hnd. pose proof (lp_waiting _ _ _ _ _ Hl h') as Hw.
  unfold kind in Hw |- *. destruct (decide (m ∈ guards_of C h')) as [|Hng].
  { destruct (decide _) as [Eh|]; done. }
  destruct (co_place <$> C !! h') as [[|[]| |]|];
    try (destruct (decide (Some h' = _)) as [Eh|]; [|done]; exfalso;
         destruct (wait_queue_ x); [done|]; injection Eh as ->;
         by discriminate (proj2 Hw ltac:(by left))).
  destruct (decide (m0 = m)) as [->|].
  2: { destruct (decide (Some h' = _)) as [Eh|]; [|done]. exfalso.
       destruct (wait_queue_ x); [done|]; injection Eh as ->.
       by discriminate (proj2 Hw ltac:(by left)). }
  destruct (wait_queue_ x) as [|w0 q]; cbn [tail head]; [done|].
  apply NoDup_cons in Hnd as [Hw0 Hnd].
  destruct (decide (Some h' = Some w0)) as [[= ->]|Hn0]; [by rewrite decide_False|].
  assert (E : h' ∈ w0 :: q ↔ h' ∈ q) by (rewrite elem_of_cons; naive_solver).
  destruct (decide (h' ∈ q)), (decide (h' ∈ w0 :: q)); tauto.
Qed.

(** The guards when that of [m] in the frame of [h] is gone. *)
Lemma guards_without C w h p gs m : mutex_part C w → C !! h = Some (MkCoro p gs) → ∀ g y,
  delete (guard_ptr h m) (guards w) !! g = Some y ↔
    ∃ h' m', g = guard_ptr h' m' ∧
      m' ∈ guards_of (<[h := MkCoro p (filter (λ m', m' ≠ m) gs)]> C) h' ∧ y = MkGuard m' true.
Proof.
  intros [_ H2] Hh g y. assert (Egs : guards_of C h = gs) by (unfold guards_of; by rewrite Hh).
  setoid_rewrite guards_of_insert. cbn. rewrite lookup_delete_Some, H2. split.
  - intros (Hne & h' & m' & -> & Hin & ->). exists h', m'. split_and!; try done.
    case_decide; [subst h'|done]. rewrite Egs in Hin. apply list_elem_of_filter. split; [|done].
    by intros ->.
  - intros (h' & m' & -> & Hin & ->). case_decide as E.
    + subst h'. apply list_elem_of_filter in Hin as [Hne Hin]. split.
      { intros [_ ?]%guard_ptr_inj. by destruct Hne. }
      exists h, m'. by rewrite Egs.
    + split; [by intros [-> _]%guard_ptr_inj|]. by exists h', m'.
Qed.

(** A guard is destroyed: the first waiter has the mutex. *)
Lemma mutex_release C w h p gs m x : mutex_part C w → C !! h = Some (MkCoro p gs) →
  awaits_lock p = false → m ∈ gs → mutexes w !! m = Some x →
  guards w !! guard_ptr h m = Some (MkGuard m true) ∧
  mutex_part (<[h := MkCoro p (filter (λ m', m' ≠ m) gs)]> C)
    (set_guards (delete (guard_ptr h m) (guards w)) (unlocked m w)).
Proof.
  intros H Hh Hp Hm Hx. pose proof H as [H1 H2].
  assert (Egs : guards_of C h = gs) by (unfold guards_of; by rewrite Hh).
  split. { apply H2. exists h, m. by rewrite Egs. }
  destruct (H1 _ _ Hx) as (ar & gr & o & Hl).
  assert (o = Some h) as ->.
  { apply (lp_owner _ _ _ _ _ Hl). unfold kind. by rewrite decide_True by by rewrite Egs. }
  set (C' := <[h := MkCoro p (filter (λ m', m' ≠ m) gs)]> C).
  assert (Hk0 : ∀ m' q, m' ∉ co_guards (MkCoro p (filter (λ m', m' ≠ m) gs)) → kind C' m' q h = KOther).
  { intros m' q Hn. unfold kind, C'. rewrite guards_of_insert_eq, decide_False, lookup_insert_eq by done.
    cbn. by destruct p as [|[]| |]. }
  split; cbn.
  - intros m' x'. unfold unlocked. rewrite Hx. cbn. destruct (decide (m' = m)) as [->|Hne].
    + rewrite lookup_insert_eq. intros [= <-]. cbn [wait_queue_].
      eexists ar, _, _. apply (lock_part_release x (kind C m (wait_queue_ x)) _ ar gr h Hl).
      intros h'. destruct (decide (h' = h)) as [->|Hne'].
      * rewrite Hk0 by (cbn; rewrite list_elem_of_filter; tauto).
        rewrite decide_False; [done|]. intros Eh.
        assert (Hin : h ∈ wait_queue_ x) by (destruct (wait_queue_ x); [done|injection Eh as <-; by left]).
        apply (lp_waiting _ _ _ _ _ Hl) in Hin. unfold kind in Hin.
        by rewrite decide_True in Hin by by rewrite Egs.
      * unfold C'. rewrite kind_insert_ne by done. by eapply kind_next.
    + rewrite lookup_insert_ne by done. intros (ar' & gr' & o' & Hl')%H1. exists ar', gr', o'.
      eapply lock_part_ext; [|exact Hl']. intros h'.
      destruct (decide (h' = h)) as [->|]; [|by apply kind_insert_ne].
      unfold kind, C'. rewrite guards_of_insert_eq, Egs, lookup_insert_eq, Hh. cbn.
      assert (E : m' ∈ filter (λ m', m' ≠ m) gs ↔ m' ∈ gs) by (rewrite list_elem_of_filter; naive_solver).
      destruct (decide (m' ∈ filter _ gs)), (decide (m' ∈ gs)); tauto.
  - assert (Eg : guards (unlocked m w) = guards w) by (unfold unlocked; by rewrite Hx).
    exact (guards_without C w h p gs m H Hh).
Qed.

(** The coroutines that wait for some mutex. *)
Definition mutex_waiting w : list handle := map_to_list (mutexes w) ≫= λ p, wait_queue_ (snd p).

Lemma mutex_waiting_insert w m x x' : mutexes w !! m = Some x →
  ∃ R, mutex_waiting w ≡ₚ wait_queue_ x ++ R ∧
    mutex_waiting (set_mutexes (<[m := x']> (mutexes w)) w) ≡ₚ wait_queue_ x' ++ R.
Proof.
  intros Hx. exists (map_to_list (delete m (mutexes w)) ≫= λ p, wait_queue_ (snd p)).
  unfold mutex_waiting. cbn. split.
  - by rewrite <- (map_to_list_delete _ _ _ Hx).
  - rewrite <- (map_to_list_delete (<[m := x']> (mutexes w)) m x') by apply lookup_insert_eq.
    by rewrite delete_insert_eq.
Qed.

Lemma mutex_waiting_elem w h : h ∈ mutex_waiting w ↔
  ∃ m x, mutexes w !! m = Some x ∧ h ∈ wait_queue_ x.
Proof.
  unfold mutex_waiting. rewrite list_elem_of_bind. split.
  - intros ([m x] & Hin & Hx%elem_of_map_to_list). by exists m, x.
  - intros (m & x & Hx & Hin). exists (m, x). by rewrite elem_of_map_to_list.
Qed.

(** Whoever waits for a mutex awaits it. *)
Lemma mutex_waits C w m x h : mutex_part C w → mutexes w !! m = Some x → h ∈ wait_queue_ x →
  ∃ k gs, C !! h = Some (MkCoro (PAwait (OLock m) k) gs) ∧ m ∉ gs.
Proof.
  intros [H1 _] Hx Hin. destruct (H1 _ _ Hx) as (ar & gr & o & Hl).
  apply (lp_waiting _ _ _ _ _ Hl) in Hin. unfold kind, guards_of in Hin.
  destruct (decide _) as [|Hn]; [done|]. destruct (C !! h) as [[[|[]| |] gs]|]; try done. cbn in *.
  destruct (decide (m0 = m)) as [->|]; [|done]. by exists k, gs.
Qed.
End mutex_part.

(** ** The invariant *)

(** Bodies that use only the mutexes [ms], lock none they hold, unlock only
    those they hold, and whose operations, given what the coroutine holds, are
    among the [allowed]. *)
Class Discipline (T : Type) := {
  mutex_set : gset ptr;
  mutex_set_null : null ∉ mutex_set;
  allowed : list ptr → op T → Prop;
}.

(** The coroutines that other workers are running, or have run to their end and
    not destroyed yet. *)
Class Elsewhere := elsewhere : gset handle.

Section prog_inv.
Context {T : Type} `{!Discipline T} {Aw : Elsewhere}.
Implicit Types (P : prog_world T) (f : fifo T) (h : handle) (gs : list ptr).

Definition op_ok gs (o : op T) : Prop :=
  allowed gs o ∧
  match o with
  | OLock m => m ∉ gs ∧ m ∈ mutex_set
  | OUnlock m => m ∈ gs
  | _ => True
  end.

Definition guards_after (o : op T) gs : list ptr :=
  match o with
  | OLock m => m :: gs
  | OUnlock m => filter (λ m', m' ≠ m) gs
  | _ => gs
  end.

Fixpoint script_ok gs (s : script T) : Prop :=
  match s with
  | SReturn => True
  | SOp o k => op_ok gs o ∧ ∀ r, script_ok (guards_after o gs) (k r)
  | SSubmit child k => script_ok [] child ∧ script_ok gs k
  end.

(** But for those of other workers, only the current coroutine [cur] is running
    or at its end. *)
Definition guards_ok gs : Prop := NoDup gs ∧ Forall (λ m, m ∈ mutex_set) gs.

Definition coro_ok (cur : option handle) h (x : coro T) : Prop :=
  guards_ok (co_guards x) ∧
  match co_place x with
  | PStart s => co_guards x = [] ∧ script_ok [] s
  | PAwait o k => op_ok (co_guards x) o ∧ ∀ r, script_ok (guards_after o (co_guards x)) (k r)
  | PRun => cur = Some h ∨ h ∈ elsewhere
  | PEnd => (cur = Some h ∨ h ∈ elsewhere) ∧ co_guards x = []
  end.

(** Who runs makes no difference to the others. *)
Lemma coro_ok_other cur cur' h x : coro_ok cur h x → cur ≠ Some h → coro_ok cur' h x.
Proof. intros [Hg Hp] Hne. split; [done|]. destruct (co_place x); naive_solver. Qed.

Definition places P : handle → option (place T) := λ h, co_place <$> pg_coros P !! h.

Definition blocked f P : list handle :=
  waiting f ++ mutex_waiting (pg_mutex P) ++ wg_wait_queue_ (pg_wg P).

(** [act] are the coroutines that are not in a queue of a primitive. *)
Record prog_inv (cur : option handle) (act : list handle) f P : Prop := {
  pi_places : act ++ blocked f P ≡ₚ (map_to_list (pg_coros P)).*1;
  pi_null : pg_coros P !! null = None;
  pi_repr : repr (pg_chan P) f;
  pi_chan : chan_part f (places P);
  pi_mutex : mutex_part (pg_coros P) (pg_mutex P);
  pi_mutexes : dom (mutexes (pg_mutex P)) = mutex_set;
  pi_count : 0 ≤ count_ (pg_wg P) < 2 ^ 31;
  pi_waiters : wg_wait_queue_ (pg_wg P) ≠ [] → 0 < count_ (pg_wg P);
  pi_waits : ∀ h, h ∈ wg_wait_queue_ (pg_wg P) → ∃ k, places P h = Some (PAwait OWait k);
  pi_coros : ∀ h x, pg_coros P !! h = Some x → coro_ok cur h x;
  pi_size : Z.of_nat (size (pg_coros P)) < 2 ^ 64;
}.

Lemma inv_perm cur act act' f P : act ≡ₚ act' → prog_inv cur act f P → prog_inv cur act' f P.
Proof. intros E [H1 ??????????]. split; try done. by rewrite <- E. Qed.

Lemma inv_nodup cur act f P : prog_inv cur act f P → NoDup (act ++ blocked f P).
Proof. intros H. rewrite (pi_places _ _ _ _ H). apply NoDup_fst_map_to_list. Qed.

Lemma inv_exists cur act f P h : prog_inv cur act f P → h ∈ act ++ blocked f P →
  ∃ x, pg_coros P !! h = Some x ∧ h ≠ null.
Proof.
  intros H. rewrite (pi_places _ _ _ _ H), list_elem_of_fmap.
  intros ([h' x] & -> & Hx%elem_of_map_to_list). exists x. split; [done|].
  intros E. cbn in *. subst. by rewrite (pi_null _ _ _ _ H) in Hx.
Qed.

Lemma inv_free cur act f P h : prog_inv cur act f P → h ∈ act →
  h ∉ waiting f ∧ (∀ m x, mutexes (pg_mutex P) !! m = Some x → h ∉ wait_queue_ x) ∧
  h ∉ wg_wait_queue_ (pg_wg P).
Proof.
  intros H Hact. pose proof (inv_nodup _ _ _ _ H) as (_ & Hn & _)%NoDup_app.
  specialize (Hn h Hact). unfold blocked in Hn. rewrite !elem_of_app, mutex_waiting_elem in Hn.
  split_and!; [tauto|intros m x Hx Hin|tauto]. apply Hn. right. left. by exists m, x.
Qed.

Lemma places_insert P h x : changed h (Some (co_place x)) (places P)
  (places (set_coros (<[h := x]> (pg_coros P)) P)).
Proof.
  intros h'. unfold places. cbn. case_decide; [subst; by rewrite lookup_insert_eq|].
  by rewrite lookup_insert_ne.
Qed.

Lemma size_same (C : gmap handle (coro T)) h y y' : C !! h = Some y → size (<[h := y']> C) = size C.
Proof. intros Hy. by rewrite map_size_insert, Hy. Qed.

Lemma keys_insert (C : gmap handle (coro T)) h x x' : C !! h = Some x →
  (map_to_list (<[h := x']> C)).*1 ≡ₚ (map_to_list C).*1.
Proof.
  intros Hx. rewrite <- (map_to_list_delete C h x Hx).
  rewrite <- (map_to_list_delete (<[h := x']> C) h x') by apply lookup_insert_eq.
  by rewrite delete_insert_eq.
Qed.
End prog_inv.
