(* ===== verification/ProgramRun.v ===== *)
(** * Operations of tasks that use the primitives

    What each [co_await] and each call of a running coroutine does to the
    invariant of [ProgramInv]: nothing is undefined, no coroutine is lost, and
    those the primitives wake are in the worker's queue. *)

From S2P Require Import Prelude Runtime Channel ChannelSpec ChannelRing ChannelRefine ChannelRun AsyncMutex AsyncMutexRun AsyncMutexProps WaitGroup Uring Engine EngineProps Context MultisetOrder Program ProgramInv.

Open Scope Z_scope.

(** ** The components in the worker's state *)

Lemma frame_compose {S A B} `{!Runtime S} (l1 : Lens S A) (l2 : Lens A B) :
  RuntimeFrame S A → RuntimeFrame S B (Lens0 := lens_compose l1 l2).
Proof.
  intros [H1 H2 H3]. split.
  - intros a s. apply H1.
  - exact H2.
  - intros i h s. cbn. by rewrite H3.
Qed.

Section frames.
Context {U : Type} `{!Liburing U} {T : Type}.
#[export] Instance world_frame : RuntimeFrame (rt_world U * prog_world T) (prog_world T) :=
  rt_frame (λ _, undefined).
#[export] Instance world_chan_frame : RuntimeFrame (rt_world U * prog_world T) (chan_world T) :=
  frame_compose _ _ world_frame.
#[export] Instance world_mutex_frame : RuntimeFrame (rt_world U * prog_world T) mutex_world :=
  frame_compose _ _ world_frame.
#[export] Instance world_wg_frame : RuntimeFrame (rt_world U * prog_world T) WaitGroup :=
  frame_compose _ _ world_frame.
End frames.

(** ** The invariant when a component changes *)

Lemma refined_ok {T X} (m : M (chan_world T) X) (sp : M (fifo T) X) w f a f' :
  refines_at m sp w f → sp f = Ok a f' → ∃ w', m w = Ok a w' ∧ repr w' f'.
Proof.
  unfold refines_at, wp. intros Hm Hs. destruct (m w) as [b w'|e w'| | |]; try done;
    destruct Hm as (f1 & E & Hr); rewrite Hs in E; simplify_eq. by exists w'.
Qed.
Lemma refined_throw {T X} (m : M (chan_world T) X) (sp : M (fifo T) X) w f e f' :
  refines_at m sp w f → sp f = Throw e f' → ∃ w', m w = Throw e w' ∧ repr w' f'.
Proof.
  unfold refines_at, wp. intros Hm Hs. destruct (m w) as [b w'|e' w'| | |]; try done;
    destruct Hm as (f1 & E & Hr); rewrite Hs in E; simplify_eq. by exists w'.
Qed.

Section changes.
Context {T : Type} `{!Discipline T} {Aw : Elsewhere}.
Implicit Types (P : prog_world T) (f : fifo T) (h : handle) (gs : list ptr).

Definition with_coro h (y : coro T) P : prog_world T := set_coros (<[h := y]> (pg_coros P)) P.

(** The channel has let coroutines go. *)
Lemma inv_chan cur act f P w' f' wk : prog_inv cur act f P → repr w' f' →
  chan_part f' (places P) → waiting f ≡ₚ wk ++ waiting f' →
  prog_inv cur (act ++ wk) f' (lset w' P).
Proof.
  intros [H1 H2 H3 H4 H5 H6 H7 H8 H9 H10 H11] Hr Hp Hw. split; try done.
  cbn [pg_coros lset prog_chan]. rewrite <- H1. unfold blocked. cbn. rewrite Hw. by rewrite <- !app_assoc.
Qed.

(** The running coroutine [h] comes to await [o]. *)
Lemma inv_await h A f P gs o k f' P' act' :
  prog_inv (Some h) (h :: A) f P → pg_coros P !! h = Some (MkCoro PRun gs) →
  op_ok gs o → (∀ r, script_ok (guards_after o gs) (k r)) →
  pg_coros P' = <[h := MkCoro (PAwait o k) gs]> (pg_coros P) →
  act' ++ blocked f' P' ≡ₚ (h :: A) ++ blocked f P →
  repr (pg_chan P') f' → chan_part f' (places P') → mutex_part (pg_coros P') (pg_mutex P') →
  dom (mutexes (pg_mutex P')) = mutex_set → 0 ≤ count_ (pg_wg P') < 2 ^ 31 →
  (wg_wait_queue_ (pg_wg P') ≠ [] → 0 < count_ (pg_wg P')) →
  (∀ h', h' ∈ wg_wait_queue_ (pg_wg P') → ∃ k, places P' h' = Some (PAwait OWait k)) →
  prog_inv None act' f' P'.
Proof.
  intros H Hh Ho Hk EC Hpl Hr Hch Hmu Hdom Hcnt Hwt Hws.
  destruct (inv_exists _ _ _ _ h H) as (y & Hy & Hnull); [by left|].
  split; try done.
  - by rewrite Hpl, (pi_places _ _ _ _ H), EC, (keys_insert _ _ _ _ Hh).
  - rewrite EC, lookup_insert_ne by done. apply (pi_null _ _ _ _ H).
  - intros h' y'. rewrite EC. destruct (decide (h' = h)) as [->|Hne].
    + rewrite lookup_insert_eq. intros [= <-]. split; [|done].
      by apply (pi_coros _ _ _ _ H _ _ Hh).
    + rewrite lookup_insert_ne by done. intros Hy'.
      eapply coro_ok_other; [by apply (pi_coros _ _ _ _ H)|by intros [= ->]].
  - rewrite EC, (size_same _ _ _ _ Hh). apply (pi_size _ _ _ _ H).
Qed.

(** The other parts, when [h] is set to await [o]. *)
Lemma waits_await h A f P gs o k h' : prog_inv (Some h) (h :: A) f P →
  h' ∈ wg_wait_queue_ (pg_wg P) →
  ∃ k', places (with_coro h (MkCoro (PAwait o k) gs) P) h' = Some (PAwait OWait k').
Proof.
  intros H Hin. destruct (pi_waits _ _ _ _ H _ Hin) as [k' Hk']. exists k'.
  unfold with_coro. rewrite (places_insert P h). rewrite decide_False; [done|]. intros ->.
  destruct (inv_free _ _ _ _ h H) as (_ & _ & Hn); [by left|done].
Qed.

Lemma mutex_await h A f P gs o k : prog_inv (Some h) (h :: A) f P →
  pg_coros P !! h = Some (MkCoro PRun gs) → awaits_lock (PAwait o k) = false →
  mutex_part (<[h := MkCoro (PAwait o k) gs]> (pg_coros P)) (pg_mutex P).
Proof. intros H Hh Ha. by eapply mutex_part_move; [apply (pi_mutex _ _ _ _ H)|done..]. Qed.

Lemma runs_not_waiting h f P gs : pg_coros P !! h = Some (MkCoro PRun gs) →
  ¬ awaits_send (places P h) ∧ ¬ awaits_receive (places P h).
Proof.
  intros Hh. unfold places. rewrite Hh. split; [by intros (v & k' & [=])|by intros (k' & [=])].
Qed.

Lemma chan_await h A f P gs (o : op T) k : prog_inv (Some h) (h :: A) f P →
  pg_coros P !! h = Some (MkCoro PRun gs) →
  ¬ awaits_send (Some (PAwait o k)) → ¬ awaits_receive (Some (PAwait o k)) →
  chan_part f (places (with_coro h (MkCoro (PAwait o k) gs) P)).
Proof.
  intros H Hh Hs Hr. destruct (runs_not_waiting h f P gs Hh).
  by eapply chan_part_move; [apply (pi_chan _ _ _ _ H)|done..|apply places_insert].
Qed.

(** It does so at the channel, or elsewhere than at a mutex. *)
Lemma inv_await_chan h A f P gs o k f' w' act' :
  prog_inv (Some h) (h :: A) f P → pg_coros P !! h = Some (MkCoro PRun gs) →
  op_ok gs o → (∀ r, script_ok (guards_after o gs) (k r)) →
  awaits_lock (PAwait o k) = false →
  act' ++ waiting f' ++ mutex_waiting (pg_mutex P) ++ wg_wait_queue_ (pg_wg P)
    ≡ₚ (h :: A) ++ blocked f P →
  repr w' f' → chan_part f' (places (with_coro h (MkCoro (PAwait o k) gs) P)) →
  prog_inv None act' f' (lset w' (with_coro h (MkCoro (PAwait o k) gs) P)).
Proof.
  intros H Hh Ho Hk Hl Hp Hr Hch. eapply (inv_await h A f P gs o k); try done.
  - exact (mutex_await h A f P gs o k H Hh Hl).
  - exact (pi_mutexes _ _ _ _ H).
  - exact (pi_count _ _ _ _ H).
  - exact (pi_waiters _ _ _ _ H).
  - intros h'. exact (waits_await h _ f P gs _ k h' H).
Qed.

(** The coroutine [h] goes on, with the guards [gs']. *)
Lemma inv_run h A f P gs gs' p f' P' act' :
  prog_inv None (h :: A) f P → pg_coros P !! h = Some (MkCoro p gs) →
  guards_ok gs' →
  pg_coros P' = <[h := MkCoro PRun gs']> (pg_coros P) →
  act' ++ blocked f' P' ≡ₚ (h :: A) ++ blocked f P →
  repr (pg_chan P') f' → chan_part f' (places P') → mutex_part (pg_coros P') (pg_mutex P') →
  dom (mutexes (pg_mutex P')) = mutex_set → pg_wg P' = pg_wg P →
  prog_inv (Some h) act' f' P'.
Proof.
  intros H Hh Hgs EC Hpl Hr Hch Hmu Hdom Ew.
  destruct (inv_exists _ _ _ _ h H) as (y & Hy & Hnull); [by left|].
  destruct (inv_free _ _ _ _ h H) as (_ & _ & Hn); [by left|].
  split; rewrite ?Ew; try done.
  - by rewrite Hpl, (pi_places _ _ _ _ H), EC, (keys_insert _ _ _ _ Hh).
  - rewrite EC, lookup_insert_ne by done. apply (pi_null _ _ _ _ H).
  - apply (pi_count _ _ _ _ H).
  - apply (pi_waiters _ _ _ _ H).
  - intros h' Hin. unfold places. rewrite EC, lookup_insert_ne by by intros <-.
    by apply (pi_waits _ _ _ _ H).
  - intros h' y'. rewrite EC. destruct (decide (h' = h)) as [->|Hne].
    + rewrite lookup_insert_eq. intros [= <-]. by split; [|left].
    + rewrite lookup_insert_ne by done. intros Hy'.
      by eapply coro_ok_other; [apply (pi_coros _ _ _ _ H)|].
  - rewrite EC, (size_same _ _ _ _ Hh). apply (pi_size _ _ _ _ H).
Qed.

(** It goes on from anything but a mutex. *)
Lemma inv_go h A f P gs p : prog_inv None (h :: A) f P →
  pg_coros P !! h = Some (MkCoro p gs) → awaits_lock p = false →
  prog_inv (Some h) (h :: A) f (with_coro h (MkCoro PRun gs) P).
Proof.
  intros H Hh Hl. destruct (inv_free _ _ _ _ h H) as (Hw & _ & _); [by left|].
  eapply (inv_run h A f P gs gs p); try done.
  - apply (pi_coros _ _ _ _ H _ _ Hh).
  - apply (pi_repr _ _ _ _ H).
  - eapply chan_part_resume; [apply (pi_chan _ _ _ _ H)|done|..|apply places_insert].
    + intros (? & ? & [=]).
    + intros (? & [=]).
  - eapply mutex_part_move; [apply (pi_mutex _ _ _ _ H)|done..].
  - apply (pi_mutexes _ _ _ _ H).
Qed.

(** [h] has the mutex it awaits. *)
Lemma inv_locked h A f P gs m k : prog_inv None (h :: A) f P →
  pg_coros P !! h = Some (MkCoro (PAwait (OLock m) k) gs) →
  let w := pg_mutex P in
  prog_inv (Some h) (h :: A) f (with_coro h (MkCoro PRun (m :: gs))
    (lset (set_guards (<[guard_ptr h m := MkGuard m true]> (guards w)) w) P)).
Proof.
  intros H Hh w. destruct (inv_free _ _ _ _ h H) as (Hw & Hq & _); [by left|].
  destruct (pi_coros _ _ _ _ H _ _ Hh) as [Hgs [(_ & Hm & Hms) _]]. cbn in Hgs, Hm.
  eapply (inv_run h A f P gs (m :: gs)); try done.
  - destruct Hgs as [Hnd Hin]. by split; constructor.
  - apply (pi_repr _ _ _ _ H).
  - eapply chan_part_resume; [apply (pi_chan _ _ _ _ H)|done|..|exact (places_insert P h (MkCoro PRun (m :: gs)))].
    + intros (? & ? & [=]).
    + intros (? & [=]).
  - apply (mutex_granted _ _ _ gs m k (pi_mutex _ _ _ _ H) Hh Hm). intros y Hy. by apply (Hq m).
  - apply (pi_mutexes _ _ _ _ H).
Qed.

(** [done()]: the last one lets the waiting coroutines go. *)
Lemma inv_wg_done cur act f P n' : prog_inv cur act f P → 0 ≤ n' < 2 ^ 31 → let q := wg_wait_queue_ (pg_wg P) in
  prog_inv cur (act ++ if n' =? 0 then q else []) f
    (lset (MkWaitGroup n' (if n' =? 0 then [] else q)) P).
Proof.
  intros [H1 H2 H3 H4 H5 H6 H7 H8 H9 H10 H11] Hn q. split; try done; cbn.
  - rewrite <- H1. unfold blocked. cbn. fold q.
    destruct (n' =? 0); rewrite ?app_nil_r; [|done]. rewrite <- ?app_assoc. solve_Permutation.
  - destruct (Z.eqb_spec n' 0); [done|lia].
  - intros h'. destruct (n' =? 0); [by intros ?%not_elem_of_nil|apply H9].
Qed.

(** A guard of [h] ends. *)
Lemma inv_guard_end h A f P gs m : prog_inv (Some h) (h :: A) f P →
  pg_coros P !! h = Some (MkCoro PRun gs) → m ∈ gs →
  let w := pg_mutex P in
  guards w !! guard_ptr h m = Some (MkGuard m true) ∧ is_Some (mutexes w !! m) ∧ m ≠ null ∧
  prog_inv (Some h) (h :: A ++ woken m w) f (with_coro h (MkCoro PRun (filter (λ m', m' ≠ m) gs))
    (lset (set_guards (delete (guard_ptr h m) (guards w)) (unlocked m w)) P)).
Proof.
  intros H Hh Hm w. destruct (pi_coros _ _ _ _ H _ _ Hh) as [[Hnd Hgs] _]. cbn in Hnd, Hgs.
  assert (Hms : m ∈ mutex_set) by (rewrite Forall_forall in Hgs; by apply Hgs).
  assert (Hx : is_Some (mutexes w !! m)) by (apply elem_of_dom; unfold w; by rewrite (pi_mutexes _ _ _ _ H)).
  destruct Hx as [x Hx].
  destruct (mutex_release _ _ h PRun gs m x (pi_mutex _ _ _ _ H) Hh eq_refl Hm Hx) as [Hg Hmu].
  split_and!; [done|by eexists|by intros ->; apply mutex_set_null|].
  destruct H as [H1 H2 H3 H4 H5 H6 H7 H8 H9 H10 H11].
  assert (Hnull : h ≠ null) by (intros ->; by rewrite H2 in Hh).
  split; try done; cbn.
  - rewrite (keys_insert _ _ _ _ Hh), <- H1. unfold blocked. cbn.
    destruct (mutex_waiting_insert w m x (MkMutex (if queue_empty (wait_queue_ x) then false
      else lock_ x) (tail (wait_queue_ x))) Hx) as (M & E1 & E2).
    assert (E2' : mutex_waiting (set_guards (delete (guard_ptr h m) (guards w)) (unlocked m w)) ≡ₚ
      tail (wait_queue_ x) ++ M) by (revert E2; unfold unlocked; by rewrite Hx).
    fold w. rewrite E1, E2'. unfold woken. rewrite Hx.
    destruct (wait_queue_ x); cbn [head tail option_list app]; rewrite ?app_nil_r; [done|].
    rewrite <- ?app_assoc. solve_Permutation.
  - by rewrite lookup_insert_ne.
  - eapply chan_part_ext; [|exact H4]. intros h'. unfold places. cbn.
    destruct (decide (h' = h)) as [->|Hne]; [by rewrite lookup_insert_eq, Hh|by rewrite lookup_insert_ne].
  - unfold unlocked. rewrite Hx. cbn. by rewrite dom_insert_lookup_L by by eexists.
  - intros h' Hin. destruct (H9 h' Hin) as [k' Hk']. exists k'. unfold places in *. cbn.
    destruct (decide (h' = h)) as [->|Hne]; [by rewrite Hh in Hk'|by rewrite lookup_insert_ne].
  - intros h' y'. destruct (decide (h' = h)) as [->|Hne].
    + rewrite lookup_insert_eq. intros [= <-]. split; [|by left]. split; cbn; [by apply NoDup_filter|].
      rewrite Forall_forall in Hgs |- *. intros m' [_ Hin]%list_elem_of_filter. by apply Hgs.
    + rewrite lookup_insert_ne by done. apply H10.
  - by rewrite (size_same _ _ _ _ Hh).
Qed.

Lemma await_perm (b : bool) h R q hs wf wf' rest :
  wf ++ (if b then [h] else []) ≡ₚ hs ++ wf' →
  ((if b then [] else [h]) ++ R ++ q ++ hs) ++ wf' ++ rest ≡ₚ (h :: R ++ q) ++ wf ++ rest.
Proof.
  intros Hw. trans ((if b then [] else [h]) ++ R ++ q ++ rest ++ (hs ++ wf')).
  { rewrite <- ?app_assoc. solve_Permutation. }
  rewrite <- Hw. destruct b; cbn [app]; rewrite <- ?app_assoc; cbn [app]; solve_Permutation.
Qed.
End changes.

Section run.
Context {U : Type} `{!Liburing U} {T : Type} `{!Discipline T} {Aw : Elsewhere} (moved_from : T → T) (kStats : bool).
Context (c : ptr) (Hc : c ≠ null) (contexts : gmap ptr (ContextObj U)).
Implicit Types (P : prog_world T) (f : fifo T) (h : handle) (gs : list ptr).

Abbreviation world := (rt_world U * prog_world T)%type.

(** The thread of the context [c], whose engine is [e] but for its task queue
    [q], with the awaiters [ops] of IO operations and [n] tasks pending. *)
Definition at_work (x : ContextObj U) (e : Engine U) (ops : gmap ptr IoOpAwaiter) (q : list handle)
    (n : Z) P : world :=
  (MkRt (<[c := set_engine (set_tasks q e) x]> contexts) ops n c, P).

Section state.
Context (x : ContextObj U) (en : Engine U) (ops : gmap ptr IoOpAwaiter).
#[local] Abbreviation st q n P := (at_work x en ops q n P).

Lemma st_context q n P : try_local_context (st q n P) = Some (N.to_nat c).
Proof.
  assert (E : is_null c = false) by by apply N.eqb_neq.
  cbn -[is_null]. unfold rt_local. cbn -[is_null]. by rewrite E.
Qed.

Lemma st_submit_task h q n P : Context_submit_task c h (fst (st q n P)) = Ok tt (fst (st (q ++ [h]) n P)).
Proof.
  unfold Context_submit_task, in_engine. cbn. rewrite lookup_insert_eq. cbn.
  unfold rt_update, at_work. cbn. by rewrite insert_insert_eq.
Qed.

Lemma st_submit h q n P : context_submit_task (N.to_nat c) h (st q n P) = st (q ++ [h]) n P.
Proof. cbn. unfold rt_submit. by rewrite N2Nat.id, st_submit_task. Qed.

Lemma st_submit_all hs q n P : Forall (λ h, h ≠ null) hs →
  submit_all (N.to_nat c) hs (st q n P) = st (q ++ hs) n P.
Proof.
  intros Hn. revert q. induction Hn as [|h hs Hh _ IH]; intros q; cbn [submit_all].
  { by rewrite app_nil_r. }
  unfold is_null. rewrite (proj2 (N.eqb_neq h null) Hh).
  rewrite st_submit. cbn beta in IH. rewrite IH. by rewrite <- app_assoc.
Qed.

Lemma st_submit_one h q n P : submit_all (N.to_nat c) [h] (st q n P) = st (q ++ handle_list h) n P.
Proof.
  unfold handle_list. cbn [submit_all]. destruct (is_null h); [by rewrite app_nil_r|apply st_submit].
Qed.

Lemma st_yield h q n P : zoom (YieldAwaiter_await_suspend h) (st q n P) = Ok true (st (q ++ [h]) n P).
Proof.
  unfold zoom, YieldAwaiter_await_suspend, bind at 1, get. cbn [lget lens_fst fst at_work local_context_ptr].
  assert (is_null c = false) as -> by by apply N.eqb_neq.
  pose proof (st_submit_task h q n P) as E. cbn [fst at_work] in E. by rewrite (bind_ok _ _ _ _ _ E).
Qed.

(** An operation of a component. *)
Lemma st_chan {X} (m : M (chan_world T) X) q n P a w : m (pg_chan P) = Ok a w →
  zoom m (st q n P) = Ok a (st q n (lset w P)).
Proof. intros Hm. exact (zoom_ok m (st q n P) _ _ Hm). Qed.
Lemma st_chan_throw {X} (m : M (chan_world T) X) q n P e w : m (pg_chan P) = Throw e w →
  zoom m (st q n P) = Throw e (st q n (lset w P)).
Proof. intros Hm. exact (zoom_throw m (st q n P) _ _ Hm). Qed.
Lemma st_mutex {X} (m : M mutex_world X) q n P a w : m (pg_mutex P) = Ok a w →
  zoom m (st q n P) = Ok a (st q n (lset w P)).
Proof. intros Hm. exact (zoom_ok m (st q n P) _ _ Hm). Qed.
Lemma st_wg {X} (m : M WaitGroup X) q n P a w : m (pg_wg P) = Ok a w →
  zoom m (st q n P) = Ok a (st q n (lset w P)).
Proof. intros Hm. exact (zoom_ok m (st q n P) _ _ Hm). Qed.

Lemma st_coro_at h y q n P : pg_coros P !! h = Some y → coro_at h (st q n P) = Ok y (st q n P).
Proof. intros Hy. unfold coro_at, bind, get. cbn. by rewrite Hy. Qed.

Lemma st_set_place h p p0 gs q n P : pg_coros P !! h = Some (MkCoro p0 gs) →
  set_place h p (st q n P) = Ok tt (st q n (with_coro h (MkCoro p gs) P)).
Proof. intros Hy. unfold set_place. by rewrite (bind_ok _ _ _ _ _ (st_coro_at _ _ q n P Hy)). Qed.

Lemma st_set_guards h g p gs q n P : pg_coros P !! h = Some (MkCoro p gs) →
  set_guards_of h g (st q n P) = Ok tt (st q n (with_coro h (MkCoro p (g gs)) P)).
Proof. intros Hy. unfold set_guards_of. by rewrite (bind_ok _ _ _ _ _ (st_coro_at _ _ q n P Hy)). Qed.

#[local] Ltac not_in_channel :=
  first [done | intros (? & ? & [=]) | intros (? & [=])].
#[local] Ltac solve_perm := cbn [app]; rewrite <- ?app_assoc; solve_Permutation.

(** What follows a locked block of the channel. *)
Lemma st_resume wake q n P :
  resume_if_set wake (st q n P) = Ok tt (st (q ++ handle_list wake) n P).
Proof. by rewrite (resume_if_set_in_context _ _ _ (st_context q n P)), st_submit_one. Qed.

Lemma st_sender_suspend h q n P b wake w :
  SenderAwaiter_await_suspend_locked moved_from kStats h h (pg_chan P) = Ok (b, wake) w →
  SenderAwaiter_await_suspend moved_from kStats h h (st q n P) =
    Ok b (st (q ++ handle_list wake) n (lset w P)).
Proof.
  intros H. unfold SenderAwaiter_await_suspend. rewrite (bind_ok _ _ _ _ _ (st_chan _ q n P _ _ H)).
  by rewrite (bind_ok _ _ _ _ _ (st_resume wake q n (lset w P))).
Qed.

Lemma st_receiver_suspend h q n P b wake w :
  ReceiverAwaiter_await_suspend_locked moved_from kStats h h (pg_chan P) = Ok (b, wake) w →
  ReceiverAwaiter_await_suspend moved_from kStats h h (st q n P) =
    Ok b (st (q ++ handle_list wake) n (lset w P)).
Proof.
  intros H. unfold ReceiverAwaiter_await_suspend, noexcept.
  rewrite (bind_ok _ _ _ _ _ (st_chan _ q n P _ _ H)).
  by rewrite (bind_ok _ _ _ _ _ (st_resume wake q n (lset w P))).
Qed.

(** The awaiter is made, and what it finds. *)
Lemma run_send h v w f b wake f' : repr w f → fifo_wf f → f_closed f = false →
  h ∉ ((λ x : handle * ptr * T, x.1.2) <$> f_senders f) →
  spec_send_suspend h h v (fifo_set_flag h false f) = Ok (b, wake) f' →
  ∃ w1 w2, send kStats h v w = Ok tt w1 ∧
    SenderAwaiter_await_suspend_locked moved_from kStats h h w1 = Ok (b, wake) w2 ∧ repr w2 f'.
Proof.
  intros Hr Hwf Hcl Hh Hs.
  assert (E : send kStats h v w = Ok tt (set_senders (<[h := MkSender v false]> (senders w)) w)).
  { unfold send, chan_get, bind, gets, id. by rewrite (re_closed _ _ Hr), Hcl. }
  destruct (refined_ok _ _ _ _ tt (fifo_set_flag h false f) (refines_send kStats h v w f Hr Hh)) as (w1 & E1 & Hr1).
  { unfold spec_send. by rewrite Hcl. }
  rewrite E in E1. injection E1 as <-.
  edestruct (refined_ok _ _ _ _ _ _ (refines_send_suspend moved_from kStats h h v false _ _ Hr1
    (fifo_set_flag_wf h false f Hwf Hh) (lookup_insert_eq _ _ _) Hh) Hs) as (w2 & E2 & Hr2).
  eexists _, w2. by split_and!.
Qed.

Lemma run_receive h w f b wake f' : repr w f → fifo_wf f →
  h ∉ (snd <$> f_receivers f) →
  spec_receive_suspend h h (fifo_set_mail h None f) = Ok (b, wake) f' →
  ∃ w1 w2, receive h w = Ok tt w1 ∧
    ReceiverAwaiter_await_suspend_locked moved_from kStats h h w1 = Ok (b, wake) w2 ∧ repr w2 f'.
Proof.
  intros Hr Hwf Hh Hs.
  destruct (refined_ok _ _ _ _ tt (fifo_set_mail h None f) (refines_receive h w f Hr)) as (w1 & E1 & Hr1).
  { done. }
  assert (Hlive : is_Some (receivers w1 !! h)).
  { unfold receive, modify in E1. injection E1 as <-. cbn. rewrite lookup_insert_eq. by eexists. }
  edestruct (refined_ok _ _ _ _ _ _ (refines_receive_suspend moved_from kStats h h _ _ Hr1
    (fifo_set_mail_wf h None f Hwf Hh) Hlive) Hs) as (w2 & E2 & Hr2).
  exists w1, w2. by split_and!.
Qed.

(** *** [co_await], up to the decision to suspend *)

Definition is_io (o : op T) : bool :=
  match o with OIoOnce | OIo _ _ _ _ _ => true | _ => false end.

(** The running coroutine [h] comes to await [o]; it suspends or goes on. *)
Definition suspends h R (m : M world bool) q n P1 : Prop :=
  ∃ b q' f' P', m (st q n P1) = Ok b (st q' n P') ∧ pg_coros P' = pg_coros P1 ∧
    prog_inv None ((if b : bool then [] else [h]) ++ R ++ q') f' P'.

Section awaits.
Context h gs (k : result T → script T) (R q : list handle) (n : Z) f P
  (Hh : pg_coros P !! h = Some (MkCoro PRun gs)) (H : prog_inv (Some h) (h :: R ++ q) f P).
#[local] Abbreviation awaiting o := (with_coro h (MkCoro (PAwait o k) gs) P).
#[local] Abbreviation suspend o := (op_suspend moved_from kStats h o).
#[local] Abbreviation ok o := (op_ok (T := T) gs o) (only parsing).
#[local] Abbreviation rest_ok o := (∀ r, script_ok (guards_after (T := T) o gs) (k r)) (only parsing).

(** An operation that does not wait in a primitive. *)
Lemma awaits_elsewhere o act : ok o → rest_ok o →
  ¬ awaits_send (Some (PAwait o k)) → ¬ awaits_receive (Some (PAwait o k)) →
  awaits_lock (PAwait o k) = false → act ≡ₚ h :: R ++ q → prog_inv None act f (awaiting o).
Proof.
  intros Ho Hk Hs Hr Hl E. apply (inv_await_chan h (R ++ q) f P gs o k f (pg_chan P)); try done.
  - by rewrite E.
  - apply (pi_repr _ _ _ _ H).
  - exact (chan_await h _ f P gs o k H Hh Hs Hr).
Qed.

(** A plain call, or a wait that is over. *)
Lemma suspends_not o : ok o → rest_ok o →
  ¬ awaits_send (Some (PAwait o k)) → ¬ awaits_receive (Some (PAwait o k)) → awaits_lock (PAwait o k) = false →
  suspend o (st q n (awaiting o)) = Ok false (st q n (awaiting o)) →
  suspends h R (suspend o) q n (awaiting o).
Proof.
  intros Ho Hk Hs Hr Hl E. exists false, q, f, (awaiting o). split_and!; [done..|]. by apply awaits_elsewhere.
Qed.

Lemma suspends_yield : ok OYield → rest_ok OYield → suspends h R (suspend OYield) q n (awaiting OYield).
Proof.
  intros Ho Hk. exists true, (q ++ [h]), f, (awaiting OYield).
  destruct (inv_exists _ _ _ _ h H) as (y & Hy & Hnull); [by left|].
  split_and!; [by apply st_yield|done|]. apply awaits_elsewhere; [done|done|by not_in_channel..|].
  cbn. by rewrite app_assoc, Permutation_app_comm.
Qed.

Lemma suspends_lock m : ok (OLock m) → rest_ok (OLock m) →
  suspends h R (suspend (OLock m)) q n (awaiting (OLock m)).
Proof.
  intros Ho Hk. pose proof Ho as (_ & Hm & Hms). rewrite <- (pi_mutexes _ _ _ _ H) in Hms.
  apply elem_of_dom in Hms as [z Hz].
  destruct (mutex_lock _ _ h gs m z k (pi_mutex _ _ _ _ H) Hh Hm Hz) as [Hrun Hmu].
  set (w' := set_mutexes _ _) in Hrun, Hmu.
  exists (lock_ z), q, f, (lset w' (awaiting (OLock m))). split_and!; [by apply st_mutex|done|].
  eapply (inv_await h (R ++ q) f P gs (OLock m) k); try done.
  - destruct (mutex_waiting_insert (pg_mutex P) m z (MkMutex true (wait_queue_ z ++ if lock_ z then [h] else [])) Hz)
      as (M & E1 & E2). fold w' in E2. cbn in E2.
    unfold blocked. cbn [lset prog_mutex pg_mutex pg_wg with_coro set_coros]. rewrite E1, E2.
    destruct (lock_ z); rewrite ?app_nil_r; cbn; [solve_perm|done].
  - apply (pi_repr _ _ _ _ H).
  - by eapply chan_await; [..|not_in_channel|not_in_channel].
  - cbn. rewrite dom_insert_lookup_L by by eexists. exact (pi_mutexes _ _ _ _ H).
  - exact (pi_count _ _ _ _ H).
  - exact (pi_waiters _ _ _ _ H).
  - intros h'. exact (waits_await h _ f P gs _ k h' H).
Qed.

Lemma suspends_send v : ok (OSend v) → rest_ok (OSend v) → f_closed f = false →
  suspends h R (suspend (OSend v)) q n (awaiting (OSend v)).
Proof.
  intros Ho Hk Ecl. destruct (runs_not_waiting h f P gs Hh) as [Hns Hnr].
  destruct (inv_exists _ _ _ _ h H) as (y & Hy & Hnull); [by left|].
  destruct (chan_send f (places P) (places (awaiting (OSend v))) h v k) as (b & wake & f' & Hs & Hch & Hw);
    [apply (pi_chan _ _ _ _ H)|done..|apply places_insert|].
  destruct (run_send h v (pg_chan P) f b wake f') as (w1 & w2 & E1 & E2 & Hr2); try done.
  { apply (pi_repr _ _ _ _ H). }
  { apply (cp_wf _ _ (pi_chan _ _ _ _ H)). }
  { apply (not_sender_ptr _ _ h (pi_chan _ _ _ _ H) Hns). }
  exists b, (q ++ handle_list wake), f', (lset w2 (lset w1 (awaiting (OSend v)))). split_and!; [|done|].
  { cbn [op_suspend SenderAwaiter_await_ready].
    rewrite (bind_ok _ _ _ _ _ (st_chan _ q n (awaiting (OSend v)) _ _ E1)). by apply st_sender_suspend. }
  apply (inv_await_chan h (R ++ q) f P gs (OSend v) k f' w2); try done. by apply await_perm.
Qed.

(** [send] on a closed channel throws. *)
Lemma throws_send v : f_closed f = true → ∃ e w',
  suspend (OSend v) (st q n (awaiting (OSend v))) = Throw e (st q n (lset w' (awaiting (OSend v)))) ∧ repr w' f.
Proof.
  intros Ecl. destruct (runs_not_waiting h f P gs Hh) as [Hns _].
  destruct (refined_throw _ _ _ _ closed_error f (refines_send kStats h v (pg_chan P) f (pi_repr _ _ _ _ H)
    (not_sender_ptr _ _ h (pi_chan _ _ _ _ H) Hns))) as (w' & E & Hr'); [unfold spec_send; by rewrite Ecl|].
  exists closed_error, w'. split; [|done]. cbn [op_suspend].
  by rewrite (bind_throw _ _ _ _ _ (st_chan_throw _ q n (awaiting (OSend v)) _ _ E)).
Qed.

Lemma suspends_receive : ok OReceive → rest_ok OReceive →
  suspends h R (suspend OReceive) q n (awaiting OReceive).
Proof.
  intros Ho Hk. destruct (runs_not_waiting h f P gs Hh) as [Hns Hnr].
  destruct (inv_exists _ _ _ _ h H) as (y & Hy & Hnull); [by left|].
  destruct (chan_receive f (places P) (places (awaiting OReceive)) h k) as (b & wake & f' & Hs & Hch & Hw);
    [apply (pi_chan _ _ _ _ H)|done..|apply places_insert|].
  destruct (run_receive h (pg_chan P) f b wake f') as (w1 & w2 & E1 & E2 & Hr2); try done.
  { apply (pi_repr _ _ _ _ H). }
  { apply (cp_wf _ _ (pi_chan _ _ _ _ H)). }
  { apply (not_receiver_ptr _ _ h (pi_chan _ _ _ _ H) Hnr). }
  exists b, (q ++ handle_list wake), f', (lset w2 (lset w1 (awaiting OReceive))). split_and!; [|done|].
  { cbn [op_suspend ReceiverAwaiter_await_ready].
    rewrite (bind_ok _ _ _ _ _ (st_chan _ q n (awaiting OReceive) _ _ E1)). by apply st_receiver_suspend. }
  apply (inv_await_chan h (R ++ q) f P gs OReceive k f' w2); try done. by apply await_perm.
Qed.

Lemma suspends_wait : ok OWait → rest_ok OWait → suspends h R (suspend OWait) q n (awaiting OWait).
Proof.
  intros Ho Hk. pose proof (pi_count _ _ _ _ H) as Hcnt.
  pose proof (st_wg WgAwaiter_await_ready q n (awaiting OWait) _ (pg_wg P) eq_refl) as Eready.
  destruct (Z.eqb_spec (count_ (pg_wg P)) 0) as [E0|Hne].
  { apply suspends_not; [done|done|not_in_channel..|done|]. cbn [op_suspend].
    rewrite (bind_ok _ _ _ _ _ Eready). cbn. by rewrite E0. }
  set (w' := MkWaitGroup (count_ (pg_wg P)) (queue_push h (wg_wait_queue_ (pg_wg P)))).
  exists true, q, f, (lset w' (awaiting OWait)). split_and!; [|done|].
  { cbn [op_suspend]. rewrite (bind_ok _ _ _ _ _ Eready).
    apply Z.eqb_neq in Hne as Hne'. cbn [pg_wg with_coro set_coros]. rewrite Hne'.
    apply st_wg. cbn. unfold WgAwaiter_await_suspend, bind, get. by rewrite Hne'. }
  eapply (inv_await h (R ++ q) f P gs OWait k); try done.
  - unfold blocked. cbn. unfold queue_push. solve_perm.
  - apply (pi_repr _ _ _ _ H).
  - by eapply chan_await; [..|not_in_channel|not_in_channel].
  - exact (mutex_await h _ f P gs OWait k H Hh eq_refl).
  - exact (pi_mutexes _ _ _ _ H).
  - cbn. lia.
  - intros h'. cbn. unfold queue_push. rewrite elem_of_app, list_elem_of_singleton. intros [Hin| ->].
    + exact (waits_await h _ f P gs OWait k h' H Hin).
    + exists k. unfold places. cbn. by rewrite lookup_insert_eq.
Qed.

Lemma op_suspend_ok o : is_io o = false → ok o → rest_ok o →
  suspends h R (suspend o) q n (awaiting o) ∨
  (∃ e w', suspend o (st q n (awaiting o)) = Throw e (st q n (lset w' (awaiting o))) ∧
     repr w' f ∧ guards_after o gs = gs).
Proof.
  intros Hio Ho Hk. destruct o as [|m|m|v| |v| | | | | |]; try done; try (left; apply suspends_not; by not_in_channel).
  - left. by apply suspends_yield.
  - left. by apply suspends_lock.
  - destruct (f_closed f) eqn:Ecl; [right|left; by apply suspends_send].
    destruct (throws_send v Ecl) as (e & w' & E & Hr). by exists e, w'.
  - left. by apply suspends_receive.
  - left. by apply suspends_wait.
Qed.
End awaits.

(** *** The end of a guard's scope *)

Lemma guard_end_ok h R gs m q n f P :
  prog_inv (Some h) (h :: R ++ q) f P → pg_coros P !! h = Some (MkCoro PRun gs) → m ∈ gs →
  ∃ q' P', guard_end h m (st q n P) = Ok tt (st q' n P') ∧
    pg_coros P' = <[h := MkCoro PRun (filter (λ m', m' ≠ m) gs)]> (pg_coros P) ∧
    prog_inv (Some h) (h :: R ++ q') f P'.
Proof.
  intros H Hh Hm. destruct (inv_guard_end h (R ++ q) f P gs m H Hh Hm) as (Hg & Hx & Hnull & Hinv).
  set (w := pg_mutex P) in *. set (P1 := lset (unlocked m w) P).
  eexists (q ++ woken m w), _.
  split_and!; [|shelve|by rewrite <- app_assoc in Hinv]. Unshelve. 2: done.
  assert (Heng : guard_engaged (MkGuard m true) = true).
  { cbn. apply N.eqb_neq in Hnull. unfold is_null. by rewrite Hnull. }
  assert (Hrel : release (N.to_nat c) (MkGuard m true) (st q n P) = st (q ++ woken m w) n P1).
  { unfold release. rewrite Heng. cbn [async_mutex_]. change (lget (st q n P)) with w.
    change (lset (unlocked m w) (st q n P)) with (st q n P1). apply st_submit_all.
    apply Forall_forall. intros h' Hin.
    destruct (inv_exists _ _ _ _ h' Hinv) as (y & _ & Hn); [|done].
    apply elem_of_app. left. right. apply elem_of_app. by right. }
  pose proof (LockGuard_destroy_eq (N.to_nat c) (guard_ptr h m) (MkGuard m true) (st q n P)
    (st_context q n P) Hg (λ _, Hx)) as E. rewrite Hrel in E.
  unfold guard_end. rewrite (bind_ok _ _ _ _ _ E).
  etrans; [exact (st_set_guards h (filter (λ m', m' ≠ m)) PRun gs (q ++ woken m w) n
    (lset (set_guards (delete (guard_ptr h m) (guards (pg_mutex P1))) (pg_mutex P1)) P1) Hh)|].
  assert (Eg : guards (pg_mutex P1) = guards w) by exact (guards_unlocked m w). by rewrite Eg.
Qed.

(** *** The end of [co_await], and calls *)

Lemma attempt_ok (m : M world (result T)) s a s' : m s = Ok a s' → attempt m s = Ok a s'.
Proof. intros E. unfold attempt, try_catch. by rewrite E. Qed.
Lemma attempt_throw (m : M world (result T)) s e s' : m s = Throw e s' → attempt m s = Ok (RThrown e) s'.
Proof. intros E. unfold attempt, try_catch. by rewrite E. Qed.

(** The coroutine [h], in the state [P], goes on to its next operation with
    the guards [gs]. *)
Definition goes h gs R (m : M world (result T)) q n P : Prop :=
  ∃ r q' f' P', m (st q n P) = Ok r (st q' n P') ∧
    pg_coros P' = <[h := MkCoro PRun gs]> (pg_coros P) ∧ prog_inv (Some h) (h :: R ++ q') f' P'.

Section calls.
Context h gs (R q : list handle) (n : Z) f P (Hh : pg_coros P !! h = Some (MkCoro PRun gs))
  (H : prog_inv (Some h) (h :: R ++ q) f P).

(** It changes the channel only. *)
Lemma goes_chan (m : M world (result T)) r wk f' w' :
  m (st q n P) = Ok r (st (q ++ wk) n (lset w' P)) → repr w' f' →
  chan_part f' (places P) → waiting f ≡ₚ wk ++ waiting f' → goes h gs R m q n P.
Proof.
  intros E Hr Hch Hw. exists r, (q ++ wk), f', (lset w' P). split_and!; [done|by cbn; rewrite insert_id|].
  pose proof (inv_chan _ _ f P w' f' wk H Hr Hch Hw) as H'.
  by rewrite <- app_comm_cons, <- app_assoc in H'.
Qed.

Lemma goes_chan_same (m : M world (result T)) r w' :
  m (st q n P) = Ok r (st q n (lset w' P)) → repr w' f → goes h gs R m q n P.
Proof.
  intros E Hr. apply (goes_chan m r [] f w'); [by rewrite app_nil_r|done|apply (pi_chan _ _ _ _ H)|done].
Qed.

Lemma goes_try_send v : goes h gs R (op_result moved_from kStats h (OTrySend v)) q n P.
Proof.
  pose proof (pi_chan _ _ _ _ H) as Hch. pose proof (pi_repr _ _ _ _ H) as Hr.
  pose proof (refines_try_send kStats v _ f Hr (cp_wf _ _ Hch)) as Href. cbn [op_result].
  destruct (f_closed f) eqn:Ecl.
  { destruct (refined_throw _ _ _ _ closed_error f Href) as (w' & E & Hr'); [unfold spec_try_send; by rewrite Ecl|].
    apply (goes_chan_same _ (RThrown closed_error) w'); [|done]. apply attempt_throw. unfold try_send.
    by rewrite (bind_throw _ _ _ _ _ (bind_throw _ _ _ _ _ (st_chan_throw _ q n P _ _ E))). }
  destruct (fifo_push v f) as [[wake f']|] eqn:Ep.
  - destruct (refined_ok _ _ _ _ (true, wake) f' Href) as (w' & E & Hr'); [unfold spec_try_send; by rewrite Ecl, Ep|].
    destruct (chan_part_push f _ v wake f' Hch Ecl Ep) as (Hch' & Hw & _).
    apply (goes_chan _ (RBool true) (handle_list wake) f' w'); [|done..].
    apply attempt_ok. unfold try_send. rewrite bind_assoc, (bind_ok _ _ _ _ _ (st_chan _ q n P _ _ E)).
    by rewrite bind_assoc, (bind_ok _ _ _ _ _ (st_resume wake q n (lset w' P))).
  - destruct (refined_ok _ _ _ _ (false, null) f Href) as (w' & E & Hr'); [unfold spec_try_send; by rewrite Ecl, Ep|].
    apply (goes_chan_same _ (RBool false) w'); [|done].
    apply attempt_ok. unfold try_send. by rewrite bind_assoc, (bind_ok _ _ _ _ _ (st_chan _ q n P _ _ E)).
Qed.

Lemma goes_try_receive : goes h gs R (op_result moved_from kStats h OTryReceive) q n P.
Proof.
  pose proof (pi_chan _ _ _ _ H) as Hch. pose proof (pi_repr _ _ _ _ H) as Hr.
  pose proof (refines_try_receive moved_from kStats _ f Hr (cp_wf _ _ Hch)) as Href. cbn [op_result].
  assert (Hok : ∀ o wake w', try_receive_locked moved_from kStats (pg_chan P) = Ok (o, wake) w' →
    attempt (let! v := try_receive moved_from kStats in ret (RValue v)) (st q n P) =
      Ok (RValue o) (st (q ++ handle_list wake) n (lset w' P))).
  { intros o wake w' E. apply attempt_ok. unfold try_receive.
    rewrite bind_assoc, (bind_ok _ _ _ _ _ (st_chan _ q n P _ _ E)).
    by rewrite bind_assoc, (bind_ok _ _ _ _ _ (st_resume wake q n (lset w' P))). }
  destruct (fifo_pop f) as [[[v wake] f']|] eqn:Ep.
  - destruct (refined_ok _ _ _ _ (Some v, wake) f' Href) as (w' & E & Hr'); [unfold spec_try_receive; by rewrite Ep|].
    destruct (chan_part_pop f _ v wake f' Hch Ep) as (Hch' & Hw & _).
    exact (goes_chan _ _ _ f' w' (Hok _ _ _ E) Hr' Hch' Hw).
  - destruct (f_closed f) eqn:Ecl.
    + destruct (refined_throw _ _ _ _ closed_error f Href) as (w' & E & Hr'); [unfold spec_try_receive; by rewrite Ep, Ecl|].
      apply (goes_chan_same _ (RThrown closed_error) w'); [|done]. apply attempt_throw. unfold try_receive.
      by rewrite (bind_throw _ _ _ _ _ (bind_throw _ _ _ _ _ (st_chan_throw _ q n P _ _ E))).
    + destruct (refined_ok _ _ _ _ (None, null) f Href) as (w' & E & Hr'); [unfold spec_try_receive; by rewrite Ep, Ecl|].
      apply (goes_chan_same _ (RValue None) w'); [|done]. rewrite (Hok _ _ _ E). by rewrite app_nil_r.
Qed.

Lemma goes_close : goes h gs R (op_result moved_from kStats h OClose) q n P.
Proof.
  pose proof (pi_chan _ _ _ _ H) as Hch. pose proof (pi_repr _ _ _ _ H) as Hr.
  pose proof (refines_close kStats _ f Hr (cp_wf _ _ Hch)) as Href. cbn [op_result].
  destruct (f_closed f) eqn:Ecl.
  { destruct (refined_throw _ _ _ _ (runtime_error "channel is already closed") f Href) as (w' & E & Hr');
      [unfold spec_close; by rewrite Ecl|].
    apply (goes_chan_same _ (RThrown (runtime_error "channel is already closed")) w'); [|done].
    apply attempt_throw. unfold close.
    by rewrite (bind_throw _ _ _ _ _ (bind_throw _ _ _ _ _ (st_chan_throw _ q n P _ _ E))). }
  destruct (refined_ok _ _ _ _ ((λ '(h, _, _), h) <$> f_senders f, fst <$> f_receivers f) (fifo_close f) Href)
    as (w' & E & Hr'); [unfold spec_close; by rewrite Ecl|].
  destruct (chan_close f _ Hch) as [Hch' Ew].
  assert (Hn : Forall (λ h, h ≠ null) (waiting f)).
  { apply Forall_forall. intros h' Hin. destruct (inv_exists _ _ _ _ h' H) as (y & _ & ?); [|done].
    apply elem_of_app. right. unfold blocked. apply elem_of_app. by left. }
  assert (Es : (λ '(h, _, _), h) <$> f_senders f = (λ x : handle * ptr * T, x.1.1) <$> f_senders f).
  { apply list_fmap_ext. by intros ? [[] ?]. }
  apply (goes_chan _ RUnit (waiting f) (fifo_close f) w'); [|done..|by rewrite Ew, app_nil_r].
  apply attempt_ok. unfold close. rewrite bind_assoc, (bind_ok _ _ _ _ _ (st_chan _ q n P _ _ E)).
  unfold waiting in Hn |- *. rewrite Es. apply Forall_app in Hn as [Hn1 Hn2].
  rewrite bind_assoc, (bind_ok _ _ _ _ _ (reschedule_all_in_context (A := chan_world T) _ _ _ (st_context _ _ _))).
  rewrite st_submit_all by done.
  rewrite (bind_ok _ _ _ _ _ (reschedule_all_in_context (A := chan_world T) _ _ _ (st_context _ _ _))).
  by rewrite st_submit_all, <- app_assoc by done.
Qed.

Lemma goes_done : goes h gs R (op_result moved_from kStats h ODone) q n P.
Proof.
  pose proof (pi_count _ _ _ _ H) as Hcnt. cbn [op_result].
  destruct (pg_wg P) as [cnt wq] eqn:Ew. cbn [count_] in Hcnt.
  destruct (Z.eqb_spec cnt 0) as [->|Hne].
  { exists (RThrown (runtime_error "count is zero")), q, f, P. split_and!; [|by rewrite insert_id|done].
    apply attempt_throw. apply bind_throw. exact (wg_done_zero (st q n P) wq Ew). }
  pose proof (inv_wg_done _ _ f P (cnt - 1) H ltac:(lia)) as H'. rewrite Ew in H'. cbn [wg_wait_queue_] in H'.
  pose proof (wg_done_eq (st q n P) _ cnt wq (st_context q n P) Ew ltac:(lia)) as E.
  replace (cnt - 1 =? 0) with (cnt =? 1) in H' by lia.
  destruct (Z.eqb_spec cnt 1) as [->|Hne1].
  - exists RUnit, (q ++ wq), f, (lset (MkWaitGroup 0 []) P). split_and!; [|by cbn; rewrite insert_id|].
    + apply attempt_ok. rewrite (bind_ok _ _ _ _ _ E). unfold ret. f_equal.
      apply st_submit_all. apply Forall_forall. intros h' Hin.
      destruct (inv_exists _ _ _ _ h' H) as (y & _ & ?); [|done]. unfold blocked. rewrite Ew.
      rewrite !elem_of_app. by do 3 right.
    + by rewrite <- app_comm_cons, <- app_assoc in H'.
  - exists RUnit, q, f, (lset (MkWaitGroup (cnt - 1) wq) P). split_and!; [|by cbn; rewrite insert_id|].
    + apply attempt_ok. by rewrite (bind_ok _ _ _ _ _ E).
    + by rewrite app_nil_r in H'.
Qed.
End calls.

(** The awaiter of a send or a receive is read and is gone. *)
Lemma goes_sent h gs R v q n f P : pg_coros P !! h = Some (MkCoro PRun gs) →
  prog_inv (Some h) (h :: R ++ q) f P → is_Some (f_flag f !! h) →
  goes h gs R (op_result moved_from kStats h (OSend v)) q n P.
Proof.
  intros Hh H Hflag. pose proof (pi_chan _ _ _ _ H) as Hch. pose proof (pi_repr _ _ _ _ H) as Hr.
  destruct (runs_not_waiting h f P gs Hh) as [Hns Hnr].
  rewrite <- (re_flag _ _ Hr), lookup_fmap, fmap_is_Some in Hflag. destruct Hflag as [a Ha].
  pose proof (SenderAwaiter_resume_spec h _ f a Hr Ha) as E.
  destruct (chan_part_drop_flag f _ h _ Hch Hr Hns) as [Hr' Hch'].
  apply (goes_chan h gs R q n f P Hh H _ (if decide (f_flag f !! h = Some true) then RThrown closed_error else RUnit)
    [] (fifo_drop_flag h f) (set_senders (delete h (senders (pg_chan P))) (pg_chan P))); [|done..].
  rewrite app_nil_r. cbn [op_result]. rewrite (bind_ok _ _ _ (if decide (f_flag f !! h = Some true) then RThrown closed_error
    else RUnit) (st q n (lset (pg_chan P) P))); [by erewrite bind_ok; [|apply st_chan; reflexivity]|].
  case_decide.
  - apply attempt_throw, bind_throw. by apply st_chan_throw.
  - apply attempt_ok. by rewrite (bind_ok _ _ _ _ _ (st_chan _ q n P _ _ E)).
Qed.

Lemma goes_received h gs R q n f P : pg_coros P !! h = Some (MkCoro PRun gs) →
  prog_inv (Some h) (h :: R ++ q) f P → is_Some (f_mail f !! h) →
  goes h gs R (op_result moved_from kStats h OReceive) q n P.
Proof.
  intros Hh H [o Ho]. pose proof (pi_chan _ _ _ _ H) as Hch. pose proof (pi_repr _ _ _ _ H) as Hr.
  destruct (runs_not_waiting h f P gs Hh) as [Hns Hnr].
  pose proof (ReceiverAwaiter_resume_spec moved_from h _ f o Hr Ho) as E. unfold wp in E.
  cbn [op_result].
  assert (Hdrop : ∀ r w1 f1, attempt (let! v := zoom (ReceiverAwaiter_await_resume moved_from h) in
      ret (RValue (Some v))) (st q n P) = Ok r (st q n (lset w1 P)) → repr w1 f1 → chan_part f1 (places P) →
    waiting f1 = waiting f → goes h gs R (op_result moved_from kStats h OReceive) q n P).
  { intros r w1 f1 E1 Hr1 Hch1 Hw1. destruct (chan_part_drop_mail f1 _ h _ Hch1 Hr1 Hnr) as [Hr' Hch'].
    apply (goes_chan h gs R q n f P Hh H _ r [] (fifo_drop_mail h f1)
      (set_receivers (delete h (receivers w1)) w1)); [|done|done|by cbn; rewrite <- Hw1].
    rewrite app_nil_r. cbn [op_result]. rewrite (bind_ok _ _ _ _ _ E1).
    by erewrite bind_ok; [|apply st_chan; reflexivity]. }
  destruct (ReceiverAwaiter_await_resume moved_from h (pg_chan P)) as [v w1|e w1| | |] eqn:E1; try done.
  - destruct E as [-> Hr1]. apply (Hdrop (RValue (Some v)) w1 (fifo_set_mail h (Some (moved_from v)) f)); [|done| |done].
    + apply attempt_ok. by rewrite (bind_ok _ _ _ _ _ (st_chan _ q n P _ _ E1)).
    + apply chan_part_set_mail; [done|]. by eapply not_receiver_ptr.
  - destruct E as (_ & -> & ->). apply (Hdrop (RThrown closed_error) (pg_chan P) f); [|done..].
    apply attempt_throw, bind_throw. by apply st_chan_throw.
Qed.

(** From where the coroutine is resumed. *)
Lemma op_result_ok h R gs o k q n f P : is_io o = false →
  prog_inv None (h :: R ++ q) f P → pg_coros P !! h = Some (MkCoro (PAwait o k) gs) →
  goes h (guards_after o gs) R (set_place h PRun;;; op_result moved_from kStats h o) q n P.
Proof.
  intros Hio H Hh. pose proof (pi_coros _ _ _ _ H _ _ Hh) as [Hgs [Ho _]]. cbn in Hgs, Ho.
  pose proof (pi_chan _ _ _ _ H) as Hch. set (P1 := with_coro h (MkCoro PRun gs) P).
  assert (Hat : places P h = Some (PAwait o k)) by (unfold places; by rewrite Hh).
  assert (Hh1 : pg_coros P1 !! h = Some (MkCoro PRun gs)) by apply lookup_insert_eq.
  assert (Hset : goes h (guards_after o gs) R (op_result moved_from kStats h o) q n P1 →
    goes h (guards_after o gs) R (set_place h PRun;;; op_result moved_from kStats h o) q n P).
  { intros (r & q' & f' & P' & E & EC & HP). exists r, q', f', P'. split_and!; [|
      by rewrite EC; unfold P1; cbn; rewrite insert_insert_eq|done].
    by rewrite (bind_ok _ _ _ _ _ (st_set_place h PRun _ _ q n P Hh)). }
  apply Hset. destruct (awaits_lock (PAwait o k)) eqn:El.
  { destruct o as [|m|m|v| |v| | | | | |]; try done. cbn [op_result guards_after].
    pose proof (inv_locked h _ f P gs m k H Hh) as H1. cbn zeta in H1. set (w := set_guards _ _) in H1.
    exists RUnit, q, f, (with_coro h (MkCoro PRun (m :: gs)) (lset w P)). split_and!; [|
      by unfold P1; cbn; rewrite insert_insert_eq|done].
    rewrite (bind_ok _ _ _ tt (st q n (lset w P1))) by by apply st_mutex.
    assert (Hh2 : pg_coros (lset w P1) !! h = Some (MkCoro PRun gs)) by apply lookup_insert_eq.
    rewrite (bind_ok _ _ _ _ _ (st_set_guards h (cons m) PRun gs q n (lset w P1) Hh2)).
    unfold ret, with_coro, set_coros, P1. cbn. by rewrite insert_insert_eq. }
  pose proof (inv_go h _ f P gs _ H Hh El) as H1. fold P1 in H1.
  destruct o as [|m|m|v| |v| | | | | |]; try done.
  - exists RUnit, q, f, P1. split_and!; [done|by rewrite insert_id|done].
  - destruct (guard_end_ok h R gs m q n f P1 H1 Hh1) as (q' & P' & E & EC & H'); [by destruct Ho|].
    exists RUnit, q', f, P'. split_and!; [|done|done]. cbn [op_result]. by rewrite (bind_ok _ _ _ _ _ E).
  - apply (goes_sent h gs R v q n f P1 Hh1 H1), (cp_flag _ _ Hch). rewrite Hat. by exists v, k.
  - apply (goes_received h gs R q n f P1 Hh1 H1), (cp_mail _ _ Hch). rewrite Hat. by exists k.
  - exact (goes_try_send h gs R q n f P1 Hh1 H1 v).
  - exact (goes_try_receive h gs R q n f P1 Hh1 H1).
  - exact (goes_close h gs R q n f P1 Hh1 H1).
  - exact (goes_done h gs R q n f P1 Hh1 H1).
  - exists RUnit, q, f, P1. split_and!; [done|by rewrite insert_id|done].
Qed.
End state.
End run.
