(* ===== verification/ProgramIo.v ===== *)
(** * Reading and writing on the worker

    The coroutines that wait for the ring, beside those that wait for the
    primitives: the engine holds each of them once, and the awaiters of IO
    operations are those of the coroutines that await one. *)

From S2P Require Import Prelude Runtime Channel ChannelSpec ChannelRing ChannelRefine ChannelRun AsyncMutex AsyncMutexRun AsyncMutexProps WaitGroup Uring Engine EngineProps Context ContextProps Program ProgramInv ProgramRun.

Open Scope Z_scope.

(** ** The engine's part *)

Section io_part.
Context {U : Type} `{!Liburing U, !LiburingLaws U} {T : Type} `{!Discipline T} {Aw : Elsewhere}.
Implicit Types (P : prog_world T) (f : fifo T) (h : handle) (en : Engine U) (ops : gmap ptr IoOpAwaiter).

(** The coroutines the engine holds that are not ready. *)
Definition io_handles en : list handle := io_waiting_queue_ en ++ in_flight en.

Definition awaits_io (p : option (place T)) : Prop :=
  ∃ k fd b l o k', p = Some (PAwait (OIo k fd b l o) k').

Record io_ok en ops P : Prop := {
  io_wf : engine_wf (MkEngineWorld en ops);
  io_own : ∀ p a, ops !! p = Some a → handle_ a = p;
  io_pending : pending_submit_count_ en = 0;
  io_room : 64 ≤ sq_entries (uring_ en) < 2 ^ 64;
  io_live : ∀ h, is_Some (ops !! h) ↔ awaits_io (places P h);
}.

Lemma io_ok_places en ops P P' : (∀ h, awaits_io (places P' h) ↔ awaits_io (places P h)) →
  io_ok en ops P → io_ok en ops P'.
Proof. intros E [H1 H2 H3 H4 H5]. split; try done. intros h. by rewrite E. Qed.

(** A coroutine moves and awaits no read or write before or after. *)
Lemma io_ok_move en ops P P' h y : pg_coros P' = <[h := y]> (pg_coros P) →
  ¬ awaits_io (places P h) → ¬ awaits_io (Some (co_place y)) → io_ok en ops P → io_ok en ops P'.
Proof.
  intros EC Hn Hy. apply io_ok_places. intros h'. unfold places. rewrite EC.
  destruct (decide (h' = h)) as [->|Hne]; [|by rewrite lookup_insert_ne].
  rewrite lookup_insert_eq. unfold places in Hn. tauto.
Qed.

Lemma io_ok_same en ops P P' : pg_coros P' = pg_coros P → io_ok en ops P → io_ok en ops P'.
Proof. intros EC. apply io_ok_places. intros h. unfold places. by rewrite EC. Qed.

Lemma awaits_io_spec o (k : result T → script T) : awaits_io (Some (PAwait o k)) ↔
  match o with OIo _ _ _ _ _ => True | _ => False end.
Proof.
  split; [by intros (? & ? & ? & ? & ? & ? & [= -> _])|].
  destruct o as [| | | | | | | | | | |io fd b l off]; try done. intros _. by exists io, fd, b, l, off, k.
Qed.

Lemma not_awaits_io p : (∀ o k, p = Some (PAwait o k) → is_io o = false) → ¬ awaits_io p.
Proof. intros H (k & fd & b & l & o & k' & ->). by specialize (H _ _ eq_refl). Qed.

(** The operations in flight are their coroutines' own. *)
Lemma own_handles en ops P : io_ok en ops P → op_handle ops <$> in_flight en = in_flight en.
Proof.
  intros H. rewrite <- (list_fmap_id (in_flight en)) at 2.
  apply Forall_fmap_ext. eapply Forall_impl; [apply (ew_ops _ (io_wf _ _ _ H))|].
  intros p [a Ha]. unfold op_handle. cbn in *. rewrite Ha. cbn. by apply (io_own _ _ _ H).
Qed.

Lemma engine_handles_own en ops P : io_ok en ops P →
  engine_handles (MkEngineWorld en ops) = task_queue_ en ++ io_handles en.
Proof. intros H. unfold engine_handles. cbn [engine_ io_ops]. by rewrite (own_handles _ _ _ H). Qed.

(** The part of another engine, after [ops] has changed elsewhere. *)
Lemma io_ok_elsewhere en en' ops ops' P P' : io_ok en' ops P → io_ok en ops' P' →
  (∀ h, h ∈ in_flight en' → places P' h = places P h) → io_ok en' ops' P'.
Proof.
  intros [[W1 W2 W3 W4 W5] H2 H3 H4 H5] [_ G2 _ _ G5] Hpl. split; try done. split; try done.
  cbn in *. rewrite Forall_forall in W4 |- *. intros h Hh. apply G5. rewrite Hpl by done. by apply H5, W4.
Qed.

(** The free handle [h] is not among those the engine holds, and there is room
    to count it. *)
Lemma inv_io_free cur h R en q f P : prog_inv cur (h :: (R ++ io_handles en) ++ q) f P →
  h ∉ io_handles en ∧ Z.of_nat (length (io_handles en)) + 1 < 2 ^ 64.
Proof.
  intros H. pose proof (inv_nodup _ _ _ _ H) as Hnd. pose proof (Permutation_length (pi_places _ _ _ _ H)) as Hl.
  pose proof (pi_size _ _ _ _ H) as Hs. split.
  - cbn in Hnd. apply NoDup_cons in Hnd as [Hn _]. rewrite !elem_of_app in Hn. tauto.
  - rewrite length_fmap, length_map_to_list in Hl. cbn in Hl. rewrite !length_app in Hl. lia.
Qed.

(** [io_suspend_once] *)
Definition en_waiting h en : Engine U :=
  set_waiting (io_waiting_queue_ en ++ [h]) (set_inflight_io (u64 (inflight_io_ en + 1)) en).

Lemma inflight_count en ops P : io_ok en ops P →
  inflight_io_ en = Z.of_nat (length (io_handles en)).
Proof.
  intros [[H _ _ _ _] _ _ _ _]. unfold io_handles. rewrite length_app. exact H.
Qed.

Lemma io_ok_once en ops P P' h : io_ok en ops P → Z.of_nat (length (io_handles en)) + 1 < 2 ^ 64 →
  (∀ h, awaits_io (places P' h) ↔ awaits_io (places P h)) →
  io_ok (en_waiting h en) ops P' ∧ io_handles (en_waiting h en) ≡ₚ h :: io_handles en.
Proof.
  intros H Hl Hpl. pose proof (inflight_count _ _ _ H) as Hc.
  assert (Hu : u64 (inflight_io_ en + 1) = inflight_io_ en + 1) by (apply u64_small; lia).
  destruct H as [[W1 W2 W3 W4 W5] H2 H3 H4 H5]. split.
  - split; try done; [|by intros h'; rewrite Hpl]. split; cbn -[u64]; try done; rewrite Hu; [|lia].
    cbn in W1. rewrite W1, length_app. cbn. unfold in_flight. cbn. lia.
  - unfold io_handles, in_flight. cbn. rewrite <- app_assoc. cbn. by rewrite <- Permutation_middle.
Qed.

(** [io::read] and [io::write] *)
Lemma io_queued_flight a h en : in_flight (io_queued a h en) ≡ₚ h :: in_flight en.
Proof.
  unfold in_flight, io_queued. destruct (op_kind_ a); cbn.
  - rewrite <- app_assoc. cbn. by rewrite <- Permutation_middle.
  - rewrite <- app_assoc. cbn. rewrite Permutation_middle. by rewrite <- !Permutation_middle.
Qed.

Lemma io_ok_queued en ops P P' h a : io_ok en ops P → h ∉ io_handles en →
  Z.of_nat (length (io_handles en)) + 1 < 2 ^ 64 → handle_ a = h →
  awaits_io (places P' h) → (∀ h', h' ≠ h → places P' h' = places P h') →
  io_ok (io_queued a h en) (<[h := a]> ops) P' ∧
  io_handles (io_queued a h en) ≡ₚ h :: io_handles en.
Proof.
  intros H Hh Hl Ha Haw Hpl. pose proof (inflight_count _ _ _ H) as Hc.
  assert (Hu : u64 (inflight_io_ en + 1) = inflight_io_ en + 1) by (apply u64_small; lia).
  pose proof (io_queued_flight a h en) as Hf.
  assert (Ew : io_waiting_queue_ (io_queued a h en) = io_waiting_queue_ en)
    by (unfold io_queued; by destruct (op_kind_ a)).
  assert (Ei : inflight_io_ (io_queued a h en) = inflight_io_ en + 1)
    by (rewrite <- Hu; unfold io_queued; by destruct (op_kind_ a)).
  assert (Eu : uring_ (io_queued a h en) = uring_ en) by (unfold io_queued; by destruct (op_kind_ a)).
  assert (Ep : pending_submit_count_ (io_queued a h en) = pending_submit_count_ en)
    by (unfold io_queued; by destruct (op_kind_ a)).
  assert (Hok : io_ok (io_queued a h en) (<[h := a]> ops) P').
  { destruct H as [[W1 W2 W3 W4 W5] H2 H3 H4 H5]. split.
    - split; cbn [engine_ io_ops] in *; rewrite ?Ei, ?Eu, ?Ep, ?Ew; try done; [|lia|].
      + rewrite Hf, W1. cbn. lia.
      + rewrite Hf. constructor; [rewrite lookup_insert_eq; by eexists|].
        eapply Forall_impl; [exact W4|]. intros p Hp. destruct (decide (p = h)) as [->|].
        * rewrite lookup_insert_eq. by eexists.
        * by rewrite lookup_insert_ne.
    - intros p b. rewrite lookup_insert_Some. intros [[<- <-]|[_ Hb]]; [done|by apply H2].
    - by rewrite Ep.
    - by rewrite Eu.
    - intros h'. destruct (decide (h' = h)) as [->|Hne].
      + rewrite lookup_insert_eq. split; [done|by eexists].
      + by rewrite lookup_insert_ne, Hpl. }
  split; [done|]. unfold io_handles. rewrite Hf, Ew. by rewrite Permutation_middle.
Qed.

(** An operation has ended: its awaiter is gone. *)
Lemma io_ok_over en ops P P' h : io_ok en ops P → h ∉ io_handles en →
  ¬ awaits_io (places P' h) → (∀ h', h' ≠ h → places P' h' = places P h') →
  io_ok en (delete h ops) P'.
Proof.
  intros H Hh Haw Hpl.
  assert (Hf : h ∉ in_flight en) by (intros Hin; apply Hh; apply elem_of_app; by right).
  destruct H as [[W1 W2 W3 W4 W5] H2 H3 H4 H5]. split; try done.
  - split; cbn [engine_ io_ops] in *; try done. rewrite Forall_forall in W4 |- *. intros p Hp.
    rewrite lookup_delete_ne; [by apply W4|]. by intros ->.
  - intros p b [_ Hb]%lookup_delete_Some. by apply H2.
  - intros h'. destruct (decide (h' = h)) as [->|Hne].
    + rewrite lookup_delete_eq. split; [by intros [? ?]|done].
    + by rewrite lookup_delete_ne, Hpl.
Qed.
End io_part.

(** ** [co_await], of anything *)

Section changes.
Context {T : Type} `{!Discipline T} {Aw : Elsewhere}.
Implicit Types (P : prog_world T) (f : fifo T) (h : handle).

(** The running coroutine comes to await what no primitive gives it. *)
Lemma inv_await_plain h A f P gs o k act' : prog_inv (Some h) (h :: A) f P →
  pg_coros P !! h = Some (MkCoro PRun gs) → op_ok gs o → (∀ r, script_ok (guards_after o gs) (k r)) →
  is_io o = true → act' ≡ₚ h :: A →
  prog_inv None act' f (with_coro h (MkCoro (PAwait o k) gs) P).
Proof.
  intros H Hh Ho Hk Hio E. apply (inv_await_chan h A f P gs o k f (pg_chan P)); try done.
  - by destruct o.
  - by rewrite E.
  - apply (pi_repr _ _ _ _ H).
  - apply (chan_await h _ f P gs o k H Hh).
    + intros (v & k' & [= -> _]). done.
    + intros (k' & [= -> _]). done.
Qed.
End changes.

Section awaits.
Context {U : Type} `{!Liburing U, !LiburingLaws U} {T : Type} `{!Discipline T} {Aw : Elsewhere}
  (moved_from : T → T) (kStats : bool).
Context (c : ptr) (Hc : c ≠ null) (contexts : gmap ptr (ContextObj U)) (x : ContextObj U).
Implicit Types (P : prog_world T) (f : fifo T) (h : handle) (gs : list ptr)
  (en : Engine U) (ops : gmap ptr IoOpAwaiter).
#[local] Abbreviation st en ops q n P := (at_work c contexts x en ops q n P).

(** The worker's state: [R] are the other coroutines it holds. *)
Record work_inv (cur : option handle) (R : list handle) en ops q f P : Prop := {
  wi_prog : prog_inv cur ((R ++ io_handles en) ++ q) f P;
  wi_io : io_ok en ops P;
}.

Lemma place_with_coro h y P : places (with_coro h y P) h = Some (co_place y).
Proof. unfold places. cbn. by rewrite lookup_insert_eq. Qed.
Lemma place_other h h' y P : h' ≠ h → places (with_coro h y P) h' = places P h'.
Proof. intros Hne. unfold places. cbn. by rewrite lookup_insert_ne. Qed.

Lemma runs_no_io h P gs : pg_coros P !! h = Some (MkCoro PRun gs) → ¬ awaits_io (places P h).
Proof. intros Hh. unfold places. rewrite Hh. by intros (? & ? & ? & ? & ? & ? & [=]). Qed.

Lemma st_running q n P en ops : running_in c (set_engine (set_tasks q en) x) (fst (st en ops q n P)).
Proof. split_and!; [done..|]. cbn. by rewrite lookup_insert_eq. Qed.

(** The engine and the awaiters of operations, when [m] has changed them. *)
Lemma st_world {A} (m : M (rt_world U) A) en ops q n P a w en' ops' :
  m (fst (st en ops q n P)) = Ok a w → w = fst (st en' ops' q n P) →
  zoom m (st en ops q n P) = Ok a (st en' ops' q n P).
Proof. intros E ->. unfold zoom. cbn [lget lens_fst]. by rewrite E. Qed.

Lemma await_any h R gs o k en ops q n f P : work_inv (Some h) (h :: R) en ops q f P →
  pg_coros P !! h = Some (MkCoro PRun gs) →
  op_ok gs o → (∀ r, script_ok (guards_after o gs) (k r)) →
  let P1 := with_coro h (MkCoro (PAwait o k) gs) P in
  (∃ b en' ops' q' f' P', op_suspend moved_from kStats h o (st en ops q n P1) = Ok b (st en' ops' q' n P') ∧
     pg_coros P' = pg_coros P1 ∧ inflight_tasks_ en' = inflight_tasks_ en ∧
     work_inv None ((if b : bool then [] else [h]) ++ R) en' ops' q' f' P') ∨
  (∃ e w', op_suspend moved_from kStats h o (st en ops q n P1) = Throw e (st en ops q n (lset w' P1)) ∧
     repr w' f ∧ guards_after o gs = gs).
Proof.
  intros [H Hok] Hh Ho Hk P1. cbn [app] in H.
  destruct (inv_exists _ _ _ _ h H) as (y & Hy & Hnull); [by left|].
  destruct (inv_io_free _ _ _ _ _ _ _ H) as [Hf Hroom].
  destruct (is_io o) eqn:Hio.
  - left. pose proof (inv_await_plain h ((R ++ io_handles en) ++ q) f P gs o k) as Hawait.
    destruct o as [| | | | | | | | | | |io fd b l off]; try done.
    + destruct (io_ok_once en ops P P1 h Hok Hroom) as [Hok' Hp].
      { intros h'. destruct (decide (h' = h)) as [->|Hne].
        - unfold P1. rewrite place_with_coro. cbn [co_place]. rewrite awaits_io_spec.
          pose proof (runs_no_io h P gs Hh). tauto.
        - unfold P1. by rewrite place_other. }
      exists true, (en_waiting h en), ops, q, f, P1. split_and!; [|done..|].
      { cbn [op_suspend IoSuspendOnceAwaiter_await_ready].
        eapply st_world; [by eapply io_once_in_context, st_running|].
        unfold with_engine, at_work. cbn. by rewrite insert_insert_eq. }
      split; [|done]. apply Hawait; try done.
      cbn. rewrite Hp. by rewrite <- Permutation_middle.
    + set (a := set_handle h (IoOpAwaiter_make io fd b l off)).
      destruct (io_ok_queued en ops P P1 h a Hok Hf Hroom) as [Hok' Hp]; [done|..].
      { unfold P1. rewrite place_with_coro. by apply awaits_io_spec. }
      { intros h' Hne. unfold P1. by apply place_other. }
      exists true, (io_queued a h en), (<[h := a]> ops), q, f, P1. split_and!; [|done| |].
      { cbn [op_suspend IoOpAwaiter_await_ready].
        rewrite (bind_ok _ _ _ tt (st en (<[h := IoOpAwaiter_make io fd b l off]> ops) q n P1)) by done.
        eapply st_world; [eapply io_op_in_context; [apply st_running|done|cbn; apply lookup_insert_eq]|].
        unfold at_work. destruct io; cbn; by rewrite !insert_insert_eq. }
      { by destruct io. }
      split; [|done]. apply Hawait; try done.
      cbn. rewrite Hp. by rewrite <- Permutation_middle.
  - destruct (op_suspend_ok moved_from kStats c Hc contexts x en ops h gs k _ q n f P Hh H o Hio Ho Hk)
      as [(b & q' & f' & P' & E & EC & H')|Hthrow]; [left|by right].
    exists b, en, ops, q', f', P'. split_and!; [done..|].
    split; [by rewrite <- !app_assoc in *|].
    apply (io_ok_move en ops P P' h (MkCoro (PAwait o k) gs)); [done| |..|done].
    + by eapply runs_no_io.
    + apply not_awaits_io. by intros o' k' [= <- <-].
Qed.

Lemma result_any h R gs o k en ops q n f P : work_inv None (h :: R) en ops q f P →
  pg_coros P !! h = Some (MkCoro (PAwait o k) gs) →
  ∃ r ops' q' f' P',
    (set_place h PRun;;; op_result moved_from kStats h o) (st en ops q n P) = Ok r (st en ops' q' n P') ∧
    pg_coros P' = <[h := MkCoro PRun (guards_after o gs)]> (pg_coros P) ∧
    work_inv (Some h) (h :: R) en ops' q' f' P'.
Proof.
  intros [H Hok] Hh. cbn [app] in H. destruct (inv_io_free _ _ _ _ _ _ _ H) as [Hf _].
  assert (Hrun : ∀ P' gs', pg_coros P' = <[h := MkCoro PRun gs']> (pg_coros P) →
    ¬ awaits_io (places P' h) ∧ ∀ h', h' ≠ h → places P' h' = places P h').
  { intros P' gs' EC. unfold places. rewrite EC. split; [|by intros h' Hne; rewrite lookup_insert_ne].
    rewrite lookup_insert_eq. by intros (? & ? & ? & ? & ? & ? & [=]). }
  destruct (is_io o) eqn:Hio.
  - set (P1 := with_coro h (MkCoro PRun gs) P).
    assert (Hset : set_place h PRun (st en ops q n P) = Ok tt (st en ops q n P1)) by by eapply st_set_place.
    assert (H1 : prog_inv (Some h) (h :: (R ++ io_handles en) ++ q) f P1).
    { apply (inv_go h _ f P gs _ H Hh). by destruct o. }
    destruct (Hrun P1 gs eq_refl) as [Hn Hoth].
    destruct o as [| | | | | | | | | | |io fd b l off]; try done.
    + exists RUnit, ops, q, f, P1. split_and!; [by rewrite (bind_ok _ _ _ _ _ Hset)|done|]. split; [done|].
      apply (io_ok_move en ops P P1 h (MkCoro PRun gs)); [done| |..|done].
      * unfold places. rewrite Hh. by intros ?%awaits_io_spec.
      * by intros (? & ? & ? & ? & ? & ? & [=]).
    + pose proof (io_ok_over en ops P P1 h Hok Hf Hn Hoth) as Hok'.
      assert (Ha : is_Some (ops !! h)).
      { apply (io_live _ _ _ Hok). unfold places. rewrite Hh. by apply awaits_io_spec. }
      destruct Ha as [a Ha]. exists (RCount (result_ a)), (delete h ops), q, f, P1.
      split_and!; [|done|by split].
      rewrite (bind_ok _ _ _ _ _ Hset). cbn [op_result].
      rewrite (bind_ok _ _ _ (result_ a) (st en ops q n P1)); [done|].
      eapply st_world; [|done]. unfold IoOpAwaiter_await_resume.
      by erewrite bind_ok; [|by apply rt_op_at_eq].
  - destruct (op_result_ok moved_from kStats c Hc contexts x en ops h _ gs o k q n f P Hio H Hh)
      as (r & q' & f' & P' & E & EC & H').
    exists r, ops, q', f', P'. split_and!; [done..|]. split; [done|].
    destruct (Hrun P' _ EC) as [Hn _].
    apply (io_ok_move en ops P P' h (MkCoro PRun (guards_after o gs))); [done| |..|done].
    + unfold places. rewrite Hh. apply not_awaits_io. by intros o' k' [= <- <-].
    + by intros (? & ? & ? & ? & ? & ? & [=]).
Qed.
End awaits.
