(* ===== verification/ProgramTurn.v ===== *)
(** * A turn of a task that uses the primitives

    A coroutine's turn, from its resumption to its next suspension or its end,
    is made of its operations.  Each replaces the task by smaller ones: what is
    left of it and what it submitted. *)

From S2P Require Import Prelude Runtime Channel ChannelSpec ChannelRing ChannelRefine ChannelRun AsyncMutex AsyncMutexRun AsyncMutexProps WaitGroup Uring Engine EngineProps Context MultisetOrder Program ProgramInv ProgramRun ContextProps ProgramIo.

Open Scope Z_scope.

(** ** What is left to do *)

Section order.
Context {T : Type}.
Implicit Types (s : script T) (C : gmap handle (coro T)).

Inductive part_of : script T → script T → Prop :=
| part_op o k r : part_of (k r) (SOp o k)
| part_child child k : part_of child (SSubmit child k)
| part_rest child k : part_of k (SSubmit child k).

Lemma part_of_wf : well_founded part_of.
Proof.
  intros s. induction s as [|o k IH|child IHc k IHk]; constructor; intros s' Hs; inversion Hs; subst; auto.
Qed.

(** A body not begun is more than the same body at its first [co_await]. *)
Definition below (t t' : script T * bool) : Prop :=
  tc part_of (fst t) (fst t') ∨ fst t = fst t' ∧ snd t = false ∧ snd t' = true.

Lemma below_wf : well_founded below.
Proof.
  assert (Hf : ∀ s, (∀ s', tc part_of s' s → ∀ b, Acc below (s', b)) → Acc below (s, false)).
  { intros s IH. constructor. intros [s' b'] [Ht|(_ & _ & [=])]. by apply IH. }
  intros [s b]. revert b. induction s as [s IH] using (well_founded_induction (tc_wf _ part_of_wf)).
  intros []; [|by apply Hf]. constructor. intros [s' b'] [Ht|(Es & Eb & _)]; cbn in *; [by apply IH|].
  subst. by apply Hf.
Qed.

Lemma below_part s s' b t : part_of s s' → below t (s, true) → below t (s', b).
Proof.
  intros Hs Ht. left. destruct Ht as [Ht|[-> _]]; [eapply tc_r; [exact Ht|exact Hs]|by apply tc_once].
Qed.

Definition task_of (x : coro T) : list (script T * bool) :=
  match co_place x with
  | PStart s => [(s, true)]
  | PAwait o k => [(SOp o k, false)]
  | PRun | PEnd => []
  end.
Definition tasks C : list (script T * bool) := map_to_list C ≫= λ p, task_of (snd p).

Lemma tasks_delete C h x : C !! h = Some x → tasks C ≡ₚ task_of x ++ tasks (delete h C).
Proof. intros Hx. unfold tasks. by rewrite <- (map_to_list_delete C h x Hx). Qed.

Lemma tasks_insert C h x : tasks (<[h := x]> C) ≡ₚ task_of x ++ tasks (delete h C).
Proof.
  rewrite (tasks_delete _ h x) by apply lookup_insert_eq. by rewrite delete_insert_eq.
Qed.

Lemma tasks_insert_new C h x : C !! h = None → tasks (<[h := x]> C) ≡ₚ task_of x ++ tasks C.
Proof. intros Hx. by rewrite tasks_insert, delete_id. Qed.
End order.

(** ** Coroutines come and go *)

Section changes.
Context {T : Type} `{!Discipline T} {Aw : Elsewhere}.
Implicit Types (P : prog_world T) (f : fifo T) (h : handle) (gs : list ptr).

Lemma inv_create cur act f P h' child : prog_inv cur act f P → pg_coros P !! h' = None →
  h' ≠ null → Z.of_nat (size (pg_coros P)) < 2 ^ 64 - 1 → script_ok [] child →
  prog_inv cur (act ++ [h']) f (with_coro h' (MkCoro (PStart child) []) P).
Proof.
  intros [H1 H2 H3 H4 H5 H6 H7 H8 H9 H10 H11] Hh Hn Hsz Hok.
  assert (Hpl : places P h' = None) by (unfold places; by rewrite Hh).
  split; try done; cbn.
  - rewrite map_to_list_insert by done. cbn. rewrite <- H1. unfold blocked. cbn.
    rewrite <- app_assoc. solve_Permutation.
  - by rewrite lookup_insert_ne.
  - eapply chan_part_move; [exact H4| | | | |apply places_insert]; rewrite ?Hpl; cbn.
    all: first [by intros (? & ? & [=])|by intros (? & [=])].
  - by apply mutex_part_create.
  - intros h0 Hin. destruct (H9 h0 Hin) as [k Hk]. exists k. unfold places in *. cbn.
    rewrite lookup_insert_ne; [done|]. intros ->. by rewrite Hh in Hk.
  - intros h0 y. destruct (decide (h0 = h')) as [->|Hne].
    + rewrite lookup_insert_eq. intros [= <-]. split; [|done]. split; constructor.
    + rewrite lookup_insert_ne by done. apply H10.
  - rewrite map_size_insert_None by done. lia.
Qed.

(** The body of [h] is at its end. *)
Lemma inv_end h A f P : prog_inv (Some h) (h :: A) f P →
  pg_coros P !! h = Some (MkCoro PRun []) →
  prog_inv (Some h) (h :: A) f (with_coro h (MkCoro PEnd []) P).
Proof.
  intros [H1 H2 H3 H4 H5 H6 H7 H8 H9 H10 H11] Hh.
  assert (Hnull : h ≠ null) by (intros ->; by rewrite H2 in Hh).
  destruct (runs_not_waiting h f P [] Hh) as [Hns Hnr].
  split; try done; cbn.
  - by rewrite (keys_insert _ _ _ _ Hh), <- H1.
  - by rewrite lookup_insert_ne.
  - eapply chan_part_move; [exact H4|done|done| | |apply places_insert]; cbn.
    all: first [by intros (? & ? & [=])|by intros (? & [=])].
  - by eapply mutex_part_move.
  - intros h0 Hin. destruct (H9 h0 Hin) as [k Hk]. exists k. unfold places in *. cbn.
    rewrite lookup_insert_ne; [done|]. intros ->. by rewrite Hh in Hk.
  - intros h0 y. destruct (decide (h0 = h)) as [->|Hne].
    + rewrite lookup_insert_eq. intros [= <-]. split; [|by split; [left|]]. split; constructor.
    + rewrite lookup_insert_ne by done. apply H10.
  - by rewrite (size_same _ _ _ _ Hh).
Qed.

(** The coroutine [h], which holds no guard and awaits nothing, is destroyed. *)
Lemma inv_gone cur h A f P p : prog_inv cur (h :: A) f P → (cur = None ∨ cur = Some h) →
  pg_coros P !! h = Some (MkCoro p []) → (∀ o k, p ≠ PAwait o k) →
  let w := pg_chan P in
  let w1 := set_senders (delete h (senders w)) w in
  let w2 := set_receivers (delete h (receivers w1)) w1 in
  prog_inv None A (fifo_drop_mail h (fifo_drop_flag h f))
    (set_coros (delete h (pg_coros P)) (lset w2 P)).
Proof.
  intros H Hcur Hh Hp w w1 w2.
  assert (Hat : places P h = Some p) by (unfold places; by rewrite Hh).
  destruct (inv_free _ _ _ _ h H) as (Hw & _ & Hq); [by left|].
  destruct H as [H1 H2 H3 H4 H5 H6 H7 H8 H9 H10 H11].
  destruct (chan_part_drop_flag f _ h w H4 H3) as [Hr1 Hch1]; [rewrite Hat; intros (? & ? & [=]); by eapply Hp|].
  destruct (chan_part_drop_mail _ _ h w1 Hch1 Hr1) as [Hr2 Hch2]; [rewrite Hat; intros (? & [=]); by eapply Hp|].
  assert (Hpl : ∀ h', h' ≠ h → places (set_coros (delete h (pg_coros P)) (lset w2 P)) h' = places P h').
  { intros h' Hne. unfold places. cbn. by rewrite lookup_delete_ne. }
  assert (Hplh : places (set_coros (delete h (pg_coros P)) (lset w2 P)) h = None).
  { unfold places. cbn. by rewrite lookup_delete_eq. }
  split; try done.
  - apply (Permutation_cons_inv (a := h)).
    assert (E : (map_to_list (pg_coros P)).*1 ≡ₚ h :: (map_to_list (delete h (pg_coros P))).*1)
      by by rewrite <- (map_to_list_delete _ _ _ Hh).
    rewrite <- E, <- H1. done.
  - cbn. rewrite lookup_delete_ne; [done|]. intros ->. by rewrite H2 in Hh.
  - destruct Hch2 as [A1 A2 A3 A4 A5]. split; try done.
    + intros h' p' v Hin. destruct (A2 _ _ _ Hin) as [-> Ha]. split; [done|].
      rewrite Hpl; [done|]. intros ->. rewrite Hat in Ha. destruct Ha as (? & ? & [=]). by eapply Hp.
    + intros h' p' Hin. destruct (A3 _ _ Hin) as [-> Ha]. split; [done|].
      rewrite Hpl; [done|]. intros ->. rewrite Hat in Ha. destruct Ha as (? & [=]). by eapply Hp.
    + intros h' Ha. destruct (decide (h' = h)) as [->|Hne].
      * rewrite Hplh in Ha. by destruct Ha as (? & ? & [=]).
      * rewrite Hpl in Ha by done. by apply A4.
    + intros h' Ha. destruct (decide (h' = h)) as [->|Hne].
      * rewrite Hplh in Ha. by destruct Ha as (? & [=]).
      * rewrite Hpl in Ha by done. by apply A5.
  - eapply mutex_part_delete; [exact H5|exact Hh|]. by destruct p as [|o k| |]; [|destruct (Hp o k)|..].
  - intros h' Hin. rewrite Hpl by by intros ->. by apply H9.
  - intros h' y. cbn. intros [Hne Hy]%lookup_delete_Some.
    eapply coro_ok_other; [by apply H10|]. by destruct Hcur as [->| ->]; [|intros [= ->]].
  - cbn. rewrite map_size_delete_Some by by eexists. lia.
Qed.
End changes.

(** ** Running a body *)

Section run.
Context {U : Type} `{!Liburing U, !LiburingLaws U} {T : Type} `{!Discipline T} {Aw : Elsewhere}
  (moved_from : T → T) (kStats : bool).
Context (c : ptr) (Hc : c ≠ null) (contexts : gmap ptr (ContextObj U)) (x : ContextObj U).
Implicit Types (P : prog_world T) (f : fifo T) (h : handle) (gs : list ptr) (s : script T)
  (en : Engine U) (ops : gmap ptr IoOpAwaiter).

(** As many tasks are pending as there are coroutines. *)
Definition alive P : Z := Z.of_nat (size (pg_coros P)).

#[local] Abbreviation st en ops q P := (at_work c contexts x en ops q (alive P) P).

Lemma alive_update P P' h y y' : pg_coros P !! h = Some y → pg_coros P' = <[h := y']> (pg_coros P) →
  alive P' = alive P.
Proof. unfold alive. intros Hy ->. by rewrite (size_same _ _ _ _ Hy). Qed.

(** The coroutines there were, other than [h], are as they were. *)
Definition others_kept h P P' : Prop :=
  ∀ h', h' ≠ h → is_Some (pg_coros P !! h') → pg_coros P' !! h' = pg_coros P !! h'.

Lemma others_kept_insert h P P' y : pg_coros P' = <[h := y]> (pg_coros P) → others_kept h P P'.
Proof. intros EC h' Hne _. by rewrite EC, lookup_insert_ne. Qed.

Lemma others_kept_trans h P1 P2 P3 : others_kept h P1 P2 → others_kept h P2 P3 → others_kept h P1 P3.
Proof. intros H1 H2 h' Hne Hs. rewrite H2; [by apply H1|done|]. by rewrite H1. Qed.

(** The coroutine [h] has come to its end, or is suspended and ready, in the
    queue of a primitive or with the engine. *)
Definition rests h R en ops q f P : Prop :=
  (pg_coros P !! h = Some (MkCoro PEnd []) ∧ work_inv (Some h) (h :: R) en ops q f P) ∨
  ((∃ o k gs, pg_coros P !! h = Some (MkCoro (PAwait o k) gs)) ∧ work_inv None R en ops q f P).

(** The turn of a coroutine that had [t] to do, when the others had [ts]; [n]
    coroutines are being resumed. *)
Definition turned t ts h R P0 (n : Z) (r : outcome (rt_world U * prog_world T) unit) : Prop :=
  ∃ en ops q f P ys, r = Ok tt (st en ops q P) ∧ inflight_tasks_ en = n ∧
    Forall (λ y, below y t) ys ∧ tasks (pg_coros P) ≡ₚ ys ++ ts ∧ others_kept h P0 P ∧
    rests h R en ops q f P.

(** [h] is running, the rest of its body is [s]. *)
Definition runs h R s en ops q f P : Prop :=
  work_inv (Some h) (h :: R) en ops q f P ∧
  ∃ gs, pg_coros P !! h = Some (MkCoro PRun gs) ∧ script_ok gs s.

(** A part of a turn: it goes on, or it is over. *)
Definition parted s h R P0 (n : Z) (r : outcome (rt_world U * prog_world T) (option (script T))) : Prop :=
  ∃ o en ops q f P ys, r = Ok o (st en ops q P) ∧ inflight_tasks_ en = n ∧
    Forall (λ y, below y (s, true)) ys ∧ tasks (pg_coros P) ≡ₚ ys ++ tasks (pg_coros P0) ∧
    others_kept h P0 P ∧
    match o with
    | Some s' => part_of s' s ∧ runs h R s' en ops q f P
    | None => rests h R en ops q f P
    end.

Lemma tasks_run (C : gmap handle (coro T)) h y : C !! h = Some y → task_of y = [] →
  tasks (delete h C) ≡ₚ tasks C.
Proof. intros Hy Hn. by rewrite (tasks_delete C h y Hy), Hn. Qed.

Lemma tasks_same (C : gmap handle (coro T)) h y y' : C !! h = Some y → task_of y = [] → task_of y' = [] →
  tasks (<[h := y']> C) ≡ₚ tasks C.
Proof. intros Hy Hn Hn'. by rewrite tasks_insert, Hn', (tasks_run C h y). Qed.

(** *** The end of a body *)

Lemma filter_fresh m gs : m ∉ gs → filter (λ m', m' ≠ m) (m :: gs) = gs.
Proof.
  rewrite filter_cons_False by naive_solver. induction gs as [|m' gs IH]; [done|].
  rewrite not_elem_of_cons. intros [Hne Hm]. rewrite filter_cons_True by done. f_equal. by apply IH.
Qed.

Lemma guards_end_ok h R gs en ops n : ∀ q f P,
  prog_inv (Some h) (h :: R ++ q) f P → pg_coros P !! h = Some (MkCoro PRun gs) →
  ∃ q' P', for_each gs (guard_end h) (at_work c contexts x en ops q n P) =
      Ok tt (at_work c contexts x en ops q' n P') ∧
    pg_coros P' = <[h := MkCoro PRun []]> (pg_coros P) ∧
    prog_inv (Some h) (h :: R ++ q') f P'.
Proof.
  induction gs as [|m gs IH]; intros q f P H Hh.
  { exists q, P. split_and!; [done|by rewrite insert_id|done]. }
  destruct (pi_coros _ _ _ _ H _ _ Hh) as [[[Hm _]%NoDup_cons _] _].
  destruct (guard_end_ok c Hc contexts x en ops h R (m :: gs) m q n f P H Hh) as (q1 & P1 & E & EC & H1).
  { by left. }
  rewrite filter_fresh in EC by done.
  destruct (IH q1 f P1 H1) as (q2 & P2 & E2 & EC2 & H2).
  { rewrite EC. apply lookup_insert_eq. }
  exists q2, P2. split_and!; [|by rewrite EC2, EC, insert_insert_eq|done].
  cbn [for_each]. by rewrite (bind_ok _ _ _ _ _ E).
Qed.

Lemma script_end_ok s h R gs en ops q f P : work_inv (Some h) (h :: R) en ops q f P →
  pg_coros P !! h = Some (MkCoro PRun gs) →
  parted s h R P (inflight_tasks_ en) ((script_end h;;; ret None) (st en ops q P)).
Proof.
  intros [H Hio] Hh.
  destruct (guards_end_ok h _ gs en ops (alive P) q f P H Hh) as (q' & P' & E & EC & H').
  assert (Hh' : pg_coros P' !! h = Some (MkCoro PRun [])) by (rewrite EC; apply lookup_insert_eq).
  set (P2 := with_coro h (MkCoro PEnd []) P').
  assert (EC2 : pg_coros P2 = <[h := MkCoro PEnd []]> (pg_coros P))
    by (unfold P2; cbn; by rewrite EC, insert_insert_eq).
  exists None, en, ops, q', f, P2, []. split_and!; [|done|done| |exact (others_kept_insert _ _ _ _ EC2)|].
  - erewrite bind_ok; [reflexivity|]. unfold script_end. rewrite (bind_ok _ _ _ _ _ (st_coro_at c contexts x en ops h _ q (alive P) P Hh)).
    cbn [co_guards]. rewrite (bind_ok _ _ _ _ _ E).
    rewrite (st_set_place c contexts x en ops h PEnd _ _ q' (alive P) P' Hh').
    by rewrite (alive_update P P2 h _ _ Hh EC2).
  - rewrite EC2. by rewrite (tasks_same _ _ _ _ Hh).
  - left. split; [apply lookup_insert_eq|]. split; [by apply inv_end|].
    apply (io_ok_move en ops P P2 h (MkCoro PEnd [])); [done|by eapply runs_no_io| |done].
    by intros (? & ? & ? & ? & ? & ? & [=]).
Qed.

(** *** [submit_to_scheduler(child())] *)

Lemma create_full child en ops q P : ¬ alive P < 2 ^ 64 - 1 →
  coro_create child (st en ops q P) = Ok None (st en ops q P).
Proof.
  intros Hsz. unfold coro_create, bind, get. unfold alive in Hsz. cbn -[size]. by rewrite (proj2 (Z.ltb_nlt _ _) Hsz).
Qed.

Lemma create_ok child en ops q P : alive P < 2 ^ 64 - 1 →
  ∃ h', pg_coros P !! h' = None ∧ h' ≠ null ∧
    let P' := with_coro h' (MkCoro (PStart child) []) P in
    coro_create child (st en ops q P) = Ok (Some h') (at_work c contexts x en ops q (alive P) P') ∧
    submit_to_scheduler_task (Coroutines0 := coro_frames) h' (at_work c contexts x en ops q (alive P) P') =
      Ok tt (st en ops (q ++ [h']) P').
Proof.
  intros Hsz. set (h' := fresh ({[null]} ∪ dom (pg_coros P))).
  pose proof (is_fresh ({[null]} ∪ dom (pg_coros P))) as Hf. fold h' in Hf.
  apply not_elem_of_union in Hf as [Hn Hf%not_elem_of_dom]. apply not_elem_of_singleton in Hn.
  exists h'. split_and!; [done..|]. intros P'. split.
  - unfold coro_create, bind, get. unfold alive in Hsz. cbn -[size fresh]. by rewrite (proj2 (Z.ltb_lt _ _) Hsz).
  - unfold submit_to_scheduler_task, bind at 1, zoom at 1, get.
    cbn [lget lset lens_fst fst snd at_work local_context_ptr].
    unfold is_null at 1. rewrite (proj2 (N.eqb_neq c null) Hc). cbn [negb].
    assert (Ea : u64 (alive P + 1) = alive P').
    { unfold alive, P' in *. cbn -[size]. rewrite map_size_insert_None by done. rewrite u64_small; lia. }
    unfold zoom, Context_submit_tracked_task. cbn [lget lset lens_fst fst snd at_work].
    unfold is_null at 1. rewrite (proj2 (N.eqb_neq h' null) Hn).
    unfold bind at 1, modify. pose proof (st_submit_task c contexts x en ops h' q (alive P') P') as E.
    unfold at_work, set_pending_tasks in E |- *. cbn [rt_contexts rt_ops pending_tasks_ local_context_ptr fst] in E |- *.
    rewrite Ea, E. done.
Qed.

Lemma work_create h R en ops q f P h' child : work_inv (Some h) R en ops q f P →
  pg_coros P !! h' = None → h' ≠ null → alive P < 2 ^ 64 - 1 → script_ok [] child →
  work_inv (Some h) R en ops (q ++ [h']) f (with_coro h' (MkCoro (PStart child) []) P).
Proof.
  intros [H Hio] Hn Hnull Hsz Hok. split.
  - pose proof (inv_create _ _ _ _ h' child H Hn Hnull Hsz Hok) as H'. by rewrite <- app_assoc in H'.
  - eapply (io_ok_move en ops P _ h'); [done| | |done].
    + unfold places. rewrite Hn. by intros (? & ? & ? & ? & ? & ? & [=]).
    + by intros (? & ? & ? & ? & ? & ? & [=]).
Qed.

(** *** The next operation *)

Lemma part_op_ok o k h R en ops q f P : runs h R (SOp o k) en ops q f P →
  parted (SOp o k) h R P (inflight_tasks_ en) (script_part moved_from kStats h (SOp o k) (st en ops q P)).
Proof.
  intros [H (gs & Hh & Ho & Hk)]. cbn [script_part]. set (P1 := with_coro h (MkCoro (PAwait o k) gs) P).
  pose proof (st_set_place c contexts x en ops h (PAwait o k) _ _ q (alive P) P Hh) as Eset. fold P1 in Eset.
  assert (Hh1 : pg_coros P1 !! h = Some (MkCoro (PAwait o k) gs)) by apply lookup_insert_eq.
  rewrite (bind_ok _ _ _ _ _ Eset).
  destruct (await_any moved_from kStats c Hc contexts x h R gs o k en ops q (alive P) f P H Hh Ho Hk)
    as [(b & en' & ops' & q' & f' & P' & E & EC & Hn & H')|(e & w' & E & Hr' & Hgs)]; fold P1 in E.
  - erewrite bind_ok; [|unfold try_catch; rewrite (bind_ok _ _ _ _ _ E); reflexivity].
    fold P1 in EC. rewrite <- EC in Hh1. destruct b.
    + exists None, en', ops', q', f', P', [(SOp o k, false)].
      split_and!; [|done| | |exact (others_kept_insert _ _ _ _ EC)|right; split; [by exists o, k, gs|done]].
      { by rewrite (alive_update P P' h _ _ Hh EC). }
      { apply Forall_singleton. by right. }
      rewrite EC. unfold P1. cbn. by rewrite tasks_insert, (tasks_run _ _ _ Hh).
    + destruct (result_any moved_from kStats c Hc contexts x h R gs o k en' ops' q' (alive P) f' P' H' Hh1)
        as (r & ops2 & q2 & f2 & P2 & E2 & EC2 & H2).
      rewrite EC in EC2. unfold P1 in EC2. cbn in EC2. rewrite insert_insert_eq in EC2.
      exists (Some (k r)), en', ops2, q2, f2, P2, [].
      split_and!; [|done|done| |exact (others_kept_insert _ _ _ _ EC2)|constructor|].
      * rewrite <- bind_assoc, (bind_ok _ _ _ _ _ E2). by rewrite (alive_update P P2 h _ _ Hh EC2).
      * rewrite EC2. by apply (tasks_same _ _ _ _ Hh).
      * split; [done|]. exists (guards_after o gs). rewrite EC2. by rewrite lookup_insert_eq.
  - erewrite bind_ok; [|unfold try_catch; rewrite (bind_throw _ _ _ _ _ E); reflexivity]. cbn beta iota.
    assert (Hh1' : pg_coros (lset w' P1) !! h = Some (MkCoro (PAwait o k) gs)) by exact Hh1.
    erewrite bind_ok by exact (st_set_place c contexts x en ops h PRun _ _ q (alive P) _ Hh1').
    assert (EP : with_coro h (MkCoro PRun gs) (lset w' P1) = lset w' P).
    { unfold with_coro, set_coros, P1. cbn. by rewrite insert_insert_eq, insert_id. }
    rewrite EP. exists (Some (k (RThrown e))), en, ops, q, f, (lset w' P), [].
    split_and!; [done..|constructor|]. split; [|exists gs; split; [done|]; by rewrite <- Hgs].
    destruct H as [H Hio]. split; [|by apply (io_ok_same en ops P)].
    pose proof (inv_chan _ _ f P w' f [] H Hr' (pi_chan _ _ _ _ H) ltac:(done)) as H'.
    by rewrite app_nil_r in H'.
Qed.

Lemma part_ok s h R en ops q f P : runs h R s en ops q f P →
  parted s h R P (inflight_tasks_ en) (script_part moved_from kStats h s (st en ops q P)).
Proof.
  intros Hr. destruct s as [|o k|child k]; [|by eapply part_op_ok|]; destruct Hr as [H (gs & Hh & Hok)].
  { exact (script_end_ok _ h R gs en ops q f P H Hh). }
  destruct Hok as [Hchild Hk]. cbn [script_part].
  destruct (decide (alive P < 2 ^ 64 - 1)) as [Hsz|Hsz].
  2: { rewrite (bind_ok _ _ _ _ _ (create_full child en ops q P Hsz)).
       exact (script_end_ok _ h R gs en ops q f P H Hh). }
  destruct (create_ok child en ops q P Hsz) as (h' & Hn & Hnull & E & Es).
  rewrite (bind_ok _ _ _ _ _ E), (bind_ok _ _ _ _ _ Es).
  assert (Hne : h' ≠ h) by (intros Eh; by rewrite Eh, Hh in Hn).
  exists (Some k), en, ops, (q ++ [h']), f, (with_coro h' (MkCoro (PStart child) []) P), [(child, true)].
  split_and!; [done|done| | | |constructor|].
  - apply Forall_singleton. left. apply tc_once. constructor.
  - cbn. by rewrite tasks_insert_new.
  - intros h0 _ Hs0. cbn. rewrite lookup_insert_ne; [done|]. intros ->. by rewrite Hn in Hs0; destruct Hs0.
  - split; [by eapply work_create|]. exists gs. cbn. by rewrite lookup_insert_ne.
Qed.

(** *** The whole turn *)

Lemma run_script_ok s : ∀ h R en ops q f P, runs h R s en ops q f P →
  turned (s, true) (tasks (pg_coros P)) h R P (inflight_tasks_ en)
    (run_script moved_from kStats h s (st en ops q P)).
Proof.
  induction s as [s IH] using (well_founded_induction part_of_wf). intros h R en ops q f P H.
  destruct (part_ok s h R en ops q f P H) as (o & en' & ops' & q' & f' & P' & ys & E & Hn & Hys & Ht & Hoth & Hr).
  rewrite run_script_parts, (bind_ok _ _ _ _ _ E). destruct o as [s'|]; cbn [run_rest].
  - destruct Hr as [Hp Hr]. rewrite <- Hn.
    destruct (IH s' Hp h R en' ops' q' f' P' Hr) as (en2 & ops2 & q2 & f2 & P2 & ys2 & E2 & Hn2 & Hys2 & Ht2 & Hoth2 & Hr2).
    exists en2, ops2, q2, f2, P2, (ys2 ++ ys). split_and!; [done|done| | |by eapply others_kept_trans|done].
    + apply Forall_app. split; [|done]. eapply Forall_impl; [exact Hys2|]. intros y. by apply below_part.
    + by rewrite Ht2, Ht, app_assoc.
  - by exists en', ops', q', f', P', ys.
Qed.

(** The coroutine that runs holds nothing of the engine. *)
Lemma work_go h R en ops q f P p gs : work_inv None (h :: R) en ops q f P →
  pg_coros P !! h = Some (MkCoro p gs) → awaits_lock p = false → ¬ awaits_io (Some p) →
  work_inv (Some h) (h :: R) en ops q f (with_coro h (MkCoro PRun gs) P).
Proof.
  intros [H Hio] Hh Hl Hn. split; [by eapply inv_go|].
  apply (io_ok_move en ops P _ h (MkCoro PRun gs)); [done| | |done].
  - unfold places. by rewrite Hh.
  - by intros (? & ? & ? & ? & ? & ? & [=]).
Qed.

(** [handle.resume()] of a coroutine that is ready: its body begins, or goes on
    with the result it waited for. *)
Lemma begin_ok h R en ops q f P : work_inv None (h :: R) en ops q f P → h ∉ elsewhere →
  ∃ t ts s ops' q' f' P', tasks (pg_coros P) ≡ₚ t :: ts ∧ (t = (s, true) ∧ q' = q ∨ part_of s (fst t)) ∧
    script_begin moved_from kStats h (st en ops q P) = Ok s (st en ops' q' P') ∧
    tasks (pg_coros P') ≡ₚ ts ∧ others_kept h P P' ∧ runs h R s en ops' q' f' P'.
Proof.
  intros H He. destruct (inv_exists _ _ _ _ h (wi_prog _ _ _ _ _ _ _ H)) as ([p gs] & Hh & _); [by left|].
  pose proof (pi_coros _ _ _ _ (wi_prog _ _ _ _ _ _ _ H) _ _ Hh) as [_ Hp]. cbn [co_place] in Hp.
  pose proof (st_coro_at c contexts x en ops h _ q (alive P) P Hh) as Eat.
  destruct p as [s|o k| |]; [| |by destruct Hp|by destruct Hp as [[?|?] _]].
  - destruct Hp as [Eg Hok]. cbn [co_guards] in Eg. subst gs. set (P1 := with_coro h (MkCoro PRun []) P).
    exists (s, true), (tasks (delete h (pg_coros P))), s, ops, q, f, P1.
    split_and!; [by rewrite (tasks_delete _ _ _ Hh)|by left| | |exact (others_kept_insert h P P1 _ eq_refl)|].
    + unfold script_begin. rewrite (bind_ok _ _ _ _ _ Eat). cbn [co_place].
      erewrite bind_ok by exact (st_set_place c contexts x en ops h PRun _ _ q (alive P) P Hh).
      by rewrite (alive_update P P1 h _ _ Hh eq_refl).
    + unfold P1. cbn. by rewrite tasks_insert.
    + split; [|exists []; split; [apply lookup_insert_eq|done]].
      apply (work_go _ _ _ _ _ _ _ _ _ H Hh eq_refl). by intros (? & ? & ? & ? & ? & ? & [=]).
  - destruct Hp as [_ Hk]. cbn [co_guards] in Hk.
    destruct (result_any moved_from kStats c Hc contexts x h R gs o k en ops q (alive P) f P H Hh)
      as (r & ops' & q' & f' & P' & E & EC & H').
    exists (SOp o k, false), (tasks (delete h (pg_coros P))), (k r), ops', q', f', P'.
    split_and!; [by rewrite (tasks_delete _ _ _ Hh)|right; constructor| | |exact (others_kept_insert _ _ _ _ EC)|].
    + unfold script_begin. rewrite (bind_ok _ _ _ _ _ Eat). cbn [co_place].
      rewrite <- bind_assoc, (bind_ok _ _ _ _ _ E). by rewrite (alive_update P P' h _ _ Hh EC).
    + by rewrite EC, tasks_insert.
    + split; [done|]. exists (guards_after o gs). rewrite EC. by rewrite lookup_insert_eq.
Qed.

Lemma resume_ok h R en ops q f P : work_inv None (h :: R) en ops q f P → h ∉ elsewhere →
  ∃ t ts, tasks (pg_coros P) ≡ₚ t :: ts ∧
    turned t ts h R P (inflight_tasks_ en) (coro_resume_script moved_from kStats h (st en ops q P)).
Proof.
  intros H He. destruct (begin_ok h R en ops q f P H He)
    as (t & ts & s & ops' & q' & f' & P' & Ht & Hp & E & Ht' & Hoth & Hr).
  exists t, ts. split; [done|]. unfold coro_resume_script. rewrite (bind_ok _ _ _ _ _ E).
  destruct (run_script_ok s h R en ops' q' f' P' Hr) as (en2 & ops2 & q2 & f2 & P2 & ys & E2 & Hn & Hys & Ht2 & Hoth2 & Hr2).
  exists en2, ops2, q2, f2, P2, ys. split_and!; [done|done| |by rewrite Ht2, Ht'|by eapply others_kept_trans|done].
  eapply Forall_impl; [exact Hys|]. intros y. destruct Hp as [[-> _]|Hp]; [done|]. destruct t. by apply below_part.
Qed.
End run.
