(* ===== verification/ProgramWork.v ===== *)
(** * The worker on tasks that use the primitives

    The worker's turns, batches, rounds and polls, and its loop.  Each turn
    replaces a task by smaller ones; when no coroutine is ready, a poll of the
    engine brings the reads and writes closer to their end. *)

From Stdlib Require Import Relation_Operators Lexicographic_Product.
From S2P Require Import Prelude Runtime Channel ChannelSpec ChannelRing ChannelRefine ChannelRun AsyncMutex AsyncMutexRun AsyncMutexProps WaitGroup Uring Engine EngineProps Context MultisetOrder Program ProgramInv ProgramRun ContextProps Responsive ProgramIo ProgramTurn.

Open Scope Z_scope.

Section worker.
Context {U : Type} `{!Liburing U, !LiburingLaws U} {T : Type} `{!Discipline T} {Aw : Elsewhere}
  (moved_from : T → T) (kStats : bool).
Context (c : ptr) (Hc : c ≠ null) (contexts : gmap ptr (ContextObj U)).
Implicit Types (P : prog_world T) (f : fifo T) (h : handle) (x : ContextObj U)
  (en : Engine U) (ops : gmap ptr IoOpAwaiter).

#[local] Abbreviation st x en ops q P := (at_work c contexts x en ops q (alive P) P).

(** The worker between turns: it resumes none, and of the coroutines it holds
    [R] are in its batch. *)
Record between (R : list handle) en ops q f P : Prop := {
  bt_work : work_inv None R en ops q f P;
  bt_tasks : inflight_tasks_ en = 0;
}.

(** The counters of tasks and of ready coroutines are not the ring's. *)
Lemma work_resuming cur R en ops q f P k : work_inv cur R en ops q f P →
  work_inv cur R (set_inflight_tasks k en) ops q f P.
Proof. intros [H [[] ????]]. split; [done|]. split; [by split|done..]. Qed.

(** ** Turns *)

Lemma finish_suspended x h o k gs en ops q P : pg_coros P !! h = Some (MkCoro (PAwait o k) gs) →
  (let! d := coro_done h in
   if d : bool then coro_destroy h;;; zoom on_task_completed else ret tt) (st x en ops q P) =
  Ok tt (st x en ops q P).
Proof.
  intros Hh. unfold coro_done. rewrite bind_assoc.
  by rewrite (bind_ok _ _ _ _ _ (st_coro_at c contexts x en ops h _ q (alive P) P Hh)).
Qed.

Lemma finish_ended x h R en ops q f P : work_inv (Some h) (h :: R) en ops q f P →
  pg_coros P !! h = Some (MkCoro PEnd []) →
  ∃ f' P', (let! d := coro_done h in
     if d : bool then coro_destroy h;;; zoom on_task_completed else ret tt) (st x en ops q P) =
       Ok tt (st x en ops q P') ∧
    work_inv None R en ops q f' P' ∧ tasks (pg_coros P') ≡ₚ tasks (pg_coros P) ∧
    pg_coros P' = delete h (pg_coros P).
Proof.
  intros [H Hio] Hh. pose proof (st_coro_at c contexts x en ops h _ q (alive P) P Hh) as Eat.
  assert (Hn : ¬ awaits_io (places P h)).
  { unfold places. rewrite Hh. by intros (? & ? & ? & ? & ? & ? & [=]). }
  assert (Eops : delete h ops = ops).
  { apply delete_id, eq_None_not_Some. by rewrite (io_live _ _ _ Hio). }
  eexists _, _. split_and!; [|split; [by apply (inv_gone (Some h) h _ f P PEnd); [|right|..]|]| |done].
  - unfold coro_done. rewrite bind_assoc, (bind_ok _ _ _ _ _ Eat). cbn [co_place].
    unfold bind at 1, ret at 1. unfold coro_destroy. rewrite bind_assoc, (bind_ok _ _ _ _ _ Eat).
    cbn [co_guards for_each]. unfold zoom, rt_op_delete, on_task_completed, bind, modify, ret, at_work.
    cbn -[u64 size]. unfold set_pending_tasks. cbn -[u64 size]. rewrite Eops.
    assert (Ea : alive (set_coros (delete h (pg_coros P)) P) = u64 (alive P - 1)).
    { unfold alive. cbn -[size]. rewrite map_size_delete_Some by by eexists.
      assert (Hsz : size (pg_coros P) ≠ 0%nat) by (intros Ez%map_size_empty_inv; by rewrite Ez in Hh).
      pose proof (pi_size _ _ _ _ H). rewrite u64_small; lia. }
    by rewrite <- Ea.
  - eapply io_ok_places; [|exact Hio]. intros h'. unfold places. cbn.
    destruct (decide (h' = h)) as [->|Hne]; [|by rewrite lookup_delete_ne].
    rewrite lookup_delete_eq. unfold places in Hn. split; [by intros (? & ? & ? & ? & ? & ? & [=])|tauto].
  - cbn. by rewrite (tasks_run _ _ _ Hh).
Qed.

(** A member function of the engine. *)
Lemma st_engine {A} x (m : M (engine_world U) A) en ops q P a e' ops' :
  m (MkEngineWorld (set_tasks q en) ops) = Ok a (MkEngineWorld e' ops') →
  zoom (in_engine c m) (st x en ops q P) = Ok a (st x e' ops' (task_queue_ e') P).
Proof.
  intros E. unfold zoom at 1, in_engine. cbn. rewrite lookup_insert_eq. cbn. rewrite E.
  unfold rt_update, at_work. cbn. rewrite insert_insert_eq. by destruct e'.
Qed.

(** A coroutine is being resumed. *)
Lemma resume_begin_ok x h R en ops q f P : between (h :: R) en ops q f P →
  let en' := set_inflight_tasks 1 en in
  zoom (in_engine c (zoom on_task_resume_begin)) (st x en ops q P) = Ok tt (st x en' ops q P) ∧
  work_inv None (h :: R) en' ops q f P.
Proof.
  intros [H Hi] en'. split; [|exact (work_resuming _ _ _ _ _ _ _ 1 H)].
  apply (st_engine x (zoom on_task_resume_begin) en ops q P tt (set_tasks q en')). unfold zoom. cbn. by rewrite Hi.
Qed.

(** The resumption of a coroutine, in [process_handle]. *)
Lemma turn_resume_ok x h R en ops q f P : between (h :: R) en ops q f P → h ∉ elsewhere →
  ∃ t ts, tasks (pg_coros P) ≡ₚ t :: ts ∧
    turned c contexts x t ts h R P 1
      (turn_resume (Coroutines0 := script_coroutines moved_from kStats) c h (st x en ops q P)).
Proof.
  intros H He. destruct (resume_begin_ok x h R en ops q f P H) as [E H1].
  destruct (resume_ok moved_from kStats c Hc contexts x h R _ ops q f P H1 He) as (t & ts & Et & Ht).
  exists t, ts. split; [done|]. unfold turn_resume. by rewrite (bind_ok _ _ _ _ _ E).
Qed.

(** What [process_handle] does when the coroutine has come back. *)
Lemma turn_finish_ok x h R en ops q f P : rests h R en ops q f P → inflight_tasks_ en = 1 →
  ∃ f' P', turn_finish (Coroutines0 := script_coroutines moved_from kStats) c h (st x en ops q P) =
      Ok tt (st x (set_inflight_tasks 0 en) ops q P') ∧
    between R (set_inflight_tasks 0 en) ops q f' P' ∧ tasks (pg_coros P') ≡ₚ tasks (pg_coros P) ∧
    pg_coros P' = match place_ended P h with true => delete h (pg_coros P) | false => pg_coros P end.
Proof.
  intros Hrest Hi. set (en1 := set_inflight_tasks 0 en).
  assert (Hend : zoom (in_engine c (zoom on_task_resume_end)) (st x en ops q P) = Ok tt (st x en1 ops q P)).
  { apply (st_engine x (zoom on_task_resume_end) en ops q P tt (set_tasks q en1)). unfold zoom. cbn. by rewrite Hi. }
  unfold turn_finish. rewrite (bind_ok _ _ _ _ _ Hend). cbn [co_done co_destroy script_coroutines].
  unfold place_ended. destruct Hrest as [[Hh H]|[(o & k & gs & Hh) H]]; apply (work_resuming _ _ _ _ _ _ _ 0) in H; rewrite Hh.
  - destruct (finish_ended x h R en1 ops q f P H Hh) as (f' & P' & E & H' & Et & EC).
    exists f', P'. by split_and!.
  - exists f, P. split_and!; [by eapply finish_suspended|by split|done|done].
Qed.

(** One turn of the worker. *)
Lemma process_ok x h R en ops q f P : between (h :: R) en ops q f P → h ∉ elsewhere →
  ∃ en' ops' q' f' P', prog_process moved_from kStats c h (st x en ops q P) = Ok tt (st x en' ops' q' P') ∧
    between R en' ops' q' f' P' ∧ multiset_lt below (tasks (pg_coros P')) (tasks (pg_coros P)).
Proof.
  intros H He. destruct (turn_resume_ok x h R en ops q f P H He)
    as (t & ts & Et & en2 & ops2 & q2 & f2 & P2 & ys & E & Hi2 & Hys & Ets & _ & Hrest).
  destruct (turn_finish_ok x h R en2 ops2 q2 f2 P2 Hrest Hi2) as (f4 & P4 & E4 & H4 & Et4 & _).
  exists (set_inflight_tasks 0 en2), ops2, q2, f4, P4. split_and!; [|done|rewrite Et4; by exists t, ys, ts].
  unfold prog_process. by rewrite process_handle_parts, (bind_ok _ _ _ _ _ E).
Qed.

Lemma st_context_at x en ops q P :
  zoom (context_at c) (st x en ops q P) = Ok (set_engine (set_tasks q en) x) (st x en ops q P).
Proof. unfold zoom, context_at, bind, get. cbn. by rewrite lookup_insert_eq. Qed.

Lemma st_set_batch x en ops q P b :
  zoom (context_store c (set_batch b (set_engine (set_tasks q en) x))) (st x en ops q P) =
    Ok tt (st (set_batch b x) en ops q P).
Proof.
  unfold zoom, context_store, modify, at_work. cbn. unfold set_contexts. cbn. by rewrite insert_insert_eq.
Qed.

(** The batch that is taken; from an empty queue the vector stays as it was. *)
Definition popped x q : list handle := if queue_empty q then work_batch_ x else take kProcessBatchSize q.

Lemma work_pop_ok x en ops q P :
  work_pop c (st x en ops q P) = Ok (length (take kProcessBatchSize q), popped x q)
    (st (set_batch (popped x q) x) en ops (drop kProcessBatchSize q) P).
Proof.
  assert (Hpop : zoom (pop_batch (work_batch_ x) kProcessBatchSize) (MkEngineWorld (set_tasks q en) ops) =
    Ok (length (take kProcessBatchSize q), popped x q) (MkEngineWorld (set_tasks (drop kProcessBatchSize q) en) ops)).
  { unfold zoom. cbn [lget lset engine_world_engine engine_ io_ops]. rewrite pop_batch_eq.
    cbn [task_queue_ set_tasks]. by destruct q. }
  unfold work_pop. rewrite (bind_ok _ _ _ _ _ (st_context_at x en ops q P)).
  cbn [work_batch_ set_engine]. rewrite (bind_ok _ _ _ _ _ (st_engine x _ en ops q P _ _ _ Hpop)).
  set (q1 := drop kProcessBatchSize q).
  change (st x (set_tasks q1 en) ops (task_queue_ (set_tasks q1 en)) P) with (st x en ops q1 P).
  rewrite (bind_ok _ _ _ _ _ (st_context_at x en ops q1 P)).
  by rewrite (bind_ok _ _ _ _ _ (st_set_batch x en ops q1 P _)).
Qed.

Lemma round_nothing x en ops P :
  prog_round moved_from kStats c (st x en ops [] P) = Ok false (st x en ops [] P).
Proof.
  unfold prog_round. rewrite process_work_once_parts, (bind_ok _ _ _ _ _ (work_pop_ok x en ops [] P)).
  by destruct x.
Qed.

(** On its own, no other worker has a coroutine at its end. *)
Context (Halone : ∀ h, h ∉ elsewhere).

(** A batch. *)
Lemma batch_ok x hs : ∀ en ops q f P, between hs en ops q f P →
  ∃ en' ops' q' f' P', for_each hs (prog_process moved_from kStats c) (st x en ops q P) =
      Ok tt (st x en' ops' q' P') ∧
    between [] en' ops' q' f' P' ∧
    (hs ≠ [] → tc (multiset_lt below) (tasks (pg_coros P')) (tasks (pg_coros P))).
Proof.
  induction hs as [|h hs IH]; intros en ops q f P H; [by exists en, ops, q, f, P|].
  destruct (process_ok x h hs en ops q f P H (Halone h)) as (en1 & ops1 & q1 & f1 & P1 & E & H1 & Hlt).
  destruct (IH en1 ops1 q1 f1 P1 H1) as (en2 & ops2 & q2 & f2 & P2 & E2 & H2 & Hlt2).
  exists en2, ops2, q2, f2, P2. split_and!; [|done|].
  - cbn [for_each]. by rewrite (bind_ok _ _ _ _ _ E).
  - intros _. destruct hs as [|h' hs]; [|eapply tc_r; [by apply Hlt2|done]].
    assert (P1 = P2) as <- by (cbn in E2; unfold at_work, ret in E2; congruence). by apply tc_once.
Qed.

(** A round, when some coroutine is ready. *)
Lemma round_ok x en ops q f P : between [] en ops q f P → q ≠ [] →
  ∃ en' ops' q' f' P', prog_round moved_from kStats c (st x en ops q P) =
      Ok true (st (set_batch (take kProcessBatchSize q) x) en' ops' q' P') ∧
    between [] en' ops' q' f' P' ∧ tc (multiset_lt below) (tasks (pg_coros P')) (tasks (pg_coros P)).
Proof.
  intros [[H Hio] Hi] Hq. set (b := take kProcessBatchSize q). set (q1 := drop kProcessBatchSize q).
  assert (Hb : b ≠ []) by by destruct q.
  destruct (batch_ok (set_batch b x) b en ops q1 f P) as (en' & ops' & q' & f' & P' & E & H' & Hlt).
  { split; [split; [|done]|done]. eapply inv_perm; [|exact H]. unfold b, q1. cbn.
    rewrite <- (take_drop kProcessBatchSize q) at 1. rewrite <- app_assoc. solve_Permutation. }
  exists en', ops', q', f', P'. split_and!; [|done|by apply Hlt].
  unfold prog_round. rewrite process_work_once_parts, (bind_ok _ _ _ _ _ (work_pop_ok x en ops q P)).
  assert (popped x q = b) as -> by (unfold popped; by destruct q). fold b q1. cbn [fst snd].
  assert (Nat.eqb (length b) 0 = false) as -> by by destruct b.
  erewrite bind_ok; [done|]. rewrite <- E. apply for_each_ext. intros h s. symmetry. apply process_handle_parts.
Qed.
End worker.

(** ** Polls and the loop *)

Section loop.
Context {U : Type} `{!Liburing U, !LiburingLaws U, !LiburingResponsive U} {T : Type} `{!Discipline T} {Aw : Elsewhere}
  (moved_from : T → T) (kStats : bool).
Context (c : ptr) (Hc : c ≠ null) (contexts : gmap ptr (ContextObj U)) (Halone : ∀ h, h ∉ elsewhere).
Implicit Types (P : prog_world T) (f : fifo T) (x : ContextObj U)
  (en : Engine U) (ops : gmap ptr IoOpAwaiter).

#[local] Abbreviation st x en ops q P := (at_work c contexts x en ops q (alive P) P).

(** How far the engine is from having nothing to wait for. *)
Definition io_time en : nat * nat := (io_left en, response_time (uring_ en)).
Definition sooner : nat * nat → nat * nat → Prop := slexprod _ _ lt lt.

Lemma io_ok_polled en ops P q w' : io_ok en ops P → same_work (MkEngineWorld (set_tasks q en) ops) w' →
  engine_wf w' → pending_submit_count_ (engine_ w') = 0 → io_ok (engine_ w') (io_ops w') P.
Proof.
  intros [H1 H2 H3 H4 H5] [Hh Hen Hops _] Hw Hp. cbn in Hen, Hops. destruct w' as [e' ops']. cbn in *.
  split; try done; [|by rewrite Hen|].
  - intros p a Ha. specialize (Hops p). rewrite Ha in Hops. cbn in Hops.
    destruct (ops !! p) as [b|] eqn:Hb; [|done]. injection Hops as ->. by apply H2.
  - intros h. rewrite <- H5. rewrite <- (fmap_is_Some handle_ (ops' !! h)), Hops. by rewrite fmap_is_Some.
Qed.

Lemma io_left_none en : io_handles en = [] → io_left en = 0%nat.
Proof.
  intros [Hw Hf]%app_eq_nil. unfold io_left. rewrite Hw, Hf. unfold in_flight in Hf.
  apply app_eq_nil in Hf as [-> [-> _]%app_eq_nil]. done.
Qed.

(** A poll. *)
Lemma poll_ok x R en ops q f P : between R en ops q f P →
  ∃ r en' ops' q', zoom (in_engine c (poll_io kIoPollBatchSize)) (st x en ops q P) =
      Ok r (st x en' ops' q' P) ∧ task_queue_ en' = q' ∧
    between R en' ops' q' f P ∧ q ++ io_handles en ≡ₚ q' ++ io_handles en' ∧
    (io_left en' + length q' ≤ io_left en + length q)%nat ∧
    (io_handles en ≠ [] ∧ sooner (io_time en') (io_time en) ∨ io_handles en = [] ∧ r = 0).
Proof.
  intros [[H Hio] Hi]. pose proof (io_wf _ _ _ Hio) as [W1 W2 W3 W4 W5]. cbn in W1, W2, W3, W4, W5.
  destruct (poll_answers 63 (MkEngineWorld (set_tasks q en) ops)) as (r & w' & E & Hw & Hs & Hp & Hi' & Hlen & Hcase).
  { by split. }
  { split_and!; [lia|lia|exact (io_pending _ _ _ Hio)|..]; apply (io_room _ _ _ Hio). }
  pose proof (io_ok_polled en ops P q w' Hio Hs Hw Hp) as Hio'. destruct w' as [e' ops']. cbn [engine_ io_ops] in *.
  assert (Eh : q ++ io_handles en ≡ₚ task_queue_ e' ++ io_handles e').
  { rewrite <- (engine_handles_own _ _ _ Hio'), (sw_handles _ _ Hs). unfold engine_handles, io_handles. cbn [engine_ io_ops task_queue_ io_waiting_queue_ set_tasks].
    change (in_flight (set_tasks q en)) with (in_flight en). by rewrite (own_handles _ _ _ Hio). }
  exists r, e', ops', (task_queue_ e'). split_and!; [by apply st_engine|done| |done|exact Hlen|].
  - split; [split; [|done]|by rewrite Hi']. eapply inv_perm; [|exact H].
    rewrite <- !app_assoc. f_equiv. by rewrite (Permutation_app_comm (io_handles en)), (Permutation_app_comm (io_handles e')).
  - destruct Hcase as [(Hwt & Hf & ->)|[Hlt|(Hf & Heq & Hlt)]].
    + right. split; [|done]. cbn in Hwt, Hf. unfold io_handles. rewrite Hwt. exact Hf.
    + left. split; [|by left]. intros En. pose proof (io_left_none en En) as E0.
      change (io_left (set_tasks q en)) with (io_left en) in Hlt. rewrite E0 in Hlt. by apply Nat.nlt_0_r in Hlt.
    + left. split; [|unfold io_time; rewrite Heq; by right].
      intros [_ En]%app_eq_nil. by apply Hf.
Qed.

(** An iteration that finds no coroutine ready: it leaves the loop only when it
    is asked to stop and the engine has nothing to wait for. *)
Lemma iteration_ok x R en ops f P : between R en ops [] f P →
  ∃ next en' ops' q',
    run_iteration (Coroutines0 := script_coroutines moved_from kStats) c (st x en ops [] P) =
      Ok next (st x en' ops' q' P) ∧ task_queue_ en' = q' ∧
    between R en' ops' q' f P ∧ io_handles en ≡ₚ q' ++ io_handles en' ∧
    (io_left en' + length q' ≤ io_left en)%nat ∧
    match next with
    | RunBreak => ctx_stop_ x = true ∧ io_handles en = []
    | RunAgain | RunIdle => io_handles en = [] → ctx_stop_ x = false
    end ∧
    (io_handles en ≠ [] → sooner (io_time en') (io_time en)).
Proof.
  intros H. destruct (poll_ok x R en ops [] f P H) as (r & en' & ops' & q' & E & Hq & H' & Hperm & Hlen & Hcase).
  pose proof (engine_idle _ (io_wf _ _ _ (wi_io _ _ _ _ _ _ _ (bt_work _ _ _ _ _ _ H')))) as Hidle.
  set (idle := queues_empty (set_tasks q' en') && (inflight_tasks_ en' =? 0) && (inflight_io_ en' =? 0)).
  assert (Hstop : idle = true ↔ io_handles en = []).
  { assert (E1 : idle = true ↔ engine_handles (MkEngineWorld en' ops') = []).
    { rewrite Hidle. unfold idle, queues_empty. rewrite !andb_true_iff, !queue_empty_spec, !Z.eqb_eq.
      rewrite <- Hq. cbn. pose proof (bt_tasks _ _ _ _ _ _ H'). tauto. }
    rewrite E1, (engine_handles_own _ _ _ (wi_io _ _ _ _ _ _ _ (bt_work _ _ _ _ _ _ H'))), Hq.
    cbn [app] in Hperm. split; intros E2; rewrite E2 in Hperm.
    - by apply Permutation_nil_r in Hperm.
    - by apply Permutation_nil_l in Hperm. }
  exists (if r >? 0 then RunAgain else if ctx_stop_ x && idle then RunBreak else RunIdle), en', ops', q'.
  split_and!; [|done|done|done|cbn in Hlen; lia| |intros Hn; by destruct Hcase as [[_ ?]|[? _]]].
  - unfold run_iteration, noexcept. rewrite (bind_ok _ _ _ _ _ (round_nothing moved_from kStats c contexts x en ops P)).
    unfold poll_io_once. rewrite bind_assoc, (bind_ok _ _ _ _ _ E).
    unfold bind at 1, ret at 1. destruct (r >? 0); [done|].
    rewrite (bind_ok _ _ _ _ _ (st_context_at c contexts x en' ops' q' P)). cbn [ctx_stop_ set_engine].
    rewrite (bind_ok _ _ _ (ctx_stop_ x && idle) (st x en' ops' q' P)); [by destruct (ctx_stop_ x && idle)|].
    apply (st_engine c contexts x _ en' ops' q' P (ctx_stop_ x && idle) (set_tasks q' en') ops').
    unfold zoom. cbn [lget lset engine_world_engine engine_ io_ops]. rewrite can_stop_eq.
    by unfold idle; rewrite <- !andb_assoc.
  - assert (Hr : io_handles en = [] → (r >? 0) = false ∧ idle = true).
    { intros En. split; [|by apply Hstop]. by destruct Hcase as [[? _]|[_ ->]]. }
    destruct (r >? 0); [intros En; by destruct (Hr En)|].
    destruct (ctx_stop_ x) eqn:Es; cbn [andb]; [|done].
    destruct idle eqn:Ei; [split; [done|by apply Hstop]|]. intros En. by destruct (Hr En).
Qed.

(** The loop of a context that has been asked to stop: it ends, when no
    coroutine is ready and none waits for the ring. *)
Lemma loop_ok x en ops q f P : between [] en ops q f P → ctx_stop_ x = true →
  ∃ n x' en' ops' f' P', run_loop (Coroutines0 := script_coroutines moved_from kStats) n c (st x en ops q P) =
      Ok tt (st x' en' ops' [] P') ∧
    between [] en' ops' [] f' P' ∧ ctx_stop_ x' = true ∧ ctx_id_ x' = ctx_id_ x ∧
    engine_handles (MkEngineWorld en' ops') = [].
Proof.
  remember (tasks (pg_coros P), io_time en) as m eqn:Em. revert x en ops q f P Em.
  induction m as [m IH] using (well_founded_induction
    (wf_slexprod _ _ (tc (multiset_lt below)) sooner
       (tc_wf _ (multiset_lt_wf _ below_wf)) (wf_slexprod _ _ _ _ lt_wf lt_wf))).
  intros x en ops q f P -> H Hst. destruct (decide (q = [])) as [->|Hq].
  - destruct (iteration_ok x [] en ops f P H) as (next & en1 & ops1 & q1 & E & Hq1 & H1 & Hperm & _ & Hnext & Hlt).
    destruct (decide (io_handles en = [])) as [Hn|Hn].
    + rewrite Hn in Hperm. apply Permutation_nil_l in Hperm; symmetry in Hperm; apply app_eq_nil in Hperm as [-> Hn1].
      assert (next = RunBreak) as -> by (destruct next; [specialize (Hnext Hn); congruence|done|specialize (Hnext Hn); congruence]).
      exists 1%nat, x, en1, ops1, f, P. split_and!; [|done..|].
      * cbn [run_loop]. by rewrite (bind_ok _ _ _ _ _ E).
      * rewrite (engine_handles_own _ _ _ (wi_io _ _ _ _ _ _ _ (bt_work _ _ _ _ _ _ H1))). by rewrite Hq1, Hn1.
    + destruct (IH (tasks (pg_coros P), io_time en1) ltac:(right; by apply Hlt) x en1 ops1 q1 f P eq_refl H1 Hst)
        as (n & x' & en' & ops' & f' & P' & E' & H').
      exists (S n), x', en', ops', f', P'. split; [|done]. cbn [run_loop].
      rewrite (bind_ok _ _ _ _ _ E). destruct next; try done. by destruct Hnext.
  - destruct (round_ok moved_from kStats c Hc contexts Halone x en ops q f P H Hq)
      as (en1 & ops1 & q1 & f1 & P1 & E & H1 & Hlt).
    destruct (IH (tasks (pg_coros P1), io_time en1) ltac:(by left) (set_batch (take kProcessBatchSize q) x)
      en1 ops1 q1 f1 P1 eq_refl H1 Hst) as (n & x' & en' & ops' & f' & P' & E' & H').
    exists (S n), x', en', ops', f', P'. split; [|done]. cbn [run_loop].
    assert (Eit : run_iteration (Coroutines0 := script_coroutines moved_from kStats) c (st x en ops q P) =
      Ok RunAgain (st (set_batch (take kProcessBatchSize q) x) en1 ops1 q1 P1)).
    { unfold run_iteration, noexcept. by rewrite (bind_ok _ _ _ _ _ E). }
    by rewrite (bind_ok _ _ _ _ _ Eit).
Qed.
End loop.
