(* ===== verification/ProgramProps.v ===== *)
(** * Properties of tasks that use the primitives *)

From S2P Require Import Prelude Runtime Channel ChannelSpec ChannelRing ChannelRefine ChannelRun AsyncMutex AsyncMutexRun AsyncMutexProps WaitGroup Uring Engine EngineProps Context MultisetOrder Program ProgramInv ProgramRun ContextProps Responsive ProgramIo ProgramTurn ProgramWork.

Open Scope Z_scope.

Section start.
Context {T : Type} `{!Discipline T} {Aw : Elsewhere}.
Implicit Types (P : prog_world T) (f : fifo T).

(** Coroutines that have been submitted and have not begun, on new
    primitives. *)
Record fresh_program (q : list handle) P : Prop := {
  fp_queue : q ≡ₚ (map_to_list (pg_coros P)).*1;
  fp_null : pg_coros P !! null = None;
  fp_coros : ∀ h y, pg_coros P !! h = Some y → ∃ s, y = MkCoro (PStart s) [] ∧ script_ok [] s;
  fp_chan : ∃ ch, chan_new ch ∧ pg_chan P = MkWorld ch ∅ ∅;
  fp_mutexes : dom (mutexes (pg_mutex P)) = mutex_set;
  fp_unlocked : ∀ m y, mutexes (pg_mutex P) !! m = Some y → y = AsyncMutex_init;
  fp_guards : guards (pg_mutex P) = ∅;
  fp_count : 0 ≤ WaitGroup.count_ (pg_wg P) < 2 ^ 31;
  fp_waiters : wg_wait_queue_ (pg_wg P) = [];
}.

Lemma fresh_inv q P : fresh_program q P → Z.of_nat (length q) < 2 ^ 64 → ∃ f, prog_inv None q f P.
Proof.
  intros [H1 H2 H3 (ch & Hnew & Hch) H5 H6 H7 H8 H9] Hsz. destruct (new_repr ch Hnew) as [Hr Hwf].
  assert (Hpl : ∀ h, awaits_send (places P h) ∨ awaits_receive (places P h) → False).
  { intros h. unfold places. destruct (pg_coros P !! h) as [y|] eqn:Hy.
    - destruct (H3 _ _ Hy) as (s & -> & _). by intros [(? & ? & [=])|(? & [=])].
    - by intros [(? & ? & [=])|(? & [=])]. }
  assert (Hg : ∀ h, guards_of (pg_coros P) h = []).
  { intros h. unfold guards_of. destruct (pg_coros P !! h) as [y|] eqn:Hy; [|done].
    by destruct (H3 _ _ Hy) as (s & -> & _). }
  assert (Hmw : mutex_waiting (pg_mutex P) = []).
  { apply elem_of_nil_inv. intros h (m & y & Hy & Hin)%mutex_waiting_elem.
    rewrite (H6 _ _ Hy) in Hin. by apply not_elem_of_nil in Hin. }
  assert (Hk : ∀ m q h, kind (pg_coros P) m q h = KOther).
  { intros m q0 h. unfold kind. rewrite Hg, decide_False by apply not_elem_of_nil.
    destruct (pg_coros P !! h) as [y|] eqn:Hy; [|done]. by destruct (H3 _ _ Hy) as (s & -> & _). }
  exists (fifo_new ch). split; try done.
  - unfold blocked. rewrite Hmw, H9. cbn. by rewrite app_nil_r.
  - by rewrite Hch.
  - split; try done; cbn.
    + by intros ??? ?%not_elem_of_nil.
    + by intros ?? ?%not_elem_of_nil.
    + intros h Ha. destruct (Hpl h); auto.
    + intros h Ha. destruct (Hpl h); auto.
  - split.
    + intros m y Hy. rewrite (H6 _ _ Hy). exists [], [], None. split; try done; cbn.
      * constructor.
      * intros h. by rewrite Hk, elem_of_nil.
      * intros h. by rewrite Hk.
    + intros g y. rewrite H7. split; [done|]. intros (h & m & _ & Hin & _). rewrite Hg in Hin.
      by apply not_elem_of_nil in Hin.
  - intros h. rewrite H9. by intros ?%not_elem_of_nil.
  - intros h y Hy. destruct (H3 _ _ Hy) as (s & -> & Hok). by repeat split; try constructor.
  - by rewrite <- length_map_to_list, <- (length_fmap fst), <- H1.
Qed.

(** The coroutines of the bodies [l], on the channel [ch], the mutexes [ms] and
    a wait group at [k]. *)
Definition new_program (l : list (handle * script T)) (ch : Channel T) (ms : list ptr) (k : Z) : prog_world T :=
  MkProg (list_to_map ((λ p, (fst p, MkCoro (PStart (snd p)) [])) <$> l)) (MkWorld ch ∅ ∅)
    (MkMutexWorld (list_to_map ((λ m, (m, AsyncMutex_init)) <$> ms)) ∅) (MkWaitGroup k []).

Lemma new_program_fresh l ch ms k : NoDup l.*1 → null ∉ l.*1 → Forall (λ p, script_ok [] (snd p)) l →
  chan_new ch → list_to_set ms = mutex_set → 0 ≤ k < 2 ^ 31 →
  fresh_program l.*1 (new_program l ch ms k).
Proof.
  intros Hnd Hnull Hok Hch Hms Hk.
  assert (E1 : ((λ p : handle * script T, (fst p, MkCoro (PStart (snd p)) [])) <$> l).*1 = l.*1).
  { rewrite <- list_fmap_compose. by apply list_fmap_ext. }
  split; try done; cbn.
  - rewrite map_to_list_to_map by by rewrite E1. by rewrite E1.
  - apply not_elem_of_list_to_map_1. by rewrite E1.
  - intros h y Hy%elem_of_list_to_map_2. apply list_elem_of_fmap in Hy as ([h' s] & [= -> ->] & Hin).
    exists s. split; [done|]. rewrite Forall_forall in Hok. by apply (Hok (h', s)).
  - by exists ch.
  - rewrite dom_list_to_map_L, <- Hms. f_equal. rewrite <- list_fmap_compose. by apply list_fmap_id.
  - intros m y Hy%elem_of_list_to_map_2. by apply list_elem_of_fmap in Hy as (m' & [= -> ->] & _).
Qed.

(** ** The end *)

(** Coroutine [h] awaits something that nothing can give it: room or a value
    in the open channel, a mutex another coroutine holds, a count at zero. *)
Definition stuck P (h : handle) : Prop :=
  ∃ o k gs, pg_coros P !! h = Some (MkCoro (PAwait o k) gs) ∧
    match o with
    | OSend _ => close_ (chan (pg_chan P)) = false ∧ isFull (chan (pg_chan P)) = true
    | OReceive => close_ (chan (pg_chan P)) = false ∧ isEmpty (chan (pg_chan P)) = true
    | OLock m => ∃ h' y', h' ≠ h ∧ pg_coros P !! h' = Some y' ∧ m ∈ co_guards y'
    | OWait => 0 < WaitGroup.count_ (pg_wg P)
    | _ => False
    end.

Lemma stuck_channel f P h : repr (pg_chan P) f → chan_part f (places P) → h ∈ waiting f →
  ∃ p, places P h = Some p ∧
    match p with
    | PAwait (OSend _) _ => close_ (chan (pg_chan P)) = false ∧ isFull (chan (pg_chan P)) = true
    | PAwait OReceive _ => close_ (chan (pg_chan P)) = false ∧ isEmpty (chan (pg_chan P)) = true
    | _ => False
    end.
Proof.
  intros Hr [Hwf Hs Hv _ _]. unfold waiting. rewrite elem_of_app, !list_elem_of_fmap.
  rewrite (re_closed _ _ Hr), (full_spec _ f Hr). unfold isEmpty. rewrite (rr_count _ _ (re_ring _ _ Hr)).
  intros [([[h' p] v] & -> & Hin)|([h' p] & -> & Hin)]; cbn.
  - destruct (Hs _ _ _ Hin) as [_ (v' & k & ->)]. eexists; split; [done|]. cbn.
    destruct (wf_senders f Hwf) as [El Ec]; [by intros E; rewrite E in Hin; apply not_elem_of_nil in Hin|].
    split; [done|]. unfold fifo_full. lia.
  - destruct (Hv _ _ Hin) as [_ (k & ->)]. eexists; split; [done|]. cbn.
    destruct (wf_receivers f Hwf) as (El & _ & Ec); [by intros E; rewrite E in Hin; apply not_elem_of_nil in Hin|].
    by rewrite El.
Qed.

(** The holder of a mutex someone waits for. *)
Lemma mutex_held f P m y h : prog_inv None [] f P → mutexes (pg_mutex P) !! m = Some y →
  h ∈ wait_queue_ y → ∃ h' y', h' ≠ h ∧ pg_coros P !! h' = Some y' ∧ m ∈ co_guards y'.
Proof.
  intros H Hy Hin. destruct (mutex_waits _ _ m y h (pi_mutex _ _ _ _ H) Hy Hin) as (k & gs & Hh & Hm).
  destruct (mp_locks _ _ (pi_mutex _ _ _ _ H) m y Hy) as (ar & gr & o & Hl).
  destruct o as [h'|]; [|by rewrite (lp_idle _ _ _ _ _ Hl eq_refl) in Hin; apply not_elem_of_nil in Hin].
  assert (Hk : kind (pg_coros P) m (wait_queue_ y) h' = KCritical) by by apply (lp_owner _ _ _ _ _ Hl).
  assert (Hg : m ∈ guards_of (pg_coros P) h').
  { unfold kind in Hk. destruct (decide (m ∈ _)) as [|_]; [done|]. exfalso.
    destruct (pg_coros P !! h') as [[[|[|m'| | | | | | | | | |] k'| |] gs']|] eqn:Hh'; try done. cbn in Hk.
    destruct (decide (m' = m)) as [->|]; [|done]. destruct (decide (h' ∈ wait_queue_ y)) as [|Hn]; [done|].
    assert (Hb : h' ∈ [] ++ blocked f P).
    { rewrite (pi_places _ _ _ _ H). apply list_elem_of_fmap. exists (h', MkCoro (PAwait (OLock m) k') gs').
      split; [done|]. by apply elem_of_map_to_list. }
    cbn in Hb. unfold blocked in Hb. rewrite !elem_of_app in Hb. destruct Hb as [Hb|[Hb|Hb]].
    - destruct (stuck_channel f P h' (pi_repr _ _ _ _ H) (pi_chan _ _ _ _ H) Hb) as (p & Hp & Hf).
      unfold places in Hp. rewrite Hh' in Hp. cbn in Hp. by simplify_eq.
    - apply mutex_waiting_elem in Hb as (m2 & y2 & Hy2 & Hin2).
      destruct (mutex_waits _ _ m2 y2 h' (pi_mutex _ _ _ _ H) Hy2 Hin2) as (k2 & gs2 & E & _).
      rewrite Hh' in E. by simplify_eq.
    - destruct (pi_waits _ _ _ _ H _ Hb) as [k2 E]. unfold places in E. by rewrite Hh' in E. }
  unfold guards_of in Hg. destruct (pg_coros P !! h') as [y'|] eqn:Hh'; [|by apply not_elem_of_nil in Hg].
  exists h', y'. split_and!; [|done..]. intros ->. rewrite Hh in Hh'. by injection Hh' as <-.
Qed.

Lemma inv_stuck f P h : prog_inv None [] f P → is_Some (pg_coros P !! h) → stuck P h.
Proof.
  intros H [[p gs] Hh].
  assert (Hp : places P h = Some p) by (unfold places; by rewrite Hh).
  assert (Hb : h ∈ [] ++ blocked f P).
  { rewrite (pi_places _ _ _ _ H). apply list_elem_of_fmap. exists (h, MkCoro p gs).
    split; [done|]. by apply elem_of_map_to_list. }
  cbn in Hb. unfold blocked in Hb. rewrite !elem_of_app in Hb. destruct Hb as [Hb|[Hb|Hb]].
  - destruct (stuck_channel f P h (pi_repr _ _ _ _ H) (pi_chan _ _ _ _ H) Hb) as (p' & Hp' & Hf).
    rewrite Hp in Hp'. injection Hp' as <-. destruct p as [|o k| |]; try done. exists o, k, gs.
    split; [done|]. by destruct o.
  - apply mutex_waiting_elem in Hb as (m & y & Hy & Hin).
    destruct (mutex_waits _ _ m y h (pi_mutex _ _ _ _ H) Hy Hin) as (k & gs' & E & _).
    exists (OLock m), k, gs'. split; [done|]. by eapply mutex_held.
  - destruct (pi_waits _ _ _ _ H _ Hb) as [k E]. rewrite Hp in E. injection E as ->.
    exists OWait, k, gs. split; [done|]. apply (pi_waiters _ _ _ _ H). intros E.
    rewrite E in Hb. by apply not_elem_of_nil in Hb.
Qed.

(** A coroutine that is stuck awaits no read or write. *)
Lemma stuck_no_io P h : stuck P h → ¬ awaits_io (places P h).
Proof.
  intros (o & k & gs & Hh & Ho). unfold places. rewrite Hh. intros E%awaits_io_spec. by destruct o.
Qed.
End start.

(** The worker is the only one. *)
#[local] Instance alone : Elsewhere := (∅ : gset handle).

(** The whole of [run]. *)
Section run.
Context {U : Type} `{!Liburing U, !LiburingLaws U, !LiburingResponsive U} {T : Type} `{!Discipline T}
  (moved_from : T → T) (kStats : bool).
Implicit Types (u : U) (P : prog_world T) (en : Engine U).

(** Nothing is in the ring, which has room for what one poll submits. *)
Definition ring_ready u : Prop := outstanding u = [] ∧ Z.of_nat kIoPollBatchSize ≤ sq_entries u < 2 ^ 64.

(** Context [c], asked to stop, has the submitted coroutines [q]. *)
Definition program_ready (w : rt_world U) (c : ptr) (x : ContextObj U) (q : list handle) : Prop :=
  c ≠ null ∧ rt_contexts w !! c = Some x ∧ rt_ops w = ∅ ∧ ctx_stop_ x = true ∧
  pending_tasks_ w = Z.of_nat (length q) ∧ pending_tasks_ w < 2 ^ 64 ∧
  ∃ u, ring_ready u ∧ ctx_engine_ x = set_tasks q (Engine_make u).

Lemma new_in_flight u : ring_ready u → in_flight (Engine_make u) = [].
Proof. intros [Ho _]. unfold in_flight. cbn. by rewrite Ho. Qed.

Lemma fresh_between u q P : ring_ready u → fresh_program q P → Z.of_nat (length q) < 2 ^ 64 →
  ∃ f, between [] (Engine_make u) ∅ q f P.
Proof.
  intros Hu HP Hsz. destruct (fresh_inv q P HP Hsz) as [f H]. pose proof (new_in_flight u Hu) as Hf.
  destruct Hu as [Ho Hr]. assert (Hp : sqes_prepared u = []) by by apply app_eq_nil in Ho as [? _].
  exists f. split; [split|done].
  - unfold io_handles. rewrite Hf. exact H.
  - split; try done; cbn.
    + split; cbn; rewrite ?Hf, ?Hp, ?Ho; done || constructor.
    + intros h. rewrite lookup_empty. split; [by intros [? ?]|]. unfold places. intros Ha. exfalso.
      destruct (pg_coros P !! h) as [y|] eqn:Hy; [destruct (fp_coros _ _ HP _ _ Hy) as (s & -> & _)|];
        by destruct Ha as (? & ? & ? & ? & ? & ? & [=]).
Qed.

(** What the loop leaves behind. *)
Lemma end_engine en ops f P : between [] en ops [] f P → engine_handles (MkEngineWorld en ops) = [] →
  outstanding (uring_ en) = [] ∧ set_tasks [] en = Engine_make (uring_ en) ∧ prog_inv None [] f P ∧ ops = ∅.
Proof.
  intros [[H Hio] Hi] He. pose proof (io_wf _ _ _ Hio) as Hw.
  pose proof (proj1 (engine_idle _ Hw) He) as (E1 & E2 & E3 & E4 & E5 & E6).
  assert (Hf : in_flight en = []).
  { unfold engine_handles in He. apply app_eq_nil in He as [_ [_ Hf%fmap_nil_inv]%app_eq_nil]. done. }
  assert (H' : prog_inv None [] f P).
  { revert H. unfold io_handles. cbn in E2. by rewrite E2, Hf. }
  split_and!; [..|done|].
  - unfold in_flight in Hf. apply app_eq_nil in Hf as [_ [_ Hf%fmap_nil_inv]%app_eq_nil]. done.
  - destruct en. cbn in *. by subst.
  - apply map_eq. intros h. rewrite lookup_empty. apply eq_None_not_Some. intros Ha.
    apply (io_live _ _ _ Hio) in Ha as Haw. unfold places in Haw.
    destruct (pg_coros P !! h) as [y|] eqn:Hy; [|by destruct Haw as (? & ? & ? & ? & ? & ? & [=])].
    apply (stuck_no_io P h); [apply (inv_stuck f P h H'); by eexists|]. unfold places. by rewrite Hy.
Qed.

Lemma run_ok w c x q P : program_ready w c x q → fresh_program q P →
  ∃ n x' f P', prog_run moved_from kStats n c (w, P) =
      Ok tt (MkRt (<[c := x']> (rt_contexts w)) ∅ (Z.of_nat (size (pg_coros P'))) null, P') ∧
    (∃ u, outstanding u = [] ∧ ctx_engine_ x' = Engine_make u) ∧ prog_inv None [] f P'.
Proof.
  intros (Hc & Hx & Hops & Hst & Hp & Hsz & u & Hu & He) Hfresh.
  destruct (fresh_between u q P Hu Hfresh) as [f H]; [by rewrite <- Hp|].
  destruct (loop_ok moved_from kStats c Hc (rt_contexts w) not_elem_of_empty x (Engine_make u) ∅ q f P H Hst)
    as (n & x' & en' & ops' & f' & P' & E & H' & _ & _ & He').
  destruct (end_engine en' ops' f' P' H' He') as (Ho & Een & Hinv & ->).
  exists n, (set_engine (set_tasks [] en') x'), f', P'. split_and!; [|by exists (uring_ en')|done].
  unfold prog_run, run. erewrite bind_ok; [|done]. cbn [lset lens_fst fst snd lget].
  rewrite (bind_ok _ _ _ tt (at_work c (rt_contexts w) x' en' ∅ [] (alive P') P')); [done|].
  rewrite <- E. f_equal. unfold at_work, set_local_context. f_equal. f_equal; [|done|].
  - rewrite insert_id; [done|]. rewrite Hx. destruct x. cbn in *. by subst.
  - rewrite Hp. unfold alive. f_equal.
    rewrite (Permutation_length (fp_queue _ _ Hfresh)), length_fmap. by rewrite length_map_to_list.
Qed.
End run.

(** ** Locks in order *)

Section lock_order.
Context {T : Type} (S : gset ptr) (HS : null ∉ S).

(** Nothing is awaited but mutexes, and each after those at lower addresses. *)
Definition lock_order : Discipline T := {|
  mutex_set := S;
  mutex_set_null := HS;
  allowed := λ gs o,
    match o with
    | OSend _ | OReceive | OWait => False
    | OLock m => Forall (λ m', (m' < m)%N) gs
    | _ => True
    end;
|}.
#[local] Existing Instance lock_order.
Implicit Types (P : prog_world T) (f : fifo T).

Lemma set_bound (X : gset ptr) : ∃ B : N, ∀ m : N, m ∈ X → (m ≤ B)%N.
Proof.
  induction X as [|m X _ [B IH]] using set_ind_L; [by exists 0%N; intros ? ?%not_elem_of_empty|].
  exists (N.max m B). intros m' [->%elem_of_singleton|Hin%IH]%elem_of_union; lia.
Qed.

Lemma no_cycle f P B : prog_inv None [] f P → (∀ m, m ∈ S → (m ≤ B)%N) →
  ∀ n h m k gs, pg_coros P !! h = Some (MkCoro (PAwait (OLock m) k) gs) →
    (N.to_nat B - N.to_nat m < n)%nat → False.
Proof.
  intros H HB n. induction n as [|n IH]; [lia|]. intros h m k gs Hh Hn.
  destruct (inv_stuck f P h H) as (o & k' & gs' & E & Hst); [by eexists|].
  rewrite Hh in E. injection E as <- <- <-. cbn in Hst.
  destruct Hst as (h' & y' & _ & Hy' & Hm).
  destruct (inv_stuck f P h' H) as (o & k' & gs' & E & Hst); [by eexists|].
  rewrite Hy' in E. injection E as ->. cbn in Hm.
  destruct (pi_coros _ _ _ _ H _ _ Hy') as [_ [[Ha Ho] _]]. cbn in Ha, Ho.
  destruct o; try done. destruct Ho as [_ Hin%HB]. rewrite Forall_forall in Ha.
  apply Ha in Hm. eapply IH; [exact Hy'|lia].
Qed.

Lemma all_complete f P : prog_inv None [] f P → pg_coros P = ∅.
Proof.
  intros H. apply map_eq. intros h. rewrite lookup_empty. destruct (pg_coros P !! h) as [y|] eqn:Hy; [|done].
  exfalso. destruct (inv_stuck f P h H) as (o & k & gs & E & Hst); [by eexists|].
  rewrite Hy in E. injection E as ->. destruct (pi_coros _ _ _ _ H _ _ Hy) as [_ [[Ha _] _]]. cbn in Ha.
  destruct (set_bound S) as [B HB]. destruct o; try done.
  exact (no_cycle f P B H HB _ _ _ _ _ Hy (Nat.lt_succ_diag_r _)).
Qed.

Lemma all_unlocked f P m y : prog_inv None [] f P → mutexes (pg_mutex P) !! m = Some y →
  y = AsyncMutex_init.
Proof.
  intros H Hy. pose proof (all_complete f P H) as E.
  destruct (mp_locks _ _ (pi_mutex _ _ _ _ H) m y Hy) as (ar & gr & o & Hl).
  destruct o as [h|].
  { assert (Hk : kind (pg_coros P) m (wait_queue_ y) h = KCritical) by by apply (lp_owner _ _ _ _ _ Hl).
    unfold kind, guards_of in Hk. rewrite E, lookup_empty in Hk. cbn in Hk.
    by rewrite decide_False in Hk by apply not_elem_of_nil. }
  pose proof (lp_idle _ _ _ _ _ Hl eq_refl) as Eq. pose proof (lp_lock _ _ _ _ _ Hl) as El.
  destruct y as [l q]. cbn in Eq, El.
  by subst.
Qed.
End lock_order.

(** ** Properties *)

(** C4. Coroutines that yield, read and write, lock mutexes, send to and receive
    from a channel, wait for a wait group and submit further coroutines, all on
    one context that has been asked to stop; their bodies lock no mutex they
    hold and unlock only those they hold, and are otherwise arbitrary.  On a
    kernel that answers [run] returns: nothing is undefined and nothing throws
    into the worker.  Then no coroutine is ready and none waits for the ring,
    whose every operation has been answered; [pending_tasks_] is the number of
    coroutines that have not ended, and each of those awaits something that
    nothing can give it: a place in the full open channel, a value of the empty
    open one, a mutex another coroutine that has not ended holds, or a count at
    zero. *)
Theorem program_quiesces {U} `{!Liburing U, !LiburingLaws U, !LiburingResponsive U} {T}
    `{!Discipline T} (moved_from : T → T) kStats (w : rt_world U) c x q (P : prog_world T) :
  program_ready w c x q → fresh_program q P →
  ∃ n x' P', prog_run moved_from kStats n c (w, P) =
      Ok tt (MkRt (<[c := x']> (rt_contexts w)) ∅ (Z.of_nat (size (pg_coros P'))) null, P') ∧
    (∃ u, outstanding u = [] ∧ ctx_engine_ x' = Engine_make u) ∧
    ∀ h, is_Some (pg_coros P' !! h) → stuck P' h.
Proof.
  intros Hw HP. destruct (run_ok moved_from kStats w c x q P Hw HP) as (n & x' & f & P' & E & Hx' & H).
  exists n, x', P'. split_and!; [done..|]. intros h. by eapply inv_stuck.
Qed.

(** Coroutine 10 locks mutex 1 and receives, 11 sends after waiting once for
    the ring and locking the same mutex, 12 submits a child that reads and
    waits for the group. *)
Definition demo_read (k : script Z) : script Z := SOp (OIo IoRead 3 200%N 512 0) (λ _, k).
Definition demo_deadlock : list (handle * script Z) :=
  [(10%N, SOp (OLock 1) (λ _, SOp OReceive (λ _, SReturn)));
   (11%N, SOp OIoOnce (λ _, SOp (OLock 1) (λ _, SOp (OSend 7) (λ _, SReturn))));
   (12%N, SSubmit (demo_read (SOp OYield (λ _, SReturn))) (SOp OWait (λ _, SReturn)))].

Definition demo_program_context (q : list handle) : ContextObj sim_ring :=
  MkContext 0 (set_tasks q (Engine_make (MkSimRing 256 [] []))) true [].
Definition demo_program_world (q : list handle) : rt_world sim_ring :=
  MkRt {[1%N := demo_program_context q]} ∅ (Z.of_nat (length q)) null.

Lemma demo_program_ready q : Z.of_nat (length q) < 2 ^ 64 →
  program_ready (demo_program_world q) 1%N (demo_program_context q) q.
Proof. intros Hq. split_and!; try done. by exists (MkSimRing 256 [] []). Qed.

Lemma demo_one_mutex : null ∉ ({[1%N]} : gset ptr).
Proof. by intros E%elem_of_singleton. Qed.
Definition demo_discipline : Discipline Z :=
  {| mutex_set := {[1%N]}; mutex_set_null := demo_one_mutex; allowed := λ _ _, True |}.

Lemma program_quiesces_witness : ∃ n x' P',
  prog_run (λ _, 0) true n 1%N
    (demo_program_world [10%N; 11%N; 12%N], new_program demo_deadlock Channel_default [1%N] 1) =
  Ok tt (MkRt (<[1%N := x']> {[1%N := demo_program_context [10%N; 11%N; 12%N]]}) ∅
           (Z.of_nat (size (pg_coros P'))) null, P') ∧
  (∃ u : sim_ring, outstanding u = [] ∧ ctx_engine_ x' = Engine_make u) ∧
  ∀ h, is_Some (pg_coros P' !! h) → stuck P' h.
Proof.
  apply (program_quiesces (Discipline0 := demo_discipline) (λ _, 0) true
    (demo_program_world [10%N; 11%N; 12%N]) 1%N (demo_program_context [10%N; 11%N; 12%N]) [10%N; 11%N; 12%N]
    (new_program demo_deadlock Channel_default [1%N] 1)); [by apply demo_program_ready|].
  apply (new_program_fresh (Discipline0 := demo_discipline) demo_deadlock).
  - by apply (bool_decide_unpack _).
  - by apply (bool_decide_unpack _).
  - repeat constructor; cbn; try apply not_elem_of_nil; by apply elem_of_singleton.
  - by left.
  - by cbn; rewrite union_empty_r_L.
  - lia.
Defined.

(** It is the state one expects: all three, and not the child, remain. *)
Lemma demo_deadlock_run :
  match prog_run (λ _, 0) true 10 1%N
    (demo_program_world [10%N; 11%N; 12%N], new_program demo_deadlock Channel_default [1%N] 1) with
  | Ok tt (w, P) => pending_tasks_ w = 3 ∧ mutexes (pg_mutex P) !! 1%N = Some (MkMutex true [11%N]) ∧
      receiver_queue_ (chan (pg_chan P)) = [(10%N, 10%N)] ∧ pg_wg P = MkWaitGroup 1 [12%N]
  | _ => False
  end.
Proof. by vm_compute. Qed.

(** C5. When in such bodies nothing is awaited but [yield], reads and writes, and
    mutexes, each locked at a higher address than those held, every coroutine
    and every coroutine they submit comes to its end and is destroyed, on a
    kernel that answers: [run] returns with no coroutine left, [pending_tasks_]
    at 0 and every mutex unlocked with nobody in its queue. *)
Theorem program_lock_order_completes {U} `{!Liburing U, !LiburingLaws U, !LiburingResponsive U} {T}
    (S : gset ptr) (HS : null ∉ S) (moved_from : T → T) kStats (w : rt_world U) c x q (P : prog_world T) :
  program_ready w c x q → fresh_program (Discipline0 := lock_order S HS) q P →
  ∃ n x' P', prog_run moved_from kStats n c (w, P) =
      Ok tt (MkRt (<[c := x']> (rt_contexts w)) ∅ 0 null, P') ∧
    (∃ u, outstanding u = [] ∧ ctx_engine_ x' = Engine_make u) ∧
    pg_coros P' = ∅ ∧
    ∀ m y, mutexes (pg_mutex P') !! m = Some y → y = AsyncMutex_init.
Proof.
  intros Hw HP. destruct (run_ok (Discipline0 := lock_order S HS) moved_from kStats w c x q P Hw HP)
    as (n & x' & f & P' & E & Hx' & H).
  exists n, x', P'. split_and!; [|done|by eapply all_complete|intros m y; by eapply all_unlocked].
  rewrite E, (all_complete S HS f P' H). done.
Qed.

(** Two coroutines that lock both mutexes and yield or read in between; one
    submits a third. *)
Definition demo_both (k : script Z) : script Z :=
  SOp (OLock 1) (λ _, demo_read (SOp (OLock 2) (λ _, SOp OYield (λ _, SOp (OUnlock 1) (λ _, k))))).
Definition demo_ordered : list (handle * script Z) :=
  [(10%N, demo_both SReturn); (11%N, demo_both (SSubmit (demo_both SReturn) SReturn))].

Lemma demo_two_mutexes : null ∉ (list_to_set [1%N; 2%N] : gset ptr).
Proof. by apply (bool_decide_unpack _). Qed.

Lemma program_lock_order_completes_witness : ∃ n x' P',
  prog_run (λ _, 0) true n 1%N
    (demo_program_world [10%N; 11%N], new_program demo_ordered Channel_default [1%N; 2%N] 0) =
  Ok tt (MkRt (<[1%N := x']> {[1%N := demo_program_context [10%N; 11%N]]}) ∅ 0 null, P') ∧
  (∃ u : sim_ring, outstanding u = [] ∧ ctx_engine_ x' = Engine_make u) ∧
  pg_coros P' = ∅ ∧
  ∀ m y, mutexes (pg_mutex P') !! m = Some y → y = AsyncMutex_init.
Proof.
  apply (program_lock_order_completes _ demo_two_mutexes (λ _, 0) true
    (demo_program_world [10%N; 11%N]) 1%N (demo_program_context [10%N; 11%N]) [10%N; 11%N]
    (new_program demo_ordered Channel_default [1%N; 2%N] 0)); [by apply demo_program_ready|].
  apply (new_program_fresh (Discipline0 := lock_order _ demo_two_mutexes) demo_ordered).
  - by apply (bool_decide_unpack _).
  - by apply (bool_decide_unpack _).
  - repeat constructor; cbn; by apply (bool_decide_unpack _).
  - by left.
  - done.
  - lia.
Defined.
