(* ===== verification/Fleet.v ===== *)
(** * Bodies that do not block, on all workers

    The bodies of file Program as the tasks of [System]: any number of workers,
    whose coroutines yield, wait for the ring, submit further coroutines and
    use the channel and the wait group without waiting for them.  Each stays
    with the worker that took it: a coroutine that waits in a primitive can be
    moved by whoever wakes it, which [Migration] shows is not safe.  The view
    below says where each coroutine is. *)

From S2P Require Import Prelude Runtime Channel ChannelSpec ChannelRing ChannelRefine ChannelRun AsyncMutex AsyncMutexRun AsyncMutexProps WaitGroup Uring Engine EngineProps Context Program ProgramInv ProgramRun ProgramIo ProgramTurn Dispatcher Scheduler System.

Open Scope Z_scope.

(** ** The tasks *)

(** Nothing is awaited but [yield], reads and writes. *)
#[export] Instance nonblocking {T} : Discipline T := {|
  mutex_set := ∅;
  mutex_set_null := not_elem_of_empty _;
  allowed := λ _ o, match o with OSend _ | OReceive | OLock _ | OWait => False | _ => True end;
|}.

Section kind.
Context {U : Type} `{!Liburing U} {T : Type} (moved_from : T → T) (kStats : bool).
Implicit Types (P : prog_world T).

Inductive script_call (h : handle) P : prog_world T → Prop :=
| script_call_intro s :
    h ≠ null → pg_coros P !! h = None → script_ok [] s → Z.of_nat (size (pg_coros P)) < 2 ^ 64 - 1 →
    script_call h P (with_coro h (MkCoro (PStart s) []) P).

Definition scripts_of : task_kind U (prog_world T) (script T) := {|
  tk_coroutines := script_coroutines moved_from kStats;
  tk_begin := λ _ h, let! s := script_begin moved_from kStats h in ret (Some s);
  tk_part := script_part moved_from kStats;
  tk_ended := place_ended;
  tk_call := script_call;
|}.
End kind.

(** ** What an observer sees *)

Section observed.
Context {U : Type} `{!Liburing U, !LiburingLaws U} {X R : Type} (K : task_kind U X R).
Implicit Types (s : system U X R).

(** The coroutines that wait for a ring. *)
Definition polling s : list handle :=
  map_to_list (rt_contexts (sy_rt s)) ≫= λ p, io_handles (ctx_engine_ (snd p)).

(** Those whose body is running, each on its worker. *)
Definition running_of (p : worker_pc R) : list handle := match p with PTurn h _ _ => [h] | _ => [] end.
Definition running s : list handle := map_to_list (sy_workers s) ≫= λ p, running_of (snd p).

(** Those that worker [c] has: ready, waiting for its ring, in its batch,
    running, and at their end in its hands. *)
Definition worker_has s (c : ptr) : list handle :=
  match rt_contexts (sy_rt s) !! c, sy_workers s !! c with
  | Some x, Some pc => task_queue_ (ctx_engine_ x) ++ io_handles (ctx_engine_ x) ++ batch_of pc ++
      running_of pc ++ ending_of K (sy_tasks s) pc
  | _, _ => []
  end.
End observed.

(** ** The view *)

Inductive phase (R : Type) :=
| FIdle
| FBatch (hs : list handle)
| FRunning (h : handle) (r : R) (hs : list handle)
| FSuspended (h : handle) (hs : list handle) (** [h] is in the queue or with the engine *)
| FEnded (h : handle) (hs : list handle)
| FExited.
Arguments FIdle {R}.
Arguments FBatch {R} hs.
Arguments FRunning {R} h r hs.
Arguments FSuspended {R} h hs.
Arguments FEnded {R} h hs.
Arguments FExited {R}.

Section phase.
Context {R : Type}.
Implicit Types (p : phase R).

Definition fpc p : worker_pc R :=
  match p with
  | FIdle => PIdle
  | FBatch hs => PBatch hs
  | FRunning h r hs => PTurn h r hs
  | FSuspended h hs | FEnded h hs => PResumed h hs
  | FExited => PExited
  end.
Definition fbatch p : list handle :=
  match p with FBatch hs | FRunning _ _ hs | FSuspended _ hs | FEnded _ hs => hs | _ => [] end.
(** What is in the worker's hands: the body it is running, or that has ended. *)
Definition fhand p : list handle := match p with FRunning h _ _ | FEnded h _ => [h] | _ => [] end.
Definition fresuming p : Z :=
  match p with FRunning _ _ _ | FSuspended _ _ | FEnded _ _ => 1 | _ => 0 end.
End phase.

Section view.
Context {U : Type} `{!Liburing U, !LiburingLaws U} {R : Type}.

(** A worker's context, and what its thread is at. *)
Abbreviation fworker := (ContextObj U * phase R)%type.
Implicit Types (A : gmap ptr fworker) (a : fworker) (tr : list (ptr * handle)).

(** The coroutines a worker has. *)
Definition held a : list handle :=
  task_queue_ (ctx_engine_ (fst a)) ++ io_handles (ctx_engine_ (fst a)) ++ fbatch (snd a) ++ fhand (snd a).

(** All coroutines; [tr] are those on their way to a context. *)
Definition handles A tr : list handle := (map_to_list A ≫= λ p, held (snd p)) ++ tr.*2.

(** Those at their end. *)
Definition hands A : gset handle := list_to_set (map_to_list A ≫= λ p, fhand (snd (snd p))).

Lemma handles_worker A tr c a : A !! c = Some a → handles A tr ≡ₚ held a ++ handles (delete c A) tr.
Proof.
  intros Ha. unfold handles. rewrite app_assoc. f_equiv. by rewrite <- (map_to_list_delete A c a Ha).
Qed.

Lemma handles_insert A tr c a : handles (<[c := a]> A) tr ≡ₚ held a ++ handles (delete c A) tr.
Proof. etrans; [apply (handles_worker _ _ c a), lookup_insert_eq|]. by rewrite delete_insert_eq. Qed.

Lemma handles_transit A tr1 tr2 p : handles A (tr1 ++ p :: tr2) ≡ₚ snd p :: handles A (tr1 ++ tr2).
Proof. unfold handles. rewrite !fmap_app, fmap_cons. by rewrite <- !Permutation_middle. Qed.

Lemma handles_none A : (∀ c a, A !! c = Some a → held a = []) → handles A [] = [].
Proof.
  intros HA. unfold handles. rewrite app_nil_r. apply elem_of_nil_inv. intros h Hh.
  apply list_elem_of_bind in Hh as ([c a] & Hh & Hin%elem_of_map_to_list).
  cbn [snd] in Hh. rewrite (HA c a Hin) in Hh. by apply not_elem_of_nil in Hh.
Qed.

Lemma handles_nil A tr : handles A tr = [] → tr = [] ∧ ∀ c a, A !! c = Some a → held a = [].
Proof.
  intros H. split.
  - unfold handles in H. apply app_eq_nil in H as [_ H]. by apply fmap_nil_inv in H.
  - intros c a Ha. pose proof (handles_worker A tr c a Ha) as E. rewrite H in E.
    apply Permutation_nil_l in E. symmetry in E. by apply app_eq_nil in E as [? _].
Qed.

Lemma hands_spec A h : h ∈ hands A ↔ ∃ c a, A !! c = Some a ∧ h ∈ fhand (snd a).
Proof.
  unfold hands. rewrite elem_of_list_to_set, list_elem_of_bind. split.
  - intros ([c a] & Hh & Hin%elem_of_map_to_list). by exists c, a.
  - intros (c & a & Ha & Hh). exists (c, a). by rewrite elem_of_map_to_list.
Qed.

Lemma hands_worker A c a : A !! c = Some a → hands A = list_to_set (fhand (snd a)) ∪ hands (delete c A).
Proof.
  intros Ha. apply set_eq. intros h. rewrite elem_of_union, elem_of_list_to_set, !hands_spec. split.
  - intros (c' & a' & Ha' & Hh). destruct (decide (c' = c)) as [->|Hne]; [left; by simplify_eq|].
    right. exists c', a'. by rewrite lookup_delete_ne.
  - intros [Hh|(c' & a' & [_ Ha']%lookup_delete_Some & Hh)]; [by exists c, a|by exists c', a'].
Qed.

Lemma hands_insert A c a : hands (<[c := a]> A) = list_to_set (fhand (snd a)) ∪ hands (delete c A).
Proof. etrans; [apply (hands_worker _ c a), lookup_insert_eq|]. by rewrite delete_insert_eq. Qed.

(** What is in the worker's hands stays there. *)
Lemma hands_same A c a a' : A !! c = Some a → fhand (snd a') = fhand (snd a) → hands (<[c := a']> A) = hands A.
Proof. intros Ha E. by rewrite hands_insert, (hands_worker A c a Ha), E. Qed.

Lemma hands_handles A tr h : h ∈ hands A → h ∈ handles A tr.
Proof.
  rewrite hands_spec. intros (c & a & Ha & Hh). rewrite (handles_worker A tr c a Ha). unfold held.
  rewrite !elem_of_app. tauto.
Qed.
End view.

(** ** What the invariant of tasks says of them *)

Section tasks.
Context {T : Type}.
Implicit Types (P : prog_world T) (f : fifo T).

(** No coroutine is in the queue of a primitive. *)
Lemma nonblocking_free {Aw : Elsewhere} cur act f P : prog_inv cur act f P → blocked f P = [].
Proof.
  intros H. apply elem_of_nil_inv. intros h Hin.
  assert (Hd : ∀ o k, places P h = Some (PAwait o k) → allowed (Discipline := nonblocking) [] o).
  { unfold places. intros o k Hp. destruct (pg_coros P !! h) as [y|] eqn:Hy; [|done]. cbn in Hp.
    injection Hp as Hp. pose proof (pi_coros _ _ _ _ H _ _ Hy) as [_ Ho]. rewrite Hp in Ho.
    by destruct Ho as [[Ha _] _]. }
  unfold blocked in Hin. rewrite !elem_of_app in Hin. destruct Hin as [Hin|[Hin|Hin]].
  - destruct (waiting_senders f _ h (pi_chan _ _ _ _ H) Hin) as [(v & k & E)|(k & E)]; by apply Hd in E.
  - apply mutex_waiting_elem in Hin as (m & y & Hy & _).
    assert (Hm : m ∈ dom (mutexes (pg_mutex P))) by (apply elem_of_dom; by eexists).
    rewrite (pi_mutexes _ _ _ _ H) in Hm. by apply not_elem_of_empty in Hm.
  - destruct (pi_waits _ _ _ _ H _ Hin) as [k E]. by apply Hd in E.
Qed.

Lemma nonblocking_keys {Aw : Elsewhere} cur act f P : prog_inv cur act f P → act ≡ₚ (map_to_list (pg_coros P)).*1.
Proof. intros H. rewrite <- (pi_places _ _ _ _ H), (nonblocking_free _ _ _ _ H). by rewrite app_nil_r. Qed.

Lemma alive_length {Aw : Elsewhere} cur act f P : prog_inv cur act f P → alive P = Z.of_nat (length act).
Proof. intros H. unfold alive. rewrite (nonblocking_keys _ _ _ _ H), length_fmap. by rewrite length_map_to_list. Qed.

Lemma act_exists {Aw : Elsewhere} cur act f P h : prog_inv cur act f P → h ∈ act ↔ is_Some (pg_coros P !! h).
Proof.
  intros H. rewrite (nonblocking_keys _ _ _ _ H), list_elem_of_fmap. split.
  - intros ([h' y] & -> & Hy%elem_of_map_to_list). by exists y.
  - intros [y Hy]. exists (h, y). by rewrite elem_of_map_to_list.
Qed.

(** The coroutine [h] goes on with a worker, which then leaves it; the others'
    are in the hands of theirs. *)
Lemma inv_left (E E' : gset handle) h act f P : prog_inv (Aw := E) (Some h) act f P →
  E' = {[h]} ∪ E → prog_inv (Aw := E') None act f P.
Proof.
  intros [H1 H2 H3 H4 H5 H6 H7 H8 H9 H10 H11] ->. split; try done.
  intros h' y Hy. destruct (H10 _ _ Hy) as [Hg Hp]. split; [done|]. unfold elsewhere in *.
  destruct (co_place y); set_solver.
Qed.

Lemma inv_taken (E E' : gset handle) h act f P : prog_inv (Aw := E) None act f P →
  E = {[h]} ∪ E' → prog_inv (Aw := E') (Some h) act f P.
Proof.
  intros [H1 H2 H3 H4 H5 H6 H7 H8 H9 H10 H11] ->. split; try done.
  intros h' y Hy. destruct (H10 _ _ Hy) as [Hg Hp]. split; [done|]. unfold elsewhere in *.
  destruct (co_place y); set_solver.
Qed.
End tasks.
