(* ===== verification/FleetRun.v ===== *)
(** * The fleet: invariant and termination

    The invariant relates a state of the runtime to its view; every step of a
    worker or of a thread in [loop] or [stop] keeps it and brings the runtime
    closer to its end: an operation replaces a body by smaller ones, and between
    turns coroutines move on towards a worker and requests towards their
    answers. *)

From Stdlib Require Import Relation_Operators Lexicographic_Product.
From S2P Require Import Prelude Runtime Channel ChannelSpec ChannelRing ChannelRefine ChannelRun AsyncMutex AsyncMutexRun AsyncMutexProps WaitGroup Uring Engine EngineProps Context MultisetOrder Program ProgramInv ProgramRun ContextProps Responsive ProgramIo ProgramTurn ProgramWork Dispatcher Scheduler SchedulerProps System SystemClose Fleet.

Open Scope Z_scope.

Section run.
Context {U : Type} `{!Liburing U, !LiburingLaws U, !LiburingResponsive U} {T : Type}
  (moved_from : T → T) (kStats : bool).
Implicit Types (A : gmap ptr (ContextObj U * phase (script T))) (a : ContextObj U * phase (script T))
  (P : prog_world T) (s : system U (prog_world T) (script T)) (ops : gmap ptr IoOpAwaiter).

#[local] Abbreviation K := (scripts_of (U := U) moved_from kStats).
#[local] Abbreviation engine a := (ctx_engine_ (fst a)).

(** ** The invariant *)

Definition phase_ok P (stop : bool) a : Prop :=
  match snd a with
  | FRunning h r _ => ∃ gs, pg_coros P !! h = Some (MkCoro PRun gs) ∧ script_ok gs r
  | FSuspended h _ =>
      (∃ o k gs, pg_coros P !! h = Some (MkCoro (PAwait o k) gs)) ∧
      h ∈ task_queue_ (engine a) ++ io_handles (engine a)
  | FEnded h _ => pg_coros P !! h = Some (MkCoro PEnd [])
  | FExited => task_queue_ (engine a) = [] ∧ io_handles (engine a) = [] ∧ stop = true
  | _ => True
  end.

Record fworker_ok ops P (stop : bool) (c : ptr) a : Prop := {
  fw_null : c ≠ null;
  fw_io : io_ok (engine a) ops P;
  fw_tasks : inflight_tasks_ (engine a) = fresuming (snd a);
  fw_stop : ctx_stop_ (fst a) = stop;
  fw_phase : phase_ok P stop a;
}.

Record fleet_inv A s : Prop := {
  fi_local : local_context_ptr (sy_rt s) = null;
  fi_contexts : rt_contexts (sy_rt s) = fst <$> A;
  fi_workers : sy_workers s = (λ a, fpc (snd a)) <$> A;
  fi_ok : ∀ c a, A !! c = Some a →
    fworker_ok (rt_ops (sy_rt s)) (sy_tasks s) (stopping (sy_sched s) (sy_closers s) c) c a;
  fi_targets : Forall (λ p, is_Some (A !! fst p)) (sy_transit s);
  fi_prog : ∃ f, prog_inv (Aw := hands A) None (handles A (sy_transit s)) f (sy_tasks s);
  fi_pending : pending_tasks_ (sy_rt s) = alive (sy_tasks s);
  fi_ops : ∀ h, is_Some (rt_ops (sy_rt s) !! h) → awaits_io (places (sy_tasks s) h);
  fi_closing : closing_ok (dom A) (sy_sched s) (sy_waiting s) (sy_closers s);
  fi_end : accepting_ (sy_sched s) = false → sy_transit s = [];
  fi_left : stop_requested_ (sy_sched s) = false → sy_waiting s = false → pg_coros (sy_tasks s) = ∅;
}.

Lemma fi_context A s c a : fleet_inv A s → A !! c = Some a → rt_contexts (sy_rt s) !! c = Some (fst a).
Proof. intros H Ha. by rewrite (fi_contexts _ _ H), lookup_fmap, Ha. Qed.

Lemma fi_worker A s c pc : fleet_inv A s → sy_workers s !! c = Some pc →
  ∃ a, A !! c = Some a ∧ pc = fpc (snd a).
Proof.
  intros H. rewrite (fi_workers _ _ H), lookup_fmap. destruct (A !! c) as [a|]; [|done].
  intros [= <-]. by exists a.
Qed.

(** A context that is asked to stop gets no more submissions. *)
Lemma fi_stopping A s c : stopping (sy_sched s) (sy_closers s) c = true → fleet_inv A s → sy_transit s = [].
Proof.
  intros Hs H. apply (fi_end _ _ H). destruct (fi_closing _ _ H) as [Hacc _].
  unfold stopping in Hs. destruct (initialized_ (sy_sched s)); [done|].
  destruct (accepting_ (sy_sched s)); [|done]. by destruct Hacc.
Qed.

(** What worker [c] does leaves the others' coroutines alone. *)
Lemma fworker_elsewhere ops ops' P P' stop c a en : fworker_ok ops P stop c a → io_ok en ops' P' →
  (∀ h, h ∈ held a → pg_coros P' !! h = pg_coros P !! h) → fworker_ok ops' P' stop c a.
Proof.
  intros [H1 H2 H3 H4 H5] Hio Hkept. split; try done.
  - eapply io_ok_elsewhere; [exact H2|exact Hio|]. intros h Hh. unfold places. rewrite Hkept; [done|].
    unfold held, io_handles. rewrite !elem_of_app. tauto.
  - unfold phase_ok in *. destruct (snd a) as [| |h r hs|h hs|h hs|] eqn:Ea; try done.
    + rewrite Hkept; [done|]. unfold held. rewrite Ea, !elem_of_app. right. right. right. by left.
    + destruct H5 as [Hp Hin]. rewrite Hkept; [done|]. unfold held. rewrite !elem_of_app in *. tauto.
    + rewrite Hkept; [done|]. unfold held. rewrite Ea, !elem_of_app. right. right. right. by left.
Qed.

(** ** A block of a worker *)

Lemma fleet_worker A s c a a' P' ops' f' : fleet_inv A s → A !! c = Some a →
  fworker_ok ops' P' (stopping (sy_sched s) (sy_closers s) c) c a' →
  prog_inv (Aw := hands (<[c := a']> A)) None (held a' ++ handles (delete c A) (sy_transit s)) f' P' →
  (∀ h, h ∈ handles (delete c A) (sy_transit s) → pg_coros P' !! h = pg_coros (sy_tasks s) !! h) →
  (pg_coros (sy_tasks s) = ∅ → pg_coros P' = ∅) →
  fleet_inv (<[c := a']> A) (MkSystem (sy_sched s)
    (MkRt (<[c := fst a']> (rt_contexts (sy_rt s))) ops' (alive P') null) P'
    (<[c := fpc (snd a')]> (sy_workers s)) (sy_transit s) (sy_waiting s) (sy_closers s)).
Proof.
  intros [I1 I2 I3 I4 I5 I6 I7 I8 I9 I10 I11] Ha Hok Hprog Hkept Hnone.
  assert (Hsome : is_Some (A !! c)) by by eexists.
  split; cbn [sy_rt sy_waiting sy_closers sy_workers sy_transit sy_tasks sy_sched rt_contexts rt_ops
    pending_tasks_ local_context_ptr]; try done.
  - by rewrite I2, fmap_insert.
  - by rewrite I3, fmap_insert.
  - intros c' a0. destruct (decide (c' = c)) as [->|Hne].
    { rewrite lookup_insert_eq. by intros [= <-]. }
    rewrite lookup_insert_ne by done. intros Ha0.
    eapply fworker_elsewhere; [by apply I4|apply (fw_io _ _ _ _ _ Hok)|]. intros h Hh. apply Hkept.
    rewrite (handles_worker _ _ c' a0) by by rewrite lookup_delete_ne. apply elem_of_app. by left.
  - eapply Forall_impl; [exact I5|]. intros p Hp. cbn beta. rewrite lookup_insert_is_Some'. by right.
  - exists f'. eapply inv_perm; [|exact Hprog]. by rewrite handles_insert.
  - intros h Hh. by apply (io_live _ _ _ (fw_io _ _ _ _ _ Hok)).
  - by rewrite dom_insert_lookup_L.
  - intros Hs Hl. by apply Hnone, I11.
Qed.

(** The state as its thread sees it. *)
#[local] Abbreviation at_worker c a s :=
  (at_work c (rt_contexts (sy_rt s)) (fst a) (engine a) (rt_ops (sy_rt s)) (task_queue_ (engine a))
     (alive (sy_tasks s)) (sy_tasks s)).

Lemma fleet_state A s c a : fleet_inv A s → A !! c = Some a →
  (set_local_context c (sy_rt s), sy_tasks s) = at_worker c a s.
Proof.
  intros H Ha. unfold at_work, set_local_context. rewrite (fi_pending _ _ H). rewrite insert_id; [done|].
  rewrite (fi_context _ _ _ _ H Ha). destruct a as [x p]. cbn. destruct x as [i e ? ?]. cbn. by destruct e.
Qed.

Lemma fleet_block {Y} A s c a (m : M (rt_world U * prog_world T) Y) y x' en' ops' q' P' :
  fleet_inv A s → A !! c = Some a →
  m (at_worker c a s) = Ok y (at_work c (rt_contexts (sy_rt s)) x' en' ops' q' (alive P') P') →
  ∀ y' w' P'', on_worker c m (sy_rt s) (sy_tasks s) y' w' P'' ↔
    y' = y ∧ w' = MkRt (<[c := set_engine (set_tasks q' en') x']> (rt_contexts (sy_rt s))) ops' (alive P') null ∧
    P'' = P'.
Proof.
  intros H Ha Hm. unfold on_worker.
  intros y' w' P''. rewrite (fleet_state A s c a H Ha), Hm. split.
  - intros (w1 & [= -> <- ->] & ->). done.
  - intros (-> & -> & ->). eexists. by split.
Qed.

(** A worker between turns, and the coroutines of all others. *)
Lemma fleet_between A s c a : fleet_inv A s → A !! c = Some a → fresuming (snd a) = 0 →
  ∃ f, between (Aw := hands A) (fbatch (snd a) ++ handles (delete c A) (sy_transit s)) (engine a)
    (rt_ops (sy_rt s)) (task_queue_ (engine a)) f (sy_tasks s).
Proof.
  intros H Ha Hr. destruct (fi_prog _ _ H) as [f Hf]. pose proof (fi_ok _ _ H c a Ha) as Hok.
  exists f. split; [split|by rewrite (fw_tasks _ _ _ _ _ Hok)]; [|apply (fw_io _ _ _ _ _ Hok)].
  eapply inv_perm; [|exact Hf]. rewrite (handles_worker A _ c a Ha). unfold held.
  assert (fhand (snd a) = []) as -> by by destruct (snd a). rewrite app_nil_r.
  set (q := task_queue_ _). set (io := io_handles _). set (b := fbatch _). set (R := handles _ _).
  rewrite <- !app_assoc. rewrite (Permutation_app_comm q). rewrite <- !app_assoc.
  rewrite (Permutation_app_comm io). rewrite <- !app_assoc. do 2 f_equiv. apply Permutation_app_comm.
Qed.

(** ** What is left to do *)

Definition phase_rank (p : phase (script T)) : nat :=
  match p with
  | FExited => 0 | FIdle => 1 | FBatch _ => 2 | FSuspended _ _ | FEnded _ _ => 3 | FRunning _ _ _ => 4
  end.
Definition worker_left a : nat :=
  (6 * io_left (engine a) + 5 * length (task_queue_ (engine a)) + 3 * length (fbatch (snd a)) +
   phase_rank (snd a))%nat.
Definition worker_time a : nat := response_time (uring_ (engine a)).
Definition fleet_left A (tr : list (ptr * handle)) (waiting : bool) ks : nat * nat :=
  ((sum_list_with (λ p, worker_left (snd p)) (map_to_list A) + 7 * length tr +
    closing_weight (dom A) waiting ks)%nat,
   sum_list_with (λ p, worker_time (snd p)) (map_to_list A)).

(** [r'] is closer to the end than [r]: a body has become smaller, or the
    bodies are the same and what is between them and the workers has. *)
Definition shorter (r' r : list (script T * bool) * (nat * nat)) : Prop :=
  multiset_lt below (fst r') (fst r) ∨ fst r' ≡ₚ fst r ∧ sooner (snd r') (snd r).

Lemma sooner_wf : well_founded sooner.
Proof. apply wf_slexprod; apply lt_wf. Qed.

Lemma shorter_wf : well_founded shorter.
Proof.
  intros [l n]. revert n. induction l as [l IHl] using (well_founded_induction (multiset_lt_wf _ below_wf)).
  intros n. assert (Hl : ∀ l', l' ≡ₚ l → Acc shorter (l', n)); [|by apply Hl].
  induction n as [n IHn] using (well_founded_induction sooner_wf). intros l' El. constructor.
  intros [l2 n2] [Hlt|[E Hlt]]; cbn in *.
  - apply IHl. by rewrite <- El.
  - apply IHn; [done|]. by rewrite E.
Qed.

(** What is left of the bodies, the running ones included. *)
Definition rest_of (o : option (script T)) : list (script T * bool) :=
  match o with Some r => [(r, true)] | None => [] end.
Definition frest (p : phase (script T)) : list (script T * bool) :=
  match p with FRunning _ r _ => rest_of (Some r) | _ => [] end.
Definition running_bodies A : list (script T * bool) := map_to_list A ≫= λ p, frest (snd (snd p)).
Definition bodies A P : list (script T * bool) := tasks (pg_coros P) ++ running_bodies A.

Lemma bodies_worker A P c a : A !! c = Some a →
  bodies A P ≡ₚ frest (snd a) ++ tasks (pg_coros P) ++ running_bodies (delete c A).
Proof.
  intros Ha. unfold bodies, running_bodies. rewrite <- (map_to_list_delete A c a Ha). cbn. rewrite app_assoc, app_assoc.
  f_equiv. apply Permutation_app_comm.
Qed.

Lemma bodies_insert A P c a :
  bodies (<[c := a]> A) P ≡ₚ frest (snd a) ++ tasks (pg_coros P) ++ running_bodies (delete c A).
Proof. etrans; [apply (bodies_worker _ _ c a), lookup_insert_eq|]. by rewrite delete_insert_eq. Qed.

Lemma bodies_same A P c a a' : A !! c = Some a → frest (snd a') = frest (snd a) →
  bodies (<[c := a']> A) P ≡ₚ bodies A P.
Proof. intros Ha E. by rewrite bodies_insert, (bodies_worker A P c a Ha), E. Qed.

Lemma hand_rest (p : phase (script T)) : fhand p = [] → frest p = [].
Proof. by destruct p. Qed.

Lemma bodies_resting A P : (∀ c a, A !! c = Some a → fhand (snd a) = []) → bodies A P = tasks (pg_coros P).
Proof.
  intros HA. unfold bodies, running_bodies. rewrite <- (app_nil_r (tasks (pg_coros P))) at 2. f_equal. apply elem_of_nil_inv.
  intros t Ht. apply list_elem_of_bind in Ht as ([c a] & Ht & Hin%elem_of_map_to_list).
  cbn [snd] in Ht. rewrite (hand_rest _ (HA c a Hin)) in Ht. by apply not_elem_of_nil in Ht.
Qed.

Definition fleet_rank A s : list (script T * bool) * (nat * nat) :=
  (bodies A (sy_tasks s), fleet_left A (sy_transit s) (sy_waiting s) (sy_closers s)).

(** At most one worker changes, unless all are gone. *)
Definition one_changed A A' : Prop := A' = ∅ ∨ ∃ c, ∀ c', c' ≠ c → A' !! c' = A !! c'.
Definition fleet_advances A s s' : Prop :=
  ∃ A', fleet_inv A' s' ∧ shorter (fleet_rank A' s') (fleet_rank A s) ∧ one_changed A A'.

Lemma advances_insert A s s' c a' : fleet_inv (<[c := a']> A) s' →
  shorter (fleet_rank (<[c := a']> A) s') (fleet_rank A s) → fleet_advances A s s'.
Proof.
  intros H Hs. exists (<[c := a']> A). split_and!; [done..|]. right. exists c. intros c' Hne.
  by rewrite lookup_insert_ne.
Qed.
Lemma advances_same A s s' : fleet_inv A s' → shorter (fleet_rank A s') (fleet_rank A s) → fleet_advances A s s'.
Proof. intros H Hs. exists A. split_and!; [done..|]. right. by exists null. Qed.

Lemma fleet_left_worker A tr l ks c a : A !! c = Some a →
  fleet_left A tr l ks =
    ((worker_left a + (sum_list_with (λ p, worker_left (snd p)) (map_to_list (delete c A)) + 7 * length tr +
      closing_weight (dom A) l ks))%nat,
     (worker_time a + sum_list_with (λ p, worker_time (snd p)) (map_to_list (delete c A)))%nat).
Proof.
  intros Ha. unfold fleet_left. rewrite !(sum_list_with_perm _ _ _ (symmetry (map_to_list_delete A c a Ha))).
  cbn. f_equal. lia.
Qed.

Lemma sooner_spec (a b a' b' : nat) : sooner (a', b') (a, b) ↔ (a' < a ∨ a' = a ∧ b' < b)%nat.
Proof.
  split.
  - intros H. inversion H; subst; auto.
  - intros [H|[-> H]]; [by left|by right].
Qed.

Lemma fleet_left_insert A tr l ks c a a' : A !! c = Some a →
  sooner (worker_left a', worker_time a') (worker_left a, worker_time a) →
  sooner (fleet_left (<[c := a']> A) tr l ks) (fleet_left A tr l ks).
Proof.
  intros Ha Hs. rewrite (fleet_left_worker A tr l ks c a Ha).
  rewrite (fleet_left_worker (<[c := a']> A) tr l ks c a' (lookup_insert_eq _ _ _)).
  rewrite delete_insert_eq, dom_insert_lookup_L by by eexists.
  rewrite sooner_spec in Hs |- *. lia.
Qed.
End run.
