(* ===== verification/FleetSteps.v ===== *)
(** * The fleet: every step keeps the invariant and comes closer to the end *)

From Stdlib Require Import Relation_Operators Lexicographic_Product.
From S2P Require Import Prelude Runtime Channel ChannelSpec ChannelRing ChannelRefine ChannelRun AsyncMutex AsyncMutexRun AsyncMutexProps WaitGroup Uring Engine EngineProps Context MultisetOrder Program ProgramInv ProgramRun ContextProps Responsive ProgramIo ProgramTurn ProgramWork Dispatcher Scheduler SchedulerProps System SystemClose Fleet FleetRun.

Open Scope Z_scope.

Section steps.
Context {U : Type} `{!Liburing U, !LiburingLaws U, !LiburingResponsive U} {T : Type}
  (moved_from : T → T) (kStats : bool).
Implicit Types (A : gmap ptr (ContextObj U * phase (script T))) (a : ContextObj U * phase (script T))
  (P : prog_world T) (s : system U (prog_world T) (script T)) (ops : gmap ptr IoOpAwaiter).

#[local] Abbreviation K := (scripts_of (U := U) moved_from kStats).
#[local] Abbreviation engine a := (ctx_engine_ (fst a)).
#[local] Abbreviation at_worker c a s :=
  (at_work c (rt_contexts (sy_rt s)) (fst a) (engine a) (rt_ops (sy_rt s)) (task_queue_ (engine a))
     (alive (sy_tasks s)) (sy_tasks s)).

(** A worker's block that leaves all bodies as they are: its coroutines move
    between its queue, its batch and its engine. *)
Lemma fleet_moves A s c a x' en' ops' q' p' :
  fleet_inv A s → A !! c = Some a →
  let a' := (set_engine (set_tasks q' en') x', p') in
  io_ok en' ops' (sy_tasks s) → ctx_stop_ x' = ctx_stop_ (fst a) → inflight_tasks_ en' = fresuming p' →
  phase_ok (sy_tasks s) (stopping (sy_sched s) (sy_closers s) c) a' →
  held a' ≡ₚ held a → fhand (snd a) = [] → fhand p' = [] →
  sooner (worker_left a', worker_time a') (worker_left a, worker_time a) →
  fleet_advances A s (MkSystem (sy_sched s)
    (MkRt (<[c := fst a']> (rt_contexts (sy_rt s))) ops' (alive (sy_tasks s)) null) (sy_tasks s)
    (<[c := fpc p']> (sy_workers s)) (sy_transit s) (sy_waiting s) (sy_closers s)).
Proof.
  intros H Ha a' Hio Hst Hn Hph Hheld Hh Hh' Hs. assert (Hend : fhand (snd a') = fhand (snd a)) by by rewrite Hh. destruct (fi_prog _ _ H) as [f Hf].
  pose proof (fi_ok _ _ H c a Ha) as Hok. apply (advances_insert A _ _ c a').
  - eapply (fleet_worker A s c a a' (sy_tasks s) ops' f H Ha); try done.
    + split; try done; [apply (fw_null _ _ _ _ _ Hok)| |cbn; rewrite Hst; apply (fw_stop _ _ _ _ _ Hok)].
      cbn. destruct Hio as [[W1 W2 W3 W4 W5] H2 H3 H4 H5]. by repeat split; try apply H4; try apply H5.
    + rewrite (hands_same A c a a' Ha Hend). eapply inv_perm; [|exact Hf].
      by rewrite (handles_worker A _ c a Ha), Hheld.
  - right. split; [|by apply (fleet_left_insert A _ _ _ c a a')].
    apply (bodies_same A _ c a a' Ha). cbn [snd a']. by rewrite (hand_rest _ Hh), (hand_rest _ Hh').
Qed.

Lemma io_ok_tasks (en : Engine U) ops P q : io_ok (set_tasks q en) ops P ↔ io_ok en ops P.
Proof. split; intros [[W1 W2 W3 W4 W5] H2 H3 H4 H5]; (split; [split|..]); done. Qed.

Lemma fleet_pop A s c n batch w' t' : fleet_inv A s → sy_workers s !! c = Some PIdle →
  on_worker c (worker_pop c) (sy_rt s) (sy_tasks s) (n, batch) w' t' → n ≠ 0%nat →
  fleet_advances A s (MkSystem (sy_sched s) w' t' (<[c := PBatch batch]> (sy_workers s))
    (sy_transit s) (sy_waiting s) (sy_closers s)).
Proof.
  intros H Hpc Hon Hn. destruct (fi_worker _ _ _ _ H Hpc) as (a & Ha & Ep).
  pose proof (fi_ok _ _ H c a Ha) as Hok. destruct a as [x p]. destruct p; try discriminate Ep. cbn [fst snd] in *.
  pose proof (work_pop_ok c (rt_contexts (sy_rt s)) x (ctx_engine_ x) (rt_ops (sy_rt s))
    (task_queue_ (ctx_engine_ x)) (sy_tasks s)) as E.
  apply (fleet_block A s c _ _ _ _ _ _ _ _ H Ha E) in Hon as (En & -> & ->). injection En as -> ->.
  set (q := task_queue_ (ctx_engine_ x)) in *.
  assert (Hq : q ≠ []) by (intros Eq; by rewrite Eq in Hn).
  assert (Hb : popped x q = take kProcessBatchSize q) by (unfold popped; by destruct q).
  rewrite Hb. eapply (fleet_moves A s c _ _ _ _ _ (FBatch (take kProcessBatchSize q)) H Ha); try done.
  - apply (fw_io _ _ _ _ _ Hok).
  - apply (fw_tasks _ _ _ _ _ Hok).
  - unfold held. cbn [fst snd set_engine ctx_engine_ fbatch fhand task_queue_ set_tasks]. fold q.
    change (io_handles (set_tasks (drop kProcessBatchSize q) (ctx_engine_ x))) with (io_handles (ctx_engine_ x)).
    rewrite !app_nil_r, (Permutation_app_comm (io_handles _)), app_assoc.
    rewrite (Permutation_app_comm (drop _ q)), take_drop. done.
  - apply sooner_spec. left. unfold worker_left.
    cbn [fst snd set_engine ctx_engine_ fbatch fhand task_queue_ set_tasks phase_rank length]. fold q.
    change (io_left (set_tasks (drop kProcessBatchSize q) (ctx_engine_ x))) with (io_left (ctx_engine_ x)).
    pose proof (f_equal length (take_drop kProcessBatchSize q)) as El. rewrite length_app in El.
    assert (0 < length (take kProcessBatchSize q))%nat by (by destruct q; [|cbn; lia]). lia.
Qed.

Lemma set_tasks_same (en : Engine U) : set_tasks (task_queue_ en) en = en.
Proof. by destruct en. Qed.
Lemma set_engine_same (x : ContextObj U) : set_engine (ctx_engine_ x) x = x.
Proof. by destruct x. Qed.

Lemma fleet_poll A s c b w' t' : fleet_inv A s → sy_workers s !! c = Some PIdle →
  io_awaited c (sy_rt s) → on_worker c (worker_poll c) (sy_rt s) (sy_tasks s) b w' t' →
  fleet_advances A s (MkSystem (sy_sched s) w' t' (sy_workers s) (sy_transit s) (sy_waiting s) (sy_closers s)).
Proof.
  intros H Hpc (y & Hy & Hn) Hon. destruct (fi_worker _ _ _ _ H Hpc) as (a & Ha & Ep).
  pose proof (fi_ok _ _ H c a Ha) as Hok. rewrite (fi_context _ _ _ _ H Ha) in Hy. injection Hy as <-.
  destruct (fleet_between A s c a H Ha ltac:(by destruct (snd a))) as [f Hf].
  destruct a as [x p]. destruct p; try discriminate Ep. cbn [fst snd] in *.
  destruct (poll_ok c (fw_null _ _ _ _ _ Hok) (rt_contexts (sy_rt s)) x _ _ _ _ _ _ Hf)
    as (r & en' & ops' & q' & E & Hq & H' & Hperm & Hlen & Hcase).
  assert (Ep' : worker_poll c (at_work c (rt_contexts (sy_rt s)) x (ctx_engine_ x) (rt_ops (sy_rt s))
    (task_queue_ (ctx_engine_ x)) (alive (sy_tasks s)) (sy_tasks s)) = Ok (r >? 0)
      (at_work c (rt_contexts (sy_rt s)) x en' ops' q' (alive (sy_tasks s)) (sy_tasks s))).
  { unfold worker_poll, poll_io_once. by rewrite (bind_ok _ _ _ _ _ E). }
  apply (fleet_block A s c _ _ _ _ _ _ _ _ H Ha Ep') in Hon as (_ & -> & ->).
  assert (Hne : io_handles (ctx_engine_ x) ≠ []).
  { intros En. apply Hn. rewrite (inflight_count (ctx_engine_ x) _ _ (fw_io _ _ _ _ _ Hok)). by rewrite En. }
  destruct Hcase as [[_ Hs]|[? _]]; [|done].
  rewrite <- (insert_id (sy_workers s) c PIdle Hpc) at 1.
  eapply (fleet_moves A s c _ _ _ _ _ FIdle H Ha); try done.
  - apply (wi_io _ _ _ _ _ _ _ (bt_work _ _ _ _ _ _ H')).
  - apply (bt_tasks _ _ _ _ _ _ H').
  - unfold held. cbn [fst snd set_engine ctx_engine_ fbatch fhand task_queue_ set_tasks].
    change (io_handles (set_tasks q' en')) with (io_handles en'). rewrite !app_nil_r. by symmetry.
  - unfold io_time in Hs. apply sooner_spec in Hs. apply sooner_spec. unfold worker_left, worker_time.
    cbn [fst snd set_engine ctx_engine_ fbatch fhand task_queue_ set_tasks phase_rank length uring_].
    change (io_left (set_tasks q' en')) with (io_left en'). lia.
Qed.

Lemma fleet_batch_end A s c : fleet_inv A s → sy_workers s !! c = Some (PBatch []) →
  fleet_advances A s (MkSystem (sy_sched s) (sy_rt s) (sy_tasks s) (<[c := PIdle]> (sy_workers s))
    (sy_transit s) (sy_waiting s) (sy_closers s)).
Proof.
  intros H Hpc. destruct (fi_worker _ _ _ _ H Hpc) as (a & Ha & Ep).
  pose proof (fi_ok _ _ H c a Ha) as Hok. pose proof (fi_context _ _ _ _ H Ha) as Hx.
  destruct a as [x p]. destruct p as [|[|]| | | |]; try discriminate Ep. cbn [fst snd] in *.
  assert (Ew : sy_rt s = MkRt (<[c := set_engine (set_tasks (task_queue_ (ctx_engine_ x)) (ctx_engine_ x)) x]>
    (rt_contexts (sy_rt s))) (rt_ops (sy_rt s)) (alive (sy_tasks s)) null).
  { rewrite set_tasks_same, set_engine_same, insert_id by done.
    rewrite <- (fi_pending _ _ H), <- (fi_local _ _ H). by destruct (sy_rt s). }
  rewrite Ew at 1. eapply (fleet_moves A s c _ _ _ _ _ FIdle H Ha);
    rewrite ?set_tasks_same, ?set_engine_same; try done.
  - apply (fw_io _ _ _ _ _ Hok).
  - apply (fw_tasks _ _ _ _ _ Hok).
  - apply sooner_spec. left. unfold worker_left. cbn [fst snd fbatch length phase_rank]. lia.
Qed.

(** ** Turns *)

(** A coroutine of a worker is not another's. *)
Lemma fleet_own A s c a f h : prog_inv (Aw := hands A) None (handles A (sy_transit s)) f (sy_tasks s) →
  A !! c = Some a → h ∈ held a → h ∉ handles (delete c A) (sy_transit s) ∧ h ∉ hands (delete c A).
Proof.
  intros H Ha Hh. pose proof (inv_nodup (Aw := hands A) _ _ _ _ H) as Hnd.
  rewrite (handles_worker A _ c a Ha) in Hnd. apply NoDup_app in Hnd as [Hnd _].
  apply NoDup_app in Hnd as (_ & Hn & _). specialize (Hn h Hh). split; [done|].
  intros Hin. by apply Hn, hands_handles.
Qed.

(** The coroutine at the head of a batch or in the hands of worker [c], which
    has [hs] left. *)
Definition current a h hs : Prop := fbatch (snd a) = h :: hs ∨ fbatch (snd a) = hs ∧ fhand (snd a) = [h].

Lemma current_held a h hs : current a h hs → h ∈ held a.
Proof. unfold held. rewrite !elem_of_app. intros [->|[_ ->]]; [right; right; left|do 3 right]; by left. Qed.

(** The coroutine [h] of worker [c] has run on, or its turn is over. *)
Definition after_part A s c h hs (o : option (script T)) (en : Engine U) ops q f P : Prop :=
  inflight_tasks_ en = 1 ∧ others_kept h (sy_tasks s) P ∧
  let R := hs ++ handles (delete c A) (sy_transit s) in
  match o with
  | Some r => runs (Aw := hands (delete c A)) h R r en ops q f P
  | None => rests (Aw := hands (delete c A)) h R en ops q f P
  end.

(** The worker's place then. *)
Lemma part_phase A s c h hs o en ops q f P : h ∉ hs ++ handles (delete c A) (sy_transit s) →
  after_part A s c h hs o en ops q f P →
  ∃ p, fpc p = pc_after h hs o ∧ fbatch p = hs ∧ frest p = rest_of o ∧ fresuming p = 1 ∧
    (∀ x stop, phase_ok P stop (set_engine (set_tasks q en) x, p)) ∧ io_ok en ops P ∧
    prog_inv (Aw := list_to_set (fhand p) ∪ hands (delete c A)) None
      ((q ++ io_handles en ++ hs ++ fhand p) ++ handles (delete c A) (sy_transit s)) f P.
Proof.
  set (E := hands (delete c A)). intros Hnot (Hi & Hoth & Hcase). destruct o as [r|]; cbn in Hcase.
  - destruct Hcase as [[H Hio] (gs & Hh & Hok)]. exists (FRunning h r hs).
    split_and!; [done..|intros; by exists gs|done|]. eapply (inv_left E _ h); [|cbn; by rewrite union_empty_r_L].
    eapply inv_perm; [|exact H]. cbn. solve_Permutation.
  - destruct Hcase as [[Hh [H Hio]]|[(o & k & gs & Hh) [H Hio]]].
    + exists (FEnded h hs). split_and!; [done..|]. eapply (inv_left E _ h); [|cbn; by rewrite union_empty_r_L].
      eapply inv_perm; [|exact H]. cbn. solve_Permutation.
    + exists (FSuspended h hs). split_and!; [done..| |done|].
      * intros x stop. split; [by exists o, k, gs|]. cbn.
        change (io_handles (set_tasks q en)) with (io_handles en).
        assert (Hin : h ∈ ((hs ++ handles (delete c A) (sy_transit s)) ++ io_handles en) ++ q)
          by (apply (act_exists (Aw := E) _ _ _ _ _ H); by eexists).
        apply elem_of_app in Hin as [[Hin|Hin]%elem_of_app|Hin]; [done|..]; apply elem_of_app; [by right|by left].
      * eapply inv_perm; [|cbn; rewrite union_empty_l_L; exact H]. rewrite app_nil_r. solve_Permutation.
Qed.
(** It is in no other place. *)
Lemma current_once A s c a h hs : fleet_inv A s → A !! c = Some a → current a h hs →
  h ∉ hs ++ handles (delete c A) (sy_transit s) ∧ h ∉ hands (delete c A) ∧ is_Some (pg_coros (sy_tasks s) !! h).
Proof.
  intros H Ha Hcur. destruct (fi_prog _ _ H) as [f Hf]. pose proof (current_held _ _ _ Hcur) as Hh.
  destruct (fleet_own A s c a f h Hf Ha Hh) as [HR HE]. split_and!; [|done|].
  - rewrite elem_of_app. intros [Hin|?]; [|done].
    pose proof (inv_nodup (Aw := hands A) _ _ _ _ Hf) as [Hnd _]%NoDup_app.
    rewrite (handles_worker A _ c a Ha) in Hnd. apply NoDup_app in Hnd as [Hnd _]. unfold held in Hnd.
    apply NoDup_app in Hnd as (_ & _ & Hnd). apply NoDup_app in Hnd as (_ & _ & Hnd).
    destruct Hcur as [E|[E1 E2]]; [rewrite E in Hnd; by apply NoDup_app in Hnd as [[? _]%NoDup_cons _]|].
    rewrite E1, E2 in Hnd. apply NoDup_app in Hnd as (_ & Hn & _). apply (Hn h Hin). by left.
  - apply (act_exists (Aw := hands A) _ _ _ _ _ Hf). rewrite (handles_worker A _ c a Ha). apply elem_of_app. by left.
Qed.

(** The runtime after it. *)
Lemma fleet_part A s c a h hs o en ops q f P : fleet_inv A s → A !! c = Some a → current a h hs →
  after_part A s c h hs o en ops q f P →
  ∃ p, let a' := (set_engine (set_tasks q en) (fst a), p) in
    fpc p = pc_after h hs o ∧ frest p = rest_of o ∧
    fleet_inv (<[c := a']> A) (MkSystem (sy_sched s)
      (MkRt (<[c := fst a']> (rt_contexts (sy_rt s))) ops (alive P) null) P
      (<[c := pc_after h hs o]> (sy_workers s)) (sy_transit s) (sy_waiting s) (sy_closers s)).
Proof.
  intros H Ha Hcur Hpart. destruct (current_once A s c a h hs H Ha Hcur) as (Hnot & _ & [y Hy]).
  pose proof (fi_ok _ _ H c a Ha) as Hok. destruct Hpart as (Hi & Hoth & Hcase) eqn:Epart. clear Epart.
  destruct (part_phase A s c h hs o en ops q f P Hnot (conj Hi (conj Hoth Hcase)))
    as (p & Epc & Eb & Er & En & Hph & Hio & Hf). exists p. intros a'. split_and!; [done..|]. rewrite <- Epc.
  eapply (fleet_worker A s c a a' P ops f H Ha).
  - split; [apply (fw_null _ _ _ _ _ Hok)|by apply io_ok_tasks|cbn; by rewrite En|apply (fw_stop _ _ _ _ _ Hok)|apply Hph].
  - rewrite hands_insert. unfold held, a'. cbn [fst snd set_engine ctx_engine_ task_queue_ set_tasks].
    change (io_handles (set_tasks q en)) with (io_handles en). by rewrite Eb.
  - intros h' Hin. apply Hoth; [intros ->; apply Hnot; set_solver|].
    destruct (fi_prog _ _ H) as [f0 Hf0]. apply (act_exists (Aw := hands A) _ _ _ _ _ Hf0).
    rewrite (handles_worker A _ c a Ha). apply elem_of_app. by right.
  - intros E0. by rewrite E0, lookup_empty in Hy.
Qed.

(** The coroutine at the head of the batch is resumed. *)
Lemma fleet_begin A s c a h hs fuel : fleet_inv A s → A !! c = Some a → snd a = FBatch (h :: hs) →
  ∃ t ts r ops q f P, let en := set_inflight_tasks 1 (engine a) in
    tasks (pg_coros (sy_tasks s)) ≡ₚ t :: ts ∧ (t = (r, true) ∧ q = task_queue_ (engine a) ∨ part_of r (fst t)) ∧
    worker_resume K fuel c h (at_worker c a s) =
      Ok (Some r) (at_work c (rt_contexts (sy_rt s)) (fst a) en ops q (alive P) P) ∧
    tasks (pg_coros P) ≡ₚ ts ∧ after_part A s c h hs (Some r) en ops q f P.
Proof.
  intros H Ha Ep. pose proof (fi_ok _ _ H c a Ha) as Hok.
  destruct (fleet_between A s c a H Ha ltac:(by rewrite Ep)) as [f0 Hf]. rewrite Ep in Hf.
  destruct (current_once A s c a h hs H Ha ltac:(left; by rewrite Ep)) as (_ & HE & _).
  assert (EE : hands A = hands (delete c A)) by (rewrite (hands_worker A c _ Ha), Ep; cbn; apply (left_id_L ∅ (∪))).
  rewrite EE in Hf. pose proof (fw_null _ _ _ _ _ Hok) as Hc.
  destruct (resume_begin_ok (Aw := hands (delete c A)) c (rt_contexts (sy_rt s)) (fst a) h _ _ _ _ f0 _ Hf) as [E1 H1].
  destruct (begin_ok (Aw := hands (delete c A)) moved_from kStats c Hc (rt_contexts (sy_rt s)) (fst a) h _ _ _ _ f0 _ H1 HE)
    as (t & ts & r & ops & q & f & P & Et & Hp & E & Et' & Hoth & Hr).
  exists t, ts, r, ops, q, f, P. intros en. split_and!; [done..| |done|by split_and!].
  unfold worker_resume. rewrite (bind_ok _ _ _ _ _ E1). cbn [tk_begin scripts_of]. by rewrite (bind_ok _ _ _ _ _ E).
Qed.

Lemma fleet_resume A s c h hs fuel o w' t' : fleet_inv A s → sy_workers s !! c = Some (PBatch (h :: hs)) →
  on_worker c (worker_resume K fuel c h) (sy_rt s) (sy_tasks s) o w' t' →
  fleet_advances A s (MkSystem (sy_sched s) w' t' (<[c := pc_after h hs o]> (sy_workers s))
    (sy_transit s) (sy_waiting s) (sy_closers s)).
Proof.
  intros H Hpc Hon. destruct (fi_worker _ _ _ _ H Hpc) as (a & Ha & Ep).
  assert (Ep' : snd a = FBatch (h :: hs)) by (destruct (snd a); cbn in Ep; congruence).
  destruct (fleet_begin A s c a h hs fuel H Ha Ep') as (t & ts & r & ops & q & f & P & Et & Hp & E & Et' & Hpart).
  apply (fleet_block A s c _ (worker_resume K fuel c h) _ _ _ _ _ _ H Ha E) in Hon. destruct Hon as (-> & -> & ->).
  destruct (fleet_part A s c a h hs _ _ _ _ _ _ H Ha ltac:(left; by rewrite Ep') Hpart) as (p & Epc & Er & HI).
  apply (advances_insert A _ _ c _ HI). unfold fleet_rank. cbn [sy_tasks sy_transit sy_waiting sy_closers].
  set (O := running_bodies (delete c A)).
  assert (E0 : bodies A (sy_tasks s) ≡ₚ t :: ts ++ O) by by rewrite (bodies_worker A _ c a Ha), Ep', Et.
  assert (E1 : bodies (<[c := (set_engine (set_tasks q (set_inflight_tasks 1 (engine a))) (fst a), p)]> A) P ≡ₚ
    (r, true) :: ts ++ O) by by rewrite bodies_insert, Et'; cbn [snd]; rewrite Er.
  destruct Hp as [[-> ->]|Hp]; [right|left]; cbn [fst snd].
  - split; [by rewrite E0, E1|]. apply (fleet_left_insert A _ _ _ c a _ Ha), sooner_spec. left.
    unfold worker_left. cbn [fst snd set_engine ctx_engine_ task_queue_ set_tasks].
    change (io_left (set_tasks _ (set_inflight_tasks 1 (engine a)))) with (io_left (engine a)). rewrite Ep'.
    destruct p; try discriminate Epc. injection Epc as -> -> ->. cbn. lia.
  - exists t, [(r, true)], (ts ++ O). split_and!; [done..|]. apply Forall_singleton. left. by apply tc_once.
Qed.

(** The body in the worker's hands. *)
Lemma fleet_running A s c a h r hs : fleet_inv A s → A !! c = Some a → snd a = FRunning h r hs →
  ∃ f, inflight_tasks_ (engine a) = 1 ∧
    runs (Aw := hands (delete c A)) h (hs ++ handles (delete c A) (sy_transit s)) r (engine a)
      (rt_ops (sy_rt s)) (task_queue_ (engine a)) f (sy_tasks s).
Proof.
  intros H Ha Ep. pose proof (fi_ok _ _ H c a Ha) as Hok. destruct (fi_prog _ _ H) as [f Hf]. exists f.
  pose proof (fw_tasks _ _ _ _ _ Hok) as Hi. pose proof (fw_phase _ _ _ _ _ Hok) as Hp. unfold phase_ok in Hp.
  pose proof (handles_worker A (sy_transit s) c a Ha) as Hperm. unfold held in Hperm. rewrite Ep in *.
  split; [done|]. split; [|done]. split; [|apply (fw_io _ _ _ _ _ Hok)].
  eapply inv_perm; [|eapply (inv_taken _ _ h); [exact Hf|]].
  - rewrite Hperm. cbn. solve_Permutation.
  - rewrite (hands_worker A c a Ha), Ep. cbn. by rewrite union_empty_r_L.
Qed.

Lemma fleet_run A s c h r hs o w' t' : fleet_inv A s → sy_workers s !! c = Some (PTurn h r hs) →
  on_worker c (worker_run K h r) (sy_rt s) (sy_tasks s) o w' t' →
  fleet_advances A s (MkSystem (sy_sched s) w' t' (<[c := pc_after h hs o]> (sy_workers s))
    (sy_transit s) (sy_waiting s) (sy_closers s)).
Proof.
  intros H Hpc Hon. destruct (fi_worker _ _ _ _ H Hpc) as (a & Ha & Ep).
  assert (Ep' : snd a = FRunning h r hs) by (destruct (snd a); cbn in Ep; congruence).
  pose proof (fw_null _ _ _ _ _ (fi_ok _ _ H c a Ha)) as Hc.
  destruct (fleet_running A s c a h r hs H Ha Ep') as (f0 & Hi & Hr).
  destruct (part_ok (Aw := hands (delete c A)) moved_from kStats c Hc (rt_contexts (sy_rt s)) (fst a) r h _ _ _ _ f0 _ Hr)
    as (o' & en & ops & q & f & P & ys & E & Hi' & Hys & Et & Hoth & Hcase).
  apply (fleet_block A s c _ (worker_run K h r) _ _ _ _ _ _ H Ha E) in Hon. destruct Hon as (-> & -> & ->).
  assert (Hpart : after_part A s c h hs o' en ops q f P).
  { split_and!; [by rewrite Hi'|done|]. destruct o'; [by destruct Hcase|done]. }
  destruct (fleet_part A s c a h hs _ _ _ _ _ _ H Ha ltac:(right; by rewrite Ep') Hpart) as (p & Epc & Er & HI).
  apply (advances_insert A _ _ c _ HI). left. unfold fleet_rank. cbn [fst sy_tasks].
  exists (r, true), (rest_of o' ++ ys), (tasks (pg_coros (sy_tasks s)) ++ running_bodies (delete c A)). split_and!.
  - by rewrite (bodies_worker A _ c a Ha), Ep'.
  - rewrite bodies_insert, Et. cbn [snd]. by rewrite Er, <- !app_assoc.
  - apply Forall_app. split; [|done]. destruct o' as [r'|]; [|constructor]. destruct Hcase as [Hp _].
    apply Forall_singleton. left. by apply tc_once.
Qed.

(** A coroutine that has come back. *)
Lemma fleet_back A s c a h hs : fleet_inv A s → A !! c = Some a → snd a = FSuspended h hs ∨ snd a = FEnded h hs →
  ∃ f, inflight_tasks_ (engine a) = 1 ∧
    rests (Aw := hands (delete c A)) h (hs ++ handles (delete c A) (sy_transit s)) (engine a) (rt_ops (sy_rt s))
      (task_queue_ (engine a)) f (sy_tasks s) ∧
    h ∉ handles (delete c A) (sy_transit s).
Proof.
  intros H Ha Ep. pose proof (fi_ok _ _ H c a Ha) as Hok. destruct (fi_prog _ _ H) as [f Hf]. exists f.
  assert (EE : hands A = list_to_set (fhand (snd a)) ∪ hands (delete c A)) by by apply hands_worker.
  assert (Hh : h ∈ held a).
  { pose proof (fw_phase _ _ _ _ _ Hok) as Hp. unfold phase_ok in Hp. unfold held. rewrite !elem_of_app.
    destruct Ep as [Ep|Ep]; rewrite Ep in *; [destruct Hp as [_ Hp]; apply elem_of_app in Hp; tauto|].
    right. right. right. by left. }
  destruct (fleet_own A s c a f h Hf Ha Hh) as [HhR Hhe]. split_and!; [|  |done].
  { rewrite (fw_tasks _ _ _ _ _ Hok). by destruct Ep as [-> | ->]. }
  pose proof (fw_phase _ _ _ _ _ Hok) as Hp. pose proof (fw_io _ _ _ _ _ Hok) as Hio.
  unfold phase_ok in Hp. pose proof (handles_worker A (sy_transit s) c a Ha) as Hperm. unfold held in Hperm.
  destruct Ep as [Ep|Ep]; rewrite Ep in *; cbn [fbatch fhand list_to_set] in *.
  - right. destruct Hp as [Hp _]. split; [done|]. split; [|done].
    rewrite union_empty_l_L in EE. rewrite <- EE.
    eapply inv_perm; [|exact Hf]. rewrite Hperm, app_nil_r. solve_Permutation.
  - left. split; [done|]. split; [|done]. eapply inv_perm; [|eapply inv_taken; [exact Hf|]].
    + rewrite Hperm. cbn. solve_Permutation.
    + rewrite EE. by rewrite union_empty_r_L.
Qed.

Lemma fleet_finish A s c h hs w' t' : fleet_inv A s → sy_workers s !! c = Some (PResumed h hs) →
  on_worker c (worker_finish K c h) (sy_rt s) (sy_tasks s) tt w' t' →
  fleet_advances A s (MkSystem (sy_sched s) w' t' (<[c := PBatch hs]> (sy_workers s))
    (sy_transit s) (sy_waiting s) (sy_closers s)).
Proof.
  intros H Hpc Hon. destruct (fi_worker _ _ _ _ H Hpc) as (a & Ha & Ep).
  destruct (fleet_back A s c a h hs H Ha) as (f & Hi & Hrest & HhR); [destruct (snd a); cbn in Ep; simplify_eq; auto|].
  pose proof (fi_ok _ _ H c a Ha) as Hok.
  destruct (turn_finish_ok (Aw := hands (delete c A)) moved_from kStats c (fw_null _ _ _ _ _ Hok)
    (rt_contexts (sy_rt s)) (fst a) h _ _ _ _ f (sy_tasks s) Hrest Hi) as (f' & P' & E & Hf' & Et & EC).
  apply (fleet_block A s c _ (worker_finish K c h) _ _ _ _ _ _ H Ha E) in Hon. destruct Hon as (_ & -> & ->).
  set (en' := set_inflight_tasks 0 (engine a)) in *.
  set (a' := (set_engine (set_tasks (task_queue_ (engine a)) en') (fst a), FBatch hs : phase (script T))).
  apply (advances_insert A _ _ c a').
  - eapply (fleet_worker A s c a a' P' _ f' H Ha); try done.
    + split; try done; [apply (fw_null _ _ _ _ _ Hok)| |apply (fw_stop _ _ _ _ _ Hok)].
      apply io_ok_tasks, (wi_io (Aw := hands (delete c A)) _ _ _ _ _ _ _ (bt_work (Aw := hands (delete c A)) _ _ _ _ _ _ Hf')).
    + rewrite hands_insert. cbn. rewrite (left_id_L ∅ (∪)).
      eapply inv_perm; [|exact (wi_prog (Aw := hands (delete c A)) _ _ _ _ _ _ _
        (bt_work (Aw := hands (delete c A)) _ _ _ _ _ _ Hf'))].
      unfold held, a'. cbn. rewrite app_nil_r.
      change (io_handles (set_tasks (task_queue_ (engine a)) en')) with (io_handles en'). solve_Permutation.
    + intros h' Hin. rewrite EC. destruct (place_ended _ _); [|done]. apply lookup_delete_ne. by intros ->.
    + intros E0. rewrite EC, E0. destruct (place_ended _ _); [apply delete_empty|done].
  - right. split.
    { unfold fleet_rank. cbn [fst sy_tasks]. rewrite bodies_insert, (bodies_worker A _ c a Ha), Et. by destruct (snd a). }
    apply (fleet_left_insert A _ _ _ c a a' Ha). apply sooner_spec. left.
    unfold worker_left, a'. cbn [fst snd fbatch phase_rank set_engine ctx_engine_ task_queue_ set_tasks].
    change (io_left (set_tasks (task_queue_ (engine a)) en')) with (io_left (engine a)).
    destruct (snd a); cbn in Ep |- *; simplify_eq; lia.
Qed.

(** ** Leaving the loop *)

(** An iteration of a worker that has a coroutine ready goes on. *)
Lemma iteration_ready c contexts x en ops q P o : q ≠ [] →
  worker_iteration K c (at_work c contexts x en ops q (alive P) P) ≠ Ok RunBreak o.
Proof.
  intros Hq. unfold worker_iteration, run_iteration, noexcept. unfold bind at 1.
  rewrite process_work_once_parts, (bind_ok _ _ _ _ _ (work_pop_ok c contexts x en ops q P)).
  cbn [fst snd]. assert (Nat.eqb (length (take kProcessBatchSize q)) 0 = false) as -> by by destruct q.
  unfold bind at 1. by destruct (for_each _ _ _).
Qed.

Lemma fleet_exit A s c w' t' : fleet_inv A s → sy_workers s !! c = Some PIdle →
  on_worker c (worker_iteration K c) (sy_rt s) (sy_tasks s) RunBreak w' t' →
  fleet_advances A s (MkSystem (sy_sched s) w' t' (<[c := PExited]> (sy_workers s))
    (sy_transit s) (sy_waiting s) (sy_closers s)).
Proof.
  intros H Hpc Hon. destruct (fi_worker _ _ _ _ H Hpc) as (a & Ha & Ep).
  pose proof (fi_ok _ _ H c a Ha) as Hok.
  destruct (fleet_between A s c a H Ha ltac:(by destruct (snd a))) as [f Hf].
  destruct a as [x p]. destruct p; try discriminate Ep. cbn [fst snd] in *.
  destruct (decide (task_queue_ (ctx_engine_ x) = [])) as [Hq|Hq].
  2: { exfalso. destruct Hon as (w1 & Hon & _). revert Hon.
       rewrite (fleet_state A s c _ H Ha). by apply iteration_ready. }
  rewrite Hq in Hf.
  destruct (iteration_ok moved_from kStats c (fw_null _ _ _ _ _ Hok) (rt_contexts (sy_rt s)) x _ _ _ _ _ Hf)
    as (next & en' & ops' & q' & E & Hq' & H' & Hperm & Hlen & Hnext & _).
  assert (E' : worker_iteration K c (at_work c (rt_contexts (sy_rt s)) x (ctx_engine_ x) (rt_ops (sy_rt s))
    (task_queue_ (ctx_engine_ x)) (alive (sy_tasks s)) (sy_tasks s)) = Ok next
      (at_work c (rt_contexts (sy_rt s)) x en' ops' q' (alive (sy_tasks s)) (sy_tasks s))) by by rewrite Hq.
  apply (fleet_block A s c _ (worker_iteration K c) _ _ _ _ _ _ H Ha E') in Hon. destruct Hon as (<- & -> & ->).
  destruct Hnext as [Hst Hn]. rewrite Hn in Hperm. apply Permutation_nil_l in Hperm. symmetry in Hperm.
  apply app_eq_nil in Hperm as [-> Hn'].
  eapply (fleet_moves A s c _ _ _ _ _ FExited H Ha); try done.
  - apply (wi_io _ _ _ _ _ _ _ (bt_work _ _ _ _ _ _ H')).
  - apply (bt_tasks _ _ _ _ _ _ H').
  - split_and!; [done|exact Hn'|]. by rewrite <- (fw_stop _ _ _ _ _ Hok).
  - unfold held. cbn [fst snd set_engine ctx_engine_ fbatch fhand task_queue_ set_tasks].
    change (io_handles (set_tasks [] en')) with (io_handles en'). by rewrite Hn', Hq, Hn.
  - apply sooner_spec. left. unfold worker_left.
    cbn [fst snd set_engine ctx_engine_ fbatch fhand task_queue_ set_tasks phase_rank length].
    change (io_left (set_tasks [] en')) with (io_left en'). rewrite (io_left_none en' Hn'). lia.
Qed.

(** ** The next block of a worker *)

Lemma fleet_defined A s c a : fleet_inv A s → A !! c = Some a →
  match snd a with
  | FIdle =>
      (∃ n batch w' t', on_worker c (worker_pop c) (sy_rt s) (sy_tasks s) (n, batch) w' t' ∧
         (n = 0%nat ↔ task_queue_ (engine a) = [])) ∧
      (∃ b w' t', on_worker c (worker_poll c) (sy_rt s) (sy_tasks s) b w' t') ∧
      (task_queue_ (engine a) = [] → ∃ next w' t',
         on_worker c (worker_iteration K c) (sy_rt s) (sy_tasks s) next w' t' ∧
         (next = RunBreak ↔ ctx_stop_ (fst a) = true ∧ io_handles (engine a) = []))
  | FBatch (h :: _) =>
      ∃ r w' t', ∀ fuel, on_worker c (worker_resume K fuel c h) (sy_rt s) (sy_tasks s) (Some r) w' t'
  | FRunning h r _ => ∃ o w' t', on_worker c (worker_run K h r) (sy_rt s) (sy_tasks s) o w' t'
  | FSuspended h _ | FEnded h _ => ∃ w' t', on_worker c (worker_finish K c h) (sy_rt s) (sy_tasks s) tt w' t'
  | _ => True
  end.
Proof.
  intros H Ha. pose proof (fi_ok _ _ H c a Ha) as Hok. pose proof (fw_null _ _ _ _ _ Hok) as Hc.
  destruct (snd a) as [|[|h hs]|h r hs|h hs|h hs|] eqn:Ep; try done.
  - destruct (fleet_between A s c a H Ha ltac:(by rewrite Ep)) as [f Hf]. split_and!.
    + eexists _, _, _, _. split.
      * apply (fleet_block A s c a _ _ _ _ _ _ _ H Ha (work_pop_ok c _ _ _ _ _ _)). by split_and!.
      * destruct (task_queue_ (engine a)); cbn; naive_solver.
    + destruct (poll_ok c Hc (rt_contexts (sy_rt s)) (fst a) _ _ _ _ _ _ Hf) as (r & en' & ops' & q' & E & _).
      assert (E' : worker_poll c (at_work c (rt_contexts (sy_rt s)) (fst a) (engine a) (rt_ops (sy_rt s))
        (task_queue_ (engine a)) (alive (sy_tasks s)) (sy_tasks s)) = Ok (r >? 0)
          (at_work c (rt_contexts (sy_rt s)) (fst a) en' ops' q' (alive (sy_tasks s)) (sy_tasks s))).
      { unfold worker_poll, poll_io_once. by rewrite (bind_ok _ _ _ _ _ E). }
      eexists _, _, _. apply (fleet_block A s c a _ _ _ _ _ _ _ H Ha E'). by split_and!.
    + intros Hq. rewrite Hq in Hf.
      destruct (iteration_ok moved_from kStats c Hc (rt_contexts (sy_rt s)) (fst a) _ _ _ _ _ Hf)
        as (next & en' & ops' & q' & E & _ & _ & _ & _ & Hnext & _).
      rewrite <- Hq in E. exists next. eexists _, _. split.
      * apply (fleet_block A s c a (worker_iteration K c) _ _ _ _ _ _ H Ha E). by split_and!.
      * destruct next; [|tauto|]; split; try done; intros [Hst Hn]; specialize (Hnext Hn); congruence.
  - assert (Hb : ∃ r ops q P, ∀ fuel, worker_resume K fuel c h (at_worker c a s) = Ok (Some r)
      (at_work c (rt_contexts (sy_rt s)) (fst a) (set_inflight_tasks 1 (engine a)) ops q (alive P) P)).
    { destruct (fleet_begin A s c a h hs 0 H Ha Ep) as (_ & _ & r & ops & q & _ & P & _ & _ & E & _).
      by exists r, ops, q, P. }
    destruct Hb as (r & ops & q & P & E). eexists r, _, _. intros fuel.
    apply (fleet_block A s c a (worker_resume K fuel c h) _ _ _ _ _ _ H Ha (E fuel)). by split_and!.
  - destruct (fleet_running A s c a h r hs H Ha Ep) as (f0 & _ & Hr).
    destruct (part_ok (Aw := hands (delete c A)) moved_from kStats c Hc (rt_contexts (sy_rt s)) (fst a) r h _ _ _ _ f0 _ Hr)
      as (o & en & ops & q & f & P & ys & E & _).
    eexists _, _, _. apply (fleet_block A s c a (worker_run K h r) _ _ _ _ _ _ H Ha E). by split_and!.
  - destruct (fleet_back A s c a h hs H Ha) as (f & Hi & Hrest & _); [by left|].
    destruct (turn_finish_ok (Aw := hands (delete c A)) moved_from kStats c Hc
      (rt_contexts (sy_rt s)) (fst a) h _ _ _ _ f (sy_tasks s) Hrest Hi) as (f' & P' & E & _).
    eexists _, _. apply (fleet_block A s c a (worker_finish K c h) _ _ _ _ _ _ H Ha E). by split_and!.
  - destruct (fleet_back A s c a h hs H Ha) as (f & Hi & Hrest & _); [by right|].
    destruct (turn_finish_ok (Aw := hands (delete c A)) moved_from kStats c Hc
      (rt_contexts (sy_rt s)) (fst a) h _ _ _ _ f (sy_tasks s) Hrest Hi) as (f' & P' & E & _).
    eexists _, _. apply (fleet_block A s c a (worker_finish K c h) _ _ _ _ _ _ H Ha E). by split_and!.
Qed.

(** ** A task reaches its context *)

Lemma fleet_deliver A s tr1 tr2 c h w' : fleet_inv A s → sy_transit s = tr1 ++ (c, h) :: tr2 →
  Context_submit_task c h (sy_rt s) = Ok tt w' →
  fleet_advances A s (MkSystem (sy_sched s) w' (sy_tasks s) (sy_workers s) (tr1 ++ tr2) (sy_waiting s) (sy_closers s)).
Proof.
  intros H Htr Hsub. pose proof (fi_targets _ _ H) as Htg. rewrite Htr in Htg.
  apply Forall_app in Htg as [Ht1 [[a Ha] Ht2]%Forall_cons]. cbn [fst] in Ha.
  rewrite (Context_submit_task_eq _ _ _ _ (fi_context _ _ _ _ H Ha)) in Hsub. injection Hsub as <-.
  set (q' := task_queue_ (engine a) ++ [h]).
  set (a' := (set_engine (set_tasks q' (engine a)) (fst a), snd a)).
  assert (Hheld : held a' ≡ₚ h :: held a).
  { unfold held, a', q'. cbn. change (io_handles (set_tasks q' (engine a))) with (io_handles (engine a)).
    rewrite <- app_assoc. cbn. by rewrite <- Permutation_middle. }
  assert (Hend : hands (<[c := a']> A) = hands A) by by apply (hands_same A c a a').
  apply (advances_insert A _ _ c a'); destruct H as [I1 I2 I3 I4 I5 I6 I7 I8 I9 I10 I11].
  - split; cbn [sy_rt sy_waiting sy_closers sy_workers sy_transit sy_tasks sy_sched rt_contexts rt_ops set_contexts
      pending_tasks_ local_context_ptr]; try done.
    + by rewrite I2, fmap_insert.
    + rewrite I3, fmap_insert. symmetry. apply insert_id. by rewrite lookup_fmap, Ha.
    + intros c' a0. destruct (decide (c' = c)) as [->|Hne]; [|rewrite lookup_insert_ne by done; apply I4].
      rewrite lookup_insert_eq. intros [= <-]. destruct (I4 _ _ Ha) as [F1 F2 F3 F4 F5]. split; try done.
      { by apply io_ok_tasks. }
      unfold phase_ok in *. destruct (snd a) as [| |h0 r hs|h0 hs|h0 hs|] eqn:Es; cbn [a' snd]; rewrite ?Es; try done.
      * destruct F5 as [Hp Hin]. split; [done|]. unfold a', q'. cbn.
        unfold io_handles, in_flight in Hin. rewrite !elem_of_app in *. tauto.
      * destruct F5 as (_ & _ & Hst). exfalso. assert (Hnil : sy_transit s = []) by (by eapply fi_stopping).
        rewrite Hnil in Htr. by destruct tr1.
    + apply Forall_app. split; [eapply Forall_impl; [exact Ht1|]|eapply Forall_impl; [exact Ht2|]];
        intros p Hp; cbn beta; rewrite lookup_insert_is_Some'; by right.
    + destruct I6 as [f Hf]. exists f. rewrite Hend. eapply inv_perm; [|exact Hf].
      rewrite Htr, handles_transit, handles_insert, Hheld. cbn. by rewrite (handles_worker A (tr1 ++ tr2) c a Ha).
    + by rewrite dom_insert_lookup_L by by eexists.
    + intros Hacc. rewrite (I10 Hacc) in Htr. by destruct tr1.
  - right. split; [unfold fleet_rank; cbn [fst sy_tasks]; by apply (bodies_same A _ c a a')|]. cbn [fst snd fleet_rank sy_transit sy_waiting sy_closers sy_tasks].
    rewrite (fleet_left_worker (<[c := a']> A) _ _ _ c a' (lookup_insert_eq _ _ _)), Htr.
    rewrite (fleet_left_worker A _ _ _ c a Ha), delete_insert_eq, dom_insert_lookup_L by by eexists.
    apply sooner_spec. left. unfold worker_left, a', q'.
    cbn [fst snd set_engine ctx_engine_ task_queue_ set_tasks].
    change (io_left (set_tasks (task_queue_ (engine a) ++ [h]) (engine a))) with (io_left (engine a)).
    rewrite !length_app. cbn [length]. lia.
Qed.
End steps.
