(* ===== verification/FleetEnd.v ===== *)
(** * The fleet: shutting down, submissions, and progress *)

From Stdlib Require Import Relation_Operators Lexicographic_Product.
From S2P Require Import Prelude Runtime Channel ChannelSpec ChannelRing ChannelRefine ChannelRun AsyncMutex AsyncMutexRun AsyncMutexProps WaitGroup Uring Engine EngineProps Context MultisetOrder Program ProgramInv ProgramRun ContextProps Responsive ProgramIo ProgramTurn ProgramWork Dispatcher Scheduler SchedulerProps System SystemClose Fleet FleetRun FleetSteps.

Open Scope Z_scope.

Section closers.
Context {U : Type} `{!Liburing U, !LiburingLaws U, !LiburingResponsive U} {T : Type}
  (moved_from : T → T) (kStats : bool).
Implicit Types (A : gmap ptr (ContextObj U * phase (script T))) (a : ContextObj U * phase (script T))
  (P : prog_world T) (s : system U (prog_world T) (script T)) (ops : gmap ptr IoOpAwaiter).

#[local] Abbreviation K := (scripts_of (U := U) moved_from kStats).
#[local] Abbreviation engine a := (ctx_engine_ (fst a)).

(** ** The threads that shut the runtime down *)

(** The scheduler and the closing threads change; each worker sees the same
    stop flag, and no task moves. *)
Lemma fleet_closers A s x' l' ks' : fleet_inv A s →
  (∀ c, c ∈ dom A → stopping x' ks' c = stopping (sy_sched s) (sy_closers s) c) →
  closing_ok (dom A) x' l' ks' → (accepting_ x' = false → sy_transit s = []) →
  (stop_requested_ x' = false → l' = false → pg_coros (sy_tasks s) = ∅) →
  fleet_inv A (MkSystem x' (sy_rt s) (sy_tasks s) (sy_workers s) (sy_transit s) l' ks').
Proof.
  intros [I1 I2 I3 I4 I5 I6 I7 I8 I9 I10 I11] Hst Hcl Hend Hleft.
  split; cbn [sy_rt sy_waiting sy_closers sy_workers sy_transit sy_tasks sy_sched]; try done.
  intros c a Ha. rewrite Hst; [by apply I4|]. apply elem_of_dom. by eexists.
Qed.

Lemma shorter_closing A s l' ks' x' : (closing_weight (dom A) l' ks' < closing_weight (dom A) (sy_waiting s) (sy_closers s))%nat →
  shorter (fleet_rank A (MkSystem x' (sy_rt s) (sy_tasks s) (sy_workers s) (sy_transit s) l' ks')) (fleet_rank A s).
Proof.
  intros Hw. right. split; [done|]. unfold fleet_rank, fleet_left. cbn [fst snd sy_transit sy_waiting sy_closers].
  apply sooner_spec. left. lia.
Qed.

Lemma no_coroutines A s : fleet_inv A s → pg_coros (sy_tasks s) = ∅ → handles A (sy_transit s) = [].
Proof.
  intros H E. destruct (fi_prog _ _ H) as [f Hf]. pose proof (nonblocking_keys (Aw := hands A) _ _ _ _ Hf) as Hk.
  rewrite E, map_to_list_empty in Hk. by apply Permutation_nil_r in Hk.
Qed.

Lemma none_alive P : alive P = 0 → pg_coros P = ∅.
Proof. unfold alive. intros E. apply map_size_empty_inv. lia. Qed.

Lemma fleet_leave A s : fleet_inv A s → sy_waiting s = true → loop_ready (MkSched (sy_sched s) (sy_rt s)) = true →
  fleet_advances A s (MkSystem (set_accepting false (sy_sched s)) (sy_rt s) (sy_tasks s)
    (sy_workers s) (sy_transit s) false (sy_closers s ++ [CEnter])).
Proof.
  intros H Hl Hr. pose proof (fi_closing _ _ H) as Hcl. rewrite Hl in Hcl.
  destruct (closing_leave _ _ _ Hcl) as (Hcl' & Hst & Hw).
  assert (Hnone : stop_requested_ (sy_sched s) = false → pg_coros (sy_tasks s) = ∅).
  { intros Hs. unfold loop_ready in Hr. cbn in Hr. rewrite Hs in Hr. apply Z.eqb_eq in Hr.
    apply none_alive. by rewrite <- (fi_pending _ _ H). }
  apply advances_same; [|apply shorter_closing; by rewrite Hl].
  apply fleet_closers; try done; [|intros Hs _; by apply Hnone].
  intros _. destruct (accepting_ (sy_sched s)) eqn:Ea; [|by apply (fi_end _ _ H)].
  destruct (proj1 Hcl Ea) as (_ & _ & _ & Hs).
  by apply (handles_nil A), no_coroutines, Hnone.
Qed.

Lemma fleet_shutdown A s ks1 ks2 cs x' : fleet_inv A s → sy_closers s = ks1 ++ CEnter :: ks2 →
  shutdown_locked (sy_sched s) = Ok (Some cs) x' →
  fleet_advances A s (MkSystem x' (sy_rt s) (sy_tasks s) (sy_workers s) (sy_transit s) (sy_waiting s)
    (ks1 ++ CHolds cs cs :: ks2)).
Proof.
  intros H Hks Hlock. pose proof (fi_closing _ _ H) as Hcl. rewrite Hks in Hcl.
  destruct (closing_shutdown _ _ _ _ _ _ _ Hcl Hlock) as (Hcl' & Hst & Ha & Ha' & Hs & Hw).
  apply advances_same; [|apply shorter_closing; by rewrite Hks]. apply fleet_closers; try done.
  - intros c Hc. rewrite Hks. by apply Hst.
  - intros _. by apply (fi_end _ _ H).
  - rewrite Hs. apply (fi_left _ _ H).
Qed.

Lemma fleet_shutdown_off A s ks1 ks2 x' : fleet_inv A s → sy_closers s = ks1 ++ CEnter :: ks2 →
  shutdown_locked (sy_sched s) = Ok None x' →
  fleet_advances A s (MkSystem x' (sy_rt s) (sy_tasks s) (sy_workers s) (sy_transit s) (sy_waiting s) (ks1 ++ ks2)).
Proof.
  intros H Hks Hlock. pose proof (fi_closing _ _ H) as Hcl. rewrite Hks in Hcl.
  destruct (closing_shutdown_off _ _ _ _ _ _ Hcl Hlock) as (-> & Hcl' & Hst & Hw).
  apply advances_same; [|apply shorter_closing; by rewrite Hks]. apply fleet_closers; try done.
  - intros c _. by rewrite Hks.
  - apply (fi_end _ _ H).
  - apply (fi_left _ _ H).
Qed.

(** A thread that has the contexts. *)
Lemma fi_holds A s ks1 ks2 cs todo : fleet_inv A s → sy_closers s = ks1 ++ CHolds cs todo :: ks2 →
  sy_transit s = [] ∧ (∀ c, c ∈ cs ↔ is_Some (A !! c)) ∧ todo ⊆ cs ∧
  ∀ c, stopping (sy_sched s) (sy_closers s) c = bool_decide (c ∉ todo).
Proof.
  intros H Hks. pose proof (fi_closing _ _ H) as Hcl. rewrite Hks in Hcl.
  destruct (closing_holds _ _ _ _ _ _ _ Hcl) as (Ei & Ea & _ & _ & Hcs & _ & Hsub & Hst).
  rewrite Hks. split_and!; [by apply (fi_end _ _ H)| |done|done].
  intros c. by rewrite Hcs, elem_of_dom.
Qed.

Lemma fleet_notify A s ks1 ks2 cs c todo w' : fleet_inv A s → sy_closers s = ks1 ++ CHolds cs (c :: todo) :: ks2 →
  Context_notify_stop c (sy_rt s) = Ok tt w' →
  fleet_advances A s (MkSystem (sy_sched s) w' (sy_tasks s) (sy_workers s) (sy_transit s) (sy_waiting s)
    (ks1 ++ CHolds cs todo :: ks2)).
Proof.
  intros H Hks Hnot. pose proof (fi_closing _ _ H) as Hcl. rewrite Hks in Hcl.
  destruct (closing_notify _ _ _ _ _ _ _ _ Hcl) as (Hc & Hcl' & Hno & Hst & Hw).
  apply elem_of_dom in Hc as [a Ha]. set (a' := (set_stop true (fst a), snd a)).
  rewrite (Context_notify_stop_eq _ _ _ (fi_context _ _ _ _ H Ha)) in Hnot. injection Hnot as <-.
  apply (advances_insert A _ _ c a'); destruct H as [I1 I2 I3 I4 I5 I6 I7 I8 I9 I10 I11].
  - split; cbn [sy_rt sy_waiting sy_closers sy_workers sy_transit sy_tasks sy_sched rt_contexts rt_ops set_contexts
      with_ctx pending_tasks_ local_context_ptr]; try done.
    + by rewrite I2, fmap_insert.
    + rewrite I3, fmap_insert. symmetry. apply insert_id. by rewrite lookup_fmap, Ha.
    + intros c' a0. rewrite Hst. rewrite Hks in I4. destruct (decide (c' = c)) as [->|Hne];
        [|rewrite lookup_insert_ne by done; apply I4].
      rewrite lookup_insert_eq. intros [= <-]. destruct (I4 _ _ Ha) as [F1 F2 F3 F4 F5]. split; try done.
      unfold phase_ok in *. rewrite Hno in F5. destruct (snd a) eqn:Es; cbn [a' snd]; rewrite ?Es; try done.
      by destruct F5 as (_ & _ & ?).
    + eapply Forall_impl; [exact I5|]. intros p Hp. cbn beta. rewrite lookup_insert_is_Some'. by right.
    + destruct I6 as [f Hf]. exists f. rewrite (hands_same A c a a' Ha eq_refl). eapply inv_perm; [|exact Hf].
      by rewrite handles_insert, (handles_worker A _ c a Ha).
    + rewrite dom_insert_lookup_L by by eexists. done.
  - right. split; [unfold fleet_rank; cbn [fst sy_tasks]; by apply (bodies_same A _ c a a')|]. unfold fleet_rank. cbn [fst snd sy_transit sy_waiting sy_closers sy_tasks]. rewrite Hks.
    rewrite (fleet_left_worker (<[c := a']> A) _ _ _ c a' (lookup_insert_eq _ _ _)).
    rewrite (fleet_left_worker A _ _ _ c a Ha), delete_insert_eq, dom_insert_lookup_L by by eexists.
    apply sooner_spec. left. change (worker_left a') with (worker_left a). lia.
Qed.

Lemma fleet_joined A s ks1 ks2 cs w' : fleet_inv A s → sy_closers s = ks1 ++ CHolds cs [] :: ks2 →
  Forall (λ c, sy_workers s !! c = Some PExited) cs → shutdown_destroy cs (sy_rt s) = Ok tt w' →
  fleet_advances A s (MkSystem (sy_sched s) w' (sy_tasks s) ∅ (sy_transit s) (sy_waiting s) (ks1 ++ ks2)).
Proof.
  intros H Hks Hex Hdes. destruct (fi_holds _ _ _ _ _ _ H Hks) as (Htr & Hcs & _).
  pose proof (fi_closing _ _ H) as Hcl. rewrite Hks in Hcl.
  destruct (closing_joined _ _ _ _ _ _ Hcl) as (_ & Hcl' & Hw).
  destruct (shutdown_destroy_eq cs (sy_rt s)) as (m & Hm & Hml).
  rewrite Hdes in Hm. injection Hm as ->. rewrite Forall_forall in Hex.
  assert (Hexit : ∀ c a, A !! c = Some a → snd a = FExited ∧ held a = []).
  { intros c a Ha. pose proof (Hex c ltac:(apply Hcs; by eexists)) as Hpc.
    rewrite (fi_workers _ _ H), lookup_fmap, Ha in Hpc. cbn in Hpc. injection Hpc as Hpc.
    pose proof (fw_phase _ _ _ _ _ (fi_ok _ _ H c a Ha)) as Hp. unfold phase_ok in Hp. unfold held.
    destruct (snd a); try discriminate Hpc. destruct Hp as (-> & -> & _). done. }
  assert (Hnil : handles A [] = []) by (apply handles_none; intros c a Ha; by apply (Hexit c)).
  assert (Hend : hands A = ∅).
  { apply elem_of_equiv_empty_L. intros h Hh. apply (hands_handles A []) in Hh. rewrite Hnil in Hh.
    by apply not_elem_of_nil in Hh. }
  exists ∅. destruct H as [I1 I2 I3 I4 I5 I6 I7 I8 I9 I10 I11]. rewrite Htr in *. split_and!; [| |by left].
  - split; cbn [sy_rt sy_waiting sy_closers sy_workers sy_transit sy_tasks sy_sched rt_contexts rt_ops set_contexts
      pending_tasks_ local_context_ptr]; try done.
    + apply map_eq. intros c. rewrite fmap_empty, lookup_empty, Hml, I2, lookup_fmap. specialize (Hcs c).
      case_decide as Hc; [done|]. destruct (A !! c); [|done]. destruct Hc. apply Hcs. by eexists.
    + destruct I6 as [f Hf]. exists f. rewrite Hnil, Hend in Hf. exact Hf.
  - right. split.
    { unfold fleet_rank. cbn [fst sy_tasks]. rewrite !bodies_resting; [done| |by intros c a Ha].
      intros c a Ha. destruct (Hexit c a Ha) as [-> _]. done. }
    unfold fleet_rank, fleet_left.
    cbn [fst snd sy_transit sy_waiting sy_closers sy_tasks]. rewrite Hks, dom_empty_L, map_to_list_empty.
    apply sooner_spec. left. cbn [sum_list_with length]. lia.
Qed.

(** Every step of the runtime keeps the invariant and comes closer to the end. *)
Lemma fleet_work_step A s s' : fleet_inv A s → work_step K s s' → fleet_advances A s s'.
Proof.
  intros H Hstep. inversion Hstep; subst.
  - exact (fleet_deliver A _ tr1 tr2 c h w' H eq_refl ltac:(eassumption)).
  - by eapply (fleet_pop A _ _ _ _ _ _ H).
  - by eapply (fleet_resume moved_from kStats A _ _ _ _ _ _ _ _ H).
  - by eapply (fleet_run moved_from kStats A _ _ _ _ _ _ _ _ H).
  - by eapply (fleet_finish moved_from kStats A _ _ _ _ _ _ H).
  - by eapply (fleet_batch_end A _ _ H).
  - by eapply (fleet_poll A _ _ _ _ _ H).
  - by eapply (fleet_exit moved_from kStats A _ _ _ _ H).
  - by eapply (fleet_leave A _ H).
  - by eapply (fleet_shutdown A _ _ _ _ _ H).
  - by eapply (fleet_shutdown_off A _ _ _ _ H).
  - by eapply (fleet_notify A _ _ _ _ _ _ _ H).
  - by eapply (fleet_joined A _ _ _ _ _ H).
Qed.

(** ** Progress *)

Lemma fleet_progress_worker A s c a : fleet_inv A s → A !! c = Some a →
  (∃ s', work_step K s s') ∨ held a = [] ∧ (snd a = FIdle ∨ snd a = FExited).
Proof.
  intros H Ha. pose proof (fi_ok _ _ H c a Ha) as Hok. pose proof (fleet_defined moved_from kStats A s c a H Ha) as Hb.
  pose proof (fi_context _ _ _ _ H Ha) as Hx. pose proof (fw_phase _ _ _ _ _ Hok) as Hp. unfold phase_ok in Hp.
  pose proof (inflight_count _ _ _ (fw_io _ _ _ _ _ Hok)) as Hcount.
  assert (Hpc : sy_workers s !! c = Some (fpc (snd a))) by by rewrite (fi_workers _ _ H), lookup_fmap, Ha.
  destruct s as [x w t pcs tr l ks]. unfold held. destruct (snd a) as [|[|h hs]|h r hs|h hs|h hs|];
    cbn [fpc fbatch fhand sy_rt sy_tasks sy_workers] in *.
  - destruct Hb as ((n & b & w' & t' & Hon & Hn) & (r & w2 & t2 & Hpoll) & _).
    destruct (task_queue_ (engine a)) eqn:Eq.
    + destruct (io_handles (engine a)) as [|h io] eqn:Eio; [right; by split; [|left]|left].
      eexists. eapply (sy_poll K); [done| |exact Hpoll]. exists (fst a). split; [done|]. rewrite Hcount. cbn. lia.
    + left. eexists. eapply (sy_pop K); [done|exact Hon|]. by intros ?%Hn.
  - left. eexists. by eapply (sy_batch_end K).
  - left. destruct Hb as (r & w' & t' & Hon). eexists. by eapply (sy_resume K _ _ _ _ _ _ _ _ _ _ 0).
  - left. destruct Hb as (o & w' & t' & Hon). eexists. by eapply (sy_run K).
  - left. destruct Hb as (w' & t' & Hon). eexists. by eapply (sy_finish K).
  - left. destruct Hb as (w' & t' & Hon). eexists. by eapply (sy_finish K).
  - right. destruct Hp as (-> & -> & _). by split; [|right].
Qed.

Lemma fleet_progress_workers A s : fleet_inv A s →
  (∃ s', work_step K s s') ∨ ∀ c a, A !! c = Some a → held a = [] ∧ (snd a = FIdle ∨ snd a = FExited).
Proof.
  intros H.
  assert (Hl : (∃ s', work_step K s s') ∨ Forall (λ p : ptr * (ContextObj U * phase (script T)),
    held (snd p) = [] ∧ (snd (snd p) = FIdle ∨ snd (snd p) = FExited)) (map_to_list A)).
  { assert (Hin : ∀ p, p ∈ map_to_list A → A !! fst p = Some (snd p))
      by (intros []; apply elem_of_map_to_list).
    induction (map_to_list A) as [|p l IH]; [by right|].
    destruct (fleet_progress_worker A s _ _ H (Hin p ltac:(by left))) as [Hs|Hp]; [by left|].
    destruct IH as [Hs|Hf]; [intros q Hq; apply Hin; by right|by left|].
    right. by apply Forall_cons. }
  destruct Hl as [Hs|Hf]; [by left|right]. intros c a Ha. rewrite Forall_forall in Hf.
  by apply (Hf (c, a)), elem_of_map_to_list.
Qed.

Lemma fleet_progress_closers A s k ks : fleet_inv A s → sy_closers s = k :: ks →
  (∀ c a, A !! c = Some a → held a = [] ∧ (snd a = FIdle ∨ snd a = FExited)) →
  ∃ s', work_step K s s'.
Proof.
  intros H Hks Hrest. destruct k as [|cs [|c todo]].
  - destruct s as [x w t pcs tr l ks']. cbn in Hks. subst ks'.
    destruct (initialized_ x) eqn:Ei; eexists.
    + eapply (sy_shutdown K _ _ _ _ _ _ []). unfold shutdown_locked, bind, get. by rewrite Ei.
    + eapply (sy_shutdown_off K _ _ _ _ _ _ []). unfold shutdown_locked, bind, get. by rewrite Ei.
  - destruct (fi_holds A s [] ks cs [] H Hks) as (_ & Hcs & _ & Hst).
    destruct (decide (Forall (λ c, sy_workers s !! c = Some PExited) cs)) as [Hex|Hex].
    + destruct (shutdown_destroy_eq cs (sy_rt s)) as (m & Hm & _). destruct s as [x w t pcs tr l ks'].
      cbn in *. subst ks'. eexists. by eapply (sy_joined K _ _ _ _ _ _ []).
    + apply not_Forall_Exists in Hex; [|intros c; apply _].
      apply Exists_exists in Hex as (c & Hc & Hpc). apply Hcs in Hc as [a Ha].
      destruct (Hrest c a Ha) as [He Hap]. pose proof (fi_ok _ _ H c a Ha) as Hok.
      assert (Hpc' : sy_workers s !! c = Some (fpc (snd a))) by by rewrite (fi_workers _ _ H), lookup_fmap, Ha.
      destruct Hap as [Hap|Hap]; [|rewrite Hap in Hpc'; by destruct Hpc].
      pose proof (fleet_defined moved_from kStats A s c a H Ha) as Hb. rewrite Hap in Hb, Hpc'. destruct Hb as (_ & _ & Hb).
      apply app_eq_nil in He as [Hq [Hio _]%app_eq_nil].
      destruct (Hb Hq) as (next & w' & t' & Hon & Hnext).
      assert (next = RunBreak) as ->.
      { apply Hnext. split; [|done]. rewrite (fw_stop _ _ _ _ _ Hok), Hst. apply bool_decide_eq_true, not_elem_of_nil. }
      destruct s as [x w t pcs tr l ks']. eexists. by eapply (sy_exit K).
  - destruct (fi_holds A s [] ks cs (c :: todo) H Hks) as (_ & Hcs & Hsub & _).
    destruct (Hcs c) as [[a Ha] _]; [apply Hsub; by left|]. pose proof (fi_context _ _ _ _ H Ha) as Hx.
    destruct s as [x w t pcs tr l ks']. cbn in *. subst ks'. eexists.
    eapply (sy_notify K _ _ _ _ _ _ []). by apply Context_notify_stop_eq.
Qed.

Lemma fleet_progress A s : fleet_inv A s → closed s = false → ∃ s', work_step K s s'.
Proof.
  intros H Hl. destruct (sy_transit s) as [|[c h] tr] eqn:Etr.
  2: { pose proof (fi_targets _ _ H) as Ht. rewrite Etr in Ht. destruct (Forall_inv Ht) as [a Ha]. cbn in Ha.
       pose proof (fi_context _ _ _ _ H Ha) as Hx. destruct s as [x w t pcs tr' l ks]. cbn in *. subst tr'.
       eexists. eapply (sy_deliver K x w t pcs []). by apply Context_submit_task_eq. }
  destruct (fleet_progress_workers A s H) as [Hs|Hrest]; [done|].
  destruct (sy_closers s) as [|k ks] eqn:Eks; [|by eapply fleet_progress_closers].
  unfold closed in Hl. rewrite Eks, andb_true_r in Hl. apply negb_false_iff in Hl.
  destruct (fi_prog _ _ H) as [f Hf]. pose proof (alive_length (Aw := hands A) _ _ _ _ Hf) as Hal.
  rewrite Etr, handles_none in Hal by (intros c a Ha; by apply (Hrest c)).
  pose proof (fi_pending _ _ H) as Hp. rewrite Hal in Hp.
  destruct s as [x w t pcs tr l ks]. cbn in *. subst l ks tr.
  eexists. apply (sy_leave K). unfold loop_ready. cbn. rewrite Hp. by rewrite orb_true_r.
Qed.
End closers.
