(* ===== verification/FleetProps.v ===== *)
(** * Properties of the fleet *)

From Stdlib Require Import Relation_Operators Lexicographic_Product.
From S2P Require Import Prelude Runtime Channel ChannelSpec ChannelRing ChannelRefine ChannelRun AsyncMutex AsyncMutexRun AsyncMutexProps WaitGroup Uring Engine EngineProps Context MultisetOrder Program ProgramInv ProgramRun ContextProps Responsive ProgramIo ProgramTurn ProgramWork ProgramProps Dispatcher Scheduler SchedulerProps System SystemClose SystemStart Fleet FleetRun FleetSteps FleetEnd.

Open Scope Z_scope.

Section submissions.
Context {U : Type} `{!Liburing U, !LiburingLaws U, !LiburingResponsive U} {T : Type}
  (moved_from : T → T) (kStats : bool).
Implicit Types (A : gmap ptr (ContextObj U * phase (script T))) (a : ContextObj U * phase (script T))
  (P : prog_world T) (s : system U (prog_world T) (script T)) (ops : gmap ptr IoOpAwaiter).

#[local] Abbreviation K := (scripts_of (U := U) moved_from kStats).
#[local] Abbreviation engine a := (ctx_engine_ (fst a)).

(** ** Submissions *)

(** A body has been called: the others' coroutines and requests are as they
    were. *)
Lemma fworker_called ops P stop c a h b act f E : prog_inv (Aw := E) None act f P → held a ⊆ act →
  pg_coros P !! h = None → fworker_ok ops P stop c a →
  fworker_ok ops (with_coro h (MkCoro (PStart b) []) P) stop c a.
Proof.
  intros Hf Hsub Hh Hok. apply (fworker_elsewhere ops ops P _ stop c a (engine a) Hok).
  - eapply (io_ok_move _ _ P _ h (MkCoro (PStart b) [])); [done| | |apply (fw_io _ _ _ _ _ Hok)].
    + unfold places. rewrite Hh. by intros (? & ? & ? & ? & ? & ? & [=]).
    + by intros (? & ? & ? & ? & ? & ? & [=]).
  - intros h' Hin%Hsub. apply (act_exists (Aw := E) _ _ _ _ _ Hf) in Hin as [y Hy]. cbn.
    rewrite lookup_insert_ne; [done|]. intros ->. by rewrite Hh in Hy.
Qed.

Lemma held_handles A tr c a : A !! c = Some a → held a ⊆ handles A tr.
Proof. intros Ha h Hh. rewrite (handles_worker A tr c a Ha). apply elem_of_app. by left. Qed.

Lemma fleet_submit A s h t' c x' w' : fleet_inv A s → script_call h (sy_tasks s) t' →
  submit_locked (MkSched (sy_sched s) (sy_rt s)) = Ok (Some c) (MkSched x' w') →
  fleet_inv A (MkSystem x' w' t' (sy_workers s) (sy_transit s ++ [(c, h)]) (sy_waiting s) (sy_closers s)).
Proof.
  intros H [b Hh Hfr Hb Hroom] Hsub.
  assert (HD : ∀ c', c' ∈ dom A → c' ≠ null ∧ is_Some (rt_contexts (sy_rt s) !! c')).
  { intros c' [a Ha]%elem_of_dom. rewrite (fi_context _ _ _ _ H Ha).
    split; [apply (fw_null _ _ _ _ _ (fi_ok _ _ H c' a Ha))|by eexists]. }
  destruct (closing_submit _ _ _ _ _ _ _ (fi_closing _ _ H) HD Hsub)
    as (Hc & Ha & Hi & Hl & Hks & Hstop & x1 & [= -> ->] & Hcl & Hst & Ha' & Hs').
  destruct (fi_prog _ _ H) as [f Hf]. apply elem_of_dom in Hc.
  assert (Halive : u64 (pending_tasks_ (sy_rt s) + 1) = alive (with_coro h (MkCoro (PStart b) []) (sy_tasks s))).
  { rewrite (fi_pending _ _ H). unfold alive. cbn -[size u64]. rewrite map_size_insert_None by done.
    rewrite u64_small; lia. }
  destruct H as [I1 I2 I3 I4 I5 I6 I7 I8 I9 I10 I11].
  split; cbn [sy_rt sy_waiting sy_closers sy_workers sy_transit sy_tasks sy_sched rt_contexts rt_ops
    set_pending_tasks pending_tasks_ local_context_ptr]; try done; try congruence.
  - intros c' a Hca. rewrite Hst. eapply (fworker_called _ _ _ _ a h b _ f (hands A) Hf); [|done|by apply I4].
    by eapply held_handles.
  - apply Forall_app. split; [done|]. by apply Forall_singleton.
  - exists f. pose proof (inv_create (Aw := hands A) None _ f _ h b Hf Hfr Hh Hroom Hb) as Hf'.
    eapply inv_perm; [|exact Hf']. unfold handles. rewrite fmap_app. cbn. by rewrite app_assoc.
  - intros h' Hop%I8. rewrite place_other; [done|]. intros ->. unfold places in Hop. rewrite Hfr in Hop.
    by destruct Hop as (? & ? & ? & ? & ? & ? & [=]).
Qed.

Lemma fleet_refused A s h t1 w' t' : fleet_inv A s → script_call h (sy_tasks s) t1 →
  task_destroy K h (sy_rt s, t1) = Ok tt (w', t') →
  w' = sy_rt s ∧
  fleet_inv A (MkSystem (sy_sched s) w' t' (sy_workers s) (sy_transit s) (sy_waiting s) (sy_closers s)).
Proof.
  intros H [b Hh Hfr Hb Hroom] Hd. destruct (fi_prog _ _ H) as [f Hf].
  revert Hd. set (t2 := with_coro h (MkCoro (PStart b) []) (sy_tasks s)). intros Hd.
  assert (Hh1 : pg_coros t2 !! h = Some (MkCoro (PStart b) [])) by apply lookup_insert_eq.
  pose proof (inv_create (Aw := hands A) None _ f _ h b Hf Hfr Hh Hroom Hb) as Hf1. fold t2 in Hf1.
  pose proof (inv_gone (Aw := hands A) None h (handles A (sy_transit s)) f t2 (PStart b)) as Hgone.
  cbn zeta in Hgone. specialize (Hgone ltac:(eapply inv_perm; [|exact Hf1]; apply Permutation_app_comm)
    ltac:(by left) Hh1 ltac:(done)).
  assert (Eops : delete h (rt_ops (sy_rt s)) = rt_ops (sy_rt s)).
  { apply delete_id, eq_None_not_Some. intros Hop%(fi_ops _ _ H). unfold places in Hop. rewrite Hfr in Hop.
    by destruct Hop as (? & ? & ? & ? & ? & ? & [=]). }
  unfold task_destroy in Hd. cbn [co_destroy tk_coroutines scripts_of script_coroutines] in Hd.
  unfold coro_destroy in Hd. erewrite bind_ok in Hd; [|unfold coro_at, bind, get; cbn [snd]; rewrite Hh1; reflexivity].
  unfold zoom, rt_op_delete, bind, modify, ret in Hd. cbn in Hd. rewrite Eops in Hd.
  injection Hd as <- <-. split; [by destruct (sy_rt s)|].
  set (t3 := set_coros _ _) in *.
  assert (EC : pg_coros t3 = pg_coros (sy_tasks s)) by (unfold t3, t2; cbn; by apply delete_insert_id).
  destruct H as [I1 I2 I3 I4 I5 I6 I7 I8 I9 I10 I11].
  split; cbn [sy_rt sy_waiting sy_closers sy_workers sy_transit sy_tasks sy_sched rt_contexts rt_ops
    pending_tasks_ local_context_ptr]; rewrite ?EC; try done.
  - intros c' a Hca. destruct (I4 _ _ Hca) as [F1 F2 F3 F4 F5].
    split; try done; [by apply (io_ok_same _ _ (sy_tasks s))|]. unfold phase_ok in *. by rewrite EC.
  - eexists. exact Hgone.
  - rewrite I7. unfold alive. by rewrite EC.
  - intros h' Hop%I8. unfold places. by rewrite EC.
Qed.

Lemma fleet_stop A s go x' : fleet_inv A s → sy_transit s = [] → stop_locked (sy_sched s) = Ok go x' →
  fleet_inv A (MkSystem x' (sy_rt s) (sy_tasks s) (sy_workers s) (sy_transit s) (sy_waiting s)
    (if go then sy_closers s ++ [CEnter] else sy_closers s)).
Proof.
  intros H Htr Hst. destruct (closing_stop _ _ _ _ _ _ (fi_closing _ _ H) Hst) as (Hcl & Hs & [[-> ->]|(-> & Ha & Hr)]).
  - by destruct s.
  - apply fleet_closers; try done; congruence.
Qed.

Lemma fleet_env_step A s s' : fleet_inv A s → env_step K s s' → fleet_inv A s'.
Proof.
  intros H Hstep.
  inversion Hstep as [x w t pcs tr l ks h t' c x' w' Hcall Hsub|x w t pcs tr l ks h t1 w' t' Hcall _ Hd|]; subst.
  - exact (fleet_submit A _ h t' c x' w' H Hcall Hsub).
  - exact (proj2 (fleet_refused A _ h t1 w' t' H Hcall Hd)).
  - by eapply (fleet_stop A _ go x' H).
Qed.

(** ** The start *)

Definition roomy_ring (u : U) : Prop := idle_ring u ∧ kQueueDepth ≤ sq_entries u < 2 ^ 64.

Lemma fleet_start `{!LiburingIdle U} n P s : 0 ≤ n < 2 ^ 64 → fresh_program [] P → sys_start n P s →
  ∃ A, fleet_inv A s.
Proof.
  intros Hn HP [x w Hinit].
  destruct (init_started roomy_ring) with (n := n) (x := x) (w := w) as (Hl & Ho & Hp & Hq & Hcl & Hst & Hacc); try done.
  { intros r u Hr Hr0. split; [by apply (idle_init kQueueDepth r u Hr)|by apply (responsive_init kQueueDepth r u)]. }
  assert (HP0 : pg_coros P = ∅).
  { pose proof (fp_queue _ _ HP) as E. apply Permutation_nil_l in E. symmetry in E.
    apply fmap_nil_inv, map_to_list_empty_iff in E. done. }
  set (A := (λ y, (y, FIdle : phase (script T))) <$> rt_contexts w).
  assert (Hctx : ∀ c a, A !! c = Some a → c ∈ contexts_ x ∧ c ≠ null ∧ snd a = FIdle ∧ new_context roomy_ring (fst a)).
  { intros c a. unfold A. rewrite lookup_fmap. specialize (Hq c). destruct (rt_contexts w !! c); [|done].
    intros [= <-]. destruct Hq as (? & ? & ?). by split_and!. }
  assert (Hheld : ∀ c a, A !! c = Some a → held a = []).
  { intros c a Ha. destruct (Hctx c a Ha) as (_ & _ & Ep & _ & u & [[Hu1 Hu2] _] & Ee). unfold held, io_handles, in_flight, outstanding.
    rewrite Ep, Ee. cbn. by rewrite Hu1, Hu2. }
  assert (Hend : hands A = ∅).
  { apply elem_of_equiv_empty_L. intros h (c & a & Ha & Hh)%hands_spec. destruct (Hctx c a Ha) as (_ & _ & Ep & _).
    rewrite Ep in Hh. by apply not_elem_of_nil in Hh. }
  destruct (fresh_inv (Aw := hands A) [] P HP ltac:(done)) as [f Hf].
  exists A. split; cbn [sy_rt sy_waiting sy_closers sy_workers sy_transit sy_tasks sy_sched]; try done.
  - unfold A. rewrite <- map_fmap_compose. symmetry. apply map_fmap_id.
  - apply map_eq. intros c. rewrite lookup_gset_to_gmap. unfold A. rewrite <- map_fmap_compose, lookup_fmap.
    specialize (Hq c). destruct (rt_contexts w !! c).
    + rewrite option_guard_True; [done|]. by apply elem_of_list_to_set, Hq.
    + rewrite option_guard_False; [done|]. by rewrite elem_of_list_to_set.
  - intros c a Ha. destruct (Hctx c a Ha) as (_ & Hnull & Ep & Hs & u & [[Hu1 Hu2] Hroom] & Ee).
    split; rewrite ?Ee, ?Ep; try done; [|by rewrite Hst|unfold phase_ok; by rewrite Ep].
    rewrite Ho. split; cbn; try done; [|unfold kQueueDepth in Hroom; lia|].
    + split; cbn; unfold in_flight, outstanding; cbn; rewrite ?Hu1, ?Hu2; done || constructor.
    + intros h. rewrite lookup_empty. split; [by intros [? ?]|]. unfold places. rewrite HP0, lookup_empty.
      by intros (? & ? & ? & ? & ? & ? & [=]).
  - exists f. rewrite handles_none by done. exact Hf.
  - rewrite Hp. unfold alive. by rewrite HP0.
  - rewrite Ho. intros h. rewrite lookup_empty. by intros [? ?].
  - assert (dom A = list_to_set (contexts_ x)) as ->; [|done].
    apply set_eq. intros c. rewrite elem_of_list_to_set, elem_of_dom. unfold A. rewrite lookup_fmap, fmap_is_Some.
    specialize (Hq c). destruct (rt_contexts w !! c); [destruct Hq; by split; [|eexists]|]. split; [by intros [? ?]|done].
Qed.

Lemma fleet_reachable `{!LiburingIdle U} n P s : 0 ≤ n < 2 ^ 64 → fresh_program [] P → sys_reachable K n P s →
  ∃ A, fleet_inv A s.
Proof.
  intros Hn HP (s0 & Hs0 & Hrtc). destruct (fleet_start n P s0 Hn HP Hs0) as [A H]. revert A H.
  clear Hs0. induction Hrtc as [s|s s1 s' [Hstep|Hstep] _ IH]; intros A H; [by exists A|..].
  - by eapply IH, fleet_env_step.
  - destruct (fleet_work_step moved_from kStats A s s1 H Hstep) as (A' & H' & _). by eapply IH.
Qed.
End submissions.

(** ** The observer's view *)

Section observed.
Context {U : Type} `{!Liburing U, !LiburingLaws U, !LiburingResponsive U} {T : Type}
  (moved_from : T → T) (kStats : bool).
Implicit Types (A : gmap ptr (ContextObj U * phase (script T))) (a : ContextObj U * phase (script T))
  (P : prog_world T) (s : system U (prog_world T) (script T)).

#[local] Abbreviation K := (scripts_of (U := U) moved_from kStats).
#[local] Abbreviation engine a := (ctx_engine_ (fst a)).

Lemma hand_phase A s c a : fleet_inv A s → A !! c = Some a →
  running_of (fpc (snd a)) ++ ending_of K (sy_tasks s) (fpc (snd a)) = fhand (snd a).
Proof.
  intros H Ha. pose proof (fw_phase _ _ _ _ _ (fi_ok _ _ H c a Ha)) as Hp. unfold phase_ok in Hp.
  destruct (snd a) as [| |h r hs|h hs|h hs|]; try done; cbn; unfold place_ended.
  - destruct Hp as [(o & k & gs & ->) _]. done.
  - by rewrite Hp.
Qed.

Lemma worker_has_held A s c a : fleet_inv A s → A !! c = Some a → worker_has K s c = held a.
Proof.
  intros H Ha. unfold worker_has. rewrite (fi_context _ _ _ _ H Ha), (fi_workers _ _ H), lookup_fmap, Ha. cbn.
  rewrite (hand_phase A s c a H Ha). unfold held. by destruct (snd a).
Qed.

Lemma worker_has_view A s c h : fleet_inv A s → h ∈ worker_has K s c → ∃ a, A !! c = Some a ∧ h ∈ held a.
Proof.
  intros H Hh. destruct (A !! c) as [a|] eqn:Ha.
  - exists a. split; [done|]. by rewrite (worker_has_held A s c a H Ha) in Hh.
  - unfold worker_has in Hh. rewrite (fi_contexts _ _ H), lookup_fmap, Ha in Hh. by apply not_elem_of_nil in Hh.
Qed.

(** No coroutine is with two workers. *)
Lemma held_once A s c1 c2 a1 a2 h : fleet_inv A s → A !! c1 = Some a1 → A !! c2 = Some a2 → c2 ≠ c1 →
  h ∈ held a1 → h ∈ held a2 → False.
Proof.
  intros H H1 H2 Hne Hh1 Hh2. destruct (fi_prog _ _ H) as [f Hf].
  destruct (fleet_own A s c1 a1 f h Hf H1 Hh1) as [Hn _]. apply Hn.
  rewrite (handles_worker (delete c1 A) _ c2 a2) by by rewrite lookup_delete_ne.
  apply elem_of_app. by left.
Qed.

Lemma bind_values {X Y} (g : X → Y) (F : Y → list handle) (m : gmap ptr X) :
  (map_to_list (g <$> m) ≫= λ p, F (snd p)) ≡ₚ (map_to_list m ≫= λ p, F (g (snd p))).
Proof. rewrite map_to_list_fmap. induction (map_to_list m) as [|[c x] l IH]; [done|]. cbn. by rewrite IH. Qed.

Lemma fleet_everywhere A s : fleet_inv A s →
  waiting s ++ polling s ++ running s ++ ending K s ≡ₚ handles A (sy_transit s).
Proof.
  intros H. unfold waiting, polling, running, ending, handles. rewrite (fi_contexts _ _ H), (fi_workers _ _ H).
  rewrite (bind_values fst (λ x, task_queue_ (ctx_engine_ x))), (bind_values fst (λ x, io_handles (ctx_engine_ x))).
  rewrite (bind_values (λ a, fpc (snd a)) batch_of), (bind_values (λ a, fpc (snd a)) running_of).
  rewrite (bind_values (λ a, fpc (snd a)) (ending_of K (sy_tasks s))).
  assert (E : (map_to_list A ≫= λ p, held (snd p)) ≡ₚ
    (map_to_list A ≫= λ p, task_queue_ (engine (snd p))) ++ (map_to_list A ≫= λ p, io_handles (engine (snd p))) ++
    (map_to_list A ≫= λ p, batch_of (fpc (snd (snd p)))) ++
    (map_to_list A ≫= λ p, running_of (fpc (snd (snd p)))) ++
    (map_to_list A ≫= λ p, ending_of K (sy_tasks s) (fpc (snd (snd p))))).
  { rewrite <- !bind_perm_app.
    assert (Hin : ∀ p, p ∈ map_to_list A → A !! fst p = Some (snd p)) by (intros []; apply elem_of_map_to_list).
    induction (map_to_list A) as [|[c a] l IH]; [done|]. cbn. rewrite IH by (intros p Hp; apply Hin; by right).
    rewrite (hand_phase A s c a H (Hin (c, a) ltac:(by left))). unfold held. by destruct (snd a). }
  rewrite E. solve_Permutation.
Qed.

(** ** Runs *)

Lemma fleet_acc A s : fleet_inv A s → Acc (flip (work_step K)) s.
Proof.
  remember (fleet_rank A s) as r eqn:Er. revert A s Er.
  induction (shorter_wf r) as [r _ IH]. intros A s -> H. constructor. intros s' Hstep.
  destruct (fleet_work_step moved_from kStats A s s' H Hstep) as (A' & H' & Hlt & _). by eapply (IH _ Hlt).
Qed.

Lemma fleet_rtc A s s' : fleet_inv A s → rtc (work_step K) s s' → ∃ A', fleet_inv A' s'.
Proof.
  intros H Hrtc. revert A H. induction Hrtc as [s|s s1 s' Hstep _ IH]; intros A H; [by exists A|].
  destruct (fleet_work_step moved_from kStats A s s1 H Hstep) as (A' & H' & _). by apply (IH A').
Qed.

Lemma fleet_ends A s : fleet_inv A s → ∃ s', rtc (work_step K) s s' ∧ closed s' = true.
Proof.
  intros H. pose proof (fleet_acc A s H) as Hacc. revert A H. induction Hacc as [s _ IH]. intros A H.
  destruct (closed s) eqn:Hl; [by exists s|].
  destruct (fleet_progress moved_from kStats A s H Hl) as [s1 Hs1].
  destruct (fleet_work_step moved_from kStats A s s1 H Hs1) as (A' & H' & _).
  destruct (IH s1 Hs1 A' H') as (s' & Hr & Hd). exists s'. split; [|done]. by eapply rtc_l.
Qed.

Lemma fleet_none A s : fleet_inv A s → rt_contexts (sy_rt s) = ∅ →
  A = ∅ ∧ pg_coros (sy_tasks s) = ∅ ∧ sy_transit s = [] ∧ handles A (sy_transit s) = [].
Proof.
  intros H Hc. assert (A = ∅) as ->.
  { rewrite (fi_contexts _ _ H) in Hc. by apply fmap_empty_inv in Hc. }
  assert (Htr : sy_transit s = []).
  { destruct (sy_transit s) as [|p tr] eqn:Etr; [done|]. pose proof (fi_targets _ _ H) as Ht. rewrite Etr in Ht.
    destruct (Forall_inv Ht) as [a Ha]. by rewrite lookup_empty in Ha. }
  assert (Hh : handles (∅ : gmap ptr (ContextObj U * phase (script T))) (sy_transit s) = []).
  { rewrite Htr. apply handles_none. intros c a. by rewrite lookup_empty. }
  split_and!; [done| |done|done]. destruct (fi_prog _ _ H) as [f Hf].
  pose proof (alive_length (Aw := hands (∅ : gmap ptr (ContextObj U * phase (script T)))) _ _ _ _ Hf) as Hal. rewrite Hh in Hal. by apply none_alive.
Qed.

Lemma fleet_closed A s : fleet_inv A s → closed s = true →
  pg_coros (sy_tasks s) = ∅ ∧ rt_ops (sy_rt s) = ∅ ∧ pending_tasks_ (sy_rt s) = 0 ∧
  rt_contexts (sy_rt s) = ∅ ∧ sy_transit s = [] ∧ sy_workers s = ∅.
Proof.
  unfold closed. intros H [Hw Hk]%andb_true_iff. apply negb_true_iff in Hw.
  pose proof (fi_closing _ _ H) as Hcl. rewrite Hw in Hcl. destruct (sy_closers s); [|done].
  apply closing_closed, dom_empty_inv_L in Hcl. subst A.
  assert (Hctx : rt_contexts (sy_rt s) = ∅) by by rewrite (fi_contexts _ _ H), fmap_empty.
  destruct (fleet_none ∅ s H Hctx) as (_ & HP & Htr & _). split_and!; try done.
  - apply map_eq. intros h. rewrite lookup_empty. apply eq_None_not_Some. intros Hop%(fi_ops _ _ H).
    unfold places in Hop. rewrite HP, lookup_empty in Hop. by destruct Hop as (? & ? & ? & ? & ? & ? & [=]).
  - rewrite (fi_pending _ _ H). unfold alive. by rewrite HP.
  - by rewrite (fi_workers _ _ H), fmap_empty.
Qed.
End observed.

(** ** Properties *)


(** C8. Accounting on all workers. In any state of such a run each coroutine
    that exists is in exactly one place: on its way to a context, in a queue, in
    a batch, with one ring, or running or at its end in a worker's hands;
    [pending_tasks_] is their number, also while bodies submit bodies.  The awaiter of every
    request a ring has not answered exists.  When [loop] has left its wait
    without a [stop] there are no coroutines, nor when the contexts are
    destroyed. *)
Theorem fleet_accounting {U} `{!Liburing U, !LiburingLaws U, !LiburingIdle U, !LiburingResponsive U} {T}
    (moved_from : T → T) kStats n (P : prog_world T) (s : system U (prog_world T) (script T)) :
  let K := scripts_of moved_from kStats in
  let everywhere := waiting s ++ polling s ++ running s ++ ending K s in
  0 ≤ n < 2 ^ 64 → fresh_program [] P → sys_reachable K n P s →
  NoDup everywhere ∧ pending_tasks_ (sy_rt s) = Z.of_nat (length everywhere) ∧
  (∀ h, is_Some (pg_coros (sy_tasks s) !! h) ↔ h ∈ everywhere) ∧
  (∀ c x p, rt_contexts (sy_rt s) !! c = Some x → p ∈ in_flight (ctx_engine_ x) → is_Some (rt_ops (sy_rt s) !! p)) ∧
  (sy_waiting s = false → stop_requested_ (sy_sched s) = false → everywhere = []) ∧
  (rt_contexts (sy_rt s) = ∅ → everywhere = []).
Proof.
  intros K everywhere Hn HP Hs. destruct (fleet_reachable moved_from kStats n P s Hn HP Hs) as [A H].
  pose proof (fleet_everywhere moved_from kStats A s H) as Ev. fold K everywhere in Ev.
  destruct (fi_prog _ _ H) as [f Hf]. pose proof (inv_nodup (Aw := hands A) _ _ _ _ Hf) as [Hnd _]%NoDup_app.
  split_and!.
  - by rewrite Ev.
  - rewrite (fi_pending _ _ H), (alive_length (Aw := hands A) _ _ _ _ Hf). by rewrite Ev.
  - intros h. rewrite Ev. symmetry. apply (act_exists (Aw := hands A) _ _ _ _ _ Hf).
  - intros c x p Hx Hp. rewrite (fi_contexts _ _ H), lookup_fmap in Hx.
    destruct (A !! c) as [a|] eqn:Ha; [|done]. injection Hx as <-.
    pose proof (ew_ops _ (io_wf _ _ _ (fw_io _ _ _ _ _ (fi_ok _ _ H c a Ha)))) as Hops.
    rewrite Forall_forall in Hops. by apply Hops.
  - intros Hl Hst. rewrite (no_coroutines A s H (fi_left _ _ H Hst Hl)) in Ev. by apply Permutation_nil_r in Ev.
  - intros Hc. destruct (fleet_none A s H Hc) as (_ & _ & _ & Hh). rewrite Hh in Ev. by apply Permutation_nil_r in Ev.
Qed.

(** C17. Safety on all workers. In any state of such a run the next block of
    every worker in [run] is defined and throws nothing: taking a batch, polling
    its ring, resuming the next coroutine of its batch, the next operation of a
    body that runs, whatever the other workers' bodies have done since its last
    one, and looking at the coroutine that has come back and destroying it when
    it has ended; a worker that finds its queue empty leaves its loop exactly if
    it was asked to stop and waits for nothing of its ring.  Once a context was
    asked to stop no submission is on its way. *)
Theorem fleet_worker_safe {U} `{!Liburing U, !LiburingLaws U, !LiburingIdle U, !LiburingResponsive U} {T}
    (moved_from : T → T) kStats n (P : prog_world T) (s : system U (prog_world T) (script T)) c pc :
  let K := scripts_of moved_from kStats in
  0 ≤ n < 2 ^ 64 → fresh_program [] P → sys_reachable K n P s → sy_workers s !! c = Some pc →
  ∃ x, rt_contexts (sy_rt s) !! c = Some x ∧ (ctx_stop_ x = true → sy_transit s = []) ∧
  match pc with
  | PIdle =>
      (∃ p w' t', on_worker c (worker_pop c) (sy_rt s) (sy_tasks s) p w' t') ∧
      (∃ b w' t', on_worker c (worker_poll c) (sy_rt s) (sy_tasks s) b w' t') ∧
      (task_queue_ (ctx_engine_ x) = [] → ∃ b w' t',
         on_worker c (worker_iteration K c) (sy_rt s) (sy_tasks s) b w' t' ∧
         (b = RunBreak ↔ ctx_stop_ x = true ∧ inflight_io_ (ctx_engine_ x) = 0))
  | PBatch (h :: _) =>
      ∃ r w' t', ∀ fuel, on_worker c (worker_resume K fuel c h) (sy_rt s) (sy_tasks s) (Some r) w' t'
  | PTurn h r _ => ∃ o w' t', on_worker c (worker_run K h r) (sy_rt s) (sy_tasks s) o w' t'
  | PResumed h _ => ∃ w' t', on_worker c (worker_finish K c h) (sy_rt s) (sy_tasks s) tt w' t'
  | _ => True
  end.
Proof.
  intros K Hn HP Hs Hpc. destruct (fleet_reachable moved_from kStats n P s Hn HP Hs) as [A H].
  destruct (fi_worker _ _ _ _ H Hpc) as (a & Ha & ->). pose proof (fi_ok _ _ H c a Ha) as Hok.
  exists (fst a). split_and!; [by eapply fi_context| |].
  { rewrite (fw_stop _ _ _ _ _ Hok). intros Hst. by eapply fi_stopping. }
  pose proof (fleet_defined moved_from kStats A s c a H Ha) as Hb.
  destruct (snd a) as [|[|h hs]|h r hs|h hs|h hs|]; try done. destruct Hb as ((m & b & w' & t' & Hon & _) & Hpoll & Hit).
  split_and!; [by eexists _, _, _|done|]. intros Hq. destruct (Hit Hq) as (next & w1 & t1 & Hon1 & Hnext).
  exists next, w1, t1. split; [done|]. rewrite Hnext, (inflight_count _ _ _ (fw_io _ _ _ _ _ Hok)).
  destruct (io_handles (ctx_engine_ (fst a))); cbn; split; intros [? ?]; done.
Qed.

(** C19. Affinity. In such a run a coroutine that a worker has taken stays with
    it: no step hands it to another worker, whether it yields, waits for the
    ring or submits. *)
Theorem fleet_affinity {U} `{!Liburing U, !LiburingLaws U, !LiburingIdle U, !LiburingResponsive U} {T}
    (moved_from : T → T) kStats n (P : prog_world T) (s s' : system U (prog_world T) (script T)) c c' h :
  let K := scripts_of moved_from kStats in
  0 ≤ n < 2 ^ 64 → fresh_program [] P → sys_reachable K n P s → sys_step K s s' →
  h ∈ worker_has K s c → h ∈ worker_has K s' c' → c' = c.
Proof.
  intros K Hn HP Hs Hstep Hc Hc'. destruct (fleet_reachable moved_from kStats n P s Hn HP Hs) as [A H].
  assert (∃ A', fleet_inv A' s' ∧ one_changed A A') as (A' & H' & Hone).
  { destruct Hstep as [Hstep|Hstep].
    - exists A. split; [by eapply fleet_env_step|]. right. by exists null.
    - destruct (fleet_work_step moved_from kStats A s s' H Hstep) as (A' & H' & _ & Hone). by exists A'. }
  destruct (worker_has_view moved_from kStats A s c h H Hc) as (a & Ha & Hh).
  destruct (worker_has_view moved_from kStats A' s' c' h H' Hc') as (a' & Ha' & Hh').
  destruct (decide (c' = c)) as [|Hne]; [done|]. exfalso.
  destruct Hone as [->|[d Hd]]; [by rewrite lookup_empty in Ha'|].
  destruct (decide (c' = d)) as [->|Hne'].
  - rewrite <- (Hd c) in Ha by done. by eapply (held_once A' s' c d).
  - rewrite (Hd c') in Ha' by done. by eapply (held_once A s c c').
Qed.

(** ** A run: two contexts, and a body that submits another and uses the ring *)

Definition demo_fleet_body : script Z :=
  Program.SSubmit (demo_read SReturn) (SOp (OTrySend 5) (λ _, SOp OYield (λ _, demo_read SReturn))).

Definition demo_fleet_program : prog_world Z := new_program [] Channel_default [] 0.

Definition demo_fleet_context (id : Z) (q b : list handle) : ContextObj sim_ring :=
  MkContext id (set_tasks q (Engine_make (MkSimRing 256 [] []))) false b.
Definition demo_fleet_rt (q b : list handle) (p : Z) : rt_world sim_ring :=
  MkRt {[1%N := demo_fleet_context 0 q b; 2%N := demo_fleet_context 1 [] []]} ∅ p null.

(** The body, submitted as coroutine 10, on its way to context 1, in its queue,
    or in its batch. *)
Definition demo_fleet (q b : list handle) (pc : worker_pc (script Z)) (tr : list (ptr * handle)) :
    system sim_ring (prog_world Z) (script Z) :=
  MkSystem (MkScheduler [1%N; 2%N] (MkDispatcher 2 1) false true true) (demo_fleet_rt q b 1)
    (with_coro 10%N (MkCoro (PStart demo_fleet_body) []) demo_fleet_program)
    {[1%N := pc; 2%N := PIdle]} tr true [].

Abbreviation demo_scripts := (scripts_of (U := sim_ring) (T := Z) (λ _, 0) true).

Lemma demo_fleet_fresh : fresh_program [] demo_fleet_program.
Proof. apply (new_program_fresh (Discipline0 := nonblocking) []); try done; [constructor|by apply not_elem_of_nil|by left]. Qed.

Lemma demo_fleet_submitted : sys_reachable demo_scripts 2 demo_fleet_program (demo_fleet [] [] PIdle [(1%N, 10%N)]).
Proof.
  exists (MkSystem (MkScheduler [1%N; 2%N] (MkDispatcher 2 0) false true true) (demo_fleet_rt [] [] 0)
    demo_fleet_program {[1%N := PIdle; 2%N := PIdle]} [] true []). split.
  - apply (sys_start_intro 2 demo_fleet_program (MkScheduler [1%N; 2%N] (MkDispatcher 2 0) false true true)).
    by vm_compute.
  - apply rtc_once. left. eapply (sy_submit demo_scripts _ _ demo_fleet_program _ [] true [] 10%N _ 1%N);
      [by constructor|reflexivity].
Qed.

Lemma demo_fleet_delivered : sys_reachable demo_scripts 2 demo_fleet_program (demo_fleet [10%N] [] PIdle []).
Proof.
  destruct demo_fleet_submitted as (s0 & H0 & Hr). exists s0. split; [done|]. eapply rtc_r; [exact Hr|].
  right. apply (sy_deliver demo_scripts _ _ _ _ [] []). by vm_compute.
Qed.

Lemma demo_fleet_taken : sys_step demo_scripts (demo_fleet [10%N] [] PIdle []) (demo_fleet [] [10%N] (PBatch [10%N]) []).
Proof.
  right. pose proof (sy_pop demo_scripts (MkScheduler [1%N; 2%N] (MkDispatcher 2 1) false true true)
    (demo_fleet_rt [10%N] [] 1) (with_coro 10%N (MkCoro (PStart demo_fleet_body) []) demo_fleet_program)
    {[1%N := PIdle; 2%N := PIdle]} [] true [] 1%N 1%nat [10%N] (demo_fleet_rt [] [10%N] 1)
    (with_coro 10%N (MkCoro (PStart demo_fleet_body) []) demo_fleet_program)) as H.
  rewrite insert_insert_eq in H. apply H; [done| |done].
  exists (set_local_context 1%N (demo_fleet_rt [] [10%N] 1)). by split; vm_compute.
Qed.

(** The body is resumed. *)
Definition demo_fleet_turn : system sim_ring (prog_world Z) (script Z) :=
  MkSystem (MkScheduler [1%N; 2%N] (MkDispatcher 2 1) false true true)
    (MkRt {[1%N := MkContext 0 (set_inflight_tasks 1 (Engine_make (MkSimRing 256 [] []))) false [10%N];
            2%N := demo_fleet_context 1 [] []]} ∅ 1 null)
    (with_coro 10%N (MkCoro PRun []) demo_fleet_program)
    {[1%N := PTurn 10%N demo_fleet_body []; 2%N := PIdle]} [] true [].

Lemma demo_fleet_resumed : sys_reachable demo_scripts 2 demo_fleet_program demo_fleet_turn.
Proof.
  destruct demo_fleet_delivered as (s0 & H0 & Hr). exists s0. split; [done|].
  eapply rtc_r; [eapply rtc_r; [exact Hr|exact demo_fleet_taken]|]. right.
  pose proof (sy_resume demo_scripts (MkScheduler [1%N; 2%N] (MkDispatcher 2 1) false true true)
    (demo_fleet_rt [] [10%N] 1) (with_coro 10%N (MkCoro (PStart demo_fleet_body) []) demo_fleet_program)
    {[1%N := PBatch [10%N]; 2%N := PIdle]} [] true [] 1%N 10%N [] 0 (Some demo_fleet_body)
    (sy_rt demo_fleet_turn) (sy_tasks demo_fleet_turn)) as H.
  rewrite insert_insert_eq in H. apply H; [done|].
  exists (set_local_context 1%N (sy_rt demo_fleet_turn)). split; by vm_compute.
Qed.


Lemma fleet_accounting_witness :
  pending_tasks_ (sy_rt (demo_fleet [10%N] [] PIdle [])) = 1 ∧ waiting (demo_fleet [10%N] [] PIdle []) = [10%N].
Proof.
  split; [|reflexivity].
  exact (proj1 (proj2 (fleet_accounting (λ _, 0) true 2 demo_fleet_program (demo_fleet [10%N] [] PIdle [])
    ltac:(lia) demo_fleet_fresh demo_fleet_delivered))).
Defined.

(** Its next operation is the submission of a further body. *)
Lemma fleet_worker_safe_witness :
  ∃ o w' t', on_worker 1%N (worker_run demo_scripts 10%N demo_fleet_body) (sy_rt demo_fleet_turn)
    (sy_tasks demo_fleet_turn) o w' t'.
Proof.
  destruct (fleet_worker_safe (λ _, 0) true 2 demo_fleet_program demo_fleet_turn 1%N (PTurn 10%N demo_fleet_body [])
    ltac:(lia) demo_fleet_fresh demo_fleet_resumed eq_refl) as (x & _ & _ & Hrun). exact Hrun.
Defined.

(** Taken by the first worker, it is not with the second. *)
Lemma fleet_affinity_witness :
  10%N ∈ worker_has demo_scripts (demo_fleet [10%N] [] PIdle []) 1%N ∧
  10%N ∉ worker_has demo_scripts (demo_fleet [] [10%N] (PBatch [10%N]) []) 2%N.
Proof.
  assert (H1 : 10%N ∈ worker_has demo_scripts (demo_fleet [10%N] [] PIdle []) 1%N) by (by left).
  split; [exact H1|]. intros H2.
  by pose proof (fleet_affinity (λ _, 0) true 2 demo_fleet_program (demo_fleet [10%N] [] PIdle [])
    (demo_fleet [] [10%N] (PBatch [10%N]) []) 1%N 2%N 10%N ltac:(lia) demo_fleet_fresh demo_fleet_delivered
    demo_fleet_taken H1 H2).
Defined.
